(* ===== verification/_CoqProject ===== *)
-Q . S2P
Prelude.v
StdList.v
Handler.v
Optional.v
Blocks.v
OrdMap.v
ReadPlan.v
DataStorage.v
Tasks.v
IoOperations.v
LruCache.v
LruSpec.v
LruProofs.v
SingleFlight.v
ExtensionStorage.v
MultiLru.v
Policy.v
PolicyProofs.v
CppString.v
StringUtil.v
Config.v
ThreadPool.v
Utils.v
ThreadPoolProofs.v
Profile.v
LocalFs.v
Url.v
FilesystemUtils.v
DiskCacheUtil.v
AccessIndex.v
DiskCacheProofs.v
DiskNames.v
PolicyStorage.v
PolicyStorageProofs.v
ObjectStorage.v
Storages.v
ParquetLayout.v
Remap.v
InMemReader.v
PooledRead.v
CacheHits.v
InstanceConfig.v
DiskReader.v
DiskReaderProofs.v
DiskHits.v
PooledDiskRead.v
DiskMaintenance.v
InstanceState.v
Settings.v
HandleCache.v
HandleCacheProofs.v
ThreadSafe.v
ReadPath.v
ManagedReader.v
TableFunctions.v
TableProofs.v
CacheFs.v
PassThrough.v
TestFs.v
CacheFsProofs.v
ClearProofs.v
Lifetime.v
Extension.v
ExtensionProofs.v
