(* ===== verification/Prelude.v ===== *)
(** * The read cache of DuckDB's httpfs: a verification development

    The extension [cache_httpfs] wraps the filesystems of a DuckDB database and serves reads of
    remote files from a cache, in memory or on disk.  This library models its C++ sources
    (below [src/src/]) as executable definitions with the names of the sources, and proves what
    makes them correct.  This file, the root, holds what all others share: unsigned 64-bit
    arithmetic, exceptions ([Res]), byte ranges and generic lemmas.

    ** The program

    A query reads through a [CacheFileSystem], which keeps a metadata cache, a glob cache and a
    cache of open handles, and hands the bytes asked for to the cache reader of the database
    instance.  The reader cuts the request into blocks of a grid, or along the column chunks of
    a Parquet file, and processes the pieces in parallel, each one from memory, from a cache
    file or from the remote file.  Settings, table functions and scalar functions of SQL
    change, inspect and clear all this.

    ** The files

    _Shared_: [Prelude]; [StdList], [OrdMap] (the containers of the C++ library), [CppString]
    ([std::string]); [StringUtil] (the functions of DuckDB that the sources use, as a class with
    laws); [Handler] (operations on a state that may throw); [Tasks] (tasks that interleave by
    atomic steps, with invariants, bounded termination, rounds and results).

    _Support_: [Optional] ([optional.hpp] with the lifetimes of the objects in its storage,
    [scope_guard.hpp]); [ThreadPool], [ThreadPoolProofs] ([thread_pool.cpp] with its queue, condition
    variables, futures and destructor, and the executor over it); [ThreadSafe] (the mutex, its locks and the
    methods of the thread-safe wrappers, statement by statement); [Utils] (byte counts, clocks, names of threads, the executor on
    the scheduler of DuckDB).

    _Caches_: [LruCache], [LruSpec], [LruProofs] (the three single-value LRU caches);
    [SingleFlight] ([GetOrCreate]); [MultiLru] (the cache of handles); [Policy], [PolicyProofs]
    (LRU, FIFO, MRU, CLOCK).

    _Block storage_: [Blocks] (keys, chunks, alignment); [DataStorage] (the interface of a backend
    and its laws); [ExtensionStorage], [PolicyStorage], [PolicyStorageProofs], [ObjectStorage] (the three
    backends); [Storages] (the backend that the settings select); [Remap] (a new block size).

    _Readers_: [ReadPlan], [ParquetLayout] (how a request becomes pieces); [InMemReader]; [PooledRead]
    (the in-memory reader on the thread pool, as [PooledDiskRead] is the other one); [CacheHits] (reading
    again from memory) and [DiskHits] (from the cache files); [LocalFs] (the local filesystem as a class with laws),
    [FilesystemUtils], [Url], [DiskCacheUtil], [DiskCacheProofs], [DiskNames] (cache files and their
    names), [AccessIndex] (access times), [DiskReader], [DiskReaderProofs], [PooledDiskRead], [DiskMaintenance]; [ReadPath]
    (the interface of a reader, the reader without a cache, the simulated remote) and [ManagedReader]
    (the reader and the storage that the settings select).

    _The instance_: [Config], [InstanceConfig] (constants and settings); [IoOperations], [Profile]
    (profile collectors); [InstanceState] (registry, collectors, readers, exclusions); [Settings]
    (the callbacks of the settings); [Lifetime] (the end of an instance).

    _The filesystem and SQL_: [HandleCache], [HandleCacheProofs] (file handles); [CacheFs], [CacheFsProofs],
    [PassThrough] ([cache_filesystem.cpp]); [ClearProofs]; [TableFunctions], [TableProofs]; [Extension],
    [ExtensionProofs] (loading, wrapping, scalar functions); [TestFs] (the filesystems of the unit
    tests).

    ** How code is modelled

    A class is a record of its members, a method a function of the record.  A method that throws
    returns [Res]; where the state after an exception matters it is a [Handler].  Undefined behaviour
    is an exception of its own, so that a theorem about the result excludes it.  [idx_t], [size_t] and
    [uint64_t] are [Z] reduced modulo 2^64 wherever the sources compute; [unsigned] is reduced modulo
    2^32.  A [double] is a rational with its rounding as a parameter; where NaN and the infinities
    matter, for the simulated bandwidth, it is one of [CppString.double].  The clock is an argument.

    The local filesystem may throw where it opens, reads, writes, moves or removes a file or asks for
    its time ([LocalFs]), as the calls of the sources do.  An exception that leaves a destructor ends
    the process: the result is [Terminated].  [faulty] is an instance with paths that do not open or
    cannot be removed.

    Concurrency is interleaving.  Where threads meet at a lock, one critical section is one step.
    [ThreadSafe] proves for the wrapped objects that this is no restriction: methods whose
    statements interleave turn by turn, each with the lock that it takes or without one, behave as
    if called one after the other.  A thread that waits on a condition variable sleeps: it is listed
    with the variable, and its turns do nothing until a notification or a spurious wake-up takes it
    off the list, so that a lost notification is a thread that never returns ([ThreadPool],
    [SingleFlight]).  The sub-reads of a request are the tasks of [Tasks], whose steps are the calls on the
    storage, on the local filesystem and on the remote file; other queries run between them.
    [ThreadPoolProofs] proves that the pool only chooses among such interleavings, and [PooledRead] and
    [PooledDiskRead] put the two together.

    Interfaces are classes with laws: a client is verified against the laws, an implementation
    discharges them.  So the in-memory reader is correct on each of the three storages, the storage
    for each of the four policies, and the filesystem with each of the three readers.  What is
    outside the sources (DuckDB's object cache, string functions and virtual filesystem, the local
    filesystem, [std::sort], the internal filesystem) is a class too, with its documented
    behaviour as laws and an instance that keeps them; SHA-256, regular expressions, random UUIDs and
    the page size are arguments.

    ** What is proved

    - _Reads_: a read of either reader returns exactly the bytes asked for or throws what the
      allocator, the filesystems or the remote threw, however sub-reads and other queries
      interleave, and the caches keep telling the truth; for the disk reader the remote file is one that
      does not change while it is cached ([in_memory_read_correct],
      [disk_read_correct]); it ends on the thread pool ([pooled_read_returns], [pooled_disk_read_returns]); so does a read through
      the filesystem with any settings ([configured_read_correct], [read_is_a_read_of_the_file],
      [reads_deliver_the_file_in_order]).  Plans tile the request ([plan_tiles_request],
      [column_plan_tiles_request], [register_then_find]).
    - _Hits_: a range that was read is read again without the remote file, from memory on the fixed grid as long as the
      working set fits and is young enough ([repeated_read_needs_no_remote], against the class
      [RetainingStorage], of which the count-bounded storage is an instance), and from the cache files
      whatever the process remembers ([disk_cache_outlives_the_process]).
    - _Caches_: each cache refines an abstract one ([shared_lru_refines], [multi_lru_refines],
      [access_index_refines_recency]); budgets hold ([policy_storage_within_budget], [policy_put_then_get]);
      victims are the ones a policy announces ([victim_of_history]); creation happens once and
      ends, unless a factory returns a null pointer ([creation_is_single_flight],
      [every_creation_returns]); locked methods are linearizable
      ([locked_methods_linearize]).
    - _Cache files_: they appear complete or not at all ([store_is_atomic]), are read by readers of their
      version only ([local_read_validates]), never confused ([block_paths_distinct]) and listed back
      ([published_block_is_listed], [status_lists_the_cache]).
    - _Handles_: every internal handle has exactly one place ([handles_are_exclusive], [open_gives_the_file]); whatever is destroyed first at the end of an instance,
      all cached handles are closed, once ([instance_ends_in_any_order]).
    - _Clearing_: of one file ([disk_clear_file_exact], [cleared_file_is_forgotten]) and of everything
      ([cleared_cache_is_empty]).
    - _Instance and SQL_: settings stay valid ([settings_stay_valid], [block_size_change_is_safe]); loading
      and wrapping ([loaded_database_is_ready], [wrapped_filesystem_is_cached]); rows have the types of
      their columns ([table_rows_fit_their_columns]); the size of the cache is exact
      ([on_disk_cache_size_is_exact]); statistics are sums ([temp_collector_aggregates]).
    - _Support_: [optional_refines_option], [thread_pool_refines_tasks], [thread_pool_wait_ends],
      [parse_url_reassembles].

    Some lemmas record what the code does against its intention: a block that survives the clearing of
    its file, a default that cannot be set again, a moved file that keeps its cached size, and others.

    ** Fuel and bounds

    Loops of the sources are structural recursions where they walk a container, and recursions on
    fuel otherwise, with a lemma that the fuel given is enough: the block loop of [ReadPlan] takes
    one unit per block, the planner of [ParquetLayout] one per byte asked for (each turn moves on by
    one byte at least), [Take] one per entry, the sweep of CLOCK two turns of its ring and one
    step, a free timestamp one more than the timestamps in use.  A sub-read ends in as many of its own
    turns as its measure; a pool of n workers ends after 4n + 7 rounds in which every thread has a
    turn, and seven more and the job's own steps for each job; four
    rounds are enough for callers of [GetOrCreate], and five rounds per call for locked methods ([locked_methods_return]).

    ** Not modelled

    - The task scheduler of DuckDB, of which [Tasks] is an assumption; a pool without workers.  Spurious
      wake-ups happen in the safety theorems of the pool and of [GetOrCreate]; the bounds on rounds count none.
    - The lifetime of pinned blocks, which live as long as they are used, and, outside [Lifetime], of
      weak references.  The storage that the readers hold is built once, as [std::call_once] does.
    - The macOS and Windows branches; the wall-clock effect of simulated latency, whose
      amount is computed; logging; signal handling.
    - The catalogue of DuckDB, of which the names registered are kept; argument checks and vectors of
      its functions.
    - [NoDestructor], type traits and lock annotations, which have no behaviour of their own; the timed
      methods of [unique_lock], which [std::mutex] does not support.
    - Hashing and comparing through references ([map_utils.hpp]), which are those of the values; byte
      counts in floating point.
*)
From stdpp Require Export base tactics option list gmap strings sorting.
From Stdlib Require Export ZArith Lia.
From Stdlib Require Export Init.Byte.
From Stdlib Require Strings.Byte.

#[local] Open Scope Z_scope.

(** ** Machine integers

    [idx_t], [uint64_t] and [size_t] are unsigned 64-bit integers: every
    arithmetic result is reduced modulo 2^64. *)
Abbreviation two64 := 18446744073709551616 (only parsing).

Definition u64 (z : Z) : Z := z mod two64.
Definition is_u64 (z : Z) : Prop := 0 <= z < two64.

Declare Scope u64_scope.
Delimit Scope u64_scope with u64.
Notation "a +u b" := (u64 (a + b)) (at level 50, left associativity) : u64_scope.
Notation "a -u b" := (u64 (a - b)) (at level 50, left associativity) : u64_scope.
Notation "a *u b" := (u64 (a * b)) (at level 40, left associativity) : u64_scope.
#[global] Open Scope u64_scope.

Lemma u64_small z : 0 <= z < two64 -> u64 z = z.
Proof. apply Z.mod_small. Qed.

Lemma u64_range z : is_u64 (u64 z).
Proof. unfold is_u64, u64. apply Z.mod_pos_bound. lia. Qed.

Lemma u64_idem z : u64 (u64 z) = u64 z.
Proof. apply u64_small, u64_range. Qed.

Lemma u64_add_l a b : u64 (u64 a + b) = u64 (a + b).
Proof. apply Zplus_mod_idemp_l. Qed.

Lemma u64_sub_l a b : u64 (u64 a - b) = u64 (a - b).
Proof. apply Zminus_mod_idemp_l. Qed.

(** The signed integer of 64 bits with the same bits. *)
Definition i64 (z : Z) : Z := let u := u64 z in if u <? 9223372036854775808 then u else u - two64.

Lemma i64_small z : 0 <= z < 9223372036854775808 -> i64 z = z.
Proof. intros Hz. unfold i64, u64. rewrite Z.mod_small by lia. by rewrite (proj2 (Z.ltb_lt _ _)) by lia. Qed.

(** [u64_norm] removes every wrap-around whose operand is provably in range. *)
Ltac u64_norm :=
  repeat match goal with
         | |- context [u64 ?z] => rewrite (u64_small z) by (unfold is_u64 in *; lia)
         end.
Ltac u64_norm_in H :=
  repeat match type of H with
         | context [u64 ?z] => rewrite (u64_small z) in H by (unfold is_u64 in *; lia)
         end.

(** ** Exceptions

    C++ exceptions the modelled code raises; [AssertionFailure] is a failed
    [ALWAYS_ASSERT] and [UndefinedBehaviour] stands for an access outside the
    memory it may touch (a write past a buffer, a null dereference). *)
Inductive exn : Type :=
| InvalidInputException
| InternalException
| IOException
| BadAlloc
| AssertionFailure
| BadOptionalAccess
| UndefinedBehaviour
| Terminated.

#[export] Instance exn_eq_dec : EqDecision exn.
Proof. solve_decision. Defined.

Inductive Res (A : Type) : Type :=
| Ok (a : A)
| Throw (e : exn).
Arguments Ok {_} _.
Arguments Throw {_} _.

#[export] Instance Res_ret : MRet Res := @Ok.
#[export] Instance Res_bind : MBind Res := fun A B f m =>
  match m with Ok a => f a | Throw e => Throw e end.

#[export] Instance Res_eq_dec {A} `{EqDecision A} : EqDecision (Res A).
Proof. solve_decision. Defined.

Definition is_ok {A} (r : Res A) : bool :=
  match r with Ok _ => true | Throw _ => false end.

(** [ALWAYS_ASSERT]. *)
Definition always_assert (b : bool) : Res unit :=
  if b then Ok tt else Throw AssertionFailure.

Definition of_option {A} (e : exn) (o : option A) : Res A :=
  match o with Some a => Ok a | None => Throw e end.

Lemma bind_Ok {A B} (m : Res A) (f : A -> Res B) b :
  (m ≫= f) = Ok b -> exists a, m = Ok a /\ f a = Ok b.
Proof. destruct m; simpl; [eauto|done]. Qed.

#[export] Instance byte_eq_decision : EqDecision byte.
Proof. exact Strings.Byte.byte_eq_dec. Defined.

(** ** Byte ranges *)
Definition slice {A} (l : list A) (off len : Z) : list A :=
  take (Z.to_nat len) (drop (Z.to_nat off) l).

(** [memmove] of [data] into [buf] at [pos]; [None] when the write leaves the
    buffer (undefined behaviour in C++). *)
Definition write_at {A} (buf : list A) (pos : Z) (data : list A) : option (list A) :=
  if decide (0 <= pos /\ pos + Z.of_nat (length data) <= Z.of_nat (length buf)) then
    Some (take (Z.to_nat pos) buf ++ data ++ drop (Z.to_nat pos + length data) buf)
  else None.

(** Reading [len] elements from [off]; [None] when they are not all there. *)
Definition read_at {A} (l : list A) (off len : Z) : option (list A) :=
  if decide (0 <= off /\ 0 <= len /\ off + len <= Z.of_nat (length l)) then Some (slice l off len)
  else None.

(** [agrees a i b j n]: the [n] elements of [a] from [i] are those of [b] from [j]. *)
Definition agrees {A} (a : list A) (i : Z) (b : list A) (j n : Z) : Prop :=
  forall d, 0 <= d < n -> a !! Z.to_nat (i + d) = b !! Z.to_nat (j + d).

Section Ranges.
Context {A : Type}.
Implicit Types (l buf data : list A).

Lemma length_slice l off len :
  0 <= off -> 0 <= len -> off + len <= Z.of_nat (length l) ->
  Z.of_nat (length (slice l off len)) = len.
Proof. intros. unfold slice. rewrite length_take, length_drop. lia. Qed.

Lemma lookup_slice l off len d :
  0 <= off -> 0 <= d < len ->
  slice l off len !! Z.to_nat d = l !! Z.to_nat (off + d).
Proof.
  intros. unfold slice. rewrite lookup_take_lt by lia. rewrite lookup_drop.
  f_equal. lia.
Qed.

Lemma slice_full l : slice l 0 (Z.of_nat (length l)) = l.
Proof. unfold slice. rewrite Nat2Z.id. simpl. apply take_ge. lia. Qed.

Lemma slice_slice l a n b m :
  0 <= a -> 0 <= b -> 0 <= m -> b + m <= n ->
  slice (slice l a n) b m = slice l (a + b) m.
Proof.
  intros. unfold slice. rewrite skipn_firstn_comm, take_take, drop_drop.
  f_equal; [lia|]. f_equal. lia.
Qed.

Lemma slice_app l a n m :
  0 <= a -> 0 <= n -> 0 <= m -> slice l a n ++ slice l (a + n) m = slice l a (n + m).
Proof.
  intros. unfold slice. rewrite !Z2Nat.inj_add by lia.
  rewrite <-drop_drop. by rewrite take_take_drop.
Qed.

Lemma slice_of_agrees buf l off len :
  0 <= off -> 0 <= len -> Z.of_nat (length buf) = len ->
  off + len <= Z.of_nat (length l) ->
  agrees buf 0 l off len -> buf = slice l off len.
Proof.
  intros Hoff Hlen Hbuf Hl Hag. apply list_eq. intros i.
  destruct (decide (i < Z.to_nat len)%nat) as [Hi|Hi].
  - specialize (Hag (Z.of_nat i) ltac:(lia)).
    replace i with (Z.to_nat (Z.of_nat i)) at 2 by lia.
    rewrite lookup_slice by lia. by rewrite <-Hag, Z.add_0_l, Nat2Z.id.
  - rewrite !lookup_ge_None_2; [done| |lia].
    pose proof (length_slice l off len). lia.
Qed.

Lemma slice_agrees (a b : list A) i j n :
  0 <= i -> 0 <= j -> 0 <= n -> i + n <= Z.of_nat (length a) -> j + n <= Z.of_nat (length b) ->
  agrees a i b j n -> slice a i n = slice b j n.
Proof.
  intros ? ? ? ? ? Hag. apply slice_of_agrees; try done; [by apply length_slice|].
  intros d ?. rewrite Z.add_0_l, lookup_slice by lia. by apply Hag.
Qed.

Lemma write_at_is_some buf pos data :
  0 <= pos -> pos + Z.of_nat (length data) <= Z.of_nat (length buf) ->
  is_Some (write_at buf pos data).
Proof. intros. unfold write_at. rewrite decide_True by lia. eauto. Qed.

Lemma length_write_at buf pos data buf' :
  write_at buf pos data = Some buf' -> length buf' = length buf.
Proof.
  unfold write_at. case_decide; [|done]. intros [= <-].
  rewrite !length_app, length_take, length_drop. lia.
Qed.

Lemma lookup_write_at buf pos data buf' i :
  write_at buf pos data = Some buf' ->
  buf' !! i = if decide (pos <= Z.of_nat i < pos + Z.of_nat (length data))
              then data !! Z.to_nat (Z.of_nat i - pos) else buf !! i.
Proof.
  unfold write_at. case_decide as Hd; [|done]. intros [= <-].
  destruct (decide (Z.of_nat i < pos)) as [?|?].
  { rewrite decide_False by lia. rewrite lookup_app_l by (rewrite length_take; lia).
    by rewrite lookup_take_lt by lia. }
  rewrite lookup_app_r by (rewrite length_take; lia).
  rewrite length_take, Nat.min_l by lia.
  case_decide.
  - rewrite lookup_app_l by lia. f_equal. lia.
  - rewrite lookup_app_r by lia. rewrite lookup_drop. f_equal. lia.
Qed.

Lemma agrees_write_at_same buf pos data buf' l off :
  0 <= pos -> write_at buf pos data = Some buf' ->
  agrees data 0 l off (Z.of_nat (length data)) ->
  agrees buf' pos l off (Z.of_nat (length data)).
Proof.
  intros Hp Hw Ha d Hd. rewrite (lookup_write_at _ _ _ _ _ Hw).
  rewrite decide_True by lia. specialize (Ha d Hd). rewrite <-Ha.
  f_equal. lia.
Qed.

Lemma agrees_write_at_disjoint buf pos data buf' l i off n :
  0 <= pos -> 0 <= i -> write_at buf pos data = Some buf' ->
  i + n <= pos \/ pos + Z.of_nat (length data) <= i ->
  agrees buf i l off n -> agrees buf' i l off n.
Proof.
  intros Hp Hi Hw Hdis Ha d Hd. rewrite (lookup_write_at _ _ _ _ _ Hw).
  rewrite decide_False by lia. by apply Ha.
Qed.

Lemma agrees_slice l off len : 0 <= off -> agrees (slice l off len) 0 l off len.
Proof. intros ? d ?. rewrite Z.add_0_l. by apply lookup_slice. Qed.

Lemma agrees_join (a b : list A) i j n m :
  0 <= n -> agrees a i b j n -> agrees a (i + n) b (j + n) m -> agrees a i b j (n + m).
Proof.
  intros Hn H1 H2 d Hd. destruct (decide (d < n)).
  - apply H1. lia.
  - specialize (H2 (d - n) ltac:(lia)).
    replace (i + n + (d - n)) with (i + d) in H2 by lia.
    replace (j + n + (d - n)) with (j + d) in H2 by lia. done.
Qed.
End Ranges.

Lemma read_at_Some {A} (l : list A) off len :
  0 <= off -> 0 <= len -> off + len <= Z.of_nat (length l) -> read_at l off len = Some (slice l off len).
Proof. intros. unfold read_at. by rewrite decide_True by lia. Qed.

Create HintDb ranges.
#[export] Hint Resolve agrees_slice : ranges.

(** ** Sums *)
Definition sum_Z (l : list Z) : Z := foldr Z.add 0 l.

Lemma sum_Z_cons x l : sum_Z (x :: l) = (x + sum_Z l)%Z.
Proof. done. Qed.

Lemma sum_Z_app l1 l2 : sum_Z (l1 ++ l2) = sum_Z l1 + sum_Z l2.
Proof. induction l1; simpl; lia. Qed.

Lemma sum_Z_perm l1 l2 : l1 ≡ₚ l2 -> sum_Z l1 = sum_Z l2.
Proof. induction 1; simpl; lia. Qed.

#[export] Instance sum_Z_proper : Proper ((≡ₚ) ==> (=)) sum_Z.
Proof. intros l1 l2. apply sum_Z_perm. Qed.

Lemma sum_Z_nonneg l : Forall (fun z => 0 <= z) l -> 0 <= sum_Z l.
Proof. induction 1; simpl; lia. Qed.

Lemma filter_all {A} (P : A -> Prop) `{forall x, Decision (P x)} (l : list A) :
  Forall P l -> filter P l = l.
Proof.
  induction 1 as [|x l Hx _ IH]; [done|]. rewrite filter_cons_True by done. by rewrite IH.
Qed.

Lemma filter_ext_in {A} (P Q : A -> Prop) `{forall x, Decision (P x), forall x, Decision (Q x)} (l : list A) :
  (forall x, x ∈ l -> P x <-> Q x) -> filter P l = filter Q l.
Proof.
  induction l as [|x l IH]; intros Hx; [done|]. rewrite !filter_cons, IH by (intros y Hy; apply Hx; by constructor).
  pose proof (Hx x ltac:(constructor)). repeat case_decide; tauto.
Qed.

Lemma filter_of_fmap {A B} (f : A -> B) (P : B -> Prop) `{forall x, Decision (P x)} (l : list A) :
  filter P (f <$> l) = f <$> filter (fun x => P (f x)) l.
Proof. induction l as [|x l IH]; [done|]. rewrite fmap_cons, !filter_cons, IH. by case_decide. Qed.

Lemma Forall_filter_of {A} (Q P : A -> Prop) `{forall x, Decision (P x)} (l : list A) :
  Forall Q l -> Forall Q (filter P l).
Proof. rewrite !Forall_forall. intros HQ x [_ Hx]%list_elem_of_filter. auto. Qed.

(** ** Lists without a key *)
Section Without.
Context {A : Type} `{EqDecision A}.
Implicit Types (l : list A).

Definition without (a : A) (l : list A) : list A := filter (fun x => x <> a) l.

Lemma elem_of_without a b l : b ∈ without a l <-> b <> a /\ b ∈ l.
Proof. unfold without. by rewrite list_elem_of_filter. Qed.

Lemma NoDup_without a l : NoDup l -> NoDup (without a l).
Proof. unfold without. apply NoDup_filter. Qed.

Lemma without_not_in a l : a ∉ l -> without a l = l.
Proof.
  intros Hn. induction l as [|x l IH]; [done|].
  unfold without in *. rewrite filter_cons. apply not_elem_of_cons in Hn as [].
  case_decide; [|congruence]. f_equal. auto.
Qed.

Lemma without_app a l1 l2 : without a (l1 ++ l2) = without a l1 ++ without a l2.
Proof. unfold without. apply filter_app. Qed.

Lemma without_cons a x l :
  without a (x :: l) = if decide (x = a) then without a l else x :: without a l.
Proof. unfold without. rewrite filter_cons. repeat case_decide; tauto. Qed.

Lemma without_Permutation a l : NoDup l -> a ∈ l -> l ≡ₚ a :: without a l.
Proof.
  induction l as [|x l IH]; intros Hnd Hin; [by inversion Hin|].
  apply NoDup_cons in Hnd as [Hx Hnd]. rewrite without_cons. case_decide as Heq.
  - subst. by rewrite without_not_in.
  - rewrite IH at 1; [by constructor|done|]. by apply elem_of_cons in Hin as [->|].
Qed.

Lemma length_without a l : NoDup l -> a ∈ l -> length l = S (length (without a l)).
Proof. intros. by rewrite (without_Permutation a l) at 1. Qed.

Lemma length_without_le a l : (length (without a l) <= length l)%nat.
Proof. unfold without. apply length_filter. Qed.
End Without.

Lemma NoDup_omap_inj {A B} (f : A -> option B) (l : list A) :
  NoDup l -> (forall x y b, x ∈ l -> y ∈ l -> f x = Some b -> f y = Some b -> x = y) -> NoDup (omap f l).
Proof.
  induction 1 as [|x l Hx _ IH]; intros Hinj; [constructor|]. simpl.
  assert (NoDup (omap f l)) by (apply IH; intros y z b Hy Hz; apply Hinj; by constructor).
  destruct (f x) as [b|] eqn:Hf; [|done]. constructor; [|done].
  intros (y & Hy & Hfy)%list_elem_of_omap. apply Hx.
  by rewrite (Hinj x y b); [|constructor|by constructor|..].
Qed.
