(* ===== verification/StdList.v ===== *)
(** * StdList

    [std::list] with its iterators.  A node keeps its identity for as long as
    it is in the list, whatever is inserted, erased or spliced around it, so a
    list is a sequence of nodes (identifier, element) and an iterator is a node
    identifier ([None] is [end()]).  [linked] relates such a list of keys to the
    index (key to iterator) that every cache of the program keeps next to it. *)
From S2P Require Import Prelude.

Record slist (A : Type) := SList { nodes : list (N * A); fresh : N }.
Arguments SList {_} _ _.
Arguments nodes {_} _.
Arguments fresh {_} _.

Abbreviation iter := N (only parsing).

Section StdList.
Context {A : Type}.
Implicit Types (l : slist A).

Definition sl_empty : slist A := SList [] 0.

(** [clear] keeps the identifier supply: old iterators stay dead. *)
Definition sl_clear l : slist A := SList [] (fresh l).

Definition values l : list A := snd <$> nodes l.
Definition ids l : list iter := fst <$> nodes l.

(** The iterator the next inserted node gets. *)
Definition next_iter l : iter := fresh l.

Definition emplace_front (a : A) l : slist A :=
  SList ((fresh l, a) :: nodes l) (N.succ (fresh l)).

(** [list::insert (pos, a)]: before [pos], at the back when [pos] is [end()]. *)
Fixpoint insert_before_nodes (pos : iter) (n : N * A) (ns : list (N * A)) : list (N * A) :=
  match ns with
  | [] => [n]
  | m :: ns' => if decide (m.1 = pos) then n :: m :: ns' else m :: insert_before_nodes pos n ns'
  end.
Definition insert_before (pos : option iter) (a : A) l : slist A :=
  let n := (fresh l, a) in
  SList (match pos with
         | None => nodes l ++ [n]
         | Some p => insert_before_nodes p n (nodes l)
         end) (N.succ (fresh l)).

Definition erase_nodes (it : iter) (ns : list (N * A)) : list (N * A) :=
  filter (fun n => n.1 <> it) ns.
Definition erase (it : iter) l : slist A := SList (erase_nodes it (nodes l)) (fresh l).

Definition deref (it : iter) l : option A :=
  snd <$> List.find (fun n => bool_decide (n.1 = it)) (nodes l).

(** [splice (begin (), *this, it)]: the node moves to the front. *)
Definition splice_front (it : iter) l : slist A :=
  match deref it l with
  | Some a => SList ((it, a) :: erase_nodes it (nodes l)) (fresh l)
  | None => l
  end.

Definition back l : option A := snd <$> last (nodes l).
Definition front l : option A := snd <$> head (nodes l).
Definition pop_back l : slist A := SList (removelast (nodes l)) (fresh l).
Definition pop_front l : slist A := SList (tail (nodes l)) (fresh l).
Definition size l : nat := length (nodes l).

Definition sl_wf l : Prop := NoDup (ids l) /\ Forall (fun n => (n.1 < fresh l)%N) (nodes l).

Lemma sl_wf_empty : sl_wf sl_empty.
Proof. split; constructor. Qed.

Lemma length_values l : length (values l) = size l.
Proof. apply length_fmap. Qed.

Lemma fresh_not_in l a : sl_wf l -> (fresh l, a) ∉ nodes l.
Proof.
  intros [_ Hf] Hin. rewrite Forall_forall in Hf. specialize (Hf _ Hin). simpl in Hf. lia.
Qed.

Lemma fresh_not_in_ids l : sl_wf l -> fresh l ∉ ids l.
Proof.
  intros Hw Hin. unfold ids in Hin. apply list_elem_of_fmap in Hin as ([i a] & Heq & Hin).
  simpl in Heq. subst. by apply (fresh_not_in l a).
Qed.

Lemma node_inj l i a b : sl_wf l -> (i, a) ∈ nodes l -> (i, b) ∈ nodes l -> a = b.
Proof.
  intros [Hnd _]. unfold ids in Hnd. induction (nodes l) as [|[j c] ns IH]; [by intros ?%elem_of_nil|].
  simpl in Hnd. apply NoDup_cons in Hnd as [Hj Hnd].
  assert (forall x, (j, x) ∈ ns -> False) as Hno.
  { intros x Hx. apply Hj. apply list_elem_of_fmap. by exists (j, x). }
  rewrite !elem_of_cons. intros [?|?] [?|?]; simplify_eq; eauto; exfalso; eauto.
Qed.

Lemma deref_Some l i a : sl_wf l -> deref i l = Some a <-> (i, a) ∈ nodes l.
Proof.
  intros Hw. unfold deref. split.
  - destruct (List.find _ _) as [[j b]|] eqn:Hf; [|done]. simpl. intros [= <-].
    apply List.find_some in Hf as [Hin Hb%bool_decide_eq_true]. simpl in Hb. subst.
    by apply list_elem_of_In.
  - intros Hin. destruct (List.find _ _) as [[j b]|] eqn:Hf; simpl.
    + apply List.find_some in Hf as [Hin2 Hb%bool_decide_eq_true]. simpl in Hb. subst.
      f_equal. eapply node_inj; [done| |done]. by apply list_elem_of_In.
    + apply list_elem_of_In in Hin. eapply List.find_none in Hf; [|done].
      simpl in Hf. by rewrite bool_decide_true in Hf.
Qed.

Lemma elem_of_erase_nodes i j a ns : (j, a) ∈ erase_nodes i ns <-> j <> i /\ (j, a) ∈ ns.
Proof. unfold erase_nodes. rewrite list_elem_of_filter. done. Qed.

Lemma ids_erase_sub i ns : fst <$> erase_nodes i ns = filter (fun j => j <> i) (fst <$> ns).
Proof.
  unfold erase_nodes. induction ns as [|[j a] ns IH]; [done|].
  simpl. rewrite !filter_cons. simpl. repeat case_decide; simpl; try tauto; f_equal; apply IH.
Qed.

Lemma sl_wf_erase i l : sl_wf l -> sl_wf (erase i l).
Proof.
  intros [Hnd Hf]. split; simpl.
  - unfold ids. simpl. rewrite ids_erase_sub. by apply NoDup_filter.
  - rewrite Forall_forall in *. intros n [_ Hn]%list_elem_of_filter. by apply Hf.
Qed.

Lemma sl_wf_emplace_front a l : sl_wf l -> sl_wf (emplace_front a l).
Proof.
  intros Hw. pose proof (fresh_not_in_ids _ Hw) as Hn. destruct Hw as [Hnd Hf]. split; simpl.
  - unfold ids; simpl. by apply NoDup_cons.
  - constructor; simpl; [lia|]. eapply Forall_impl; [done|]. simpl. lia.
Qed.

Lemma insert_before_nodes_perm p n ns : insert_before_nodes p n ns ≡ₚ n :: ns.
Proof.
  induction ns as [|m ns IH]; simpl; [done|]. case_decide; [done|].
  rewrite IH. apply Permutation_swap.
Qed.

Lemma insert_before_perm p a l : nodes (insert_before p a l) ≡ₚ (fresh l, a) :: nodes l.
Proof.
  destruct p; simpl; [apply insert_before_nodes_perm|].
  by rewrite <-Permutation_cons_append.
Qed.

Lemma sl_wf_perm l l' :
  nodes l' ≡ₚ nodes l -> (fresh l <= fresh l')%N -> sl_wf l -> sl_wf l'.
Proof.
  intros Hp Hle [Hnd Hf]. split.
  - unfold ids. by rewrite Hp.
  - rewrite Hp. eapply Forall_impl; [done|]. simpl. lia.
Qed.

Lemma sl_wf_insert_before p a l : sl_wf l -> sl_wf (insert_before p a l).
Proof.
  intros Hw. apply (sl_wf_perm (emplace_front a l)); [apply insert_before_perm|simpl; lia|].
  by apply sl_wf_emplace_front.
Qed.

Lemma sl_wf_splice_front i l : sl_wf l -> sl_wf (splice_front i l).
Proof.
  intros Hw. unfold splice_front. destruct (deref i l) as [a|] eqn:Hd; [|done].
  apply (deref_Some _ _ _ Hw) in Hd. pose proof (sl_wf_erase i _ Hw) as [Hnd Hf]. split; simpl.
  - unfold ids; simpl. apply NoDup_cons. split; [|done].
    rewrite ids_erase_sub. intros [? _]%list_elem_of_filter. done.
  - constructor; [|done]. destruct Hw as [_ Hf0]. rewrite Forall_forall in Hf0.
    apply (Hf0 _ Hd).
Qed.

Lemma sl_wf_sublist l ns : sl_wf l -> ns `sublist_of` nodes l -> sl_wf (SList ns (fresh l)).
Proof.
  intros [Hnd Hf] Hs. split.
  - unfold ids in *. simpl. eapply sublist_NoDup; [done|]. by apply fmap_sublist.
  - simpl. rewrite Forall_forall in *. intros x Hx. apply Hf.
    by eapply elem_of_sublist.
Qed.
End StdList.

Create HintDb stdlist.
#[export] Hint Resolve sl_wf_empty sl_wf_erase sl_wf_emplace_front sl_wf_insert_before
  sl_wf_splice_front : stdlist.

(** ** A list of distinct keys and its index

    [linked idx l]: [idx] sends every key of [l], and only those, to its node. *)
Section Linked.
Context {K : Type} `{EqDecision K}.
Implicit Types (l : slist K) (idx : K -> option iter).

Definition linked idx l : Prop :=
  sl_wf l /\ NoDup (values l) /\ forall k i, idx k = Some i <-> (i, k) ∈ nodes l.

Lemma linked_values idx l k : linked idx l -> k ∈ values l <-> is_Some (idx k).
Proof.
  intros (_ & _ & H). unfold values. rewrite list_elem_of_fmap. split.
  - intros ([i k'] & -> & Hin). exists i. by apply H.
  - intros [i Hi]. exists (i, k). split; [done|]. by apply H.
Qed.

Lemma linked_None idx l k : linked idx l -> idx k = None <-> k ∉ values l.
Proof.
  intros Hl. rewrite (linked_values idx l k Hl). destruct (idx k); split; intros H; try done.
  exfalso. apply H. eauto.
Qed.

Lemma linked_ext idx idx' l : (forall k, idx k = idx' k) -> linked idx l -> linked idx' l.
Proof. intros He (? & ? & H). do 2 (split; [done|]). intros k i. by rewrite <-He. Qed.

Lemma linked_empty : linked (fun _ => None) sl_empty.
Proof.
  split; [auto with stdlist|]. split; [constructor|].
  intros k i. split; [done|]. intros H. inversion H.
Qed.

Lemma linked_clear l : linked (fun _ => None) (sl_clear l).
Proof.
  split; [split; constructor|]. split; [constructor|].
  intros k i. split; [done|]. intros H. inversion H.
Qed.

Lemma values_erase idx l k i :
  linked idx l -> idx k = Some i -> values (erase i l) = without k (values l).
Proof.
  intros (Hw & Hnd & H) Hk. unfold values in *. simpl.
  assert (Hi : (i, k) ∈ nodes l) by (by apply H).
  assert (forall j k', (j, k') ∈ nodes l -> j = i <-> k' = k) as Hjk.
  { intros j k' Hin. split; intros ->.
    - by eapply node_inj.
    - apply H in Hi. apply H in Hin. congruence. }
  clear Hi Hk H Hnd. induction (nodes l) as [|[j k'] ns IH]; [done|].
  unfold erase_nodes. rewrite filter_cons. simpl.
  rewrite without_cons. specialize (Hjk j k' ltac:(by constructor)) as Hd.
  assert (snd <$> filter (fun n : iter * K => n.1 <> i) ns = without k (snd <$> ns)) as IH'.
  { apply IH. intros ? ? ?. apply Hjk. by constructor. }
  destruct (decide (j = i)) as [->|Hj].
  - rewrite (proj1 Hd eq_refl). rewrite decide_False by tauto. by rewrite decide_True.
  - rewrite decide_True by done. rewrite decide_False by tauto. simpl. by f_equal.
Qed.

Lemma linked_erase idx idx' l k i :
  linked idx l -> idx k = Some i ->
  idx' k = None -> (forall k', k' <> k -> idx' k' = idx k') ->
  linked idx' (erase i l).
Proof.
  intros Hl Hk Hk' Hne. pose proof (values_erase _ _ _ _ Hl Hk) as Hv.
  destruct Hl as (Hw & Hnd & H). split; [auto with stdlist|]. split.
  { rewrite Hv. by apply NoDup_without. }
  intros k0 j. simpl. rewrite elem_of_erase_nodes. destruct (decide (k0 = k)) as [->|Hk0].
  - rewrite Hk'. split; [done|]. intros [Hj Hin%H]. congruence.
  - rewrite Hne by done. rewrite H. split; [|tauto]. intros Hin. split; [|done].
    intros ->. apply Hk0. eapply node_inj; [done..|]. by apply H.
Qed.

Lemma linked_emplace_front idx idx' l k :
  linked idx l -> idx k = None ->
  idx' k = Some (next_iter l) -> (forall k', k' <> k -> idx' k' = idx k') ->
  linked idx' (emplace_front k l).
Proof.
  intros Hl Hk Hk' Hne. pose proof (proj1 (linked_None _ _ _ Hl) Hk) as Hni.
  destruct Hl as (Hw & Hnd & H). split; [auto with stdlist|]. split.
  { unfold values. simpl. by apply NoDup_cons. }
  intros k0 j. simpl. rewrite elem_of_cons. destruct (decide (k0 = k)) as [->|Hk0].
  - rewrite Hk'. split; [intros [= <-]; by left|]. intros [[= ->]|Hin%H]; [done|congruence].
  - rewrite Hne by done. rewrite H. split; [by right|]. intros [[= -> ->]|?]; done.
Qed.

Lemma values_splice_front idx l k i :
  linked idx l -> idx k = Some i -> values (splice_front i l) = k :: without k (values l).
Proof.
  intros Hl Hk. rewrite <-(values_erase _ _ _ _ Hl Hk). destruct Hl as (Hw & _ & H).
  unfold splice_front. apply H in Hk. by rewrite (proj2 (deref_Some _ _ _ Hw) Hk).
Qed.

Lemma linked_splice_front idx l i : linked idx l -> linked idx (splice_front i l).
Proof.
  intros Hl. destruct Hl as (Hw & Hnd & H) eqn:E. unfold splice_front.
  destruct (deref i l) as [k|] eqn:Hd; [|done].
  apply (deref_Some _ _ _ Hw) in Hd. pose proof (proj2 (H _ _) Hd) as Hk.
  pose proof (values_erase _ _ _ _ Hl Hk) as Hv.
  split; [|split].
  - pose proof (sl_wf_splice_front i _ Hw) as Hs. unfold splice_front in Hs.
    by rewrite (proj2 (deref_Some _ _ _ Hw) Hd) in Hs.
  - change (NoDup (k :: values (erase i l))). rewrite Hv. apply NoDup_cons.
    rewrite elem_of_without. split; [tauto|]. by apply NoDup_without.
  - intros k0 j. simpl. rewrite elem_of_cons, elem_of_erase_nodes, H.
    split.
    + intros Hin. destruct (decide (j = i)) as [->|]; [|tauto]. left.
      f_equal. by eapply node_inj.
    + intros [[= -> ->]|[]]; done.
Qed.

Lemma back_Some l k : back l = Some k <-> exists vs, values l = vs ++ [k].
Proof.
  unfold back, values. rewrite <-fmap_last. apply last_Some.
Qed.

Lemma values_pop_back l : values (pop_back l) = removelast (values l).
Proof.
  unfold values, pop_back. simpl. induction (nodes l) as [|n ns IH]; [done|].
  destruct ns as [|m ns]; [done|]. exact (f_equal (cons n.2) IH).
Qed.

Lemma pop_back_erase l i k ns :
  sl_wf l -> nodes l = ns ++ [(i, k)] -> pop_back l = erase i l.
Proof.
  intros [Hnd _] He. unfold pop_back, erase, ids in *. rewrite He in *. f_equal.
  rewrite removelast_last. unfold erase_nodes. rewrite filter_app.
  rewrite fmap_app in Hnd. apply NoDup_app in Hnd as (_ & Hd & _).
  rewrite filter_cons_False by tauto. rewrite filter_nil, app_nil_r.
  symmetry. apply filter_all. rewrite Forall_forall. intros [j a] Hin Hj. simpl in Hj. subst j.
  apply (Hd i); [|by constructor]. apply list_elem_of_fmap. by exists (i, a).
Qed.

(** Popping the back is erasing the iterator of the last key. *)
Lemma pop_back_linked idx l k :
  linked idx l -> back l = Some k -> exists i, idx k = Some i /\ pop_back l = erase i l.
Proof.
  intros (Hw & Hnd & H) Hb. unfold back in Hb.
  destruct (last (nodes l)) as [[i a]|] eqn:He; [|done]. simpl in Hb. injection Hb as ->.
  apply last_Some in He as [ns He]. exists i. split.
  - apply H. rewrite He. apply elem_of_app. right. by constructor.
  - by eapply pop_back_erase.
Qed.

Lemma pop_front_linked idx l k :
  linked idx l -> front l = Some k -> exists i, idx k = Some i /\ pop_front l = erase i l.
Proof.
  intros (Hw & Hnd & H) Hb. unfold front in Hb. unfold pop_front, erase.
  destruct (nodes l) as [|[i a] ns] eqn:He; [done|]. simpl in Hb. injection Hb as ->.
  exists i. split; [apply H; by constructor|]. simpl. unfold erase_nodes.
  f_equal. rewrite filter_cons_False by tauto. symmetry. apply filter_all.
  rewrite Forall_forall. intros [j a] Hin Hj. simpl in Hj. subst j.
  destruct Hw as [Hni _]. unfold ids in Hni. rewrite He in Hni. simpl in Hni.
  apply NoDup_cons in Hni as [Hni _]. apply Hni. apply list_elem_of_fmap. by exists (i, a).
Qed.

Lemma linked_insert_before idx idx' l p k :
  linked idx l -> idx k = None ->
  idx' k = Some (next_iter l) -> (forall k', k' <> k -> idx' k' = idx k') ->
  linked idx' (insert_before p k l).
Proof.
  intros Hl Hk Hk' Hne.
  destruct (linked_emplace_front idx idx' l k Hl Hk Hk' Hne) as (Hw & Hnd & H).
  pose proof (insert_before_perm p k l) as Hp.
  split; [destruct Hl; auto with stdlist|]. split.
  - unfold values in *. by rewrite Hp.
  - intros k0 j. by rewrite Hp.
Qed.
End Linked.

#[export] Hint Resolve linked_empty linked_clear linked_splice_front : stdlist.

(** ** Elements changed in place *)
Section Update.
Context {A B : Type}.

Definition sl_map (f : A -> B) (l : slist A) : slist B :=
  SList ((fun n => (n.1, f n.2)) <$> nodes l) (fresh l).

(** [it->field = ...]. *)
Definition modify (it : iter) (f : A -> A) (l : slist A) : slist A :=
  SList ((fun n => if decide (n.1 = it) then (n.1, f n.2) else n) <$> nodes l) (fresh l).

(** The iterator after [it], [None] being [end()]. *)
Fixpoint next_in (it : iter) (ns : list iter) : option iter :=
  match ns with
  | [] => None
  | i :: ns' => if decide (i = it) then head ns' else next_in it ns'
  end.
Definition next (it : iter) (l : slist A) : option iter := next_in it (ids l).
Definition begin_ (l : slist A) : option iter := head (ids l).

Lemma sl_map_erase (f : A -> B) i l : sl_map f (erase i l) = erase i (sl_map f l).
Proof.
  unfold sl_map, erase, erase_nodes. simpl. f_equal.
  induction (nodes l) as [|[j a] ns IH]; [done|]. rewrite fmap_cons, !filter_cons. simpl.
  case_decide; [rewrite fmap_cons; f_equal|]; apply IH.
Qed.

Lemma sl_map_insert_before (f : A -> B) p a l :
  sl_map f (insert_before p a l) = insert_before p (f a) (sl_map f l).
Proof.
  unfold sl_map, insert_before. simpl. f_equal. destruct p as [p|]; [|by rewrite fmap_app].
  induction (nodes l) as [|[j b] ns IH]; [done|]. simpl. case_decide; simpl; [done|]. f_equal. apply IH.
Qed.

Lemma sl_map_modify (f : A -> B) i (g : A -> A) l :
  (forall a, f (g a) = f a) -> sl_map f (modify i g l) = sl_map f l.
Proof.
  intros Hg. unfold sl_map, modify. simpl. f_equal. rewrite <-list_fmap_compose.
  apply list_fmap_ext. intros _ [j a] _. simpl. case_decide; simpl; by rewrite ?Hg.
Qed.

Lemma ids_modify i (g : A -> A) l : ids (modify i g l) = ids l.
Proof.
  unfold ids, modify. simpl. rewrite <-list_fmap_compose. apply list_fmap_ext.
  intros _ [j a] _. simpl. by case_decide.
Qed.

Lemma values_sl_map (f : A -> B) l : values (sl_map f l) = f <$> values l.
Proof. unfold values, sl_map. simpl. by rewrite <-!list_fmap_compose. Qed.

Lemma ids_sl_map (f : A -> B) l : ids (sl_map f l) = ids l.
Proof. unfold ids, sl_map. simpl. by rewrite <-list_fmap_compose. Qed.
End Update.
