(* ===== verification/Handler.v ===== *)
(** * Handler

    An operation on a state that may throw: it returns a result or an exception, and the
    state it leaves in both cases. *)
From S2P Require Import Prelude.

Definition Handler (St A : Type) : Type := St -> Res A * St.

#[export] Instance Handler_ret {St} : MRet (Handler St) := fun A a st => (Ok a, st).
#[export] Instance Handler_bind {St} : MBind (Handler St) := fun A B f m st =>
  let '(r, st') := m st in match r with Ok a => f a st' | Throw e => (Throw e, st') end.

Definition throw {St A} (e : exn) : Handler St A := fun st => (Throw e, st).
Definition lift {St A} (r : Res A) : Handler St A := fun st => (r, st).
Definition gets {St A} (f : St -> A) : Handler St A := fun st => (Ok (f st), st).
Definition modify_state {St} (f : St -> St) : Handler St unit := fun st => (Ok tt, f st).

Section HandlerLemmas.
Context {St A B : Type}.
Implicit Types (m : Handler St A) (f : A -> Handler St B).

Lemma handler_ok m f st a st' : m st = (Ok a, st') -> (m ≫= f) st = f a st'.
Proof. intros E. unfold mbind, Handler_bind. by rewrite E. Qed.

Lemma handler_throw m f st e st' : m st = (Throw e, st') -> (m ≫= f) st = (Throw e, st').
Proof. intros E. unfold mbind, Handler_bind. by rewrite E. Qed.
End HandlerLemmas.
