(* ===== verification/Optional.v ===== *)
(** * Optional

    [optional<T>] ([src/src/utils/include/optional.hpp]): raw storage with a flag, in which an
    object of type [T] is constructed and destroyed by hand; [ScopeGuard]
    ([src/src/include/scope_guard.hpp]).

    The variables of type [optional] live in a map from addresses.  Using storage that holds no
    object is undefined behaviour; constructing over an object, or giving up storage that
    still holds one, would leak the object and is counted as undefined behaviour too.  Every
    use that C++ allows behaves as Rocq's [option]. *)
From S2P Require Import Prelude Handler.

#[local] Open Scope Z_scope.

(** ** The type of the values

    What [T] itself does, each with what it leaves behind: a constructor that throws makes no
    object, an assignment that throws leaves its target as given here. *)
Class ObjectType (T : Type) := {
  copy_construct : T -> Res T;
  move_construct : T -> Res T * T;
  copy_assign : T -> T -> Res unit * T;
  move_assign : T -> T -> Res unit * (T * T);
  swap_objects : T -> T -> Res unit * (T * T)
}.

(** An argument passed on by [std::forward]: a reference to the object in an [optional], to
    copy or to move from, or anything else, by what constructing from it and assigning it do. *)
Inductive argument (T : Type) :=
| CopyOf (from : nat)
| MoveOf (from : nat)
| Other (make : Res T) (assign : T -> Res unit * T).
Arguments CopyOf {_} _.
Arguments MoveOf {_} _.
Arguments Other {_} _ _.

(** ** Storage *)
Inductive storage (T : Type) := Raw | Live (object : T).
Arguments Raw {_}.
Arguments Live {_} _.

Record optional (T : Type) := MkOptional { storage_ : storage T; has_value_ : bool }.
Arguments MkOptional {_} _ _.
Arguments storage_ {_} _.
Arguments has_value_ {_} _.

Module Optional.
Section Operations.
Context {T : Type} `{ObjectType T}.

#[local] Abbreviation memory := (gmap nat (optional T)).
#[local] Abbreviation Op A := (Handler memory A).
Implicit Types (i j : nat) (a : argument T) (m : memory).

(** *** Memory *)
Definition variable i : Op (optional T) := fun m => (of_option UndefinedBehaviour (m !! i), m).

(** [*data_ptr ()], read and written. *)
Definition load i : Op T :=
  o ← variable i;
  match storage_ o with Live v => mret v | Raw => throw UndefinedBehaviour end.

Definition store i (v : T) : Op unit :=
  _ ← load i;
  modify_state (alter (fun o => MkOptional (Live v) (has_value_ o)) i).

(** A new object in the storage, from an expression that may throw. *)
Definition place_new i (make : Op T) : Op unit :=
  v ← make;
  o ← variable i;
  match storage_ o with
  | Raw => modify_state (<[i := MkOptional (Live v) (has_value_ o)]>)
  | Live _ => throw UndefinedBehaviour
  end.

Definition destroy i : Op unit :=
  _ ← load i;
  modify_state (alter (fun o => MkOptional Raw (has_value_ o)) i).

Definition set_has_value i (b : bool) : Op unit := modify_state (alter (fun o => MkOptional (storage_ o) b) i).

(** *** Arguments *)
Definition make_from a : Op T :=
  match a with
  | CopyOf j => v ← load j; lift (copy_construct v)
  | MoveOf j =>
      v ← load j;
      let '(r, left_over) := move_construct v in
      _ ← store j left_over; lift r
  | Other make _ => lift make
  end.

Definition assign_from i a : Op unit :=
  target ← load i;
  match a with
  | CopyOf j =>
      v ← load j;
      let '(r, target) := copy_assign target v in
      _ ← store i target; lift r
  | MoveOf j =>
      v ← load j;
      let '(r, (target, left_over)) := move_assign target v in
      _ ← store j left_over; _ ← store i target; lift r
  | Other _ assign =>
      let '(r, target) := assign target in
      _ ← store i target; lift r
  end.

(** *** Private members *)
Definition construct i a : Op unit :=
  _ ← place_new i (make_from a);
  set_has_value i true.

Definition has_value i : Op bool := o ← variable i; mret (has_value_ o).

Definition assign_or_construct i a : Op unit :=
  b ← has_value i;
  if b : bool then assign_from i a else construct i a.

(** *** Modifiers *)
Definition reset i : Op unit :=
  b ← has_value i;
  if b : bool then _ ← destroy i; set_has_value i false else mret tt.

Definition value i : Op T :=
  b ← has_value i;
  if b : bool then load i else throw BadOptionalAccess.

Definition emplace i a : Op T :=
  _ ← reset i;
  _ ← construct i a;
  value i.

Definition swap i j : Op unit :=
  b ← has_value i;
  c ← has_value j;
  match b : bool, c : bool with
  | true, true =>
      v ← load i;
      w ← load j;
      let '(r, (v, w)) := swap_objects v w in
      _ ← store j w; _ ← store i v; lift r
  | true, false => _ ← construct j (MoveOf i); reset i
  | false, true => _ ← construct i (MoveOf j); reset j
  | false, false => mret tt
  end.

(** *** Observers *)
Definition value_or i (default_value : Res T) : Op T :=
  b ← has_value i;
  if b : bool then make_from (CopyOf i) else lift default_value.
Definition take_value_or i (default_value : Res T) : Op T :=
  b ← has_value i;
  if b : bool then make_from (MoveOf i) else lift default_value.

(** *** Construction and destruction

    The end of a variable; a constructor that throws leaves none. *)
Definition release i : Op unit :=
  o ← variable i;
  match storage_ o with Raw => modify_state (delete i) | Live _ => throw UndefinedBehaviour end.

Definition constructor i (body : Op unit) : Op unit := fun m =>
  match m !! i with
  | Some _ => (Throw UndefinedBehaviour, m)
  | None =>
      let '(r, m) := body (<[i := MkOptional Raw false]> m) in
      match r with
      | Ok _ => (r, m)
      | Throw _ => let '(r', m) := release i m in (_ ← r'; r, m)
      end
  end.

Definition default_optional i : Op unit := constructor i (mret tt).
Definition copy_optional i j : Op unit :=
  constructor i (b ← has_value j; if b : bool then construct i (CopyOf j) else mret tt).
Definition move_optional i j : Op unit :=
  constructor i (b ← has_value j; if b : bool then construct i (MoveOf j) else mret tt).
Definition value_optional i a : Op unit := constructor i (construct i a).
Definition destroy_optional i : Op unit := _ ← reset i; release i.

(** *** Assignment *)
Definition assign_nullopt i : Op unit := reset i.
Definition assign_copy i j : Op unit :=
  if (i =? j)%nat then mret tt
  else b ← has_value j; if b : bool then assign_or_construct i (CopyOf j) else reset i.
Definition assign_move i j : Op unit :=
  if (i =? j)%nat then mret tt
  else b ← has_value j; if b : bool then assign_or_construct i (MoveOf j) else reset i.
Definition assign_value i a : Op unit := assign_or_construct i a.
End Operations.
End Optional.

(** ** Calls *)
Inductive call (T : Type) :=
| CDefault (i : nat) | CCopy (i j : nat) | CMove (i j : nat) | CValue (i : nat) (a : argument T) | CDestroy (i : nat)
| CAssignNullopt (i : nat) | CAssignCopy (i j : nat) | CAssignMove (i j : nat) | CAssign (i : nat) (a : argument T)
| CReset (i : nat) | CEmplace (i : nat) (a : argument T) | CSwap (i j : nat)
| CHasValue (i : nat) | CGet (i : nat) | CDeref (i : nat)
| CValueOr (i : nat) (default_value : Res T) | CTakeValueOr (i : nat) (default_value : Res T).
Arguments CDefault {_} _.
Arguments CCopy {_} _ _.
Arguments CMove {_} _ _.
Arguments CValue {_} _ _.
Arguments CDestroy {_} _.
Arguments CAssignNullopt {_} _.
Arguments CAssignCopy {_} _ _.
Arguments CAssignMove {_} _ _.
Arguments CAssign {_} _ _.
Arguments CReset {_} _.
Arguments CEmplace {_} _ _.
Arguments CSwap {_} _ _.
Arguments CHasValue {_} _.
Arguments CGet {_} _.
Arguments CDeref {_} _.
Arguments CValueOr {_} _ _.
Arguments CTakeValueOr {_} _ _.

Inductive outcome (T : Type) := Nothing | Flag (b : bool) | Result (v : T).
Arguments Nothing {_}.
Arguments Flag {_} _.
Arguments Result {_} _.

Section Calls.
Context {T : Type} `{ObjectType T}.

Definition run_call (c : call T) : Handler (gmap nat (optional T)) (outcome T) :=
  let unit_ m := (_ ← m; mret Nothing) in
  let result m := (v ← m; mret (Result v)) in
  match c with
  | CDefault i => unit_ (Optional.default_optional i)
  | CCopy i j => unit_ (Optional.copy_optional i j)
  | CMove i j => unit_ (Optional.move_optional i j)
  | CValue i a => unit_ (Optional.value_optional i a)
  | CDestroy i => unit_ (Optional.destroy_optional i)
  | CAssignNullopt i => unit_ (Optional.assign_nullopt i)
  | CAssignCopy i j => unit_ (Optional.assign_copy i j)
  | CAssignMove i j => unit_ (Optional.assign_move i j)
  | CAssign i a => unit_ (Optional.assign_value i a)
  | CReset i => unit_ (Optional.reset i)
  | CEmplace i a => result (Optional.emplace i a)
  | CSwap i j => unit_ (Optional.swap i j)
  | CHasValue i => b ← Optional.has_value i; mret (Flag b)
  | CGet i => result (Optional.value i)
  | CDeref i => result (Optional.load i)
  | CValueOr i d => result (Optional.value_or i d)
  | CTakeValueOr i d => result (Optional.take_value_or i d)
  end.

(** One call after the other; an exception is caught before the next. *)
Fixpoint run_calls {St A} (run : call T -> Handler St A) (cs : list (call T)) (st : St) : list (Res A) * St :=
  match cs with
  | [] => ([], st)
  | c :: cs => let '(r, st) := run c st in let '(rs, st) := run_calls run cs st in (r :: rs, st)
  end.

(** ** Specification: a map of [option]s *)
#[local] Abbreviation options := (gmap nat (option T)).
Implicit Types (s : options) (i j : nat) (a : argument T).

Definition spec_make a : Handler options T := fun s =>
  match a with
  | CopyOf j => match s !! j with Some (Some v) => (copy_construct v, s) | _ => (Throw UndefinedBehaviour, s) end
  | MoveOf j =>
      match s !! j with
      | Some (Some v) => let '(r, v) := move_construct v in (r, <[j := Some v]> s)
      | _ => (Throw UndefinedBehaviour, s)
      end
  | Other make _ => (make, s)
  end.

Definition spec_fill i a : Handler options unit := fun s =>
  let '(r, s) := spec_make a s in
  match r with Ok v => (Ok tt, <[i := Some v]> s) | Throw e => (Throw e, s) end.

Definition spec_assign_to i (target : T) a : Handler options unit := fun s =>
  match a with
  | CopyOf j =>
      match s !! j with
      | Some (Some v) => let '(r, target) := copy_assign target v in (r, <[i := Some target]> s)
      | _ => (Throw UndefinedBehaviour, s)
      end
  | MoveOf j =>
      match s !! j with
      | Some (Some v) =>
          let '(r, (target, v)) := move_assign target v in (r, <[i := Some target]> (<[j := Some v]> s))
      | _ => (Throw UndefinedBehaviour, s)
      end
  | Other _ assign => let '(r, target) := assign target in (r, <[i := Some target]> s)
  end.

Definition spec_assign i a : Handler options unit := fun s =>
  match s !! i with Some (Some v) => spec_assign_to i v a s | _ => spec_fill i a s end.

(** Construct or assign from another variable. *)
Definition spec_from (full : Handler options unit) i j : Handler options unit := fun s =>
  match s !! j with Some (Some _) => full s | _ => (Ok tt, <[i := None]> s) end.

Definition spec_emplace i a : Handler options T :=
  _ ← modify_state (<[i := None]>);
  v ← spec_make a;
  _ ← modify_state (<[i := Some v]>);
  mret v.

Definition spec_swap i j : Handler options unit := fun s =>
  match s !! i, s !! j with
  | Some (Some v), Some (Some w) =>
      let '(r, (v, w)) := swap_objects v w in (r, <[i := Some v]> (<[j := Some w]> s))
  | Some (Some _), Some None => (_ ← spec_fill j (MoveOf i); modify_state (<[i := None]>)) s
  | Some None, Some (Some _) => (_ ← spec_fill i (MoveOf j); modify_state (<[j := None]>)) s
  | _, _ => (Ok tt, s)
  end.

Definition spec_get i : Handler options T := fun s =>
  match s !! i with Some (Some v) => (Ok v, s) | _ => (Throw BadOptionalAccess, s) end.

Definition spec_or i (full : argument T) (default_value : Res T) : Handler options T := fun s =>
  match s !! i with Some (Some _) => spec_make full s | _ => (default_value, s) end.

Definition spec_call (c : call T) : Handler options (outcome T) :=
  let unit_ m := (_ ← m; mret Nothing) in
  let result m := (v ← m; mret (Result v)) in
  match c with
  | CDefault i | CAssignNullopt i | CReset i => unit_ (modify_state (<[i := None]>))
  | CCopy i j => unit_ (spec_from (spec_fill i (CopyOf j)) i j)
  | CMove i j => unit_ (spec_from (spec_fill i (MoveOf j)) i j)
  | CValue i a => unit_ (spec_fill i a)
  | CDestroy i => unit_ (modify_state (delete i))
  | CAssignCopy i j => unit_ (if (i =? j)%nat then mret tt else spec_from (spec_assign i (CopyOf j)) i j)
  | CAssignMove i j => unit_ (if (i =? j)%nat then mret tt else spec_from (spec_assign i (MoveOf j)) i j)
  | CAssign i a => unit_ (spec_assign i a)
  | CEmplace i a => result (spec_emplace i a)
  | CSwap i j => unit_ (spec_swap i j)
  | CHasValue i => fun s => (Ok (Flag (match s !! i with Some (Some _) => true | _ => false end)), s)
  | CGet i | CDeref i => result (spec_get i)
  | CValueOr i d => result (spec_or i (CopyOf i) d)
  | CTakeValueOr i d => result (spec_or i (MoveOf i) d)
  end.

(** The uses that C++ allows: variables that exist, references to objects that exist, and no
    [emplace] from the object that it destroys first. *)
Definition refers_to a : option nat :=
  match a with CopyOf j | MoveOf j => Some j | Other _ _ => None end.
Definition full_at s i : bool := match s !! i with Some (Some _) => true | _ => false end.
Definition declared s i : bool := bool_decide (is_Some (s !! i)).
Definition valid_argument s a : bool :=
  match refers_to a with Some j => full_at s j | None => true end.

Definition allowed s (c : call T) : bool :=
  match c with
  | CDefault i => negb (declared s i)
  | CCopy i j | CMove i j => negb (declared s i) && declared s j
  | CValue i a => negb (declared s i) && valid_argument s a
  | CAssignCopy i j | CAssignMove i j | CSwap i j => declared s i && declared s j
  | CAssign i a => declared s i && valid_argument s a
  | CEmplace i a => declared s i && valid_argument s a && negb (bool_decide (refers_to a = Some i))
  | CDestroy i | CAssignNullopt i | CReset i | CHasValue i | CGet i | CValueOr i _ | CTakeValueOr i _ => declared s i
  | CDeref i => full_at s i
  end.

Fixpoint all_allowed (cs : list (call T)) s : bool :=
  match cs with [] => true | c :: cs => allowed s c && all_allowed cs (spec_call c s).2 end.

(** An [option] in memory. *)
Definition embed (o : option T) : optional T :=
  match o with Some v => MkOptional (Live v) true | None => MkOptional Raw false end.
Definition in_memory s : gmap nat (optional T) := embed <$> s.
End Calls.

(** ** The class implements the specification *)
Section Refinement.
Context {T : Type} `{ObjectType T}.
Implicit Types (s : gmap nat (option T)) (i j : nat) (a : argument T).

Import Optional.

Lemma bind_run {St A B} (m : Handler St A) (f : A -> Handler St B) st :
  (m ≫= f) st = match m st with (Ok a, st) => f a st | (Throw e, st) => (Throw e, st) end.
Proof. unfold mbind, Handler_bind. by destruct (m st) as [[]]. Qed.

Lemma ret_run {St A} (x : A) (st : St) : (mret x : Handler St A) st = (Ok x, st).
Proof. done. Qed.

Lemma variable_ok s i o : s !! i = Some o -> variable i (in_memory s) = (Ok (embed o), in_memory s).
Proof. intros E. unfold variable, in_memory. by rewrite lookup_fmap, E. Qed.

Lemma has_value_ok s i o :
  s !! i = Some o -> has_value i (in_memory s) = (Ok (match o with Some _ => true | None => false end), in_memory s).
Proof. intros E. unfold has_value. rewrite bind_run, (variable_ok _ _ _ E). by destruct o. Qed.

Lemma load_ok s i v : s !! i = Some (Some v) -> load i (in_memory s) = (Ok v, in_memory s).
Proof. intros E. unfold load. by rewrite bind_run, (variable_ok _ _ _ E). Qed.

Lemma alter_in_memory s i o (f : optional T -> optional T) o' :
  s !! i = Some o -> f (embed o) = embed o' -> alter f i (in_memory s) = in_memory (<[i := o']> s).
Proof.
  intros E Hf. unfold in_memory. rewrite fmap_insert, <-Hf.
  apply map_eq. intros k. destruct (decide (k = i)) as [->|Hk].
  - by rewrite lookup_alter_eq, lookup_insert_eq, lookup_fmap, E.
  - by rewrite lookup_alter_ne, lookup_insert_ne by done.
Qed.

Lemma alter_twice {A} (f g : A -> A) i (m : gmap nat A) : alter f i (alter g i m) = alter (fun x => f (g x)) i m.
Proof.
  apply map_eq. intros k. destruct (decide (k = i)) as [->|Hk].
  - rewrite !lookup_alter_eq. by destruct (m !! i).
  - by rewrite !lookup_alter_ne by done.
Qed.

Lemma store_ok s i v w :
  s !! i = Some (Some v) -> store i w (in_memory s) = (Ok tt, in_memory (<[i := Some w]> s)).
Proof.
  intros E. unfold store. rewrite bind_run, (load_ok _ _ _ E). unfold modify_state.
  by rewrite (alter_in_memory _ _ _ _ (Some w) E).
Qed.

Lemma reset_ok s i o : s !! i = Some o -> reset i (in_memory s) = (Ok tt, in_memory (<[i := None]> s)).
Proof.
  intros E. unfold reset. rewrite bind_run, (has_value_ok _ _ _ E). destruct o as [v|].
  - unfold destroy, set_has_value, modify_state. rewrite !bind_run, (load_ok _ _ _ E).
    rewrite alter_twice. by rewrite (alter_in_memory _ _ _ _ None E).
  - by rewrite insert_id.
Qed.

Lemma valid_reference s a j :
  valid_argument s a = true -> refers_to a = Some j -> exists v, s !! j = Some (Some v).
Proof. unfold valid_argument, full_at. intros Hv Hr. rewrite Hr in Hv. destruct (s !! j) as [[]|]; eauto; done. Qed.

Lemma full_at_spec s j : full_at s j = true <-> exists v, s !! j = Some (Some v).
Proof. unfold full_at. destruct (s !! j) as [[v|]|]; split; try done; [by exists v|by intros []..]. Qed.

Lemma make_from_ok s a :
  valid_argument s a = true ->
  make_from a (in_memory s) = let '(r, s') := spec_make a s in (r, in_memory s').
Proof.
  unfold make_from, spec_make. intros Hv. destruct a as [j|j|make ?]; [| |done];
    apply full_at_spec in Hv as [v Ev]; rewrite Ev, bind_run, (load_ok _ _ _ Ev); [done|].
  destruct (move_construct v) as [r left_over]. by rewrite bind_run, (store_ok _ _ _ _ Ev).
Qed.

(** Constructing writes nothing but what the argument refers to. *)
Lemma spec_make_lookup s a i : refers_to a <> Some i -> (spec_make a s).2 !! i = s !! i.
Proof.
  unfold spec_make. intros Hr. destruct a as [j|j|]; simpl in *; [by destruct (s !! j) as [[]|]| |done].
  destruct (s !! j) as [[v|]|]; [|done..]. destruct (move_construct v). simpl.
  by rewrite lookup_insert_ne by naive_solver.
Qed.

Lemma construct_ok s i a :
  s !! i = Some None -> valid_argument s a = true ->
  construct i a (in_memory s) = let '(r, s') := spec_fill i a s in (r, in_memory s').
Proof.
  intros Ei Hv. unfold construct, place_new, spec_fill.
  assert (Hr : refers_to a <> Some i).
  { intros Hr. destruct (valid_reference _ _ _ Hv Hr) as [v ?]. congruence. }
  pose proof (spec_make_lookup s a i Hr) as El. rewrite Ei in El.
  rewrite !bind_run, (make_from_ok _ _ Hv). destruct (spec_make a s) as [[v|e] s']; [|done]. simpl in El.
  rewrite bind_run, (variable_ok _ _ _ El). unfold set_has_value, modify_state. simpl. do 2 f_equal.
  unfold in_memory. rewrite fmap_insert. by rewrite alter_insert_eq.
Qed.

Lemma assign_from_ok s i v a :
  s !! i = Some (Some v) -> valid_argument s a = true ->
  assign_from i a (in_memory s) = let '(r, s') := spec_assign_to i v a s in (r, in_memory s').
Proof.
  intros Ei Hv. unfold assign_from, spec_assign_to. rewrite bind_run, (load_ok _ _ _ Ei).
  destruct a as [j|j|make assign];
    [apply full_at_spec in Hv as [w Ew]; rewrite Ew, bind_run, (load_ok _ _ _ Ew)..|].
  - destruct (copy_assign v w). by rewrite bind_run, (store_ok _ _ _ _ Ei).
  - destruct (move_assign v w) as [r [v' w']]. rewrite !bind_run, (store_ok _ _ _ _ Ew), bind_run.
    assert (exists u, <[j:=Some w']> s !! i = Some (Some u)) as [u Eu].
    { destruct (decide (i = j)) as [->|]; [rewrite lookup_insert_eq|rewrite lookup_insert_ne by done]; eauto. }
    by rewrite (store_ok _ _ _ _ Eu).
  - destruct (assign v). by rewrite bind_run, (store_ok _ _ _ _ Ei).
Qed.

Lemma assign_or_construct_ok s i a :
  is_Some (s !! i) -> valid_argument s a = true ->
  assign_or_construct i a (in_memory s) = let '(r, s') := spec_assign i a s in (r, in_memory s').
Proof.
  intros [o Ei] Hv. unfold assign_or_construct, spec_assign. rewrite bind_run, (has_value_ok _ _ _ Ei), Ei.
  destruct o; [by apply assign_from_ok|by apply construct_ok].
Qed.

(** A constructor runs on a variable that is an empty [option] so far. *)
Lemma constructor_ok s i (body : Handler (gmap nat (optional T)) unit) (fill : Handler (gmap nat (option T)) unit) :
  s !! i = None ->
  (body (in_memory (<[i := None]> s)) =
     match fill s with
     | (Ok _, s') => (Ok tt, in_memory s')
     | (Throw e, s') => (Throw e, in_memory (<[i := None]> s'))
     end) ->
  (fill s).2 !! i = None \/ is_ok (fill s).1 = true ->
  constructor i body (in_memory s) = let '(r, s') := fill s in (r, in_memory s').
Proof.
  intros Ei Hb Hf. unfold constructor. change (in_memory s !! i) with ((embed <$> s) !! i).
  rewrite lookup_fmap, Ei. simpl.
  replace (<[i:=MkOptional Raw false]> (in_memory s)) with (in_memory (<[i:=None]> s))
    by (unfold in_memory; by rewrite fmap_insert).
  rewrite Hb. destruct (fill s) as [[[]|e] s']; [done|]. simpl in Hf. destruct Hf as [Hf|Hf]; [|done].
  unfold release. rewrite bind_run, (variable_ok _ i None) by apply lookup_insert_eq. simpl. do 2 f_equal.
  unfold in_memory. by rewrite fmap_insert, delete_insert_id by (by rewrite lookup_fmap, Hf).
Qed.

Lemma valid_argument_declare s i a :
  s !! i = None -> valid_argument s a = true -> valid_argument (<[i := None]> s) a = true /\ refers_to a <> Some i.
Proof.
  intros Ei Hv. assert (Hr : refers_to a <> Some i).
  { intros Hr. destruct (valid_reference _ _ _ Hv Hr) as [v ?]. congruence. }
  split; [|done]. revert Hv. unfold valid_argument. destruct (refers_to a) as [j|]; [|done].
  intros [v Ej]%full_at_spec. apply full_at_spec. exists v. by rewrite lookup_insert_ne by naive_solver.
Qed.

Lemma spec_fill_declared s i a :
  s !! i = None -> refers_to a <> Some i ->
  spec_fill i a (<[i := None]> s) =
  match spec_fill i a s with
  | (Ok _, s') => (Ok tt, s')
  | (Throw e, s') => (Throw e, <[i := None]> s')
  end.
Proof.
  intros Ei Hr. unfold spec_fill, spec_make. destruct a as [j|j|make ?]; simpl in Hr.
  - rewrite lookup_insert_ne by naive_solver. destruct (s !! j) as [[v|]|]; try done.
    destruct (copy_construct v); [|done]. by rewrite insert_insert_eq.
  - rewrite lookup_insert_ne by naive_solver. destruct (s !! j) as [[v|]|]; try done.
    destruct (move_construct v) as [[x|e] left_over]; rewrite (insert_insert_ne _ j i) by naive_solver; [|done].
    by rewrite insert_insert_eq.
  - destruct make; [|done]. by rewrite insert_insert_eq.
Qed.

Lemma spec_fill_undeclared s i a : s !! i = None -> refers_to a <> Some i ->
  (spec_fill i a s).2 !! i = None \/ is_ok (spec_fill i a s).1 = true.
Proof.
  intros Ei Hr. pose proof (spec_make_lookup s a i Hr) as El. rewrite Ei in El. revert El.
  unfold spec_fill. destruct (spec_make a s) as [[v|e] s']; simpl; auto.
Qed.

Lemma value_optional_ok s i a :
  s !! i = None -> valid_argument s a = true ->
  value_optional i a (in_memory s) = let '(r, s') := spec_fill i a s in (r, in_memory s').
Proof.
  intros Ei Hv. destruct (valid_argument_declare _ _ _ Ei Hv) as [Hv' Hr].
  apply constructor_ok; [done| |by apply spec_fill_undeclared].
  rewrite construct_ok by (done || apply lookup_insert_eq). rewrite (spec_fill_declared _ _ _ Ei Hr).
  by destruct (spec_fill i a s) as [[] ?].
Qed.

(** The constructors from another [optional]. *)
Lemma construct_from_ok s i j a :
  s !! i = None -> is_Some (s !! j) -> refers_to a = Some j ->
  constructor i (b ← has_value j; if b : bool then construct i a else mret tt) (in_memory s) =
  let '(r, s') := spec_from (spec_fill i a) i j s in (r, in_memory s').
Proof.
  intros Ei [o Ej] Ha. assert (Hne : i <> j) by congruence.
  assert (Ej' : <[i:=None]> s !! j = Some o) by (by rewrite lookup_insert_ne).
  assert (Hr : refers_to a <> Some i) by naive_solver.
  apply constructor_ok; [done| |].
  - rewrite bind_run, (has_value_ok _ _ _ Ej'). unfold spec_from. rewrite Ej. destruct o as [v|]; [|done].
    rewrite construct_ok; [|apply lookup_insert_eq|].
    + rewrite (spec_fill_declared _ _ _ Ei Hr). by destruct (spec_fill i a s) as [[] ?].
    + unfold valid_argument. rewrite Ha. apply full_at_spec. eauto.
  - unfold spec_from. rewrite Ej. destruct o; [by apply spec_fill_undeclared|by right].
Qed.

Lemma assign_other_ok s i j a :
  is_Some (s !! i) -> is_Some (s !! j) -> refers_to a = Some j ->
  (b ← has_value j; if b : bool then assign_or_construct i a else reset i) (in_memory s) =
  let '(r, s') := spec_from (spec_assign i a) i j s in (r, in_memory s').
Proof.
  intros Hi [o Ej] Ha. rewrite bind_run, (has_value_ok _ _ _ Ej). unfold spec_from. rewrite Ej.
  destruct o as [v|].
  - apply assign_or_construct_ok; [done|]. unfold valid_argument. rewrite Ha. apply full_at_spec. eauto.
  - destruct Hi as [o Ei]. apply (reset_ok _ _ _ Ei).
Qed.

Lemma emplace_ok s i a :
  is_Some (s !! i) -> valid_argument s a = true -> refers_to a <> Some i ->
  emplace i a (in_memory s) = let '(r, s') := spec_emplace i a s in (r, in_memory s').
Proof.
  intros [o Ei] Hv Hr. unfold emplace, spec_emplace, modify_state. rewrite !bind_run, (reset_ok _ _ _ Ei), !bind_run.
  assert (Hv' : valid_argument (<[i:=None]> s) a = true).
  { revert Hv. unfold valid_argument. destruct (refers_to a) as [j|]; [|done].
    intros [v Ej]%full_at_spec. apply full_at_spec. exists v. by rewrite lookup_insert_ne by naive_solver. }
  rewrite construct_ok by (done || apply lookup_insert_eq). unfold spec_fill.
  destruct (spec_make a (<[i:=None]> s)) as [[v|e] s']; [|done]. rewrite bind_run. unfold value.
  rewrite bind_run, (has_value_ok _ i (Some v)) by apply lookup_insert_eq. apply load_ok, lookup_insert_eq.
Qed.

(** The half of [swap] that moves an object into an empty [optional]. *)
Lemma swap_into_ok s i j v :
  s !! i = Some (Some v) -> s !! j = Some None ->
  (_ ← construct j (MoveOf i); reset i) (in_memory s) =
  let '(r, s') := (_ ← spec_fill j (MoveOf i); modify_state (<[i := None]>)) s in (r, in_memory s').
Proof.
  intros Ei Ej. rewrite !bind_run, construct_ok; [|done|by apply full_at_spec; eauto].
  unfold spec_fill, spec_make. rewrite Ei. destruct (move_construct v) as [[x|e] left_over]; [|done].
  erewrite reset_ok; [done|]. rewrite lookup_insert_ne by congruence. apply lookup_insert_eq.
Qed.

Lemma swap_ok s i j :
  is_Some (s !! i) -> is_Some (s !! j) ->
  swap i j (in_memory s) = let '(r, s') := spec_swap i j s in (r, in_memory s').
Proof.
  intros [o Ei] [p Ej]. unfold swap, spec_swap. rewrite !bind_run, (has_value_ok _ _ _ Ei), bind_run, (has_value_ok _ _ _ Ej), Ei, Ej.
  destruct o as [v|], p as [w|]; [|by apply (swap_into_ok _ _ _ v)|by apply (swap_into_ok _ _ _ w)|done].
  rewrite !bind_run, (load_ok _ _ _ Ei), bind_run, (load_ok _ _ _ Ej).
  destruct (swap_objects v w) as [r [v' w']]. rewrite !bind_run, (store_ok _ _ _ _ Ej), bind_run.
  assert (exists u, <[j:=Some w']> s !! i = Some (Some u)) as [u Eu].
  { destruct (decide (i = j)) as [->|]; [rewrite lookup_insert_eq|rewrite lookup_insert_ne by done]; eauto. }
  by rewrite (store_ok _ _ _ _ Eu).
Qed.

Lemma value_ok s i : is_Some (s !! i) -> value i (in_memory s) = let '(r, s') := spec_get i s in (r, in_memory s').
Proof.
  intros [o Ei]. unfold value, spec_get. rewrite bind_run, (has_value_ok _ _ _ Ei), Ei.
  destruct o as [v|]; [by apply load_ok|done].
Qed.

Lemma or_ok s i a d :
  is_Some (s !! i) -> refers_to a = Some i ->
  (b ← has_value i; if b : bool then make_from a else lift d) (in_memory s) =
  let '(r, s') := spec_or i a d s in (r, in_memory s').
Proof.
  intros [o Ei] Ha. unfold spec_or. rewrite bind_run, (has_value_ok _ _ _ Ei), Ei.
  destruct o as [v|]; [|done]. apply make_from_ok. unfold valid_argument. rewrite Ha. apply full_at_spec. eauto.
Qed.

Lemma declared_spec s i : declared s i = true <-> is_Some (s !! i).
Proof. unfold declared. apply bool_decide_eq_true. Qed.

Lemma undeclared_spec s i : negb (declared s i) = true <-> s !! i = None.
Proof. unfold declared. rewrite negb_true_iff, bool_decide_eq_false. symmetry. apply eq_None_not_Some. Qed.

Lemma with_result {A B} (m : Handler (gmap nat (optional T)) A) (n : Handler (gmap nat (option T)) A) (f : A -> B) s :
  (m (in_memory s) = let '(r, s') := n s in (r, in_memory s')) ->
  (v ← m; mret (f v)) (in_memory s) = let '(r, s') := (v ← n; mret (f v)) s in (r, in_memory s').
Proof. intros E. rewrite !bind_run, E. by destruct (n s) as [[] ?]. Qed.

Lemma destroy_optional_ok s i :
  is_Some (s !! i) -> destroy_optional i (in_memory s) = (Ok tt, in_memory (delete i s)).
Proof.
  intros [o Ei]. unfold destroy_optional, release. rewrite bind_run, (reset_ok _ _ _ Ei), bind_run.
  rewrite (variable_ok _ i None) by apply lookup_insert_eq. simpl. unfold modify_state, in_memory.
  by rewrite <-fmap_delete, delete_insert_eq.
Qed.

Lemma default_optional_ok s i : s !! i = None -> default_optional i (in_memory s) = (Ok tt, in_memory (<[i := None]> s)).
Proof. intros Ei. by apply (constructor_ok s i _ (modify_state (<[i:=None]>))); [|rewrite ret_run|right]. Qed.

Lemma call_ok (c : call T) s :
  allowed s c = true ->
  run_call c (in_memory s) = let '(r, s') := spec_call c s in (r, in_memory s').
Proof.
  unfold run_call, spec_call.
  destruct c as [i|i j|i j|i a|i|i|i j|i j|i a|i|i a|i j|i|i|i|i d|i d]; simpl allowed;
    rewrite ?andb_true_iff, ?undeclared_spec, ?declared_spec; intros Ha; try apply with_result.
  - by apply default_optional_ok.
  - destruct Ha. by apply construct_from_ok.
  - destruct Ha. by apply construct_from_ok.
  - destruct Ha. by apply value_optional_ok.
  - by apply destroy_optional_ok.
  - destruct Ha as [o Ei]. apply (reset_ok _ _ _ Ei).
  - destruct Ha. unfold assign_copy. destruct (i =? j)%nat; [done|by apply assign_other_ok].
  - destruct Ha. unfold assign_move. destruct (i =? j)%nat; [done|by apply assign_other_ok].
  - destruct Ha. by apply assign_or_construct_ok.
  - destruct Ha as [o Ei]. apply (reset_ok _ _ _ Ei).
  - destruct Ha as [[Hi Hv] Hr]. apply emplace_ok; [done..|]. by rewrite negb_true_iff, bool_decide_eq_false in Hr.
  - destruct Ha. by apply swap_ok.
  - destruct Ha as [o Ei]. rewrite bind_run, (has_value_ok _ _ _ Ei), Ei. by destruct o.
  - by apply value_ok.
  - apply full_at_spec in Ha as [v Ei]. unfold spec_get. rewrite Ei. by apply load_ok.
  - by apply or_ok.
  - by apply or_ok.
Qed.

(** C27: any sequence of uses of [optional] variables that C++ allows (constructions, copies,
    moves, assignments, swaps, accesses, destructions, whatever throws on the way) returns
    what the same uses of plain [option]s return, and leaves the memory of those [option]s:
    no object is used outside its lifetime, constructed over or lost. *)
Theorem optional_refines_option (cs : list (call T)) s :
  all_allowed cs s = true ->
  run_calls run_call cs (in_memory s) = let '(rs, s') := run_calls spec_call cs s in (rs, in_memory s').
Proof.
  revert s. induction cs as [|c cs IH]; intros s; [done|]. simpl. intros [Hc Hcs]%andb_true_iff.
  rewrite (call_ok _ _ Hc). destruct (spec_call c s) as [r s1]. simpl in Hcs.
  rewrite (IH _ Hcs). by destruct (run_calls spec_call cs s1).
Qed.

(** An [optional] replaced by what it holds: the argument refers to the destroyed object. *)
Lemma emplace_of_own_value s i v :
  s !! i = Some (Some v) -> (emplace i (CopyOf i) (in_memory s)).1 = Throw UndefinedBehaviour.
Proof.
  intros Ei. unfold emplace. rewrite bind_run, (reset_ok _ _ _ Ei). unfold construct, place_new, make_from, load.
  by rewrite !bind_run, (variable_ok _ i None) by apply lookup_insert_eq.
Qed.
End Refinement.

(** ** Comparisons

    They only look at their operands, so they are given on the [option] that a variable holds.
    [T]'s own operators are arguments.  The operators of [optional] that C++ overloads for
    [nullopt] and for a plain value have a name of their own each. *)
Section Comparisons.
Context {T : Type}.
Variables eqT ltT leT gtT geT : T -> T -> bool.
Implicit Types (lhs rhs : option T) (v : T).

Definition optional_eq lhs rhs : bool :=
  match lhs, rhs with Some v, Some w => eqT v w | None, None => true | _, _ => false end.
Definition optional_ne lhs rhs : bool := negb (optional_eq lhs rhs).
Definition optional_lt lhs rhs : bool :=
  match rhs with
  | None => false
  | Some w => match lhs with None => true | Some v => ltT v w end
  end.
Definition optional_gt lhs rhs : bool := optional_lt rhs lhs.
Definition optional_le lhs rhs : bool := negb (optional_lt rhs lhs).
Definition optional_ge lhs rhs : bool := negb (optional_lt lhs rhs).

Definition has lhs : bool := match lhs with Some _ => true | None => false end.
Definition eq_nullopt lhs : bool := negb (has lhs).
Definition nullopt_eq rhs : bool := negb (has rhs).
Definition ne_nullopt lhs : bool := has lhs.
Definition nullopt_ne rhs : bool := has rhs.
Definition lt_nullopt (_ : option T) : bool := false.
Definition nullopt_lt rhs : bool := has rhs.
Definition le_nullopt lhs : bool := negb (has lhs).
Definition nullopt_le (_ : option T) : bool := true.
Definition gt_nullopt lhs : bool := has lhs.
Definition nullopt_gt (_ : option T) : bool := false.
Definition ge_nullopt (_ : option T) : bool := true.
Definition nullopt_ge rhs : bool := negb (has rhs).

Definition eq_value lhs v : bool := match lhs with Some x => eqT x v | None => false end.
Definition value_eq v rhs : bool := eq_value rhs v.
Definition ne_value lhs v : bool := negb (eq_value lhs v).
Definition value_ne v rhs : bool := negb (eq_value rhs v).
Definition lt_value lhs v : bool := match lhs with Some x => ltT x v | None => true end.
Definition value_lt v rhs : bool := match rhs with Some x => ltT v x | None => false end.
Definition le_value lhs v : bool := match lhs with Some x => leT x v | None => true end.
Definition value_le v rhs : bool := match rhs with Some x => leT v x | None => false end.
Definition gt_value lhs v : bool := match lhs with Some x => gtT x v | None => false end.
Definition value_gt v rhs : bool := match rhs with Some x => gtT v x | None => true end.
Definition ge_value lhs v : bool := match lhs with Some x => geT x v | None => false end.
Definition value_ge v rhs : bool := match rhs with Some x => geT v x | None => true end.

(** [std::hash<optional<T>>]. *)
Definition hash_optional (hash : T -> Z) (opt : option T) : Z :=
  match opt with None => 0x297814aaad196e6d | Some v => hash v end.

(** Comparing with [nullopt] is comparing with an empty [optional]. *)
Lemma nullopt_comparisons o :
  eq_nullopt o = optional_eq o None /\ nullopt_eq o = optional_eq None o /\
  ne_nullopt o = optional_ne o None /\ nullopt_ne o = optional_ne None o /\
  lt_nullopt o = optional_lt o None /\ nullopt_lt o = optional_lt None o /\
  le_nullopt o = optional_le o None /\ nullopt_le o = optional_le None o /\
  gt_nullopt o = optional_gt o None /\ nullopt_gt o = optional_gt None o /\
  ge_nullopt o = optional_ge o None /\ nullopt_ge o = optional_ge None o.
Proof. by destruct o. Qed.

(** Comparing with a value is comparing with an [optional] that holds it, when the operators
    of the type agree with each other. *)
Hypothesis eqT_sym : forall v w, eqT v w = eqT w v.
Hypothesis leT_ltT : forall v w, leT v w = negb (ltT w v).
Hypothesis gtT_ltT : forall v w, gtT v w = ltT w v.
Hypothesis geT_ltT : forall v w, geT v w = negb (ltT v w).

Lemma value_comparisons o v :
  eq_value o v = optional_eq o (Some v) /\ value_eq v o = optional_eq (Some v) o /\
  ne_value o v = optional_ne o (Some v) /\ value_ne v o = optional_ne (Some v) o /\
  lt_value o v = optional_lt o (Some v) /\ value_lt v o = optional_lt (Some v) o /\
  le_value o v = optional_le o (Some v) /\ value_le v o = optional_le (Some v) o /\
  gt_value o v = optional_gt o (Some v) /\ value_gt v o = optional_gt (Some v) o /\
  ge_value o v = optional_ge o (Some v) /\ value_ge v o = optional_ge (Some v) o.
Proof.
  destruct o as [x|]; simpl; rewrite ?leT_ltT, ?gtT_ltT, ?geT_ltT; [|done].
  unfold value_eq, value_ne, ne_value, optional_ne. simpl. rewrite (eqT_sym v x). done.
Qed.

(** The order is strict, and total up to equality, if that of the values is. *)
Hypothesis ltT_irrefl : forall v, ltT v v = false.
Hypothesis ltT_trans : forall u v w, ltT u v = true -> ltT v w = true -> ltT u w = true.

Lemma optional_lt_strict :
  (forall o, optional_lt o o = false) /\
  (forall o p q, optional_lt o p = true -> optional_lt p q = true -> optional_lt o q = true).
Proof.
  split; [by intros []; simpl|]. intros [u|] [v|] [w|]; simpl; try done. apply ltT_trans.
Qed.
End Comparisons.

(** ** [ScopeGuard] *)
Module ScopeGuard.
Section Guard.
Context {St : Type}.

(** The registered functions, which must not throw: the guard's destructor is [noexcept]. *)
Record guard := MkGuard { func_ : St -> St }.

Definition empty_guard : guard := MkGuard (fun st => st).
Definition new_guard (func : St -> St) : guard := MkGuard func.
Definition register (another_func : St -> St) (g : guard) : guard :=
  let cur_func := func_ g in MkGuard (fun st => cur_func (another_func st)).
Definition destroy_guard (g : guard) : St -> St := func_ g.

(** Functions run in the reverse order of their registration. *)
Lemma scope_guard_reverses (fs : list (St -> St)) (st : St) :
  destroy_guard (foldl (fun g f => register f g) empty_guard fs) st = foldl (fun st f => f st) st (rev fs).
Proof.
  revert st. induction fs as [|f fs IH] using rev_ind; intros st; [done|].
  rewrite foldl_app, rev_app_distr. simpl. apply IH.
Qed.
End Guard.
Arguments guard : clear implicits.
End ScopeGuard.

(** ** A run

    Numbers; copying a negative one throws, and moving leaves zero behind. *)
Section Sample.
#[local] Instance number : ObjectType Z := {
  copy_construct v := if v <? 0 then Throw BadAlloc else Ok v;
  move_construct v := (Ok v, 0);
  copy_assign target v := if v <? 0 then (Throw BadAlloc, target) else (Ok tt, v);
  move_assign _ v := (Ok tt, (v, 0));
  swap_objects v w := (Ok tt, (w, v))
}.

Definition constant (v : Z) : argument Z := Other (Ok v) (fun _ => (Ok tt, v)).

Definition sample_calls : list (call Z) :=
  [CDefault 1; CValue 2 (constant 7); CHasValue 1; CGet 1; CSwap 1 2; CGet 1; CHasValue 2;
   CAssign 1 (CopyOf 1); CEmplace 2 (MoveOf 1); CGet 1; CAssign 1 (constant (-5)); CCopy 3 1; CValueOr 1 (Ok 9);
   CTakeValueOr 1 (Ok 9); CAssignMove 2 1; CReset 1; CValueOr 1 (Ok 9); CAssignCopy 2 1; CDestroy 1; CDestroy 2].

Lemma optional_refines_option_witness :
  all_allowed sample_calls ∅ = true /\
  run_calls run_call sample_calls ∅ =
    ([Ok Nothing; Ok Nothing; Ok (Flag false); Throw BadOptionalAccess; Ok Nothing; Ok (Result 7); Ok (Flag false);
      Ok Nothing; Ok (Result 7); Ok (Result 0); Ok Nothing; Throw BadAlloc; Throw BadAlloc;
      Ok (Result (-5)); Ok Nothing; Ok Nothing; Ok (Result 9); Ok Nothing; Ok Nothing; Ok Nothing], ∅).
Proof. split; [vm_compute; reflexivity|]. exact (optional_refines_option sample_calls ∅ eq_refl). Defined.
End Sample.
