(* ===== verification/Blocks.v ===== *)
(** * Blocks

    The data that the readers and the storages exchange: cache keys
    ([src/src/include/in_mem_cache_block.hpp]), page-aligned chunks
    ([src/src/utils/page_aligned_data_chunk.cpp]), read chunks
    ([src/src/cache_read_chunk.cpp]) and the alignment of a request on the block
    grid ([src/src/utils/chunk_utils.cpp]). *)
From S2P Require Import Prelude.

#[local] Open Scope Z_scope.

(** ** Keys *)
Record InMemCacheBlock := MkBlock { fname : string; start_off : Z; blk_size : Z }.

#[export] Instance InMemCacheBlock_eq_dec : EqDecision InMemCacheBlock.
Proof. solve_decision. Defined.

#[export] Instance InMemCacheBlock_countable : Countable InMemCacheBlock.
Proof.
  refine (inj_countable' (fun b => (fname b, start_off b, blk_size b))
            (fun '(f, o, s) => MkBlock f o s) _).
  by intros [].
Defined.

(** [std::tie (...) == std::tie (...)]. *)
Definition InMemCacheBlockEqual (lhs rhs : InMemCacheBlock) : bool :=
  String.eqb (fname lhs) (fname rhs) && (start_off lhs =? start_off rhs) &&
  (blk_size lhs =? blk_size rhs).

(** [std::tie (...) < std::tie (...)]: lexicographic, each component compared
    with its own [<]. *)
Definition InMemCacheBlockLess (lhs rhs : InMemCacheBlock) : bool :=
  String.ltb (fname lhs) (fname rhs) ||
  (negb (String.ltb (fname rhs) (fname lhs)) &&
   ((start_off lhs <? start_off rhs) ||
    (negb (start_off rhs <? start_off lhs) && (blk_size lhs <? blk_size rhs)))).

Lemma InMemCacheBlockEqual_eq a b : InMemCacheBlockEqual a b = true <-> a = b.
Proof.
  unfold InMemCacheBlockEqual. destruct a as [f o s], b as [f' o' s']; simpl.
  rewrite !andb_true_iff, String.eqb_eq, !Z.eqb_eq.
  split; [intros [[-> ->] ->]|intros [= -> -> ->]]; done.
Qed.

(** ** Page-aligned chunks

    [c_chunk] is the allocation ([None] for the null pointer), [c_length] the number
    of valid bytes, [c_capacity] the allocated size. *)
Record PageAlignedDataChunk := MkChunk {
  c_chunk : option (list byte);
  c_length : Z;
  c_capacity : Z
}.

#[export] Instance PageAlignedDataChunk_eq_dec : EqDecision PageAlignedDataChunk.
Proof. solve_decision. Defined.

(** What [posix_memalign] does: whether it fails for a size, and the bytes that
    happen to be in the memory it returns. *)
Record Allocator := MkAllocator {
  posix_memalign_fails : Z -> bool;
  stale_bytes : Z -> list byte
}.

Definition fresh_memory (al : Allocator) (n : Z) : list byte :=
  take (Z.to_nat n) (stale_bytes al n ++ replicate (Z.to_nat n) x00).

Definition data (c : PageAlignedDataChunk) : list byte := default [] (c_chunk c).

Definition chunk_empty (c : PageAlignedDataChunk) : bool :=
  match c_chunk c with None => true | Some _ => c_length c =? 0 end.

Definition empty_chunk : PageAlignedDataChunk := MkChunk None 0 0.

Definition with_length (c : PageAlignedDataChunk) (n : Z) : PageAlignedDataChunk :=
  MkChunk (c_chunk c) n (c_capacity c).

(** [AllocatePageAlignedChunk], [alignment] being the page size. *)
Definition AllocatePageAlignedChunk (alignment : Z) (al : Allocator)
    (requested_length : Z) : Res PageAlignedDataChunk :=
  if requested_length =? 0 then Ok empty_chunk
  else
    let capacity := ((requested_length +u alignment -u 1) / alignment) *u alignment in
    if posix_memalign_fails al capacity then Throw BadAlloc
    else Ok (MkChunk (Some (fresh_memory al capacity)) 0 capacity).

(** [PageAlignedDataChunk::CopyTo] into the memory [dest] at [dest_pos]. *)
Definition CopyTo (c : PageAlignedDataChunk) (dest : list byte) (dest_pos : Z)
    (src_offset copy_length : Z) : Res (list byte) :=
  if (src_offset +u copy_length) >? c_length c then Throw InvalidInputException
  else of_option UndefinedBehaviour
         (write_at dest dest_pos (slice (data c) src_offset copy_length)).

(** ** Read chunks

    [requested_start_addr] is a position in the caller's buffer. *)
Record CacheReadChunk := MkReadChunk {
  requested_start_addr : Z;
  requested_start_offset : Z;
  aligned_start_offset : Z;
  chunk_size : Z;
  bytes_to_copy : Z
}.

#[export] Instance CacheReadChunk_eq_dec : EqDecision CacheReadChunk.
Proof. solve_decision. Defined.

Definition CopyBufferToRequestedMemory (rc : CacheReadChunk) (dest : list byte)
    (buffer : PageAlignedDataChunk) : Res (list byte) :=
  let delta_offset := requested_start_offset rc -u aligned_start_offset rc in
  CopyTo buffer dest (requested_start_addr rc) delta_offset (bytes_to_copy rc).

(** ** Alignment *)
Record ReadRequestParams := MkReadRequest {
  rr_start_offset : Z;
  rr_bytes_to_read : Z;
  rr_block_size : Z
}.

Record ChunkAlignmentInfo := MkAlignment {
  ai_start_offset : Z;
  ai_last_chunk_offset : Z;
  ai_subrequest_count : Z
}.

Definition CalculateChunkAlignment (params : ReadRequestParams) : ChunkAlignmentInfo :=
  let bs := rr_block_size params in
  let aligned_start_offset := (rr_start_offset params / bs) *u bs in
  let aligned_last_chunk_offset :=
    ((rr_start_offset params +u rr_bytes_to_read params -u 1) / bs) *u bs in
  let subrequest_count := (aligned_last_chunk_offset -u aligned_start_offset) / bs +u 1 in
  MkAlignment aligned_start_offset aligned_last_chunk_offset subrequest_count.

(** ** Facts *)
Lemma align_down x b : 0 <= x -> 0 < b -> x / b * b <= x < x / b * b + b.
Proof. intros. pose proof (Z.div_mod x b). pose proof (Z.mod_pos_bound x b). lia. Qed.

Lemma length_fresh_memory al n :
  0 <= n -> Z.of_nat (length (fresh_memory al n)) = n.
Proof. intros. unfold fresh_memory. rewrite length_take, length_app, length_replicate. lia. Qed.

(** Capacity: the smallest multiple of the page size that holds the request. *)
Lemma page_capacity_bounds page n :
  0 < page -> 0 < n -> n + page <= two64 ->
  let cap := ((n +u page -u 1) / page) *u page in
  n <= cap < n + page /\ cap mod page = 0.
Proof.
  intros Hp Hn Hb. cbv zeta.
  rewrite u64_sub_l, (u64_small (n + page - 1)) by lia.
  pose proof (align_down (n + page - 1) page ltac:(lia) Hp) as Ha.
  rewrite u64_small by lia. split; [lia|]. apply Z.mod_mul. lia.
Qed.

Lemma Allocate_Ok page al n c :
  0 < page -> 0 < n -> n + page <= two64 ->
  AllocatePageAlignedChunk page al n = Ok c ->
  c_length c = 0 /\ n <= c_capacity c < n + page /\ c_capacity c mod page = 0 /\
  exists m, c_chunk c = Some m /\ Z.of_nat (length m) = c_capacity c.
Proof.
  intros Hp Hn Hb. unfold AllocatePageAlignedChunk.
  rewrite (proj2 (Z.eqb_neq n 0)) by lia.
  pose proof (page_capacity_bounds page n Hp Hn Hb) as [Hc Hm].
  set (cap := _ *u page) in *. destruct (posix_memalign_fails al cap); [done|].
  intros [= <-]. simpl. repeat split; try lia. eexists. split; [done|].
  apply length_fresh_memory. lia.
Qed.

(** [CopyTo] in range copies exactly the requested bytes. *)
Lemma CopyTo_Ok c dest pos off n :
  0 <= off -> 0 <= n -> off + n <= c_length c -> c_length c < two64 ->
  c_length c <= Z.of_nat (length (data c)) ->
  0 <= pos -> pos + n <= Z.of_nat (length dest) ->
  exists dest', CopyTo c dest pos off n = Ok dest' /\
    write_at dest pos (slice (data c) off n) = Some dest'.
Proof.
  intros. unfold CopyTo. u64_norm. rewrite Z.gtb_ltb.
  rewrite (proj2 (Z.ltb_ge _ _)) by lia.
  pose proof (length_slice (data c) off n ltac:(lia) ltac:(lia) ltac:(lia)) as Hl.
  destruct (write_at_is_some dest pos (slice (data c) off n)) as [d' Hd]; [lia..|].
  exists d'. by rewrite Hd.
Qed.

(** [CalculateChunkAlignment] without its wrap-arounds. *)
Lemma alignment_spec start n bs :
  0 <= start -> 0 < n -> 0 < bs -> start + n <= two64 - 1 ->
  CalculateChunkAlignment (MkReadRequest start n bs) =
  let a := start / bs * bs in
  let l := (start + n - 1) / bs * bs in
  MkAlignment a l ((l - a) / bs + 1).
Proof.
  intros Hs Hn Hb Hmax. unfold CalculateChunkAlignment. simpl.
  pose proof (align_down start bs Hs Hb) as H1.
  pose proof (align_down (start + n - 1) bs ltac:(lia) Hb) as H2.
  rewrite !u64_sub_l, (u64_small (start + n - 1)) by lia.
  pose proof (Z.div_pos start bs Hs Hb). pose proof (Z.div_pos (start + n - 1) bs ltac:(lia) Hb).
  rewrite (u64_small (start / bs * bs)) by nia.
  rewrite (u64_small ((start + n - 1) / bs * bs)) by nia.
  assert (start / bs <= (start + n - 1) / bs) as Hle by (apply Z.div_le_mono; lia).
  assert (start / bs * bs <= (start + n - 1) / bs * bs) by nia.
  rewrite (u64_small (_ - _)) by lia.
  assert (((start + n - 1) / bs * bs - start / bs * bs) / bs = (start + n - 1) / bs - start / bs) as Hd.
  { rewrite <-Z.mul_sub_distr_r. apply Z.div_mul. lia. }
  rewrite Hd. f_equal. apply u64_small. nia.
Qed.

(** ** Status rows

    [DataCacheEntryInfo] ([src/src/include/cache_entry_info.hpp]). *)
Record DataCacheEntryInfo := MkEntryInfo {
  cache_filepath : string;
  original_remote_path : string;
  start_offset : Z;
  end_offset : Z;
  cache_type : string
}.

#[export] Instance DataCacheEntryInfo_eq_dec : EqDecision DataCacheEntryInfo.
Proof. solve_decision. Defined.
