(* ===== verification/OrdMap.v ===== *)
(** * OrdMap

    [std::map]: a [gmap] whose iteration order is that of its key comparison.
    Only the order of iteration, [begin], [lower_bound] and the loop that walks
    from an iterator until a predicate fails depend on it. *)
From S2P Require Import Prelude Blocks.

#[local] Open Scope Z_scope.

(** A strict total order, the contract of a [KeyCompare] template argument. *)
Class KeyCompare (K : Type) := {
  less : K -> K -> bool;
  less_irrefl a : less a a = false;
  less_trans a b c : less a b = true -> less b c = true -> less a c = true;
  less_total a b : a <> b -> less a b = true \/ less b a = true
}.

Section OrdMap.
Context {K : Type} `{Countable K} `{KeyCompare K}.

Definition not_less (a b : K) : Prop := less b a = false.
#[local] Instance not_less_dec : RelDecision not_less.
Proof. intros a b. unfold not_less. apply _. Defined.

#[local] Instance not_less_trans : Transitive not_less.
Proof.
  intros a b c Hab Hbc. unfold not_less in *. destruct (less c a) eqn:Hca; [|done].
  destruct (decide (a = b)) as [->|Hn]; [congruence|].
  destruct (less_total a b Hn) as [Hl|Hl]; [|congruence].
  rewrite (less_trans _ _ _ Hca Hl) in Hbc. done.
Qed.

#[local] Instance not_less_total : Total not_less.
Proof.
  intros a b. unfold not_less. destruct (less b a) eqn:Hba; [|by left]. right.
  destruct (less a b) eqn:Hab; [|done].
  pose proof (less_trans _ _ _ Hab Hba). by rewrite less_irrefl in *.
Qed.

(** [std::sort] of keys: equal keys are the same, so that any sort will do. *)
Definition std_sort_keys (l : list K) : list K := merge_sort not_less l.

Lemma std_sort_keys_perm l : std_sort_keys l ≡ₚ l.
Proof. apply merge_sort_Permutation. Qed.

Lemma std_sort_keys_sorted l : StronglySorted not_less (std_sort_keys l).
Proof. apply (StronglySorted_merge_sort _). Qed.

(** The keys in iteration order. *)
Definition sorted_keys {V} (m : gmap K V) : list K :=
  merge_sort not_less (fst <$> map_to_list m).

Definition begin_key {V} (m : gmap K V) : option K := head (sorted_keys m).

(** The keys from [lower_bound (start)] to the end. *)
Definition keys_from {V} (start : K) (m : gmap K V) : list K :=
  filter (fun k => negb (less k start)) (sorted_keys m).

(** [for (it = lower_bound (start); it != end && p (it->first); ++it)]. *)
Fixpoint take_while (p : K -> bool) (l : list K) : list K :=
  match l with
  | [] => []
  | k :: l' => if p k then k :: take_while p l' else []
  end.

Lemma sorted_keys_perm {V} (m : gmap K V) : sorted_keys m ≡ₚ fst <$> map_to_list m.
Proof. apply merge_sort_Permutation. Qed.

Lemma elem_of_sorted_keys {V} (m : gmap K V) k : k ∈ sorted_keys m <-> is_Some (m !! k).
Proof.
  rewrite sorted_keys_perm, list_elem_of_fmap. split.
  - intros ([k' v] & -> & Hin%elem_of_map_to_list). eauto.
  - intros [v Hv]. exists (k, v). split; [done|]. by apply elem_of_map_to_list.
Qed.

Lemma NoDup_sorted_keys {V} (m : gmap K V) : NoDup (sorted_keys m).
Proof. rewrite sorted_keys_perm. apply NoDup_fst_map_to_list. Qed.

Lemma sorted_keys_sorted {V} (m : gmap K V) : StronglySorted not_less (sorted_keys m).
Proof. apply StronglySorted_merge_sort; apply _. Qed.

Lemma length_sorted_keys {V} (m : gmap K V) : length (sorted_keys m) = base.size m.
Proof. by rewrite sorted_keys_perm, length_fmap, length_map_to_list. Qed.

(** The order of iteration depends on the keys only. *)
#[local] Instance not_less_antisymm : AntiSymm (=) not_less.
Proof.
  intros a b Hab Hba. unfold not_less in *. destruct (decide (a = b)) as [|Hn]; [done|].
  destruct (less_total a b Hn); congruence.
Qed.

Lemma sorted_keys_unique {V} (m : gmap K V) l :
  NoDup l -> (forall k, k ∈ l <-> is_Some (m !! k)) -> sorted_keys m = std_sort_keys l.
Proof.
  intros Hnd Hl. apply (StronglySorted_unique not_less); [apply sorted_keys_sorted|apply std_sort_keys_sorted|].
  rewrite std_sort_keys_perm. apply NoDup_Permutation; [apply NoDup_sorted_keys|done|].
  intros k. by rewrite elem_of_sorted_keys, Hl.
Qed.

Lemma begin_key_sorted {V} (m : gmap K V) k : begin_key m = Some k -> sorted_keys m = k :: sorted_keys (delete k m).
Proof.
  intros Hb. unfold begin_key in Hb. pose proof (sorted_keys_sorted m) as Hs. pose proof (NoDup_sorted_keys m) as Hnd.
  pose proof (elem_of_sorted_keys m) as Hin. destruct (sorted_keys m) as [|k' l]; [done|]. injection Hb as ->.
  f_equal. apply StronglySorted_inv in Hs as [Hs _]. apply NoDup_cons in Hnd as [Hk Hnd].
  rewrite (sorted_keys_unique (delete k m) l); [|done|].
  - symmetry. apply (StronglySorted_unique not_less); [apply std_sort_keys_sorted|done|apply std_sort_keys_perm].
  - intros x. rewrite lookup_delete_is_Some, <-Hin, elem_of_cons. split; [|naive_solver]. intros Hx. split; [|by right].
    by intros ->.
Qed.

Lemma begin_key_None {V} (m : gmap K V) : begin_key m = None <-> m = ∅.
Proof.
  unfold begin_key. split.
  - intros Hh. apply map_empty. intros k. destruct (m !! k) as [v|] eqn:Hk; [|done].
    assert (k ∈ sorted_keys m) as Hin by (apply elem_of_sorted_keys; eauto).
    destruct (sorted_keys m); [by inversion Hin|done].
  - intros ->. unfold sorted_keys. by rewrite map_to_list_empty.
Qed.

Lemma begin_key_Some {V} (m : gmap K V) k : begin_key m = Some k -> is_Some (m !! k).
Proof.
  intros Hk. apply elem_of_sorted_keys. unfold begin_key in Hk.
  destruct (sorted_keys m); simplify_eq/=. constructor.
Qed.

(** On a sorted list whose members satisfying [p] come first, walking while [p]
    holds visits them all. *)
Lemma take_while_filter p l :
  StronglySorted not_less l ->
  (forall a b, a ∈ l -> b ∈ l -> not_less a b -> p b = true -> p a = true) ->
  take_while p l = filter (fun k => p k) l.
Proof.
  induction 1 as [|a l Hs IH Ha]; intros Hp; [done|]. simpl. rewrite filter_cons.
  destruct (p a) eqn:Hpa; simpl.
  - f_equal. apply IH. intros x y Hx Hy. apply Hp; by constructor.
  - symmetry. clear IH. rewrite Forall_forall in Ha.
    assert (forall b, b ∈ l -> p b = false) as Hn.
    { intros b Hb. destruct (p b) eqn:Hpb; [|done].
      assert (p a = true) by (apply (Hp a b); [constructor|by constructor|by apply Ha|done]). congruence. }
    clear -Hn. induction l as [|b l IH]; [done|]. rewrite filter_cons, Hn by constructor. simpl.
    apply IH. intros c Hc. apply Hn. by constructor.
Qed.

Lemma elem_of_keys_from {V} start (m : gmap K V) k :
  k ∈ keys_from start m <-> is_Some (m !! k) /\ less k start = false.
Proof.
  unfold keys_from. rewrite list_elem_of_filter, elem_of_sorted_keys, Is_true_true, negb_true_iff. tauto.
Qed.

Lemma keys_from_sorted {V} start (m : gmap K V) : StronglySorted not_less (keys_from start m).
Proof.
  unfold keys_from. induction (sorted_keys_sorted m) as [|a l _ IH Ha]; [constructor|].
  rewrite filter_cons. case_decide; [|done]. constructor; [done|].
  rewrite Forall_forall in *. intros b [_ Hb]%list_elem_of_filter. auto.
Qed.

Lemma elem_of_take_while_sub p l k : k ∈ take_while p l -> k ∈ l /\ p k = true.
Proof.
  induction l as [|a l IH]; simpl; [by intros ?%elem_of_nil|].
  destruct (p a) eqn:Hp; [|by intros ?%elem_of_nil].
  rewrite !elem_of_cons. intros [->|Hin]; [auto|]. apply IH in Hin as []. auto.
Qed.

(** When [p] holds of a block of consecutive keys that [start] opens, the walk
    from [start] visits exactly the keys with [p]. *)
Lemma elem_of_walk {V} (p : K -> bool) start (m : gmap K V) k :
  (forall a, is_Some (m !! a) -> p a = true -> less a start = false) ->
  (forall a b, is_Some (m !! a) -> is_Some (m !! b) -> less a start = false ->
     not_less a b -> p b = true -> p a = true) ->
  k ∈ take_while p (keys_from start m) <-> is_Some (m !! k) /\ p k = true.
Proof.
  intros Hstart Hblock. rewrite take_while_filter; [|apply keys_from_sorted|].
  - rewrite list_elem_of_filter, elem_of_keys_from, Is_true_true.
    split; [tauto|]. intros []. auto.
  - intros a b [Ha Ha']%elem_of_keys_from [Hb Hb']%elem_of_keys_from. eauto.
Qed.
End OrdMap.

(** ** Comparisons *)
Lemma string_compare_refl s : String.compare s s = Eq.
Proof. induction s as [|c s IH]; [done|]. simpl. unfold Ascii.compare. by rewrite N.compare_refl. Qed.

Lemma string_compare_trans c a b d :
  c <> Eq -> String.compare a b = c -> String.compare b d = c -> String.compare a d = c.
Proof.
  intros Hc. revert b d. induction a as [|x a IH]; intros [|y b] [|z d]; simpl; try congruence.
  unfold Ascii.compare.
  destruct (N.compare_spec (Ascii.N_of_ascii x) (Ascii.N_of_ascii y)) as [H1|H1|H1];
  destruct (N.compare_spec (Ascii.N_of_ascii y) (Ascii.N_of_ascii z)) as [H2|H2|H2];
  destruct (N.compare_spec (Ascii.N_of_ascii x) (Ascii.N_of_ascii z)) as [H3|H3|H3];
    try lia; try congruence; eauto.
Qed.

Lemma string_ltb_compare a b : String.ltb a b = true <-> String.compare a b = Lt.
Proof. unfold String.ltb. by destruct (String.compare a b). Qed.

#[export] Program Instance string_less : KeyCompare string := {| less := String.ltb |}.
Next Obligation. intros a. unfold String.ltb. by rewrite string_compare_refl. Qed.
Next Obligation.
  intros a b c. rewrite !string_ltb_compare. by apply string_compare_trans.
Qed.
Next Obligation.
  intros a b Hn. rewrite !string_ltb_compare, (String.compare_antisym b a).
  destruct (String.compare a b) eqn:Hc; simpl; auto.
  by apply String.compare_eq_iff in Hc.
Qed.

Lemma string_ltb_asym a b : String.ltb a b = true -> String.ltb b a = false.
Proof.
  intros Hl. destruct (String.ltb b a) eqn:Hba; [|done].
  pose proof (less_trans (KeyCompare := string_less) _ _ _ Hl Hba) as Hx.
  by rewrite (less_irrefl (KeyCompare := string_less)) in Hx.
Qed.

(** The lexicographic order of cache keys. *)
Definition block_lt (a b : InMemCacheBlock) : Prop :=
  String.ltb (fname a) (fname b) = true \/
  (fname a = fname b /\ (start_off a < start_off b \/
                         (start_off a = start_off b /\ blk_size a < blk_size b))).

Lemma InMemCacheBlockLess_spec a b : InMemCacheBlockLess a b = true <-> block_lt a b.
Proof.
  unfold InMemCacheBlockLess, block_lt.
  rewrite orb_true_iff, andb_true_iff, orb_true_iff, andb_true_iff, !negb_true_iff, !Z.ltb_lt, !Z.ltb_ge.
  destruct (String.ltb (fname a) (fname b)) eqn:Hab; [tauto|].
  destruct (decide (fname a = fname b)) as [He|Hn].
  - rewrite He, (less_irrefl (KeyCompare := string_less)). simpl. split.
    + intros [|[_ [?|[]]]]; [done|..]; right; (split; [done|]); lia.
    + intros [|[_ ?]]; [done|]. right. split; [done|]. lia.
  - destruct (less_total (KeyCompare := string_less) _ _ Hn) as [Hl|Hl]; simpl in Hl; [congruence|].
    rewrite Hl. split; [intros [|[]]; done|]. intros [|[]]; done.
Qed.

#[export] Program Instance block_less : KeyCompare InMemCacheBlock := {| less := InMemCacheBlockLess |}.
Next Obligation.
  intros a. destruct (InMemCacheBlockLess a a) eqn:Hl; [|done].
  apply InMemCacheBlockLess_spec in Hl as [Hl|[_ Hl]]; [|lia].
  by rewrite (less_irrefl (KeyCompare := string_less)) in Hl.
Qed.
Next Obligation.
  intros a b c. rewrite !InMemCacheBlockLess_spec. unfold block_lt.
  intros [H1|[H1 H1']] [H2|[H2 H2']].
  - left. eapply (less_trans (KeyCompare := string_less)); [apply H1|apply H2].
  - left. by rewrite <-H2.
  - left. by rewrite H1.
  - right. split; [congruence|]. lia.
Qed.
Next Obligation.
  intros a b Hn. rewrite !InMemCacheBlockLess_spec. unfold block_lt.
  destruct (decide (fname a = fname b)) as [He|Hne].
  - destruct a as [f o s], b as [f' o' s']; simpl in *. subst f'.
    assert (o <> o' \/ s <> s') by (destruct (decide (o = o')); [right; congruence|by left]).
    destruct (Z.lt_trichotomy o o') as [|[->|]]; [left; right; auto| |right; right; auto].
    destruct (Z.lt_trichotomy s s') as [|[->|]]; [left; right; auto| |right; right; auto]. lia.
  - destruct (less_total (KeyCompare := string_less) _ _ Hne); auto.
Qed.

(** A file's blocks are consecutive and start at its first possible key. *)
Lemma file_block_start f (k : InMemCacheBlock) :
  0 <= start_off k -> 0 <= blk_size k -> fname k = f -> less k (MkBlock f 0 0) = false.
Proof.
  intros H1 H2 <-. simpl. destruct (InMemCacheBlockLess _ _) eqn:Hl; [|done].
  apply InMemCacheBlockLess_spec in Hl as [Hl|[_ Hl]]; simpl in *; [|lia].
  by rewrite (less_irrefl (KeyCompare := string_less)) in Hl.
Qed.

Lemma file_block_convex f (a b : InMemCacheBlock) :
  less a (MkBlock f 0 0) = false -> not_less a b -> fname b = f -> fname a = f.
Proof.
  intros Ha Hab <-. unfold not_less in Hab. simpl in *.
  destruct (decide (fname a = fname b)) as [|Hn]; [done|exfalso].
  destruct (less_total (KeyCompare := string_less) _ _ Hn) as [Hl|Hl]; simpl in Hl.
  - enough (InMemCacheBlockLess a (MkBlock (fname b) 0 0) = true) by congruence.
    apply InMemCacheBlockLess_spec. by left.
  - enough (InMemCacheBlockLess b a = true) by congruence.
    apply InMemCacheBlockLess_spec. by left.
Qed.

(** [std::tie (...) < std::tie (...)] of several fields: nested pairs, lexicographically. *)
#[export] Program Instance pair_less {A B} `{EqDecision A} `{KA : KeyCompare A} `{KB : KeyCompare B} : KeyCompare (A * B) :=
  {| less p q := less p.1 q.1 || (negb (less q.1 p.1) && less p.2 q.2) |}.
Next Obligation. intros A B ? KA KB [a b]. simpl. by rewrite !less_irrefl. Qed.
Next Obligation.
  intros A B ? KA KB [a1 a2] [b1 b2] [c1 c2]; simpl. rewrite !orb_true_iff, !andb_true_iff, !negb_true_iff.
  assert (forall x y : A, less x y = false -> less y x = false -> x = y) as Heq.
  { intros x y H1 H2. destruct (decide (x = y)) as [|Hn]; [done|]. destruct (less_total _ _ Hn); congruence. }
  intros [H1|[H1 H2]] [H3|[H3 H4]].
  - left. by eapply less_trans.
  - destruct (decide (b1 = c1)) as [<-|Hn]; [by left|]. left.
    destruct (less_total _ _ Hn) as [Hl|Hl]; [by eapply less_trans|congruence].
  - destruct (decide (a1 = b1)) as [->|Hn]; [by left|]. left.
    destruct (less_total _ _ Hn) as [Hl|Hl]; [by eapply less_trans|congruence].
  - destruct (less a1 c1) eqn:Hac; [by left|]. right. split; [|by eapply less_trans].
    destruct (less c1 a1) eqn:Hca; [|done].
    destruct (decide (a1 = b1)) as [->|Hn]; [congruence|].
    destruct (less_total _ _ Hn) as [Hl|Hl]; [|congruence]. by rewrite (less_trans _ _ _ Hca Hl) in H3.
Qed.
Next Obligation.
  intros A B ? KA KB [a1 a2] [b1 b2] Hn; simpl. rewrite !orb_true_iff, !andb_true_iff, !negb_true_iff.
  destruct (decide (a1 = b1)) as [->|Hd].
  - rewrite !less_irrefl. destruct (less_total a2 b2) as [|]; [congruence|tauto..].
  - destruct (less_total _ _ Hd); tauto.
Qed.

(** A comparison through an injective key. *)
Program Definition less_by {A B} `{KB : KeyCompare B} (f : A -> B) (Hf : forall a a', f a = f a' -> a = a') : KeyCompare A :=
  {| less a a' := less (f a) (f a') |}.
Next Obligation. intros. simpl. apply less_irrefl. Qed.
Next Obligation. intros A B KB f Hf a b c. simpl. apply less_trans. Qed.
Next Obligation. intros A B KB f Hf a b Hn. simpl. apply less_total. intros He. by apply Hn, Hf. Qed.
