(* ===== verification/ReadPlan.v ===== *)
(** * ReadPlan

    How a read request becomes read chunks on the fixed block grid: the loop
    that [InMemoryCacheReader::ReadAndCache]
    ([src/src/in_memory_cache_reader.cpp]) and [DiskCacheReader::ReadAndCache]
    ([src/src/disk_cache_reader.cpp]) share word for word.

    [tiles] is what a reader needs of a plan, whoever made it: the chunks copy
    consecutive pieces of the file to consecutive pieces of the buffer, and each
    piece lies inside the cache entry it is copied from. *)
From S2P Require Import Prelude Blocks.

#[local] Open Scope Z_scope.

(** ** Plans *)
Section Tiles.
Variable file_size : Z.

Inductive tiles : list CacheReadChunk -> Z -> Z -> Z -> Prop :=
| tiles_nil pos addr : tiles [] pos addr pos
| tiles_cons c cs pos addr stop :
    requested_start_offset c = pos ->
    requested_start_addr c = addr ->
    0 < bytes_to_copy c ->
    0 <= aligned_start_offset c <= pos ->
    pos + bytes_to_copy c <= aligned_start_offset c + chunk_size c ->
    aligned_start_offset c + chunk_size c <= file_size ->
    tiles cs (pos + bytes_to_copy c) (addr + bytes_to_copy c) stop ->
    tiles (c :: cs) pos addr stop.

Lemma tiles_le cs pos addr stop : tiles cs pos addr stop -> pos <= stop.
Proof. induction 1; lia. Qed.

Lemma tiles_app cs1 cs2 pos addr mid stop :
  tiles cs1 pos addr mid -> tiles cs2 mid (addr + (mid - pos)) stop ->
  tiles (cs1 ++ cs2) pos addr stop.
Proof.
  induction 1 as [pos addr|c cs pos addr mid ? ? ? ? ? ? ? IH]; simpl; intros Ht.
  - by replace (addr + (pos - pos)) with addr in Ht by lia.
  - constructor; try done. apply IH.
    by replace (addr + bytes_to_copy c + (mid - (pos + bytes_to_copy c)))
      with (addr + (mid - pos)) by lia.
Qed.

(** The pieces of a plan are laid out in order, without overlap. *)
Lemma tiles_lookup cs pos addr stop i c :
  tiles cs pos addr stop -> cs !! i = Some c ->
  pos <= requested_start_offset c /\ requested_start_offset c + bytes_to_copy c <= stop /\
  requested_start_addr c - addr = requested_start_offset c - pos /\
  0 < bytes_to_copy c /\ 0 <= aligned_start_offset c <= requested_start_offset c /\
  requested_start_offset c + bytes_to_copy c <= aligned_start_offset c + chunk_size c <= file_size.
Proof.
  intros Ht. revert i. induction Ht as [|c0 cs pos addr stop H1 H2 H3 H4 H5 H6 Ht IH]; intros i; [done|].
  apply tiles_le in Ht. destruct i as [|i]; simpl; [intros [= <-]; lia|].
  intros Hi. specialize (IH i Hi). lia.
Qed.

Lemma tiles_disjoint cs pos addr stop i j c d :
  tiles cs pos addr stop -> cs !! i = Some c -> cs !! j = Some d -> (i < j)%nat ->
  requested_start_addr c + bytes_to_copy c <= requested_start_addr d.
Proof.
  intros Ht. revert i j. induction Ht as [|c0 cs pos addr stop H1 H2 H3 H4 H5 H6 Ht IH];
    intros i j Hi Hj Hlt; [done|].
  destruct j as [|j]; [lia|]. destruct i as [|i]; simpl in *.
  - injection Hi as <-. destruct (tiles_lookup _ _ _ _ _ _ Ht Hj). lia.
  - apply (IH i j); [done..|lia].
Qed.

(** When every piece of the buffer is the file's, so is the whole range. *)
Lemma tiles_agrees {A} cs pos addr stop (buf file : list A) :
  tiles cs pos addr stop ->
  (forall c, c ∈ cs ->
     agrees buf (requested_start_addr c) file (requested_start_offset c) (bytes_to_copy c)) ->
  agrees buf addr file pos (stop - pos).
Proof.
  induction 1 as [pos addr|c cs pos addr stop H1 H2 H3 H4 H5 H6 Ht IH]; intros Hall.
  - intros d Hd. lia.
  - apply tiles_le in Ht.
    replace (stop - pos) with (bytes_to_copy c + (stop - (pos + bytes_to_copy c))) by lia.
    apply agrees_join; [lia| |].
    + rewrite <-H1, <-H2. apply Hall. by constructor.
    + apply IH. intros d Hd. apply Hall. by constructor.
Qed.
End Tiles.

(** ** The loop

    [plan_state] holds the loop's variables; [requested] is
    [requested_start_offset], which the loop advances. *)
Record plan_state := MkPlan {
  io_start_offset : Z;
  addr_to_write : Z;
  already_read_bytes : Z;
  requested : Z;
  total_bytes_to_cache : Z;
  scheduled : list CacheReadChunk
}.

Section FixedBlocks.
Variables (requested_bytes_to_read file_size block_size : Z).
Variable alignment_info : ChunkAlignmentInfo.

(** One iteration of the [for] loop, [io_start_offset += block_size] included. *)
Definition plan_step (st : plan_state) : plan_state :=
  let io := io_start_offset st in
  if io =? file_size then
    MkPlan (io +u block_size) (addr_to_write st) (already_read_bytes st) (requested st)
           (total_bytes_to_cache st) (scheduled st)
  else
    let is_first := io =? ai_start_offset alignment_info in
    let is_last := io =? ai_last_chunk_offset alignment_info in
    let '(addr', already', chunk_size, bytes_to_copy) :=
      if is_first && is_last then
        (addr_to_write st, already_read_bytes st,
         Z.min block_size (file_size -u io), requested_bytes_to_read)
      else if is_first then
        let delta_offset := requested st -u ai_start_offset alignment_info in
        (addr_to_write st +u (block_size -u delta_offset),
         already_read_bytes st +u (block_size -u delta_offset),
         block_size, block_size -u delta_offset)
      else if is_last then
        (addr_to_write st, already_read_bytes st,
         Z.min block_size (file_size -u io),
         requested_bytes_to_read -u already_read_bytes st)
      else
        (addr_to_write st +u block_size, already_read_bytes st +u block_size,
         block_size, block_size) in
    let c := MkReadChunk (addr_to_write st) (requested st) io chunk_size bytes_to_copy in
    MkPlan (io +u block_size) addr' already' (io +u block_size)
           (total_bytes_to_cache st +u chunk_size) (scheduled st ++ [c]).

Definition plan_continues (st : plan_state) : bool :=
  io_start_offset st <=? ai_last_chunk_offset alignment_info.

(** The loop with [fuel] iterations; [None] when they are not enough. *)
Fixpoint plan_loop (fuel : nat) (st : plan_state) : option plan_state :=
  if plan_continues st then
    match fuel with
    | O => None
    | S fuel' => plan_loop fuel' (plan_step st)
    end
  else Some st.
End FixedBlocks.

(** The plan of a request: the scheduled chunks and the bytes to cache.  The
    loop body runs once per sub-request. *)
Definition PlanFixedBlocks (requested_start_offset requested_bytes_to_read file_size
    block_size : Z) : option (list CacheReadChunk * Z) :=
  let alignment_info := CalculateChunkAlignment
    (MkReadRequest requested_start_offset requested_bytes_to_read block_size) in
  let init := MkPlan (ai_start_offset alignment_info) 0 0 requested_start_offset 0 [] in
  st ← plan_loop requested_bytes_to_read file_size block_size alignment_info
         (Z.to_nat (ai_subrequest_count alignment_info)) init;
  Some (scheduled st, total_bytes_to_cache st).

(** ** Correctness of the plan

    The plan in closed form: one chunk per block that meets the request, whose
    copied range is the intersection of the block and the request. *)
Section PlanFacts.
Variables (start n file_size bs : Z).
Hypothesis Hstart : 0 <= start.
Hypothesis Hn : 0 < n.
Hypothesis Hbs : 0 < bs.
Hypothesis Hend : start + n <= file_size.
Hypothesis Hfile : file_size + bs < two64.

#[local] Abbreviation a0 := (start / bs * bs).
#[local] Abbreviation lastb := ((start + n - 1) / bs * bs).
#[local] Abbreviation count := ((lastb - a0) / bs + 1).
#[local] Abbreviation ai := (MkAlignment a0 lastb count).

Definition block_chunk (k : Z) : CacheReadChunk :=
  let io := a0 + k * bs in
  let copy_from := Z.max start io in
  let copy_to := Z.min (start + n) (io + bs) in
  MkReadChunk (copy_from - start) copy_from io (Z.min bs (file_size - io))
              (copy_to - copy_from).

Definition block_chunks (k : Z) : list CacheReadChunk := block_chunk <$> seqZ 0 k.

Record plan_at (k : Z) (st : plan_state) : Prop := {
  at_io : io_start_offset st = a0 + k * bs;
  at_requested : requested st = if decide (k = 0) then start else a0 + k * bs;
  at_addr : k < count -> addr_to_write st = requested st - start /\
                         already_read_bytes st = requested st - start;
  at_scheduled : scheduled st = block_chunks k;
  at_total : total_bytes_to_cache st = sum_Z (chunk_size <$> block_chunks k);
  at_total_bound : 0 <= total_bytes_to_cache st <= k * bs
}.

#[local] Lemma grid_facts :
  a0 <= start < a0 + bs /\ 0 <= a0 /\ lastb <= start + n - 1 < lastb + bs /\ a0 <= lastb /\
  lastb = a0 + (count - 1) * bs /\ 1 <= count.
Proof.
  pose proof (align_down start bs Hstart Hbs).
  pose proof (align_down (start + n - 1) bs ltac:(lia) Hbs).
  pose proof (Z.div_pos start bs Hstart Hbs).
  assert (start / bs <= (start + n - 1) / bs) by (apply Z.div_le_mono; lia).
  assert ((lastb - a0) / bs = (start + n - 1) / bs - start / bs) as ->.
  { rewrite <-Z.mul_sub_distr_r. apply Z.div_mul. lia. }
  nia.
Qed.

Lemma block_chunks_S k : 0 <= k -> block_chunks (k + 1) = block_chunks k ++ [block_chunk k].
Proof.
  intros. unfold block_chunks. rewrite seqZ_app by lia. rewrite fmap_app. done.
Qed.

Lemma plan_step_at k st :
  0 <= k < count -> plan_at k st -> plan_at (k + 1) (plan_step n file_size bs ai st).
Proof.
  intros Hk [Hio Hreq Haddr Hsch Htot Hb]. destruct grid_facts as (G1 & G2 & G3 & G4 & G5 & G6).
  specialize (Haddr ltac:(lia)) as [Had Hal].
  assert (k * bs <= (count - 1) * bs) as Hkb by nia.
  assert (k = 0 \/ bs <= k * bs) as Hk0 by (destruct (decide (k = 0)); [lia|right; nia]).
  assert (k = count - 1 \/ k * bs + bs <= (count - 1) * bs) as Hkl
    by (destruct (decide (k = count - 1)); [lia|right; nia]).
  assert (a0 + k * bs <= lastb) as Hle by lia.
  unfold plan_step. rewrite Hio. simpl.
  rewrite (proj2 (Z.eqb_neq (a0 + k * bs) file_size)) by lia.
  assert (scheduled st ++ [block_chunk k] = block_chunks (k + 1)) as Hs
    by (by rewrite block_chunks_S, Hsch by lia).
  assert (sum_Z (chunk_size <$> block_chunks (k + 1)) =
          total_bytes_to_cache st + Z.min bs (file_size - (a0 + k * bs))) as Ht.
  { rewrite block_chunks_S, fmap_app, sum_Z_app, Htot by lia. simpl. lia. }
  rewrite Had, Hal, Hreq.
  destruct (Z.eqb_spec (a0 + k * bs) a0) as [E1|E1];
    destruct (Z.eqb_spec (a0 + k * bs) lastb) as [E2|E2]; simpl.
  - rewrite decide_True by nia. u64_norm. constructor; simpl; try lia.
    + rewrite decide_False by lia. lia.
    + rewrite <-Hs. unfold block_chunk. do 2 f_equal. f_equal; lia.
  - rewrite decide_True by nia. u64_norm. constructor; simpl; try lia.
    + rewrite decide_False by lia. lia.
    + rewrite <-Hs. unfold block_chunk. do 2 f_equal. f_equal; lia.
  - rewrite decide_False by nia. u64_norm. constructor; simpl; try lia.
    + rewrite decide_False by lia. lia.
    + rewrite <-Hs. unfold block_chunk. do 2 f_equal. f_equal; lia.
  - rewrite decide_False by nia. u64_norm. constructor; simpl; try lia.
    + rewrite decide_False by lia. lia.
    + rewrite <-Hs. unfold block_chunk. do 2 f_equal. f_equal; lia.
Qed.

Lemma plan_loop_at m k st :
  0 <= k -> k + Z.of_nat m = count -> plan_at k st ->
  exists st', plan_loop n file_size bs ai m st = Some st' /\ plan_at count st'.
Proof.
  destruct grid_facts as (G1 & G2 & G3 & G4 & G5 & G6).
  revert k st. induction m as [|m IH]; intros k st Hk Hm Hat; simpl.
  - assert (k = count) as -> by lia. unfold plan_continues.
    rewrite (at_io _ _ Hat). simpl. rewrite (proj2 (Z.leb_gt _ _)) by nia. eauto.
  - unfold plan_continues. rewrite (at_io _ _ Hat). simpl.
    rewrite (proj2 (Z.leb_le _ _)) by nia.
    apply (IH (k + 1)); [lia..|]. apply plan_step_at; [lia|done].
Qed.

Lemma plan_closed_form :
  PlanFixedBlocks start n file_size bs =
    Some (block_chunks count, sum_Z (chunk_size <$> block_chunks count)).
Proof.
  destruct grid_facts as (G1 & G2 & G3 & G4 & G5 & G6).
  unfold PlanFixedBlocks. rewrite alignment_spec by lia. cbv zeta. simpl.
  destruct (plan_loop_at (Z.to_nat count) 0 (MkPlan a0 0 0 start 0 [])) as (st & Hl & Hat).
  - lia.
  - lia.
  - constructor; simpl; try done; lia.
  - simpl in Hl. rewrite Hl. simpl. by rewrite (at_scheduled _ _ Hat), (at_total _ _ Hat).
Qed.

Lemma block_chunks_tile k :
  0 <= k <= count ->
  tiles file_size (block_chunks k) start 0 (Z.max start (Z.min (start + n) (a0 + k * bs))).
Proof.
  destruct grid_facts as (G1 & G2 & G3 & G4 & G5 & G6).
  intros [Hk Hle]. revert k Hk Hle. refine (natlike_ind _ _ _).
  - intros _. replace (Z.max start _) with start by lia. constructor.
  - intros k Hk IH Hle. rewrite <-Z.add_1_r, block_chunks_S by lia.
    assert (k * bs <= (count - 1) * bs) by nia.
    assert (k = 0 \/ bs <= k * bs) by (destruct (decide (k = 0)); [lia|right; nia]).
    eapply tiles_app; [apply IH; lia|].
    replace (Z.max start (Z.min (start + n) (a0 + (k + 1) * bs)))
      with (requested_start_offset (block_chunk k) + bytes_to_copy (block_chunk k)) by (simpl; lia).
    constructor; simpl; try lia.
    match goal with |- tiles _ [] ?p _ ?s => replace s with p by lia end. constructor.
Qed.

Lemma block_chunks_tile_all : tiles file_size (block_chunks count) start 0 (start + n).
Proof.
  destruct grid_facts as (G1 & G2 & G3 & G4 & G5 & G6).
  pose proof (block_chunks_tile count ltac:(lia)) as Ht.
  by replace (Z.max start _) with (start + n) in Ht by nia.
Qed.
End PlanFacts.


Lemma block_chunks_grid start n file_size bs k :
  0 < bs -> 0 <= k ->
  Forall (fun c => aligned_start_offset c mod bs = 0 /\
                   chunk_size c = Z.min bs (file_size - aligned_start_offset c))
         (block_chunks start n file_size bs k).
Proof.
  intros Hbs Hk. apply Forall_fmap, Forall_forall. intros j Hj. simpl.
  rewrite <-Z.mul_add_distr_r. split; [|done]. apply Z.mod_mul. lia.
Qed.

Lemma PlanFixedBlocks_ok start n file_size bs :
  0 <= start -> 0 < n -> 0 < bs -> start + n <= file_size -> file_size + bs < two64 ->
  exists cs total,
    PlanFixedBlocks start n file_size bs = Some (cs, total) /\
    tiles file_size cs start 0 (start + n) /\
    Forall (fun c => aligned_start_offset c mod bs = 0 /\
                     chunk_size c = Z.min bs (file_size - aligned_start_offset c)) cs /\
    Z.of_nat (length cs) = (start + n - 1) / bs - start / bs + 1 /\
    total = sum_Z (chunk_size <$> cs).
Proof.
  intros Hs Hn Hb He Hf.
  exists (block_chunks start n file_size bs (((start + n - 1) / bs * bs - start / bs * bs) / bs + 1)).
  eexists. split; [by apply plan_closed_form|]. split; [by apply block_chunks_tile_all|].
  assert (start / bs <= (start + n - 1) / bs) by (apply Z.div_le_mono; lia).
  assert (((start + n - 1) / bs * bs - start / bs * bs) / bs = (start + n - 1) / bs - start / bs) as E.
  { rewrite <-Z.mul_sub_distr_r. apply Z.div_mul. lia. }
  rewrite E. split; [by apply block_chunks_grid; lia|]. split; [|done].
  unfold block_chunks. rewrite length_fmap, length_seqZ. lia.
Qed.

(** C9: For a request inside the file, the block loop of [ReadAndCache] ends and
    schedules one chunk per block that meets the request: the chunks copy
    consecutive pieces of the file to consecutive pieces of the caller's buffer,
    cover the request exactly, start on the block grid, never reach past the end
    of the file, and [total_bytes_to_cache] is the sum of their sizes. *)
Theorem plan_tiles_request start n file_size bs :
  0 <= start -> 0 < n -> 0 < bs -> start + n <= file_size -> file_size + bs < two64 ->
  exists cs total,
    PlanFixedBlocks start n file_size bs = Some (cs, total) /\
    tiles file_size cs start 0 (start + n) /\
    Forall (fun c => aligned_start_offset c mod bs = 0 /\
                     chunk_size c = Z.min bs (file_size - aligned_start_offset c)) cs /\
    Z.of_nat (length cs) = (start + n - 1) / bs - start / bs + 1 /\
    total = sum_Z (chunk_size <$> cs).
Proof. apply PlanFixedBlocks_ok. Qed.

Lemma plan_tiles_request_witness :
  exists cs total,
    PlanFixedBlocks 3 10 14 4 = Some (cs, total) /\
    tiles 14 cs 3 0 (3 + 10) /\
    Forall (fun c => aligned_start_offset c mod 4 = 0 /\
                     chunk_size c = Z.min 4 (14 - aligned_start_offset c)) cs /\
    Z.of_nat (length cs) = (3 + 10 - 1) / 4 - 3 / 4 + 1 /\
    total = sum_Z (chunk_size <$> cs).
Proof. apply (plan_tiles_request 3 10 14 4); lia. Defined.

Example plan_example :
  PlanFixedBlocks 3 10 14 4 =
    Some ([MkReadChunk 0 3 0 4 1; MkReadChunk 1 4 4 4 4; MkReadChunk 5 8 8 4 4;
           MkReadChunk 9 12 12 2 1], 14).
Proof. vm_compute. reflexivity. Qed.
