(* ===== verification/DataStorage.v ===== *)
(** * DataStorage

    The pluggable backend of the in-memory block cache
    ([src/src/include/in_memory_data_cache_storage.hpp]): the operations as a
    type class and what a reader may rely on as its laws.  [LruCache],
    [PolicyStorage] and the other backends discharge the laws; the readers are
    verified against them. *)
From S2P Require Import Prelude Blocks.

#[local] Open Scope Z_scope.

(** [InMemCacheDataEntry]. *)
Record InMemCacheDataEntry := MkEntry {
  entry_data : PageAlignedDataChunk;
  version_tag : string
}.

#[export] Instance InMemCacheDataEntry_eq_dec : EqDecision InMemCacheDataEntry.
Proof. solve_decision. Defined.

(** [PinnedBlock::ValidateVersionTag]. *)
Definition ValidateVersionTag (cached expected_version_tag : string) : bool :=
  String.eqb expected_version_tag "" || String.eqb cached expected_version_tag.

Lemma ValidateVersionTag_true cached expected :
  ValidateVersionTag cached expected = true <-> expected = ""%string \/ cached = expected.
Proof. unfold ValidateVersionTag. by rewrite orb_true_iff, !String.eqb_eq. Qed.

(** The virtual operations.  The first argument of [Put], [Get] and [Take] is what
    the steady clock reads during the operation ([Take] reads it once per entry);
    a returned chunk is the snapshot that a [PinnedBlock] keeps alive. *)
Class InMemoryDataCacheStorage (S : Type) := {
  Put : Z -> InMemCacheBlock -> PageAlignedDataChunk -> string -> S -> Res S;
  Get : Z -> InMemCacheBlock -> string -> S -> option PageAlignedDataChunk * S;
  Delete : InMemCacheBlock -> S -> bool * S;
  Clear : S -> S;
  ClearFrom : InMemCacheBlock -> (InMemCacheBlock -> bool) -> S -> S;
  Keys : S -> list InMemCacheBlock;
  Take : (nat -> Z) -> S -> Res (list (InMemCacheBlock * InMemCacheDataEntry)) * S
}.

(** Keys carry unsigned offsets. *)
Definition key_ok (k : InMemCacheBlock) : Prop := 0 <= start_off k < two64 /\ 0 <= blk_size k < two64.

(** The filter and the first key that the readers pass to clear one file. *)
Definition file_start_key (f : string) : InMemCacheBlock := MkBlock f 0 0.
Definition file_filter (f : string) (k : InMemCacheBlock) : bool := String.eqb (fname k) f.

(** What a backend promises.  [holds s k e]: [s] may answer [k] with [e].  A
    cache may forget at any time, so operations are specified by what they can
    still hold; [Keys] and [Delete] may also report a key whose block is gone. *)
Class StorageLaws (S : Type) `{InMemoryDataCacheStorage S} := {
  storage_ok : S -> Prop;
  holds : S -> InMemCacheBlock -> InMemCacheDataEntry -> Prop;
  holds_functional s k e e' : storage_ok s -> holds s k e -> holds s k e' -> e = e';
  Put_law now k c t s s' :
    storage_ok s -> key_ok k -> Put now k c t s = Ok s' ->
    storage_ok s' /\
    forall k' e, holds s' k' e -> (k' = k /\ e = MkEntry c t) \/ holds s k' e;
  Put_total now k c t s :
    storage_ok s -> key_ok k -> 0 < c_length c -> exists s', Put now k c t s = Ok s';
  Get_law now k t s r s' :
    storage_ok s -> Get now k t s = (r, s') ->
    storage_ok s' /\
    (forall k' e, holds s' k' e -> holds s k' e) /\
    (forall c, r = Some c -> exists e, holds s k e /\ entry_data e = c /\
       ValidateVersionTag (version_tag e) t = true);
  Delete_law k s b s' :
    storage_ok s -> Delete k s = (b, s') ->
    storage_ok s' /\ (forall e, holds s k e -> b = true) /\
    (forall k' e, holds s' k' e <-> holds s k' e /\ k' <> k);
  Clear_law s : storage_ok s -> storage_ok (Clear s) /\ forall k e, ~ holds (Clear s) k e;
  ClearFrom_law f s :
    storage_ok s ->
    storage_ok (ClearFrom (file_start_key f) (file_filter f) s) /\
    forall k e, holds (ClearFrom (file_start_key f) (file_filter f) s) k e <->
                holds s k e /\ fname k <> f;
  Keys_law s k e : storage_ok s -> holds s k e -> k ∈ Keys s;
  Take_law clock s :
    storage_ok s ->
    exists r s', Take clock s = (Ok r, s') /\
      storage_ok s' /\ (forall k e, ~ holds s' k e) /\
      NoDup (fst <$> r) /\ forall k e, (k, e) ∈ r -> holds s k e
}.

(** ** Truthful caches

    [content f t] is the content of remote file [f] at version [t].  An entry is
    truthful when it holds exactly the bytes its key names. *)
Section Truth.
Variable content : string -> string -> list byte.

Definition truthful (k : InMemCacheBlock) (e : InMemCacheDataEntry) : Prop :=
  let file := content (fname k) (version_tag e) in
  0 <= start_off k < two64 /\ 0 < blk_size k < two64 /\
  start_off k + blk_size k <= Z.of_nat (length file) /\
  c_length (entry_data e) = blk_size k /\
  blk_size k <= Z.of_nat (length (data (entry_data e))) /\
  slice (data (entry_data e)) 0 (blk_size k) = slice file (start_off k) (blk_size k).

Definition truthful_storage {S} `{StorageLaws S} (s : S) : Prop :=
  storage_ok s /\ forall k e, holds s k e -> truthful k e.

Lemma truthful_key_ok k e : truthful k e -> key_ok k.
Proof. intros (? & ? & _). split; lia. Qed.

(** A sub-range of a truthful entry is the file's. *)
Lemma truthful_slice k e off n :
  truthful k e -> start_off k <= off -> 0 <= n -> off + n <= start_off k + blk_size k ->
  slice (data (entry_data e)) (off - start_off k) n =
  slice (content (fname k) (version_tag e)) off n.
Proof.
  intros (? & ? & ? & ? & ? & He) ? ? ?.
  transitivity (slice (slice (data (entry_data e)) 0 (blk_size k)) (off - start_off k) n).
  - rewrite slice_slice by lia. f_equal; lia.
  - rewrite He, slice_slice by lia. f_equal; lia.
Qed.

Section Preserved.
Context {S : Type} `{StorageLaws S}.
Implicit Types (s : S).

Lemma truthful_Put now k c t s s' :
  truthful_storage s -> truthful k (MkEntry c t) -> Put now k c t s = Ok s' ->
  truthful_storage s'.
Proof.
  intros [Hok Hall] Hk Hp.
  destruct (Put_law _ _ _ _ _ _ Hok (truthful_key_ok _ _ Hk) Hp) as [Hok' Hh].
  split; [done|]. intros k' e' Hk'. destruct (Hh _ _ Hk') as [[-> ->]|]; auto.
Qed.

Lemma truthful_Get now k t s r s' :
  truthful_storage s -> Get now k t s = (r, s') ->
  truthful_storage s' /\
  forall c, r = Some c -> exists tag, truthful k (MkEntry c tag) /\
                                      ValidateVersionTag tag t = true.
Proof.
  intros [Hok Hall] Hg. destruct (Get_law _ _ _ _ _ _ Hok Hg) as (Hok' & Hh & Hr).
  split; [split; [done|]; auto|]. intros c Hc.
  destruct (Hr c Hc) as ([c' tag] & He & Heq & Hv). simpl in *. subst c'.
  exists tag. auto.
Qed.

Lemma truthful_Delete k s : truthful_storage s -> truthful_storage (Delete k s).2.
Proof.
  intros [Hok Hall]. destruct (Delete k s) as [b s'] eqn:Hd.
  destruct (Delete_law _ _ _ _ Hok Hd) as (Hok' & _ & Hh). split; [done|].
  intros k' e [Hk' _]%Hh. auto.
Qed.

Lemma truthful_Clear s : truthful_storage s -> truthful_storage (Clear s).
Proof.
  intros [Hok Hall]. destruct (Clear_law s Hok) as [Hok' Hh]. split; [done|].
  intros k e []%Hh.
Qed.

Lemma truthful_ClearFrom f s :
  truthful_storage s -> truthful_storage (ClearFrom (file_start_key f) (file_filter f) s).
Proof.
  intros [Hok Hall]. destruct (ClearFrom_law f s Hok) as [Hok' Hh]. split; [done|].
  intros k e [Hk _]%Hh. auto.
Qed.
End Preserved.
End Truth.

Create HintDb storage.
#[export] Hint Resolve truthful_Put truthful_Delete truthful_Clear truthful_ClearFrom : storage.
