(* ===== verification/Tasks.v ===== *)
(** * Tasks

    What a parallel executor ([src/src/utils/include/parallel_executor.hpp])
    runs: tasks that advance by atomic steps on a shared state, in any order and
    interleaved with the steps of other queries ([env]).  The thread pool and
    the DuckDB scheduler only choose among these interleavings, and [WaitAll]
    returns once every task has finished ([ThreadPoolProofs] proves it of the pool). *)
From S2P Require Import Prelude.

Section Parallel.
Context {T G : Type}.
Variable step : Z -> T -> G -> T * G.
Variable env : G -> G -> Prop.

Inductive run : list T -> G -> list T -> G -> Prop :=
| run_refl ts g : run ts g ts g
| run_task ts0 g0 ts g i t now t' g' :
    run ts0 g0 ts g -> ts !! i = Some t -> step now t g = (t', g') ->
    run ts0 g0 (<[i := t']> ts) g'
| run_env ts0 g0 ts g g' :
    run ts0 g0 ts g -> env g g' -> run ts0 g0 ts g'.

Lemma run_length ts0 g0 ts g : run ts0 g0 ts g -> length ts = length ts0.
Proof. induction 1; by rewrite ?length_insert. Qed.

(** An invariant made of a global part and of one part per task that the other
    tasks and the environment do not disturb. *)
Section Invariant.
Variable global_ok : G -> Prop.
Variable local_ok : nat -> T -> G -> Prop.
Hypothesis env_global : forall g g', global_ok g -> env g g' -> global_ok g'.
Hypothesis env_local : forall i t g g',
  global_ok g -> env g g' -> local_ok i t g -> local_ok i t g'.
Hypothesis step_own : forall i t g now t' g',
  global_ok g -> local_ok i t g -> step now t g = (t', g') ->
  global_ok g' /\ local_ok i t' g'.
Hypothesis step_other : forall i j t u g now t' g',
  i <> j -> global_ok g -> local_ok i t g -> local_ok j u g -> step now t g = (t', g') ->
  local_ok j u g'.

Definition all_ok (ts : list T) (g : G) : Prop :=
  global_ok g /\ forall i t, ts !! i = Some t -> local_ok i t g.

Lemma run_invariant ts0 g0 ts g : run ts0 g0 ts g -> all_ok ts0 g0 -> all_ok ts g.
Proof.
  induction 1 as [|ts0 g0 ts g i t now t' g' _ IH Hi Hs|ts0 g0 ts g g' _ IH He];
    intros H0; [done| |].
  - destruct (IH H0) as [Hg Hl]. destruct (step_own _ _ _ _ _ _ Hg (Hl _ _ Hi) Hs) as [Hg' Hl'].
    split; [done|]. intros j u Hj. destruct (decide (i = j)) as [<-|Hne].
    + rewrite list_lookup_insert_eq in Hj by (by eapply lookup_lt_Some). by injection Hj as <-.
    + rewrite list_lookup_insert_ne in Hj by done. eauto.
  - destruct (IH H0) as [Hg Hl]. split; [eauto|]. intros j u Hj. eauto.
Qed.
End Invariant.

(** A schedule: which task moves next, and the clock it reads. *)
Fixpoint run_schedule (sch : list (nat * Z)) (ts : list T) (g : G) : list T * G :=
  match sch with
  | [] => (ts, g)
  | (i, now) :: sch' =>
      match ts !! i with
      | None => run_schedule sch' ts g
      | Some t => let '(t', g') := step now t g in run_schedule sch' (<[i := t']> ts) g'
      end
  end.

Lemma run_trans ts0 g0 ts1 g1 ts g :
  run ts0 g0 ts1 g1 -> run ts1 g1 ts g -> run ts0 g0 ts g.
Proof. intros H1 H2. induction H2; [done| |]; econstructor; eauto. Qed.

Lemma run_schedule_run sch ts g :
  run ts g (run_schedule sch ts g).1 (run_schedule sch ts g).2.
Proof.
  revert ts g. induction sch as [|[i now] sch IH]; intros ts g; simpl; [constructor|].
  destruct (ts !! i) as [t|] eqn:Hi; [|apply IH].
  destruct (step now t g) as [t' g'] eqn:Hs.
  eapply run_trans; [|apply IH]. econstructor; [constructor|done|done].
Qed.

(** A task that has had as many turns as its measure is done. *)
Section Termination.
Variable measure : T -> nat.
Hypothesis step_decreases : forall now t g, (measure (step now t g).1 <= pred (measure t))%nat.

Definition turns (i : nat) (sch : list (nat * Z)) : nat :=
  length (filter (fun p => p.1 = i) sch).

Lemma run_schedule_measure sch ts g i t :
  ts !! i = Some t -> (measure t <= turns i sch)%nat ->
  exists t', (run_schedule sch ts g).1 !! i = Some t' /\ measure t' = 0%nat.
Proof.
  revert ts g t. induction sch as [|[j now] sch IH]; intros ts g t Hi Hm.
  { exists t. unfold turns in Hm. simpl in *. split; [done|lia]. }
  unfold turns in Hm, IH. rewrite filter_cons in Hm. simpl in Hm |- *.
  destruct (ts !! j) as [u|] eqn:Hj.
  - pose proof (step_decreases now u g) as Hd.
    destruct (step now u g) as [u' g'] eqn:Hs. simpl in Hd.
    destruct (decide (j = i)) as [->|Hne].
    + assert (u = t) as -> by congruence. simpl in Hm.
      eapply IH; [by apply list_lookup_insert_eq; eapply lookup_lt_Some|].
      lia.
    + eapply IH; [by rewrite list_lookup_insert_ne|done].
  - case_decide; [congruence|]. eauto.
Qed.
End Termination.
End Parallel.

Lemma elem_of_task_insert {T} (ts : list T) i t u : u ∈ <[i := t]> ts -> u = t \/ u ∈ ts.
Proof.
  intros [j Hj]%list_elem_of_lookup. destruct (decide (i = j)) as [<-|Hne].
  - left. apply list_lookup_insert_Some in Hj as [(_ & -> & _)|[? _]]; done.
  - right. rewrite list_lookup_insert_ne in Hj by done. by eapply list_elem_of_lookup_2.
Qed.

(** ** Counting tasks *)
Section Counting.
Context {T : Type} (P : T -> Prop) `{forall t, Decision (P t)}.

Definition count_tasks (ts : list T) : nat := length (filter P ts).

Lemma count_tasks_insert ts i t t' :
  ts !! i = Some t ->
  (count_tasks (<[i := t']> ts) + (if decide (P t) then 1 else 0) =
   count_tasks ts + (if decide (P t') then 1 else 0))%nat.
Proof.
  intros Hi. rewrite (insert_take_drop ts i t') by (by eapply lookup_lt_Some).
  rewrite <-(take_drop_middle ts i t Hi) at 3. unfold count_tasks.
  rewrite !filter_app, !filter_cons, !length_app.
  destruct (decide (P t)), (decide (P t')); simpl; lia.
Qed.

Lemma count_tasks_app ts1 ts2 : count_tasks (ts1 ++ ts2) = (count_tasks ts1 + count_tasks ts2)%nat.
Proof. unfold count_tasks. by rewrite filter_app, length_app. Qed.

Lemma count_tasks_cons t ts : count_tasks (t :: ts) = ((if decide (P t) then 1 else 0) + count_tasks ts)%nat.
Proof. unfold count_tasks. rewrite filter_cons. by destruct (decide (P t)). Qed.

Lemma count_tasks_pos ts i t : ts !! i = Some t -> P t -> (0 < count_tasks ts)%nat.
Proof.
  intros Hi Ht. rewrite <-(take_drop_middle ts i t Hi). unfold count_tasks.
  rewrite filter_app, filter_cons_True by done. rewrite length_app. simpl. lia.
Qed.

Lemma count_tasks_zero ts i t : count_tasks ts = 0%nat -> ts !! i = Some t -> ~ P t.
Proof. intros Hc Hi Ht. pose proof (count_tasks_pos ts i t Hi Ht). lia. Qed.

Lemma count_tasks_one ts i j t u :
  (count_tasks ts <= 1)%nat -> ts !! i = Some t -> ts !! j = Some u -> P t -> P u -> i = j.
Proof.
  intros Hc Hi Hj Ht Hu. destruct (decide (i = j)) as [|Hne]; [done|].
  rewrite <-(take_drop_middle ts i t Hi) in Hc. unfold count_tasks in Hc.
  rewrite filter_app, filter_cons_True, length_app in Hc by done. simpl in Hc.
  assert (0 < count_tasks (take i ts) + count_tasks (drop (S i) ts))%nat; [|unfold count_tasks in *; lia].
  destruct (decide (j < i)%nat) as [Hlt|Hge].
  - pose proof (count_tasks_pos (take i ts) j u) as Hp.
    rewrite lookup_take_lt in Hp by done. specialize (Hp Hj Hu). lia.
  - pose proof (count_tasks_pos (drop (S i) ts) (j - S i) u) as Hp.
    rewrite lookup_drop in Hp. replace (S i + (j - S i))%nat with j in Hp by lia. specialize (Hp Hj Hu). lia.
Qed.

Lemma count_tasks_none ts : (forall i t, ts !! i = Some t -> ~ P t) -> count_tasks ts = 0%nat.
Proof.
  intros Hn. unfold count_tasks. destruct (filter P ts) as [|t l] eqn:Hf; [done|].
  assert (t ∈ filter P ts) as Hin by (rewrite Hf; constructor).
  apply list_elem_of_filter in Hin as [Ht [i Hi]%list_elem_of_lookup]. by destruct (Hn i t).
Qed.
End Counting.

(** ** Rounds

    A turn establishes [Q] whenever the invariant holds; then in a round, a schedule in
    which every task has a turn, every task gets to [Q]. *)
Section Rounds.
Context {T G : Type}.
Variable step : Z -> T -> G -> T * G.
Variable Inv : list T -> G -> Prop.
Hypothesis step_inv : forall ts g i t now,
  Inv ts g -> ts !! i = Some t -> Inv (<[i := (step now t g).1]> ts) (step now t g).2.

Lemma schedule_inv sch ts g : Inv ts g -> Inv (run_schedule step sch ts g).1 (run_schedule step sch ts g).2.
Proof.
  revert ts g. induction sch as [|[i now] sch IH]; intros ts g Hi; simpl; [done|].
  destruct (ts !! i) as [t|] eqn:Ht; [|by apply IH].
  pose proof (step_inv ts g i t now Hi Ht) as Hs. destruct (step now t g) as [t' g']. by apply IH.
Qed.

Variable Q : T -> Prop.
Hypothesis step_establishes : forall ts g i t now, Inv ts g -> ts !! i = Some t -> Q (step now t g).1.

Definition round (sch : list (nat * Z)) (n : nat) : Prop := forall i, (i < n)%nat -> i ∈ sch.*1.

Definition is_round (n : nat) (sch : list (nat * Z)) : bool :=
  forallb (fun i => bool_decide (i ∈ sch.*1)) (seq 0 n).

Lemma is_round_spec n sch : is_round n sch = true -> round sch n.
Proof.
  unfold is_round. rewrite forallb_forall. intros Hr i Hi. specialize (Hr i). rewrite bool_decide_eq_true in Hr.
  apply Hr, in_seq. lia.
Qed.

Lemma turn_establishes sch ts g i t :
  Inv ts g -> ts !! i = Some t -> Q t \/ i ∈ sch.*1 ->
  exists t', (run_schedule step sch ts g).1 !! i = Some t' /\ Q t'.
Proof.
  revert ts g t. induction sch as [|[j now] sch IH]; intros ts g t Hinv Ht Hq; simpl.
  { destruct Hq as [Hq|Hq]; [eauto|inversion Hq]. }
  destruct (ts !! j) as [u|] eqn:Hj.
  - pose proof (step_inv ts g j u now Hinv Hj) as Hs. pose proof (step_establishes ts g j u now Hinv Hj) as He.
    destruct (step now u g) as [u' g']. simpl in *. destruct (decide (i = j)) as [->|Hne].
    + eapply IH; [done|by apply list_lookup_insert_eq; eapply lookup_lt_Some|by left].
    + eapply IH; [done|by rewrite list_lookup_insert_ne|].
      destruct Hq as [|[->|]%elem_of_cons]; [by left|done|by right].
  - eapply IH; [done|done|]. destruct Hq as [|[->|]%elem_of_cons]; [by left|simpl in Ht; congruence|by right].
Qed.

Lemma length_run_schedule sch ts g : length (run_schedule step sch ts g).1 = length ts.
Proof.
  apply (run_length step (fun _ _ => False) ts g _ (run_schedule step sch ts g).2). apply run_schedule_run.
Qed.

Lemma round_establishes sch ts g :
  Inv ts g -> round sch (length ts) -> Forall Q (run_schedule step sch ts g).1.
Proof.
  intros Hinv Hr. apply Forall_lookup_2. intros i t Hi.
  assert (i < length ts)%nat as Hlt by (apply lookup_lt_Some in Hi; by rewrite length_run_schedule in Hi).
  destruct (lookup_lt_is_Some_2 ts i Hlt) as [t0 Ht0].
  destruct (turn_establishes sch ts g i t0 Hinv Ht0) as (t' & Ht' & Hq); [right; by apply Hr|]. congruence.
Qed.
End Rounds.

Lemma run_schedule_app {T G} (step : Z -> T -> G -> T * G) s1 s2 ts g :
  run_schedule step (s1 ++ s2) ts g =
  run_schedule step s2 (run_schedule step s1 ts g).1 (run_schedule step s1 ts g).2.
Proof.
  revert ts g. induction s1 as [|[i now] s1 IH]; intros ts g; simpl; [done|].
  destruct (ts !! i) as [t|]; [|done]. by destruct (step now t g).
Qed.

(** ** Progress

    A turn changes nothing or decreases a measure, and while the goal is not reached some task
    has a turn that decreases it; then as many rounds as the measure reach the goal. *)
Section Progress.
Context {T G : Type}.
Variable step : Z -> T -> G -> T * G.
Variable Inv : list T -> G -> Prop.
Hypothesis step_inv : forall ts g i t now,
  Inv ts g -> ts !! i = Some t -> Inv (<[i := (step now t g).1]> ts) (step now t g).2.
Variable goal : list T -> G -> Prop.
Variable mu : list T -> G -> nat.
Hypothesis step_measure : forall ts g i t now, Inv ts g -> ts !! i = Some t ->
  step now t g = (t, g) \/ (mu (<[i := (step now t g).1]> ts) (step now t g).2 < mu ts g)%nat.
Hypothesis some_turn : forall ts g, Inv ts g -> goal ts g \/
  exists i t, ts !! i = Some t /\ forall now, (mu (<[i := (step now t g).1]> ts) (step now t g).2 < mu ts g)%nat.
Hypothesis step_goal : forall ts g i t now,
  Inv ts g -> goal ts g -> ts !! i = Some t -> goal (<[i := (step now t g).1]> ts) (step now t g).2.

Lemma schedule_goal sch ts g :
  Inv ts g -> goal ts g -> goal (run_schedule step sch ts g).1 (run_schedule step sch ts g).2.
Proof.
  revert ts g. induction sch as [|[i now] sch IH]; intros ts g Hi Hg; simpl; [done|].
  destruct (ts !! i) as [t|] eqn:Ht; [|by apply IH].
  pose proof (step_inv ts g i t now Hi Ht). pose proof (step_goal ts g i t now Hi Hg Ht).
  destruct (step now t g) as [t' g']. by apply IH.
Qed.

Lemma schedule_measure sch ts g :
  Inv ts g -> (mu (run_schedule step sch ts g).1 (run_schedule step sch ts g).2 <= mu ts g)%nat.
Proof.
  revert ts g. induction sch as [|[i now] sch IH]; intros ts g Hi; simpl; [done|].
  destruct (ts !! i) as [t|] eqn:Ht; [|by apply IH].
  pose proof (step_inv ts g i t now Hi Ht) as Hinv. pose proof (step_measure ts g i t now Hi Ht) as Hm.
  destruct (step now t g) as [t' g']. specialize (IH _ _ Hinv). simpl in *.
  destruct Hm as [[= -> ->]|Hm]; [rewrite list_insert_id in IH |- * by done; done|lia].
Qed.

(** A schedule in which the turn of task [i], which decreases the measure, comes up. *)
Lemma turn_decreases sch ts g i t :
  Inv ts g -> ts !! i = Some t ->
  (forall now, (mu (<[i := (step now t g).1]> ts) (step now t g).2 < mu ts g)%nat) -> i ∈ sch.*1 ->
  (mu (run_schedule step sch ts g).1 (run_schedule step sch ts g).2 < mu ts g)%nat.
Proof.
  intros Hi Ht Hdec. induction sch as [|[j now] sch IH]; simpl; [by intros ?%elem_of_nil|]. intros Hin.
  destruct (decide (i = j)) as [<-|Hne].
  - rewrite Ht. specialize (Hdec now). pose proof (step_inv ts g i t now Hi Ht) as Hinv.
    destruct (step now t g) as [t' g']. simpl in *. pose proof (schedule_measure sch _ _ Hinv). lia.
  - apply elem_of_cons in Hin as [|Hin]; [done|].
    destruct (ts !! j) as [u|] eqn:Hj; [|by apply IH].
    pose proof (step_inv ts g j u now Hi Hj) as Hinv. pose proof (step_measure ts g j u now Hi Hj) as Hm.
    destruct (step now u g) as [u' g']. simpl in *.
    destruct Hm as [[= -> ->]|Hm]; [rewrite list_insert_id by done; by apply IH|].
    pose proof (schedule_measure sch _ _ Hinv). lia.
Qed.

Lemma rounds_reach_goal rounds ts g :
  Inv ts g -> Forall (fun sch => round sch (length ts)) rounds -> (mu ts g <= length rounds)%nat ->
  goal (run_schedule step (concat rounds) ts g).1 (run_schedule step (concat rounds) ts g).2.
Proof.
  revert ts g. induction rounds as [|sch rounds IH]; intros ts g Hi Hr Hm; simpl.
  - destruct (some_turn ts g Hi) as [Hg|(i & t & Ht & Hdec)]; [done|]. specialize (Hdec 0%Z). simpl in Hm. lia.
  - apply Forall_cons in Hr as [Hs Hr]. destruct (some_turn ts g Hi) as [Hg|(i & t & Ht & Hdec)]; [by apply (schedule_goal (sch ++ concat rounds))|].
    rewrite run_schedule_app. apply IH.
    + by apply schedule_inv.
    + rewrite length_run_schedule. done.
    + pose proof (turn_decreases sch ts g i t Hi Ht Hdec) as Hd. simpl in Hm.
      assert (i ∈ sch.*1) as Hin by (apply Hs; by eapply lookup_lt_Some). specialize (Hd Hin). lia.
Qed.
End Progress.

Lemma sum_list_with_insert {A} (f : A -> nat) l i x y :
  l !! i = Some x -> (sum_list_with f (<[i := y]> l) + f x = sum_list_with f l + f y)%nat.
Proof.
  revert i. induction l as [|z l IH]; intros [|i] Hi; simplify_eq/=; [lia|]. specialize (IH i Hi). lia.
Qed.

(** ** Results

    Waiting for tasks rethrows the first exception in scheduling order. *)
Section Results.
Context {T : Type}.
Variable result : T -> Res unit.

Definition first_failure (ts : list T) : Res unit :=
  foldr (fun t r => match result t with Throw e => Throw e | Ok _ => r end) (Ok tt) ts.

Lemma first_failure_cases ts :
  (exists t e, t ∈ ts /\ result t = Throw e /\ first_failure ts = Throw e) \/
  (first_failure ts = Ok tt /\ forall t, t ∈ ts -> result t = Ok tt).
Proof.
  induction ts as [|t ts IH]; [right; split; [done|]; intros t Ht; inversion Ht|]. simpl.
  destruct (result t) as [[]|e] eqn:Hr; [|left; exists t, e; split; [constructor|done]].
  destruct IH as [(u & e & Hu & He & ->)|[-> Hall]].
  - left. exists u, e. split; [by constructor|done].
  - right. split; [done|]. intros u [->|Hu]%elem_of_cons; auto.
Qed.
End Results.
