(* ===== verification/IoOperations.v ===== *)
(** * IoOperations

    The enumerations of [src/src/include/io_operations.hpp], their names
    ([src/src/io_operations.cpp]), and the calls a component makes on its profile
    collector, recorded in order. *)
From S2P Require Import Prelude.

Inductive CacheEntity := kMetadata | kData | kFileHandle | kGlob.
Inductive CacheAccess := kCacheHit | kCacheMiss | kCacheEntryInUse.
Inductive IoOperation :=
| kOpen | kRead | kWrite | kFileSync | kFileRemove | kGlobOp | kDiskCacheRead
| kFilePathCacheClear.

#[export] Instance CacheEntity_eq_dec : EqDecision CacheEntity.
Proof. solve_decision. Defined.
#[export] Instance CacheAccess_eq_dec : EqDecision CacheAccess.
Proof. solve_decision. Defined.
#[export] Instance IoOperation_eq_dec : EqDecision IoOperation.
Proof. solve_decision. Defined.

(** Enumerator values; [kUnknown] is the count. *)
Definition entity_index (e : CacheEntity) : nat :=
  match e with kMetadata => 0 | kData => 1 | kFileHandle => 2 | kGlob => 3 end.
Definition access_index (a : CacheAccess) : nat :=
  match a with kCacheHit => 0 | kCacheMiss => 1 | kCacheEntryInUse => 2 end.
Definition operation_index (o : IoOperation) : nat :=
  match o with
  | kOpen => 0 | kRead => 1 | kWrite => 2 | kFileSync => 3 | kFileRemove => 4
  | kGlobOp => 5 | kDiskCacheRead => 6 | kFilePathCacheClear => 7
  end.

Definition kCacheEntityCount : nat := 4.
Definition kCacheAccessCount : nat := 3.
Definition kIoOperationCount : nat := 8.

Definition CACHE_ENTITY_NAMES : list string :=
  ["metadata"; "data"; "file handle"; "glob"]%string.
Definition OPER_NAMES : list string :=
  ["open"; "read"; "write"; "file_sync"; "file_remove"; "glob"; "disk_cache_read";
   "file_path_cache_clear"]%string.

(** Calls on a [BaseProfileCollector]. *)
Inductive profile_event :=
| RecordOperation (op : IoOperation)
| RecordCacheAccess (entity : CacheEntity) (access : CacheAccess) (byte_count : Z)
| RecordActualCacheRead (cache_size actual_bytes : Z)
| RecordBytesWritten (bytes : Z).

#[export] Instance profile_event_eq_dec : EqDecision profile_event.
Proof. solve_decision. Defined.
