(* ===== verification/LruCache.v ===== *)
(** * LruCache

    The single-value LRU caches of [src/src/utils/include]: the record they all
    keep (an index from key to entry next to a [std::list] of keys, most recently
    used first), one Module per class with its operations, and their common
    specification, a list of (key, value, timestamp) without repeated keys. *)
From S2P Require Import Prelude StdList OrdMap.

#[local] Open Scope Z_scope.

(** ** State *)
Record Entry (V : Type) := MkLruEntry {
  value : V;
  timestamp : Z;
  lru_iterator : iter
}.
Arguments MkLruEntry {_} _ _ _.
Arguments value {_} _.
Arguments timestamp {_} _.
Arguments lru_iterator {_} _.

Record lru (K V : Type) `{Countable K} := MkLru {
  max_entries : Z;
  timeout_millisec : Z;
  entry_map : gmap K (Entry V);
  lru_list : slist K
}.
Arguments MkLru {_ _ _ _} _ _ _ _.
Arguments max_entries {_ _ _ _} _.
Arguments timeout_millisec {_ _ _ _} _.
Arguments entry_map {_ _ _ _} _.
Arguments lru_list {_ _ _ _} _.

Section State.
Context {K V : Type} `{Countable K}.
Implicit Types (c : lru K V) (k key : K) (e : Entry V) (now : Z).

Definition new_lru (max timeout : Z) : lru K V := MkLru max timeout ∅ sl_empty.

Definition update c (m : gmap K (Entry V)) (l : slist K) : lru K V :=
  MkLru (max_entries c) (timeout_millisec c) m l.

(** [timeout_millisec > 0 && now - timestamp > timeout_millisec], the subtraction
    unsigned. *)
Definition expired now e c : bool :=
  (0 <? timeout_millisec c) && (timeout_millisec c <? (now -u timestamp e)).

(** [max_entries > 0 && lru_list.size () > max_entries]. *)
Definition over_capacity c : bool :=
  (0 <? max_entries c) && (max_entries c <? Z.of_nat (size (lru_list c))).
End State.

(** ** [SharedValueLruCache]

    Values are shared pointers to objects; [None] is the null pointer. *)
Module SharedValueLruCache.
Section Ops.
Context {K V : Type} `{Countable K} `{KeyCompare K}.
Implicit Types (c : lru K V) (k key : K) (e : Entry V) (now : Z).

Definition DeleteImpl key e c : lru K V :=
  update c (delete key (entry_map c)) (erase (lru_iterator e) (lru_list c)).

Definition Put now key (v : V) c : lru K V :=
  let c1 := match entry_map c !! key with
            | Some existing =>
                update c (delete key (entry_map c)) (erase (lru_iterator existing) (lru_list c))
            | None => c
            end in
  let new_entry := MkLruEntry v (u64 now) (next_iter (lru_list c1)) in
  let c2 := update c1 (<[key := new_entry]> (entry_map c1)) (emplace_front key (lru_list c1)) in
  if over_capacity c2 then
    match back (lru_list c2) with
    | Some stale_key => update c2 (delete stale_key (entry_map c2)) (pop_back (lru_list c2))
    | None => c2 (* not empty: [key] was just inserted *)
    end
  else c2.

Definition Delete key c : bool * lru K V :=
  match entry_map c !! key with
  | None => (false, c)
  | Some e => (true, DeleteImpl key e c)
  end.

Definition Get now key c : option V * lru K V :=
  match entry_map c !! key with
  | None => (None, c)
  | Some e =>
      if expired now e c then (None, DeleteImpl key e c)
      else (Some (value e), update c (entry_map c) (splice_front (lru_iterator e) (lru_list c)))
  end.

Definition Clear c : lru K V := update c ∅ (sl_clear (lru_list c)).

Definition delete_keys (keys : list K) c : lru K V :=
  foldl (fun c key => (Delete key c).2) c keys.

(** [Clear (start_key, key_filter)]. *)
Definition ClearFrom (start_key : K) (key_filter : K -> bool) c : lru K V :=
  delete_keys (take_while key_filter (keys_from start_key (entry_map c))) c.

Definition Keys c : list K := sorted_keys (entry_map c).

(** [Take]: iteration [i] reads [clock i]. *)
Fixpoint take_loop (fuel : nat) (clock : nat -> Z) (i : nat) (result : list (K * V)) c :
    list (K * V) * lru K V :=
  match fuel with
  | O => (result, c)
  | S fuel =>
      match begin_key (entry_map c) with
      | None => (result, c)
      | Some key =>
          match entry_map c !! key with
          | None => (result, c)
          | Some e =>
              if expired (clock i) e c then
                take_loop fuel clock (S i) result (DeleteImpl key e c)
              else
                let lst := erase (lru_iterator e) (lru_list c) in
                take_loop fuel clock (S i) (result ++ [(key, value e)])
                  (update c (delete key (entry_map c)) lst)
          end
      end
  end.

Definition Take (clock : nat -> Z) c : Res (list (K * V)) * lru K V :=
  let '(result, c') := take_loop (base.size (entry_map c)) clock 0 [] c in
  (_ ← always_assert (bool_decide (entry_map c' = ∅));
   _ ← always_assert (Nat.eqb (size (lru_list c')) 0);
   Ok result, c').

Definition MaxEntries c : Z := max_entries c.
End Ops.
End SharedValueLruCache.

(** ** [CopiableValueLruCache]

    The same cache over an [unordered_map]: only [Clear (key_filter)] differs, it
    walks the LRU list. *)
Module CopiableValueLruCache.
Section Ops.
Context {K V : Type} `{Countable K}.
Implicit Types (c : lru K V) (k key : K) (e : Entry V) (now : Z).

Definition DeleteImpl key e c : lru K V :=
  update c (delete key (entry_map c)) (erase (lru_iterator e) (lru_list c)).

Definition Put now key (v : V) c : lru K V :=
  let c1 := match entry_map c !! key with
            | Some existing =>
                update c (delete key (entry_map c)) (erase (lru_iterator existing) (lru_list c))
            | None => c
            end in
  let new_entry := MkLruEntry v (u64 now) (next_iter (lru_list c1)) in
  let c2 := update c1 (<[key := new_entry]> (entry_map c1)) (emplace_front key (lru_list c1)) in
  if over_capacity c2 then
    match back (lru_list c2) with
    | Some stale_key => update c2 (delete stale_key (entry_map c2)) (pop_back (lru_list c2))
    | None => c2 (* not empty: [key] was just inserted *)
    end
  else c2.

Definition Delete key c : bool * lru K V :=
  match entry_map c !! key with
  | None => (false, c)
  | Some e => (true, DeleteImpl key e c)
  end.

Definition Get now key c : option V * lru K V :=
  match entry_map c !! key with
  | None => (None, c)
  | Some e =>
      if expired now e c then (None, DeleteImpl key e c)
      else (Some (value e), update c (entry_map c) (splice_front (lru_iterator e) (lru_list c)))
  end.

Definition Clear c : lru K V := update c ∅ (sl_clear (lru_list c)).

(** [Clear (key_filter)]. *)
Definition ClearFilter (key_filter : K -> bool) c : lru K V :=
  foldl (fun c key => (Delete key c).2) c
        (filter (fun key => key_filter key) (values (lru_list c))).

Definition MaxEntries c : Z := max_entries c.
Definition Keys c : list K := fst <$> map_to_list (entry_map c).
End Ops.
End CopiableValueLruCache.

(** ** [ExclusiveLruCache]

    Values are owned: an operation that takes a value out of the cache returns it
    or destroys it. *)
Module ExclusiveLruCache.
Section Ops.
Context {K V : Type} `{Countable K}.
Implicit Types (c : lru K V) (k key : K) (e : Entry V) (now : Z).

Definition DeleteImpl key e c : V * lru K V :=
  (value e, update c (delete key (entry_map c)) (erase (lru_iterator e) (lru_list c))).

Definition Put now key (v : V) c : Res (option V) * lru K V :=
  let c1 := match entry_map c !! key with
            | Some existing =>
                update c (delete key (entry_map c)) (erase (lru_iterator existing) (lru_list c))
            | None => c
            end in
  let new_entry := MkLruEntry v (u64 now) (next_iter (lru_list c1)) in
  let c2 := update c1 (<[key := new_entry]> (entry_map c1)) (emplace_front key (lru_list c1)) in
  if over_capacity c2 then
    match back (lru_list c2) ≫= fun stale_key => (stale_key,.) <$> entry_map c2 !! stale_key with
    | Some (stale_key, e) =>
        (Ok (Some (value e)),
         update c2 (delete stale_key (entry_map c2)) (pop_back (lru_list c2)))
    | None => (Throw AssertionFailure, c2)
    end
  else (Ok None, c2).

Definition Delete key c : bool * lru K V :=
  match entry_map c !! key with
  | None => (false, c)
  | Some e => (true, (DeleteImpl key e c).2)
  end.

Definition GetAndPop now key c : option V * lru K V :=
  match entry_map c !! key with
  | None => (None, c)
  | Some e =>
      if expired now e c then (None, (DeleteImpl key e c).2)
      else let '(v, c') := DeleteImpl key e c in (Some v, c')
  end.

Definition Clear c : lru K V := update c ∅ (sl_clear (lru_list c)).

(** [Clear (key_filter)]. *)
Definition ClearFilter (key_filter : K -> bool) c : lru K V :=
  foldl (fun c key => (Delete key c).2) c
        (filter (fun key => key_filter key) (values (lru_list c))).

Definition ClearAndGetValues c : list V * lru K V :=
  (value ∘ snd <$> map_to_list (entry_map c), update c ∅ (sl_clear (lru_list c))).

Definition MaxEntries c : Z := max_entries c.
End Ops.
End ExclusiveLruCache.
