(* ===== verification/LruSpec.v ===== *)
(** * LruSpec

    The abstract LRU cache, an association list without repeated keys, most
    recently used first, and the proofs that the operations of [LruCache] implement
    it on the index and the linked list they keep. *)
From S2P Require Import Prelude StdList OrdMap LruCache.

#[local] Open Scope Z_scope.

(** ** Specification *)
Section Spec.
Context {K V : Type} `{EqDecision K}.
Implicit Types (l : list (K * (V * Z))) (k : K).

Definition spec_remove k l := filter (fun p => p.1 <> k) l.
Definition spec_find k l : option (V * Z) := snd <$> List.find (fun p => bool_decide (p.1 = k)) l.

Definition spec_put (max now : Z) k (v : V) l :=
  let l' := (k, (v, now)) :: spec_remove k l in
  if (0 <? max) && (max <? Z.of_nat (length l')) then removelast l' else l'.

Definition spec_expired (timeout now ts : Z) : bool :=
  (0 <? timeout) && (timeout <? now -u ts).

Definition spec_get (timeout now : Z) k l : option V * list (K * (V * Z)) :=
  match spec_find k l with
  | None => (None, l)
  | Some (v, ts) =>
      if spec_expired timeout now ts then (None, spec_remove k l)
      else (Some v, (k, (v, ts)) :: spec_remove k l)
  end.

Definition spec_delete k l : bool * list (K * (V * Z)) :=
  (bool_decide (is_Some (spec_find k l)), spec_remove k l).

Definition spec_pop (timeout now : Z) k l : option V * list (K * (V * Z)) :=
  match spec_find k l with
  | None => (None, l)
  | Some (v, ts) =>
      (if spec_expired timeout now ts then None else Some v, spec_remove k l)
  end.

(** What [spec_put] drops at the end of the list. *)
Definition spec_evicted (max : Z) k l : option V :=
  if (0 <? max) && (max <? Z.of_nat (Datatypes.S (length (spec_remove k l)))) then
    match last (spec_remove k l) with Some p => Some p.2.1 | None => None end
  else None.

Definition spec_clear (p : K -> bool) l := filter (fun x => negb (p x.1)) l.

Lemma spec_remove_cons k p l :
  spec_remove k (p :: l) = if decide (p.1 = k) then spec_remove k l else p :: spec_remove k l.
Proof. unfold spec_remove. rewrite filter_cons. repeat case_decide; tauto. Qed.

Lemma spec_remove_not_in k l : k ∉ l.*1 -> spec_remove k l = l.
Proof.
  induction l as [|p l IH]; [done|]. rewrite fmap_cons, not_elem_of_cons. intros [Hp Hl].
  rewrite spec_remove_cons, decide_False by congruence. f_equal. auto.
Qed.

Lemma keys_spec_remove k l : (spec_remove k l).*1 = without k l.*1.
Proof.
  induction l as [|p l IH]; [done|]. rewrite spec_remove_cons, fmap_cons, without_cons.
  case_decide; [done|]. rewrite fmap_cons. by f_equal.
Qed.

Lemma spec_find_None k l : spec_find k l = None <-> k ∉ l.*1.
Proof.
  unfold spec_find. induction l as [|p l IH]; simpl; [split; [intros _ H; inversion H|done]|].
  rewrite not_elem_of_cons. case_bool_decide; simpl; [split; [done|intros []; congruence]|].
  rewrite IH. split; [intros; split; [congruence|done]|tauto].
Qed.

Lemma spec_find_Some k l v : NoDup l.*1 -> spec_find k l = Some v <-> (k, v) ∈ l.
Proof.
  unfold spec_find. induction l as [|[k' v'] l IH]; simpl; intros Hnd.
  { split; [done|]. intros H. inversion H. }
  apply NoDup_cons in Hnd as [Hk Hnd]. rewrite elem_of_cons. case_bool_decide as Hd; simpl in *.
  - subst. split; [intros [= ->]; by left|]. intros [[= ->]|Hin]; [done|].
    exfalso. apply Hk. apply list_elem_of_fmap. by exists (k, v).
  - rewrite IH by done. split; [by right|]. intros [[= -> ->]|]; done.
Qed.

Lemma elem_of_spec_remove k l p : p ∈ spec_remove k l <-> p.1 <> k /\ p ∈ l.
Proof. unfold spec_remove. by rewrite list_elem_of_filter. Qed.

Lemma length_spec_remove k l : (length (spec_remove k l) <= length l)%nat.
Proof. apply length_filter. Qed.
End Spec.

(** ** Refinement *)
Section Refine.
Context {K V : Type} `{Countable K}.
Implicit Types (c : lru K V) (k key : K) (e : Entry V) (now : Z) (m : gmap K (Entry V)).

Definition index m : K -> option iter := fun k => lru_iterator <$> m !! k.

Definition lru_wf c : Prop :=
  linked (index (entry_map c)) (lru_list c) /\
  (0 < max_entries c -> Z.of_nat (size (lru_list c)) <= max_entries c).

Definition view_keys m (ks : list K) : list (K * (V * Z)) :=
  omap (fun k => (fun e => (k, (value e, timestamp e))) <$> m !! k) ks.

(** The abstract state. *)
Definition view c : list (K * (V * Z)) := view_keys (entry_map c) (values (lru_list c)).

Lemma view_keys_without m k ks : view_keys m (without k ks) = spec_remove k (view_keys m ks).
Proof.
  unfold view_keys. induction ks as [|k' ks IH]; [done|]. rewrite without_cons. simpl.
  destruct (m !! k') as [e|] eqn:Hm; simpl; case_decide; simpl.
  - rewrite spec_remove_cons, decide_True by done. apply IH.
  - rewrite Hm. simpl. rewrite spec_remove_cons, decide_False by done. by f_equal.
  - apply IH.
  - rewrite Hm. apply IH.
Qed.

Lemma view_keys_ext m m' ks :
  (forall k, k ∈ ks -> m !! k = m' !! k) -> view_keys m ks = view_keys m' ks.
Proof.
  unfold view_keys. induction ks as [|k ks IH]; intros He; [done|]. simpl.
  rewrite He by constructor. destruct (m' !! k); simpl; [f_equal|]; apply IH; intros; apply He; by constructor.
Qed.

Lemma view_keys_delete m k ks :
  view_keys (delete k m) (without k ks) = spec_remove k (view_keys m ks).
Proof.
  rewrite <-view_keys_without. apply view_keys_ext. intros k' [Hn _]%elem_of_without.
  by rewrite lookup_delete_ne.
Qed.

Lemma index_delete m k k' : index (delete k m) k' = if decide (k' = k) then None else index m k'.
Proof.
  unfold index. case_decide as Hd; [by rewrite Hd, lookup_delete_eq|by rewrite lookup_delete_ne].
Qed.

Lemma index_insert m k e k' :
  index (<[k:=e]> m) k' = if decide (k' = k) then Some (lru_iterator e) else index m k'.
Proof.
  unfold index. case_decide as Hd; [by rewrite Hd, lookup_insert_eq|by rewrite lookup_insert_ne].
Qed.

Lemma keys_view c : lru_wf c -> (view c).*1 = values (lru_list c).
Proof.
  intros [Hl _]. unfold view.
  assert (forall k, k ∈ values (lru_list c) -> is_Some (entry_map c !! k)) as Hin.
  { intros k Hk. apply (linked_values _ _ _ Hl) in Hk as [i Hi]. unfold index in Hi.
    destruct (entry_map c !! k); [eauto|done]. }
  induction (values (lru_list c)) as [|k ks IH]; [done|]. simpl.
  destruct (Hin k) as [e He]; [constructor|]. rewrite He. simpl. f_equal.
  apply IH. intros. apply Hin. by constructor.
Qed.

Lemma NoDup_view c : lru_wf c -> NoDup (view c).*1.
Proof. intros Hw. rewrite keys_view by done. apply Hw. Qed.

Lemma length_view c : lru_wf c -> length (view c) = size (lru_list c).
Proof. intros Hw. by rewrite <-(length_fmap fst), keys_view, length_values. Qed.

Lemma view_lookup c k :
  lru_wf c -> spec_find k (view c) = (fun e => (value e, timestamp e)) <$> entry_map c !! k.
Proof.
  intros Hw. destruct (entry_map c !! k) as [e|] eqn:He; simpl.
  - apply spec_find_Some; [by apply NoDup_view|]. unfold view, view_keys.
    apply list_elem_of_omap. exists k. rewrite He. split; [|done].
    apply (linked_values _ _ _ (proj1 Hw)). unfold index. rewrite He. eauto.
  - apply spec_find_None. rewrite keys_view by done. rewrite (linked_values _ _ _ (proj1 Hw)).
    unfold index. rewrite He. intros [? ?]. done.
Qed.

Lemma lookup_is_Some_values c k : lru_wf c -> is_Some (entry_map c !! k) <-> k ∈ values (lru_list c).
Proof.
  intros [Hl _]. rewrite (linked_values _ _ _ Hl). unfold index. by rewrite fmap_is_Some.
Qed.

(** *** The building blocks *)
Definition remove_entry key e c : lru K V :=
  update c (delete key (entry_map c)) (erase (lru_iterator e) (lru_list c)).

Lemma remove_entry_ok key e c :
  lru_wf c -> entry_map c !! key = Some e ->
  lru_wf (remove_entry key e c) /\ view (remove_entry key e c) = spec_remove key (view c) /\
  size (lru_list c) = Datatypes.S (size (lru_list (remove_entry key e c))).
Proof.
  intros [Hl Hs] He. assert (index (entry_map c) key = Some (lru_iterator e)) as Hi
    by (unfold index; by rewrite He).
  pose proof (values_erase _ _ _ _ Hl Hi) as Hv.
  assert (size (lru_list c) = Datatypes.S (size (lru_list (remove_entry key e c)))) as Hsz.
  { rewrite <-!length_values. simpl. rewrite Hv. apply length_without; [apply Hl|].
    apply (linked_values _ _ _ Hl). eauto. }
  split; [split|split]; [|intros Hm; specialize (Hs Hm); simpl in *; lia| |done].
  - simpl. eapply linked_erase; [done..| |].
    + by rewrite index_delete, decide_True.
    + intros k' Hk'. by rewrite index_delete, decide_False.
  - unfold view. simpl. rewrite Hv. apply view_keys_delete.
Qed.

Definition remove_key key c : lru K V :=
  match entry_map c !! key with Some e => remove_entry key e c | None => c end.

Lemma remove_key_ok key c :
  lru_wf c -> lru_wf (remove_key key c) /\ view (remove_key key c) = spec_remove key (view c) /\
  entry_map (remove_key key c) !! key = None /\
  max_entries (remove_key key c) = max_entries c /\
  timeout_millisec (remove_key key c) = timeout_millisec c /\
  (size (lru_list (remove_key key c)) <= size (lru_list c))%nat.
Proof.
  intros Hw. unfold remove_key. destruct (entry_map c !! key) as [e|] eqn:He.
  - destruct (remove_entry_ok _ _ _ Hw He) as (H1 & H2 & H3). repeat (split; [done|]).
    split; [by apply lookup_delete_eq|]. repeat (split; [done|]). lia.
  - split; [done|]. split.
    + rewrite spec_remove_not_in; [done|]. apply spec_find_None. by rewrite view_lookup, He.
    + done.
Qed.

Lemma touch_ok key e c :
  lru_wf c -> entry_map c !! key = Some e ->
  let c' := update c (entry_map c) (splice_front (lru_iterator e) (lru_list c)) in
  lru_wf c' /\ view c' = (key, (value e, timestamp e)) :: spec_remove key (view c).
Proof.
  intros [Hl Hs] He c'. assert (index (entry_map c) key = Some (lru_iterator e)) as Hi
    by (unfold index; by rewrite He).
  pose proof (values_splice_front _ _ _ _ Hl Hi) as Hv.
  split; [split|]; [by apply linked_splice_front| |].
  - intros Hm. specialize (Hs Hm). rewrite <-length_values in *. simpl. rewrite Hv. simpl.
    rewrite <-length_without; [done|apply Hl|]. apply (linked_values _ _ _ Hl). eauto.
  - unfold view. simpl. rewrite Hv. simpl. rewrite He. simpl. f_equal. apply view_keys_without.
Qed.

(** [emplace_front] of a new key, before the capacity check. *)
Definition insert_fresh now key (v : V) c : lru K V :=
  update c (<[key := MkLruEntry v (u64 now) (next_iter (lru_list c))]> (entry_map c))
         (emplace_front key (lru_list c)).

Lemma insert_fresh_ok now key v c :
  lru_wf c -> entry_map c !! key = None ->
  let c' := insert_fresh now key v c in
  linked (index (entry_map c')) (lru_list c') /\
  view c' = (key, (v, u64 now)) :: view c /\
  size (lru_list c') = Datatypes.S (size (lru_list c)).
Proof.
  intros [Hl Hs] He c'. assert (index (entry_map c) key = None) as Hi
    by (unfold index; by rewrite He).
  split; [|split; [|done]].
  - simpl. eapply linked_emplace_front; [done..| |].
    + by rewrite index_insert, decide_True.
    + intros k' Hk'. by rewrite index_insert, decide_False.
  - unfold view. simpl. rewrite lookup_insert_eq. simpl. f_equal. apply view_keys_ext.
    intros k Hk. rewrite lookup_insert_ne; [done|]. intros ->.
    by apply (linked_None _ _ _ Hl) in Hi.
Qed.

(** Dropping the last key. *)
Lemma drop_last_ok c stale :
  linked (index (entry_map c)) (lru_list c) ->
  Z.of_nat (size (lru_list c)) <= max_entries c + 1 -> 0 < max_entries c ->
  back (lru_list c) = Some stale ->
  let c' := update c (delete stale (entry_map c)) (pop_back (lru_list c)) in
  lru_wf c' /\ view c' = removelast (view c) /\
  exists e, entry_map c !! stale = Some e /\ last (view c) = Some (stale, (value e, timestamp e)).
Proof.
  intros Hl Hs Hm Hb c'. destruct (pop_back_linked _ _ _ Hl Hb) as (i & Hi & Hp).
  unfold index in Hi. destruct (entry_map c !! stale) as [e|] eqn:He; [|done]. injection Hi as Hi.
  assert (linked (index (entry_map c')) (lru_list c')) as Hl'.
  { simpl. rewrite Hp. eapply linked_erase; [done|unfold index; rewrite He; simpl; by rewrite Hi| |].
    - by rewrite index_delete, decide_True.
    - intros k' Hk'. by rewrite index_delete, decide_False. }
  apply back_Some in Hb as [vs Hvs].
  assert (stale ∉ vs) as Hni.
  { destruct Hl as (_ & Hnd & _). rewrite Hvs in Hnd. apply NoDup_app in Hnd as (_ & Hd & _).
    intros Hin. apply (Hd _ Hin). by constructor. }
  assert (view c = view_keys (entry_map c) vs ++ [(stale, (value e, timestamp e))]) as Hv.
  { unfold view, view_keys. rewrite Hvs, omap_app. simpl. by rewrite He. }
  assert (values (lru_list c') = vs) as Hv'.
  { simpl. rewrite values_pop_back, Hvs. apply removelast_last. }
  split; [split; [done|]|split].
  - intros _. change (max_entries c') with (max_entries c).
    rewrite <-length_values, Hv'. rewrite <-length_values, Hvs, length_app in Hs.
    simpl in *. lia.
  - rewrite Hv, removelast_last. unfold view. rewrite Hv'. apply view_keys_ext.
    intros k Hk. simpl. rewrite lookup_delete_ne; [done|]. by intros ->.
  - exists e. split; [done|]. by rewrite Hv, last_snoc.
Qed.

Lemma clear_ok c : lru_wf (update c ∅ (sl_clear (lru_list c))) /\
                   view (update c ∅ (sl_clear (lru_list c))) = [].
Proof.
  split; [|done]. split; [|unfold StdList.size; simpl; lia]. eapply linked_ext; [|apply linked_clear].
  intros k. unfold index. simpl. by rewrite lookup_empty.
Qed.

Lemma new_lru_ok max timeout : lru_wf (new_lru max timeout : lru K V) /\ view (new_lru max timeout : lru K V) = [].
Proof.
  split; [|done]. split; [|unfold StdList.size; simpl; lia]. eapply linked_ext; [|apply linked_empty].
  intros k. unfold index. simpl. by rewrite lookup_empty.
Qed.

Lemma back_is_Some (l : slist K) : (0 < size l)%nat -> is_Some (back l).
Proof.
  unfold size, back. destruct (nodes l) as [|n ns]; simpl; [lia|]. intros _.
  rewrite fmap_is_Some. destruct (last (n :: ns)) eqn:Hl; [eauto|].
  by apply last_None in Hl.
Qed.
End Refine.
