(* ===== verification/LruProofs.v ===== *)
(** * LruProofs

    Every operation of the single-value LRU caches refines its operation on the
    association list of [LruSpec], keeps the index linked to the list and the size
    within the capacity. *)
From S2P Require Import Prelude StdList OrdMap LruCache LruSpec.

#[local] Open Scope Z_scope.

(** ** The code common to the classes *)
Section Common.
Context {K V : Type} `{Countable K}.
Implicit Types (c : lru K V) (k key : K) (e : Entry V) (now : Z).

Lemma update_id c : update c (entry_map c) (lru_list c) = c.
Proof. by destruct c. Qed.

Definition inserted now key (v : V) c : lru K V := insert_fresh now key v (remove_key key c).

Lemma inserted_ok now key v c :
  lru_wf c ->
  let c2 := inserted now key v c in
  linked (index (entry_map c2)) (lru_list c2) /\
  view c2 = (key, (v, u64 now)) :: spec_remove key (view c) /\
  length (view c2) = size (lru_list c2) /\
  max_entries c2 = max_entries c /\ timeout_millisec c2 = timeout_millisec c /\
  is_Some (back (lru_list c2)) /\
  (0 < max_entries c -> Z.of_nat (size (lru_list c2)) <= max_entries c + 1).
Proof.
  intros Hw c2. destruct (remove_key_ok key c Hw) as (Hw1 & Hv1 & Hn & Hm & Ht & Hs).
  destruct (insert_fresh_ok now key v _ Hw1 Hn) as (Hl & Hv & Hsz). subst c2. unfold inserted.
  split; [done|]. split; [by rewrite Hv, Hv1|]. split; [by rewrite Hv, Hsz, <-length_view|].
  split; [done|]. split; [done|]. split; [apply back_is_Some; lia|].
  intros Hpos. rewrite Hsz. destruct Hw as [_ Hw]. specialize (Hw Hpos). lia.
Qed.

(** The capacity check after the insertion. *)
Lemma put_ok now key v c :
  lru_wf c ->
  let c2 := inserted now key v c in
  let c' := if over_capacity c2 then
              match back (lru_list c2) with
              | Some stale => update c2 (delete stale (entry_map c2)) (pop_back (lru_list c2))
              | None => c2
              end
            else c2 in
  lru_wf c' /\ view c' = spec_put (max_entries c) (u64 now) key v (view c) /\
  max_entries c' = max_entries c /\ timeout_millisec c' = timeout_millisec c.
Proof.
  intros Hw c2. destruct (inserted_ok now key v c Hw) as (Hl & Hv & Hlen & Hm & Ht & [stale Hb] & Hs).
  fold c2 in Hl, Hv, Hlen, Hm, Ht, Hb, Hs. unfold spec_put, over_capacity. rewrite <-Hv, Hlen, Hm, Hb.
  destruct ((0 <? max_entries c) && (max_entries c <? Z.of_nat (size (lru_list c2)))) eqn:Hover.
  - apply andb_true_iff in Hover as [Hpos%Z.ltb_lt _].
    destruct (drop_last_ok c2 stale Hl) as (H1 & H2 & _); [rewrite Hm; auto..|done|done].
  - split; [split; [done|]|done]. rewrite Hm. intros Hpos. apply andb_false_iff in Hover as [Hf|Hf].
    + apply Z.ltb_ge in Hf. lia.
    + by apply Z.ltb_ge in Hf.
Qed.

Lemma delete_keys_ok (del : K -> lru K V -> bool * lru K V) (keys : list K) c :
  (forall k c, (del k c).2 = remove_key k c) -> lru_wf c ->
  let c' := foldl (fun c k => (del k c).2) c keys in
  lru_wf c' /\ view c' = filter (fun p => p.1 ∉ keys) (view c) /\
  max_entries c' = max_entries c /\ timeout_millisec c' = timeout_millisec c.
Proof.
  intros Hd. revert c. induction keys as [|k keys IH]; intros c Hw; simpl.
  - split; [done|]. split; [|done]. rewrite filter_all; [done|].
    apply Forall_forall. intros ? _ Hin. inversion Hin.
  - rewrite Hd. destruct (remove_key_ok k c Hw) as (Hw1 & Hv1 & _ & Hm & Ht & _).
    destruct (IH _ Hw1) as (Hw2 & Hv2 & Hm2 & Ht2).
    split; [done|]. split; [|split; congruence]. rewrite Hv2, Hv1. unfold spec_remove.
    rewrite list_filter_filter. apply list_filter_iff. intros p. rewrite not_elem_of_cons. tauto.
Qed.

Lemma elem_of_view c k v ts :
  lru_wf c -> (k, (v, ts)) ∈ view c <-> exists e, entry_map c !! k = Some e /\ value e = v /\ timestamp e = ts.
Proof.
  intros Hw. rewrite <-spec_find_Some by (by apply NoDup_view). rewrite view_lookup by done.
  destruct (entry_map c !! k) as [e|]; simpl; split.
  - intros [= <- <-]. eauto.
  - intros (e' & [= <-] & <- & <-). done.
  - done.
  - by intros (? & ? & _).
Qed.

Lemma clear_filter_view (p : K -> bool) c (keys : list K) :
  (forall k, k ∈ keys <-> is_Some (entry_map c !! k) /\ p k = true) -> lru_wf c ->
  filter (fun x => x.1 ∉ keys) (view c) = spec_clear p (view c).
Proof.
  intros Hk Hw. unfold spec_clear.
  assert (forall x, x ∈ view c -> x.1 ∉ keys <-> negb (p x.1)) as Hx.
  { intros [k [v ts]] Hin. apply (elem_of_view _ _ _ _ Hw) in Hin as (e & He & _).
    rewrite Is_true_true, negb_true_iff. simpl. rewrite Hk, He. destruct (p k); split; intros Hs; try done.
    - exfalso. apply Hs. eauto.
    - by intros []. }
  induction (view c) as [|x l IH]; [done|]. rewrite !filter_cons.
  rewrite IH by (intros; apply Hx; by constructor).
  specialize (Hx x ltac:(by constructor)).
  destruct (decide (x.1 ∉ keys)), (decide (negb (p x.1))); tauto.
Qed.
End Common.

(** ** [SharedValueLruCache] *)
Module Shared.
Import SharedValueLruCache.
Section Proofs.
Context {K V : Type} `{Countable K} `{KeyCompare K}.
Implicit Types (c : lru K V) (k key : K) (e : Entry V) (now : Z).

Lemma Put_inserted now key v c :
  Put now key v c =
  let c2 := inserted now key v c in
  if over_capacity c2 then
    match back (lru_list c2) with
    | Some stale => update c2 (delete stale (entry_map c2)) (pop_back (lru_list c2))
    | None => c2
    end
  else c2.
Proof. unfold Put, inserted, remove_key. by destruct (entry_map c !! key). Qed.

Lemma Put_refines now key v c :
  lru_wf c ->
  lru_wf (Put now key v c) /\
  view (Put now key v c) = spec_put (max_entries c) (u64 now) key v (view c) /\
  max_entries (Put now key v c) = max_entries c /\
  timeout_millisec (Put now key v c) = timeout_millisec c.
Proof. intros Hw. rewrite Put_inserted. by apply put_ok. Qed.

Lemma Delete_remove key c : (Delete key c).2 = remove_key key c.
Proof. unfold Delete, remove_key. by destruct (entry_map c !! key). Qed.

Lemma Delete_refines key c :
  lru_wf c ->
  lru_wf (Delete key c).2 /\ (Delete key c).1 = (spec_delete key (view c)).1 /\
  view (Delete key c).2 = (spec_delete key (view c)).2.
Proof.
  intros Hw. rewrite Delete_remove. destruct (remove_key_ok key c Hw) as (H1 & H2 & _).
  split; [done|]. split; [|done]. unfold Delete, spec_delete. simpl.
  rewrite view_lookup by done. by destruct (entry_map c !! key).
Qed.

Lemma Get_refines now key c :
  lru_wf c ->
  lru_wf (Get now key c).2 /\
  (Get now key c).1 = (spec_get (timeout_millisec c) now key (view c)).1 /\
  view (Get now key c).2 = (spec_get (timeout_millisec c) now key (view c)).2 /\
  max_entries (Get now key c).2 = max_entries c /\
  timeout_millisec (Get now key c).2 = timeout_millisec c.
Proof.
  intros Hw. unfold Get, spec_get. rewrite view_lookup by done.
  destruct (entry_map c !! key) as [e|] eqn:He; simpl; [|done].
  change (spec_expired _ _ _) with (expired now e c). destruct (expired now e c); simpl.
  - destruct (remove_entry_ok _ _ _ Hw He) as (H1 & H2 & _). done.
  - destruct (touch_ok _ _ _ Hw He) as [H1 H2]. done.
Qed.

Lemma ClearFrom_refines start p c :
  lru_wf c ->
  (forall a, is_Some (entry_map c !! a) -> p a = true -> less a start = false) ->
  (forall a b, is_Some (entry_map c !! a) -> is_Some (entry_map c !! b) ->
     less a start = false -> not_less a b -> p b = true -> p a = true) ->
  lru_wf (ClearFrom start p c) /\ view (ClearFrom start p c) = spec_clear p (view c).
Proof.
  intros Hw Hs Hb.
  destruct (delete_keys_ok Delete (take_while p (keys_from start (entry_map c))) c Delete_remove Hw)
    as (H1 & H2 & _).
  split; [done|]. unfold ClearFrom, delete_keys. rewrite H2. apply clear_filter_view; [|done].
  intros k. by apply elem_of_walk.
Qed.

Lemma elem_of_Keys c k : lru_wf c -> k ∈ Keys c <-> k ∈ (view c).*1.
Proof.
  intros Hw. unfold Keys. rewrite elem_of_sorted_keys, keys_view by done.
  by apply lookup_is_Some_values.
Qed.

(** What [Take] keeps is a sublist of the entries, without repetition. *)
Lemma take_loop_ok fuel clock i result c :
  lru_wf c -> (base.size (entry_map c) <= fuel)%nat ->
  exists taken c', take_loop fuel clock i result c = (result ++ taken, c') /\
    lru_wf c' /\ entry_map c' = ∅ /\ max_entries c' = max_entries c /\
    timeout_millisec c' = timeout_millisec c /\
    NoDup taken.*1 /\
    (forall k v, (k, v) ∈ taken -> exists e j, entry_map c !! k = Some e /\ value e = v /\
       (i <= j)%nat /\ expired (clock j) e c = false) /\
    (forall k e, entry_map c !! k = Some e -> k ∉ taken.*1 ->
       exists j, (i <= j)%nat /\ expired (clock j) e c = true).
Proof.
  revert i result c. induction fuel as [|fuel IH]; intros i result c Hw Hf.
  { assert (entry_map c = ∅) as He by (apply map_size_empty_iff; lia).
    exists [], c. rewrite app_nil_r. do 5 (split; [done|]). split; [constructor|].
    split; [intros k v Hin; inversion Hin|]. intros k e. by rewrite He, lookup_empty. }
  simpl. destruct (begin_key (entry_map c)) as [key|] eqn:Hb.
  2:{ apply begin_key_None in Hb. exists [], c. rewrite app_nil_r. do 5 (split; [done|]).
    split; [constructor|]. split; [intros k v Hin; inversion Hin|]. intros k e. by rewrite Hb, lookup_empty. }
  destruct (begin_key_Some _ _ Hb) as [e He]. rewrite He.
  destruct (remove_entry_ok _ _ _ Hw He) as (Hw1 & _ & _).
  assert (base.size (entry_map (remove_entry key e c)) <= fuel)%nat as Hf1.
  { simpl. rewrite map_size_delete_Some by eauto. lia. }
  change (update c (delete key (entry_map c)) (erase (lru_iterator e) (lru_list c)))
    with (remove_entry key e c). unfold DeleteImpl. fold (remove_entry key e c).
  set (res1 := if expired (clock i) e c then result else result ++ [(key, value e)]).
  destruct (IH (S i) res1 (remove_entry key e c) Hw1 Hf1)
    as (taken & c' & Ht & Hwf & Hem & Hm & Htm & Hnd & Hin & Hexp).
  assert (forall k e', entry_map (remove_entry key e c) !! k = Some e' ->
            k <> key /\ entry_map c !! k = Some e') as Hlk.
  { simpl. intros k e' Hk. apply lookup_delete_Some in Hk as []. auto. }
  assert (forall k v, (k, v) ∈ taken -> exists e j, entry_map c !! k = Some e /\ value e = v /\
            (i <= j)%nat /\ expired (clock j) e c = false) as Hin'.
  { intros k v Hkv. destruct (Hin k v Hkv) as (e' & j & Hk & Hv & Hj & Hx).
    apply Hlk in Hk as []. exists e', j. do 2 (split; [done|]). split; [lia|done]. }
  assert (key ∉ taken.*1) as Hkt.
  { intros ([? v] & -> & Hkv)%list_elem_of_fmap. destruct (Hin _ _ Hkv) as (e' & ? & Hk & _).
    by apply Hlk in Hk as []. }
  subst res1. destruct (expired (clock i) e c) eqn:Hx; simpl in Ht.
  - rewrite Ht. exists taken, c'. do 6 (split; [done|]). split; [done|].
    intros k e' Hk Hn. destruct (decide (k = key)) as [->|Hne].
    + exists i. split; [lia|]. congruence.
    + destruct (Hexp k e') as (j & Hj & Hxj); [simpl; by rewrite lookup_delete_ne|done|].
      exists j. split; [lia|done].
  - rewrite Ht. exists ((key, value e) :: taken), c'. rewrite <-app_assoc.
    do 5 (split; [done|]). split; [by apply NoDup_cons|]. split.
    + intros k v [[= -> ->]|Hkv]%elem_of_cons; [|auto]. exists e, i. do 2 (split; [done|]).
      split; [lia|done].
    + intros k e' Hk Hn. apply not_elem_of_cons in Hn as [Hne Hn].
      destruct (Hexp k e') as (j & Hj & Hxj); [simpl; by rewrite lookup_delete_ne|done|].
      exists j. split; [lia|done].
Qed.

Lemma empty_map_list c : lru_wf c -> entry_map c = ∅ -> size (lru_list c) = 0%nat.
Proof.
  intros Hw He. rewrite <-length_view by done. unfold view.
  assert (values (lru_list c) = []) as ->; [|done].
  destruct (values (lru_list c)) as [|k ks] eqn:Hv; [done|].
  destruct (proj2 (lookup_is_Some_values c k Hw)) as [? Hk]; [rewrite Hv; constructor|].
  by rewrite He, lookup_empty in Hk.
Qed.

(** What [Take] gives: every entry in the order of the keys, entry [i] dropped when it has
    expired at [clock i]. *)
Fixpoint take_keys (clock : nat -> Z) (i : nat) (keys : list K) c : list (K * V) :=
  match keys with
  | [] => []
  | key :: keys =>
      match entry_map c !! key with
      | Some e => if expired (clock i) e c then take_keys clock (S i) keys c else (key, value e) :: take_keys clock (S i) keys c
      | None => take_keys clock (S i) keys c
      end
  end.

Lemma take_keys_remove clock i keys key e c :
  key ∉ keys -> take_keys clock i keys (remove_entry key e c) = take_keys clock i keys c.
Proof.
  revert i. induction keys as [|k keys IH]; intros i Hk; [done|]. apply not_elem_of_cons in Hk as [Hne Hk]. simpl.
  rewrite lookup_delete_ne by done. by rewrite (IH _ Hk).
Qed.

Lemma take_loop_exact fuel clock i result c :
  lru_wf c -> (base.size (entry_map c) <= fuel)%nat ->
  (take_loop fuel clock i result c).1 = result ++ take_keys clock i (sorted_keys (entry_map c)) c.
Proof.
  revert i result c. induction fuel as [|fuel IH]; intros i result c Hw Hf; simpl.
  { assert (entry_map c = ∅) as -> by (apply map_size_empty_iff; lia).
    unfold sorted_keys. rewrite map_to_list_empty. simpl. by rewrite app_nil_r. }
  destruct (begin_key (entry_map c)) as [key|] eqn:Hb.
  2:{ apply begin_key_None in Hb as ->. unfold sorted_keys. rewrite map_to_list_empty. simpl. by rewrite app_nil_r. }
  rewrite (begin_key_sorted _ _ Hb). destruct (begin_key_Some _ _ Hb) as [e He]. rewrite He. simpl. rewrite He.
  destruct (remove_entry_ok _ _ _ Hw He) as (Hw1 & _ & _).
  assert (base.size (entry_map (remove_entry key e c)) <= fuel)%nat as Hf1.
  { simpl. rewrite map_size_delete_Some by eauto. lia. }
  assert (key ∉ sorted_keys (delete key (entry_map c))) as Hni.
  { rewrite elem_of_sorted_keys, lookup_delete_eq. by intros []. }
  change (update c (delete key (entry_map c)) (erase (lru_iterator e) (lru_list c)))
    with (remove_entry key e c). unfold DeleteImpl. fold (remove_entry key e c).
  destruct (expired (clock i) e c); rewrite (IH _ _ _ Hw1 Hf1); cbn [entry_map remove_entry update];
    rewrite take_keys_remove by done; [done|by rewrite <-app_assoc].
Qed.

Lemma Take_exact clock c : lru_wf c ->
  exists c', Take clock c = (Ok (take_keys clock 0 (sorted_keys (entry_map c)) c), c') /\ lru_wf c' /\ view c' = [] /\
    max_entries c' = max_entries c /\ timeout_millisec c' = timeout_millisec c.
Proof.
  intros Hw. unfold Take. pose proof (take_loop_exact (base.size (entry_map c)) clock 0 [] c Hw) as Hx.
  destruct (take_loop_ok (base.size (entry_map c)) clock 0 [] c Hw) as
    (taken & c' & Ht & Hw' & He & Hm & Hto & _); [lia|]. rewrite Ht in *. simpl in Hx.
  exists c'. rewrite bool_decide_true by done. simpl. rewrite (empty_map_list c' Hw' He). simpl. rewrite Hx by lia.
  split; [done|]. split; [done|]. split; [|done]. apply nil_length_inv. by rewrite length_view, (empty_map_list c' Hw' He).
Qed.

Lemma Take_refines clock c :
  lru_wf c ->
  exists taken c', Take clock c = (Ok taken, c') /\ lru_wf c' /\ view c' = [] /\
    max_entries c' = max_entries c /\ timeout_millisec c' = timeout_millisec c /\
    NoDup taken.*1 /\
    (forall k v, (k, v) ∈ taken -> exists ts j, (k, (v, ts)) ∈ view c /\
       spec_expired (timeout_millisec c) (clock j) ts = false) /\
    (forall k v ts, (k, (v, ts)) ∈ view c -> k ∉ taken.*1 ->
       exists j, spec_expired (timeout_millisec c) (clock j) ts = true).
Proof.
  intros Hw. unfold Take.
  destruct (take_loop_ok (base.size (entry_map c)) clock 0 [] c Hw) as
    (taken & c' & -> & Hw' & He & Hm & Ht & Hnd & Hin & Hexp); [lia|]. simpl.
  exists taken, c'. rewrite bool_decide_true by done. simpl.
  pose proof (empty_map_list c' Hw' He) as Hs. rewrite Hs. simpl.
  split; [done|]. split; [done|].
  split; [apply nil_length_inv; by rewrite length_view|]. do 3 (split; [done|]). split.
  - intros k v Hkv. destruct (Hin k v Hkv) as (e & j & Hk & Hv & _ & Hx).
    exists (timestamp e), j. split; [|done]. apply elem_of_view; eauto.
  - intros k v ts Hkv Hn. apply (elem_of_view _ _ _ _ Hw) in Hkv as (e & Hk & _ & <-).
    destruct (Hexp k e Hk Hn) as (j & _ & Hx). eauto.
Qed.
End Proofs.
End Shared.

(** ** [CopiableValueLruCache] *)
Module Copiable.
Import CopiableValueLruCache.
Section Proofs.
Context {K V : Type} `{Countable K}.
Implicit Types (c : lru K V) (k key : K) (e : Entry V) (now : Z).

Lemma copiable_Put_refines now key v c :
  lru_wf c ->
  lru_wf (Put now key v c) /\
  view (Put now key v c) = spec_put (max_entries c) (u64 now) key v (view c) /\
  max_entries (Put now key v c) = max_entries c /\
  timeout_millisec (Put now key v c) = timeout_millisec c.
Proof.
  intros Hw. assert (Put now key v c = let c2 := inserted now key v c in
    if over_capacity c2 then
      match back (lru_list c2) with
      | Some stale => update c2 (delete stale (entry_map c2)) (pop_back (lru_list c2))
      | None => c2
      end
    else c2) as -> by (unfold Put, inserted, remove_key; by destruct (entry_map c !! key)).
  by apply put_ok.
Qed.

Lemma copiable_Delete_remove key c : (Delete key c).2 = remove_key key c.
Proof. unfold Delete, remove_key. by destruct (entry_map c !! key). Qed.

Lemma copiable_Get_refines now key c :
  lru_wf c ->
  lru_wf (Get now key c).2 /\
  (Get now key c).1 = (spec_get (timeout_millisec c) now key (view c)).1 /\
  view (Get now key c).2 = (spec_get (timeout_millisec c) now key (view c)).2 /\
  max_entries (Get now key c).2 = max_entries c /\
  timeout_millisec (Get now key c).2 = timeout_millisec c.
Proof.
  intros Hw. unfold Get, spec_get. rewrite view_lookup by done.
  destruct (entry_map c !! key) as [e|] eqn:He; simpl; [|done].
  change (spec_expired _ _ _) with (expired now e c). destruct (expired now e c); simpl.
  - destruct (remove_entry_ok _ _ _ Hw He) as (H1 & H2 & _). done.
  - destruct (touch_ok _ _ _ Hw He) as [H1 H2]. done.
Qed.

Lemma copiable_ClearFilter_refines p c :
  lru_wf c -> lru_wf (ClearFilter p c) /\ view (ClearFilter p c) = spec_clear p (view c).
Proof.
  intros Hw. destruct (delete_keys_ok Delete (filter (fun k => p k) (values (lru_list c))) c copiable_Delete_remove Hw)
    as (H1 & H2 & _).
  split; [done|]. unfold ClearFilter. rewrite H2. apply clear_filter_view; [|done].
  intros k. rewrite list_elem_of_filter, Is_true_true, lookup_is_Some_values by done. tauto.
Qed.
End Proofs.
End Copiable.

(** ** [ExclusiveLruCache] *)
Module Exclusive.
Import ExclusiveLruCache.
Section Proofs.
Context {K V : Type} `{Countable K}.
Implicit Types (c : lru K V) (k key : K) (e : Entry V) (now : Z).

Lemma exclusive_Put_refines now key v c :
  lru_wf c ->
  exists evicted, (Put now key v c).1 = Ok evicted /\
    evicted = spec_evicted (max_entries c) key (view c) /\
    lru_wf (Put now key v c).2 /\
    view (Put now key v c).2 = spec_put (max_entries c) (u64 now) key v (view c) /\
    max_entries (Put now key v c).2 = max_entries c /\
    timeout_millisec (Put now key v c).2 = timeout_millisec c.
Proof.
  intros Hw. set (c2 := inserted now key v c).
  assert (Put now key v c =
    if over_capacity c2 then
      match back (lru_list c2) ≫= fun stale_key => (stale_key,.) <$> entry_map c2 !! stale_key with
      | Some (stale_key, e) =>
          (Ok (Some (value e)),
           update c2 (delete stale_key (entry_map c2)) (pop_back (lru_list c2)))
      | None => (Throw AssertionFailure, c2)
      end
    else (Ok None, c2)) as -> by (unfold Put, c2, inserted, remove_key; by destruct (entry_map c !! key)).
  pose proof (put_ok now key v c Hw) as Hput. fold c2 in Hput.
  destruct (inserted_ok now key v c Hw) as (Hl & Hv & Hlen & Hm & Ht & [stale Hb] & Hs).
  fold c2 in Hl, Hv, Hlen, Hm, Ht, Hb, Hs. cbv zeta in Hput. rewrite Hb in *.
  unfold spec_evicted.
  replace (Datatypes.S (length (spec_remove key (view c)))) with (size (lru_list c2))
    by (rewrite <-Hlen, Hv; done).
  unfold over_capacity in *. rewrite Hm in *. revert Hput.
  destruct ((0 <? max_entries c) && (max_entries c <? Z.of_nat (size (lru_list c2)))) eqn:Hover; intros Hput.
  - apply andb_true_iff in Hover as [Hpos%Z.ltb_lt Hgt%Z.ltb_lt].
    destruct (drop_last_ok c2 stale Hl) as (H1 & H2 & e & He & Hlast); [rewrite Hm; auto|by rewrite Hm|done|].
    unfold mbind, option_bind. rewrite He. unfold fmap, option_fmap, option_map.
    eexists. split; [reflexivity|]. split; [|done]. rewrite Hv in Hlast.
    destruct (spec_remove key (view c)) as [|p l] eqn:Hr.
    { rewrite <-Hlen, Hv in Hgt. simpl in Hgt. lia. }
    change (last ((key, (v, u64 now)) :: p :: l)) with (last (p :: l)) in Hlast. by rewrite Hlast.
  - eexists. split; [done|]. done.
Qed.

Lemma exclusive_GetAndPop_refines now key c :
  lru_wf c ->
  lru_wf (GetAndPop now key c).2 /\
  (GetAndPop now key c).1 = (spec_pop (timeout_millisec c) now key (view c)).1 /\
  view (GetAndPop now key c).2 = (spec_pop (timeout_millisec c) now key (view c)).2.
Proof.
  intros Hw. unfold GetAndPop, spec_pop. rewrite view_lookup by done.
  destruct (entry_map c !! key) as [e|] eqn:He; simpl; [|done].
  change (spec_expired _ _ _) with (expired now e c).
  destruct (remove_entry_ok _ _ _ Hw He) as (H1 & H2 & _). by destruct (expired now e c).
Qed.

Lemma exclusive_Delete_remove key c : (Delete key c).2 = remove_key key c.
Proof. unfold Delete, remove_key. by destruct (entry_map c !! key). Qed.

Lemma exclusive_ClearFilter_refines p c :
  lru_wf c -> lru_wf (ClearFilter p c) /\ view (ClearFilter p c) = spec_clear p (view c).
Proof.
  intros Hw. destruct (delete_keys_ok Delete (filter (fun k => p k) (values (lru_list c))) c exclusive_Delete_remove Hw)
    as (H1 & H2 & _).
  split; [done|]. unfold ClearFilter. rewrite H2. apply clear_filter_view; [|done].
  intros k. rewrite list_elem_of_filter, Is_true_true, lookup_is_Some_values by done. tauto.
Qed.

Lemma values_view c : lru_wf c -> (fun p : K * (V * Z) => p.2.1) <$> view c ≡ₚ (ClearAndGetValues c).1.
Proof.
  intros Hw. unfold ClearAndGetValues. simpl.
  assert (view c ≡ₚ (fun p => (p.1, (value p.2, timestamp p.2))) <$> map_to_list (entry_map c)) as ->.
  { apply NoDup_Permutation.
    - eapply NoDup_fmap_1. by apply NoDup_view.
    - apply NoDup_fmap_2_strong; [|apply NoDup_map_to_list].
      intros [k e] [k' e'] Hk%elem_of_map_to_list Hk'%elem_of_map_to_list [= -> _ _]. congruence.
    - intros [k [v ts]]. rewrite elem_of_view, list_elem_of_fmap by done. split.
      + intros (e & He & <- & <-). exists (k, e). split; [done|]. by apply elem_of_map_to_list.
      + intros ([k' e] & [= -> -> ->] & He%elem_of_map_to_list). eauto. }
  rewrite <-list_fmap_compose. done.
Qed.
End Proofs.
End Exclusive.

(** ** Facts about the specification that clients use *)
Section SpecFacts.
Context {K V : Type} `{EqDecision K}.
Implicit Types (l : list (K * (V * Z))) (k : K).

Lemma elem_of_removelast {A} (x : A) (l : list A) : x ∈ removelast l -> x ∈ l.
Proof.
  induction l as [|a l IH]; [done|]. simpl. destruct l as [|b l]; [by intros ?%elem_of_nil|].
  rewrite (elem_of_cons (removelast _)), (elem_of_cons (b :: l)). tauto.
Qed.

Lemma elem_of_spec_put max now k v l p :
  p ∈ spec_put max now k v l -> p = (k, (v, now)) \/ (p.1 <> k /\ p ∈ l).
Proof.
  unfold spec_put. intros Hp.
  assert (p ∈ (k, (v, now)) :: spec_remove k l) as Hin
    by (case_match; [by apply elem_of_removelast|done]).
  apply elem_of_cons in Hin as [->|Hin]; [by left|]. right. by apply elem_of_spec_remove.
Qed.

(** The new entry survives unless the capacity check throws it out, which a
    positive capacity never does. *)
Lemma spec_put_has max now k v l : (k, (v, now)) ∈ spec_put max now k v l.
Proof.
  unfold spec_put. destruct ((0 <? max) && _) eqn:Hc; [|constructor].
  apply andb_true_iff in Hc as [Hm%Z.ltb_lt Hl%Z.ltb_lt].
  destruct (spec_remove k l) as [|p l']; simpl in *; [lia|]. constructor.
Qed.

Lemma elem_of_spec_get timeout now k l p :
  p ∈ (spec_get timeout now k l).2 -> NoDup l.*1 -> p ∈ l.
Proof.
  unfold spec_get. destruct (spec_find k l) as [[v ts]|] eqn:Hf; [|done].
  intros Hp Hnd. apply spec_find_Some in Hf; [|done].
  destruct (spec_expired _ _ _); simpl in Hp; [by apply elem_of_spec_remove in Hp as []|].
  apply elem_of_cons in Hp as [->|Hp]; [done|by apply elem_of_spec_remove in Hp as []].
Qed.

Lemma spec_get_value timeout now k l v :
  (spec_get timeout now k l).1 = Some v -> NoDup l.*1 -> exists ts, (k, (v, ts)) ∈ l.
Proof.
  unfold spec_get. destruct (spec_find k l) as [[v' ts]|] eqn:Hf; [|done].
  destruct (spec_expired _ _ _); simpl; [done|]. intros [= ->] Hnd.
  exists ts. by apply spec_find_Some in Hf.
Qed.
End SpecFacts.


(** ** Runs

    A history of calls on a cache, and what the caller sees of it. *)
Section Runs.
Context {K V : Type} `{Countable K} `{KeyCompare K}.

Inductive lru_op :=
| OpPut (now : Z) (k : K) (v : V)
| OpGet (now : Z) (k : K)
| OpDelete (k : K)
| OpClear
| OpClearFrom (start : K) (filter : K -> bool)
| OpKeys
| OpTake (clock : nat -> Z).

Inductive lru_reply :=
| Stored
| Found (v : option V)
| Deleted (existed : bool)
| Cleared
| Listed (ks : list K)
| Taken (kvs : Res (list (K * V))).

Definition shared_call (op : lru_op) (c : lru K V) : lru_reply * lru K V :=
  match op with
  | OpPut now k v => (Stored, SharedValueLruCache.Put now k v c)
  | OpGet now k => let '(v, c') := SharedValueLruCache.Get now k c in (Found v, c')
  | OpDelete k => let '(b, c') := SharedValueLruCache.Delete k c in (Deleted b, c')
  | OpClear => (Cleared, SharedValueLruCache.Clear c)
  | OpClearFrom start filter => (Cleared, SharedValueLruCache.ClearFrom start filter c)
  | OpKeys => (Listed (SharedValueLruCache.Keys c), c)
  | OpTake clock => let '(kvs, c') := SharedValueLruCache.Take clock c in (Taken kvs, c')
  end.

(** The keys of the list in order. *)
Definition spec_keys (l : list (K * (V * Z))) : list K := std_sort_keys l.*1.

(** The entries from [start] on, up to the first one that [p] refuses, are dropped. *)
Definition spec_clear_from (start : K) (p : K -> bool) (l : list (K * (V * Z))) : list (K * (V * Z)) :=
  let doomed := take_while p (filter (fun k => negb (less k start)) (spec_keys l)) in
  filter (fun x => x.1 ∉ doomed) l.

(** The entries in the order of their keys, without those expired when they are reached. *)
Fixpoint spec_take (timeout : Z) (clock : nat -> Z) (i : nat) (ks : list K) (l : list (K * (V * Z))) : list (K * V) :=
  match ks with
  | [] => []
  | k :: ks =>
      match spec_find k l with
      | Some (v, ts) =>
          if spec_expired timeout (clock i) ts then spec_take timeout clock (Datatypes.S i) ks l
          else (k, v) :: spec_take timeout clock (Datatypes.S i) ks l
      | None => spec_take timeout clock (Datatypes.S i) ks l
      end
  end.

Definition spec_call (max timeout : Z) (op : lru_op) (l : list (K * (V * Z))) :
    lru_reply * list (K * (V * Z)) :=
  match op with
  | OpPut now k v => (Stored, spec_put max (u64 now) k v l)
  | OpGet now k => let '(v, l') := spec_get timeout now k l in (Found v, l')
  | OpDelete k => let '(b, l') := spec_delete k l in (Deleted b, l')
  | OpClear => (Cleared, [])
  | OpClearFrom start filter => (Cleared, spec_clear_from start filter l)
  | OpKeys => (Listed (spec_keys l), l)
  | OpTake clock => (Taken (Ok (spec_take timeout clock 0 (spec_keys l) l)), [])
  end.

Fixpoint calls {S} (call : lru_op -> S -> lru_reply * S) (ops : list lru_op) (s : S) :
    list lru_reply * S :=
  match ops with
  | [] => ([], s)
  | op :: ops' =>
      let '(r, s') := call op s in
      let '(rs, s'') := calls call ops' s' in (r :: rs, s'')
  end.

Lemma spec_keys_view (c : lru K V) : lru_wf c -> sorted_keys (entry_map c) = spec_keys (view c).
Proof.
  intros Hw. apply sorted_keys_unique; [by apply NoDup_view|]. intros k.
  by rewrite keys_view, lookup_is_Some_values.
Qed.

Lemma spec_take_view clock i ks (c : lru K V) : lru_wf c ->
  Shared.take_keys clock i ks c = spec_take (timeout_millisec c) clock i ks (view c).
Proof.
  intros Hw. revert i. induction ks as [|k ks IH]; intros i; [done|]. simpl. rewrite view_lookup by done.
  destruct (entry_map c !! k) as [e|]; simpl; [|apply IH].
  change (spec_expired _ _ _) with (expired (clock i) e c). rewrite !IH. done.
Qed.

Lemma shared_call_refines op (c : lru K V) :
  lru_wf c ->
  let '(r, c') := shared_call op c in
  let '(r', l') := spec_call (max_entries c) (timeout_millisec c) op (view c) in
  r = r' /\ lru_wf c' /\ view c' = l' /\ max_entries c' = max_entries c /\
  timeout_millisec c' = timeout_millisec c.
Proof.
  intros Hw. destruct op as [now k v|now k|k| |start p| |clock]; simpl.
  - destruct (Shared.Put_refines now k v c Hw) as (H1 & H2 & H3 & H4). done.
  - destruct (Shared.Get_refines now k c Hw) as (H1 & H2 & H3 & H4 & H5).
    destruct (SharedValueLruCache.Get now k c) as [r c'], (spec_get _ _ _ _) as [r' l'].
    simpl in *. by subst.
  - destruct (Shared.Delete_refines k c Hw) as (H1 & H2 & H3). unfold spec_delete in *.
    destruct (remove_key_ok k c Hw) as (_ & _ & _ & H4 & H5 & _).
    rewrite <-Shared.Delete_remove in H4, H5.
    destruct (SharedValueLruCache.Delete k c) as [b c']. simpl in *. by subst.
  - destruct (clear_ok c). done.
  - unfold SharedValueLruCache.ClearFrom, SharedValueLruCache.delete_keys, spec_clear_from, keys_from.
    rewrite <-(spec_keys_view c Hw).
    destruct (delete_keys_ok SharedValueLruCache.Delete
      (take_while p (filter (fun k => negb (less k start)) (sorted_keys (entry_map c)))) c Shared.Delete_remove Hw) as (H1 & H2 & H3 & H4). done.
  - unfold SharedValueLruCache.Keys. by rewrite spec_keys_view.
  - destruct (Shared.Take_exact clock c Hw) as (c' & -> & H1 & H2 & H3). split; [|done].
    by rewrite <-(spec_keys_view c Hw), spec_take_view.
Qed.

Lemma shared_calls_refine ops (c : lru K V) :
  lru_wf c ->
  let '(rs, c') := calls shared_call ops c in
  let '(rs', l') := calls (spec_call (max_entries c) (timeout_millisec c)) ops (view c) in
  rs = rs' /\ lru_wf c' /\ view c' = l' /\ max_entries c' = max_entries c.
Proof.
  revert c. induction ops as [|op ops IH]; intros c Hw; simpl; [done|].
  pose proof (shared_call_refines op c Hw) as Hc. destruct (shared_call op c) as [r c1].
  destruct (spec_call _ _ op (view c)) as [r' l1]. destruct Hc as (-> & Hw1 & <- & Hm & Ht).
  specialize (IH c1 Hw1). rewrite Hm, Ht in IH.
  destruct (calls shared_call ops c1) as [rs c2].
  destruct (calls (spec_call _ _) ops (view c1)) as [rs' l2]. destruct IH as (-> & ? & ? & ?). done.
Qed.

(** C14: every history of calls of the methods of [SharedValueLruCache] ([Put], [Get],
    [Delete], [Clear], [Clear] from a key with a filter, [Keys] and [Take]) has the replies
    of the association-list cache: a lookup answers the last value put and not expired,
    deleted, cleared, taken or evicted, the evicted entry is always the least recently
    used one, clearing from a key drops the entries from there up to the first one that
    the filter refuses, [Take] gives the entries in the order of their keys without those
    that have expired when it reaches them, its assertions hold and it leaves an empty
    cache, and the number of entries never exceeds a positive [max_entries]. *)
Theorem shared_lru_refines max timeout ops :
  let '(rs, c') := calls shared_call ops (new_lru max timeout : lru K V) in
  let '(rs', l') := calls (spec_call max timeout) ops [] in
  rs = rs' /\ view c' = l' /\ linked (index (entry_map c')) (lru_list c') /\
  (0 < max -> Z.of_nat (length (view c')) <= max).
Proof.
  destruct (new_lru_ok (K := K) (V := V) max timeout) as [Hw Hv].
  pose proof (shared_calls_refine ops _ Hw) as Hr. rewrite Hv in Hr. simpl in Hr.
  destruct (calls shared_call ops (new_lru max timeout)) as [rs c'].
  destruct (calls (spec_call max timeout) ops []) as [rs' l'].
  destruct Hr as (-> & Hw' & Hl & Hm). do 2 (split; [done|]). split; [apply Hw'|].
  rewrite length_view by done. rewrite <-Hm. apply Hw'.
Qed.
End Runs.

(** The replies of a small history: capacity 2, timeout 10. *)
Example shared_lru_history :
  (calls shared_call
     [OpPut 0 "a" 1; OpPut 1 "b" 2; OpGet 2 "a"; OpPut 3 "c" 3; OpGet 4 "b"; OpGet 9 "c";
      OpGet 11 "a"; OpDelete "c"]%string
     (new_lru 2 10 : lru string Z)).1 =
  [Stored; Stored; Found (Some 1); Stored; Found None; Found (Some 3); Found None; Deleted true].
Proof. vm_compute. reflexivity. Qed.

(** A history with a prefix to clear, and entries of which one has expired when they are
    taken: the replies are computed on the association list. *)
Definition shared_history : list (lru_op (K := string) (V := Z)) :=
  [OpPut 0 "a" 1; OpPut 1 "b1" 2; OpPut 2 "b2" 3; OpClearFrom "b" (fun k => String.prefix "b" k); OpKeys;
   OpPut 9 "c" 4; OpTake (fun i => 11 + Z.of_nat i); OpGet 12 "c"]%string.

Lemma shared_lru_refines_witness :
  (calls shared_call shared_history (new_lru 3 10 : lru string Z)).1 =
  [Stored; Stored; Stored; Cleared; Listed ["a"]; Stored; Taken (Ok [("c", 4)]); Found None]%string.
Proof.
  pose proof (shared_lru_refines (K := string) (V := Z) 3 10 shared_history) as H.
  destruct (calls shared_call shared_history (new_lru 3 10)) as [rs c].
  assert ((calls (spec_call 3 10) shared_history []).1 =
    [Stored; Stored; Stored; Cleared; Listed ["a"]; Stored; Taken (Ok [("c", 4)]); Found None]%string) as Hs
    by (vm_compute; reflexivity).
  destruct (calls (spec_call 3 10) shared_history []) as [rs' l]. destruct H as [-> _]. exact Hs.
Defined.

(** ** Ownership in [ExclusiveLruCache] *)
Section Ownership.
Context {K V : Type} `{Countable K}.

Definition held_values (c : lru K V) : list V := (fun p : K * (V * Z) => p.2.1) <$> view c.

Definition replaced (k : K) (c : lru K V) : list V :=
  match entry_map c !! k with Some e => [value e] | None => [] end.

Lemma spec_remove_values k (l : list (K * (V * Z))) :
  NoDup l.*1 ->
  (fun p : K * (V * Z) => p.2.1) <$> l ≡ₚ
  match spec_find k l with Some p => [p.1] | None => [] end ++
  ((fun p : K * (V * Z) => p.2.1) <$> spec_remove k l).
Proof.
  induction l as [|[k' [v ts]] l IH]; [done|]. intros [Hk Hnd]%NoDup_cons.
  rewrite spec_remove_cons. simpl. unfold spec_find in *. simpl. destruct (decide (k' = k)) as [->|Hne].
  - rewrite bool_decide_true by done. simpl. f_equiv. by rewrite spec_remove_not_in.
  - rewrite bool_decide_false by done. simpl. rewrite IH at 1 by done.
    by rewrite Permutation_middle.
Qed.

Lemma removelast_split {A} (l : list A) : l = removelast l ++ option_list (last l).
Proof.
  destruct l as [|a l _] using rev_ind; [done|]. by rewrite removelast_last, last_snoc.
Qed.

(** No exclusive value is lost or duplicated by an insertion: what the cache
    held, plus the new value, is what it holds afterwards, plus the evicted value
    it hands back, plus the value that [key] had, which is destroyed rather than
    handed back; the eviction assertion never fails. *)
Theorem exclusive_put_conserves now k v (c : lru K V) :
  lru_wf c ->
  exists evicted, (ExclusiveLruCache.Put now k v c).1 = Ok evicted /\
    v :: held_values c ≡ₚ
      held_values (ExclusiveLruCache.Put now k v c).2 ++ option_list evicted ++ replaced k c.
Proof.
  intros Hw. destruct (Exclusive.exclusive_Put_refines now k v c Hw) as (ev & He & Hev & _ & Hv & _).
  exists ev. split; [done|]. unfold held_values. rewrite Hv.
  pose proof (spec_remove_values k (view c) (NoDup_view c Hw)) as Hr.
  rewrite view_lookup in Hr by done. unfold replaced.
  assert (forall l : list (K * (V * Z)), (fun p => p.2.1) <$> ((k, (v, u64 now)) :: l) = v :: ((fun p => p.2.1) <$> l)) as Hc by done.
  set (out := match entry_map c !! k with Some e => [value e] | None => [] end).
  assert (match (fun e => (value e, timestamp e)) <$> entry_map c !! k with Some p => [p.1] | None => [] end = out)
    as Heq by (unfold out; by destruct (entry_map c !! k)).
  rewrite Heq in Hr. rewrite Hr. unfold spec_put. subst ev. unfold spec_evicted. simpl length.
  destruct ((0 <? max_entries c) && (max_entries c <? Z.of_nat (Datatypes.S (length (spec_remove k (view c)))))) eqn:Hov.
  - destruct (spec_remove k (view c)) as [|p l] eqn:Hsp.
    { exfalso. apply andb_true_iff in Hov as [Hp%Z.ltb_lt Hl%Z.ltb_lt]. simpl in Hl. lia. }
    assert ((fun p : K * (V * Z) => p.2.1) <$> p :: l =
            ((fun p => p.2.1) <$> removelast (p :: l)) ++
            option_list (match last (p :: l) with Some p => Some p.2.1 | None => None end)) as Hlast.
    { rewrite (removelast_split (p :: l)) at 1. rewrite fmap_app. by destruct (last (p :: l)). }
    change (removelast ((k, (v, u64 now)) :: p :: l)) with ((k, (v, u64 now)) :: removelast (p :: l)).
    rewrite Hc, Hlast. simpl app. apply Permutation_skip.
    rewrite (Permutation_app_comm out). by rewrite <-app_assoc.
  - rewrite Hc. simpl. by rewrite (Permutation_app_comm out).
Qed.
End Ownership.

Lemma exclusive_put_conserves_witness :
  let c := (ExclusiveLruCache.Put 1 "b" 2 (ExclusiveLruCache.Put 0 "a" 1 (new_lru 2 0 : lru string Z)).2).2 in
  lru_wf c /\
  exists evicted, (ExclusiveLruCache.Put 2 "c" 3 c).1 = Ok evicted /\
    3 :: held_values c ≡ₚ
      held_values (ExclusiveLruCache.Put 2 "c" 3 c).2 ++ option_list evicted ++ replaced "c"%string c.
Proof.
  intros c. assert (lru_wf c) as Hw.
  { unfold c. destruct (new_lru_ok (K := string) (V := Z) 2 0) as [H0 _].
    destruct (Exclusive.exclusive_Put_refines 0 "a"%string 1 _ H0) as (_ & _ & _ & H1 & _).
    by destruct (Exclusive.exclusive_Put_refines 1 "b"%string 2 _ H1) as (_ & _ & _ & H2 & _). }
  split; [done|]. by apply (exclusive_put_conserves 2 "c"%string 3 c).
Defined.
