(* ===== verification/SingleFlight.v ===== *)
(** * SingleFlight

    [GetOrCreate] of the thread-safe LRU caches
    ([src/src/utils/include/shared_value_lru_cache.hpp],
    [src/src/utils/include/copiable_value_lru_cache.hpp]): a caller that misses creates the
    value outside the lock while the other callers of its key wait for it on a creation
    token.  Each critical section is one atomic step of [create_step]; the callers are the
    tasks of [Tasks].  The cache inside is an interface both LRU caches implement.

    Waiting is the waiting of [std::condition_variable]: a caller whose predicate is false
    joins the sleepers of the token's [cv] and stays there, whatever happens to the
    predicate, until [notify_all] or a spurious wake-up ([woken]) takes it off; then it
    tests the predicate again.

    [cc_null] tells the null pointers among the values: the shared cache takes a null
    [val] for an unfinished creation and for a miss, the copiable cache has a flag instead
    and no such value. *)
From S2P Require Import Prelude StdList OrdMap LruCache LruSpec LruProofs Tasks.

#[local] Open Scope Z_scope.

(** ** The cache inside *)
Class CreationCache (C K V : Type) := {
  cc_get : Z -> K -> C -> option V * C;
  cc_put : Z -> K -> V -> C -> C;
  cc_null : V -> bool
}.

(** [cc_retains]: neither a capacity nor a timeout makes the cache forget. *)
Class CreationCacheLaws (C K V : Type) `{CreationCache C K V} := {
  cc_ok : C -> Prop;
  cc_holds : C -> K -> V -> Prop;
  cc_retains : C -> Prop;
  cc_get_law now k c r c' :
    cc_ok c -> cc_get now k c = (r, c') ->
    cc_ok c' /\ (forall k' v, cc_holds c' k' v -> cc_holds c k' v) /\ (forall v, r = Some v -> cc_holds c k v);
  cc_put_law now k v c :
    cc_ok c -> cc_ok (cc_put now k v c) /\
    forall k' v', cc_holds (cc_put now k v c) k' v' -> (k' = k /\ v' = v) \/ (k' <> k /\ cc_holds c k' v');
  cc_get_retains now k c r c' :
    cc_ok c -> cc_retains c -> cc_get now k c = (r, c') ->
    cc_retains c' /\ (forall k' v, cc_holds c k' v -> cc_holds c' k' v) /\
    (forall v, cc_holds c k v -> r = Some v);
  cc_put_retains now k v c :
    cc_ok c -> cc_retains c ->
    cc_retains (cc_put now k v c) /\ cc_holds (cc_put now k v c) k v /\
    forall k' v', k' <> k -> cc_holds c k' v' -> cc_holds (cc_put now k v c) k' v'
}.

(** ** The operation *)
Section GetOrCreate.
Context {C K V : Type} `{Countable K} `{CreationCache C K V}.

(** What a caller's [factory] does when it runs at a given moment. *)
Variable factory : Z -> K -> Res V.

(** [tok_asleep] are the waits the token's [cv] blocks, out of the [tok_waits] begun on it. *)
Record CreationToken := MkToken {
  tok_val : option V;
  tok_eptr : option exn;
  tok_count : Z;
  tok_waits : nat;
  tok_asleep : list nat
}.

(** [tokens] is where the shared tokens live; [factory_calls] records the factories that
    have run, it is not part of the program. *)
Record flight := MkFlight {
  internal_cache : C;
  ongoing_creation : gmap K nat;
  tokens : list CreationToken;
  factory_calls : list (K * Res V)
}.
Implicit Types (g : flight) (k key : K) (tid : nat).

Definition with_cache g c := MkFlight c (ongoing_creation g) (tokens g) (factory_calls g).
Definition with_tokens g ts := MkFlight (internal_cache g) (ongoing_creation g) ts (factory_calls g).
Definition with_ongoing g o := MkFlight (internal_cache g) o (tokens g) (factory_calls g).
Definition log_call g key r := MkFlight (internal_cache g) (ongoing_creation g) (tokens g) (factory_calls g ++ [(key, r)]).

(** Where a caller of [GetOrCreate] stands between its critical sections. *)
Inductive caller :=
| Enter key
| Waiting key tid (wait : nat)
| Creating key tid
| Publishing key tid (r : Res V)
| Returned key (r : Res V).

(** [!= nullptr] of a pointer that may be unset. *)
Definition non_null (val : option V) : bool := match val with Some v => negb (cc_null v) | None => false end.

(** The predicate of [cv.wait]. *)
Definition creation_finished (t : CreationToken) : bool :=
  non_null (tok_val t) || bool_decide (is_Some (tok_eptr t)).

Definition token_result (t : CreationToken) : Res V :=
  match tok_eptr t with
  | Some e => Throw e
  | None => of_option UndefinedBehaviour (tok_val t)
  end.

Definition on_token (f : CreationToken -> CreationToken) tid g : flight := with_tokens g (alter f tid (tokens g)).
Definition add_count (n : Z) (t : CreationToken) : CreationToken :=
  MkToken (tok_val t) (tok_eptr t) (tok_count t + n) (tok_waits t) (tok_asleep t).

(** [++count], by a caller about to wait. *)
Definition join_creation tid g : flight :=
  on_token (fun t => MkToken (tok_val t) (tok_eptr t) (tok_count t + 1) (S (tok_waits t)) (tok_asleep t)) tid g.
Definition next_wait tid g : nat := match tokens g !! tid with Some t => tok_waits t | None => 0%nat end.

(** [--count], and the erasure of the creation by its last holder. *)
Definition release_creation key tid g : flight :=
  let g1 := on_token (add_count (-1)) tid g in
  match tokens g1 !! tid with
  | Some t => if tok_count t =? 0 then with_ongoing g1 (delete key (ongoing_creation g1)) else g1
  | None => g1
  end.

Definition start_creation key g : flight :=
  MkFlight (internal_cache g) (<[key := length (tokens g)]> (ongoing_creation g))
    (tokens g ++ [MkToken None None 1 0 []]) (factory_calls g).

(** The token's outcome is set under the lock, after the value is cached. *)
Definition publish_creation now key tid (r : Res V) g : flight :=
  match r with
  | Ok v =>
      on_token (fun t => MkToken (Some v) (tok_eptr t) (tok_count t) (tok_waits t) (tok_asleep t)) tid
        (with_cache g (cc_put now key v (internal_cache g)))
  | Throw e => on_token (fun t => MkToken (tok_val t) (Some e) (tok_count t) (tok_waits t) (tok_asleep t)) tid g
  end.

(** [cv.notify_all], and what blocks one more wait. *)
Definition notify_all tid g : flight :=
  on_token (fun t => MkToken (tok_val t) (tok_eptr t) (tok_count t) (tok_waits t) []) tid g.
Definition fall_asleep tid (wait : nat) g : flight :=
  on_token (fun t => MkToken (tok_val t) (tok_eptr t) (tok_count t) (tok_waits t) (wait :: tok_asleep t)) tid g.

(** A waiting caller that has the lock: what follows [cv.wait] if its predicate holds. *)
Definition wait_creation key tid (wait : nat) g : caller * flight :=
  match tokens g !! tid with
  | Some t =>
      if creation_finished t then (Returned key (token_result t), release_creation key tid g)
      else (Waiting key tid wait, fall_asleep tid wait g)
  | None => (Waiting key tid wait, g)
  end.

Definition asleep tid (wait : nat) g : bool :=
  match tokens g !! tid with Some t => bool_decide (wait ∈ tok_asleep t) | None => false end.

(** A caller that missed: the first of its key creates the value, the others wait. *)
Definition miss key g : caller * flight :=
  match ongoing_creation g !! key with
  | Some tid => wait_creation key tid (next_wait tid g) (join_creation tid g)
  | None => (Creating key (length (tokens g)), start_creation key g)
  end.

Definition create_step (now : Z) (t : caller) g : caller * flight :=
  match t with
  | Enter key =>
      let '(cached_val, c) := cc_get now key (internal_cache g) in
      let g := with_cache g c in
      match cached_val with
      | Some v => if cc_null v then miss key g else (Returned key (Ok v), g)
      | None => miss key g
      end
  | Waiting key tid wait => if asleep tid wait g then (t, g) else wait_creation key tid wait g
  | Creating key tid => let r := factory now key in (Publishing key tid r, log_call g key r)
  | Publishing key tid r =>
      (Returned key r, release_creation key tid (notify_all tid (publish_creation now key tid r g)))
  | Returned key r => (Returned key r, g)
  end.

(** [GetOrCreate] of a caller that meets no other: the three critical sections in a row. *)
Definition GetOrCreate (now : Z) key g : Res V * flight :=
  let '(cached_val, c) := cc_get now key (internal_cache g) in
  let create :=
    let r := factory now key in
    let g := log_call (with_cache g c) key r in
    match r with
    | Ok v => (Ok v, with_cache g (cc_put now key v c))
    | Throw e => (Throw e, g)
    end in
  match cached_val with
  | Some v => if cc_null v then create else (Ok v, with_cache g c)
  | None => create
  end.

Definition returned (t : caller) : bool := match t with Returned _ _ => true | _ => false end.

(** The creation a caller holds, and the one it is in charge of. *)
Definition held_token (t : caller) : option (K * nat) :=
  match t with
  | Waiting k tid _ | Creating k tid | Publishing k tid _ => Some (k, tid)
  | _ => None
  end.
Definition charge (t : caller) : option (K * nat) :=
  match t with Creating k tid | Publishing k tid _ => Some (k, tid) | _ => None end.
End GetOrCreate.

Arguments flight : clear implicits.
Arguments flight _ _ _ {_ _}.
Arguments caller : clear implicits.

(** ** The tokens

    [hs p] callers hold creation [p] and [cs p] are in charge of it: a creation is listed
    as long as it is held, its token counts its holders, exactly one caller is in charge
    until its outcome is set, and nobody sleeps on a finished one. *)
Section Tokens.
Context {C K V : Type} `{Countable K} `{CreationCache C K V}.
Variable result_ok : K -> Res V -> Prop.
Implicit Types (o : gmap K nat) (ts : list (CreationToken (V := V))) (hs cs : K * nat -> nat).

Definition token_outcome (t : CreationToken (V := V)) : option (Res V) :=
  match tok_eptr t with Some e => Some (Throw e) | None => Ok <$> tok_val t end.

Lemma finished_outcome t : creation_finished t = true -> token_outcome t = Some (token_result t).
Proof.
  unfold creation_finished, token_outcome, token_result. destruct (tok_eptr t); [done|].
  by destruct (tok_val t).
Qed.

(** A null value is an outcome of a creation that nobody takes for finished. *)
Lemma outcome_finished t r :
  token_outcome t = Some r -> creation_finished t = true \/ exists v, r = Ok v /\ cc_null v = true.
Proof.
  unfold creation_finished, token_outcome, non_null. destruct (tok_eptr t); [left; by rewrite orb_true_r|].
  destruct (tok_val t) as [v|]; [|done]. intros [= <-]. destruct (cc_null v) eqn:Hn; [right; eauto|by left].
Qed.

Definition token_ok (k : K) (n c : nat) (t : CreationToken (V := V)) : Prop :=
  tok_count t = Z.of_nat n /\ (0 < n)%nat /\ c = (if token_outcome t is Some _ then 0 else 1)%nat /\
  (creation_finished t = true -> tok_asleep t = []) /\
  forall r, token_outcome t = Some r -> result_ok k r.

Definition tokens_ok hs cs o ts : Prop :=
  (forall k tid, (0 < hs (k, tid))%nat -> o !! k = Some tid) /\
  (forall k tid, o !! k = Some tid -> exists t, ts !! tid = Some t /\ token_ok k (hs (k, tid)) (cs (k, tid)) t) /\
  (forall k k' tid, o !! k = Some tid -> o !! k' = Some tid -> k = k').

(** One more or one less at [p]. *)
Definition shifted (f f' : K * nat -> nat) (before after : option (K * nat)) : Prop :=
  forall p, (f' p + (if decide (before = Some p) then 1 else 0) = f p + (if decide (after = Some p) then 1 else 0))%nat.

Lemma shifted_same f f' p q : shifted f f' p p -> f' q = f q.
Proof. intros Hs. specialize (Hs q). case_decide; lia. Qed.

Lemma shifted_in f f' p q : shifted f f' None (Some p) -> f' q = (f q + if decide (p = q) then 1 else 0)%nat.
Proof.
  intros Hs. specialize (Hs q). rewrite (decide_False (P := None = Some q)) in Hs by done.
  destruct (decide (p = q)) as [->|Hn]; [rewrite decide_True in Hs by done|rewrite decide_False in Hs by congruence]; lia.
Qed.

Lemma shifted_out f f' p q : shifted f f' (Some p) None -> f q = (f' q + if decide (p = q) then 1 else 0)%nat.
Proof.
  intros Hs. specialize (Hs q). rewrite (decide_False (P := None = Some q)) in Hs by done.
  destruct (decide (p = q)) as [->|Hn]; [rewrite decide_True in Hs by done|rewrite decide_False in Hs by congruence]; lia.
Qed.

Lemma tokens_ok_same hs cs hs' cs' o ts :
  tokens_ok hs cs o ts -> (forall p, hs' p = hs p) -> (forall p, cs' p = cs p) -> tokens_ok hs' cs' o ts.
Proof.
  intros (H1 & H2 & H3) Hh Hc. split; [|split; [|done]].
  - intros k tid. rewrite Hh. apply H1.
  - intros k tid Hk. destruct (H2 k tid Hk) as (t & Ht & Hok). exists t. by rewrite Hh, Hc.
Qed.

Lemma tokens_ok_unlisted hs cs o ts k tid : tokens_ok hs cs o ts -> o !! k = None -> hs (k, tid) = 0%nat.
Proof.
  intros (H1 & _) Hk. destruct (decide (0 < hs (k, tid))%nat) as [Hp|]; [|lia]. apply H1 in Hp. congruence.
Qed.

Lemma token_in_range hs cs o ts k tid : tokens_ok hs cs o ts -> o !! k = Some tid -> (tid < length ts)%nat.
Proof. intros (_ & H2 & _) Hk. destruct (H2 k tid Hk) as (t & Ht & _). by eapply lookup_lt_Some. Qed.

Lemma tokens_ok_start hs cs hs' cs' o ts k :
  tokens_ok hs cs o ts -> o !! k = None ->
  (cs (k, length ts) <= hs (k, length ts))%nat ->
  shifted hs hs' None (Some (k, length ts)) -> shifted cs cs' None (Some (k, length ts)) ->
  tokens_ok hs' cs' (<[k := length ts]> o) (ts ++ [MkToken None None 1 0 []]).
Proof.
  intros Hok Hk Hle Hh Hc. pose proof Hok as (H1 & H2 & H3).
  pose proof (fun tid => tokens_ok_unlisted _ _ _ _ k tid Hok Hk) as Hz. rewrite Hz in Hle. split; [|split].
  - intros k' tid Hp. rewrite (shifted_in _ _ _ _ Hh) in Hp. apply lookup_insert_Some.
    destruct (decide (k = k')) as [<-|Hne]; [left|right].
    + split; [done|]. rewrite Hz in Hp. case_decide; [congruence|lia].
    + split; [done|]. apply H1. rewrite decide_False in Hp by congruence. lia.
  - intros k' tid [[<- <-]|[Hne Hk']]%lookup_insert_Some.
    + exists (MkToken None None 1 0 []). rewrite lookup_app_r, Nat.sub_diag by lia. split; [done|].
      rewrite (shifted_in _ _ _ _ Hh), (shifted_in _ _ _ _ Hc), decide_True, Hz by done.
      unfold token_ok. simpl. split; [lia|]. split; [lia|]. split; [lia|]. by split.
    + destruct (H2 k' tid Hk') as (t & Ht & Hto). exists t.
      rewrite lookup_app_l by (by eapply lookup_lt_Some). split; [done|].
      rewrite (shifted_in _ _ _ _ Hh), (shifted_in _ _ _ _ Hc), decide_False, !Nat.add_0_r by congruence. done.
  - intros k1 k2 tid Hk1 Hk2. apply lookup_insert_Some in Hk1, Hk2.
    pose proof (fun k t => token_in_range _ _ _ _ k t Hok) as Hr.
    destruct Hk1 as [[<- <-]|[? Hk1]], Hk2 as [[<- E]|[? Hk2]]; [done| | |by eapply H3].
    + apply Hr in Hk2. lia.
    + apply Hr in Hk1. lia.
Qed.

Lemma tokens_ok_alter f hs cs hs' cs' o ts k tid :
  tokens_ok hs cs o ts -> o !! k = Some tid ->
  (forall p, p <> (k, tid) -> hs' p = hs p /\ cs' p = cs p) ->
  (forall t, ts !! tid = Some t -> token_ok k (hs (k, tid)) (cs (k, tid)) t ->
     token_ok k (hs' (k, tid)) (cs' (k, tid)) (f t)) ->
  tokens_ok hs' cs' o (alter f tid ts).
Proof.
  intros (H1 & H2 & H3) Hk Hsame Hf. split; [|split; [|done]].
  - intros k' tid'. destruct (decide ((k', tid') = (k, tid))) as [[= -> ->]|Hne]; [done|].
    rewrite (proj1 (Hsame _ Hne)). apply H1.
  - intros k' tid' Hk'. destruct (H2 k' tid' Hk') as (t & Ht & Hto).
    destruct (decide (tid' = tid)) as [->|Hne].
    + assert (k' = k) as -> by (by eapply H3). exists (f t). rewrite list_lookup_alter_eq, Ht. split; [done|by apply Hf].
    + exists t. rewrite list_lookup_alter_ne by done. split; [done|].
      destruct (Hsame (k', tid')) as [-> ->]; [congruence|done].
Qed.

Lemma tokens_ok_erase hs cs o ts k tid :
  tokens_ok hs cs o ts -> o !! k = Some tid ->
  (forall hs' cs', (forall p, p <> (k, tid) -> hs' p = hs p /\ cs' p = cs p) -> hs' (k, tid) = 0%nat ->
     tokens_ok hs' cs' (delete k o) ts).
Proof.
  intros (H1 & H2 & H3) Hk hs' cs' Hsame Hz. split; [|split].
  - intros k' tid' Hp. destruct (decide ((k', tid') = (k, tid))) as [[= -> ->]|Hne]; [lia|].
    rewrite (proj1 (Hsame _ Hne)) in Hp. apply H1 in Hp. apply lookup_delete_Some. split; [|done]. congruence.
  - intros k' tid' [Hne Hk']%lookup_delete_Some. destruct (H2 k' tid' Hk') as (t & Ht & Hto).
    exists t. split; [done|]. destruct (Hsame (k', tid')) as [-> ->]; [congruence|done].
  - intros k1 k2 t [_ Hk1]%lookup_delete_Some [_ Hk2]%lookup_delete_Some. by eapply H3.
Qed.

(** Waking sleepers, by [notify_all] or for no reason. *)
Definition woken (t t' : CreationToken (V := V)) : Prop :=
  exists l, l ⊆ tok_asleep t /\ t' = MkToken (tok_val t) (tok_eptr t) (tok_count t) (tok_waits t) l.

Lemma tokens_ok_woken hs cs o ts ts' :
  tokens_ok hs cs o ts -> Forall2 woken ts ts' -> tokens_ok hs cs o ts'.
Proof.
  intros (H1 & H2 & H3) Hw. split; [done|]. split; [|done]. intros k tid Hk.
  destruct (H2 k tid Hk) as (t & Ht & Hn & Hp & Hc & Ha & Hr).
  destruct (Forall2_lookup_l _ _ _ _ _ Hw Ht) as (t' & Ht' & l & Hl & ->).
  exists (MkToken (tok_val t) (tok_eptr t) (tok_count t) (tok_waits t) l). split; [done|].
  unfold token_ok. simpl. split; [done|]. split; [done|]. split; [done|]. split; [|done].
  intros Hf. change (creation_finished t = true) in Hf. rewrite (Ha Hf) in Hl. by apply list_nil_subseteq.
Qed.

Lemma tokens_ok_alter_unlisted f hs cs o ts tid :
  tokens_ok hs cs o ts -> (forall k, o !! k <> Some tid) -> tokens_ok hs cs o (alter f tid ts).
Proof.
  intros (H1 & H2 & H3) Hn. split; [done|]. split; [|done].
  intros k' tid' Hk'. destruct (H2 k' tid' Hk') as (t & Ht & Hto). exists t.
  rewrite list_lookup_alter_ne; [done|]. intros ->. by destruct (Hn k').
Qed.
End Tokens.

Section Release.
Context {C K V : Type} `{Countable K} `{CreationCache C K V}.
Variable result_ok : K -> Res V -> Prop.
Implicit Types (g : flight C K V) (hs cs : K * nat -> nat).

#[local] Abbreviation ok hs cs g := (tokens_ok result_ok hs cs (ongoing_creation g) (tokens g)).

Lemma release_ok hs cs hs' cs' g k tid :
  ok hs cs g -> ongoing_creation g !! k = Some tid -> cs (k, tid) = 0%nat ->
  shifted hs hs' (Some (k, tid)) None -> (forall p, cs' p = cs p) ->
  ok hs' cs' (release_creation k tid g).
Proof.
  intros Hok Hk Hc Hh Hcs. pose proof Hok as (H1 & H2 & H3).
  destruct (H2 k tid Hk) as (t & Ht & Hn & Hpos & Hch & Hasl & Hres).
  pose proof (shifted_out _ _ _ (k, tid) Hh) as Hself. rewrite decide_True in Hself by done.
  assert (forall p, p <> (k, tid) -> hs' p = hs p /\ cs' p = cs p) as Hother.
  { intros p Hp. rewrite (shifted_out _ _ _ p Hh), decide_False by done. split; [lia|done]. }
  unfold release_creation. simpl. rewrite list_lookup_alter_eq, Ht. simpl.
  destruct (Z.eqb_spec (tok_count t + -1) 0); simpl.
  - apply tokens_ok_alter_unlisted.
    + eapply tokens_ok_erase; [done|done|done|lia].
    + intros k' Hk'. apply lookup_delete_Some in Hk' as [Hne Hk']. apply Hne. by eapply H3.
  - eapply tokens_ok_alter; [done|done|done|].
    intros t0 Ht0 _. assert (t0 = t) as -> by congruence. unfold token_ok. simpl.
    split; [lia|]. split; [lia|]. rewrite Hcs. done.
Qed.

Lemma join_ok hs cs hs' cs' g k tid :
  ok hs cs g -> ongoing_creation g !! k = Some tid ->
  shifted hs hs' None (Some (k, tid)) -> (forall p, cs' p = cs p) ->
  ok hs' cs' (join_creation tid g).
Proof.
  intros Hok Hk Hh Hcs. eapply tokens_ok_alter; [done|done| |].
  - intros p Hp. rewrite (shifted_in _ _ _ _ Hh), decide_False by done. split; [lia|done].
  - intros t Ht (Hn & Hp & Hc & Ha & Hr). unfold token_ok. simpl.
    rewrite (shifted_in _ _ _ _ Hh), decide_True by done.
    split; [lia|]. split; [lia|]. rewrite Hcs. done.
Qed.

(** One more sleeper on an unfinished creation. *)
Lemma fall_asleep_ok hs cs g k tid w :
  ok hs cs g -> ongoing_creation g !! k = Some tid ->
  (forall t, tokens g !! tid = Some t -> creation_finished t = false) ->
  ok hs cs (fall_asleep tid w g).
Proof.
  intros Hok Hk Hf. eapply tokens_ok_alter; [done|done|by intros|].
  intros t Ht (Hn & Hp & Hc & Ha & Hr). unfold token_ok. simpl. split; [done|]. split; [done|].
  split; [done|]. split; [|done]. intros Hfin. change (creation_finished t = true) in Hfin. by rewrite Hf in Hfin.
Qed.

(** Publishing sets the outcome of the creation the caller is in charge of, and wakes all
    who wait for it. *)
Lemma publish_creation_ok hs cs cs' now g k tid r :
  ok hs cs g -> ongoing_creation g !! k = Some tid -> result_ok k r -> (0 < cs (k, tid))%nat ->
  shifted cs cs' (Some (k, tid)) None ->
  ok hs cs' (notify_all tid (publish_creation now k tid r g)) /\ cs' (k, tid) = 0%nat.
Proof.
  intros Hok Hk Hr Hpos Hcs.
  pose proof (shifted_out _ _ _ (k, tid) Hcs) as Hself. rewrite decide_True in Hself by done.
  assert (forall p, p <> (k, tid) -> hs p = hs p /\ cs' p = cs p) as Hother.
  { intros p Hp. rewrite (shifted_out _ _ _ p Hcs), decide_False by done. split; [done|lia]. }
  pose proof Hok as (_ & H2 & _). destruct (H2 k tid Hk) as (t & Ht & _ & _ & Hch & _).
  destruct (token_outcome t) eqn:Hf; [lia|]. split; [|lia].
  unfold token_outcome in Hf. destruct (tok_eptr t) eqn:Hte; [done|]. destruct (tok_val t) eqn:Htv; [done|].
  destruct r as [v|e]; unfold notify_all, publish_creation, on_token; simpl; rewrite list_alter_alter_eq;
    (eapply tokens_ok_alter; [done|done|done|]); intros t0 Ht0 (Hn & Hp & _);
    assert (t0 = t) as -> by congruence; unfold token_ok, token_outcome; simpl; rewrite ?Hte; simpl;
    (split; [done|]); (split; [done|]); (split; [lia|]); (split; [done|]); by intros ? [= <-].
Qed.

Lemma tokens_ok_weaken (result_ok' : K -> Res V -> Prop) hs cs o ts :
  (forall k r, result_ok k r -> result_ok' k r) -> tokens_ok result_ok hs cs o ts -> tokens_ok result_ok' hs cs o ts.
Proof.
  intros Hm (H1 & H2 & H3). split; [done|]. split; [|done].
  intros k tid Hk. destruct (H2 k tid Hk) as (t & Ht & Hn & Hp & Hc & Ha & Hr). exists t.
  split; [done|]. split; [done|]. split; [done|]. split; [done|]. split; [done|]. auto.
Qed.

Lemma release_cache k tid g : internal_cache (release_creation k tid g) = internal_cache g.
Proof. unfold release_creation. simpl. repeat case_match; done. Qed.

Lemma release_calls k tid g : factory_calls (release_creation k tid g) = factory_calls g.
Proof. unfold release_creation. simpl. repeat case_match; done. Qed.

Lemma notify_cache tid g : internal_cache (notify_all tid g) = internal_cache g.
Proof. done. Qed.
Lemma notify_calls tid g : factory_calls (notify_all tid g) = factory_calls g.
Proof. done. Qed.

Lemma publish_calls now k tid r g : factory_calls (publish_creation now k tid r g) = factory_calls g.
Proof. by destruct r. Qed.

Lemma publish_ongoing now k tid r g : ongoing_creation (publish_creation now k tid r g) = ongoing_creation g.
Proof. by destruct r. Qed.
End Release.

(** ** The callers *)
Section Callers.
Context {C K V : Type} `{Countable K} `{CreationCacheLaws C K V}.
Variable factory : Z -> K -> Res V.
Variable c0 : C.
Implicit Types (g : flight C K V) (ts : list (caller K V)) (t : caller K V).

Definition holders ts : K * nat -> nat := fun p => count_tasks (fun t => held_token t = Some p) ts.
Definition chargers ts : K * nat -> nat := fun p => count_tasks (fun t => charge t = Some p) ts.

(** Where a result may come from: a factory that ran, or what the cache held at first. *)
Definition produced g (k : K) (r : Res V) : Prop :=
  (k, r) ∈ factory_calls g \/ exists v, r = Ok v /\ cc_holds c0 k v.

Definition outcome_ok g t : Prop :=
  match t with Publishing k _ r => (k, r) ∈ factory_calls g | Returned k r => produced g k r | _ => True end.

Record flight_ok ts g : Prop := {
  fl_cache : cc_ok (internal_cache g);
  fl_tokens : tokens_ok (fun k r => (k, r) ∈ factory_calls g) (holders ts) (chargers ts) (ongoing_creation g) (tokens g);
  fl_values k v : cc_holds (internal_cache g) k v -> produced g k (Ok v);
  fl_outcomes i t : ts !! i = Some t -> outcome_ok g t;
  fl_calls k r : (k, r) ∈ factory_calls g -> exists now, r = factory now k
}.

Lemma holders_insert ts i t t' :
  ts !! i = Some t -> shifted (holders ts) (holders (<[i := t']> ts)) (held_token t) (held_token t').
Proof. intros Hi p. exact (count_tasks_insert (fun t : caller K V => held_token t = Some p) ts i t t' Hi). Qed.

Lemma chargers_insert ts i t t' :
  ts !! i = Some t -> shifted (chargers ts) (chargers (<[i := t']> ts)) (charge t) (charge t').
Proof. intros Hi p. exact (count_tasks_insert (fun t : caller K V => charge t = Some p) ts i t t' Hi). Qed.

Lemma charge_held t p : charge t = Some p -> held_token t = Some p.
Proof. by destruct t. Qed.

Lemma charge_listed ts g i t k tid :
  flight_ok ts g -> ts !! i = Some t -> charge t = Some (k, tid) ->
  ongoing_creation g !! k = Some tid /\ (0 < chargers ts (k, tid))%nat.
Proof.
  intros Hok Hi Hc. split.
  - destruct (fl_tokens _ _ Hok) as (H1' & _). apply H1', (count_tasks_pos _ ts i t Hi). by apply charge_held.
  - by apply (count_tasks_pos _ ts i t Hi).
Qed.

Lemma held_listed ts g i t k tid :
  flight_ok ts g -> ts !! i = Some t -> held_token t = Some (k, tid) -> ongoing_creation g !! k = Some tid.
Proof. intros Hok Hi Hh. destruct (fl_tokens _ _ Hok) as (H1' & _). by apply H1', (count_tasks_pos _ ts i t Hi). Qed.

Lemma chargers_le_holders ts p : (chargers ts p <= holders ts p)%nat.
Proof.
  unfold chargers, holders, count_tasks. induction ts as [|t ts IH]; [done|].
  rewrite !filter_cons.
  destruct (decide (charge t = Some p)) as [Hc|], (decide (held_token t = Some p)) as [|Hh]; simpl; [lia| |lia|lia].
  by apply charge_held in Hc.
Qed.

Lemma produced_mono g g' k r :
  (forall x, x ∈ factory_calls g -> x ∈ factory_calls g') -> produced g k r -> produced g' k r.
Proof. intros Hm [Hr|Hr]; [left; auto|by right]. Qed.

Lemma produced_same g g' k r : factory_calls g' = factory_calls g -> produced g k r -> produced g' k r.
Proof. intros Hc. apply produced_mono. by rewrite Hc. Qed.

(** The outcomes that stay and the new one. *)
Lemma outcomes_insert ts g g' i t' :
  (forall x, x ∈ factory_calls g -> x ∈ factory_calls g') ->
  (forall j t, ts !! j = Some t -> outcome_ok g t) -> outcome_ok g' t' ->
  forall j t, <[i := t']> ts !! j = Some t -> outcome_ok g' t.
Proof.
  intros Hm Ho Ht' j t Hj. apply list_lookup_insert_Some in Hj as [(-> & <- & _)|[_ Hj]]; [done|].
  specialize (Ho j t Hj). destruct t; simpl in *; auto. by eapply produced_mono.
Qed.

(** ** The invariant, step by step *)
#[local] Abbreviation keeps ts i step := (flight_ok (<[i := step.1]> ts) step.2).

(** A turn that changes neither the cache nor the record of the factories. *)
Lemma quiet_ok ts g i t' g' :
  flight_ok ts g -> internal_cache g' = internal_cache g -> factory_calls g' = factory_calls g ->
  tokens_ok (fun k r => (k, r) ∈ factory_calls g) (holders (<[i := t']> ts)) (chargers (<[i := t']> ts))
    (ongoing_creation g') (tokens g') ->
  outcome_ok g t' -> flight_ok (<[i := t']> ts) g'.
Proof.
  intros [Hcache Htok Hval Hout Hcalls] Hc Hf Ht Ho. constructor; rewrite ?Hc, ?Hf; [done..| | |done].
  - intros k v Hv. apply (produced_same g); auto.
  - apply (outcomes_insert ts g); rewrite ?Hf; [done|done|].
    destruct t'; simpl in *; rewrite ?Hf; [done..|by apply (produced_same g)].
Qed.

Lemma get_ok ts g now key r c :
  flight_ok ts g -> cc_get now key (internal_cache g) = (r, c) ->
  flight_ok ts (with_cache g c) /\ forall v, r = Some v -> produced (with_cache g c) key (Ok v).
Proof.
  intros [Hcache Htok Hval Hout Hcalls] Hg. destruct (cc_get_law _ _ _ _ _ Hcache Hg) as (Hok' & Hsub & Hr).
  split; [|intros v ->; apply (Hval key v); auto].
  constructor; simpl; [done|done|intros k v Hv; exact (Hval k v (Hsub k v Hv))|exact Hout|done].
Qed.

Lemma wait_creation_ok ts g i key tid w w' :
  flight_ok ts g -> ts !! i = Some (Waiting key tid w') -> keeps ts i (wait_creation key tid w g).
Proof.
  intros Hok Hi. pose proof (held_listed ts g i _ key tid Hok Hi eq_refl) as Ho.
  pose proof (fl_tokens _ _ Hok) as Htok. pose proof Htok as (_ & T2 & _).
  destruct (T2 key tid Ho) as (tk & Htk & Hn & Hp & Hch & Hasl & Hres). unfold wait_creation. rewrite Htk.
  destruct (creation_finished tk) eqn:Hf; simpl.
  - pose proof (holders_insert ts i _ (Returned key (token_result tk)) Hi) as Hh.
    pose proof (chargers_insert ts i _ (Returned key (token_result tk)) Hi) as Hc.
    pose proof (finished_outcome tk Hf) as Hfo. rewrite Hfo in Hch.
    eapply quiet_ok; [done|apply release_cache|apply release_calls| |left; by apply Hres].
    eapply release_ok; [done|done|done|done|]. intros p. by eapply shifted_same.
  - pose proof (holders_insert ts i _ (Waiting key tid w) Hi) as Hh.
    pose proof (chargers_insert ts i _ (Waiting key tid w) Hi) as Hc.
    eapply quiet_ok; [done|done|done| |done]. eapply fall_asleep_ok; [|done|by intros t ?; simplify_eq].
    eapply tokens_ok_same; [exact Htok|intros p; by eapply shifted_same|intros p; by eapply shifted_same].
Qed.

Lemma miss_ok ts g i key :
  flight_ok ts g -> ts !! i = Some (Enter key) -> keeps ts i (miss key g).
Proof.
  intros Hok Hi. pose proof (fl_tokens _ _ Hok) as Htok. unfold miss.
  destruct (ongoing_creation g !! key) as [tid|] eqn:Ho; simpl.
  - set (w := next_wait tid g). set (g1 := join_creation tid g).
    assert (flight_ok (<[i := Waiting key tid w]> ts) g1) as Hok1.
    { pose proof (holders_insert ts i _ (Waiting key tid w) Hi) as Hh.
      pose proof (chargers_insert ts i _ (Waiting key tid w) Hi) as Hc.
      eapply quiet_ok; [done|done|done| |done].
      eapply join_ok; [done|done|done|]. intros p. by eapply shifted_same. }
    rewrite <-(list_insert_insert_eq ts i _ (Waiting key tid w)).
    eapply wait_creation_ok; [done|]. apply list_lookup_insert_eq. by eapply lookup_lt_Some.
  - pose proof (holders_insert ts i _ (Creating key (length (tokens g))) Hi) as Hh.
    pose proof (chargers_insert ts i _ (Creating key (length (tokens g))) Hi) as Hc.
    eapply quiet_ok; [done|done|done| |done].
    eapply tokens_ok_start; [done|done|apply chargers_le_holders|done|done].
Qed.

Lemma enter_ok ts g i key now :
  flight_ok ts g -> ts !! i = Some (Enter key) -> keeps ts i (create_step factory now (Enter key) g).
Proof.
  intros Hok Hi. simpl. destruct (cc_get now key (internal_cache g)) as [cached c] eqn:Hg.
  destruct (get_ok ts g now key cached c Hok Hg) as [Hok1 Hr].
  destruct cached as [v|]; [|by apply miss_ok]. destruct (cc_null v); [by apply miss_ok|]. simpl.
  pose proof (holders_insert ts i _ (Returned key (Ok v)) Hi) as Hh.
  pose proof (chargers_insert ts i _ (Returned key (Ok v)) Hi) as Hc.
  eapply quiet_ok; [done|done|done| |exact (Hr v eq_refl)].
  eapply tokens_ok_same; [apply (fl_tokens _ _ Hok)|intros p; by eapply shifted_same|intros p; by eapply shifted_same].
Qed.

Lemma creating_ok ts g i key tid now :
  flight_ok ts g -> ts !! i = Some (Creating key tid) -> keeps ts i (create_step factory now (Creating key tid) g).
Proof.
  intros [Hcache Htok Hval Hout Hcalls] Hi. simpl.
  pose proof (holders_insert ts i _ (Publishing key tid (factory now key)) Hi) as Hh.
  pose proof (chargers_insert ts i _ (Publishing key tid (factory now key)) Hi) as Hc.
  assert (forall x, x ∈ factory_calls g -> x ∈ factory_calls (log_call g key (factory now key))) as Hm
    by (intros x Hx; simpl; apply elem_of_app; by left).
  constructor; simpl.
  - done.
  - eapply tokens_ok_weaken; [intros k r; exact (Hm (k, r))|].
    eapply tokens_ok_same; [exact Htok|intros p; by eapply shifted_same|intros p; by eapply shifted_same].
  - intros k v Hv. eapply produced_mono; [exact Hm|auto].
  - refine (outcomes_insert ts g _ i _ Hm Hout _). simpl. apply elem_of_app. right. constructor.
  - intros k r [Hr|Hr]%elem_of_app; [auto|]. apply list_elem_of_singleton in Hr as [= -> ->]. eauto.
Qed.

Lemma publish_values now key tid r g :
  cc_ok (internal_cache g) ->
  cc_ok (internal_cache (publish_creation now key tid r g)) /\
  forall k v, cc_holds (internal_cache (publish_creation now key tid r g)) k v ->
    (k = key /\ r = Ok v) \/ cc_holds (internal_cache g) k v.
Proof.
  intros Hok. destruct r as [v|e]; simpl; [|by auto].
  destruct (cc_put_law now key v _ Hok) as [Hok' Hh]. split; [done|].
  intros k' v' [[-> ->]|[_ Hv]]%Hh; auto.
Qed.

Lemma publishing_ok ts g i key tid r now :
  flight_ok ts g -> ts !! i = Some (Publishing key tid r) ->
  keeps ts i (create_step factory now (Publishing key tid r) g).
Proof.
  intros Hok Hi. destruct (charge_listed ts g i _ key tid Hok Hi eq_refl) as [Ho Hpos]. simpl.
  destruct Hok as [Hcache Htok Hval Hout Hcalls].
  pose proof (Hout _ _ Hi) as Hr. simpl in Hr.
  pose proof (holders_insert ts i _ (Returned key r) Hi) as Hh.
  pose proof (chargers_insert ts i _ (Returned key r) Hi) as Hc.
  destruct (publish_creation_ok _ (holders ts) (chargers ts) _ now g key tid r Htok Ho Hr Hpos Hc) as [Hpub Hnone].
  destruct (publish_values now key tid r g Hcache) as [Hc1 Hv1].
  assert (factory_calls (release_creation key tid (notify_all tid (publish_creation now key tid r g))) = factory_calls g)
    as Hfc by (rewrite release_calls, notify_calls; apply publish_calls).
  constructor.
  - by rewrite release_cache, notify_cache.
  - rewrite Hfc. eapply release_ok; [exact Hpub| |exact Hnone|exact Hh|done].
    simpl. by rewrite publish_ongoing.
  - intros k v. rewrite release_cache, notify_cache. intros [[-> ->]|Hv]%Hv1; [left; by rewrite Hfc|].
    apply (produced_same g); auto.
  - refine (outcomes_insert ts g _ i _ _ Hout _); [by rewrite Hfc|]. left. by rewrite Hfc.
  - intros k r'. rewrite Hfc. apply Hcalls.
Qed.

Lemma create_step_ok ts g i t now :
  flight_ok ts g -> ts !! i = Some t -> keeps ts i (create_step factory now t g).
Proof.
  destruct t as [key|key tid w|key tid|key tid r|key r].
  - apply enter_ok.
  - intros Hok Hi. simpl. destruct (asleep tid w g); [by rewrite list_insert_id|by eapply wait_creation_ok].
  - apply creating_ok.
  - apply publishing_ok.
  - intros Hok Hi. simpl. by rewrite list_insert_id.
Qed.

(** Other uses of the cache: they may drop entries, and leave the creations alone; and
    spurious wake-ups. *)
Definition cache_env (g g' : flight C K V) : Prop :=
  ongoing_creation g' = ongoing_creation g /\ Forall2 woken (tokens g) (tokens g') /\ factory_calls g' = factory_calls g /\
  (cc_ok (internal_cache g) -> cc_ok (internal_cache g')) /\
  forall k v, cc_holds (internal_cache g') k v -> cc_holds (internal_cache g) k v.

Lemma cache_env_ok ts g g' : flight_ok ts g -> cache_env g g' -> flight_ok ts g'.
Proof.
  intros [Hcache Htok Hval Hout Hcalls] (Ho & Ht & Hf & Hc & Hv).
  assert (forall k r, produced g k r -> produced g' k r) as Hm by (intros k r; by apply produced_same).
  constructor; [auto| |auto| |by rewrite Hf].
  - rewrite Ho, Hf. by eapply tokens_ok_woken.
  - intros i t Hi. specialize (Hout i t Hi). destruct t; simpl in *; rewrite ?Hf; auto.
Qed.

Lemma flight_run env ts0 g0 ts g :
  (forall g g', env g g' -> cache_env g g') ->
  flight_ok ts0 g0 -> run (create_step factory) env ts0 g0 ts g -> flight_ok ts g.
Proof.
  intros Henv H0'. induction 1 as [|ts0 g0 ts g i t now t' g' _ IH Hi Hs|ts0 g0 ts g g' _ IH He]; [done| |].
  - pose proof (create_step_ok ts g i t now (IH H0') Hi) as Hok. by rewrite Hs in Hok.
  - eapply cache_env_ok; eauto.
Qed.

Lemma flight_schedule sch ts g :
  flight_ok ts g ->
  flight_ok (run_schedule (create_step factory) sch ts g).1 (run_schedule (create_step factory) sch ts g).2.
Proof.
  intros Hok. eapply (flight_run (fun _ _ => False)); [done|exact Hok|]. apply run_schedule_run.
Qed.
End Callers.

Lemma no_creation_start {C K V} `{Countable K} `{CreationCacheLaws C K V} factory (keys : list K) (g : flight C K V) :
  cc_ok (internal_cache g) -> ongoing_creation g = ∅ -> factory_calls g = [] ->
  flight_ok factory (internal_cache g) (Enter <$> keys) g.
Proof.
  intros Hok Ho Hf.
  assert (forall i t, ((Enter <$> keys) : list (caller K V)) !! i = Some t -> exists k, t = Enter k) as Hs.
  { intros i t. rewrite list_lookup_fmap, fmap_Some. intros (k & _ & ->). eauto. }
  constructor.
  - done.
  - rewrite Ho. split; [|split].
    + intros k tid Hp. unfold holders in Hp. rewrite count_tasks_none in Hp; [lia|].
      by intros i t (k' & ->)%Hs.
    + intros k tid. by rewrite lookup_empty.
    + intros k k' tid. by rewrite lookup_empty.
  - intros k v Hv. right. eauto.
  - by intros i t (k' & ->)%Hs.
  - rewrite Hf. intros k r Hin. inversion Hin.
Qed.

(** ** Properties *)
Section Properties.
Context {C K V : Type} `{Countable K} `{CreationCacheLaws C K V}.
Variable factory : Z -> K -> Res V.
Implicit Types (g : flight C K V) (ts : list (caller K V)).

(** C23: Creation is single flight.  However the critical sections of any number of
    [GetOrCreate] calls interleave, with each other, with uses that drop entries and with
    spurious wake-ups, at most
    one caller is creating the value of a key at any time, and what every caller gets is
    what a factory returned or threw for its key, or what the cache held before. *)
Theorem creation_is_single_flight env keys g0 ts g :
  (forall g g', env g g' -> cache_env g g') ->
  cc_ok (internal_cache g0) -> ongoing_creation g0 = ∅ -> factory_calls g0 = [] ->
  run (create_step factory) env (Enter <$> keys) g0 ts g ->
  (forall i j t u k tid tid', ts !! i = Some t -> ts !! j = Some u ->
     charge t = Some (k, tid) -> charge u = Some (k, tid') -> i = j) /\
  (forall i k r, ts !! i = Some (Returned k r) ->
     (exists now, r = factory now k) \/ exists v, r = Ok v /\ cc_holds (internal_cache g0) k v).
Proof.
  intros Henv Hc Ho Hf Hrun.
  pose proof (flight_run factory _ env _ _ _ _ Henv (no_creation_start factory keys g0 Hc Ho Hf) Hrun) as Hok.
  split.
  - intros i j t u k tid tid' Hi Hj Ht Hu.
    destruct (charge_listed _ _ _ _ _ _ _ _ Hok Hi Ht) as [Hk _].
    destruct (charge_listed _ _ _ _ _ _ _ _ Hok Hj Hu) as [Hk' _].
    assert (tid' = tid) as -> by congruence.
    destruct (fl_tokens _ _ _ _ Hok) as (_ & H2' & _). destruct (H2' k tid Hk) as (tk & _ & _ & _ & Hch & _).
    eapply (count_tasks_one (fun t : caller K V => charge t = Some (k, tid)) ts); [|done..].
    unfold chargers in Hch. rewrite Hch. destruct (token_outcome tk); lia.
  - intros i k r Hi. destruct (fl_outcomes _ _ _ _ Hok i _ Hi) as [Hr|Hr]; [left|by right].
    by apply (fl_calls _ _ _ _ Hok).
Qed.

Definition entered (t : caller K V) : Prop := match t with Enter _ => False | _ => True end.
Definition created (t : caller K V) : Prop := match t with Enter _ | Creating _ _ => False | _ => True end.
Definition published (t : caller K V) : Prop := match t with Waiting _ _ _ | Returned _ _ => True | _ => False end.
Definition key_of (t : caller K V) : K :=
  match t with Enter k | Waiting k _ _ | Creating k _ | Publishing k _ _ | Returned k _ => k end.

(** The factory of the key yields no null pointer. *)
Definition yields_values (key : K) : Prop := forall now v, factory now key = Ok v -> cc_null v = false.


Definition staged (Q : caller K V -> Prop) ts g : Prop :=
  (exists c0, flight_ok factory c0 ts g) /\ Forall Q ts.

Lemma staged_step (Q : caller K V -> Prop) :
  (forall now t g, Q t -> Q (create_step factory now t g).1) ->
  forall ts g i t now, staged Q ts g -> ts !! i = Some t ->
    staged Q (<[i := (create_step factory now t g).1]> ts) (create_step factory now t g).2.
Proof.
  intros HQ ts g i t now [[c0 Hok] Hall] Hi. split; [exists c0; by apply create_step_ok|].
  apply Forall_insert; [done|]. apply HQ. rewrite Forall_forall in Hall. apply Hall. by eapply list_elem_of_lookup_2.
Qed.

Lemma stage_reached (P Q : caller K V -> Prop) sch ts g :
  (forall now t g, P t -> P (create_step factory now t g).1) ->
  (forall ts g i t now, staged P ts g -> ts !! i = Some t -> Q (create_step factory now t g).1) ->
  staged P ts g -> round sch (length ts) ->
  staged Q (run_schedule (create_step factory) sch ts g).1 (run_schedule (create_step factory) sch ts g).2.
Proof.
  intros HP HQ Hs Hr. split.
  - destruct Hs as [[c0 Hok] _]. exists c0. by apply flight_schedule.
  - eapply (round_establishes _ (staged P)); [by apply staged_step|exact HQ|done|done].
Qed.

Lemma wait_creation_cases key tid w g :
  (wait_creation key tid w g).1 = Waiting key tid w \/
  exists tk, (wait_creation key tid w g).1 = Returned key (token_result tk).
Proof. unfold wait_creation. destruct (tokens g !! tid) as [t|]; [destruct (creation_finished t)|]; simpl; eauto. Qed.

(** Where a caller gets in a turn. *)
Lemma step_cases now (t : caller K V) g :
  let t' := (create_step factory now t g).1 in
  key_of t' = key_of t /\
  match t with
  | Enter _ => ~ published t' -> exists tid, t' = Creating (key_of t) tid
  | Creating k tid => t' = Publishing k tid (factory now k)
  | Waiting _ _ _ | Publishing _ _ _ | Returned _ _ => published t'
  end /\ entered t'.
Proof.
  destruct t as [key|key tid w|key tid|key tid r|key r]; simpl; try done.
  - destruct (cc_get now key (internal_cache g)) as [cached c].
    assert (let t' := (miss key (with_cache g c)).1 in key_of t' = key /\
      (~ published t' -> exists tid, t' = Creating key tid) /\ entered t') as Hm.
    { unfold miss. destruct (ongoing_creation (with_cache g c) !! key) as [tid|]; simpl; [|eauto].
      destruct (wait_creation_cases key tid (next_wait tid (with_cache g c)) (join_creation tid (with_cache g c)))
        as [->|(tk & ->)]; simpl; by split_and!. }
    destruct cached as [v|]; [destruct (cc_null v)|]; try done.
  - destruct (asleep tid w g); [done|].
    by destruct (wait_creation_cases key tid w g) as [->|(tk & ->)].
Qed.

Lemma step_published now (t : caller K V) g : published t -> published (create_step factory now t g).1.
Proof. destruct (step_cases now t g) as (_ & Hc & _). by destruct t. Qed.

Lemma step_entered now (t : caller K V) g : entered (create_step factory now t g).1.
Proof. apply step_cases. Qed.

Lemma step_created now (t : caller K V) g : entered t -> created (create_step factory now t g).1.
Proof.
  destruct (step_cases now t g) as (_ & Hc & _). destruct t; try done; intros _; by destruct (create_step factory now _ g).1.
Qed.

Lemma step_publishes now (t : caller K V) g : created t -> published (create_step factory now t g).1.
Proof. destruct (step_cases now t g) as (_ & Hc & _). by destruct t. Qed.

(** When nobody is creating any more, nobody waits in vain: the creation has its outcome,
    and its sleepers have been notified. *)
Lemma wait_ends ts g i t now :
  staged published ts g -> ts !! i = Some t -> yields_values (key_of t) ->
  returned (create_step factory now t g).1 = true.
Proof.
  intros [[c0 Hok] Hall] Hi Hv. rewrite Forall_forall in Hall.
  pose proof (Hall t (list_elem_of_lookup_2 _ _ _ Hi)) as Ht.
  destruct t as [key|key tid w|key tid|key tid r|key r]; try done. simpl in *.
  pose proof (held_listed _ _ _ _ _ _ _ _ Hok Hi eq_refl) as Ho.
  destruct (fl_tokens _ _ _ _ Hok) as (_ & H2' & _).
  destruct (H2' key tid Ho) as (tk & Htk & _ & _ & Hch & Hasl & Hres).
  destruct (token_outcome tk) as [r|] eqn:Hto.
  - assert (creation_finished tk = true) as Hf.
    { destruct (outcome_finished tk r Hto) as [Hf|(v & -> & Hn)]; [done|].
      destruct (fl_calls _ _ _ _ Hok _ _ (Hres _ eq_refl)) as [now' Hnow].
      by rewrite (Hv now' v (eq_sym Hnow)) in Hn. }
    unfold asleep, wait_creation. rewrite Htk, (Hasl Hf), bool_decide_eq_false_2 by (by intros ?%elem_of_nil).
    by rewrite Hf.
  - unfold chargers in Hch. rewrite count_tasks_none in Hch; [done|].
    intros j u Hj Hu. pose proof (Hall u (list_elem_of_lookup_2 _ _ _ Hj)) as Hp. by destruct u.
Qed.

Lemma schedule_keys sch ts g i t :
  ts !! i = Some t ->
  exists t', (run_schedule (create_step factory) sch ts g).1 !! i = Some t' /\ key_of t' = key_of t.
Proof.
  intros Hi.
  apply (schedule_inv (create_step factory) (fun ts' _ => exists t', ts' !! i = Some t' /\ key_of t' = key_of t));
    [|by exists t].
  intros ts' g' j u now (t' & Ht' & Hk) Hj. destruct (decide (i = j)) as [<-|Hne].
  - eexists. rewrite list_lookup_insert_eq by (by eapply lookup_lt_Some). split; [done|].
    rewrite Hj in Ht'. injection Ht' as ->. by destruct (step_cases now t' g') as [-> _].
  - exists t'. by rewrite list_lookup_insert_ne.
Qed.

(** C24: No caller of [GetOrCreate] waits for ever: in any schedule made of four rounds,
    each giving every caller at least one turn in whatever order, every caller has returned,
    also when factories throw.  A caller that sleeps on the condition variable does nothing
    in its turns until it is notified, so no notification is lost.  The factory of the
    caller's key must not return a null pointer, which the waiting callers of the shared
    cache take for a creation under way ([null_value_strands_waiters]); whatever the
    factories of other keys return does not matter. *)
Theorem every_creation_returns keys g0 s1 s2 s3 s4 :
  cc_ok (internal_cache g0) -> ongoing_creation g0 = ∅ -> factory_calls g0 = [] ->
  round s1 (length keys) -> round s2 (length keys) -> round s3 (length keys) -> round s4 (length keys) ->
  forall i key, keys !! i = Some key -> yields_values key ->
    exists r, (run_schedule (create_step factory) (s1 ++ s2 ++ s3 ++ s4) (Enter <$> keys) g0).1 !! i = Some (Returned key r).
Proof.
  intros Hc Ho Hf R1 R2 R3 R4 i key Hi Hv.
  destruct (schedule_keys (s1 ++ s2 ++ s3 ++ s4) (Enter <$> keys) g0 i (Enter key)) as (t & Ht & Hk);
    [by rewrite list_lookup_fmap, Hi|].
  rewrite !run_schedule_app in Ht |- *.
  assert (staged (fun _ => True) (Enter <$> keys) g0) as S0.
  { split; [eexists; by apply no_creation_start|]. by apply Forall_true. }
  apply (stage_reached _ entered s1) in S0; [|done|by intros; apply step_entered|by rewrite length_fmap].
  apply (stage_reached _ created s2) in S0;
    [|by intros; apply step_entered| |by rewrite length_run_schedule, length_fmap].
  2:{ intros ts g j u now [_ Hall] Hj. apply step_created. rewrite Forall_forall in Hall. eapply Hall, list_elem_of_lookup_2, Hj. }
  apply (stage_reached _ published s3) in S0;
    [|intros now u g Hu; apply step_created; by destruct u| |by rewrite !length_run_schedule, length_fmap].
  2:{ intros ts g j u now [_ Hall] Hj. apply step_publishes. rewrite Forall_forall in Hall. eapply Hall, list_elem_of_lookup_2, Hj. }
  apply (stage_reached _ (fun t => yields_values (key_of t) -> returned t = true) s4) in S0;
    [|by intros; apply step_published| |by rewrite !length_run_schedule, length_fmap].
  2:{ intros ts g j u now S Hj Hu. eapply wait_ends; [done|done|]. by rewrite (proj1 (step_cases now u g)) in Hu. }
  destruct S0 as [_ Hend]. rewrite Forall_lookup in Hend. specialize (Hend i t Ht).
  rewrite Hk in Hend. specialize (Hend Hv). destruct t; try done. simpl in Hk. subst. eauto.
Qed.
End Properties.

(** ** The LRU caches inside *)
Section LruCreation.
Context {K V : Type} `{Countable K}.
Implicit Types (c : lru K V) (k : K).

Definition lru_holds c k (v : V) : Prop := exists ts, (k, (v, ts)) ∈ view c.
Definition lru_retains c : Prop := max_entries c = 0 /\ timeout_millisec c = 0.

(** What the two caches have in common, from their refinement of [LruSpec]. *)
Lemma lru_get_creation now k c (r : option V) c' :
  lru_wf c ->
  r = (spec_get (timeout_millisec c) now k (view c)).1 -> view c' = (spec_get (timeout_millisec c) now k (view c)).2 ->
  (forall k' v, lru_holds c' k' v -> lru_holds c k' v) /\ (forall v, r = Some v -> lru_holds c k v).
Proof.
  intros Hw Hr Hv. split.
  - intros k' v [ts Hin]. exists ts. rewrite Hv in Hin. eapply elem_of_spec_get; [exact Hin|by apply NoDup_view].
  - intros v ->. symmetry in Hr. apply spec_get_value in Hr; [done|by apply NoDup_view].
Qed.

Lemma lru_get_retains now k c (r : option V) c' :
  lru_wf c -> lru_retains c ->
  r = (spec_get (timeout_millisec c) now k (view c)).1 -> view c' = (spec_get (timeout_millisec c) now k (view c)).2 ->
  (forall k' v, lru_holds c k' v -> lru_holds c' k' v) /\ (forall v, lru_holds c k v -> r = Some v).
Proof.
  intros Hw [_ Ht] Hr Hv. rewrite Ht in Hr, Hv. unfold spec_get in Hr, Hv. pose proof (NoDup_view c Hw) as Hnd.
  destruct (spec_find k (view c)) as [[v0 ts0]|] eqn:Hf; simpl in Hr, Hv.
  - apply spec_find_Some in Hf; [|done]. split.
    2:{ intros v [ts Hin]. rewrite Hr. apply spec_find_Some in Hf, Hin; [|done..]. congruence. }
    intros k' v [ts Hin]. unfold lru_holds. rewrite Hv. exists ts.
    destruct (decide (k' = k)) as [->|Hne]; [|right; by apply elem_of_spec_remove].
    assert ((v, ts) = (v0, ts0)) as [= -> ->]; [|constructor].
    apply spec_find_Some in Hf, Hin; [|done..]. congruence.
  - split; [intros k' v; unfold lru_holds; by rewrite Hv|]. intros v [ts Hin]. exfalso.
    apply spec_find_None in Hf. apply Hf. apply list_elem_of_fmap. by exists (k, (v, ts)).
Qed.

Lemma lru_put_creation now k v c c' :
  view c' = spec_put (max_entries c) now k v (view c) ->
  forall k' v', lru_holds c' k' v' -> (k' = k /\ v' = v) \/ (k' <> k /\ lru_holds c k' v').
Proof.
  intros Hv k' v' [ts Hin]. rewrite Hv in Hin. apply elem_of_spec_put in Hin as [[= -> -> _]|[Hne Hin]]; [by left|].
  right. split; [done|]. by exists ts.
Qed.

Lemma lru_put_retains now k v c c' :
  lru_retains c -> view c' = spec_put (max_entries c) now k v (view c) ->
  lru_holds c' k v /\ forall k' v', k' <> k -> lru_holds c k' v' -> lru_holds c' k' v'.
Proof.
  intros [Hm _] Hv. unfold lru_holds. rewrite Hv. split; [eexists; apply spec_put_has|].
  intros k' v' Hne [ts Hin]. exists ts. unfold spec_put. rewrite Hm. simpl. right. by apply elem_of_spec_remove.
Qed.
End LruCreation.

(** [null] tells which of the pointers are null. *)
Section Shared.
Context {K V : Type} `{Countable K} `{KeyCompare K}.
Variable null : V -> bool.

Definition shared_creation : CreationCache (lru K V) K V := {|
  cc_get := SharedValueLruCache.Get;
  cc_put := SharedValueLruCache.Put;
  cc_null := null
|}.

Program Definition shared_creation_laws : @CreationCacheLaws (lru K V) K V shared_creation := {|
  cc_ok := lru_wf; cc_holds := lru_holds; cc_retains := lru_retains
|}.
Next Obligation.
  simpl. intros now k c r c' Hw Hg. destruct (Shared.Get_refines now k c Hw) as (H1 & H2 & H3 & _).
  rewrite Hg in *. split; [done|]. by eapply lru_get_creation.
Qed.
Next Obligation.
  simpl. intros now k v c Hw. destruct (Shared.Put_refines now k v c Hw) as (H1 & H2 & _).
  split; [done|]. by eapply lru_put_creation.
Qed.
Next Obligation.
  simpl. intros now k c r c' Hw Hr Hg. destruct (Shared.Get_refines now k c Hw) as (H1 & H2 & H3 & H4 & H5).
  rewrite Hg in *. simpl in *. split; [destruct Hr; split; congruence|]. by eapply lru_get_retains.
Qed.
Next Obligation.
  simpl. intros now k v c Hw Hr. destruct (Shared.Put_refines now k v c Hw) as (H1 & H2 & H3 & H4).
  split; [destruct Hr; split; congruence|]. by eapply lru_put_retains.
Qed.
End Shared.

(** The copiable cache as the other instance; a module of its own since both caches are
    values of the same type. *)
Module CopiableCreation.
Section Instances.
Context {K V : Type} `{Countable K}.

Definition copiable_creation : CreationCache (lru K V) K V := {|
  cc_get := CopiableValueLruCache.Get;
  cc_put := CopiableValueLruCache.Put;
  cc_null _ := false
|}.

Program Definition copiable_creation_laws : @CreationCacheLaws (lru K V) K V copiable_creation := {|
  cc_ok := lru_wf; cc_holds := lru_holds; cc_retains := lru_retains
|}.
Next Obligation.
  simpl. intros now k c r c' Hw Hg. destruct (Copiable.copiable_Get_refines now k c Hw) as (H1 & H2 & H3 & _).
  rewrite Hg in *. split; [done|]. by eapply lru_get_creation.
Qed.
Next Obligation.
  simpl. intros now k v c Hw. destruct (Copiable.copiable_Put_refines now k v c Hw) as (H1 & H2 & _).
  split; [done|]. by eapply lru_put_creation.
Qed.
Next Obligation.
  simpl. intros now k c r c' Hw Hr Hg. destruct (Copiable.copiable_Get_refines now k c Hw) as (H1 & H2 & H3 & H4 & H5).
  rewrite Hg in *. simpl in *. split; [destruct Hr; split; congruence|]. by eapply lru_get_retains.
Qed.
Next Obligation.
  simpl. intros now k v c Hw Hr. destruct (Copiable.copiable_Put_refines now k v c Hw) as (H1 & H2 & H3 & H4).
  split; [destruct Hr; split; congruence|]. by eapply lru_put_retains.
Qed.
End Instances.
End CopiableCreation.

(** ** Created once *)
Section Once.
Context {C K V : Type} `{Countable K} `{CreationCacheLaws C K V}.
Variable factory : Z -> K -> Res V.
Implicit Types (g : flight C K V) (ts : list (caller K V)) (k key : K).

(** The values created for a key; a null pointer is none. *)
Definition value_of (r : Res V) : option V := match r with Ok v => if cc_null v then None else Some v | Throw _ => None end.
Definition created_values k g : list V :=
  omap (fun call => if decide (call.1 = k) then value_of call.2 else None) (factory_calls g).

Lemma value_of_Some r v : value_of r = Some v <-> r = Ok v /\ cc_null v = false.
Proof.
  destruct r as [w|e]; simpl; [|split; [done|by intros []]]. destruct (cc_null w) eqn:Hn.
  - split; [done|]. intros [[= ->] Hv]. congruence.
  - split; [by intros [= <-]|]. by intros [[= ->] _].
Qed.

(** A created value is about to be published, or cached; while it is being created it is
    neither. *)
Record once_ok ts g : Prop := {
  on_flight : exists c0, flight_ok factory c0 ts g;
  on_retains : cc_retains (internal_cache g);
  on_once k : (length (created_values k g) <= 1)%nat;
  on_where k v : v ∈ created_values k g ->
    (exists i tid, ts !! i = Some (Publishing k tid (Ok v))) \/ cc_holds (internal_cache g) k v;
  on_absent i t k tid : ts !! i = Some t -> charge t = Some (k, tid) ->
    forall v, cc_holds (internal_cache g) k v -> cc_null v = true
}.

Lemma created_values_log g key r k :
  created_values k (log_call g key r) =
  created_values k g ++ if decide (key = k) then option_list (value_of r) else [].
Proof.
  unfold created_values, log_call. simpl. rewrite omap_app. f_equal. simpl.
  destruct (decide (key = k)); [|done]. by destruct (value_of r).
Qed.

Lemma created_value k g v : v ∈ created_values k g -> cc_null v = false.
Proof.
  unfold created_values. rewrite list_elem_of_omap. intros ([k' r] & _ & Hv). simpl in Hv.
  case_decide; [|done]. by apply value_of_Some in Hv as [].
Qed.

Lemma created_values_calls g g' k : factory_calls g' = factory_calls g -> created_values k g' = created_values k g.
Proof. intros Hc. unfold created_values. by rewrite Hc. Qed.

(** A step that moves no value: the publishing callers stay, the cache keeps its entries,
    and a caller put in charge finds its key absent. *)
Lemma once_quiet ts g i t t' g' :
  once_ok ts g -> ts !! i = Some t -> (exists c0, flight_ok factory c0 (<[i := t']> ts) g') ->
  (forall k tid r, t <> Publishing k tid r) -> factory_calls g' = factory_calls g ->
  cc_retains (internal_cache g') ->
  (forall k v, cc_holds (internal_cache g) k v <-> cc_holds (internal_cache g') k v) ->
  (forall k tid, charge t' = Some (k, tid) -> charge t = Some (k, tid) \/
    forall v, cc_holds (internal_cache g) k v -> cc_null v = true) ->
  once_ok (<[i := t']> ts) g'.
Proof.
  intros [Hfl Hret Hon Hwh Hab] Hi Hok Ht Hf Hret' Hh Hc. constructor; [done|done| | |].
  - intros k. by rewrite (created_values_calls g).
  - intros k v. rewrite (created_values_calls g) by done. intros [(j & tid & Hj)|Hv]%Hwh; [left|right; by apply Hh].
    exists j, tid. destruct (decide (i = j)) as [<-|Hne]; [|by rewrite list_lookup_insert_ne].
    rewrite Hi in Hj. injection Hj as ->. by destruct (Ht k tid (Ok v)).
  - intros j u k tid Hj Hu v Hv%Hh. revert Hv.
    apply list_lookup_insert_Some in Hj as [(-> & <- & _)|[_ Hj]]; [|by eapply Hab].
    destruct (Hc k tid Hu) as [Ht'|Hn]; [by eapply Hab|apply Hn].
Qed.

Lemma once_create ts g i key tid now :
  once_ok ts g -> ts !! i = Some (Creating key tid) ->
  once_ok (<[i := Publishing key tid (factory now key)]> ts) (log_call g key (factory now key)).
Proof.
  intros [[c0 Hfl] Hret Hon Hwh Hab] Hi.
  assert (forall v, v ∉ created_values key g) as Hnone.
  { intros v Hin. pose proof (created_value _ _ _ Hin) as Hnn.
    destruct (Hwh _ _ Hin) as [(j & tid' & Hj)|Hv]; [|by rewrite (Hab i _ key tid Hi eq_refl v Hv) in Hnn].
    destruct (charge_listed _ _ _ _ _ _ _ _ Hfl Hi eq_refl) as [Hk _].
    destruct (charge_listed _ _ _ _ _ _ _ _ Hfl Hj eq_refl) as [Hk' _].
    assert (tid' = tid) as -> by congruence.
    destruct (fl_tokens _ _ _ _ Hfl) as (_ & H2' & _). destruct (H2' key tid Hk) as (tk & _ & _ & _ & Hch & _).
    assert (i = j) as ->; [|congruence].
    eapply (count_tasks_one (fun t : caller K V => charge t = Some (key, tid)) ts); [|done..].
    unfold chargers in Hch. rewrite Hch. destruct (token_outcome tk); lia. }
  assert (created_values key g = []) as Hnil by (destruct (created_values key g) as [|v l]; [done|];
    destruct (Hnone v); constructor).
  constructor.
  - exists c0. by apply creating_ok.
  - done.
  - intros k. rewrite created_values_log. destruct (decide (key = k)) as [<-|Hne].
    + rewrite Hnil. destruct (value_of (factory now key)); simpl; lia.
    + rewrite app_nil_r. apply Hon.
  - intros k v Hv. rewrite created_values_log in Hv. apply elem_of_app in Hv as [Hv|Hv].
    + destruct (Hwh k v Hv) as [(j & tid' & Hj)|Hc]; [left|by right]. exists j, tid'.
      rewrite list_lookup_insert_ne; [done|]. intros ->. congruence.
    + left. exists i, tid. rewrite list_lookup_insert_eq by (by eapply lookup_lt_Some).
      destruct (decide (key = k)) as [<-|]; [|inversion Hv].
      destruct (value_of (factory now key)) as [v'|] eqn:Hf; [|inversion Hv].
      apply list_elem_of_singleton in Hv as ->. by apply value_of_Some in Hf as [-> _].
  - intros j u k tid' Hj Hu. apply list_lookup_insert_Some in Hj as [(-> & <- & _)|[_ Hj]]; [|by eapply Hab].
    simpl in Hu. simplify_eq. by eapply (Hab j).
Qed.

Lemma once_publish ts g i key tid r now :
  once_ok ts g -> ts !! i = Some (Publishing key tid r) ->
  once_ok (<[i := Returned key r]> ts) (release_creation key tid (notify_all tid (publish_creation now key tid r g))).
Proof.
  intros [[c0 Hfl] Hret Hon Hwh Hab] Hi.
  assert (forall k, created_values k (release_creation key tid (notify_all tid (publish_creation now key tid r g))) = created_values k g)
    as Hcv by (intros k; apply created_values_calls; rewrite release_calls, notify_calls; apply publish_calls).
  pose proof (publishing_ok _ _ _ _ _ _ _ _ now Hfl Hi) as Hok. simpl in Hok.
  assert (forall j u tid', <[i := Returned key r]> ts !! j = Some u -> charge u = Some (key, tid') -> False) as Hlone.
  { intros j u tid' Hj Hu. apply list_lookup_insert_Some in Hj as [(-> & <- & _)|[Hne Hj]]; [done|].
    destruct (charge_listed _ _ _ _ _ _ _ _ Hfl Hi eq_refl) as [Hk _].
    destruct (charge_listed _ _ _ _ _ _ _ _ Hfl Hj Hu) as [Hk' _].
    assert (tid' = tid) as -> by congruence.
    destruct (fl_tokens _ _ _ _ Hfl) as (_ & H2' & _). destruct (H2' key tid Hk) as (tk & _ & _ & _ & Hch & _).
    apply Hne. eapply (count_tasks_one (fun t : caller K V => charge t = Some (key, tid)) ts); [|done..].
    unfold chargers in Hch. rewrite Hch. destruct (token_outcome tk); lia. }
  pose proof (fl_cache _ _ _ _ Hfl) as Hc.
  constructor; [by exists c0| | | |].
  - rewrite release_cache, notify_cache. destruct r as [v|e]; simpl; [|done]. by apply (cc_put_retains now key v _ Hc Hret).
  - intros k. by rewrite Hcv.
  - intros k v. rewrite Hcv, release_cache, notify_cache. intros Hv.
    pose proof (created_value _ _ _ Hv) as Hnn. destruct (Hwh k v Hv) as [(j & tid' & Hj)|Hk].
    + destruct (decide (i = j)) as [<-|Hne].
      * rewrite Hi in Hj. injection Hj as <- <- ->. right. exact (proj1 (proj2 (cc_put_retains now key v _ Hc Hret))).
      * left. exists j, tid'. by rewrite list_lookup_insert_ne.
    + right. destruct r as [v'|e]; simpl; [|done]. apply (cc_put_retains now key v' _ Hc Hret); [|done].
      intros ->. by rewrite (Hab i _ key tid Hi eq_refl v Hk) in Hnn.
  - intros j u k tid' Hj Hu v. rewrite release_cache, notify_cache. intros Hv.
    destruct (decide (k = key)) as [->|Hne]; [by destruct (Hlone _ _ _ Hj Hu)|].
    apply list_lookup_insert_Some in Hj as [(-> & <- & _)|[_ Hj]]; [done|].
    eapply (Hab j u k tid' Hj Hu v). destruct r as [v'|e]; simpl in Hv; [|done].
    apply (cc_put_law now key v' _ Hc) in Hv as [[-> _]|[_ Hv]]; done.
Qed.

Lemma wait_creation_shared key tid w g :
  internal_cache (wait_creation key tid w g).2 = internal_cache g /\
  factory_calls (wait_creation key tid w g).2 = factory_calls g.
Proof.
  unfold wait_creation. destruct (tokens g !! tid) as [t|]; [|done]. destruct (creation_finished t); simpl; [|done].
  by rewrite release_cache, release_calls.
Qed.

Lemma miss_shared key g :
  internal_cache (miss key g).2 = internal_cache g /\ factory_calls (miss key g).2 = factory_calls g /\
  forall k tid, charge (miss key g).1 = Some (k, tid) -> k = key.
Proof.
  unfold miss. destruct (ongoing_creation g !! key) as [tid|]; simpl; [|split_and!; try done; by intros ? ? [= <- _]].
  destruct (wait_creation_shared key tid (next_wait tid g) (join_creation tid g)) as [-> ->].
  split_and!; try done. by destruct (wait_creation_cases key tid (next_wait tid g) (join_creation tid g)) as [->|(tk & ->)].
Qed.

Lemma once_enter ts g i key now :
  once_ok ts g -> ts !! i = Some (Enter key) ->
  once_ok (<[i := (create_step factory now (Enter key) g).1]> ts) (create_step factory now (Enter key) g).2.
Proof.
  intros Hok Hi. destruct (on_flight _ _ Hok) as [c0 Hfl].
  pose proof (create_step_ok _ _ _ _ _ _ now Hfl Hi) as Hok'. simpl in *.
  destruct (cc_get now key (internal_cache g)) as [cached c] eqn:Hg.
  pose proof (fl_cache _ _ _ _ Hfl) as Hc.
  destruct (cc_get_law _ _ _ _ _ Hc Hg) as (_ & Hsub & _).
  destruct (cc_get_retains _ _ _ _ _ Hc (on_retains _ _ Hok) Hg) as (Hret & Hsup & Hheld).
  destruct (miss_shared key (with_cache g c)) as (Hmc & Hmf & Hmk).
  assert ((cached = None \/ exists v, cached = Some v /\ cc_null v = true) ->
    forall v, cc_holds (internal_cache g) key v -> cc_null v = true) as Hnone.
  { intros [->|(v & -> & Hn)] v' Hv'%Hheld; [done|]. by injection Hv' as ->. }
  destruct cached as [v|]; [destruct (cc_null v) eqn:Hn|];
    (eapply once_quiet; [exact Hok|exact Hi|by exists c0|done|rewrite ?Hmf; done|rewrite ?Hmc; done|
      rewrite ?Hmc; by split; auto|]);
    try done; intros k tid ->%Hmk; right; apply Hnone; eauto.
Qed.

Lemma once_step ts g i t now :
  once_ok ts g -> ts !! i = Some t ->
  once_ok (<[i := (create_step factory now t g).1]> ts) (create_step factory now t g).2.
Proof.
  intros Hok Hi. destruct t as [key|key tid w|key tid|key tid r|key r].
  - by apply once_enter.
  - destruct (on_flight _ _ Hok) as [c0 Hfl].
    pose proof (create_step_ok _ _ _ _ _ _ now Hfl Hi) as Hok'. simpl in *.
    destruct (asleep tid w g); [by rewrite list_insert_id|].
    destruct (wait_creation_shared key tid w g) as [Hwc Hwf].
    eapply once_quiet; [exact Hok|exact Hi|by exists c0|done|done|rewrite Hwc; apply Hok|by rewrite Hwc|].
    by destruct (wait_creation_cases key tid w g) as [->|(tk & ->)].
  - by apply once_create.
  - by apply once_publish.
  - simpl. by rewrite list_insert_id.
Qed.

(** A cache without capacity and timeout creates every value once: starting empty, in
    any interleaving of the calls of [GetOrCreate], at most one factory call per key yields
    a value, and any two callers of a key that get a value get the same one; null pointers
    count as no value. *)
Theorem created_at_most_once keys g0 sch :
  cc_ok (internal_cache g0) -> cc_retains (internal_cache g0) -> (forall k v, ~ cc_holds (internal_cache g0) k v) ->
  ongoing_creation g0 = ∅ -> factory_calls g0 = [] ->
  let '(ts, g) := run_schedule (create_step factory) sch (Enter <$> keys) g0 in
  forall k, (length (created_values k g) <= 1)%nat /\
    forall i j v w, ts !! i = Some (Returned k (Ok v)) -> ts !! j = Some (Returned k (Ok w)) ->
      cc_null v = false -> cc_null w = false -> v = w.
Proof.
  intros Hc Hr Hempty Ho Hf.
  pose proof (no_creation_start factory keys g0 Hc Ho Hf) as Hfl.
  assert (forall i (t : caller K V), (Enter <$> keys) !! i = Some t -> charge t = None) as Hs.
  { intros i t. rewrite list_lookup_fmap, fmap_Some. by intros (k & _ & ->). }
  assert (once_ok (Enter <$> keys) g0) as H0'.
  { constructor; [by eexists|done| | |].
    - intros k. unfold created_values. rewrite Hf. simpl. lia.
    - intros k v. unfold created_values. rewrite Hf. intros Hv. inversion Hv.
    - intros i t k tid Hi Ht. rewrite (Hs i t Hi) in Ht. done. }
  pose proof (schedule_inv (create_step factory) once_ok
    (fun ts g i t now Hok Hi => once_step ts g i t now Hok Hi) sch _ _ H0') as Hon.
  pose proof (flight_schedule factory _ sch _ _ Hfl) as Hend.
  destruct (run_schedule (create_step factory) sch (Enter <$> keys) g0) as [ts g]. simpl in *.
  intros k. pose proof (on_once _ _ Hon k) as Hone. split; [done|]. intros i j v w Hi Hj Hv Hw.
  assert (forall i v, ts !! i = Some (Returned k (Ok v)) -> cc_null v = false -> v ∈ created_values k g) as Hin.
  { intros i' v' Hi' Hn. destruct (fl_outcomes _ _ _ _ Hend i' _ Hi') as [Hin|(x & [= <-] & Hx)].
    - unfold created_values. apply list_elem_of_omap. exists (k, Ok v'). split; [done|]. simpl.
      by rewrite decide_True, Hn.
    - by destruct (Hempty k v'). }
  apply (Hin _ _ Hi) in Hv. apply (Hin _ _ Hj) in Hw. destruct (created_values k g) as [|x [|y l]]; simpl in Hone; [inversion Hv| |lia].
  apply list_elem_of_singleton in Hv as ->. by apply list_elem_of_singleton in Hw as ->.
Qed.
End Once.

(** ** A lone caller *)
Section Alone.
Context {C K V : Type} `{Countable K} `{CreationCache C K V}.
Variable factory : Z -> K -> Res V.
Implicit Types (g : flight C K V).

(** Alone, a caller makes the steps of [GetOrCreate], and leaves no creation behind. *)
Lemma GetOrCreate_steps now key g :
  ongoing_creation g = ∅ ->
  let '(ts, g') := run_schedule (create_step factory) [(0%nat, now); (0%nat, now); (0%nat, now)] [Enter key] g in
  ts = [Returned key (GetOrCreate factory now key g).1] /\
  internal_cache g' = internal_cache (GetOrCreate factory now key g).2 /\ ongoing_creation g' = ∅.
Proof.
  intros Ho. simpl. unfold GetOrCreate. destruct (cc_get now key (internal_cache g)) as [[v|] c]; simpl;
    [destruct (cc_null v); [|done]|];
    (unfold miss; simpl; rewrite Ho, lookup_empty; simpl; unfold release_creation, notify_all, on_token;
     destruct (factory now key) as [w|e]; simpl;
     rewrite !list_lookup_alter_eq, lookup_app_r, Nat.sub_diag by lia; simpl;
     (split; [done|]); (split; [done|]); (rewrite delete_insert_id; [done|by rewrite Ho, lookup_empty])).
Qed.

(** What [GetOrCreate] answers and keeps. *)
Lemma GetOrCreate_ok `{!CreationCacheLaws C K V} now key g r g' :
  cc_ok (internal_cache g) -> GetOrCreate factory now key g = (r, g') ->
  cc_ok (internal_cache g') /\ ongoing_creation g' = ongoing_creation g /\ tokens g' = tokens g /\
  ((exists v, r = Ok v /\ cc_holds (internal_cache g) key v) \/ r = factory now key) /\
  forall k v, cc_holds (internal_cache g') k v -> cc_holds (internal_cache g) k v \/ (k = key /\ factory now key = Ok v).
Proof.
  intros Hc Hg. unfold GetOrCreate in Hg. destruct (cc_get now key (internal_cache g)) as [cached c] eqn:Hcg.
  destruct (cc_get_law _ _ _ _ _ Hc Hcg) as (Hc' & Hsub & Hr). destruct cached as [v|]; [destruct (cc_null v)|].
  2:{ injection Hg as <- <-. simpl. split; [done|]. split; [done|]. split; [done|]. split; [left; eauto|auto]. }
  all: destruct (factory now key) as [w|e] eqn:Hf; injection Hg as <- <-; simpl;
    [|split; [done|]; split; [done|]; split; [done|]; split; [by right|]; auto].
  all: destruct (cc_put_law now key w c Hc') as [Hp Hh]; split; [done|]; split; [done|]; split; [done|];
    split; [by right|]; intros k x [[-> ->]|[_ Hw]]%Hh; [by right|left; auto].
Qed.
End Alone.

(** ** Witnesses

    Callers on the shared cache, two of the same key; the factory of ["b"] throws, and the
    one of ["n"] returns a null pointer. *)
Definition null_pointer (p : option Z) : bool := match p with Some _ => false | None => true end.
#[local] Instance sample_creation : CreationCache (lru string (option Z)) string (option Z) := shared_creation null_pointer.
#[local] Instance sample_creation_laws : CreationCacheLaws (lru string (option Z)) string (option Z) :=
  shared_creation_laws null_pointer.

Definition sample_factory (now : Z) (k : string) : Res (option Z) :=
  if String.eqb k "b" then Throw IOException else if String.eqb k "n" then Ok None else Ok (Some now).
Definition sample_flight : flight (lru string (option Z)) string (option Z) := MkFlight (new_lru 0 0) ∅ [] [].
Definition sample_keys : list string := ["a"; "a"; "b"]%string.
Definition sample_round (now : Z) : list (nat * Z) := [(2%nat, now); (1%nat, now); (0%nat, now)].
Definition sample_rounds : list (nat * Z) := sample_round 1 ++ sample_round 2 ++ sample_round 3 ++ sample_round 4.

(** After the first round the second caller of ["a"] sleeps until the third. *)
Example sample_sleeps :
  let run n := run_schedule (create_step sample_factory) (take n sample_rounds) (Enter <$> sample_keys) sample_flight in
  (run 3%nat).1 !! 0%nat = Some (Waiting "a" 1 0)%string /\ asleep 1 0 (run 3%nat).2 = true /\
  asleep 1 0 (run 7%nat).2 = true /\ asleep 1 0 (run 8%nat).2 = false.
Proof. vm_compute. done. Qed.

Example sample_returns :
  (run_schedule (create_step sample_factory) sample_rounds (Enter <$> sample_keys) sample_flight).1 =
  [Returned "a" (Ok (Some 2)); Returned "a" (Ok (Some 2)); Returned "b" (Throw IOException)]%string.
Proof. vm_compute. reflexivity. Qed.

Lemma sample_round_ok now : round (sample_round now) (length sample_keys).
Proof. intros i Hi. simpl in *. rewrite !elem_of_cons. lia. Qed.

Lemma sample_flight_start : cc_ok (internal_cache sample_flight) /\ cc_retains (internal_cache sample_flight) /\
  forall k v, ~ cc_holds (internal_cache sample_flight) k v.
Proof.
  destruct (new_lru_ok (K := string) (V := option Z) 0 0) as [Hw Hv]. split; [done|]. split; [done|].
  intros k v [ts Hin]. simpl in Hin. rewrite Hv in Hin. inversion Hin.
Qed.

(** A null value leaves the callers that waited for it asleep for ever: they test a
    predicate that stays false. *)
Lemma null_value_strands_waiters sch :
  exists w, (run_schedule (create_step sample_factory)
    ([(0%nat, 0); (1%nat, 0); (0%nat, 0); (0%nat, 0)] ++ sch) (Enter <$> ["n"; "n"]%string) sample_flight).1 !! 1%nat =
    Some (Waiting "n"%string 0 w).
Proof.
  rewrite run_schedule_app. set (start := run_schedule _ [_; _; _; _] _ _).
  set (stuck := fun (ts : list (caller string (option Z))) (g : flight (lru string (option Z)) string (option Z)) =>
    (exists w, ts = [Returned "n" (Ok None); Waiting "n" 0 w]%string) /\
    exists t, tokens g !! 0%nat = Some t /\ creation_finished t = false).
  assert (stuck start.1 start.2) as Hs by (split; [exists 0%nat|eexists]; vm_compute; by try split).
  apply (schedule_inv (create_step sample_factory) stuck) with (sch := sch) in Hs; [by destruct Hs as [[w ->] _]; exists w|].
  intros ts g i t now [[w ->] (tk & Htk & Hf)] Hi.
  destruct i as [|[|i]]; [| |done]; injection Hi as <-; simpl; [by split; eauto|].
  destruct (asleep 0 w g); [by split; eauto|]. unfold wait_creation. rewrite Htk, Hf. simpl. split; [eauto|].
  eexists. unfold fall_asleep, on_token. simpl. by rewrite list_lookup_alter_eq, Htk.
Qed.

Lemma creation_is_single_flight_witness :
  (exists now, Ok (Some 2) = sample_factory now "a") \/
  exists v, Ok (Some 2) = Ok v /\ cc_holds (internal_cache sample_flight) "a"%string v.
Proof.
  pose proof (run_schedule_run (create_step sample_factory) (fun _ _ => False) sample_rounds (Enter <$> sample_keys)
    sample_flight) as Hrun.
  destruct (creation_is_single_flight sample_factory (fun _ _ => False) sample_keys sample_flight _ _
    (fun _ _ f => False_ind _ f) (proj1 sample_flight_start) eq_refl eq_refl Hrun) as [_ Hret].
  apply (Hret 0%nat). rewrite sample_returns. done.
Defined.

Lemma every_creation_returns_witness :
  exists r, (run_schedule (create_step sample_factory) sample_rounds (Enter <$> sample_keys) sample_flight).1 !! 0%nat =
    Some (Returned "a"%string r).
Proof.
  apply (every_creation_returns sample_factory sample_keys sample_flight (sample_round 1) (sample_round 2)
    (sample_round 3) (sample_round 4)); try apply sample_round_ok; [apply sample_flight_start|done|done|done|].
  intros now v [= <-]. reflexivity.
Defined.

Lemma created_at_most_once_witness :
  let '(ts, g) := run_schedule (create_step sample_factory) sample_rounds (Enter <$> sample_keys) sample_flight in
  forall k, (length (created_values k g) <= 1)%nat /\
    forall i j v w, ts !! i = Some (Returned k (Ok v)) -> ts !! j = Some (Returned k (Ok w)) ->
      cc_null v = false -> cc_null w = false -> v = w.
Proof.
  destruct sample_flight_start as (H1 & H2 & H3).
  exact (created_at_most_once sample_factory sample_keys sample_flight sample_rounds H1 H2 H3 eq_refl eq_refl).
Defined.
