(* ===== verification/ExtensionStorage.v ===== *)
(** * ExtensionStorage

    [ExtensionBoundedDataCacheStorage] ([src/src/extension_bounded_data_cache_storage.cpp]):
    the backend bounded by entry count and entry age, a [SharedValueLruCache] of
    blocks; it discharges the laws of [DataStorage]. *)
From S2P Require Import Prelude StdList OrdMap Blocks DataStorage LruCache LruSpec LruProofs.

#[local] Open Scope Z_scope.

Module ExtensionBoundedDataCacheStorage.
Import SharedValueLruCache.

Definition storage : Type := lru InMemCacheBlock InMemCacheDataEntry.

(** The constructor. *)
Definition new_storage (max timeout : Z) : storage := new_lru max timeout.

Definition Put (now : Z) (key : InMemCacheBlock) (chunk : PageAlignedDataChunk) (tag : string)
    (s : storage) : Res storage :=
  Ok (SharedValueLruCache.Put now key (MkEntry chunk tag) s).

Definition Get (now : Z) (key : InMemCacheBlock) (expected_version_tag : string) (s : storage) :
    option PageAlignedDataChunk * storage :=
  let '(entry, s') := SharedValueLruCache.Get now key s in
  match entry with
  | None => (None, s')
  | Some entry =>
      if negb (ValidateVersionTag (version_tag entry) expected_version_tag) then
        (None, (SharedValueLruCache.Delete key s').2)
      else (Some (entry_data entry), s')
  end.

Definition Delete (key : InMemCacheBlock) (s : storage) : bool * storage :=
  SharedValueLruCache.Delete key s.

Definition Clear (s : storage) : storage := SharedValueLruCache.Clear s.

Definition ClearFrom (start_key : InMemCacheBlock) (filter : InMemCacheBlock -> bool)
    (s : storage) : storage := SharedValueLruCache.ClearFrom start_key filter s.

Definition Keys (s : storage) : list InMemCacheBlock := SharedValueLruCache.Keys s.

Definition Take (clock : nat -> Z) (s : storage) :
    Res (list (InMemCacheBlock * InMemCacheDataEntry)) * storage :=
  SharedValueLruCache.Take clock s.
End ExtensionBoundedDataCacheStorage.

Import ExtensionBoundedDataCacheStorage.

#[export] Instance extension_storage : InMemoryDataCacheStorage storage := {
  DataStorage.Put := Put;
  DataStorage.Get := Get;
  DataStorage.Delete := Delete;
  DataStorage.Clear := Clear;
  DataStorage.ClearFrom := ClearFrom;
  DataStorage.Keys := Keys;
  DataStorage.Take := Take
}.

(** ** Laws *)
Definition ext_ok (s : storage) : Prop :=
  lru_wf s /\ Forall (fun p : InMemCacheBlock * (InMemCacheDataEntry * Z) => key_ok p.1) (view s).

Definition ext_holds (s : storage) (k : InMemCacheBlock) (e : InMemCacheDataEntry) : Prop :=
  exists ts, (k, (e, ts)) ∈ view s.

Lemma ext_holds_functional s k e e' : ext_ok s -> ext_holds s k e -> ext_holds s k e' -> e = e'.
Proof.
  intros [Hw _] [ts H1] [ts' H2]. apply elem_of_view in H1 as (x & Hx & <- & _); [|done].
  apply elem_of_view in H2 as (y & Hy & <- & _); [|done]. congruence.
Qed.

Lemma ext_ok_sub s s' :
  lru_wf s' -> (forall p, p ∈ view s' -> p ∈ view s) -> ext_ok s -> ext_ok s'.
Proof. intros Hw Hs [_ Hk]. split; [done|]. rewrite Forall_forall in *. auto. Qed.

Lemma ext_Put_ok now k c t s :
  ext_ok s -> key_ok k ->
  ext_ok (SharedValueLruCache.Put now k (MkEntry c t) s) /\
  forall k' e, ext_holds (SharedValueLruCache.Put now k (MkEntry c t) s) k' e ->
    (k' = k /\ e = MkEntry c t) \/ ext_holds s k' e.
Proof.
  intros [Hw Hk] Hkey. destruct (Shared.Put_refines now k (MkEntry c t) s Hw) as (H1 & H2 & _).
  assert (forall p, p ∈ view (SharedValueLruCache.Put now k (MkEntry c t) s) ->
            p = (k, (MkEntry c t, u64 now)) \/ p ∈ view s) as Hsub.
  { intros p Hp. rewrite H2 in Hp. apply elem_of_spec_put in Hp as [|[]]; auto. }
  split.
  - split; [done|]. rewrite Forall_forall in *. intros p [->|Hp]%Hsub; auto.
  - intros k' e [ts [[= -> -> _]|Hp]%Hsub]; [by left|right; by exists ts].
Qed.

Lemma ext_Delete_ok k s b s' :
  ext_ok s -> SharedValueLruCache.Delete k s = (b, s') ->
  ext_ok s' /\ (b = true <-> exists e, ext_holds s k e) /\
  (forall k' e, ext_holds s' k' e <-> ext_holds s k' e /\ k' <> k).
Proof.
  intros Hok Hd. pose proof Hok as [Hw _]. destruct (Shared.Delete_refines k s Hw) as (H1 & H2 & H3).
  rewrite Hd in *. simpl in *. split.
  - eapply ext_ok_sub; [done| |done]. intros p. rewrite H3, elem_of_spec_remove. tauto.
  - split.
    + rewrite H2, bool_decide_eq_true. split.
      * intros [[e ts] Hf]. apply spec_find_Some in Hf; [|by apply NoDup_view]. by exists e, ts.
      * intros (e & ts & Hin). apply spec_find_Some in Hin; [|by apply NoDup_view]. eauto.
    + intros k' e. unfold ext_holds. rewrite H3. setoid_rewrite elem_of_spec_remove. simpl.
      split; [intros (ts & ? & ?); eauto|intros [[ts ?] ?]; eauto].
Qed.

Lemma ext_Get_ok now k t s r s' :
  ext_ok s -> Get now k t s = (r, s') ->
  ext_ok s' /\ (forall k' e, ext_holds s' k' e -> ext_holds s k' e) /\
  (forall c, r = Some c -> exists e, ext_holds s k e /\ entry_data e = c /\
     ValidateVersionTag (version_tag e) t = true).
Proof.
  intros Hok Hg. pose proof Hok as [Hw _]. unfold Get in Hg.
  destruct (Shared.Get_refines now k s Hw) as (H1 & H2 & H3 & _ & _).
  destruct (SharedValueLruCache.Get now k s) as [o s1] eqn:Hgs. simpl in *.
  assert (forall p, p ∈ view s1 -> p ∈ view s) as Hsub.
  { intros p Hp. rewrite H3 in Hp. eapply elem_of_spec_get; [done|by apply NoDup_view]. }
  pose proof (ext_ok_sub s s1 H1 Hsub Hok) as Hok1.
  assert (forall k' e, ext_holds s1 k' e -> ext_holds s k' e) as Hh1
    by (intros k' e [ts Hts]; exists ts; auto).
  destruct o as [e|]; [|by simplify_eq].
  destruct (ValidateVersionTag (version_tag e) t) eqn:Hv; simpl in Hg; simplify_eq.
  - split; [done|]. split; [done|]. intros ? [= <-]. exists e. split; [|done].
    symmetry in H2. apply spec_get_value in H2 as [ts Hin]; [by exists ts|by apply NoDup_view].
  - destruct (SharedValueLruCache.Delete k s1) as [b s2] eqn:Hd.
    destruct (ext_Delete_ok k s1 b s2 Hok1 Hd) as (Hok2 & _ & Hh2). simpl. split; [done|].
    split; [|done]. intros k' e' [He _]%Hh2. auto.
Qed.

Lemma ext_key_ok s k : ext_ok s -> is_Some (entry_map s !! k) -> key_ok k.
Proof.
  intros [Hw Hk] [e He]. rewrite Forall_forall in Hk.
  apply (Hk (k, (value e, timestamp e))). apply elem_of_view; eauto.
Qed.

Lemma ext_ClearFrom_ok f s :
  ext_ok s ->
  ext_ok (ClearFrom (file_start_key f) (file_filter f) s) /\
  forall k e, ext_holds (ClearFrom (file_start_key f) (file_filter f) s) k e <->
              ext_holds s k e /\ fname k <> f.
Proof.
  intros Hok. pose proof Hok as [Hw _].
  destruct (Shared.ClearFrom_refines (file_start_key f) (file_filter f) s Hw) as [H1 H2].
  - intros a Ha Hf%String.eqb_eq. apply ext_key_ok in Ha as []; [|done]. apply file_block_start; [lia|lia|done].
  - intros a b Ha Hb Hs Hab Hf%String.eqb_eq. apply String.eqb_eq. by eapply file_block_convex.
  - assert (forall p, p ∈ view (ClearFrom (file_start_key f) (file_filter f) s) <->
              p ∈ view s /\ fname p.1 <> f) as Hin.
    { intros p. unfold ClearFrom. rewrite H2. unfold spec_clear, file_filter.
      rewrite list_elem_of_filter, Is_true_true, negb_true_iff, String.eqb_neq. tauto. }
    split; [eapply ext_ok_sub; [done| |done]; intros p; rewrite Hin; tauto|].
    intros k e. unfold ext_holds. setoid_rewrite Hin. simpl.
    split; [intros (ts & ? & ?); eauto|intros [[ts ?] ?]; eauto].
Qed.

Lemma ext_Take_ok clock s :
  ext_ok s ->
  exists r s', Take clock s = (Ok r, s') /\ ext_ok s' /\ (forall k e, ~ ext_holds s' k e) /\
    NoDup (fst <$> r) /\ forall k e, (k, e) ∈ r -> ext_holds s k e.
Proof.
  intros [Hw Hk].
  destruct (Shared.Take_refines clock s Hw) as (r & s' & Ht & Hw' & Hv & _ & _ & Hnd & Hin & _).
  exists r, s'. split; [done|]. split; [split; [done|by rewrite Hv]|].
  split; [intros k e [ts He]; rewrite Hv in He; inversion He|].
  split; [done|]. intros k e He. destruct (Hin k e He) as (ts & _ & Hx & _). by exists ts.
Qed.

#[export] Program Instance extension_storage_laws : StorageLaws storage := {|
  storage_ok := ext_ok;
  holds := ext_holds
|}.
Next Obligation. apply ext_holds_functional. Qed.
Next Obligation. simpl. intros now k c t s s' Hok Hk [= <-]. by apply ext_Put_ok. Qed.
Next Obligation. simpl. unfold Put. eauto. Qed.
Next Obligation. simpl. apply ext_Get_ok. Qed.
Next Obligation.
  simpl. intros k s b s' Hok Hd. destruct (ext_Delete_ok k s b s' Hok Hd) as (H1 & H2 & H3).
  split; [done|]. split; [|done]. intros e He. apply H2. by exists e.
Qed.
Next Obligation.
  simpl. intros s Hok. destruct (clear_ok s) as [H1 H2]. split; [split; [done|]|].
  - unfold Clear, SharedValueLruCache.Clear. by rewrite H2.
  - intros k e [ts Hin]. unfold Clear, SharedValueLruCache.Clear in Hin. rewrite H2 in Hin. inversion Hin.
Qed.
Next Obligation. simpl. apply ext_ClearFrom_ok. Qed.
Next Obligation.
  simpl. intros s k e [Hw _] [ts Hin]. unfold Keys. rewrite Shared.elem_of_Keys by done.
  apply list_elem_of_fmap. by exists (k, (e, ts)).
Qed.
Next Obligation. simpl. apply ext_Take_ok. Qed.

Lemma new_storage_ok max timeout : ext_ok (new_storage max timeout).
Proof.
  split; [apply new_lru_ok|]. unfold new_storage. by rewrite (proj2 (new_lru_ok max timeout)).
Qed.
