(* ===== verification/MultiLru.v ===== *)
(** * MultiLru

    [ExclusiveMultiLruCache] ([src/src/utils/include/exclusive_multi_lru_cache.hpp]):
    the LRU cache of the file handles, which keeps several exclusive values per key
    (a deque, oldest first) and hands values out one at a time. *)
From S2P Require Import Prelude StdList OrdMap LruCache.

#[local] Open Scope Z_scope.

(** ** Operations *)
Module ExclusiveMultiLruCache.

Record multi_lru (K V : Type) `{Countable K} := MkMulti {
  total_entries_num : Z;
  max_entries : Z;
  timeout_millisec : Z;
  entry_map : gmap K (list (Entry V));
  lru_list : slist K
}.
Arguments MkMulti {_ _ _ _} _ _ _ _ _.
Arguments total_entries_num {_ _ _ _} _.
Arguments max_entries {_ _ _ _} _.
Arguments timeout_millisec {_ _ _ _} _.
Arguments entry_map {_ _ _ _} _.
Arguments lru_list {_ _ _ _} _.

Section Ops.
Context {K V : Type} `{Countable K} `{KeyCompare K}.
Implicit Types (c : multi_lru K V) (k key : K) (e : Entry V) (now : Z).

Record GetAndPopResult := MkPopped { evicted_items : list V; target_item : option V }.

Definition new_multi (max timeout : Z) : multi_lru K V := MkMulti 0 max timeout ∅ sl_empty.

Definition set_state c (n : Z) (m : gmap K (list (Entry V))) (l : slist K) : multi_lru K V :=
  MkMulti n (max_entries c) (timeout_millisec c) m l.

(** [DeleteFirstEntry] on the iterator of [key], whose deque is [entries]. *)
Definition DeleteFirstEntry key (entries : list (Entry V)) c : Res V * multi_lru K V :=
  match entries with
  | [] => (Throw AssertionFailure, c)
  | e :: rest =>
      (Ok (value e),
       set_state c (total_entries_num c -u 1)
         (match rest with
          | [] => delete key (entry_map c)
          | _ => <[key := rest]> (entry_map c)
          end)
         (erase (lru_iterator e) (lru_list c)))
  end.

Definition Put now key (v : V) c : Res (option V) * multi_lru K V :=
  let new_entry := MkLruEntry v (u64 now) (next_iter (lru_list c)) in
  let c1 := set_state c (total_entries_num c +u 1)
              (<[key := default [] (entry_map c !! key) ++ [new_entry]]> (entry_map c))
              (emplace_front key (lru_list c)) in
  if (0 <? max_entries c1) && (max_entries c1 <? total_entries_num c1) then
    match back (lru_list c1) ≫= fun stale_key => (stale_key,.) <$> entry_map c1 !! stale_key with
    | None => (Throw AssertionFailure, c1)
    | Some (stale_key, entries) =>
        let '(r, c2) := DeleteFirstEntry stale_key entries c1 in
        (evicted_val ← r; Ok (Some evicted_val), c2)
    end
  else (Ok None, c1).

(** The loop that drops the stale entries of [key]; [cur_entries_size] counts the
    entries left. *)
Fixpoint drop_stale (cur_entries_size : nat) now key (evicted : list V) c :
    Res (list V * nat) * multi_lru K V :=
  match cur_entries_size with
  | O => (Ok (evicted, O), c)
  | S n =>
      match default [] (entry_map c !! key) with
      | [] => (Throw UndefinedBehaviour, c) (* [front] of an empty deque *)
      | (cur_entry :: _) as entries =>
          if timeout_millisec c <? now -u timestamp cur_entry then
            let '(r, c') := DeleteFirstEntry key entries c in
            match r with
            | Ok v => drop_stale n now key (evicted ++ [v]) c'
            | Throw ex => (Throw ex, c')
            end
          else (Ok (evicted, cur_entries_size), c)
      end
  end.

Definition GetAndPop now key c : Res GetAndPopResult * multi_lru K V :=
  match entry_map c !! key with
  | None => (Ok (MkPopped [] None), c)
  | Some entries =>
      let '(dropped, c1) :=
        if 0 <? timeout_millisec c then drop_stale (length entries) now key [] c
        else (Ok ([], length entries), c) in
      match dropped with
      | Throw ex => (Throw ex, c1)
      | Ok (evicted, cur_entries_size) =>
          if (0 <? timeout_millisec c) && Nat.eqb cur_entries_size 0 then
            (Ok (MkPopped evicted None), c1)
          else
            let '(r, c2) := DeleteFirstEntry key (default [] (entry_map c1 !! key)) c1 in
            (v ← r; Ok (MkPopped evicted (Some v)), c2)
      end
  end.

(** [ClearAndGetValues ()]: key by key, each deque from its front. *)
Definition ClearAndGetValues c : list V * multi_lru K V :=
  (concat ((fun key => value <$> default [] (entry_map c !! key)) <$> sorted_keys (entry_map c)),
   set_state c 0 ∅ (sl_clear (lru_list c))).

(** The loop over [keys_to_delete]. *)
Fixpoint clear_keys (keys : list K) (vals : list V) c : Res (list V) * multi_lru K V :=
  match keys with
  | [] => (Ok vals, c)
  | key :: keys' =>
      match entry_map c !! key with
      | None => (Throw AssertionFailure, c)
      | Some entries =>
          clear_keys keys' (vals ++ (value <$> entries))
            (set_state c (total_entries_num c -u Z.of_nat (length entries))
               (delete key (entry_map c))
               (fold_left (fun l e => erase (lru_iterator e) l) entries (lru_list c)))
      end
  end.

(** [ClearAndGetValues (start_key, key_filter)]. *)
Definition ClearAndGetValuesFrom (start_key : K) (key_filter : K -> bool) c :
    Res (list V) * multi_lru K V :=
  clear_keys (take_while key_filter (keys_from start_key (entry_map c))) [] c.

Definition Verify c : bool :=
  let counts := (fun p => length p.2) <$> map_to_list (entry_map c) in
  forallb (fun n => negb (Nat.eqb n 0)) counts &&
  (sum_Z (Z.of_nat <$> counts) =? total_entries_num c) &&
  (Z.of_nat (size (lru_list c)) =? total_entries_num c).
End Ops.
End ExclusiveMultiLruCache.
Import ExclusiveMultiLruCache.

(** ** Abstraction

    The entries from the most to the least recently inserted, each with the
    identifier of its node. *)
Section Abstraction.
Context {K V : Type} `{Countable K} `{KeyCompare K}.
Implicit Types (c : multi_lru K V) (k key : K) (e : Entry V) (now : Z).

Abbreviation item := (N * (K * (V * Z)))%type.
Implicit Types (a : list item) (x : item).

Definition entry_of_item k x : option (Entry V) :=
  if decide (x.2.1 = k) then Some (MkLruEntry x.2.2.1 x.2.2.2 x.1) else None.

(** The deque of a key: its items, oldest first. *)
Definition entries_for k a : list (Entry V) := reverse (omap (entry_of_item k) a).

Record represents c a : Prop := {
  rep_nodes : nodes (lru_list c) = (fun x => (x.1, x.2.1)) <$> a;
  rep_wf : sl_wf (lru_list c);
  rep_map k : entry_map c !! k = match entries_for k a with [] => None | es => Some es end;
  rep_total : total_entries_num c = Z.of_nat (length a);
  rep_max : 0 < max_entries c -> Z.of_nat (length a) <= max_entries c;
  rep_small : Z.of_nat (length a) < two64
}.

Definition item_value x : V := x.2.2.1.
Definition held a : list V := item_value <$> a.

Lemma entries_for_cons k x a :
  entries_for k (x :: a) = entries_for k a ++ option_list (entry_of_item k x).
Proof.
  unfold entries_for. simpl. destruct (entry_of_item k x); simpl; [by rewrite reverse_cons|by rewrite app_nil_r].
Qed.

Lemma entries_for_app k a1 a2 : entries_for k (a1 ++ a2) = entries_for k a2 ++ entries_for k a1.
Proof. unfold entries_for. by rewrite omap_app, reverse_app. Qed.

(** The front of a deque is the oldest item of its key. *)
Lemma entries_for_oldest k a e es :
  entries_for k a = e :: es ->
  exists a1 a2, a = a1 ++ (lru_iterator e, (k, (value e, timestamp e))) :: a2 /\
    entries_for k a2 = [] /\ entries_for k a1 = es.
Proof.
  revert es. induction a as [|x a IH] using rev_ind; intros es; [done|].
  rewrite entries_for_app, entries_for_cons. unfold entries_for at 1. simpl.
  unfold entry_of_item. case_decide as Hk; simpl.
  - intros [= <- <-]. simpl. exists a, []. split; [|done].
    destruct x as [i [k' [v ts]]]. simpl in *. by subst.
  - intros He. destruct (IH es He) as (a1 & a2 & -> & H1 & H2). exists a1, (a2 ++ [x]).
    rewrite <-app_assoc. split; [done|]. split; [|done].
    rewrite entries_for_app, H1, entries_for_cons. unfold entry_of_item.
    by rewrite decide_False by done.
Qed.

Lemma entries_for_remove_ne k k' a1 x a2 :
  x.2.1 = k -> k' <> k -> entries_for k' (a1 ++ x :: a2) = entries_for k' (a1 ++ a2).
Proof.
  intros Hx Hk. rewrite !entries_for_app, entries_for_cons. unfold entry_of_item.
  rewrite decide_False by congruence. by rewrite app_nil_r.
Qed.

Lemma represents_NoDup c a : represents c a -> NoDup a.*1.
Proof.
  intros Hr. pose proof (proj1 (rep_wf _ _ Hr)) as Hnd. unfold ids in Hnd.
  rewrite (rep_nodes _ _ Hr), <-list_fmap_compose in Hnd. done.
Qed.

Lemma erase_nodes_split (a1 : list item) x a2 :
  NoDup (a1 ++ x :: a2).*1 ->
  erase_nodes x.1 ((fun x : item => (x.1, x.2.1)) <$> (a1 ++ x :: a2)) =
  (fun x : item => (x.1, x.2.1)) <$> (a1 ++ a2).
Proof.
  rewrite fmap_app, fmap_cons. intros (Hnd1 & Hd & Hnd2)%NoDup_app. apply NoDup_cons in Hnd2 as [Hx Hnd2].
  unfold erase_nodes. rewrite !fmap_app, fmap_cons, filter_app, filter_cons_False by (simpl; tauto).
  f_equal; apply filter_all, Forall_forall; intros [i k] ([j p] & [= -> ->] & Hin)%list_elem_of_fmap; simpl; intros ->.
  - apply (Hd x.1); [|constructor]. apply list_elem_of_fmap. by exists (x.1, p).
  - apply Hx. apply list_elem_of_fmap. by exists (x.1, p).
Qed.

Lemma DeleteFirstEntry_ok c a k e es :
  represents c a -> entries_for k a = e :: es ->
  exists a1 a2 c', a = a1 ++ (lru_iterator e, (k, (value e, timestamp e))) :: a2 /\
    entries_for k a2 = [] /\
    DeleteFirstEntry k (e :: es) c = (Ok (value e), c') /\ represents c' (a1 ++ a2) /\
    max_entries c' = max_entries c /\ timeout_millisec c' = timeout_millisec c.
Proof.
  intros Hr He. destruct (entries_for_oldest k a e es He) as (a1 & a2 & Ha & H2 & H1).
  exists a1, a2. eexists. do 2 (split; [done|]). split; [reflexivity|]. split; [|done].
  pose proof (represents_NoDup _ _ Hr) as Hnd. rewrite Ha in Hnd.
  assert (length a = S (length (a1 ++ a2))) as Hlen by (rewrite Ha, !length_app; simpl; lia).
  pose proof (rep_small _ _ Hr). constructor; simpl.
  - rewrite (rep_nodes _ _ Hr), Ha. by apply erase_nodes_split in Hnd.
  - apply sl_wf_erase, Hr.
  - intros k'. destruct (decide (k' = k)) as [->|Hne].
    + rewrite entries_for_app, H2, H1. simpl. destruct es; by simplify_map_eq.
    + pose proof (rep_map _ _ Hr k') as Hm. rewrite Ha in Hm.
      rewrite (entries_for_remove_ne k) in Hm by done. destruct es; by simplify_map_eq.
  - rewrite (rep_total _ _ Hr), u64_small by lia. lia.
  - intros Hp. pose proof (rep_max _ _ Hr Hp). lia.
  - lia.
Qed.

(** *** Specification *)
Definition abs a : list (K * (V * Z)) := snd <$> a.

Fixpoint remove_oldest k (l : list (K * (V * Z))) : option ((V * Z) * list (K * (V * Z))) :=
  match l with
  | [] => None
  | p :: l' =>
      match remove_oldest k l' with
      | Some (x, l'') => Some (x, p :: l'')
      | None => if decide (p.1 = k) then Some (p.2, l') else None
      end
  end.

(** The oldest values of [k], dropped while they are stale, then handed out. *)
Fixpoint spec_take (fuel : nat) (timeout now : Z) k (l : list (K * (V * Z))) :
    list V * option V * list (K * (V * Z)) :=
  match fuel with
  | O => ([], None, l)
  | S fuel =>
      match remove_oldest k l with
      | None => ([], None, l)
      | Some ((v, ts), l') =>
          if (0 <? timeout) && (timeout <? now -u ts) then
            let '(evicted, target, l'') := spec_take fuel timeout now k l' in
            (v :: evicted, target, l'')
          else ([], Some v, l')
      end
  end.

Definition spec_multi_put (max now : Z) k (v : V) (l : list (K * (V * Z))) :
    option V * list (K * (V * Z)) :=
  let l' := (k, (v, now)) :: l in
  if (0 <? max) && (max <? Z.of_nat (length l')) then
    ((fun p => p.2.1) <$> last l', removelast l')
  else (None, l').

Lemma remove_oldest_None k l : remove_oldest k l = None <-> k ∉ l.*1.
Proof.
  induction l as [|p l IH]; simpl; [split; [intros _ Hin; inversion Hin|done]|].
  rewrite not_elem_of_cons. destruct (remove_oldest k l) as [[x l']|].
  - split; [done|]. intros [_ Hk]. apply IH in Hk. done.
  - case_decide as Hd; [split; [done|intros []; congruence]|].
    split; [|done]. intros _. split; [congruence|]. by apply IH.
Qed.

Lemma remove_oldest_split k l1 (q : V * Z) l2 :
  k ∉ l2.*1 -> remove_oldest k (l1 ++ (k, q) :: l2) = Some (q, l1 ++ l2).
Proof.
  intros Hn. apply remove_oldest_None in Hn. induction l1 as [|p l1 IH]; simpl.
  - rewrite Hn. by rewrite decide_True.
  - by rewrite IH.
Qed.

Lemma entries_for_nil_iff k a : entries_for k a = [] <-> k ∉ (abs a).*1.
Proof.
  unfold abs. induction a as [|x a IH].
  { split; [intros _ Hin; inversion Hin|done]. }
  rewrite entries_for_cons, !fmap_cons, not_elem_of_cons, <-IH. unfold entry_of_item.
  case_decide as Hd; simpl.
  - split; [intros Hx; by apply app_eq_nil in Hx as []|intros []; congruence].
  - rewrite app_nil_r. split; [intros; split; [congruence|done]|tauto].
Qed.

Lemma abs_remove_oldest k a1 i (q : V * Z) a2 :
  entries_for k a2 = [] ->
  remove_oldest k (abs (a1 ++ (i, (k, q)) :: a2)) = Some (q, abs (a1 ++ a2)).
Proof.
  intros Hn%entries_for_nil_iff. unfold abs in *. rewrite !fmap_app, fmap_cons. simpl.
  by apply remove_oldest_split.
Qed.

Lemma length_abs a : length (abs a) = length a.
Proof. apply length_fmap. Qed.

Lemma new_multi_represents max timeout : represents (new_multi max timeout : multi_lru K V) [].
Proof. constructor; simpl; try done; [apply sl_wf_empty|lia]. Qed.

Lemma Put_represents now k v c a :
  represents c a -> Z.of_nat (length a) + 1 < two64 ->
  exists evicted c' a', ExclusiveMultiLruCache.Put now k v c = (Ok evicted, c') /\ represents c' a' /\
    (evicted, abs a') = spec_multi_put (max_entries c) (u64 now) k v (abs a) /\
    v :: held a ≡ₚ held a' ++ option_list evicted /\
    max_entries c' = max_entries c /\ timeout_millisec c' = timeout_millisec c.
Proof.
  intros Hr Hsm. set (new := (next_iter (lru_list c), (k, (v, u64 now))) : item).
  unfold ExclusiveMultiLruCache.Put. set (c1 := set_state c _ _ _).
  assert (forall k', entry_map c1 !! k' = match entries_for k' (new :: a) with [] => None | es => Some es end) as Hmap.
  { intros k'. unfold c1. simpl. rewrite entries_for_cons. unfold entry_of_item. simpl.
    pose proof (rep_map _ _ Hr k') as Hm. destruct (decide (k = k')) as [<-|Hne].
    - rewrite lookup_insert_eq, Hm. simpl. by destruct (entries_for k a).
    - rewrite lookup_insert_ne by done. simpl. by rewrite app_nil_r. }
  assert (nodes (lru_list c1) = (fun x => (x.1, x.2.1)) <$> new :: a) as Hnodes
    by (unfold c1; simpl; by rewrite (rep_nodes _ _ Hr)).
  assert (sl_wf (lru_list c1)) as Hwf by (apply sl_wf_emplace_front, Hr).
  assert (total_entries_num c1 = Z.of_nat (length (new :: a))) as Htot.
  { unfold c1. cbn [set_state total_entries_num length]. rewrite (rep_total _ _ Hr), u64_small by lia. lia. }
  unfold spec_multi_put. rewrite Htot.
  replace (Z.of_nat (length ((k, (v, u64 now)) :: abs a))) with (Z.of_nat (length (new :: a)))
    by (cbn [length]; by rewrite length_abs).
  change (max_entries c1) with (max_entries c).
  destruct ((0 <? max_entries c) && (max_entries c <? Z.of_nat (length (new :: a)))) eqn:Hov.
  - apply andb_true_iff in Hov as [Hp%Z.ltb_lt Hov%Z.ltb_lt].
    pose proof (rep_max _ _ Hr Hp) as Hmx.
    destruct (exists_last (l := new :: a)) as (a0 & x & Hlast); [done|].
    assert (represents (MkMulti (total_entries_num c1) 0 (timeout_millisec c1) (entry_map c1) (lru_list c1)) (new :: a))
      as Hr1 by (constructor; simpl; try done; cbn [length] in *; lia).
    assert (back (lru_list c1) = Some x.2.1) as Hback.
    { unfold back. rewrite Hnodes, Hlast, fmap_app. simpl. by rewrite last_snoc. }
    rewrite Hback. unfold mbind, option_bind. rewrite Hmap.
    assert (entries_for x.2.1 (new :: a) = MkLruEntry x.2.2.1 x.2.2.2 x.1 :: entries_for x.2.1 a0) as Hent.
    { rewrite Hlast, entries_for_app, entries_for_cons. unfold entry_of_item at 1.
      by rewrite decide_True by done. }
    rewrite Hent. cbn [fmap option_fmap option_map].
    destruct (DeleteFirstEntry_ok _ _ _ _ _ Hr1 Hent) as (a1 & a2 & c' & Ha & H2 & Hd & Hr' & _ & _).
    assert (a1 = a0 /\ a2 = []) as [-> ->].
    { cbn [lru_iterator value timestamp] in Ha. rewrite Ha in Hlast. clear -Hlast H2.
      destruct a2 as [|y a2 _] using rev_ind; [by apply app_inj_tail in Hlast as [-> _]|].
      rewrite app_comm_cons, app_assoc in Hlast. apply app_inj_tail in Hlast as [_ ->].
      rewrite entries_for_app, entries_for_cons in H2. unfold entry_of_item in H2.
      by rewrite decide_True in H2 by done. }
    unfold DeleteFirstEntry in *. cbn [value] in *. injection Hd as <-. rewrite app_nil_r in Hr'.
    eexists _, _, a0. split; [reflexivity|]. split; [|split; [|split; [|done]]].
    + destruct Hr'. constructor; try done. intros _. simpl.
      assert (length (new :: a) = S (length a0)) as Hl by (rewrite Hlast, length_app; simpl; lia).
      cbn [length] in Hl. lia.
    + assert ((k, (v, u64 now)) :: abs a = abs a0 ++ [x.2]) as ->.
      { change ((k, (v, u64 now)) :: abs a) with (abs (new :: a)). rewrite Hlast. unfold abs.
        by rewrite fmap_app. }
      by rewrite last_snoc, removelast_last.
    + change (v :: held a) with (held (new :: a)). rewrite Hlast. unfold held. by rewrite fmap_app.
  - exists None, c1, (new :: a). split; [done|]. split; [|split; [done|split; [|done]]].
    + constructor; try done; [|cbn [length]; lia]. intros Hp. apply andb_false_iff in Hov as [Hf|Hf].
      * apply Z.ltb_ge in Hf. change (max_entries c1) with (max_entries c) in Hp. lia.
      * by apply Z.ltb_ge in Hf.
    + by rewrite app_nil_r.
Qed.

Lemma count_entries k a1 x a2 :
  x.2.1 = k -> length (entries_for k (a1 ++ x :: a2)) = S (length (entries_for k (a1 ++ a2))).
Proof.
  intros Hx. rewrite !entries_for_app, entries_for_cons. unfold entry_of_item.
  rewrite decide_True by done. simpl. rewrite !length_app. simpl. lia.
Qed.

Lemma represents_lookup c a k : represents c a -> default [] (entry_map c !! k) = entries_for k a.
Proof. intros Hr. rewrite (rep_map _ _ Hr). by destruct (entries_for k a). Qed.

(** The outcome of a lookup: what the cache becomes and what it gives out. *)
Definition popped c a (ev : list V) (target : option V) c' a' : Prop :=
  represents c' a' /\ held a ≡ₚ held a' ++ ev ++ option_list target /\
  max_entries c' = max_entries c /\ timeout_millisec c' = timeout_millisec c.

Lemma DeleteFirstEntry_popped c a k e es :
  represents c a -> entries_for k a = e :: es ->
  exists c' a', DeleteFirstEntry k (e :: es) c = (Ok (value e), c') /\
    popped c a [] (Some (value e)) c' a' /\
    remove_oldest k (abs a) = Some ((value e, timestamp e), abs a') /\
    length (entries_for k a') = length es.
Proof.
  intros Hr He.
  destruct (DeleteFirstEntry_ok _ _ _ _ _ Hr He) as (a1 & a2 & c' & Ha & H2 & Hd & Hr' & Hm & Ht).
  exists c', (a1 ++ a2). split; [done|]. split; [|split].
  - split; [done|]. split; [|done]. rewrite Ha. unfold held. rewrite !fmap_app, fmap_cons.
    simpl. by rewrite <-!Permutation_middle, app_nil_r.
  - rewrite Ha. by apply abs_remove_oldest.
  - apply (f_equal length) in He. rewrite Ha, count_entries in He by done. simpl in He. lia.
Qed.

Lemma popped_trans c a v c1 a1 ev target c2 a2 :
  popped c a [] (Some v) c1 a1 -> popped c1 a1 ev target c2 a2 ->
  popped c a (v :: ev) target c2 a2.
Proof.
  intros (_ & Hp1 & Hm1 & Ht1) (Hr & Hp2 & Hm2 & Ht2). split; [done|].
  split; [|split; congruence]. rewrite Hp1, Hp2. simpl.
  by rewrite (Permutation_app_comm _ [v]), <-Permutation_middle.
Qed.

(** Dropping the stale entries leaves either none of them, or a fresh one that
    [DeleteFirstEntry] gives out. *)
Lemma drop_stale_represents n now k evicted c a :
  represents c a -> length (entries_for k a) = n -> 0 < timeout_millisec c ->
  exists ev m c' a', drop_stale n now k evicted c = (Ok (evicted ++ ev, m), c') /\
    popped c a ev None c' a' /\ length (entries_for k a') = m /\
    spec_take n (timeout_millisec c) now k (abs a) =
      match m, remove_oldest k (abs a') with
      | S _, Some (p, l') => (ev, Some p.1, l')
      | _, _ => (ev, None, abs a')
      end.
Proof.
  revert evicted c a. induction n as [|n IH]; intros evicted c a Hr Hn Ht.
  { exists [], 0%nat, c, a. simpl. rewrite app_nil_r. split; [done|]. split; [|done].
    split; [done|]. by rewrite app_nil_r. }
  cbn [drop_stale spec_take]. rewrite (represents_lookup _ _ k Hr).
  destruct (entries_for k a) as [|e es] eqn:He; [done|]. simpl in Hn. injection Hn as Hn.
  destruct (DeleteFirstEntry_popped _ _ _ _ _ Hr He) as (c' & a' & Hd & Hp & Ho & Hl).
  cbv beta iota zeta. rewrite Hd, Ho, (proj2 (Z.ltb_lt _ _) Ht). cbn [andb]. cbv beta iota.
  destruct (timeout_millisec c <? now -u timestamp e).
  - pose proof Hp as (Hr' & _ & Hm & Htm). rewrite <-Htm in Ht.
    destruct (IH (evicted ++ [value e]) c' a' Hr' ltac:(congruence) Ht)
      as (ev & m & c'' & a'' & Hds & Hp' & Hlen & Hsp).
    exists (value e :: ev), m, c'', a''. rewrite Hds, <-app_assoc, <-Htm, Hsp. split; [done|].
    split; [by eapply popped_trans|]. split; [done|].
    destruct m; [done|]. by destruct (remove_oldest k (abs a'')) as [[[] ?]|].
  - exists [], (S n), c, a. rewrite app_nil_r, He, Ho. split; [done|]. split; [|simpl; by rewrite Hn].
    split; [done|]. by rewrite app_nil_r.
Qed.

(** More fuel than entries of the key changes nothing. *)
Lemma remove_oldest_count k l q l' :
  remove_oldest k l = Some (q, l') ->
  length (filter (fun p : K * (V * Z) => p.1 = k) l) =
  S (length (filter (fun p : K * (V * Z) => p.1 = k) l')).
Proof.
  revert l'. induction l as [|p l IH]; intros l'; simpl; [done|].
  destruct (remove_oldest k l) as [[x l'']|].
  - intros [= <- <-]. specialize (IH _ eq_refl). rewrite !filter_cons. case_decide; simpl; lia.
  - case_decide as Hk; [|done]. intros [= <- <-]. by rewrite filter_cons_True.
Qed.

Lemma spec_take_fuel timeout now k n m l :
  (n <= m)%nat -> (length (filter (fun p : K * (V * Z) => p.1 = k) l) <= n)%nat ->
  spec_take m timeout now k l = spec_take n timeout now k l.
Proof.
  revert m l. induction n as [|n IH]; intros [|m] l Hm Hl; [done| |lia|].
  - simpl. destruct (remove_oldest k l) as [[q l']|] eqn:Hx; [|done].
    apply remove_oldest_count in Hx. lia.
  - simpl. destruct (remove_oldest k l) as [[[v ts] l']|] eqn:Hx; [|done].
    destruct (_ && _); [|done]. apply remove_oldest_count in Hx. rewrite (IH m l'); [done|lia|lia].
Qed.

Lemma count_abs k a :
  length (filter (fun p : K * (V * Z) => p.1 = k) (abs a)) = length (entries_for k a).
Proof.
  induction a as [|x a IH]; [done|]. rewrite entries_for_cons, length_app, <-IH.
  unfold abs. rewrite fmap_cons, filter_cons. unfold entry_of_item. case_decide; simpl; lia.
Qed.

Lemma GetAndPop_represents now k c a :
  represents c a ->
  exists ev target c' a', ExclusiveMultiLruCache.GetAndPop now k c = (Ok (MkPopped ev target), c') /\
    popped c a ev target c' a' /\
    spec_take (length a) (timeout_millisec c) now k (abs a) = (ev, target, abs a').
Proof.
  intros Hr. unfold ExclusiveMultiLruCache.GetAndPop. rewrite (rep_map _ _ Hr).
  rewrite (spec_take_fuel _ _ _ (length (entries_for k a)) (length a));
    [|rewrite <-count_abs, <-length_abs; apply length_filter|by rewrite count_abs].
  destruct (entries_for k a) as [|e es] eqn:He.
  { exists [], None, c, a. split; [done|]. split; [|done]. split; [done|]. by rewrite app_nil_r. }
  destruct (Z.ltb_spec 0 (timeout_millisec c)) as [Ht|Ht].
  - destruct (drop_stale_represents (length (e :: es)) now k [] c a Hr) as
      (ev & m & c' & a' & -> & Hp & Hlen & ->); [by rewrite He|done|]. cbn [app].
    destruct m as [|m]; [by exists ev, None, c', a'|]. cbn [Nat.eqb andb].
    pose proof Hp as (Hr' & Hperm & Hm & Htm). rewrite (represents_lookup _ _ k Hr').
    destruct (entries_for k a') as [|e' es'] eqn:He'; [done|].
    destruct (DeleteFirstEntry_popped _ _ _ _ _ Hr' He') as (c2 & a2 & -> & (Hr2 & Hp2 & Hm2 & Ht2) & -> & _).
    exists ev, (Some (value e')), c2, a2. split; [done|]. split; [|done].
    split; [done|]. split; [|split; congruence]. rewrite Hperm, Hp2. simpl.
    rewrite app_nil_r, <-app_assoc. f_equiv. apply Permutation_app_comm.
  - cbn [andb]. rewrite (represents_lookup _ _ k Hr), He.
    destruct (DeleteFirstEntry_popped _ _ _ _ _ Hr He) as (c2 & a2 & -> & Hp & Ho & _).
    exists [], (Some (value e)), c2, a2. split; [done|]. split; [done|].
    cbn [length spec_take]. rewrite Ho. by rewrite (proj2 (Z.ltb_ge _ _) Ht).
Qed.

(** What a lookup takes out is under the key that was asked for. *)
Lemma remove_oldest_perm k l q l' : remove_oldest k l = Some (q, l') -> l ≡ₚ (k, q) :: l'.
Proof.
  revert l'. induction l as [|p l IH]; intros l'; simpl; [done|].
  destruct (remove_oldest k l) as [[x l'']|].
  - intros [= <- <-]. rewrite (IH l'' eq_refl). constructor.
  - case_decide as Hk; [|done]. intros [= <- <-]. subst k. by destruct p.
Qed.

Lemma spec_take_perm fuel timeout now k l ev target l' :
  spec_take fuel timeout now k l = (ev, target, l') ->
  exists gone, l ≡ₚ l' ++ gone /\ Forall (fun p => p.1 = k) gone /\ (fun p => p.2.1) <$> gone = ev ++ option_list target.
Proof.
  revert l ev target l'. induction fuel as [|fuel IH]; intros l ev target l'; simpl.
  { intros [= <- <- <-]. exists []. by rewrite app_nil_r. }
  destruct (remove_oldest k l) as [[[v ts] l1]|] eqn:Hr.
  - apply remove_oldest_perm in Hr. destruct (_ && _).
    + destruct (spec_take fuel timeout now k l1) as [[ev1 t1] l2] eqn:Hs. intros [= <- <- <-].
      destruct (IH _ _ _ _ Hs) as (gone & Hp & Hk & Hv). exists ((k, (v, ts)) :: gone). split; [|split].
      * by rewrite Hr, Hp, Permutation_middle.
      * by apply Forall_cons.
      * by rewrite fmap_cons, Hv.
    + intros [= <- <- <-]. exists [(k, (v, ts))]. split; [|split; [by apply Forall_singleton|done]].
      rewrite Hr. apply Permutation_cons_append.
  - intros [= <- <- <-]. exists []. by rewrite app_nil_r.
Qed.

Lemma spec_multi_put_perm max now k v l ev l' :
  spec_multi_put max now k v l = (ev, l') -> exists gone, (k, (v, now)) :: l ≡ₚ l' ++ gone.
Proof.
  unfold spec_multi_put. destruct (_ && _); intros E; apply (f_equal snd) in E.
  - change (removelast ((k, (v, now)) :: l) = l') in E. subst l'. destruct (exists_last (l := (k, (v, now)) :: l)) as (l0 & x & E); [done|]. exists [x]. by rewrite E, removelast_last.
  - simpl in E. subst l'. exists []. by rewrite app_nil_r.
Qed.

(** *** Clearing *)
Lemma filter_or_perm {A} (P Q : A -> Prop) `{!forall y, Decision (P y), !forall y, Decision (Q y)} (l : list A) :
  (forall y, P y -> Q y -> False) ->
  filter (fun y => P y \/ Q y) l ≡ₚ filter P l ++ filter Q l.
Proof.
  intros Hdis. induction l as [|y l IH]; [done|]. rewrite !filter_cons.
  destruct (decide (P y \/ Q y)) as [Hd|Hd], (decide (P y)) as [Hp|Hp], (decide (Q y)) as [Hq|Hq];
    try tauto; try (exfalso; eauto; tauto); simpl; rewrite IH; try done.
  apply Permutation_middle.
Qed.

Lemma held_of_key k a :
  held (filter (fun x => x.2.1 = k) a) ≡ₚ value <$> entries_for k a.
Proof.
  induction a as [|x a IH]; [done|]. rewrite filter_cons, entries_for_cons, fmap_app.
  unfold entry_of_item. case_decide; simpl; [|by rewrite app_nil_r].
  change (item_value x :: held (filter (fun x => x.2.1 = k) a) ≡ₚ (value <$> entries_for k a) ++ [item_value x]).
  rewrite IH. apply Permutation_cons_append.
Qed.

Lemma held_of_keys (ks : list K) a :
  NoDup ks ->
  held (filter (fun x => x.2.1 ∈ ks) a) ≡ₚ concat ((fun k => value <$> entries_for k a) <$> ks).
Proof.
  induction 1 as [|k ks Hk _ IH].
  - induction a as [|x a IH]; [done|]. rewrite filter_cons_False by apply not_elem_of_nil. apply IH.
  - simpl. rewrite <-IH, <-held_of_key. unfold held. rewrite <-fmap_app.
    apply Permutation_map. rewrite <-filter_or_perm by (intros x -> ?; done).
    erewrite list_filter_iff; [done|]. intros x. by rewrite elem_of_cons.
Qed.

Lemma elem_of_map_keys c a k : represents c a -> is_Some (entry_map c !! k) <-> k ∈ (abs a).*1.
Proof.
  intros Hr. rewrite (rep_map _ _ Hr). destruct (entries_for k a) as [|e es] eqn:He.
  - apply entries_for_nil_iff in He. split; [by intros []|done].
  - split; [|eauto]. intros _. destruct (decide (k ∈ (abs a).*1)) as [|Hn]; [done|].
    apply entries_for_nil_iff in Hn. congruence.
Qed.

Lemma held_all c a :
  represents c a ->
  held a ≡ₚ concat ((fun k => value <$> default [] (entry_map c !! k)) <$> sorted_keys (entry_map c)).
Proof.
  intros Hr. rewrite <-(filter_all (fun x : item => x.2.1 ∈ sorted_keys (entry_map c)) a) at 1.
  - rewrite held_of_keys by apply NoDup_sorted_keys.
    erewrite list_fmap_ext; [done|]. intros _ k _. simpl. by rewrite (represents_lookup _ _ _ Hr).
  - apply Forall_forall. intros x Hx. rewrite elem_of_sorted_keys, elem_of_map_keys by done.
    unfold abs. rewrite <-list_fmap_compose. apply list_elem_of_fmap. by exists x.
Qed.

Lemma ClearAndGetValues_represents c a :
  represents c a ->
  represents (ClearAndGetValues c).2 [] /\ held a ≡ₚ (ClearAndGetValues c).1.
Proof.
  intros Hr. split; [|by apply held_all]. constructor; simpl; try done; [|lia].
  split; constructor.
Qed.

Lemma fold_erase (es : list (Entry V)) (l : slist K) :
  sl_wf l ->
  sl_wf (fold_left (fun l e => erase (lru_iterator e) l) es l) /\
  nodes (fold_left (fun l e => erase (lru_iterator e) l) es l) =
    filter (fun n => n.1 ∉ lru_iterator <$> es) (nodes l).
Proof.
  revert l. induction es as [|e es IH]; intros l Hw; simpl.
  - split; [done|]. symmetry. apply filter_all, Forall_forall. intros ? _. apply not_elem_of_nil.
  - destruct (IH (erase (lru_iterator e) l)) as [H1 H2]; [by apply sl_wf_erase|].
    split; [done|]. rewrite H2. simpl. unfold erase_nodes. rewrite list_filter_filter.
    apply list_filter_iff. intros n. rewrite not_elem_of_cons. tauto.
Qed.

Lemma elem_of_entry_iterators k a x :
  NoDup a.*1 -> x ∈ a -> x.1 ∈ lru_iterator <$> entries_for k a <-> x.2.1 = k.
Proof.
  intros Hnd Hx. unfold entries_for. rewrite list_elem_of_fmap. split.
  - intros (e & Hi & He). rewrite elem_of_reverse, list_elem_of_omap in He.
    destruct He as (y & Hy & Hye). unfold entry_of_item in Hye. case_decide as Hk; [|done].
    injection Hye as <-. simpl in Hi. subst k. destruct x as [i p], y as [j q]. simpl in Hi. subst j.
    assert (p = q) as ->; [|done]. clear -Hnd Hx Hy.
    apply list_elem_of_lookup in Hx as [n Hn]. apply list_elem_of_lookup in Hy as [m Hm].
    assert (n = m) as ->; [|congruence]. eapply (NoDup_lookup _ _ _ i Hnd);
      rewrite list_lookup_fmap; [by rewrite Hn|by rewrite Hm].
  - intros Hk. eexists. rewrite elem_of_reverse, list_elem_of_omap. split; [|exists x; split; [done|]].
    2:{ unfold entry_of_item. by rewrite decide_True. } done.
Qed.

(** Removing every entry of a key. *)
Lemma clear_key_represents c a k :
  represents c a ->
  let es := entries_for k a in
  represents (set_state c (total_entries_num c -u Z.of_nat (length es)) (delete k (entry_map c))
                (fold_left (fun l e => erase (lru_iterator e) l) es (lru_list c)))
             (filter (fun x => x.2.1 <> k) a) /\
  held a ≡ₚ held (filter (fun x => x.2.1 <> k) a) ++ (value <$> es).
Proof.
  intros Hr es. destruct (fold_erase es (lru_list c) (rep_wf _ _ Hr)) as [Hw Hn].
  assert (held a ≡ₚ held (filter (fun x => x.2.1 <> k) a) ++ (value <$> es)) as Hh.
  { unfold es. rewrite <-held_of_key. unfold held. rewrite <-fmap_app. apply Permutation_map.
    rewrite <-filter_or_perm by tauto. rewrite filter_all; [done|].
    apply Forall_forall. intros x _. destruct (decide (x.2.1 = k)); tauto. }
  assert (length a = length (filter (fun x => x.2.1 <> k) a) + length es)%nat as Hlen.
  { apply Permutation_length in Hh. unfold held in Hh. by rewrite length_app, !length_fmap in Hh. }
  split; [|done]. pose proof (rep_small _ _ Hr). constructor; simpl; try done.
  - rewrite Hn, (rep_nodes _ _ Hr). pose proof (represents_NoDup _ _ Hr) as Hnd.
    assert (forall x, x ∈ a -> x.1 ∈ lru_iterator <$> es <-> x.2.1 = k) as Hx
      by (intros; by apply elem_of_entry_iterators).
    revert Hx. generalize (lru_iterator <$> es). clear. intros its Hx.
    induction a as [|x a IH]; [done|]. rewrite fmap_cons, !filter_cons. simpl.
    pose proof (Hx x ltac:(constructor)). rewrite IH by (intros; apply Hx; by constructor).
    destruct (decide (x.1 ∉ its)), (decide (x.2.1 <> k)); simpl; tauto.
  - intros k'. assert (forall b, k' <> k -> entries_for k' (filter (fun x => x.2.1 <> k) b) = entries_for k' b) as Hne.
    { intros b Hk'. induction b as [|x b IHb]; [done|]. rewrite filter_cons.
      case_decide; rewrite ?entries_for_cons, IHb; [done|]. unfold entry_of_item.
      rewrite decide_False by congruence. by rewrite app_nil_r. }
    destruct (decide (k' = k)) as [->|Hk'].
    + rewrite lookup_delete_eq. destruct (entries_for k (filter _ a)) eqn:He; [done|].
      exfalso. assert (k ∉ (abs (filter (fun x : item => x.2.1 <> k) a)).*1) as Hno.
      { unfold abs. rewrite <-list_fmap_compose. by intros (x & -> & [? _]%list_elem_of_filter)%list_elem_of_fmap. }
      apply entries_for_nil_iff in Hno. congruence.
    + rewrite lookup_delete_ne by done. rewrite (rep_map _ _ Hr), Hne by done. done.
  - rewrite (rep_total _ _ Hr), u64_small by lia. lia.
  - intros Hp. pose proof (rep_max _ _ Hr Hp). lia.
  - lia.
Qed.

Lemma clear_keys_represents keys vals c a :
  represents c a -> NoDup keys -> (forall k, k ∈ keys -> is_Some (entry_map c !! k)) ->
  exists out c' a', clear_keys keys vals c = (Ok (vals ++ out), c') /\ represents c' a' /\
    a' = filter (fun x => x.2.1 ∉ keys) a /\ held a ≡ₚ held a' ++ out.
Proof.
  intros Hr Hnd. revert vals c a Hr. induction Hnd as [|k keys Hk _ IH]; intros vals c a Hr Hin; simpl.
  - exists [], c, a. rewrite !app_nil_r. do 2 (split; [done|]). split; [|done].
    symmetry. apply filter_all, Forall_forall. intros ? _. apply not_elem_of_nil.
  - destruct (Hin k) as [es Hes]; [constructor|]. rewrite Hes.
    pose proof (represents_lookup _ _ k Hr) as Hd. rewrite Hes in Hd. simpl in Hd. subst es.
    destruct (clear_key_represents c a k Hr) as [Hr1 Hh].
    destruct (IH (vals ++ (value <$> entries_for k a)) _ _ Hr1) as (out & c' & a' & -> & Hr' & -> & Hh').
    { intros k' Hk'. simpl. rewrite lookup_delete_ne by congruence. apply Hin. by constructor. }
    eexists _, c', _. split; [by rewrite <-app_assoc|]. split; [done|].
    assert (filter (fun x => x.2.1 ∉ keys) (filter (fun x : item => x.2.1 <> k) a) =
            filter (fun x => x.2.1 ∉ k :: keys) a) as Hf.
    { rewrite list_filter_filter. apply list_filter_iff. intros x. rewrite not_elem_of_cons. tauto. }
    split; [done|]. rewrite Hh, Hh'. rewrite <-app_assoc. f_equiv. apply Permutation_app_comm.
Qed.

Lemma walk_ok start p c :
  NoDup (take_while p (keys_from start (entry_map c))) /\
  forall k, k ∈ take_while p (keys_from start (entry_map c)) -> is_Some (entry_map c !! k).
Proof.
  split; [|intros k [Hk _]%elem_of_take_while_sub; by apply elem_of_keys_from in Hk as []].
  assert (NoDup (keys_from start (entry_map c))) as Hnd by (apply NoDup_filter, NoDup_sorted_keys).
  induction Hnd as [|k ks Hk _ IH]; simpl; [constructor|]. destruct (p k); [|constructor].
  apply NoDup_cons. split; [|done]. by intros [? _]%elem_of_take_while_sub.
Qed.

Lemma ClearAndGetValuesFrom_represents start p c a :
  represents c a ->
  exists out c' a', ClearAndGetValuesFrom start p c = (Ok out, c') /\ represents c' a' /\
    a' = filter (fun x => x.2.1 ∉ take_while p (keys_from start (entry_map c))) a /\
    held a ≡ₚ held a' ++ out.
Proof.
  intros Hr. unfold ClearAndGetValuesFrom.
  destruct (clear_keys_represents (take_while p (keys_from start (entry_map c))) [] c a Hr)
    as (out & c' & a' & He & Hr' & Ha & Hh); [apply walk_ok..|by exists out, c', a'].
Qed.

(** *** What clearing gives, exactly *)
Definition spec_values k (l : list (K * (V * Z))) : list V := reverse ((fun p => p.2.1) <$> filter (fun p => p.1 = k) l).

Definition spec_keys (l : list (K * (V * Z))) : list K := std_sort_keys (remove_dups l.*1).

Definition spec_doomed start (p : K -> bool) (l : list (K * (V * Z))) : list K :=
  take_while p (filter (fun k => negb (less k start)) (spec_keys l)).

Lemma spec_values_entries k a : value <$> entries_for k a = spec_values k (abs a).
Proof.
  unfold spec_values, abs, entries_for. rewrite fmap_reverse. f_equal. induction a as [|x a IH]; [done|].
  rewrite fmap_cons, filter_cons. simpl. unfold entry_of_item at 1. destruct (decide (x.2.1 = k)); simpl; [f_equal|]; exact IH.
Qed.

Lemma spec_keys_represents c a : represents c a -> sorted_keys (entry_map c) = spec_keys (abs a).
Proof.
  intros Hr. apply sorted_keys_unique; [apply NoDup_remove_dups|]. intros k. by rewrite elem_of_remove_dups, (elem_of_map_keys c a).
Qed.

Lemma values_represents c a (ks : list K) : represents c a ->
  (fun key => value <$> default [] (entry_map c !! key)) <$> ks = (fun key => spec_values key (abs a)) <$> ks.
Proof. intros Hr. apply list_fmap_ext. intros _ k _. by rewrite (represents_lookup _ _ _ Hr), spec_values_entries. Qed.

Lemma clear_keys_exact keys vals c :
  NoDup keys -> (forall k, k ∈ keys -> is_Some (entry_map c !! k)) ->
  (clear_keys keys vals c).1 = Ok (vals ++ concat ((fun key => value <$> default [] (entry_map c !! key)) <$> keys)) /\
  max_entries (clear_keys keys vals c).2 = max_entries c /\ timeout_millisec (clear_keys keys vals c).2 = timeout_millisec c.
Proof.
  intros Hnd. revert vals c. induction Hnd as [|k keys Hk _ IH]; intros vals c Hin; simpl; [by rewrite app_nil_r|].
  destruct (Hin k) as [es Hes]; [constructor|]. rewrite Hes.
  match goal with |- context [clear_keys keys ?v ?d] => destruct (IH v d) as (-> & -> & ->) end.
  { intros k' Hk'. simpl. rewrite lookup_delete_ne by congruence. apply Hin. by constructor. }
  split; [|done]. simpl. rewrite <-app_assoc. do 4 f_equal. apply list_fmap_ext. intros i k' Hi.
  rewrite lookup_delete_ne; [done|]. intros ->. by apply Hk, (list_elem_of_lookup_2 _ i).
Qed.

Lemma abs_filter (keys : list K) a : abs (filter (fun x => x.2.1 ∉ keys) a) = filter (fun q => q.1 ∉ keys) (abs a).
Proof.
  unfold abs. induction a as [|x a IH]; [done|]. rewrite fmap_cons, !filter_cons.
  destruct (decide (x.2.1 ∉ keys)); [|exact IH]. rewrite fmap_cons. by f_equal.
Qed.

Lemma Verify_represents c a : represents c a -> Verify c = true.
Proof.
  intros Hr. unfold Verify. rewrite !andb_true_iff, !Z.eqb_eq, (rep_total _ _ Hr). split; [split|].
  - apply List.forallb_forall. intros n Hn%list_elem_of_In.
    apply list_elem_of_fmap in Hn as ([k es] & -> & Hin%elem_of_map_to_list). simpl.
    rewrite (rep_map _ _ Hr) in Hin. destruct (entries_for k a); [done|]. by injection Hin as <-.
  - pose proof (held_all c a Hr) as Hh. apply Permutation_length in Hh.
    unfold held in Hh. rewrite length_fmap in Hh. rewrite Hh.
    assert ((fun p : K * list (Entry V) => length p.2) <$> map_to_list (entry_map c) =
            (fun k => length (default [] (entry_map c !! k))) <$> (map_to_list (entry_map c)).*1) as ->.
    { rewrite <-list_fmap_compose. apply list_fmap_ext. intros i [k es] Hi. simpl.
      apply list_elem_of_lookup_2, elem_of_map_to_list in Hi. by rewrite Hi. }
    rewrite <-(sorted_keys_perm (entry_map c)).
    clear Hh. induction (sorted_keys (entry_map c)) as [|k ks IH]; [done|]. unfold sum_Z in *. simpl.
    rewrite length_app, length_fmap, Nat2Z.inj_add. f_equal. apply IH.
  - unfold size. by rewrite (rep_nodes _ _ Hr), length_fmap.
Qed.
End Abstraction.

(** ** Histories *)
Section Histories.
Context {K V : Type} `{Countable K} `{KeyCompare K}.

Inductive multi_op :=
| MPut (now : Z) (k : K) (v : V)
| MPop (now : Z) (k : K)
| MClear
| MClearFrom (start : K) (p : K -> bool).

(** A call, and the values it hands to its caller. *)
Definition multi_call (op : multi_op) (c : multi_lru K V) : Res (list V) * multi_lru K V :=
  match op with
  | MPut now k v =>
      let '(r, c') := ExclusiveMultiLruCache.Put now k v c in (o ← r; Ok (option_list o), c')
  | MPop now k =>
      let '(r, c') := ExclusiveMultiLruCache.GetAndPop now k c in
      (o ← r; Ok (evicted_items o ++ option_list (target_item o)), c')
  | MClear => let '(vs, c') := ClearAndGetValues c in (Ok vs, c')
  | MClearFrom start p => ClearAndGetValuesFrom start p c
  end.

Definition put_value (op : multi_op) : list V :=
  match op with MPut _ _ v => [v] | _ => [] end.

(** A history: the values handed out, and the final cache. *)
Fixpoint multi_calls (ops : list multi_op) (c : multi_lru K V) : Res (list V) * multi_lru K V :=
  match ops with
  | [] => (Ok [], c)
  | op :: ops' =>
      let '(r, c') := multi_call op c in
      match r with
      | Throw ex => (Throw ex, c')
      | Ok vs => let '(rs, c'') := multi_calls ops' c' in (rest ← rs; Ok (vs ++ rest), c'')
      end
  end.

Lemma multi_call_represents op (c : multi_lru K V) a :
  represents c a -> Z.of_nat (length a) + 1 < two64 ->
  exists out c' a', multi_call op c = (Ok out, c') /\ represents c' a' /\
    put_value op ++ held a ≡ₚ held a' ++ out /\ (length a' <= S (length a))%nat /\
    max_entries c' = max_entries c.
Proof.
  intros Hr Hs.
  assert (forall (b : list (N * (K * (V * Z)))) out, put_value op ++ held a ≡ₚ held b ++ out ->
            (length b <= S (length a))%nat) as Hlen.
  { intros b out Hp. apply Permutation_length in Hp. unfold held in Hp.
    rewrite !length_app, !length_fmap in Hp. destruct op; simpl in Hp; lia. }
  destruct op as [now k v|now k| |start p]; simpl.
  - destruct (Put_represents now k v c a Hr Hs) as (ev & c' & a' & -> & Hr' & _ & Hp & Hm & _).
    exists (option_list ev), c', a'. simpl. eauto 10.
  - destruct (GetAndPop_represents now k c a Hr) as (ev & t & c' & a' & -> & (Hr' & Hp & Hm & _) & _).
    exists (ev ++ option_list t), c', a'. simpl. eauto 10.
  - destruct (ClearAndGetValues_represents c a Hr) as [Hr' Hp]. simpl in *.
    eexists _, _, []. split; [done|]. split; [done|]. split; [done|]. split; [simpl; lia|done].
  - destruct (ClearAndGetValuesFrom_represents start p c a Hr) as (out & c' & a' & He & Hr' & _ & Hp).
    exists out, c', a'. split; [done|]. split; [done|]. split; [done|]. split; [by eapply Hlen|].
    assert (forall ks vs (d : multi_lru K V), max_entries (clear_keys ks vs d).2 = max_entries d) as Hm.
    { induction ks as [|k ks IH]; intros vs d; simpl; [done|]. destruct (entry_map d !! k); [|done].
      by rewrite IH. }
    specialize (Hm (take_while p (keys_from start (entry_map c))) [] c).
    unfold ClearAndGetValuesFrom in He. by rewrite He in Hm.
Qed.

(** File handles are neither lost, nor duplicated, nor invented: over any history
    of calls on an [ExclusiveMultiLruCache] (insertions with capacity evictions,
    lookups with expiry, clears of everything or of a key range) no assertion fails,
    and the values put in are exactly those handed back to callers together with
    those still held; afterwards [Verify] holds and the capacity is respected. *)
Theorem multi_lru_conserves max timeout ops :
  Z.of_nat (length ops) < two64 ->
  exists out c', multi_calls ops (new_multi max timeout : multi_lru K V) = (Ok out, c') /\
    (ops ≫= put_value) ≡ₚ out ++ (ClearAndGetValues c').1 /\
    Verify c' = true /\ (0 < max -> total_entries_num c' <= max).
Proof.
  intros Hops.
  assert (forall (c : multi_lru K V) a, represents c a ->
    Z.of_nat (length a + length ops) < two64 ->
    exists out c' a', multi_calls ops c = (Ok out, c') /\ represents c' a' /\
      (ops ≫= put_value) ++ held a ≡ₚ held a' ++ out /\ max_entries c' = max_entries c) as Hrun.
  { clear Hops. induction ops as [|op ops IH]; intros c a Hr Hs; simpl in *.
    - exists [], c, a. rewrite app_nil_r. done.
    - destruct (multi_call_represents op c a Hr) as (o1 & c1 & a1 & -> & Hr1 & Hp1 & Hl & Hm1); [lia|].
      destruct (IH c1 a1 Hr1) as (o2 & c2 & a2 & -> & Hr2 & Hp2 & Hm2); [lia|].
      exists (o1 ++ o2), c2, a2. simpl. split; [done|]. split; [done|]. split; [|congruence].
      rewrite <-app_assoc, (Permutation_app_comm (put_value op)), <-app_assoc.
      rewrite (Permutation_app_comm (held a)), Hp1, app_assoc, Hp2.
      rewrite <-app_assoc. f_equiv. apply Permutation_app_comm. }
  destruct (Hrun _ [] (new_multi_represents max timeout)) as (out & c' & a' & He & Hr & Hp & Hm); [done|].
  exists out, c'. split; [done|]. split; [|split; [by eapply Verify_represents|]].
  - destruct (ClearAndGetValues_represents c' a' Hr) as [_ Hc]. rewrite <-Hc.
    rewrite app_nil_r in Hp. rewrite Hp. apply Permutation_app_comm.
  - intros Hpos. rewrite (rep_total _ _ Hr). pose proof (rep_max _ _ Hr) as Hmx.
    rewrite Hm in Hmx. by apply Hmx.
Qed.

(** *** Refinement

    The replies of the methods, and those of the list. *)
Inductive multi_reply :=
| Stored (evicted : option V)
| Popped (evicted : list V) (target : option V)
| Handed (values : list V).

Definition multi_step (op : multi_op) (c : multi_lru K V) : Res multi_reply * multi_lru K V :=
  match op with
  | MPut now k v => let '(r, c') := ExclusiveMultiLruCache.Put now k v c in (o ← r; Ok (Stored o), c')
  | MPop now k =>
      let '(r, c') := ExclusiveMultiLruCache.GetAndPop now k c in
      (o ← r; Ok (Popped (evicted_items o) (target_item o)), c')
  | MClear => let '(vs, c') := ClearAndGetValues c in (Ok (Handed vs), c')
  | MClearFrom start p => let '(r, c') := ClearAndGetValuesFrom start p c in (vs ← r; Ok (Handed vs), c')
  end.

Definition spec_step (max timeout : Z) (op : multi_op) (l : list (K * (V * Z))) : multi_reply * list (K * (V * Z)) :=
  match op with
  | MPut now k v => let '(evicted, l') := spec_multi_put max (u64 now) k v l in (Stored evicted, l')
  | MPop now k => let '(evicted, target, l') := spec_take (length l) timeout now k l in (Popped evicted target, l')
  | MClear => (Handed (concat ((fun k => spec_values k l) <$> spec_keys l)), [])
  | MClearFrom start p =>
      let doomed := spec_doomed start p l in
      (Handed (concat ((fun k => spec_values k l) <$> doomed)), filter (fun q => q.1 ∉ doomed) l)
  end.

Fixpoint history {R S} (step : multi_op -> S -> R * S) (ops : list multi_op) (s : S) : list R * S :=
  match ops with
  | [] => ([], s)
  | op :: ops => let '(r, s1) := step op s in let '(rs, s2) := history step ops s1 in (r :: rs, s2)
  end.

Lemma multi_step_refines op (c : multi_lru K V) a :
  represents c a -> Z.of_nat (length a) + 1 < two64 ->
  exists r c' a', multi_step op c = (Ok r, c') /\ represents c' a' /\ (length a' <= Datatypes.S (length a))%nat /\
    max_entries c' = max_entries c /\ timeout_millisec c' = timeout_millisec c /\
    spec_step (max_entries c) (timeout_millisec c) op (abs a) = (r, abs a').
Proof.
  intros Hr Hs.
  assert (forall (b : list (N * (K * (V * Z)))) vs out, vs ++ held a ≡ₚ held b ++ out -> (length vs <= 1)%nat ->
            (length b <= Datatypes.S (length a))%nat) as Hlen.
  { intros b vs out Hp Hv. apply Permutation_length in Hp. unfold held in Hp.
    rewrite !length_app, !length_fmap in Hp. lia. }
  destruct op as [now k v|now k| |start p]; simpl.
  - destruct (Put_represents now k v c a Hr Hs) as (ev & c' & a' & -> & Hr' & Hsp & Hp & Hm & Ht).
    exists (Stored ev), c', a'. rewrite <-Hsp. split; [done|]. split; [done|]. split; [by eapply (Hlen _ [v])|done].
  - destruct (GetAndPop_represents now k c a Hr) as (ev & t & c' & a' & -> & (Hr' & Hp & Hm & Ht) & Hsp).
    exists (Popped ev t), c', a'. rewrite length_abs, Hsp. split; [done|]. split; [done|]. split; [|done].
    eapply (Hlen _ []); [exact Hp|simpl; lia].
  - destruct (ClearAndGetValues_represents c a Hr) as [Hr' _].
    eexists _, _, []. split; [done|]. split; [exact Hr'|]. split; [simpl; lia|]. do 2 (split; [done|]). f_equal. f_equal.
    unfold ClearAndGetValues. simpl. by rewrite (values_represents c a), (spec_keys_represents c a).
  - destruct (ClearAndGetValuesFrom_represents start p c a Hr) as (out & c' & a' & He & Hr' & -> & Hp).
    destruct (walk_ok start p c) as [Hnd Hin].
    destruct (clear_keys_exact _ [] c Hnd Hin) as (H1 & H2 & H3). fold (ClearAndGetValuesFrom start p c) in H1, H2, H3.
    rewrite He in *. simpl in H1, H2, H3. injection H1 as ->. eexists _, _, _. split; [reflexivity|]. split; [exact Hr'|].
    split; [eapply (Hlen _ []); [exact Hp|simpl; lia]|]. split; [done|]. split; [done|].
    rewrite abs_filter, (values_represents c a) by done. unfold spec_doomed, keys_from. by rewrite (spec_keys_represents c a).
Qed.

Lemma history_refines ops (c : multi_lru K V) a :
  represents c a -> Z.of_nat (length a + length ops) < two64 ->
  exists rs c' a', history multi_step ops c = (Ok <$> rs, c') /\ represents c' a' /\ max_entries c' = max_entries c /\
    history (spec_step (max_entries c) (timeout_millisec c)) ops (abs a) = (rs, abs a').
Proof.
  revert c a. induction ops as [|op ops IH]; intros c a Hr Hs; cbn [length history] in *; [by exists [], c, a|].
  destruct (multi_step_refines op c a Hr) as (r & c1 & a1 & -> & Hr1 & Hl & Hm & Ht & ->); [lia|].
  destruct (IH c1 a1 Hr1) as (rs & c2 & a2 & -> & Hr2 & Hm2 & Hsp); [lia|]. rewrite Hm, Ht in Hsp. rewrite Hsp.
  exists (r :: rs), c2, a2. split; [done|]. split; [done|]. split; [congruence|done].
Qed.

(** C15: every history of calls of the methods of [ExclusiveMultiLruCache] ([Put],
    [GetAndPop], [ClearAndGetValues] and [ClearAndGetValues] from a key with a filter)
    has the replies of a list of (key, value, timestamp), the last inserted first, and no
    assertion fails.  An insertion over capacity evicts the least recently inserted value
    of the whole cache, whatever its key; a lookup gives the oldest unexpired value of its
    key and evicts exactly the expired ones that are older; a clear hands out the values
    key by key in the order of the keys, each key's oldest first, and clearing from a key
    does so for the keys from there up to the first one that the filter refuses. *)
Theorem multi_lru_refines max timeout ops :
  Z.of_nat (length ops) < two64 ->
  let '(rs', l') := history (spec_step max timeout) ops [] in
  exists c' a', history multi_step ops (new_multi max timeout : multi_lru K V) = (Ok <$> rs', c') /\
    represents c' a' /\ abs a' = l' /\ Verify c' = true /\ (0 < max -> Z.of_nat (length l') <= max).
Proof.
  intros Hs. destruct (history_refines ops (new_multi max timeout) [] (new_multi_represents max timeout))
    as (rs & c' & a' & Hrun & Hr & Hm & Hsp); [done|]. simpl in Hsp, Hm. change (abs []) with (@nil (K * (V * Z))) in Hsp.
  rewrite Hsp. exists c', a'. split; [done|]. split; [done|]. split; [done|]. split; [by eapply Verify_represents|].
  intros Hpos. rewrite length_abs. pose proof (rep_max _ _ Hr) as Hmx. rewrite Hm in Hmx. by apply Hmx.
Qed.
End Histories.

(** Capacity 3, timeout 10, two handles for one path. *)
Definition sample_multi_ops : list (multi_op (K := string) (V := Z)) :=
  [MPut 0 "a" 1; MPut 1 "b" 2; MPut 5 "a" 3; MPut 6 "c" 4; MPop 12 "b"; MPop 13 "a"; MPut 14 "c" 5;
   MClearFrom "c" (String.eqb "c")]%string.

Lemma multi_lru_conserves_witness :
  exists out c', multi_calls sample_multi_ops (new_multi 3 10) = (Ok out, c') /\
    (sample_multi_ops ≫= put_value) ≡ₚ out ++ (ClearAndGetValues c').1 /\
    Verify c' = true /\ (0 < 3 -> total_entries_num c' <= 3).
Proof. apply multi_lru_conserves. simpl. lia. Defined.

Example sample_multi_out :
  (multi_calls sample_multi_ops (new_multi 3 10)).1 = Ok [1; 2; 3; 4; 5].
Proof. vm_compute. reflexivity. Qed.

(** Capacity evicts the values 1 and 2; the older of the two values of "a" has expired when "a"
    is looked up; clearing from "a" hands out the new ones of "a" only. *)
Lemma multi_lru_refines_witness :
  (history multi_step
     [MPut 0 "a" 1; MPut 1 "b" 2; MPut 5 "a" 3; MPut 6 "a" 4; MPut 7 "b" 5; MPop 14 "a"; MPop 14 "b"; MPut 15 "c" 6;
      MPut 15 "a" 7; MPut 16 "a" 8; MClearFrom "a" (fun k => String.eqb k "a"); MClear]%string (new_multi 3 8 : multi_lru string Z)).1 =
  Ok <$> [Stored None; Stored None; Stored None; Stored (Some 1); Stored (Some 2); Popped [3] (Some 4); Popped [] (Some 5);
          Stored None; Stored None; Stored None; Handed [7; 8]; Handed [6]].
Proof.
  set (ops := [MPut 0 "a" 1; MPut 1 "b" 2; MPut 5 "a" 3; MPut 6 "a" 4; MPut 7 "b" 5; MPop 14 "a"; MPop 14 "b"; MPut 15 "c" 6;
      MPut 15 "a" 7; MPut 16 "a" 8; MClearFrom "a" (fun k => String.eqb k "a"); MClear]%string).
  pose proof (multi_lru_refines (K := string) (V := Z) 3 8 ops) as H.
  assert ((history (spec_step 3 8) ops []).1 = [Stored None; Stored None; Stored None; Stored (Some 1); Stored (Some 2);
    Popped [3] (Some 4); Popped [] (Some 5); Stored None; Stored None; Stored None; Handed [7; 8]; Handed [6]]) as Hs by (vm_compute; reflexivity).
  destruct (history (spec_step 3 8) ops []) as [rs l]. destruct H as (c & a & -> & _); [vm_compute; reflexivity|].
  simpl in Hs. by rewrite Hs.
Defined.
