(* ===== verification/Policy.v ===== *)
(** * Policy

    The eviction policies of the byte-bounded storage
    ([src/src/include/policy/*.hpp], [src/src/policy/eviction_policy.cpp]): LRU,
    FIFO and MRU on a [std::list] with an index, CLOCK on a ring with a hand.  The
    interface promises that a policy tracks exactly the keys inserted and not
    erased, and always finds a victim among them. *)
From S2P Require Import Prelude StdList Blocks.

#[local] Open Scope Z_scope.

Abbreviation key := InMemCacheBlock (only parsing).

(** ** The interface *)
Class EvictionPolicy (P : Type) := {
  OnHit : key -> P -> P;
  OnInsert : key -> Z -> P -> P;
  OnErase : key -> P -> P;
  PopVictim : P -> option key * P;
  Admit : Z -> P -> bool;
  ClearPolicy : P -> P;
  GetName : P -> string
}.

Class PolicyLaws (P : Type) `{EvictionPolicy P} := {
  policy_ok : P -> Prop;
  tracked : P -> list key;
  tracked_NoDup p : policy_ok p -> NoDup (tracked p);
  OnHit_law k p : policy_ok p -> policy_ok (OnHit k p) /\ tracked (OnHit k p) ≡ₚ tracked p;
  OnInsert_law k n p : policy_ok p ->
    policy_ok (OnInsert k n p) /\
    tracked (OnInsert k n p) ≡ₚ if decide (k ∈ tracked p) then tracked p else k :: tracked p;
  OnErase_law k p : policy_ok p ->
    policy_ok (OnErase k p) /\ tracked (OnErase k p) ≡ₚ without k (tracked p);
  PopVictim_law p : policy_ok p ->
    let '(victim, p') := PopVictim p in
    policy_ok p' /\
    match victim with
    | None => tracked p = [] /\ tracked p' = []
    | Some k => tracked p ≡ₚ k :: tracked p'
    end;
  ClearPolicy_law p : policy_ok p -> policy_ok (ClearPolicy p) /\ tracked (ClearPolicy p) = [];
  Admit_law n p : Admit n p = true
}.

(** ** Policies on a list *)
Record listed := MkListed { order : slist key; pindex : gmap key iter }.

Definition new_listed : listed := MkListed sl_empty ∅.

Module LruPolicy.
Definition OnHit (k : key) (p : listed) : listed :=
  match pindex p !! k with
  | None => p
  | Some it => MkListed (splice_front it (order p)) (pindex p)
  end.

Definition OnInsert (k : key) (size : Z) (p : listed) : listed :=
  match pindex p !! k with
  | Some it => MkListed (splice_front it (order p)) (pindex p)
  | None => MkListed (emplace_front k (order p)) (<[k := next_iter (order p)]> (pindex p))
  end.

Definition OnErase (k : key) (p : listed) : listed :=
  match pindex p !! k with
  | None => p
  | Some it => MkListed (erase it (order p)) (delete k (pindex p))
  end.

Definition PopVictim (p : listed) : option key * listed :=
  match back (order p) with
  | None => (None, p)
  | Some victim => (Some victim, MkListed (pop_back (order p)) (delete victim (pindex p)))
  end.

Definition Clear (p : listed) : listed := MkListed (sl_clear (order p)) ∅.
Definition GetName : string := "lru".
End LruPolicy.

Module FifoPolicy.
Definition OnHit (k : key) (p : listed) : listed := p.

Definition OnInsert (k : key) (size : Z) (p : listed) : listed :=
  match pindex p !! k with
  | Some _ => p
  | None => MkListed (emplace_front k (order p)) (<[k := next_iter (order p)]> (pindex p))
  end.

Definition OnErase (k : key) (p : listed) : listed :=
  match pindex p !! k with
  | None => p
  | Some it => MkListed (erase it (order p)) (delete k (pindex p))
  end.

Definition PopVictim (p : listed) : option key * listed :=
  match back (order p) with
  | None => (None, p)
  | Some victim => (Some victim, MkListed (pop_back (order p)) (delete victim (pindex p)))
  end.

Definition Clear (p : listed) : listed := MkListed (sl_clear (order p)) ∅.
Definition GetName : string := "fifo".
End FifoPolicy.

Module MruPolicy.
Definition OnHit (k : key) (p : listed) : listed :=
  match pindex p !! k with
  | None => p
  | Some it => MkListed (splice_front it (order p)) (pindex p)
  end.

Definition OnInsert (k : key) (size : Z) (p : listed) : listed :=
  match pindex p !! k with
  | Some it => MkListed (splice_front it (order p)) (pindex p)
  | None => MkListed (emplace_front k (order p)) (<[k := next_iter (order p)]> (pindex p))
  end.

Definition OnErase (k : key) (p : listed) : listed :=
  match pindex p !! k with
  | None => p
  | Some it => MkListed (erase it (order p)) (delete k (pindex p))
  end.

Definition PopVictim (p : listed) : option key * listed :=
  match front (order p) with
  | None => (None, p)
  | Some victim => (Some victim, MkListed (pop_front (order p)) (delete victim (pindex p)))
  end.

Definition Clear (p : listed) : listed := MkListed (sl_clear (order p)) ∅.
Definition GetName : string := "mru".
End MruPolicy.

(** ** CLOCK *)
Module ClockPolicy.
Record ClockEntry := MkClockEntry { ckey : key; referenced : bool }.

(** [hand]: [None] is [ring.end ()]. *)
Record clock := MkClock { ring : slist ClockEntry; hand : option iter; cindex : gmap key iter }.

Definition new_clock : clock := MkClock sl_empty None ∅.

Definition set_referenced (b : bool) (e : ClockEntry) : ClockEntry := MkClockEntry (ckey e) b.

(** [Advance]: the next iterator, [begin ()] after the last. *)
Definition Advance (r : slist ClockEntry) (it : iter) : option iter :=
  match next it r with None => begin_ r | Some it' => Some it' end.

Definition OnHit (k : key) (c : clock) : clock :=
  match cindex c !! k with
  | Some it => MkClock (modify it (set_referenced true) (ring c)) (hand c) (cindex c)
  | None => c
  end.

Definition OnInsert (k : key) (size : Z) (c : clock) : clock :=
  match cindex c !! k with
  | Some _ => c
  | None =>
      MkClock (insert_before (hand c) (MkClockEntry k false) (ring c)) (hand c)
              (<[k := next_iter (ring c)]> (cindex c))
  end.

Definition OnErase (k : key) (c : clock) : clock :=
  match cindex c !! k with
  | None => c
  | Some it =>
      let hand' := if decide (hand c = Some it) then Advance (ring c) it else hand c in
      let ring' := erase it (ring c) in
      let hand'' := if Nat.eqb (size ring') 0 then None else hand' in
      MkClock ring' hand'' (delete k (cindex c))
  end.

(** The sweep: [fuel] counts the turns of the [for] loop. *)
Fixpoint sweep (fuel : nat) (c : clock) : option key * clock :=
  match fuel with
  | O => (None, c)
  | S fuel =>
      match hand c ≫= fun h => (h,.) <$> deref h (ring c) with
      | None => (None, c) (* [hand] is never [end ()] in the loop *)
      | Some (h, e) =>
          if negb (referenced e) then
            let victim := ckey e in
            let after := next h (ring c) in
            let ring' := erase h (ring c) in
            let hand' := match after with None => begin_ ring' | Some i => Some i end in
            (Some victim, MkClock ring' hand' (delete victim (cindex c)))
          else
            let ring' := modify h (set_referenced false) (ring c) in
            sweep fuel (MkClock ring' (Advance ring' h) (cindex c))
      end
  end.

Definition PopVictim (c : clock) : option key * clock :=
  if Nat.eqb (size (ring c)) 0 then (None, c)
  else
    let hand' := match hand c with None => begin_ (ring c) | Some h => Some h end in
    sweep (size (ring c) * 2 + 1) (MkClock (ring c) hand' (cindex c)).

Definition Clear (c : clock) : clock := MkClock (sl_clear (ring c)) None ∅.
Definition GetName : string := "clock".
End ClockPolicy.

(** ** Construction and dispatch *)
Inductive policy :=
| PLru (p : listed)
| PFifo (p : listed)
| PClock (c : ClockPolicy.clock)
| PMru (p : listed).

Definition IsValidEvictionPolicy (name : string) : bool :=
  String.eqb name "lru" || String.eqb name "fifo" || String.eqb name "clock" || String.eqb name "mru".

Definition CreateEvictionPolicy (name : string) : Res policy :=
  if String.eqb name "lru" then Ok (PLru new_listed)
  else if String.eqb name "fifo" then Ok (PFifo new_listed)
  else if String.eqb name "clock" then Ok (PClock ClockPolicy.new_clock)
  else if String.eqb name "mru" then Ok (PMru new_listed)
  else Throw InvalidInputException.

#[export] Instance policy_dispatch : EvictionPolicy policy := {
  OnHit k p :=
    match p with
    | PLru q => PLru (LruPolicy.OnHit k q)
    | PFifo q => PFifo (FifoPolicy.OnHit k q)
    | PClock q => PClock (ClockPolicy.OnHit k q)
    | PMru q => PMru (MruPolicy.OnHit k q)
    end;
  OnInsert k n p :=
    match p with
    | PLru q => PLru (LruPolicy.OnInsert k n q)
    | PFifo q => PFifo (FifoPolicy.OnInsert k n q)
    | PClock q => PClock (ClockPolicy.OnInsert k n q)
    | PMru q => PMru (MruPolicy.OnInsert k n q)
    end;
  OnErase k p :=
    match p with
    | PLru q => PLru (LruPolicy.OnErase k q)
    | PFifo q => PFifo (FifoPolicy.OnErase k q)
    | PClock q => PClock (ClockPolicy.OnErase k q)
    | PMru q => PMru (MruPolicy.OnErase k q)
    end;
  PopVictim p :=
    match p with
    | PLru q => let '(v, q') := LruPolicy.PopVictim q in (v, PLru q')
    | PFifo q => let '(v, q') := FifoPolicy.PopVictim q in (v, PFifo q')
    | PClock q => let '(v, q') := ClockPolicy.PopVictim q in (v, PClock q')
    | PMru q => let '(v, q') := MruPolicy.PopVictim q in (v, PMru q')
    end;
  Admit _ _ := true;
  ClearPolicy p :=
    match p with
    | PLru q => PLru (LruPolicy.Clear q)
    | PFifo q => PFifo (FifoPolicy.Clear q)
    | PClock q => PClock (ClockPolicy.Clear q)
    | PMru q => PMru (MruPolicy.Clear q)
    end;
  GetName p :=
    match p with
    | PLru _ => LruPolicy.GetName
    | PFifo _ => FifoPolicy.GetName
    | PClock _ => ClockPolicy.GetName
    | PMru _ => MruPolicy.GetName
    end
}.
