(* ===== verification/PolicyProofs.v ===== *)
(** * PolicyProofs

    Every policy of [Policy] keeps its interface's promises, and chooses the victim
    its name announces: the least recently used, the oldest or the most recently
    used entry for the list policies, the first entry without a second chance from
    the hand for CLOCK. *)
From S2P Require Import Prelude StdList Blocks Policy.

#[local] Open Scope Z_scope.

(** ** List policies *)
Section Listed.
Implicit Types (p : listed) (k : InMemCacheBlock).

Definition listed_ok p : Prop := linked (fun k => pindex p !! k) (order p).
Definition ranking p : list InMemCacheBlock := values (order p).

Lemma listed_index p k it : listed_ok p -> pindex p !! k = Some it -> k ∈ ranking p.
Proof. intros Hp Hk. apply (linked_values _ _ _ Hp). eauto. Qed.

Lemma listed_index_None p k : listed_ok p -> pindex p !! k = None <-> k ∉ ranking p.
Proof. intros Hp. apply (linked_None _ _ _ Hp). Qed.

Lemma listed_touch p k it :
  listed_ok p -> pindex p !! k = Some it ->
  listed_ok (MkListed (splice_front it (order p)) (pindex p)) /\
  ranking (MkListed (splice_front it (order p)) (pindex p)) = k :: without k (ranking p).
Proof.
  intros Hp Hk. split; [by apply linked_splice_front|]. by apply (values_splice_front _ _ _ _ Hp).
Qed.

Lemma listed_insert p k :
  listed_ok p -> pindex p !! k = None ->
  listed_ok (MkListed (emplace_front k (order p)) (<[k := next_iter (order p)]> (pindex p))) /\
  ranking (MkListed (emplace_front k (order p)) (<[k := next_iter (order p)]> (pindex p))) = k :: ranking p.
Proof.
  intros Hp Hk. split; [|done]. eapply (linked_emplace_front _ _ _ k Hp Hk); simpl.
  - apply lookup_insert_eq.
  - intros k' Hne. by rewrite lookup_insert_ne.
Qed.

Lemma listed_erase p k it :
  listed_ok p -> pindex p !! k = Some it ->
  listed_ok (MkListed (erase it (order p)) (delete k (pindex p))) /\
  ranking (MkListed (erase it (order p)) (delete k (pindex p))) = without k (ranking p).
Proof.
  intros Hp Hk. split.
  - eapply (linked_erase _ _ _ k it Hp Hk); simpl; [apply lookup_delete_eq|].
    intros k' Hne. by rewrite lookup_delete_ne.
  - by apply (values_erase _ _ _ _ Hp).
Qed.

Lemma without_last k l : NoDup (l ++ [k]) -> without k (l ++ [k]) = l.
Proof.
  intros (_ & Hd & _)%NoDup_app. rewrite without_app, without_cons, decide_True by done.
  rewrite without_not_in; [by rewrite app_nil_r|]. intros Hin. apply (Hd k Hin). constructor.
Qed.

Lemma listed_pop_back p :
  listed_ok p ->
  match back (order p) with
  | None => ranking p = []
  | Some k =>
      listed_ok (MkListed (pop_back (order p)) (delete k (pindex p))) /\
      ranking p = ranking (MkListed (pop_back (order p)) (delete k (pindex p))) ++ [k]
  end.
Proof.
  intros Hp. destruct (back (order p)) as [k|] eqn:Hb.
  - destruct (pop_back_linked _ _ _ Hp Hb) as (it & Hk & ->).
    destruct (listed_erase p k it Hp Hk) as [H1 ->]. split; [done|].
    apply back_Some in Hb as [vs Hvs]. unfold ranking. rewrite Hvs, without_last; [done|].
    rewrite <-Hvs. apply Hp.
  - unfold back in Hb. unfold ranking, values. destruct (last (nodes (order p))) eqn:Hl; [done|].
    apply last_None in Hl. by rewrite Hl.
Qed.

Lemma listed_pop_front p :
  listed_ok p ->
  match front (order p) with
  | None => ranking p = []
  | Some k =>
      listed_ok (MkListed (pop_front (order p)) (delete k (pindex p))) /\
      ranking p = k :: ranking (MkListed (pop_front (order p)) (delete k (pindex p)))
  end.
Proof.
  intros Hp. destruct (front (order p)) as [k|] eqn:Hb.
  - destruct (pop_front_linked _ _ _ Hp Hb) as (it & Hk & He).
    destruct (listed_erase p k it Hp Hk) as [H1 _]. rewrite <-He in H1. split; [done|].
    unfold ranking, values, pop_front, front in *. simpl. destruct (nodes (order p)); simplify_eq/=. done.
  - unfold front in Hb. unfold ranking, values. by destruct (nodes (order p)).
Qed.

Lemma listed_clear p : listed_ok (MkListed (sl_clear (order p)) ∅) /\ ranking (MkListed (sl_clear (order p)) ∅) = [].
Proof. split; [|done]. eapply linked_ext; [|apply linked_clear]. intros k. simpl. by rewrite lookup_empty. Qed.

Lemma new_listed_ok : listed_ok new_listed.
Proof. eapply linked_ext; [|apply linked_empty]. intros k. simpl. by rewrite lookup_empty. Qed.

Lemma ranking_NoDup p : listed_ok p -> NoDup (ranking p).
Proof. intros Hp. apply Hp. Qed.

(** *** What each operation does to the ranking *)
Lemma LruPolicy_OnHit k p :
  listed_ok p -> listed_ok (LruPolicy.OnHit k p) /\
  ranking (LruPolicy.OnHit k p) = if decide (k ∈ ranking p) then k :: without k (ranking p) else ranking p.
Proof.
  intros Hp. unfold LruPolicy.OnHit. destruct (pindex p !! k) as [it|] eqn:Hk.
  - rewrite decide_True by (by eapply listed_index). by apply listed_touch.
  - apply (listed_index_None p k Hp) in Hk as Hn. by rewrite decide_False.
Qed.

Lemma LruPolicy_OnInsert k n p :
  listed_ok p -> listed_ok (LruPolicy.OnInsert k n p) /\
  ranking (LruPolicy.OnInsert k n p) = k :: without k (ranking p).
Proof.
  intros Hp. unfold LruPolicy.OnInsert. destruct (pindex p !! k) as [it|] eqn:Hk.
  - by apply listed_touch.
  - apply (listed_index_None p k Hp) in Hk as Hn. rewrite without_not_in by done. by apply listed_insert.
Qed.

Lemma FifoPolicy_OnInsert k n p :
  listed_ok p -> listed_ok (FifoPolicy.OnInsert k n p) /\
  ranking (FifoPolicy.OnInsert k n p) = if decide (k ∈ ranking p) then ranking p else k :: ranking p.
Proof.
  intros Hp. unfold FifoPolicy.OnInsert. destruct (pindex p !! k) as [it|] eqn:Hk.
  - by rewrite decide_True by (by eapply listed_index).
  - apply (listed_index_None p k Hp) in Hk as Hn. rewrite decide_False by done. by apply listed_insert.
Qed.

Lemma LruPolicy_OnErase k p :
  listed_ok p -> listed_ok (LruPolicy.OnErase k p) /\ ranking (LruPolicy.OnErase k p) = without k (ranking p).
Proof.
  intros Hp. unfold LruPolicy.OnErase. destruct (pindex p !! k) as [it|] eqn:Hk.
  - by apply listed_erase.
  - apply (listed_index_None p k Hp) in Hk as Hn. by rewrite without_not_in.
Qed.
End Listed.

(** ** The ring of CLOCK *)
Section Clock.
Import ClockPolicy.
Implicit Types (c : clock) (k : InMemCacheBlock) (ns : list (N * ClockEntry)).

Fixpoint from_ (h : N) ns : list (N * ClockEntry) :=
  match ns with
  | [] => []
  | n :: ns' => if decide (n.1 = h) then ns else from_ h ns'
  end.
Fixpoint before (h : N) ns : list (N * ClockEntry) :=
  match ns with
  | [] => []
  | n :: ns' => if decide (n.1 = h) then [] else n :: before h ns'
  end.

(** The ring as the hand meets it. *)
Definition rotation (hand : option N) ns : list (N * ClockEntry) :=
  match hand with None => ns | Some h => from_ h ns ++ before h ns end.

Definition clock_view c : list ClockEntry := snd <$> rotation (hand c) (nodes (ring c)).

Definition clock_ok c : Prop :=
  linked (fun k => cindex c !! k) (sl_map ckey (ring c)) /\
  (forall h, hand c = Some h -> h ∈ ids (ring c)).

Lemma from_split pre h e post :
  h ∉ pre.*1 -> from_ h (pre ++ (h, e) :: post) = (h, e) :: post /\ before h (pre ++ (h, e) :: post) = pre.
Proof.
  induction pre as [|n pre IH]; simpl; [by rewrite !decide_True|].
  rewrite not_elem_of_cons. intros [Hn Hp]. rewrite !decide_False by congruence.
  destruct (IH Hp) as [-> ->]. done.
Qed.

Lemma rotation_split pre h e post :
  NoDup (pre ++ (h, e) :: post).*1 ->
  rotation (Some h) (pre ++ (h, e) :: post) = (h, e) :: post ++ pre.
Proof.
  rewrite fmap_app. intros (_ & Hd & _)%NoDup_app. simpl.
  destruct (from_split pre h e post) as [-> ->]; [|done]. intros Hin. apply (Hd h Hin). constructor.
Qed.

Lemma next_in_split pre h (post : list N) :
  h ∉ pre -> next_in h (pre ++ h :: post) = head post.
Proof.
  induction pre as [|i pre IH]; simpl; [by rewrite decide_True|].
  rewrite not_elem_of_cons. intros [Hn Hp]. rewrite decide_False by congruence. auto.
Qed.

(** Moving the hand one step moves the front of the rotation to its back. *)
Lemma rotation_advance (r : slist ClockEntry) pre h e post :
  NoDup (ids r) -> nodes r = pre ++ (h, e) :: post ->
  rotation (Advance r h) (nodes r) = post ++ pre ++ [(h, e)].
Proof.
  intros Hnd Hn. unfold ids in Hnd. rewrite Hn in *. unfold Advance, next, begin_, ids. rewrite Hn.
  assert (h ∉ pre.*1) as Hni.
  { rewrite fmap_app in Hnd. apply NoDup_app in Hnd as (_ & Hd & _). intros Hin. apply (Hd h Hin). constructor. }
  rewrite fmap_app, fmap_cons. simpl. rewrite next_in_split by done.
  destruct post as [|[h2 e2] post]; simpl.
  - destruct pre as [|[h1 e1] pre]; simpl.
    + by rewrite !decide_True by done.
    + rewrite !decide_True by done. by rewrite app_nil_r.
  - replace (pre ++ (h, e) :: (h2, e2) :: post) with ((pre ++ [(h, e)]) ++ (h2, e2) :: post) in *
      by (by rewrite <-app_assoc).
    pose proof (rotation_split _ _ _ _ Hnd) as Hr. exact Hr.
Qed.

Lemma clock_NoDup c : clock_ok c -> NoDup (ids (ring c)).
Proof. intros [(Hw & _) _]. destruct Hw as [Hnd _]. by rewrite ids_sl_map in Hnd. Qed.

Lemma clock_split c h :
  clock_ok c -> hand c = Some h -> exists pre e post, nodes (ring c) = pre ++ (h, e) :: post.
Proof.
  intros [_ Hh] Hc. specialize (Hh h Hc). unfold ids in Hh.
  apply list_elem_of_fmap in Hh as ([h' e] & -> & Hin).
  apply list_elem_of_split in Hin as (pre & post & ->). eauto.
Qed.

Lemma clock_keys c : clock_ok c -> ckey <$> clock_view c ≡ₚ values (sl_map ckey (ring c)).
Proof.
  intros Hc. rewrite values_sl_map. apply Permutation_map. unfold clock_view.
  destruct (hand c) as [h|] eqn:Hh; [|done].
  destruct (clock_split c h Hc Hh) as (pre & e & post & Hn). pose proof (clock_NoDup c Hc) as Hnd.
  unfold ids in Hnd. unfold values. rewrite Hn in *. rewrite rotation_split by done.
  apply Permutation_map. by rewrite <-Permutation_middle, Permutation_app_comm.
Qed.

Lemma deref_split (r : slist ClockEntry) pre h e post :
  NoDup (ids r) -> nodes r = pre ++ (h, e) :: post -> deref h r = Some e.
Proof.
  intros Hnd Hn. unfold deref, ids in *. rewrite Hn in *. clear Hn.
  induction pre as [|[i a] pre IH]; simpl in *; [by rewrite bool_decide_true|].
  apply NoDup_cons in Hnd as [Hi Hnd]. rewrite bool_decide_false; [auto|].
  intros ->. apply Hi. rewrite fmap_app. apply elem_of_app. right. constructor.
Qed.

Lemma modify_split (r : slist ClockEntry) f pre h e post :
  NoDup (ids r) -> nodes r = pre ++ (h, e) :: post -> nodes (modify h f r) = pre ++ (h, f e) :: post.
Proof.
  intros Hnd Hn. unfold modify, ids in *. simpl. rewrite Hn in *.
  rewrite fmap_app, fmap_cons in Hnd. rewrite fmap_app, fmap_cons. simpl in *.
  rewrite decide_True by done. apply NoDup_app in Hnd as (_ & Hd & Hnd). apply NoDup_cons in Hnd as [Hh _].
  f_equal; [|f_equal].
  - rewrite <-(list_fmap_id pre) at 2. apply list_fmap_ext. intros i [j a] Hi. simpl.
    rewrite decide_False; [done|]. intros ->. apply (Hd h); [|constructor].
    apply list_elem_of_fmap. exists (h, a). split; [done|]. by eapply list_elem_of_lookup_2.
  - rewrite <-(list_fmap_id post) at 2. apply list_fmap_ext. intros i [j a] Hi. simpl.
    rewrite decide_False; [done|]. intros ->. apply Hh.
    apply list_elem_of_fmap. exists (h, a). split; [done|]. by eapply list_elem_of_lookup_2.
Qed.

Lemma erase_split (r : slist ClockEntry) pre h e post :
  NoDup (ids r) -> nodes r = pre ++ (h, e) :: post -> nodes (erase h r) = pre ++ post.
Proof.
  intros Hnd Hn. unfold erase, erase_nodes, ids in *. simpl. rewrite Hn in *.
  rewrite filter_app, filter_cons_False by (simpl; tauto). rewrite fmap_app, fmap_cons in Hnd.
  apply NoDup_app in Hnd as (_ & Hd & Hnd). apply NoDup_cons in Hnd as [Hh _]. simpl in *.
  f_equal; apply filter_all, Forall_forall; intros [j a] Hin; simpl; intros ->.
  - apply (Hd h); [|constructor]. apply list_elem_of_fmap. by exists (h, a).
  - apply Hh. apply list_elem_of_fmap. by exists (h, a).
Qed.

Lemma clock_start_ok n : clock_ok (MkClock (SList [] n) None ∅).
Proof.
  split; [|done]. split; [|split]; simpl.
  - split; constructor.
  - constructor.
  - intros k i. rewrite lookup_empty. split; [done|]. intros Hi. by inversion Hi.
Qed.

Lemma clock_cond c k : clock_ok c -> k ∈ ckey <$> clock_view c <-> is_Some (cindex c !! k).
Proof. intros Hc. rewrite clock_keys by done. apply (linked_values _ _ _ (proj1 Hc)). Qed.

Lemma rotation_fmap (g : N * ClockEntry -> N * ClockEntry) hd ns :
  (forall n, (g n).1 = n.1) -> rotation hd (g <$> ns) = g <$> rotation hd ns.
Proof.
  intros Hg. destruct hd as [h|]; [|done]. simpl. rewrite fmap_app.
  f_equal; induction ns as [|n ns IH]; try done; simpl;
    destruct (decide ((g n).1 = h)) as [H1|H1], (decide (n.1 = h)) as [H2|H2];
    rewrite Hg in H1; try done. by rewrite fmap_cons, <-IH.
Qed.

Lemma elem_of_rotation hd ns n : n ∈ rotation hd ns -> n ∈ ns.
Proof.
  destruct hd as [h|]; [|done]. simpl. induction ns as [|m ns IH]; [done|]. simpl.
  case_decide; [by rewrite app_nil_r|]. rewrite elem_of_app, !elem_of_cons.
  rewrite elem_of_app in IH. tauto.
Qed.

Lemma next_in_elem h i (l : list N) : next_in h l = Some i -> i ∈ l.
Proof.
  induction l as [|j l IH]; simpl; [done|]. case_decide; [|by right; auto].
  destruct l; simpl; [done|]. intros [= ->]. right. constructor.
Qed.

Lemma Advance_elem (r : slist ClockEntry) h i : Advance r h = Some i -> i ∈ ids r.
Proof.
  unfold Advance, next, begin_. destruct (next_in h (ids r)) eqn:Hn.
  - intros [= <-]. by eapply next_in_elem.
  - destruct (ids r); simpl; [done|]. intros [= ->]. constructor.
Qed.

Lemma Advance_Some (r : slist ClockEntry) h : nodes r <> [] -> Advance r h <> None.
Proof.
  unfold Advance, begin_, ids. intros Hn. destruct (next h r); [done|]. by destruct (nodes r).
Qed.

Lemma split_not_in {A} (pre : list (N * A)) h e post :
  NoDup (pre ++ (h, e) :: post).*1 -> h ∉ pre.*1.
Proof.
  rewrite fmap_app. intros (_ & Hd & _)%NoDup_app Hin. apply (Hd h Hin). constructor.
Qed.

(** *** The operations on the rotation *)
Lemma ClockPolicy_OnHit k c :
  clock_ok c -> clock_ok (OnHit k c) /\
  clock_view (OnHit k c) =
    (fun e => if decide (ckey e = k) then set_referenced true e else e) <$> clock_view c.
Proof.
  intros Hc. unfold OnHit. destruct (cindex c !! k) as [it|] eqn:Hk.
  - split.
    + destruct Hc as [Hl Hh]. split; simpl; [by rewrite sl_map_modify|by rewrite ids_modify].
    + unfold clock_view. simpl. destruct Hc as [(Hw & Hnd & Hi) _].
      assert (forall n, n ∈ nodes (ring c) -> n.1 = it <-> ckey n.2 = k) as Hn.
      { intros [i e] Hin. simpl. assert ((i, ckey e) ∈ nodes (sl_map ckey (ring c))) as Hin'
          by (apply list_elem_of_fmap; by exists (i, e)).
        apply Hi in Hin'. split; intros <-; [|congruence].
        apply Hi in Hin'. apply Hi in Hk. by eapply node_inj in Hk. }
      revert Hn. generalize (nodes (ring c)). intros ns Hn.
      set (g := fun n : N * ClockEntry => if decide (n.1 = it) then (n.1, set_referenced true n.2) else n).
      rewrite (rotation_fmap g) by (intros n; unfold g; by case_decide).
      rewrite <-!list_fmap_compose. apply list_fmap_ext. intros i [j e] Hj. simpl. unfold g. simpl.
      apply list_elem_of_lookup_2, elem_of_rotation, Hn in Hj. simpl in Hj.
      destruct (decide (j = it)), (decide (ckey e = k)); tauto.
  - split; [done|]. assert (k ∉ ckey <$> clock_view c) as Hn.
    { rewrite clock_cond by done. rewrite Hk. by intros []. }
    symmetry. rewrite <-(list_fmap_id (clock_view c)) at 2. apply list_fmap_ext.
    intros i e Hi. simpl. rewrite decide_False; [done|]. intros <-. apply Hn.
    apply list_elem_of_fmap. exists e. split; [done|]. by eapply list_elem_of_lookup_2.
Qed.

Lemma insert_before_split pre h e post (n : N * ClockEntry) :
  h ∉ pre.*1 -> insert_before_nodes h n (pre ++ (h, e) :: post) = pre ++ n :: (h, e) :: post.
Proof.
  induction pre as [|m pre IH]; simpl; [by rewrite decide_True|].
  rewrite not_elem_of_cons. intros [Hn Hp]. rewrite decide_False by congruence. by rewrite IH.
Qed.

Lemma ClockPolicy_OnInsert k n c :
  clock_ok c -> clock_ok (OnInsert k n c) /\
  clock_view (OnInsert k n c) =
    if decide (k ∈ ckey <$> clock_view c) then clock_view c else clock_view c ++ [MkClockEntry k false].
Proof.
  intros Hc. unfold OnInsert. destruct (cindex c !! k) as [it|] eqn:Hk.
  { rewrite decide_True; [done|]. apply clock_cond; eauto. }
  rewrite decide_False by (rewrite clock_cond by done; rewrite Hk; by intros []).
  pose proof Hc as [Hl Hh]. pose proof (clock_NoDup c Hc) as Hnd. split; [split; simpl|].
  - rewrite sl_map_insert_before. eapply (linked_insert_before _ _ _ _ k Hl Hk); simpl.
    + apply lookup_insert_eq.
    + intros k' Hne. by rewrite lookup_insert_ne.
  - intros h Hhd. specialize (Hh h Hhd). unfold ids in *.
    rewrite (insert_before_perm (hand c)). simpl. by right.
  - unfold clock_view. simpl. destruct (hand c) as [h|] eqn:Hhd; [|unfold insert_before; simpl; by rewrite fmap_app].
    destruct (clock_split c h Hc Hhd) as (pre & e & post & Hn). rewrite Hn. unfold ids in Hnd.
    rewrite Hn in Hnd. rewrite rotation_split by done.
    pose proof (split_not_in _ _ _ _ Hnd) as Hni. rewrite insert_before_split by done.
    assert (h <> fresh (ring c)) as Hf.
    { intros ->. destruct Hl as (Hw & _). apply (fresh_not_in_ids _ Hw). rewrite ids_sl_map.
      unfold ids. rewrite Hn, fmap_app. apply elem_of_app. right. constructor. }
    replace (pre ++ (fresh (ring c), MkClockEntry k false) :: (h, e) :: post)
      with ((pre ++ [(fresh (ring c), MkClockEntry k false)]) ++ (h, e) :: post) by (by rewrite <-app_assoc).
    unfold rotation. destruct (from_split (pre ++ [(fresh (ring c), MkClockEntry k false)]) h e post) as [-> ->].
    { rewrite fmap_app, elem_of_app. intros [|Hin]; [done|]. simpl in Hin. by apply list_elem_of_singleton in Hin. }
    rewrite !fmap_app, !fmap_cons, !fmap_app. simpl. by rewrite <-app_assoc.
Qed.

(** Removing the entry under or away from the hand. *)
Lemma clock_erase_linked k it c :
  clock_ok c -> cindex c !! k = Some it ->
  linked (fun k' => delete k (cindex c) !! k') (sl_map ckey (erase it (ring c))).
Proof.
  intros [Hl _] Hk. rewrite sl_map_erase. eapply (linked_erase _ _ _ k it Hl Hk); simpl.
  - apply lookup_delete_eq.
  - intros k' Hne. by rewrite lookup_delete_ne.
Qed.

Lemma clock_index c h e :
  clock_ok c -> (h, e) ∈ nodes (ring c) -> cindex c !! ckey e = Some h.
Proof. intros [(_ & _ & Hi) _] Hin. apply Hi. apply list_elem_of_fmap. by exists (h, e). Qed.

(** *** The sweep *)
Fixpoint second_chance (fuel : nat) (l : list ClockEntry) : option InMemCacheBlock * list ClockEntry :=
  match fuel, l with
  | S fuel, e :: l' =>
      if referenced e then second_chance fuel (l' ++ [set_referenced false e])
      else (Some (ckey e), l')
  | _, _ => (None, l)
  end.

Lemma sweep_ok fuel c :
  clock_ok c -> (nodes (ring c) <> [] -> hand c <> None) ->
  clock_ok (sweep fuel c).2 /\
  ((sweep fuel c).1, clock_view (sweep fuel c).2) = second_chance fuel (clock_view c).
Proof.
  revert c. induction fuel as [|fuel IH]; intros c Hc Hh; [done|]. simpl.
  destruct (hand c) as [h|] eqn:Hhd; simpl.
  2:{ split; [done|]. unfold clock_view. rewrite Hhd. simpl.
      destruct (nodes (ring c)); [done|]. by destruct Hh. }
  destruct (clock_split c h Hc Hhd) as (pre & e & post & Hn). pose proof (clock_NoDup c Hc) as Hnd.
  rewrite (deref_split _ pre h e post) by done. simpl.
  assert (clock_view c = e :: (snd <$> post ++ pre)) as Hv.
  { unfold clock_view. rewrite Hhd, Hn. unfold ids in Hnd. rewrite Hn in Hnd. by rewrite rotation_split. }
  rewrite Hv. destruct (referenced e) eqn:Hr; simpl.
  - pose proof (modify_split (ring c) (set_referenced false) pre h e post Hnd Hn) as Hm.
    set (r' := modify h (set_referenced false) (ring c)) in *.
    assert (NoDup (ids r')) as Hnd' by (unfold r'; by rewrite ids_modify).
    pose proof (rotation_advance r' pre h _ post Hnd' Hm) as Ha.
    destruct (IH (MkClock r' (Advance r' h) (cindex c))) as [H1 H2].
    + destruct Hc as [Hl _]. split; simpl; [unfold r'; by rewrite sl_map_modify|apply Advance_elem].
    + apply Advance_Some.
    + split; [done|]. rewrite H2. f_equal.
      change (snd <$> rotation (Advance r' h) (nodes r') = (snd <$> post ++ pre) ++ [set_referenced false e]).
      rewrite Ha.
      rewrite !fmap_app. simpl. by rewrite <-app_assoc.
  - pose proof (clock_index c h e Hc ltac:(rewrite Hn; apply elem_of_app; right; constructor)) as Hk.
    pose proof (erase_split (ring c) pre h e post Hnd Hn) as He.
    pose proof (clock_erase_linked _ _ _ Hc Hk) as Hl'.
    set (r' := erase h (ring c)) in *. assert (h ∉ pre.*1) as Hni
      by (unfold ids in Hnd; rewrite Hn in Hnd; by eapply split_not_in).
    assert (next h (ring c) = head post.*1) as Hnx.
    { unfold next, ids. rewrite Hn, fmap_app, fmap_cons. simpl. by apply next_in_split. }
    assert (NoDup (ids r')) as Hnd'.
    { destruct Hl' as ((Hx & _) & _). by rewrite ids_sl_map in Hx. }
    clearbody r'. rewrite Hnx. unfold begin_, ids in *. rewrite He in *. destruct post as [|[h2 e2] post]; simpl.
    + split.
      * split; [done|]. simpl. unfold ids. rewrite He, app_nil_r. intros h'.
        destruct pre as [|[h1 e1] pre]; simpl; [done|]. intros [= <-]. constructor.
      * unfold clock_view. simpl. rewrite He, app_nil_r.
        destruct pre as [|[h1 e1] pre]; simpl; [done|]. rewrite !decide_True by done. by rewrite app_nil_r.
    + split.
      * split; [done|]. simpl. unfold ids. rewrite He. intros h' [= <-].
        rewrite fmap_app. apply elem_of_app. right. constructor.
      * unfold clock_view. simpl. rewrite He.
        pose proof (rotation_split pre h2 e2 post Hnd') as Hrs. simpl in Hrs. by rewrite Hrs.
Qed.

Lemma rotation_filter (P : N * ClockEntry -> Prop) `{!forall n, Decision (P n)} hd ns :
  (forall n, n ∈ ns -> Some n.1 = hd -> P n) ->
  rotation hd (filter P ns) = filter P (rotation hd ns).
Proof.
  destruct hd as [h|]; [|done]. intros Hh. simpl. rewrite filter_app.
  f_equal; induction ns as [|n ns IH]; try done; simpl; rewrite !filter_cons;
    assert (n.1 = h -> P n) as Hn by (intros <-; apply Hh; [constructor|done]);
    specialize (IH ltac:(intros; apply Hh; [by constructor|done]));
    destruct (decide (P n)) as [Hp|Hp], (decide (n.1 = h)) as [He|He]; try tauto; simpl;
    rewrite ?(decide_True (P := n.1 = h)), ?(decide_False (P := n.1 = h)) by done;
    rewrite ?filter_cons, ?decide_True, ?decide_False by done; try done; by rewrite IH.
Qed.

Lemma node_key c it k :
  clock_ok c -> cindex c !! k = Some it ->
  forall n, n ∈ nodes (ring c) -> n.1 = it <-> ckey n.2 = k.
Proof.
  intros [(Hw & Hnd & Hi) _] Hk [i e] Hin. simpl.
  assert ((i, ckey e) ∈ nodes (sl_map ckey (ring c))) as Hin'
    by (apply list_elem_of_fmap; by exists (i, e)).
  split; intros <-.
  - apply Hi in Hk. by eapply node_inj.
  - apply Hi in Hin'. congruence.
Qed.

Lemma filter_values (k : InMemCacheBlock) it ns :
  (forall n, n ∈ ns -> n.1 = it <-> ckey n.2 = k) ->
  snd <$> filter (fun n : N * ClockEntry => n.1 <> it) ns = filter (fun e => ckey e <> k) (snd <$> ns).
Proof.
  intros Hn. induction ns as [|n ns IH]; [done|]. rewrite fmap_cons, !filter_cons.
  pose proof (Hn n ltac:(constructor)). specialize (IH ltac:(intros; apply Hn; by constructor)).
  destruct (decide (n.1 <> it)), (decide (ckey n.2 <> k)); try tauto. rewrite fmap_cons. by f_equal.
Qed.

(** Where the hand lands when its own entry goes. *)
Lemma rotation_erase_hand (r : slist ClockEntry) pre h e post :
  NoDup (ids r) -> nodes r = pre ++ (h, e) :: post ->
  rotation (if Nat.eqb (length (pre ++ post)) 0 then None else Advance r h) (pre ++ post) = post ++ pre.
Proof.
  intros Hnd Hn. unfold ids in Hnd. rewrite Hn in Hnd. pose proof (split_not_in _ _ _ _ Hnd) as Hni.
  unfold Advance, next, begin_, ids. rewrite Hn, fmap_app, fmap_cons. simpl.
  rewrite next_in_split by done. destruct post as [|[h2 e2] post]; simpl.
  - destruct pre as [|[h1 e1] pre]; simpl; [done|]. rewrite !decide_True by done. by rewrite !app_nil_r.
  - rewrite length_app. simpl. rewrite Nat.add_succ_r. simpl.
    assert (NoDup (pre ++ (h2, e2) :: post).*1) as Hnd2.
    { rewrite !fmap_app, !fmap_cons in *. apply NoDup_app in Hnd as (H1 & H2 & H3).
      apply NoDup_cons in H3 as [_ H3]. apply NoDup_app. split; [done|]. split; [|done].
      intros x Hx Hx2. apply (H2 x Hx). by right. }
    apply (rotation_split pre h2 e2 post Hnd2).
Qed.

Lemma Advance_other (r : slist ClockEntry) pre h e post i :
  NoDup (ids r) -> nodes r = pre ++ (h, e) :: post -> pre ++ post <> [] -> Advance r h = Some i ->
  i ∈ (pre ++ post).*1.
Proof.
  intros Hnd Hn Hne. unfold Advance, next, begin_, ids in *. rewrite Hn in *.
  pose proof (split_not_in _ _ _ _ Hnd) as Hni. rewrite fmap_app, fmap_cons. simpl. rewrite next_in_split by done.
  destruct post as [|[h2 e2] post]; simpl.
  - destruct pre as [|[h1 e1] pre]; simpl; [done|]. intros [= ->]. constructor.
  - intros [= ->]. rewrite fmap_app. apply elem_of_app. right. constructor.
Qed.

Lemma ClockPolicy_OnErase k c :
  clock_ok c -> clock_ok (OnErase k c) /\
  clock_view (OnErase k c) = filter (fun e => ckey e <> k) (clock_view c).
Proof.
  intros Hc. unfold OnErase. destruct (cindex c !! k) as [it|] eqn:Hk.
  2:{ split; [done|]. symmetry. apply filter_all, Forall_forall. intros e He Hek.
      assert (k ∈ ckey <$> clock_view c) as Hin by (apply list_elem_of_fmap; by exists e).
      apply clock_cond in Hin as [? ?]; [congruence|done]. }
  pose proof (clock_NoDup c Hc) as Hnd. pose proof (node_key c it k Hc Hk) as Hnk.
  pose proof (clock_erase_linked k it c Hc Hk) as Hl'.
  assert (it ∈ (nodes (ring c)).*1) as Hit.
  { destruct Hc as [(_ & _ & Hi) _]. apply Hi in Hk. apply list_elem_of_fmap in Hk as ([i e] & [= -> ->] & Hin).
    apply list_elem_of_fmap. by exists (i, e). }
  unfold clock_view. rewrite <-(filter_values k it) by (intros n Hn; apply Hnk; by eapply elem_of_rotation).
  simpl. destruct (decide (hand c = Some it)) as [Hhd|Hhd].
  - destruct (clock_split c it Hc Hhd) as (pre & e & post & Hn).
    pose proof (erase_split (ring c) pre it e post Hnd Hn) as He.
    pose proof (rotation_erase_hand (ring c) pre it e post Hnd Hn) as Hr.
    unfold size. unfold erase in He. simpl in He. split; [split|].
    + done.
    + simpl. unfold ids. simpl. rewrite He. intros h. destruct (Nat.eqb_spec (length (pre ++ post)) 0) as [|Hne]; [done|].
      intros Ha. unfold ids in Hnd. rewrite Hn in Hnd.
      apply (Advance_other (ring c) pre it e post h); [|done|by destruct (pre ++ post)|done].
      unfold ids. by rewrite Hn.
    + simpl. unfold size. rewrite He. unfold ids in Hnd. rewrite Hn in Hnd.
      rewrite Hhd, Hn, Hr, rotation_split by done. rewrite filter_cons_False by tauto.
      rewrite filter_all; [done|]. apply Forall_forall. intros [j a] Hin. simpl. intros ->.
      pose proof (split_not_in _ _ _ _ Hnd) as Hni. rewrite fmap_app in Hnd.
      apply NoDup_app in Hnd as (_ & _ & Hnd). apply NoDup_cons in Hnd as [Hnd _]. simpl in Hnd.
      apply elem_of_app in Hin as [Hin|Hin]; [apply Hnd|apply Hni]; apply list_elem_of_fmap; by exists (it, a).
  - assert (forall h, hand c = Some h -> h ∈ (erase_nodes it (nodes (ring c))).*1) as Hin.
    { intros h Hh. destruct Hc as [_ Hids]. specialize (Hids h Hh). unfold ids in Hids.
      apply list_elem_of_fmap in Hids as ([i a] & -> & Hin). apply list_elem_of_fmap. exists (i, a).
      split; [done|]. apply list_elem_of_filter. split; [|done]. simpl in *. intros ->. by rewrite Hh in Hhd. }
    assert ((if (size (erase it (ring c)) =? 0)%nat then None else hand c) = hand c) as Hsame.
    { destruct (hand c) as [h|] eqn:Hh; [|by case_match]. specialize (Hin h eq_refl).
      unfold size, erase. simpl. by destruct (erase_nodes it (nodes (ring c))); [inversion Hin|]. }
    rewrite Hsame. split; [split; [done|]|].
    + simpl. intros h Hh. by apply Hin.
    + f_equal. apply rotation_filter. intros n _ He. simpl. congruence.
Qed.

Lemma clock_view_length c : clock_ok c -> length (clock_view c) = size (ring c).
Proof.
  intros Hc. pose proof (clock_keys c Hc) as Hp. apply Permutation_length in Hp.
  by rewrite length_fmap, values_sl_map, length_fmap, length_values in Hp.
Qed.

Lemma clock_empty c : clock_ok c -> size (ring c) = 0%nat <-> clock_view c = [].
Proof. intros Hc. by rewrite <-clock_view_length, length_zero_iff_nil. Qed.

Lemma ClockPolicy_PopVictim c :
  clock_ok c ->
  clock_ok (PopVictim c).2 /\
  ((PopVictim c).1, clock_view (PopVictim c).2) =
    second_chance (length (clock_view c) * 2 + 1) (clock_view c).
Proof.
  intros Hc. unfold PopVictim. destruct (Nat.eqb_spec (size (ring c)) 0) as [H0|H0].
  { split; [done|]. apply clock_empty in H0; [|done]. simpl. by rewrite H0. }
  set (c1 := MkClock (ring c) match hand c with None => begin_ (ring c) | Some h => Some h end (cindex c)).
  assert (clock_view c1 = clock_view c) as Hv.
  { unfold clock_view, c1. simpl. destruct (hand c); [done|]. unfold begin_, ids.
    destruct (nodes (ring c)) as [|[h e] ns]; simpl; [done|]. rewrite !decide_True by done.
    by rewrite app_nil_r. }
  assert (clock_ok c1) as Hc1.
  { destruct Hc as [Hl Hh]. split; [done|]. simpl. intros h. destruct (hand c); [by apply Hh|].
    unfold begin_. destruct (ids (ring c)); simpl; [done|]. intros [= ->]. constructor. }
  rewrite clock_view_length by done. rewrite <-Hv. apply sweep_ok; [done|]. unfold c1. simpl. intros Hn.
  destruct (hand c); [done|]. unfold begin_, ids. by destruct (nodes (ring c)).
Qed.

(** The sweep in closed form: the first entry without a second chance, the entries
    passed over losing theirs. *)
Lemma second_chance_first fuel pre e post :
  Forall (fun x => referenced x = true) pre -> referenced e = false -> (length pre < fuel)%nat ->
  second_chance fuel (pre ++ e :: post) = (Some (ckey e), post ++ (set_referenced false <$> pre)).
Proof.
  revert fuel post. induction pre as [|x pre IH]; intros [|fuel] post Hp He Hf; simpl in *; try lia.
  - rewrite He. by rewrite app_nil_r.
  - apply Forall_cons in Hp as [-> Hp]. rewrite <-app_assoc. simpl. rewrite IH by (done || lia).
    by rewrite <-app_assoc.
Qed.

Lemma second_chance_all fuel e l :
  Forall (fun x => referenced x = true) (e :: l) -> (S (length l) < fuel)%nat ->
  second_chance fuel (e :: l) = (Some (ckey e), set_referenced false <$> l).
Proof.
  intros Hall Hf. destruct fuel as [|fuel]; [lia|]. apply Forall_cons in Hall as [He Hl]. simpl. rewrite He.
  by rewrite (second_chance_first fuel l (set_referenced false e) []) by (done || lia).
Qed.
End Clock.

(** Every entry is either passed over or the victim; with the sweep's fuel, a victim is
    always found among the tracked keys. *)
Section SecondChance.
Import ClockPolicy.
Implicit Types (l : list ClockEntry).

Lemma second_chance_perm fuel l :
  match second_chance fuel l with
  | (Some k, l') => ckey <$> l ≡ₚ k :: (ckey <$> l')
  | (None, l') => ckey <$> l ≡ₚ ckey <$> l'
  end.
Proof.
  revert l. induction fuel as [|fuel IH]; intros [|e l]; simpl; try done.
  destruct (referenced e); [|done]. specialize (IH (l ++ [set_referenced false e])).
  assert (ckey e :: (ckey <$> l) ≡ₚ ckey <$> (l ++ [set_referenced false e])) as Hp.
  { rewrite fmap_app. simpl. apply Permutation_cons_append. }
  destruct (second_chance fuel _) as [[k|] l']; by rewrite Hp.
Qed.

Lemma first_unreferenced l :
  Forall (fun x => referenced x = true) l \/
  exists pre e post, l = pre ++ e :: post /\ Forall (fun x => referenced x = true) pre /\ referenced e = false.
Proof.
  induction l as [|e l IH]; [by left|]. destruct (referenced e) eqn:He.
  - destruct IH as [IH|(pre & e' & post & -> & Hp & He')].
    + left. by constructor.
    + right. exists (e :: pre), e', post. split; [done|]. split; [by constructor|done].
  - right. by exists [], e, l.
Qed.

Lemma second_chance_total l : l <> [] -> (second_chance (length l * 2 + 1) l).1 <> None.
Proof.
  intros Hl. destruct (first_unreferenced l) as [Hall|(pre & e & post & -> & Hp & He)].
  - destruct l as [|e l]; [done|]. rewrite second_chance_all by (done || simpl; lia). done.
  - rewrite second_chance_first by (done || rewrite length_app; simpl; lia). done.
Qed.
End SecondChance.

(** ** The interface's laws *)
Definition policy_wf (p : policy) : Prop :=
  match p with PLru q | PFifo q | PMru q => listed_ok q | PClock c => clock_ok c end.
Definition policy_keys (p : policy) : list InMemCacheBlock :=
  match p with
  | PLru q | PFifo q | PMru q => ranking q
  | PClock c => ClockPolicy.ckey <$> clock_view c
  end.

Lemma keep_or_move k (l : list InMemCacheBlock) :
  NoDup l -> k :: without k l ≡ₚ if decide (k ∈ l) then l else k :: l.
Proof.
  intros Hl. case_decide as Hk; [|by rewrite without_not_in].
  symmetry. by apply without_Permutation.
Qed.

Lemma policy_OnHit_law k (p : policy) :
  policy_wf p -> policy_wf (OnHit k p) /\ policy_keys (OnHit k p) ≡ₚ policy_keys p.
Proof.
  destruct p as [q|q|c|q]; simpl; intros Hp; [| done | |];
    try (destruct (LruPolicy_OnHit k q Hp) as [H1 H2]; split; [exact H1|];
         change (MruPolicy.OnHit k q) with (LruPolicy.OnHit k q); rewrite H2;
         case_decide; [|done]; symmetry; apply without_Permutation; [by apply ranking_NoDup|done]).
  destruct (ClockPolicy_OnHit k c Hp) as [H1 ->]. split; [done|].
  rewrite <-list_fmap_compose. apply reflexive_eq, list_fmap_ext. intros i e _. simpl. by case_decide.
Qed.

Lemma policy_OnInsert_law k n (p : policy) :
  policy_wf p -> policy_wf (OnInsert k n p) /\
  policy_keys (OnInsert k n p) ≡ₚ if decide (k ∈ policy_keys p) then policy_keys p else k :: policy_keys p.
Proof.
  destruct p as [q|q|c|q]; simpl; intros Hp.
  - destruct (LruPolicy_OnInsert k n q Hp) as [H1 ->]. split; [done|]. by apply keep_or_move, ranking_NoDup.
  - destruct (FifoPolicy_OnInsert k n q Hp) as [H1 ->]. split; [done|]. by case_decide.
  - destruct (ClockPolicy_OnInsert k n c Hp) as [H1 ->]. split; [done|]. case_decide; [done|].
    rewrite fmap_app. simpl. by rewrite <-Permutation_cons_append.
  - destruct (LruPolicy_OnInsert k n q Hp) as [H1 H2]. split; [exact H1|].
    change (MruPolicy.OnInsert k n q) with (LruPolicy.OnInsert k n q). rewrite H2.
    by apply keep_or_move, ranking_NoDup.
Qed.

Lemma policy_OnErase_law k (p : policy) :
  policy_wf p -> policy_wf (OnErase k p) /\ policy_keys (OnErase k p) ≡ₚ without k (policy_keys p).
Proof.
  destruct p as [q|q|c|q]; simpl; intros Hp;
    try (destruct (LruPolicy_OnErase k q Hp) as [H1 H2]; split; [exact H1|exact (reflexive_eq _ _ H2)]).
  destruct (ClockPolicy_OnErase k c Hp) as [H1 ->]. split; [done|]. apply reflexive_eq.
  generalize (clock_view c). intros l. induction l as [|e l IH]; [done|].
  rewrite filter_cons, fmap_cons, without_cons. repeat case_decide; try done; by rewrite fmap_cons, IH.
Qed.

Lemma policy_PopVictim_law (p : policy) :
  policy_wf p ->
  let '(victim, p') := PopVictim p in
  policy_wf p' /\
  match victim with
  | None => policy_keys p = [] /\ policy_keys p' = []
  | Some k => policy_keys p ≡ₚ k :: policy_keys p'
  end.
Proof.
  destruct p as [q|q|c|q]; simpl; intros Hp.
  - pose proof (listed_pop_back q Hp) as Hb. unfold LruPolicy.PopVictim.
    destruct (back (order q)) as [k|]; [|done]. destruct Hb as [H1 ->]. split; [done|].
    by rewrite <-Permutation_cons_append.
  - pose proof (listed_pop_back q Hp) as Hb. unfold FifoPolicy.PopVictim.
    destruct (back (order q)) as [k|]; [|done]. destruct Hb as [H1 ->]. split; [done|].
    by rewrite <-Permutation_cons_append.
  - destruct (ClockPolicy_PopVictim c Hp) as [H1 H2].
    pose proof (second_chance_perm (length (clock_view c) * 2 + 1) (clock_view c)) as Hs.
    pose proof (second_chance_total (clock_view c)) as Ht.
    rewrite <-H2 in Hs, Ht. destruct (ClockPolicy.PopVictim c) as [[k|] c']; simpl in *; [done|].
    split; [done|]. destruct (clock_view c); [|by destruct Ht].
    apply Permutation_nil in Hs. done.
  - pose proof (listed_pop_front q Hp) as Hb. unfold MruPolicy.PopVictim.
    destruct (front (order q)) as [k|]; [|done]. destruct Hb as [H1 ->]. done.
Qed.

#[export] Program Instance policy_laws : PolicyLaws policy := {
  policy_ok := policy_wf;
  tracked := policy_keys;
  OnHit_law := policy_OnHit_law;
  OnInsert_law := policy_OnInsert_law;
  OnErase_law := policy_OnErase_law;
  PopVictim_law := policy_PopVictim_law
}.
Next Obligation.
  intros [q|q|c|q]; simpl; intros Hp; try by apply ranking_NoDup.
  rewrite clock_keys by done. apply Hp.
Qed.
Next Obligation.
  intros [q|q|c|q]; simpl; intros Hp; try apply listed_clear.
  split; [apply clock_start_ok|done].
Qed.
Next Obligation. done. Qed.

Lemma CreateEvictionPolicy_ok name p :
  CreateEvictionPolicy name = Ok p -> policy_ok p /\ tracked p = [] /\ GetName p = name.
Proof.
  unfold CreateEvictionPolicy. intros H.
  destruct (String.eqb_spec name "lru") as [->|]; [injection H as <-; by split; [apply new_listed_ok|]|].
  destruct (String.eqb_spec name "fifo") as [->|]; [injection H as <-; by split; [apply new_listed_ok|]|].
  destruct (String.eqb_spec name "clock") as [->|]; [injection H as <-; by split; [apply clock_start_ok|]|].
  destruct (String.eqb_spec name "mru") as [->|]; [injection H as <-; by split; [apply new_listed_ok|]|].
  done.
Qed.

(** ** Histories

    What a policy is told, with the time of each key's arrival and last use among the
    keys it still tracks. *)
Inductive event := EHit (k : InMemCacheBlock) | EInsert (k : InMemCacheBlock) (n : Z)
  | EErase (k : InMemCacheBlock) | EPop.

Record history := MkHistory {
  now : nat; last_use : gmap InMemCacheBlock nat; arrival : gmap InMemCacheBlock nat }.

Definition no_history : history := MkHistory 0 ∅ ∅.

Definition forget (k : InMemCacheBlock) (h : history) : history :=
  MkHistory (now h) (delete k (last_use h)) (delete k (arrival h)).

Definition note_insert (k : InMemCacheBlock) (h : history) : history :=
  MkHistory (S (now h)) (<[k := now h]> (last_use h))
            (if decide (is_Some (arrival h !! k)) then arrival h else <[k := now h]> (arrival h)).

Definition note_hit (k : InMemCacheBlock) (h : history) : history :=
  MkHistory (S (now h)) (if decide (is_Some (last_use h !! k)) then <[k := now h]> (last_use h) else last_use h)
            (arrival h).

Definition react (ph : policy * history) (e : event) : policy * history :=
  let '(p, h) := ph in
  match e with
  | EHit k => (OnHit k p, note_hit k h)
  | EInsert k n => (OnInsert k n p, note_insert k h)
  | EErase k => (OnErase k p, forget k h)
  | EPop => let '(v, p') := PopVictim p in (p', match v with Some k => forget k h | None => h end)
  end.

Definition replay (p : policy) (es : list event) : policy * history := foldl react (p, no_history) es.

(** [k] carries the least (or the greatest) stamp. *)
Definition oldest_in (m : gmap InMemCacheBlock nat) (v : option InMemCacheBlock) : Prop :=
  match v with
  | None => m = ∅
  | Some k => exists t, m !! k = Some t /\ forall k' t', m !! k' = Some t' -> k' <> k -> (t < t')%nat
  end.
Definition newest_in (m : gmap InMemCacheBlock nat) (v : option InMemCacheBlock) : Prop :=
  match v with
  | None => m = ∅
  | Some k => exists t, m !! k = Some t /\ forall k' t', m !! k' = Some t' -> k' <> k -> (t' < t)%nat
  end.

Section Stamps.
Implicit Types (m : gmap InMemCacheBlock nat) (l : list InMemCacheBlock) (k : InMemCacheBlock).

Definition later m k k' : Prop :=
  exists t t', m !! k = Some t /\ m !! k' = Some t' /\ (t' < t)%nat.

(** A ranking by stamps, latest first. *)
Definition stamped m (bound : nat) l : Prop :=
  StronglySorted (later m) l /\
  (forall k, k ∈ l <-> is_Some (m !! k)) /\
  (forall k t, m !! k = Some t -> (t < bound)%nat).

Lemma StronglySorted_filter {A} (R : A -> A -> Prop) (P : A -> Prop) `{!forall x, Decision (P x)} (l : list A) :
  StronglySorted R l -> StronglySorted R (filter P l).
Proof.
  induction 1 as [|x l Hs IH Hx]; [constructor|]. rewrite filter_cons. case_decide; [|done].
  constructor; [done|]. rewrite Forall_forall in *. intros y [_ Hy]%list_elem_of_filter. auto.
Qed.

Lemma StronglySorted_weaken {A} (R R' : A -> A -> Prop) (l : list A) :
  (forall x y, x ∈ l -> y ∈ l -> R x y -> R' x y) -> StronglySorted R l -> StronglySorted R' l.
Proof.
  intros HR Hs. induction Hs as [|x l Hs IH Hx]; [constructor|]. constructor.
  - apply IH. intros y z Hy Hz. apply HR; by right.
  - rewrite Forall_forall in *. intros y Hy. apply HR; [constructor|by right|auto].
Qed.

Lemma stamped_push m bound k l :
  stamped m bound l -> stamped (<[k := bound]> m) (S bound) (k :: without k l).
Proof.
  intros (Hs & Hd & Hb). split; [|split].
  - constructor.
    + apply (StronglySorted_weaken (later m)); [|by apply StronglySorted_filter].
      intros x y Hx Hy (t & t' & ? & ? & ?). exists t, t'.
      apply elem_of_without in Hx as [Hx _], Hy as [Hy _]. by rewrite !lookup_insert_ne by done.
    + apply Forall_forall. intros x [Hx Hin]%elem_of_without. apply Hd in Hin as [t Ht].
      exists bound, t. rewrite lookup_insert_eq, lookup_insert_ne by done. eauto.
  - intros k'. rewrite elem_of_cons, elem_of_without, Hd. destruct (decide (k' = k)) as [->|Hne].
    + rewrite lookup_insert_eq. split; [eauto|by left].
    + rewrite lookup_insert_ne by done. tauto.
  - intros k' t. destruct (decide (k' = k)) as [->|Hne].
    + rewrite lookup_insert_eq. intros [= <-]. lia.
    + rewrite lookup_insert_ne by done. intros Ht%Hb. lia.
Qed.

Lemma stamped_forget m bound k l : stamped m bound l -> stamped (delete k m) bound (without k l).
Proof.
  intros (Hs & Hd & Hb). split; [|split].
  - apply (StronglySorted_weaken (later m)); [|by apply StronglySorted_filter].
    intros x y Hx Hy (t & t' & ? & ? & ?). exists t, t'.
    apply elem_of_without in Hx as [Hx _], Hy as [Hy _]. by rewrite !lookup_delete_ne by done.
  - intros k'. rewrite elem_of_without, Hd. destruct (decide (k' = k)) as [->|Hne].
    + rewrite lookup_delete_eq. split; [tauto|intros [? [=]]].
    + rewrite lookup_delete_ne by done. tauto.
  - intros k' t. destruct (decide (k' = k)) as [->|Hne]; [by rewrite lookup_delete_eq|].
    rewrite lookup_delete_ne by done. apply Hb.
Qed.

Lemma stamped_bound m bound l : stamped m bound l -> stamped m (S bound) l.
Proof. intros (Hs & Hd & Hb). split; [done|]. split; [done|]. intros k t Ht%Hb. lia. Qed.

Lemma stamped_empty m bound : stamped m bound [] -> m = ∅.
Proof.
  intros (_ & Hd & _). apply map_empty. intros k. apply eq_None_not_Some. intros Hk%Hd. inversion Hk.
Qed.

Lemma stamped_last m bound l k : stamped m bound (l ++ [k]) -> oldest_in m (Some k).
Proof.
  intros (Hs & Hd & _). assert (is_Some (m !! k)) as [t Ht] by (apply Hd, elem_of_app; right; constructor).
  exists t. split; [done|]. intros k' t' Ht' Hne.
  assert (k' ∈ l) as Hin.
  { specialize (Hd k'). rewrite elem_of_app, list_elem_of_singleton in Hd. destruct Hd as [_ Hd].
    destruct Hd; eauto. done. }
  clear Hd. induction l as [|x l IH]; [inversion Hin|]. inversion Hs as [|? ? Hs' Hx]; subst.
  apply elem_of_cons in Hin as [->|Hin]; [|auto].
  rewrite Forall_forall in Hx. destruct (Hx k) as (a & b & ? & ? & ?); [|by simplify_eq].
  apply elem_of_app. right. constructor.
Qed.

Lemma stamped_first m bound l k : stamped m bound (k :: l) -> newest_in m (Some k).
Proof.
  intros (Hs & Hd & _). assert (is_Some (m !! k)) as [t Ht] by (apply Hd; constructor).
  exists t. split; [done|]. intros k' t' Ht' Hne.
  assert (k' ∈ k :: l) as Hin by (apply Hd; eauto). apply elem_of_cons in Hin as [|Hin]; [done|].
  inversion Hs as [|? ? Hs' Hx]; subst. rewrite Forall_forall in Hx.
  destruct (Hx k' Hin) as (a & b & ? & ? & ?). by simplify_eq.
Qed.

Lemma stamped_same_use m bound k l :
  stamped m bound l -> k ∈ l <-> is_Some (m !! k).
Proof. intros (_ & Hd & _). apply Hd. Qed.
End Stamps.

Section Replay.
Implicit Types (es : list event) (h : history) (p : policy).

(** Both stamp maps hold the tracked keys; the list policies rank them by one of the two. *)
Definition agrees (ph : policy * history) : Prop :=
  let '(p, h) := ph in
  policy_ok p /\
  (forall k, k ∈ tracked p <-> is_Some (last_use h !! k)) /\
  (forall k, k ∈ tracked p <-> is_Some (arrival h !! k)) /\
  match p with
  | PLru q | PMru q => stamped (last_use h) (now h) (ranking q)
  | PFifo q => stamped (arrival h) (now h) (ranking q)
  | PClock _ => True
  end.

Lemma in_Permutation (l l' : list InMemCacheBlock) k : l ≡ₚ l' -> k ∈ l <-> k ∈ l'.
Proof. by intros ->. Qed.

Lemma is_Some_insert (m : gmap InMemCacheBlock nat) k t k' :
  is_Some (<[k := t]> m !! k') <-> k' = k \/ is_Some (m !! k').
Proof.
  destruct (decide (k' = k)) as [->|Hne].
  - rewrite lookup_insert_eq. split; eauto.
  - rewrite lookup_insert_ne by done. tauto.
Qed.

Lemma is_Some_delete (m : gmap InMemCacheBlock nat) k k' :
  is_Some (delete k m !! k') <-> k' <> k /\ is_Some (m !! k').
Proof.
  destruct (decide (k' = k)) as [->|Hne].
  - rewrite lookup_delete_eq. split; [intros [? [=]]|tauto].
  - rewrite lookup_delete_ne by done. tauto.
Qed.

Lemma elem_keep_or_insert (l : list InMemCacheBlock) k k' :
  k' ∈ (if decide (k ∈ l) then l else k :: l) <-> k' = k \/ k' ∈ l.
Proof.
  case_decide; [|by rewrite elem_of_cons]. split; [by right|]. by intros [->|].
Qed.

Lemma agrees_hit k p h : agrees (p, h) -> agrees (OnHit k p, note_hit k h).
Proof.
  intros (Hp & Hu & Ha & Hr). destruct (OnHit_law k p Hp) as [Hp' Ht]. split; [done|].
  split; [|split; [|]].
  - intros k'. rewrite (in_Permutation _ _ _ Ht), Hu. simpl. destruct (decide (is_Some (last_use h !! k))); [|done].
    rewrite is_Some_insert. split; [by right|]. by intros [->|].
  - intros k'. by rewrite (in_Permutation _ _ _ Ht), Ha.
  - assert (forall q, listed_ok q -> stamped (last_use h) (now h) (ranking q) ->
      stamped (last_use (note_hit k h)) (now (note_hit k h)) (ranking (LruPolicy.OnHit k q))) as Hmove.
    { intros q Hq Hs. destruct (LruPolicy_OnHit k q Hq) as [_ ->]. simpl.
      pose proof (stamped_same_use _ _ k _ Hs) as Hk.
      destruct (decide (k ∈ ranking q)), (decide (is_Some (last_use h !! k))); try tauto;
        [by apply stamped_push|by apply stamped_bound]. }
    destruct p as [q|q|c|q]; simpl in *; [by apply Hmove|by apply stamped_bound|done|by apply Hmove].
Qed.

Lemma agrees_insert k n p h : agrees (p, h) -> agrees (OnInsert k n p, note_insert k h).
Proof.
  intros (Hp & Hu & Ha & Hr). destruct (OnInsert_law k n p Hp) as [Hp' Ht]. split; [done|].
  split; [|split; [|]].
  - intros k'. rewrite (in_Permutation _ _ _ Ht), elem_keep_or_insert, Hu. simpl. by rewrite is_Some_insert.
  - intros k'. rewrite (in_Permutation _ _ _ Ht), elem_keep_or_insert, Ha. simpl.
    destruct (decide (is_Some (arrival h !! k))); [|by rewrite is_Some_insert]. split; [|by right]. by intros [->|].
  - destruct p as [q|q|c|q]; simpl in *; [| |done|].
    + destruct (LruPolicy_OnInsert k n q Hp) as [_ ->]. by apply stamped_push.
    + destruct (FifoPolicy_OnInsert k n q Hp) as [_ ->]. pose proof (stamped_same_use _ _ k _ Hr) as Hk.
      destruct (decide (k ∈ ranking q)), (decide (is_Some (arrival h !! k))); try tauto;
        [by apply stamped_bound|]. rewrite <-(without_not_in k (ranking q)) by done. by apply stamped_push.
    + change (MruPolicy.OnInsert k n q) with (LruPolicy.OnInsert k n q).
      destruct (LruPolicy_OnInsert k n q Hp) as [_ ->]. by apply stamped_push.
Qed.

Lemma agrees_forget k p p' h :
  agrees (p, h) -> policy_ok p' -> tracked p' ≡ₚ without k (tracked p) ->
  match p, p' with
  | PLru q, PLru q' | PFifo q, PFifo q' | PMru q, PMru q' => ranking q' = without k (ranking q)
  | PClock _, PClock _ => True
  | _, _ => False
  end -> agrees (p', forget k h).
Proof.
  intros (Hp & Hu & Ha & Hr) Hp' Ht Hsame. split; [done|]. split; [|split].
  - intros k'. rewrite (in_Permutation _ _ _ Ht), elem_of_without, Hu. simpl. by rewrite is_Some_delete.
  - intros k'. rewrite (in_Permutation _ _ _ Ht), elem_of_without, Ha. simpl. by rewrite is_Some_delete.
  - destruct p as [q|q|c|q], p' as [q'|q'|c'|q']; try done; rewrite Hsame; by apply stamped_forget.
Qed.

Lemma agrees_erase k p h : agrees (p, h) -> agrees (OnErase k p, forget k h).
Proof.
  intros Hag. pose proof Hag as (Hp & _). destruct (OnErase_law k p Hp) as [Hp' Ht].
  apply (agrees_forget k p); [done..|]. destruct p as [q|q|c|q]; simpl in *; try done;
    by destruct (LruPolicy_OnErase k q Hp) as [_ ?].
Qed.

Lemma without_first k (l l' : list InMemCacheBlock) : NoDup l -> l ≡ₚ k :: l' -> l' ≡ₚ without k l.
Proof.
  intros Hnd Hp. assert (k ∈ l) as Hk by (rewrite Hp; constructor).
  rewrite (without_Permutation k l Hnd Hk) in Hp. by apply Permutation_cons_inv in Hp.
Qed.

Lemma agrees_pop p h : agrees (p, h) -> agrees (react (p, h) EPop).
Proof.
  intros Hag. pose proof Hag as (Hp & _). pose proof (tracked_NoDup p Hp) as Hnd.
  pose proof (PopVictim_law p Hp) as Hv. unfold react. destruct (PopVictim p) as [[k|] p'] eqn:Hpop.
  - destruct Hv as [Hp' Ht]. pose proof (without_first _ _ _ Hnd Ht) as Hw.
    apply (agrees_forget k p); [done..|].
    destruct p as [q|q|c|q]; simpl in *.
    + pose proof (listed_pop_back q Hp) as Hb. unfold LruPolicy.PopVictim in Hpop.
      destruct (back (order q)); simplify_eq/=. destruct Hb as [_ Hb].
      rewrite Hb, without_last; [done|]. rewrite <-Hb. by apply ranking_NoDup.
    + pose proof (listed_pop_back q Hp) as Hb. unfold FifoPolicy.PopVictim in Hpop.
      destruct (back (order q)); simplify_eq/=. destruct Hb as [_ Hb].
      rewrite Hb, without_last; [done|]. rewrite <-Hb. by apply ranking_NoDup.
    + destruct (ClockPolicy.PopVictim c); by simplify_eq/=.
    + pose proof (listed_pop_front q Hp) as Hb. unfold MruPolicy.PopVictim in Hpop.
      destruct (front (order q)); simplify_eq/=. destruct Hb as [_ Hb].
      rewrite Hb in Hnd. rewrite Hb, without_cons, decide_True by done.
      apply NoDup_cons in Hnd as [Hn _]. by rewrite without_not_in.
  - destruct p as [q|q|c|q]; simpl in *.
    + unfold LruPolicy.PopVictim in Hpop. by destruct (back (order q)); simplify_eq.
    + unfold FifoPolicy.PopVictim in Hpop. by destruct (back (order q)); simplify_eq.
    + destruct Hag as (_ & Hu & Ha & _). destruct Hv as (Hp' & Ht & Ht').
      destruct (ClockPolicy.PopVictim c) as [v c']; simplify_eq/=. split; [done|]. simpl in *.
      rewrite Ht in Hu, Ha. by rewrite Ht'.
    + unfold MruPolicy.PopVictim in Hpop. by destruct (front (order q)); simplify_eq.
Qed.

Lemma agrees_replay p es : policy_ok p -> tracked p = [] -> agrees (replay p es).
Proof.
  intros Hp Ht. assert (agrees (p, no_history)) as H0.
  { assert (forall k : InMemCacheBlock, k ∈ [] <-> is_Some ((∅ : gmap InMemCacheBlock nat) !! k)) as He.
    { intros k. rewrite lookup_empty. split; [intros H; inversion H|intros [? [=]]]. }
    split; [done|]. rewrite Ht. split; [done|]. split; [done|].
    assert (stamped ∅ 0 []) as Hs.
    { split; [constructor|]. split; [done|]. intros k t. by rewrite lookup_empty. }
    destruct p as [q|q|c|q]; simpl in *; rewrite ?Ht; done. }
  unfold replay. revert H0. generalize (p, no_history). clear p Hp Ht.
  induction es as [|e es IH]; intros ph Hph; simpl; [done|]. apply IH. destruct ph as [p h].
  destruct e; [by apply agrees_hit|by apply agrees_insert|by apply agrees_erase|by apply agrees_pop].
Qed.
End Replay.

(** ** Properties *)
Section Properties.
Implicit Types (es : list event).

Lemma replay_same_name p es : GetName (replay p es).1 = GetName p.
Proof.
  unfold replay. generalize no_history. revert p. induction es as [|e es IH]; intros p h; [done|].
  change (foldl react (p, h) (e :: es)) with (foldl react (react (p, h) e) es).
  destruct (react (p, h) e) as [p' h'] eqn:He. rewrite IH.
  destruct e, p; simpl in He; repeat case_match; by simplify_eq/=.
Qed.

Lemma named_policy p :
  match p with PLru _ => GetName p = "lru" | PFifo _ => GetName p = "fifo"
  | PClock _ => GetName p = "clock" | PMru _ => GetName p = "mru" end.
Proof. by destruct p. Qed.

Lemma replay_victim p h :
  agrees (p, h) ->
  match (PopVictim p).1 with
  | None => last_use h = ∅
  | Some k =>
      is_Some (last_use h !! k) /\
      (GetName p = "lru" -> oldest_in (last_use h) (Some k)) /\
      (GetName p = "fifo" -> oldest_in (arrival h) (Some k)) /\
      (GetName p = "mru" -> newest_in (last_use h) (Some k))
  end.
Proof.
  intros (Hp & Hu & _ & Hr). pose proof (PopVictim_law p Hp) as Hv.
  destruct (PopVictim p) as [[k|] p'] eqn:Hpop; simpl.
  - destruct Hv as [_ Ht]. split; [apply Hu; rewrite Ht; constructor|].
    destruct p as [q|q|c|q]; simpl in *; (split; [|split]); intros Hname; try done.
    + pose proof (listed_pop_back q Hp) as Hb. unfold LruPolicy.PopVictim in Hpop.
      destruct (back (order q)); simplify_eq/=. destruct Hb as [_ Hb]. rewrite Hb in Hr. by eapply stamped_last.
    + pose proof (listed_pop_back q Hp) as Hb. unfold FifoPolicy.PopVictim in Hpop.
      destruct (back (order q)); simplify_eq/=. destruct Hb as [_ Hb]. rewrite Hb in Hr. by eapply stamped_last.
    + pose proof (listed_pop_front q Hp) as Hb. unfold MruPolicy.PopVictim in Hpop.
      destruct (front (order q)); simplify_eq/=. destruct Hb as [_ Hb]. rewrite Hb in Hr. by eapply stamped_first.
  - destruct Hv as (_ & Ht & _). apply map_empty. intros k. apply eq_None_not_Some.
    rewrite <-Hu, Ht. intros H. inversion H.
Qed.

(** C13: whatever a policy has been told since its creation, the victim it chooses is
    one of the keys inserted and not erased or chosen since, and it is the one its name
    announces: for "lru" the key whose last insertion or hit is the oldest, for "fifo"
    the key that arrived first (a hit or a second insertion does not move it), for "mru"
    the key used last.  Every policy finds a victim as long as a key is tracked. *)
Theorem victim_of_history name p es :
  CreateEvictionPolicy name = Ok p ->
  let '(q, h) := replay p es in
  match (PopVictim q).1 with
  | None => last_use h = ∅
  | Some k =>
      is_Some (last_use h !! k) /\
      (name = "lru" -> oldest_in (last_use h) (Some k)) /\
      (name = "fifo" -> oldest_in (arrival h) (Some k)) /\
      (name = "mru" -> newest_in (last_use h) (Some k))
  end.
Proof.
  intros Hc. destruct (CreateEvictionPolicy_ok name p Hc) as (Hp & Ht & <-).
  rewrite <-(replay_same_name p es). pose proof (agrees_replay p es Hp Ht) as Ha.
  destruct (replay p es) as [q h]. by apply replay_victim.
Qed.

(** CLOCK gives every entry hit since the hand last passed it a second chance.
    Reading the ring from the hand: if the first entry whose reference bit is clear is
    preceded by [pre], it is the victim, the entries of [pre] lose their bit and move
    behind the others, and nothing else changes; if every entry has its bit set, the
    sweep clears them all, comes round and evicts the entry the hand started at. *)
Theorem clock_second_chance (c : ClockPolicy.clock) :
  clock_ok c ->
  (forall pre e post,
     clock_view c = pre ++ e :: post ->
     Forall (fun x => ClockPolicy.referenced x = true) pre -> ClockPolicy.referenced e = false ->
     (ClockPolicy.PopVictim c).1 = Some (ClockPolicy.ckey e) /\
     clock_view (ClockPolicy.PopVictim c).2 = post ++ (ClockPolicy.set_referenced false <$> pre)) /\
  (forall e rest,
     clock_view c = e :: rest ->
     Forall (fun x => ClockPolicy.referenced x = true) (e :: rest) ->
     (ClockPolicy.PopVictim c).1 = Some (ClockPolicy.ckey e) /\
     clock_view (ClockPolicy.PopVictim c).2 = ClockPolicy.set_referenced false <$> rest).
Proof.
  intros Hc. destruct (ClockPolicy_PopVictim c Hc) as [_ Hv]. split.
  - intros pre e post Hl Hp He. rewrite Hl, second_chance_first in Hv by
      (done || rewrite length_app; simpl; lia). by injection Hv.
  - intros e rest Hl Hall. rewrite Hl, second_chance_all in Hv by (done || simpl; lia). by injection Hv.
Qed.
End Properties.

Section Witnesses.
#[local] Definition b1 := MkBlock "a" 0 1.
#[local] Definition b2 := MkBlock "b" 0 1.
#[local] Definition b3 := MkBlock "c" 0 1.
#[local] Definition story : list event :=
  [EInsert b1 1; EInsert b2 1; EInsert b3 1; EHit b1; EErase b3; EInsert b3 1; EHit b2].

Lemma victim_of_history_witness :
  (PopVictim (replay (PLru new_listed) story).1).1 = Some b1 /\
  (PopVictim (replay (PFifo new_listed) story).1).1 = Some b1 /\
  (PopVictim (replay (PMru new_listed) story).1).1 = Some b2 /\
  let '(q, h) := replay (PLru new_listed) story in
  match (PopVictim q).1 with
  | None => last_use h = ∅
  | Some k =>
      is_Some (last_use h !! k) /\
      ("lru" = "lru" -> oldest_in (last_use h) (Some k)) /\
      ("lru" = "fifo" -> oldest_in (arrival h) (Some k)) /\
      ("lru" = "mru" -> newest_in (last_use h) (Some k))
  end.
Proof.
  split; [reflexivity|]. split; [reflexivity|]. split; [reflexivity|].
  apply (victim_of_history "lru" (PLru new_listed) story). reflexivity.
Defined.

#[local] Definition spun : ClockPolicy.clock :=
  ClockPolicy.OnHit b1 (ClockPolicy.OnInsert b2 1 (ClockPolicy.OnInsert b1 1 ClockPolicy.new_clock)).

Lemma spun_ok : clock_ok spun.
Proof.
  apply ClockPolicy_OnHit, ClockPolicy_OnInsert, ClockPolicy_OnInsert, clock_start_ok.
Qed.

Lemma clock_second_chance_witness :
  (ClockPolicy.PopVictim spun).1 = Some b2 /\
  clock_view (ClockPolicy.PopVictim spun).2 = [ClockPolicy.MkClockEntry b1 false].
Proof.
  apply (proj1 (clock_second_chance spun spun_ok) [ClockPolicy.MkClockEntry b1 true]
           (ClockPolicy.MkClockEntry b2 false) []); repeat constructor.
Defined.
End Witnesses.
