(* ===== verification/CppString.v ===== *)
(** * CppString

    The operations of [std::string] and the number parsers of the C++ library that the
    sources use, on [String.string]. *)
From S2P Require Import Prelude.
From Stdlib Require Import Strings.Ascii.
From Stdlib Require QArith.QArith_base.

#[local] Open Scope Z_scope.

(** [size]. *)
Definition str_size (s : string) : Z := Z.of_nat (String.length s).

(** [find]: [None] is [npos]. *)
Definition find (s pat : string) : option nat := String.index 0 pat s.
Definition contains (s pat : string) : bool := match find s pat with Some _ => true | None => false end.

Fixpoint find_char_from (pos : nat) (c : ascii) (s : string) : option nat :=
  match s with
  | EmptyString => None
  | String d s' => if Ascii.eqb d c then Some pos else find_char_from (S pos) c s'
  end.
Definition find_char (s : string) (c : ascii) : option nat := find_char_from 0 c s.

Fixpoint rfind_char_from (pos : nat) (c : ascii) (s : string) (best : option nat) : option nat :=
  match s with
  | EmptyString => best
  | String d s' => rfind_char_from (S pos) c s' (if Ascii.eqb d c then Some pos else best)
  end.
(** [rfind] of a character. *)
Definition rfind_char (s : string) (c : ascii) : option nat := rfind_char_from 0 c s None.

(** [substr (0, n)] and [substr (n)]. *)
Definition substr_to (n : nat) (s : string) : string := String.substring 0 n s.
Definition substr_from (n : nat) (s : string) : string := String.substring n (String.length s - n) s.

(** [back], when there is one; [pop_back]. *)
Fixpoint str_back (s : string) : option ascii :=
  match s with
  | EmptyString => None
  | String c EmptyString => Some c
  | String _ s' => str_back s'
  end.
Definition str_pop_back (s : string) : string := substr_to (String.length s - 1) s.

Definition starts_with (s pre : string) : bool := String.prefix pre s.

(** ** Numbers *)
Definition is_space (c : ascii) : bool :=
  let n := N_of_ascii c in ((n =? 32) || ((9 <=? n) && (n <=? 13)))%N.

Definition digit (c : ascii) : option Z :=
  let n := N_of_ascii c in
  if ((48 <=? n) && (n <=? 57))%N then Some (Z.of_N n - 48) else None.

Fixpoint skip_spaces (s : string) : string :=
  match s with String c s' => if is_space c then skip_spaces s' else s | EmptyString => s end.

(** The longest prefix of digits; [None] when there is none. *)
Fixpoint digits (acc : option Z) (s : string) : option Z :=
  match s with
  | EmptyString => acc
  | String c s' =>
      match digit c with
      | Some d => digits (Some (default 0 acc * 10 + d)) s'
      | None => acc
      end
  end.

(** [std::stoull]: [None] when it throws [invalid_argument] or [out_of_range]; what
    follows the digits is ignored, and a minus sign negates modulo 2^64. *)
Definition stoull (s : string) : option Z :=
  let s := skip_spaces s in
  let '(negative, s) :=
    match s with
    | String "-" s' => (true, s')
    | String "+" s' => (false, s')
    | _ => (false, s)
    end in
  match digits None s with
  | None => None
  | Some n => if n <? two64 then Some (if negative then u64 (- n) else n) else None
  end.

(** [std::to_string] of an unsigned number. *)
Fixpoint to_digits (fuel : nat) (n : Z) (acc : string) : string :=
  match fuel with
  | O => acc
  | S fuel =>
      let acc := String (ascii_of_N (Z.to_N (48 + n mod 10))) acc in
      if n <? 10 then acc else to_digits fuel (n / 10) acc
  end.
Definition to_string (n : Z) : string := to_digits 20 n EmptyString.

(** A [double]: its value, or one of the special ones. *)
Inductive double := Finite (q : QArith_base.Q) | NaN | Infinity (negative : bool).

(** [a < b]: false as soon as one of them is a NaN. *)
Definition double_lt (a b : double) : bool :=
  match a, b with
  | NaN, _ | _, NaN => false
  | Finite p, Finite q => negb (QArith_base.Qle_bool q p)
  | Infinity negative, Finite _ => negative
  | Finite _, Infinity negative => negb negative
  | Infinity n1, Infinity n2 => n1 && negb n2
  end.

(** [a <= b]. *)
Definition double_le (a b : double) : bool :=
  match a, b with
  | NaN, _ | _, NaN => false
  | _, _ => negb (double_lt b a)
  end.

Definition double_of_Z (n : Z) : double := Finite (QArith_base.inject_Z n).
