(* ===== verification/StringUtil.v ===== *)
(** * StringUtil

    The functions of DuckDB's [StringUtil] that the sources call, as an interface: the
    definitions that use them take an instance, and the theorems that need to know what
    they do assume their documented behaviour ([StringUtilLaws]).  [model_string_util]
    is an instance that keeps the laws. *)
From S2P Require Import Prelude CppString.
From Stdlib Require Import Strings.Ascii.

#[local] Open Scope string_scope.

Class StringUtil := {
  EndsWith : string -> string -> bool;
  StartsWith : string -> string -> bool;
  GetFileName : string -> string;
  Split : string -> string -> list string;
  (** The overload for a single character. *)
  SplitChar : string -> ascii -> list string;
  Join : list string -> string -> string;
  ToUnsigned : string -> Res Z;
  Trim : string -> string;
  Lower : string -> string
}.

Definition dash_free (s : string) : Prop := find_char s "-" = None.
Definition slash_free (s : string) : Prop := find_char s "/" = None.

Class StringUtilLaws `{StringUtil} := {
  EndsWith_law s t : EndsWith s t = true <-> exists p, s = p ++ t;
  StartsWith_law s t : StartsWith s t = true <-> exists p, s = t ++ p;
  (** [GetFileName]: what follows the last slash. *)
  GetFileName_law d f : slash_free f -> GetFileName (d ++ "/" ++ f) = f;
  GetFileName_slash_free s : slash_free (GetFileName s);
  (** [Split] on "-" drops nothing but empty pieces. *)
  Split_law s t : t <> "" -> dash_free t -> (exists c s', s = String c s' /\ c <> "-"%char) ->
    Split (s ++ "-" ++ t) "-" = (Split s "-" ++ [t])%list;
  Split_one t : t <> "" -> dash_free t -> Split t "-" = [t];
  SplitChar_nonempty s d : s <> "" -> SplitChar s d <> [];
  (** [ToUnsigned] reads decimal digits. *)
  ToUnsigned_law n : is_u64 n -> ToUnsigned (to_string n) = Ok n
}.

(** ** An instance *)
Fixpoint split_char (d : ascii) (cur : string) (s : string) : list string :=
  match s with
  | "" => if String.eqb cur "" then [] else [cur]
  | String c s' =>
      if Ascii.eqb c d then (if String.eqb cur "" then [] else [cur]) ++ split_char d "" s'
      else split_char d (cur ++ String c "") s'
  end%list.

Definition split_model (s d : string) : list string :=
  match split_char (default "-"%char (String.get 0 d)) "" s with [] => [s] | pieces => pieces end.

(** [std::getline] until the end of the string. *)
Fixpoint split_lines (d : ascii) (cur : string) (s : string) : list string :=
  match s with
  | "" => if String.eqb cur "" then [] else [cur]
  | String c s' => if Ascii.eqb c d then cur :: split_lines d "" s' else split_lines d (cur ++ String c "") s'
  end.

Definition file_name (s : string) : string :=
  match rfind_char s "/" with Some i => substr_from (i + 1) s | None => s end.

Definition ends_with (s t : string) : bool :=
  (String.length t <=? String.length s)%nat && String.eqb (substr_from (String.length s - String.length t) s) t.

Definition to_unsigned (s : string) : Res Z := of_option InvalidInputException (digits None s).

#[export] Instance model_string_util : StringUtil := {
  EndsWith := ends_with;
  StartsWith s t := String.prefix t s;
  GetFileName := file_name;
  Split := split_model;
  SplitChar s d := split_lines d "" s;
  Join l d := String.concat d l;
  ToUnsigned := to_unsigned;
  Trim s := s;
  Lower s := s
}.

Lemma append_cons c (s t : string) : String c s ++ t = String c (s ++ t).
Proof. done. Qed.

Lemma append_nil (t : string) : "" ++ t = t.
Proof. done. Qed.

Lemma append_nil_r (s : string) : s ++ "" = s.
Proof. induction s as [|c s IH]; [done|]. by rewrite append_cons, IH. Qed.

Lemma append_assoc (a b c : string) : (a ++ b) ++ c = a ++ (b ++ c).
Proof. induction a as [|x a IH]; [done|]. by rewrite !append_cons, IH. Qed.

Lemma length_append (a b : string) : String.length (a ++ b) = (String.length a + String.length b)%nat.
Proof. induction a as [|x a IH]; [done|]. rewrite append_cons. simpl. by rewrite IH. Qed.

Lemma substring_all (s : string) n : (String.length s <= n)%nat -> String.substring 0 n s = s.
Proof.
  revert n. induction s as [|c s IH]; intros n; simpl; [by destruct n|].
  destruct n as [|n]; [lia|]. intros Hn. rewrite IH by lia. done.
Qed.

Lemma substring_append_l (a b : string) n m :
  n = String.length a -> String.substring n m (a ++ b) = String.substring 0 m b.
Proof. intros ->. induction a as [|c a IH]; [done|]. rewrite append_cons. simpl. done. Qed.

Lemma substr_from_append (a b : string) : substr_from (String.length a) (a ++ b) = b.
Proof.
  unfold substr_from. rewrite substring_append_l by done. apply substring_all. rewrite length_append. lia.
Qed.

Lemma substr_to_append (a b : string) : substr_to (String.length a) (a ++ b) = a.
Proof.
  unfold substr_to. induction a as [|c a IH]; [by destruct b|]. rewrite append_cons. simpl. by rewrite IH.
Qed.

Lemma append_inj_len (a b c d : string) : String.length a = String.length c -> a ++ b = c ++ d -> a = c /\ b = d.
Proof.
  revert c. induction a as [|x a IH]; intros [|y c] Hl He; simpl in Hl; try done.
  rewrite !append_cons in He. injection He as -> He. injection Hl as Hl. by destruct (IH c Hl He) as [-> ->].
Qed.

Lemma find_char_from_shift pos n c s : find_char_from pos c s = None -> find_char_from n c s = None.
Proof.
  revert pos n. induction s as [|d s IH]; intros pos n; simpl; [done|].
  destruct (Ascii.eqb d c); [done|]. apply IH.
Qed.

Lemma find_char_append pos c a b :
  find_char_from pos c a = None -> find_char_from pos c (a ++ b) = find_char_from (pos + String.length a) c b.
Proof.
  revert pos. induction a as [|d a IH]; intros pos; [simpl; by rewrite Nat.add_0_r|].
  rewrite append_cons. simpl. destruct (Ascii.eqb d c); [done|]. intros Ha. rewrite IH by done. f_equal. lia.
Qed.

(** *** The instance keeps the laws *)
Lemma ends_with_law s t : ends_with s t = true <-> exists p, s = p ++ t.
Proof.
  unfold ends_with. rewrite andb_true_iff, Nat.leb_le, String.eqb_eq. split.
  - intros [Hl He]. exists (substr_to (String.length s - String.length t) s). rewrite <-He at 2.
    unfold substr_to, substr_from. generalize (String.length s - String.length t)%nat as n. clear Hl He.
    induction s as [|c s IH]; intros n; [by destruct n|]. destruct n as [|n]; simpl.
    + by rewrite substring_all.
    + rewrite append_cons. f_equal. apply IH.
  - intros [p ->]. rewrite length_append. split; [lia|].
    replace (String.length p + String.length t - String.length t)%nat with (String.length p) by lia.
    apply substr_from_append.
Qed.

Lemma prefix_law s t : String.prefix t s = true <-> exists p, s = t ++ p.
Proof.
  revert s. induction t as [|c t IH]; intros s.
  - split; [intros _; by exists s|intros _; by destruct s].
  - destruct s as [|d s]; [split; [done|intros [p Hp]; by rewrite append_cons in Hp]|].
    change (String.prefix (String c t) (String d s)) with (if ascii_dec c d then String.prefix t s else false).
    destruct (ascii_dec c d) as [->|Hne].
    + rewrite IH. split; intros [p Hp]; exists p; rewrite append_cons in *; [by subst|by injection Hp].
    + split; [done|]. intros [p Hp]. rewrite append_cons in Hp. by injection Hp.
Qed.

Lemma rfind_none pos c s best : find_char s c = None -> rfind_char_from pos c s best = best.
Proof.
  unfold find_char. intros Hf. apply (find_char_from_shift _ pos) in Hf. revert pos Hf.
  induction s as [|d s IH]; intros pos; simpl; [done|]. destruct (Ascii.eqb d c); [done|].
  intros Hf. apply IH. by eapply find_char_from_shift.
Qed.

Lemma rfind_append pos c a b best :
  rfind_char_from pos c (a ++ b) best = rfind_char_from (pos + String.length a) c b (rfind_char_from pos c a best).
Proof.
  revert pos best. induction a as [|d a IH]; intros pos best; [simpl; by rewrite Nat.add_0_r|].
  rewrite append_cons. simpl. rewrite IH. f_equal. lia.
Qed.

Lemma file_name_law d f : slash_free f -> file_name (d ++ "/" ++ f) = f.
Proof.
  intros Hf. unfold file_name, rfind_char. rewrite rfind_append. simpl.
  change ("/" ++ f) with (String "/" f). simpl. rewrite rfind_none by done.
  change (d ++ String "/" f) with (d ++ (String "/" "" ++ f)). rewrite <-append_assoc.
  replace (String.length d + 1)%nat with (String.length (d ++ String "/" "")) by (by rewrite length_append).
  apply substr_from_append.
Qed.

Lemma rfind_tail pos c s best i :
  rfind_char_from pos c s best = Some i ->
  (exists n, i = (pos + n)%nat /\ find_char (String.substring (S n) (String.length s - S n) s) c = None) \/
  (best = Some i /\ find_char s c = None).
Proof.
  revert pos best. induction s as [|d s IH]; intros pos best Hr; [by right|]. simpl in Hr.
  destruct (IH _ _ Hr) as [(n & -> & Hn)|[Hb Hn]].
  - left. exists (S n). split; [lia|done].
  - unfold find_char. simpl. destruct (Ascii.eqb d c) eqn:He.
    + left. injection Hb as <-. exists 0%nat. split; [lia|]. simpl. by rewrite Nat.sub_0_r, substring_all.
    + right. split; [done|]. by eapply find_char_from_shift.
Qed.

Lemma file_name_slash_free s : slash_free (file_name s).
Proof.
  unfold file_name, rfind_char. destruct (rfind_char_from 0 "/" s None) as [i|] eqn:Hr.
  - apply rfind_tail in Hr as [(n & -> & Hn)|[? _]]; [|done]. unfold substr_from, slash_free. simpl.
    by rewrite Nat.add_1_r.
  - unfold slash_free. assert (forall l pos best, best = None \/ rfind_char_from pos "/" l best <> None) as Hb.
    { induction l as [|d l IH]; intros pos best; simpl; [destruct best; auto|]. destruct best as [b|]; [right|by left].
      destruct (Ascii.eqb d "/"); destruct (IH (S pos) (Some pos)); destruct (IH (S pos) (Some b)); done. }
    revert Hr. unfold find_char. generalize 0%nat. induction s as [|d s IH]; intros pos Hr; [done|]. simpl in *.
    destruct (Ascii.eqb d "/").
    + destruct (Hb s (S pos) (Some pos)) as [?|Hx]; done.
    + by eapply IH.
Qed.

(** *** Characters that do not occur *)
Definition free (c : ascii) (s : string) : Prop := find_char s c = None.

Lemma free_cons c d s : free c (String d s) <-> d <> c /\ free c s.
Proof.
  unfold free, find_char. simpl. destruct (Ascii.eqb_spec d c) as [->|Hne]; [split; [done|intros [H _]; done]|].
  split; [intros Hs; split; [done|]|intros [_ Hs]]; by eapply find_char_from_shift.
Qed.

Lemma free_append c a b : free c (a ++ b) <-> free c a /\ free c b.
Proof.
  induction a as [|d a IH]; [split; [done|intros [_ H]; done]|]. rewrite append_cons, !free_cons, IH. tauto.
Qed.

(** A separator splits a string in one way, from the side where it does not occur. *)
Lemma last_separator_inj c d d' f f' : free c f -> free c f' -> d ++ String c f = d' ++ String c f' -> d = d' /\ f = f'.
Proof.
  intros Hf Hf'. revert d'. induction d as [|x d IH]; intros [|y d'] He; rewrite ?append_cons in He; injection He.
  - intros ->. done.
  - intros Heq ->. rewrite Heq in Hf. apply free_append in Hf as [_ Hf]. by apply free_cons in Hf as [].
  - intros Heq ->. rewrite <-Heq in Hf'. apply free_append in Hf' as [_ Hf']. by apply free_cons in Hf' as [].
  - intros Heq ->. by destruct (IH _ Heq) as [-> ->].
Qed.

Lemma first_separator_inj c d d' f f' : free c d -> free c d' -> d ++ String c f = d' ++ String c f' -> d = d' /\ f = f'.
Proof.
  revert d'. induction d as [|x d IH]; intros [|y d'] Hd Hd' He; rewrite ?append_cons in He; injection He.
  - intros ->. done.
  - intros _ ->. by apply free_cons in Hd' as [].
  - intros _ ->. by apply free_cons in Hd as [].
  - intros Heq ->. apply free_cons in Hd as [_ Hd], Hd' as [_ Hd']. by destruct (IH _ Hd Hd' Heq) as [-> ->].
Qed.

(** A path determines its directory and its name. *)
Lemma directory_inj d d' f f' : slash_free f -> slash_free f' -> d ++ "/" ++ f = d' ++ "/" ++ f' -> d = d' /\ f = f'.
Proof. apply last_separator_inj. Qed.

(** The last character of a concatenation is that of its second part. *)
Lemma append_last x t y c : t <> "" -> x ++ t = y ++ String c "" -> exists t', t = t' ++ String c "".
Proof.
  intros Ht. revert y. induction x as [|d x IH]; intros y He; [by exists y|].
  destruct y as [|e y]; rewrite ?append_cons in He; injection He; [|eauto].
  intros He' _. by destruct x.
Qed.

Lemma split_dash_free cur t : find_char t "-" = None -> split_char "-" cur t = (if String.eqb (cur ++ t) "" then [] else [cur ++ t]).
Proof.
  unfold find_char. intros Ht. revert cur. induction t as [|c t IH]; intros cur.
  - by rewrite append_nil_r.
  - simpl in *. destruct (Ascii.eqb c "-"); [done|]. rewrite IH by (by eapply find_char_from_shift).
    change (String c t) with (String c "" ++ t). by rewrite append_assoc.
Qed.

Lemma split_dash_last cur s t :
  t <> "" -> find_char t "-" = None -> split_char "-" cur (s ++ "-" ++ t) = (split_char "-" cur s ++ [t])%list.
Proof.
  intros Ht Hf. revert cur. induction s as [|c s IH]; intros cur.
  - rewrite append_nil. change ("-" ++ t) with (String "-" t). simpl. rewrite split_dash_free by done.
    rewrite append_nil. by rewrite (proj2 (String.eqb_neq t "")).
  - rewrite append_cons. simpl. destruct (Ascii.eqb c "-"); rewrite IH; [|done]. by rewrite app_assoc.
Qed.

Lemma split_char_nonempty d cur s : cur <> "" -> split_char d cur s <> [].
Proof.
  revert cur. induction s as [|c s IH]; intros cur Hc; simpl; rewrite (proj2 (String.eqb_neq cur "")) by done; [done|].
  destruct (Ascii.eqb c d); [done|]. apply IH. by destruct cur.
Qed.

Lemma split_lines_nonempty d cur s : cur <> "" \/ s <> "" -> split_lines d cur s <> [].
Proof.
  revert cur. induction s as [|c s IH]; intros cur Hc; simpl.
  - destruct Hc; [|done]. by rewrite (proj2 (String.eqb_neq cur "")).
  - destruct (Ascii.eqb c d); [done|]. apply IH. left. by destruct cur.
Qed.

Lemma split_model_eq s d : split_char (default "-"%char (String.get 0 d)) "" s <> [] ->
  split_model s d = split_char (default "-"%char (String.get 0 d)) "" s.
Proof. unfold split_model. by destruct (split_char _ _ _). Qed.

(** ** Decimal numbers *)
Definition digit_char (d : Z) : ascii := ascii_of_N (Z.to_N (48 + d)).

Lemma digit_cases (P : Z -> Prop) d :
  P 0%Z -> P 1%Z -> P 2%Z -> P 3%Z -> P 4%Z -> P 5%Z -> P 6%Z -> P 7%Z -> P 8%Z -> P 9%Z -> (0 <= d < 10)%Z -> P d.
Proof.
  intros. assert (d = 0 \/ d = 1 \/ d = 2 \/ d = 3 \/ d = 4 \/ d = 5 \/ d = 6 \/ d = 7 \/ d = 8 \/ d = 9)%Z as Hd by lia.
  repeat (destruct Hd as [->|Hd]; [done|]). by subst.
Qed.

Lemma digit_digit_char d : (0 <= d < 10)%Z -> digit (digit_char d) = Some d.
Proof. by apply (digit_cases (fun d => digit (digit_char d) = Some d)). Qed.

Lemma digit_char_not d c : (0 <= d < 10)%Z -> digit c = None -> Ascii.eqb (digit_char d) c = false.
Proof.
  intros Hd Hc. apply Ascii.eqb_neq. intros <-. by rewrite digit_digit_char in Hc.
Qed.

Lemma digits_to_digits fuel n s a :
  (0 <= n < 10 ^ Z.of_nat fuel)%Z -> (0 < fuel)%nat ->
  exists k, digits a (to_digits fuel n s) = digits (Some (default 0 a * 10 ^ k + n)%Z) s /\ (0 <= k)%Z.
Proof.
  revert n s a. induction fuel as [|fuel IH]; intros n s a Hn Hf; [lia|]. simpl to_digits.
  pose proof (Z.mod_pos_bound n 10 ltac:(lia)) as Hm. fold (digit_char (n mod 10)).
  destruct (Z.ltb_spec n 10) as [Hs|Hs].
  - exists 1%Z. split; [|lia]. simpl digits. rewrite digit_digit_char by done. rewrite Z.mod_small by lia.
    do 2 f_equal; lia.
  - rewrite Nat2Z.inj_succ, Z.pow_succ_r in Hn by lia.
    assert (0 < fuel)%nat by (destruct fuel; [simpl in Hn; lia|lia]).
    destruct (IH (n / 10)%Z (String (digit_char (n mod 10)) s) a) as (k & Hk & H0); [|done|].
    { split; [apply Z.div_pos; lia|apply Z.div_lt_upper_bound; lia]. }
    exists (k + 1)%Z. split; [|lia]. rewrite Hk. simpl digits. rewrite digit_digit_char by done. do 2 f_equal.
    simpl. rewrite Z.pow_add_r by lia. pose proof (Z.div_mod n 10 ltac:(lia)). lia.
Qed.

Lemma digits_to_string n : is_u64 n -> digits None (to_string n) = Some n.
Proof.
  intros [H0 H1]. destruct (digits_to_digits 20 n "" None) as (k & Hk & _); [split; [done|]|lia|].
  { assert (10 ^ Z.of_nat 20 = 100000000000000000000)%Z as -> by reflexivity. lia. }
  unfold to_string. rewrite Hk. simpl. f_equal.
Qed.

Lemma to_string_inj n m : is_u64 n -> is_u64 m -> to_string n = to_string m -> n = m.
Proof. intros Hn Hm He. apply digits_to_string in Hn, Hm. congruence. Qed.

Lemma find_char_to_digits fuel n s c :
  (0 <= n)%Z -> digit c = None -> find_char s c = None -> find_char (to_digits fuel n s) c = None.
Proof.
  revert n s. induction fuel as [|fuel IH]; intros n s Hn Hc Hs; [done|]. simpl.
  pose proof (Z.mod_pos_bound n 10 ltac:(lia)) as Hm. fold (digit_char (n mod 10)).
  assert (find_char (String (digit_char (n mod 10)) s) c = None) as Hs'.
  { unfold find_char. simpl. rewrite digit_char_not by done. by eapply find_char_from_shift. }
  destruct (n <? 10)%Z; [done|]. apply IH; [apply Z.div_pos; lia|done|done].
Qed.

Lemma to_string_find n c : is_u64 n -> digit c = None -> find_char (to_string n) c = None.
Proof. intros [H0 _] Hc. by apply find_char_to_digits. Qed.

Lemma to_string_nonempty n : is_u64 n -> to_string n <> "".
Proof. intros Hn He. apply digits_to_string in Hn. rewrite He in Hn. done. Qed.

#[export] Instance model_string_util_laws : StringUtilLaws.
Proof.
  split.
  - apply ends_with_law.
  - intros s t. apply prefix_law.
  - intros d f. apply file_name_law.
  - intros s. apply file_name_slash_free.
  - intros s t Ht Hd (c & s' & -> & Hc). simpl Split.
    assert (split_char "-" "" (String c s') <> []) as Hs.
    { simpl. rewrite (proj2 (Ascii.eqb_neq c "-")) by done. by apply split_char_nonempty. }
    rewrite split_model_eq; [rewrite split_model_eq by done; by apply split_dash_last|].
    simpl String.get. simpl default. rewrite split_dash_last by done. by destruct (split_char "-" "" (String c s')).
  - intros t Ht Hd. simpl Split. assert (split_char "-" "" t = [t]) as Hs.
    { rewrite split_dash_free by done. rewrite append_nil. by rewrite (proj2 (String.eqb_neq t "")). }
    rewrite split_model_eq; simpl String.get; simpl default; by rewrite Hs.
  - intros s d Hs. by apply split_lines_nonempty; right.
  - intros n Hn. simpl. unfold to_unsigned. by rewrite digits_to_string.
Qed.
