(* ===== verification/Config.v ===== *)
(** * Config

    The configuration constants ([src/src/cache_filesystem_config.cpp]), the size
    literals, the executor mode and the thread count of a read. *)
From S2P Require Import Prelude.
From Stdlib Require QArith.QArith_base.

#[local] Open Scope Z_scope.

(** ** Size literals ([src/src/utils/include/size_literals.hpp]) *)
Definition KiB (n : Z) : Z := n *u 1024.
Definition MiB (n : Z) : Z := n *u 1048576.

(** ** Names *)
Definition NOOP_CACHE_TYPE : string := "noop".
Definition ON_DISK_CACHE_TYPE : string := "on_disk".
Definition IN_MEM_CACHE_TYPE : string := "in_mem".
Definition ALL_CACHE_TYPES : list string := [NOOP_CACHE_TYPE; ON_DISK_CACHE_TYPE; IN_MEM_CACHE_TYPE].

Definition NOOP_CACHE_READER_NAME : string := "noop_cache_reader".
Definition ON_DISK_CACHE_READER_NAME : string := "on_disk_cache_reader".
Definition IN_MEM_CACHE_READER_NAME : string := "in_mem_cache_reader".

Definition ON_DISK_CREATION_TIMESTAMP_EVICTION : string := "creation_timestamp".
Definition ON_DISK_LRU_SINGLE_PROC_EVICTION : string := "lru_sp".

Definition NOOP_PROFILE_TYPE : string := "noop".
Definition TEMP_PROFILE_TYPE : string := "temp".
Definition ALL_PROFILE_TYPES : list string := [NOOP_PROFILE_TYPE; TEMP_PROFILE_TYPE].

Definition EXT_BOUNDED_STORAGE : string := "extension".
Definition OBJECT_CACHE_STORAGE : string := "object_cache".
Definition POLICY_STORAGE : string := "policy".
Definition ALL_IN_MEM_CACHE_STORAGES : list string := [EXT_BOUNDED_STORAGE; OBJECT_CACHE_STORAGE; POLICY_STORAGE].

Definition FIXED_CHUNKING : string := "fixed".
Definition COLUMN_CHUNK_CHUNKING : string := "column_chunk".
Definition ALL_CHUNKINGS : list string := [FIXED_CHUNKING; COLUMN_CHUNK_CHUNKING].
Definition DEFAULT_CHUNKING : string := FIXED_CHUNKING.

Definition GLOBAL_POLICY_SCOPE : string := "global".
Definition PER_FILE_POLICY_SCOPE : string := "per_file".
Definition ALL_POLICY_SCOPES : list string := [GLOBAL_POLICY_SCOPE; PER_FILE_POLICY_SCOPE].
Definition DEFAULT_POLICY_SCOPE : string := GLOBAL_POLICY_SCOPE.

Definition DEFAULT_EVICTION_POLICY : string := "lru".
Definition DEFAULT_IN_MEM_CACHE_BYTES : Z := 0.
Definition DEFAULT_SIM_LATENCY_US : Z := 0.
Definition DEFAULT_SIM_BANDWIDTH_GBPS : QArith_base.Q := QArith_base.inject_Z 0.

Definition INTERNAL_THREAD_POOL_EXECUTOR : string := "internal_thread_pool".
Definition DUCKDB_TASK_SCHEDULER_EXECUTOR : string := "duckdb_task_scheduler".
Definition ALL_PARALLEL_EXECUTOR_MODES : list string := [INTERNAL_THREAD_POOL_EXECUTOR; DUCKDB_TASK_SCHEDULER_EXECUTOR].
Definition DEFAULT_PARALLEL_READ_MODE : string := INTERNAL_THREAD_POOL_EXECUTOR.

(** ** Defaults *)
Definition DEFAULT_CACHE_BLOCK_SIZE : Z := KiB 512.
Definition DEFAULT_CACHE_TYPE : string := ON_DISK_CACHE_TYPE.
Definition DEFAULT_IN_MEM_CACHE_STORAGE : string := EXT_BOUNDED_STORAGE.
Definition DEFAULT_ON_DISK_EVICTION_POLICY : string := ON_DISK_CREATION_TIMESTAMP_EVICTION.
(** 0.05, rounded to the nearest [double]. *)
Definition MIN_DISK_SPACE_PERCENTAGE_FOR_CACHE : QArith_base.Q :=
  QArith_base.Qmake 3602879701896397 72057594037927936.
Definition DEFAULT_ENABLE_DISK_READER_MEM_CACHE : bool := true.
Definition DEFAULT_MAX_DISK_READER_MEM_CACHE_BLOCK_COUNT : Z := 256.
Definition DEFAULT_DISK_READER_MEM_CACHE_TIMEOUT_MILLISEC : Z := 1800 *u 1000.
Definition DEFAULT_MAX_IN_MEM_CACHE_BLOCK_COUNT : Z := 256.
Definition DEFAULT_IN_MEM_BLOCK_CACHE_TIMEOUT_MILLISEC : Z := 3600 *u 1000.
Definition DEFAULT_MAX_METADATA_CACHE_ENTRY : Z := 250.
Definition DEFAULT_METADATA_CACHE_ENTRY_TIMEOUT_MILLISEC : Z := 3600 *u 1000.
Definition CACHE_FILE_STALENESS_SECOND : Z := 24 * 3600.
Definition CACHE_FILE_STALENESS_MILLISEC : Z := CACHE_FILE_STALENESS_SECOND *u 1000.
Definition CACHE_FILE_STALENESS_MICROSEC : Z := CACHE_FILE_STALENESS_MILLISEC *u 1000.
Definition DEFAULT_MAX_FILE_HANDLE_CACHE_ENTRY : Z := 250.
Definition DEFAULT_FILE_HANDLE_CACHE_ENTRY_TIMEOUT_MILLISEC : Z := 3600 *u 1000.
Definition DEFAULT_MAX_GLOB_CACHE_ENTRY : Z := 64.
Definition DEFAULT_GLOB_CACHE_ENTRY_TIMEOUT_MILLISEC : Z := 1800 *u 1000.
Definition DEFAULT_PROFILE_TYPE : string := NOOP_PROFILE_TYPE.
Definition DEFAULT_MAX_SUBREQUEST_COUNT : Z := 0.
Definition DEFAULT_ENABLE_METADATA_CACHE : bool := true.
Definition DEFAULT_ENABLE_FILE_HANDLE_CACHE : bool := true.
Definition DEFAULT_ENABLE_GLOB_CACHE : bool := true.
Definition DEFAULT_ENABLE_CACHE_VALIDATION : bool := false.
Definition DEFAULT_CLEAR_CACHE_ON_WRITE : bool := false.
Definition DEFAULT_IGNORE_SIGPIPE : bool := false.
Definition DEFAULT_MIN_DISK_BYTES_FOR_CACHE : Z := 0.

(** ** Executors *)
Inductive ParallelExecutorMode := INTERNAL_THREAD_POOL | DUCKDB_TASK_SCHEDULER.

#[export] Instance ParallelExecutorMode_eq_dec : EqDecision ParallelExecutorMode.
Proof. solve_decision. Defined.

Definition ParseParallelExecutorMode (mode : string) : Res ParallelExecutorMode :=
  if String.eqb mode INTERNAL_THREAD_POOL_EXECUTOR then Ok INTERNAL_THREAD_POOL
  else if String.eqb mode DUCKDB_TASK_SCHEDULER_EXECUTOR then Ok DUCKDB_TASK_SCHEDULER
  else Throw InvalidInputException.

Definition GetThreadCountForSubrequests (io_request_count max_subrequest_count : Z) : Z :=
  if max_subrequest_count =? 0 then Z.min io_request_count 1024
  else Z.min io_request_count max_subrequest_count.

(** [CreateParallelExecutor] takes at least one task and never more than the request. *)
Lemma thread_count_bounds n m :
  0 < n -> 0 <= m ->
  1 <= GetThreadCountForSubrequests n m <= n /\
  GetThreadCountForSubrequests n m <= (if m =? 0 then 1024 else m).
Proof. intros Hn Hm. unfold GetThreadCountForSubrequests. destruct (Z.eqb_spec m 0); lia. Qed.
