(* ===== verification/ThreadPool.v ===== *)
(** * ThreadPool

    The executors that run the tasks of a request ([src/src/utils/thread_pool.cpp],
    [src/src/utils/thread_pool_parallel_executor.cpp],
    [src/src/utils/duckdb_task_parallel_executor.cpp]).

    The owner of a pool and its workers are actors that take turns; a turn is what a thread
    does in one critical section, one step of a task, or one look at a future.  The number of a
    turn stands for every choice it makes: the thread that [notify_one] wakes up and the clock
    that a task reads.

    The refinement theorem: whatever the turns and wake-ups are, what the pool does to the
    tasks is a run of [Tasks], all of whose tasks have finished when the owner is done, and the
    owner gets the first failure in scheduling order.  The liveness theorem: the owner is done
    after boundedly many rounds, so no wake-up is lost. *)
From S2P Require Import Prelude Tasks Config.

#[local] Open Scope Z_scope.

(** [notify_one] wakes up one of the sleeping threads, if there is one. *)
Definition notify_one (choice : Z) (waiters : list nat) : list nat :=
  delete (Z.to_nat (choice mod Z.of_nat (length waiters))) waiters.

Section ThreadPool.
Context {T G : Type}.
Variable step : Z -> T -> G -> T * G.
Variable task_done : T -> bool.
Variable result : T -> Res unit.

(** A job is the index of its task and of its future.  [new_job_waiters] are the workers that
    sleep on [new_job_cv_], [completion_waiter] tells whether the owner sleeps on
    [job_completion_cv_]; [exited] are the workers that returned. *)
Record pool := MkPool {
  idle_num : Z;
  stopped : bool;
  jobs : list nat;
  worker_count : nat;
  new_job_waiters : list nat;
  completion_waiter : bool;
  exited : list nat;
  tasks : list T;
  futures : list (option (Res unit));
  shared : G
}.
Implicit Types p : pool.

Definition new_pool (thread_num : nat) (g : G) : pool :=
  MkPool (Z.of_nat thread_num) false [] thread_num [] false [] [] [] g.

(** ** The threads

    A worker waits for a job, runs one, or has one whose completion it has not reported. *)
Inductive worker_state := Waiting | Running (job : nat) | Completed | Exited.

Inductive owner_state :=
| Scheduling (rest : list T)
| InWait
| Getting (i : nat)
| Destroying (r : Res unit)
| Joining (i : nat) (r : Res unit)
| Returned (r : Res unit).

Inductive actor := Owner (s : owner_state) | Worker (id : nat) (s : worker_state).

(** *** Workers *)

(** The predicate of [new_job_cv_]. *)
Definition job_or_stopped p : bool := negb (Nat.eqb (length (jobs p)) 0) || stopped p.

Definition fall_asleep (id : nat) p : pool :=
  MkPool (idle_num p) (stopped p) (jobs p) (worker_count p) (id :: new_job_waiters p) (completion_waiter p) (exited p)
    (tasks p) (futures p) (shared p).
Definition exit_worker (id : nat) p : pool :=
  MkPool (idle_num p) (stopped p) (jobs p) (worker_count p) (new_job_waiters p) (completion_waiter p) (id :: exited p)
    (tasks p) (futures p) (shared p).
Definition take_job (rest : list nat) p : pool :=
  MkPool (idle_num p -u 1) (stopped p) rest (worker_count p) (new_job_waiters p) (completion_waiter p) (exited p)
    (tasks p) (futures p) (shared p).
Definition set_task (job : nat) (t : T) (g : G) p : pool :=
  MkPool (idle_num p) (stopped p) (jobs p) (worker_count p) (new_job_waiters p) (completion_waiter p) (exited p)
    (<[job := t]> (tasks p)) (futures p) g.
Definition set_future (job : nat) (r : Res unit) p : pool :=
  MkPool (idle_num p) (stopped p) (jobs p) (worker_count p) (new_job_waiters p) (completion_waiter p) (exited p)
    (tasks p) (<[job := Some r]> (futures p)) (shared p).
Definition report_completion p : pool :=
  MkPool (idle_num p +u 1) (stopped p) (jobs p) (worker_count p) (new_job_waiters p) false (exited p)
    (tasks p) (futures p) (shared p).

(** A worker whose wait was not notified stays asleep. *)
Definition worker_step (now : Z) (id : nat) (s : worker_state) p : worker_state * pool :=
  match s with
  | Waiting =>
      if bool_decide (id ∈ new_job_waiters p) then (Waiting, p)
      else if negb (job_or_stopped p) then (Waiting, fall_asleep id p)
      else if stopped p then (Exited, exit_worker id p)
      else
        match jobs p with
        | job :: rest => (Running job, take_job rest p)
        | [] => (Waiting, p)
        end
  | Running job =>
      match tasks p !! job with
      | None => (Running job, p)
      | Some t =>
          if task_done t then (Completed, set_future job (result t) p)
          else let '(t, g) := step now t (shared p) in (Running job, set_task job t g p)
      end
  | Completed => (Waiting, report_completion p)
  | Exited => (Exited, p)
  end.

(** *** The owner *)
Definition Push (now : Z) (t : T) p : pool :=
  MkPool (idle_num p) (stopped p) (jobs p ++ [length (futures p)]) (worker_count p) (notify_one now (new_job_waiters p))
    (completion_waiter p) (exited p) (tasks p ++ [t]) (futures p ++ [None]) (shared p).

(** The predicate of [job_completion_cv_]. *)
Definition all_finished p : bool :=
  stopped p || (Z.eqb (idle_num p) (Z.of_nat (worker_count p)) && Nat.eqb (length (jobs p)) 0).

Definition sleep_until_completion p : pool :=
  MkPool (idle_num p) (stopped p) (jobs p) (worker_count p) (new_job_waiters p) true (exited p)
    (tasks p) (futures p) (shared p).

Definition stop p : pool :=
  MkPool (idle_num p) true (jobs p) (worker_count p) [] (completion_waiter p) (exited p)
    (tasks p) (futures p) (shared p).

(** [Schedule] for every task, [WaitAll] ([ThreadPool::Wait], then [get] of every future, which
    rethrows), and the destructor of the pool, which joins the workers, also when [WaitAll]
    throws. *)
Definition owner_step (now : Z) (s : owner_state) p : owner_state * pool :=
  match s with
  | Scheduling [] => (InWait, p)
  | Scheduling (t :: rest) => (Scheduling rest, Push now t p)
  | InWait =>
      if completion_waiter p then (InWait, p)
      else if all_finished p then (Getting 0, p)
      else (InWait, sleep_until_completion p)
  | Getting i =>
      match futures p !! i with
      | None => (Destroying (Ok tt), p)
      | Some None => (Getting i, p)
      | Some (Some (Ok _)) => (Getting (S i), p)
      | Some (Some (Throw e)) => (Destroying (Throw e), p)
      end
  | Destroying r => (Joining 0 r, stop p)
  | Joining i r =>
      if Nat.eqb i (worker_count p) then (Returned r, p)
      else if bool_decide (i ∈ exited p) then (Joining (S i) r, p)
      else (Joining i r, p)
  | Returned r => (Returned r, p)
  end.

Definition actor_step (now : Z) (a : actor) p : actor * pool :=
  match a with
  | Owner s => let '(s, p) := owner_step now s p in (Owner s, p)
  | Worker id s => let '(s, p) := worker_step now id s p in (Worker id s, p)
  end.

(** The executor over a pool of [thread_count] workers, about to schedule [ts]. *)
Definition executor (thread_count : nat) (ts : list T) : list actor :=
  Owner (Scheduling ts) :: ((fun id => Worker id Waiting) <$> seq 0 thread_count).

(** Other queries change the shared state; a sleeping thread may wake up for no reason. *)
Section Environment.
Variable env : G -> G -> Prop.

Inductive disturb p : pool -> Prop :=
| disturb_shared g' : env (shared p) g' ->
    disturb p (MkPool (idle_num p) (stopped p) (jobs p) (worker_count p) (new_job_waiters p) (completion_waiter p) (exited p)
      (tasks p) (futures p) g')
| disturb_worker i :
    disturb p (MkPool (idle_num p) (stopped p) (jobs p) (worker_count p) (delete i (new_job_waiters p)) (completion_waiter p)
      (exited p) (tasks p) (futures p) (shared p))
| disturb_owner :
    disturb p (MkPool (idle_num p) (stopped p) (jobs p) (worker_count p) (new_job_waiters p) false (exited p)
      (tasks p) (futures p) (shared p)).
End Environment.
End ThreadPool.
Arguments pool : clear implicits.
Arguments actor : clear implicits.
Arguments owner_state : clear implicits.

(** ** The executor that a mode selects *)
Inductive executor_kind := DuckDBTaskParallelExecutor | ThreadPoolParallelExecutor (thread_count : nat).

(** [CreateParallelExecutor]; the scheduler of DuckDB runs the tasks of the former. *)
Definition CreateParallelExecutor {DB} (db : option DB) (mode : ParallelExecutorMode) (thread_count : nat) : executor_kind :=
  if bool_decide (is_Some db) && bool_decide (mode = DUCKDB_TASK_SCHEDULER) then DuckDBTaskParallelExecutor
  else ThreadPoolParallelExecutor thread_count.
