(* ===== verification/Utils.v ===== *)
(** * Utils

    The small helpers under [src/src/utils]: the suffixes of byte counts
    ([include/size_literals.hpp]), the clocks ([time_utils.cpp]), the names of threads
    ([thread_utils.cpp]) and the executor on the task scheduler of DuckDB
    ([duckdb_task_parallel_executor.cpp]). *)
From S2P Require Import Prelude CppString Config Handler.

#[local] Open Scope Z_scope.
#[local] Open Scope u64_scope.

(** ** Byte counts

    The integer suffixes; [KiB] and [MiB] are in [Config].  They wrap around. *)
Definition PiB (sz : Z) : Z := sz *u 1024 *u 1024 *u 1024 *u 1024 *u 1024.
Definition PB (sz : Z) : Z := sz *u 1000 *u 1000 *u 1000 *u 1000 *u 1000.
Definition TiB (sz : Z) : Z := sz *u 1024 *u 1024 *u 1024 *u 1024.
Definition TB (sz : Z) : Z := sz *u 1000 *u 1000 *u 1000 *u 1000.
Definition GiB (sz : Z) : Z := sz *u 1024 *u 1024 *u 1024.
Definition GB (sz : Z) : Z := sz *u 1000 *u 1000 *u 1000.
Definition MB (sz : Z) : Z := sz *u 1000 *u 1000.
Definition KB (sz : Z) : Z := sz *u 1000.
Definition B (sz : Z) : Z := sz.

Lemma u64_mul_l a b : u64 (u64 a * b) = u64 (a * b).
Proof. unfold u64. by rewrite Zmult_mod_idemp_l. Qed.

(** Each suffix multiplies by its power; the result is exact as long as it fits. *)
Lemma byte_count_exact sz :
  PiB sz = u64 (sz * 2 ^ 50) /\ TiB sz = u64 (sz * 2 ^ 40) /\ GiB sz = u64 (sz * 2 ^ 30) /\
  PB sz = u64 (sz * 10 ^ 15) /\ TB sz = u64 (sz * 10 ^ 12) /\ GB sz = u64 (sz * 10 ^ 9) /\
  MB sz = u64 (sz * 10 ^ 6) /\ KB sz = u64 (sz * 10 ^ 3).
Proof.
  unfold PiB, TiB, GiB, PB, TB, GB, MB, KB. repeat split; repeat (rewrite u64_mul_l, <-?Z.mul_assoc); apply (f_equal u64); lia.
Qed.

(** ** Clocks

    [now] is what the clock reads in nanoseconds, of 64 bits with sign; the division is
    unsigned. *)
Definition kMilliToNanos : Z := 1000 * 1000.
Definition GetSteadyNowNanoSecSinceEpoch (now : Z) : Z := now.
Definition GetSteadyNowMilliSecSinceEpoch (now : Z) : Z := i64 (u64 (GetSteadyNowNanoSecSinceEpoch now) / kMilliToNanos).
Definition GetSystemNowNanoSecSinceEpoch (now : Z) : Z := now.
Definition GetSystemNowMilliSecSinceEpoch (now : Z) : Z := i64 (u64 (GetSystemNowNanoSecSinceEpoch now) / kMilliToNanos).

(** After the epoch the milliseconds are the whole ones of the nanoseconds, they never go
    back and they are good for unsigned arithmetic. *)
Lemma milliseconds_of_nanoseconds now :
  0 <= now < 9223372036854775808 -> GetSteadyNowMilliSecSinceEpoch now = now / 1000000 /\ 0 <= now / 1000000 < two64.
Proof.
  intros Hn. unfold GetSteadyNowMilliSecSinceEpoch, GetSteadyNowNanoSecSinceEpoch, kMilliToNanos.
  change (1000 * 1000) with 1000000. rewrite u64_small by lia.
  assert (0 <= now / 1000000 <= now) as Hd by (split; [apply Z.div_pos; lia|apply Z.div_le_upper_bound; lia]).
  split; [|lia]. unfold i64. rewrite u64_small by lia. by rewrite (proj2 (Z.ltb_lt _ _)) by lia.
Qed.

Lemma milliseconds_monotone now now' :
  0 <= now <= now' -> now' < 9223372036854775808 ->
  GetSteadyNowMilliSecSinceEpoch now <= GetSteadyNowMilliSecSinceEpoch now'.
Proof.
  intros Hn Hn'. rewrite (proj1 (milliseconds_of_nanoseconds now ltac:(lia))), (proj1 (milliseconds_of_nanoseconds now' ltac:(lia))).
  apply Z.div_le_mono; lia.
Qed.

(** Before the epoch the unsigned division makes the time leap forward: one nanosecond before
    it is more than five hundred years after it. *)
Example milliseconds_before_epoch : GetSystemNowMilliSecSinceEpoch (-1) = 18446744073709.
Proof. vm_compute. reflexivity. Qed.

(** ** Threads

    What [SetThreadName] passes to the system on Linux. *)
Definition SetThreadName (thread_name : string) : string := String.substring 0 15 thread_name.

Lemma substring_at_most n m s : (String.length (String.substring n m s) <= m)%nat.
Proof.
  revert n m. induction s as [|c s IH]; intros n m; destruct n, m; simpl; try lia; [specialize (IH 0%nat m); lia|apply (IH n 0%nat)|apply (IH n (S m))].
Qed.

(** The name fits, its terminator included. *)
Lemma thread_name_fits thread_name : (String.length (SetThreadName thread_name) < 16)%nat.
Proof. pose proof (substring_at_most 0 15 thread_name). unfold SetThreadName. lia. Qed.

(** ** The executor on the task scheduler

    DuckDB's [TaskExecutor]: [te_schedule] gives it a task and [te_work] works on the tasks
    until they are done. *)
Class TaskExecutor (E T : Type) := {
  te_schedule : T -> E -> Res unit * E;
  te_work : E -> Res unit * E
}.

Module DuckDBTaskParallelExecutor.
Section Executor.
Context {E F : Type} `{TaskExecutor E F}.

(** A [FunctionTask] runs the function it was made of. *)
Definition FunctionTask (fn : F) : F := fn.
Definition Schedule (task : F) : Handler E unit := te_schedule (FunctionTask task).
Definition WaitAll : Handler E unit := te_work.
End Executor.
End DuckDBTaskParallelExecutor.
