(* ===== verification/ThreadPoolProofs.v ===== *)
(** * ThreadPoolProofs

    The pool of [ThreadPool] runs tasks as [Tasks] does, and waiting for it ends. *)
From S2P Require Import Prelude Tasks ThreadPool.

#[local] Open Scope Z_scope.

Section Invariant.
Context {T G : Type}.
Variable step : Z -> T -> G -> T * G.
Variable task_done : T -> bool.
Variable result : T -> Res unit.
Implicit Types (p : pool T G) (ts : list (actor T)) (s : owner_state T).

(** A worker that took a job and has not reported its completion; one that runs job [j]. *)
Definition busy (a : actor T) : Prop :=
  match a with Worker _ (Running _) | Worker _ Completed => True | _ => False end.
Definition runs (j : nat) (a : actor T) : Prop :=
  match a with Worker _ (Running j') => j = j' | _ => False end.

#[local] Instance busy_dec a : Decision (busy a).
Proof. destruct a as [|? []]; simpl; apply _. Defined.
#[local] Instance runs_dec j a : Decision (runs j a).
Proof. destruct a as [|? []]; simpl; apply _. Defined.

Definition settled (fs : list (option (Res unit))) (j : nat) : nat :=
  match fs !! j with Some (Some _) => 1 | _ => 0 end.

(** The phases of the owner: after [ThreadPool::Wait], and after the pool is stopped. *)
Definition waited s : Prop :=
  match s with Scheduling _ | InWait => False | _ => True end.
Definition stopping s : Prop :=
  match s with Joining _ _ | Returned _ => True | _ => False end.

Definition owner_result (s : owner_state T) (tasks : list T) : Prop :=
  match s with
  | Scheduling _ | InWait => True
  | Getting i => (i <= length tasks)%nat /\ first_failure result (take i tasks) = Ok tt
  | Destroying r | Joining _ r | Returned r => r = first_failure result tasks
  end.

Definition owner_joined (s : owner_state T) (n : nat) (exited : list nat) : Prop :=
  match s with
  | Joining i _ => (i <= n)%nat /\ forall k, (k < i)%nat -> k ∈ exited
  | Returned _ => forall k, (k < n)%nat -> k ∈ exited
  | _ => True
  end.

Record inv_at (n : nat) s ts p : Prop := {
  iv_owner : ts !! 0%nat = Some (Owner s);
  iv_workers : forall i, (i < n)%nat -> exists w, ts !! S i = Some (Worker i w);
  iv_length : length ts = S n;
  iv_count : worker_count p = n;
  iv_idle : idle_num p = Z.of_nat n - Z.of_nat (count_tasks busy ts);
  iv_futures : length (futures p) = length (tasks p);
  (** Every scheduled job is in the queue, run by one worker, or settled. *)
  iv_once : forall j,
    (count_tasks (runs j) ts + count_tasks (eq j) (jobs p) + settled (futures p) j)%nat =
    (if decide (j < length (tasks p))%nat then 1%nat else 0%nat);
  iv_settled : forall j r, futures p !! j = Some (Some r) ->
    exists t, tasks p !! j = Some t /\ task_done t = true /\ r = result t;
  iv_waited : waited s -> jobs p = [] /\ count_tasks busy ts = 0%nat;
  iv_stopped : stopped p = true <-> stopping s;
  iv_result : owner_result s (tasks p);
  (** Who sleeps, and why that is no deadlock. *)
  iv_waiters_nodup : NoDup (new_job_waiters p);
  iv_waiters : forall i, i ∈ new_job_waiters p -> ts !! S i = Some (Worker i Waiting);
  iv_asleep : stopped p = true -> new_job_waiters p = [];
  iv_awake : (0 < n)%nat -> jobs p <> [] ->
    exists i w, ts !! S i = Some (Worker i w) /\ (i ∉ new_job_waiters p) /\ w <> Exited;
  iv_completion : completion_waiter p = true -> s = InWait /\ ~ (count_tasks busy ts = 0%nat /\ jobs p = []);
  iv_exited : forall i, ts !! S i = Some (Worker i Exited) <-> i ∈ exited p;
  iv_exited_stopped : forall i, i ∈ exited p -> stopped p = true;
  iv_joined : owner_joined s n (exited p)
}.

(** *** The start *)
Lemma count_none {A} (P : A -> Prop) `{forall x, Decision (P x)} l : Forall (fun x => ~ P x) l -> count_tasks P l = 0%nat.
Proof. intros Hf. apply count_tasks_none. intros i x Hx. rewrite Forall_lookup in Hf. by apply (Hf i). Qed.

Lemma executor_worker n (l : list T) i : (i < n)%nat -> executor n l !! S i = Some (Worker i Waiting).
Proof. intros Hi. simpl. rewrite list_lookup_fmap, lookup_seq_lt by done. done. Qed.

Lemma executor_idle n (l : list T) (P : actor T -> Prop) `{forall a, Decision (P a)} :
  (forall s, ~ P (Owner s)) -> (forall i, ~ P (Worker i Waiting)) -> count_tasks P (executor n l) = 0%nat.
Proof.
  intros Ho Hw. apply count_none. constructor; [apply Ho|]. apply Forall_fmap, Forall_true. intros i. apply Hw.
Qed.

Lemma length_executor n (l : list T) : length (executor n l) = S n.
Proof. simpl. by rewrite length_fmap, length_seq. Qed.

Lemma executor_inv n (l : list T) (g : G) : inv_at n (Scheduling l) (executor n l) (new_pool n g).
Proof.
  constructor; try done.
  - intros i Hi. exists Waiting. by apply executor_worker.
  - apply length_executor.
  - rewrite (executor_idle n l busy) by by intros ? []. simpl. lia.
  - intros j. rewrite (executor_idle n l (runs j)) by by intros ? []. by destruct (decide _) as [Hj|]; [simpl in Hj; lia|].
  - constructor.
  - intros i ?%elem_of_nil. done.
  - intros i. split; [|by intros ?%elem_of_nil]. intros Hi.
    destruct (decide (i < n)%nat) as [Hlt|Hge]; [by rewrite executor_worker in Hi|].
    apply lookup_lt_Some in Hi. simpl in Hi. rewrite length_fmap, length_seq in Hi. lia.
  - intros i ?%elem_of_nil. done.
Qed.

(** *** A turn of a worker *)
Lemma count_busy_le n s ts : ts !! 0%nat = Some (Owner s) -> length ts = S n -> (count_tasks busy ts <= n)%nat.
Proof.
  intros Ho Hl. destruct ts as [|a ts]; simplify_eq/=. unfold count_tasks.
  rewrite filter_cons_False by (by intros []). apply length_filter.
Qed.

Lemma busy_not_waited n s ts p i a : inv_at n s ts p -> ts !! i = Some a -> busy a -> ~ waited s.
Proof. intros H Hi Hb Hw. destruct (iv_waited _ _ _ _ H Hw) as [_ Hc]. by apply (count_tasks_zero busy ts i a Hc Hi). Qed.

Lemma running_job n s ts p i id j :
  inv_at n s ts p -> ts !! i = Some (Worker id (Running j)) ->
  exists t, tasks p !! j = Some t /\ futures p !! j = Some None /\ j ∉ jobs p.
Proof.
  intros H Hi. pose proof (iv_once _ _ _ _ H j) as Ho.
  pose proof (count_tasks_pos (runs j) ts i _ Hi eq_refl) as Hp.
  destruct (decide (j < length (tasks p))%nat) as [Hj|]; [|lia].
  destruct (lookup_lt_is_Some_2 _ _ Hj) as [t Ht]. exists t. split; [done|].
  rewrite <-(iv_futures _ _ _ _ H) in Hj. destruct (lookup_lt_is_Some_2 _ _ Hj) as [f Hf].
  unfold settled in Ho. rewrite Hf in Ho |- *. destruct f as [r|]; [lia|]. split; [done|].
  intros [k Hk]%list_elem_of_lookup. pose proof (count_tasks_pos (eq j) (jobs p) k j Hk eq_refl). lia.
Qed.

Definition busy_nat (w : worker_state) : nat := match w with Running _ | Completed => 1 | _ => 0 end.
Definition runs_nat (j : nat) (w : worker_state) : nat :=
  match w with Running j' => if decide (j = j') then 1 else 0 | _ => 0 end.

Lemma busy_nat_eq id w : busy_nat w = (if decide (busy (Worker id w)) then 1 else 0)%nat.
Proof. destruct (decide (busy (Worker id w))) as [Hb|Hb]; destruct w; simpl in *; tauto. Qed.
Lemma runs_nat_eq id j w : runs_nat j w = (if decide (runs j (Worker id w)) then 1 else 0)%nat.
Proof. destruct (decide (runs j (Worker id w))) as [Hb|Hb]; destruct w; simpl in *; try case_decide; tauto. Qed.

Section WorkerTurn.
Variables (n : nat) (s : owner_state T) (ts : list (actor T)) (p : pool T G) (id : nat) (w : worker_state).
Hypothesis Hinv : inv_at n s ts p.
Hypothesis Hw : ts !! S id = Some (Worker id w).
Hypothesis Hn : Z.of_nat n < two64.

#[local] Abbreviation after w' := (<[S id := Worker id w']> ts).

Lemma worker_id : (id < n)%nat.
Proof. apply lookup_lt_Some in Hw. rewrite (iv_length _ _ _ _ Hinv) in Hw. lia. Qed.

Lemma after_owner w' : after w' !! 0%nat = Some (Owner s).
Proof. rewrite list_lookup_insert_ne by done. apply (iv_owner _ _ _ _ Hinv). Qed.

Lemma after_same w' : after w' !! S id = Some (Worker id w').
Proof. apply list_lookup_insert_eq. by eapply lookup_lt_Some. Qed.

Lemma after_other w' i : i <> id -> after w' !! S i = ts !! S i.
Proof. intros Hi. apply list_lookup_insert_ne. congruence. Qed.

Lemma after_workers w' i : (i < n)%nat -> exists w0, after w' !! S i = Some (Worker i w0).
Proof.
  intros Hi. destruct (decide (i = id)) as [->|Hne]; [eexists; apply after_same|].
  rewrite after_other by done. by apply (iv_workers _ _ _ _ Hinv).
Qed.

Lemma after_length w' : length (after w') = S n.
Proof. rewrite length_insert. apply (iv_length _ _ _ _ Hinv). Qed.

Lemma after_busy w' : (count_tasks busy (after w') + busy_nat w = count_tasks busy ts + busy_nat w')%nat.
Proof. rewrite !busy_nat_eq with (id := id). by apply count_tasks_insert. Qed.

Lemma after_runs w' j : (count_tasks (runs j) (after w') + runs_nat j w = count_tasks (runs j) ts + runs_nat j w')%nat.
Proof. rewrite !runs_nat_eq with (id := id). by apply count_tasks_insert. Qed.

Lemma after_waiters w' i : w <> Waiting -> i ∈ new_job_waiters p -> after w' !! S i = Some (Worker i Waiting).
Proof.
  intros Hne Hi. pose proof (iv_waiters _ _ _ _ Hinv i Hi) as Hl. rewrite after_other; [done|].
  intros ->. rewrite Hw in Hl. congruence.
Qed.

Lemma not_asleep : w <> Waiting -> id ∉ new_job_waiters p.
Proof. intros Hne Hi. pose proof (iv_waiters _ _ _ _ Hinv id Hi). rewrite Hw in H. congruence. Qed.

Lemma after_exited w' i : w <> Exited -> w' <> Exited -> after w' !! S i = Some (Worker i Exited) <-> i ∈ exited p.
Proof.
  intros H1 H2. rewrite <-(iv_exited _ _ _ _ Hinv). destruct (decide (i = id)) as [->|Hne].
  - rewrite after_same, Hw. split; congruence.
  - by rewrite after_other.
Qed.
End WorkerTurn.

Ltac pool_fields := constructor; cbn [idle_num stopped jobs worker_count new_job_waiters completion_waiter exited tasks futures
  shared fall_asleep exit_worker take_job set_task set_future report_completion Push sleep_until_completion stop].

Lemma turn_sleep n s ts p id :
  inv_at n s ts p -> ts !! S id = Some (Worker id Waiting) -> id ∉ new_job_waiters p -> job_or_stopped p = false ->
  inv_at n s ts (fall_asleep id p).
Proof.
  intros H Hw Hid Hno. unfold job_or_stopped in Hno. apply orb_false_iff in Hno as [Hj Hs].
  apply negb_false_iff, Nat.eqb_eq, nil_length_inv in Hj.
  pool_fields; try by apply H.
  - apply NoDup_cons. split; [done|apply H].
  - intros i [->|Hi]%elem_of_cons; [done|by apply H].
  - congruence.
  - done.
Qed.

Lemma turn_exit n s ts p id :
  inv_at n s ts p -> ts !! S id = Some (Worker id Waiting) -> stopped p = true ->
  inv_at n s (<[S id := Worker id Exited]> ts) (exit_worker id p).
Proof.
  intros H Hw Hs. pose proof (after_busy ts id Waiting Hw Exited) as Eb.
  assert (waited s) as Hwt. { apply (iv_stopped _ _ _ _ H) in Hs. by destruct s. }
  simpl in Eb. rewrite !Nat.add_0_r in Eb.
  pool_fields; try by apply H.
  - by eapply after_owner.
  - by eapply after_workers.
  - by eapply after_length.
  - rewrite Eb. apply H.
  - intros j. rewrite <-(iv_once _ _ _ _ H j). pose proof (after_runs ts id Waiting Hw Exited j) as Er. simpl in Er. lia.
  - rewrite Eb. apply H.
  - rewrite (iv_asleep _ _ _ _ H Hs). by intros i ?%elem_of_nil.
  - by rewrite (proj1 (iv_waited _ _ _ _ H Hwt)).
  - intros Hcw. destruct (iv_completion _ _ _ _ H Hcw) as [-> _]. done.
  - intros i. rewrite elem_of_cons, <-(iv_exited _ _ _ _ H). destruct (decide (i = id)) as [->|Hne].
    + erewrite after_same by done. tauto.
    + rewrite (after_other ts id) by done. split; [by right|by intros [|]].
  - intros i _. done.
  - pose proof (iv_joined _ _ _ _ H) as Hjo. destruct s; simpl in *; try done.
    + destruct Hjo as [H1 H2]. split; [done|]. intros k Hk. right. by apply H2.
    + intros k Hk. right. by apply Hjo.
Qed.

Lemma turn_take n s ts p id job rest :
  Z.of_nat n < two64 ->
  inv_at n s ts p -> ts !! S id = Some (Worker id Waiting) -> stopped p = false -> id ∉ new_job_waiters p ->
  jobs p = job :: rest ->
  inv_at n s (<[S id := Worker id (Running job)]> ts) (take_job rest p).
Proof.
  intros Hn H Hw Hs Hid Hj. pose proof (after_busy ts id Waiting Hw (Running job)) as Eb. simpl in Eb.
  assert (~ waited s) as Hwt. { intros Hwt. destruct (iv_waited _ _ _ _ H Hwt). congruence. }
  assert (count_tasks busy (<[S id := Worker id (Running job)]> ts) <= n)%nat as Hle.
  { eapply count_busy_le; [by eapply after_owner|by eapply after_length]. }
  pool_fields; try by apply H.
  - by eapply after_owner.
  - by eapply after_workers.
  - by eapply after_length.
  - rewrite (iv_idle _ _ _ _ H). u64_norm. lia.
  - intros j. rewrite <-(iv_once _ _ _ _ H j). pose proof (after_runs ts id Waiting Hw (Running job) j) as Er. simpl in Er.
    rewrite Hj, count_tasks_cons.
    repeat case_decide; try congruence; lia.
  - done.
  - intros i Hi. destruct (decide (i = id)) as [->|Hne]; [done|]. rewrite (after_other ts id) by done. by apply H.
  - intros _ _. exists id, (Running job). split; [by eapply after_same|done].
  - intros Hcw. destruct (iv_completion _ _ _ _ H Hcw) as [-> _]. split; [done|]. intros [Hc _]. lia.
  - intros i. by eapply after_exited.
Qed.

Lemma turn_step n s ts p id job t t' g' :
  inv_at n s ts p -> ts !! S id = Some (Worker id (Running job)) -> tasks p !! job = Some t ->
  inv_at n s ts (set_task job t' g' p).
Proof.
  intros H Hw Ht. destruct (running_job n s ts p (S id) id job H Hw) as (t0 & Ht0 & Hf & Hnj).
  assert (~ waited s) as Hwt by (by eapply busy_not_waited).
  pool_fields; try by apply H.
  - rewrite length_insert. apply H.
  - rewrite length_insert. apply H.
  - intros j r Hr. destruct (iv_settled _ _ _ _ H j r Hr) as (u & Hu & Hd). exists u. split; [|done].
    rewrite list_lookup_insert_ne; [done|]. intros ->. congruence.
  - by destruct s.
Qed.

Lemma turn_settle n s ts p id job t :
  inv_at n s ts p -> ts !! S id = Some (Worker id (Running job)) -> tasks p !! job = Some t -> task_done t = true ->
  inv_at n s (<[S id := Worker id Completed]> ts) (set_future job (result t) p).
Proof.
  intros H Hw Ht Hd. destruct (running_job n s ts p (S id) id job H Hw) as (t0 & Ht0 & Hf & Hnj).
  pose proof (after_busy ts id _ Hw Completed) as Eb. simpl in Eb.
  assert (count_tasks busy (<[S id := Worker id Completed]> ts) = count_tasks busy ts) as Eb' by lia.
  assert (~ waited s) as Hwt by (by eapply busy_not_waited).
  pool_fields; try by apply H.
  - by eapply after_owner.
  - by eapply after_workers.
  - by eapply after_length.
  - rewrite Eb'. apply H.
  - rewrite length_insert. apply H.
  - intros j. rewrite <-(iv_once _ _ _ _ H j). pose proof (after_runs ts id _ Hw Completed j) as Er. simpl in Er.
    unfold settled. destruct (decide (j = job)) as [->|Hne].
    + rewrite list_lookup_insert_eq by (by eapply lookup_lt_Some). rewrite Hf. lia.
    + rewrite list_lookup_insert_ne by done. lia.
  - intros j r. destruct (decide (j = job)) as [->|Hne].
    + rewrite list_lookup_insert_eq by (by eapply lookup_lt_Some). intros [= <-]. by exists t.
    + rewrite list_lookup_insert_ne by done. apply H.
  - done.
  - intros i Hi. by eapply after_waiters.
  - intros Hn Hj. exists id, Completed. split; [by eapply after_same|]. split; [|done]. by eapply not_asleep.
  - intros Hcw. rewrite Eb'. by apply H.
  - intros i. by eapply after_exited.
Qed.

Lemma turn_report n s ts p id :
  Z.of_nat n < two64 ->
  inv_at n s ts p -> ts !! S id = Some (Worker id Completed) ->
  inv_at n s (<[S id := Worker id Waiting]> ts) (report_completion p).
Proof.
  intros Hn H Hw. pose proof (after_busy ts id _ Hw Waiting) as Eb. simpl in Eb.
  pose proof (count_busy_le n s ts (iv_owner _ _ _ _ H) (iv_length _ _ _ _ H)) as Hle.
  assert (~ waited s) as Hwt by (by eapply busy_not_waited).
  pool_fields; try by apply H.
  - by eapply after_owner.
  - by eapply after_workers.
  - by eapply after_length.
  - rewrite (iv_idle _ _ _ _ H). u64_norm. lia.
  - intros j. rewrite <-(iv_once _ _ _ _ H j). pose proof (after_runs ts id _ Hw Waiting j) as Er. simpl in Er. lia.
  - done.
  - intros i Hi. by eapply after_waiters.
  - intros _ Hj. exists id, Waiting. split; [by eapply after_same|]. split; [|done]. by eapply not_asleep.
  - done.
  - intros i. by eapply after_exited.
Qed.

Lemma worker_turn n s ts p now id w :
  Z.of_nat n < two64 -> inv_at n s ts p -> ts !! S id = Some (Worker id w) ->
  let '(w', p') := worker_step step task_done result now id w p in inv_at n s (<[S id := Worker id w']> ts) p'.
Proof.
  intros Hn H Hw. destruct w as [|job| |]; simpl.
  - case_bool_decide as Hid; [by rewrite list_insert_id|].
    destruct (job_or_stopped p) eqn:Hjs; simpl; [|rewrite list_insert_id by done; by apply turn_sleep].
    destruct (stopped p) eqn:Hs; [by apply turn_exit|].
    destruct (jobs p) as [|job rest] eqn:Hj; [by rewrite list_insert_id|]. by apply turn_take.
  - destruct (tasks p !! job) as [t|] eqn:Ht; [|by rewrite list_insert_id].
    destruct (task_done t) eqn:Hd; [by apply turn_settle|].
    destruct (step now t (shared p)) as [t' g']. rewrite list_insert_id by done. by eapply turn_step.
  - by apply turn_report.
  - by rewrite list_insert_id.
Qed.

(** *** A turn of the owner *)
Lemma owner_busy s' ts s : ts !! 0%nat = Some (Owner s) -> count_tasks busy (<[0%nat := Owner s']> ts) = count_tasks busy ts.
Proof.
  intros Ho. pose proof (count_tasks_insert busy ts 0 (Owner s) (Owner s') Ho) as Hc.
  do 2 (rewrite decide_False in Hc by (by intros [])). lia.
Qed.

Lemma owner_runs j s' ts s :
  ts !! 0%nat = Some (Owner s) -> count_tasks (runs j) (<[0%nat := Owner s']> ts) = count_tasks (runs j) ts.
Proof.
  intros Ho. pose proof (count_tasks_insert (runs j) ts 0 (Owner s) (Owner s') Ho) as Hc.
  do 2 (rewrite decide_False in Hc by (by intros [])). lia.
Qed.

(** The owner moves on, and nothing else changes. *)
Lemma owner_moves n s s' ts p :
  inv_at n s ts p ->
  (waited s' -> waited s \/ (jobs p = [] /\ count_tasks busy ts = 0%nat)) ->
  (stopping s' <-> stopping s) ->
  (owner_result s (tasks p) -> owner_result s' (tasks p)) ->
  (completion_waiter p = true -> s' = InWait) ->
  (owner_joined s n (exited p) -> owner_joined s' n (exited p)) ->
  inv_at n s' (<[0%nat := Owner s']> ts) p.
Proof.
  intros H Hwt Hst Hres Hcw Hjo. pose proof (iv_owner _ _ _ _ H) as Ho.
  pose proof (owner_busy s' ts s Ho) as Eb.
  constructor; try by apply H.
  - apply list_lookup_insert_eq. by eapply lookup_lt_Some.
  - intros i Hi. rewrite list_lookup_insert_ne by done. by apply H.
  - rewrite length_insert. apply H.
  - rewrite Eb. apply H.
  - intros j. rewrite (owner_runs j s' ts s Ho). apply H.
  - rewrite Eb. intros Hw'. destruct (Hwt Hw') as [Hw|]; [by apply H|done].
  - rewrite Hst. apply H.
  - apply Hres, H.
  - intros i Hi. rewrite list_lookup_insert_ne by done. by apply H.
  - intros Hn Hj. setoid_rewrite list_lookup_insert_ne; [|done]. by apply H.
  - intros Hc. split; [by apply Hcw|]. rewrite Eb. by apply (iv_completion _ _ _ _ H).
  - intros i. rewrite list_lookup_insert_ne by done. apply H.
  - apply Hjo, H.
Qed.

Lemma first_failure_app (l1 l2 : list T) :
  first_failure result l1 = Ok tt -> first_failure result (l1 ++ l2) = first_failure result l2.
Proof. induction l1 as [|t l1 IH]; simpl; [done|]. destruct (result t) as [[]|e]; [by apply IH|done]. Qed.

Lemma first_failure_take_S (l : list T) i t :
  l !! i = Some t -> first_failure result (take i l) = Ok tt ->
  match result t with
  | Ok _ => first_failure result (take (S i) l) = Ok tt
  | Throw e => first_failure result l = Throw e
  end.
Proof.
  intros Hi Hok. destruct (result t) as [[]|e] eqn:Hr.
  - rewrite (take_S_r l i t Hi), first_failure_app by done. simpl. by rewrite Hr.
  - rewrite <-(take_drop_middle l i t Hi), first_failure_app by done. simpl. by rewrite Hr.
Qed.

Lemma notify_one_cases choice l : (l = [] /\ notify_one choice l = []) \/ exists x, l ≡ₚ x :: notify_one choice l.
Proof.
  destruct l as [|y l]; [by left|right]. unfold notify_one.
  destruct (lookup_lt_is_Some_2 (y :: l) (Z.to_nat (choice mod Z.of_nat (length (y :: l))))) as [x Hx].
  { pose proof (Z.mod_pos_bound choice (Z.of_nat (length (y :: l)))). simpl length in *. lia. }
  exists x. by apply delete_Permutation.
Qed.

(** [Schedule] of one task. *)
Lemma turn_push n ts p now t rest :
  inv_at n (Scheduling (t :: rest)) ts p ->
  inv_at n (Scheduling rest) (<[0%nat := Owner (Scheduling rest)]> ts) (Push now t p).
Proof.
  intros H. pose proof (iv_owner _ _ _ _ H) as Ho. pose proof (owner_busy (Scheduling rest) ts _ Ho) as Eb.
  assert (stopped p = false) as Hs. { destruct (stopped p) eqn:Hs; [|done]. by apply (iv_stopped _ _ _ _ H) in Hs. }
  pose proof (sublist_delete (new_job_waiters p)
    (Z.to_nat (now mod Z.of_nat (length (new_job_waiters p))))) as Hsub. change (delete _ _) with (notify_one now (new_job_waiters p)) in Hsub.
  pool_fields; try by apply H.
  - apply list_lookup_insert_eq. by eapply lookup_lt_Some.
  - intros i Hi. rewrite list_lookup_insert_ne by done. by apply H.
  - rewrite length_insert. apply H.
  - rewrite Eb. apply H.
  - rewrite !length_app, (iv_futures _ _ _ _ H). done.
  - intros j. pose proof (iv_once _ _ _ _ H j) as Hj. rewrite (owner_runs j _ ts _ Ho), count_tasks_app, count_tasks_cons.
    rewrite <-(iv_futures _ _ _ _ H) in Hj. rewrite length_app, <-(iv_futures _ _ _ _ H). simpl. unfold settled in *.
    destruct (decide (j = length (futures p))) as [->|Hne].
    + rewrite lookup_app_r, Nat.sub_diag by lia. simpl. rewrite decide_False in Hj by lia.
      rewrite decide_True by lia. rewrite (lookup_ge_None_2 (futures p)) in Hj by lia.
      replace (count_tasks (eq (length (futures p))) []) with 0%nat by done. lia.
    + rewrite (lookup_app (futures p)). destruct (decide (j < length (futures p))%nat) as [Hlt|Hge].
      * destruct (lookup_lt_is_Some_2 (futures p) j Hlt) as [f Hf]. rewrite Hf in Hj |- *.
        rewrite decide_True by lia. replace (count_tasks (eq j) []) with 0%nat by done. lia.
      * rewrite (lookup_ge_None_2 (futures p)) in Hj |- * by lia. rewrite (lookup_ge_None_2 [None]) by (simpl; lia).
        rewrite decide_False by lia. replace (count_tasks (eq j) []) with 0%nat by done. lia.
  - intros j r Hr. apply lookup_app_Some in Hr as [Hr|[_ Hr]].
    + destruct (iv_settled _ _ _ _ H j r Hr) as (u & Hu & Hd). exists u. split; [|done]. by apply lookup_app_l_Some.
    + destruct (j - length (futures p))%nat; [|done]. done.
  - by intros [].
  - eapply sublist_NoDup; [apply H|done].
  - intros i Hi. rewrite list_lookup_insert_ne by done. apply H. by eapply elem_of_sublist.
  - congruence.
  - intros Hn _. setoid_rewrite list_lookup_insert_ne; [|done].
    destruct (notify_one_cases now (new_job_waiters p)) as [[_ ->]|[x Hx]].
    + destruct (iv_workers _ _ _ _ H 0%nat Hn) as [w Hw]. exists 0%nat, w. split; [done|]. split; [apply not_elem_of_nil|].
      intros ->. apply (iv_exited _ _ _ _ H), (iv_exited_stopped _ _ _ _ H) in Hw. congruence.
    + exists x, Waiting. split; [apply H; rewrite Hx; left|]. split; [|done].
      pose proof (iv_waiters_nodup _ _ _ _ H) as Hnd. rewrite Hx in Hnd. by apply NoDup_cons in Hnd as [].
  - intros Hc. by destruct (iv_completion _ _ _ _ H Hc).
  - intros i. rewrite list_lookup_insert_ne by done. apply H.
Qed.

(** The owner falls asleep in [ThreadPool::Wait]. *)
Lemma turn_wait n ts p :
  inv_at n InWait ts p -> all_finished p = false -> inv_at n InWait ts (sleep_until_completion p).
Proof.
  intros H Hf. apply orb_false_iff in Hf as [_ Hf]. pool_fields; try by apply H.
  intros _. split; [done|]. intros [Hb Hj]. rewrite (iv_idle _ _ _ _ H), (iv_count _ _ _ _ H), Hb, Hj in Hf.
  rewrite Z.sub_0_r, Z.eqb_refl in Hf. done.
Qed.

(** The destructor stops the pool and wakes up all workers. *)
Lemma turn_stop n r ts p :
  inv_at n (Destroying r) ts p -> inv_at n (Joining 0 r) (<[0%nat := Owner (Joining 0 r)]> ts) (stop p).
Proof.
  intros H. pose proof (iv_owner _ _ _ _ H) as Ho. pose proof (owner_busy (Joining 0 r) ts _ Ho) as Eb.
  destruct (iv_waited _ _ _ _ H I) as [Hj Hb].
  pool_fields; try by apply H.
  - apply list_lookup_insert_eq. by eapply lookup_lt_Some.
  - intros i Hi. rewrite list_lookup_insert_ne by done. by apply H.
  - rewrite length_insert. apply H.
  - rewrite Eb. apply H.
  - intros j. rewrite (owner_runs j _ ts _ Ho). apply H.
  - by rewrite Eb.
  - done.
  - constructor.
  - by intros i ?%elem_of_nil.
  - done.
  - by rewrite Hj.
  - intros Hc. by destruct (iv_completion _ _ _ _ H Hc).
  - intros i. rewrite list_lookup_insert_ne by done. apply H.
  - done.
  - split; [lia|]. intros k Hk. lia.
Qed.

Lemma get_future n i ts p :
  inv_at n (Getting i) ts p ->
  match futures p !! i with
  | None => first_failure result (tasks p) = Ok tt
  | Some None => False
  | Some (Some r) => exists t, tasks p !! i = Some t /\ r = result t
  end.
Proof.
  intros H. destruct (iv_result _ _ _ _ H) as [Hle Hok]. destruct (futures p !! i) as [[r|]|] eqn:Hf.
  - destruct (iv_settled _ _ _ _ H i r Hf) as (t & Ht & _ & ->). by exists t.
  - pose proof (iv_once _ _ _ _ H i) as Ho. destruct (iv_waited _ _ _ _ H I) as [Hj Hb].
    unfold settled in Ho. rewrite Hf, Hj in Ho. apply lookup_lt_Some in Hf. rewrite (iv_futures _ _ _ _ H) in Hf.
    rewrite decide_True in Ho by done. rewrite (count_tasks_none (runs i) ts) in Ho; [done|].
    intros k a Hk Hr. apply (count_tasks_zero busy ts k a Hb Hk). by destruct a as [|? []].
  - apply lookup_ge_None in Hf. rewrite (iv_futures _ _ _ _ H) in Hf. by rewrite take_ge in Hok.
Qed.

Lemma owner_turn n s ts p now :
  inv_at n s ts p ->
  let '(s', p') := owner_step now s p in inv_at n s' (<[0%nat := Owner s']> ts) p'.
Proof.
  intros H. pose proof (iv_owner _ _ _ _ H) as Ho. destruct s as [[|t rest]| |i|r|i r|r]; cbn [owner_step].
  - apply (owner_moves n (Scheduling [])); try done.
  - by apply turn_push.
  - destruct (completion_waiter p) eqn:Hc; [by rewrite list_insert_id|].
    destruct (all_finished p) eqn:Hf; [|rewrite list_insert_id by done; by apply turn_wait].
    apply (owner_moves n InWait); try done.
    + intros _. right. unfold all_finished in Hf. destruct (stopped p) eqn:Hs; [by apply (iv_stopped _ _ _ _ H) in Hs|].
      apply andb_true_iff in Hf as [Hi%Z.eqb_eq Hj%Nat.eqb_eq]. apply nil_length_inv in Hj.
      rewrite (iv_idle _ _ _ _ H), (iv_count _ _ _ _ H) in Hi. split; [done|lia].
    + intros _. split; [lia|done].
    + by rewrite Hc.
  - pose proof (get_future n i ts p H) as Hg. destruct (iv_result _ _ _ _ H) as [Hle Hok].
    assert (completion_waiter p = true -> False) as Hc by (intros Hc; by destruct (iv_completion _ _ _ _ H Hc)).
    destruct (futures p !! i) as [[r|]|] eqn:Hf; [|done|].
    + destruct Hg as (t & Ht & ->). pose proof (first_failure_take_S (tasks p) i t Ht Hok) as Hn.
      destruct (result t) as [[]|e]; apply (owner_moves n (Getting i)); try done; try (by left).
      intros _. split; [by eapply lookup_lt_Some|done].
    + apply (owner_moves n (Getting i)); try done; by left.
  - by apply turn_stop.
  - assert (completion_waiter p = true -> False) as Hc by (intros Hc; by destruct (iv_completion _ _ _ _ H Hc)).
    rewrite (iv_count _ _ _ _ H). destruct (Nat.eqb_spec i n) as [->|Hne].
    + apply (owner_moves n (Joining n r)); try done; [by left|]. by intros [_ Hj].
    + case_bool_decide as Hi; [|by rewrite list_insert_id].
      apply (owner_moves n (Joining i r)); try done; [by left|]. intros [Hle Hj]. split; [lia|].
      intros k Hk. destruct (decide (k = i)) as [->|]; [done|]. apply Hj. lia.
  - by rewrite list_insert_id.
Qed.

Lemma actor_turn n s ts p now i a :
  Z.of_nat n < two64 -> inv_at n s ts p -> ts !! i = Some a ->
  let '(a', p') := actor_step step task_done result now a p in exists s', inv_at n s' (<[i := a']> ts) p'.
Proof.
  intros Hn H Hi. destruct i as [|i].
  - rewrite (iv_owner _ _ _ _ H) in Hi. injection Hi as <-. simpl. pose proof (owner_turn n s ts p now H) as Ht.
    destruct (owner_step now s p) as [s' p']. by exists s'.
  - assert (i < n)%nat as Hlt. { apply lookup_lt_Some in Hi. rewrite (iv_length _ _ _ _ H) in Hi. lia. }
    destruct (iv_workers _ _ _ _ H i Hlt) as [w Hw]. rewrite Hw in Hi. injection Hi as <-. simpl.
    pose proof (worker_turn n s ts p now i w Hn H Hw) as Ht. destruct (worker_step _ _ _ now i w p) as [w' p']. by exists s.
Qed.

(** *** The refinement *)
Section Refinement.
Variable env : G -> G -> Prop.

Lemma disturb_inv n s ts p p' : inv_at n s ts p -> disturb env p p' -> inv_at n s ts p'.
Proof.
  intros H [g' _|i|]; pool_fields; try by apply H.
  - eapply sublist_NoDup; [apply H|apply sublist_delete].
  - intros k Hk. apply H. eapply elem_of_sublist; [done|apply sublist_delete].
  - intros Hs. by rewrite (iv_asleep _ _ _ _ H Hs).
  - intros Hn Hj. destruct (iv_awake _ _ _ _ H Hn Hj) as (k & w & Hw & Hk & Hx). exists k, w. split; [done|].
    split; [|done]. intros Hin. apply Hk. eapply elem_of_sublist; [done|apply sublist_delete].
  - done.
Qed.

(** The tasks that the owner has still to schedule. *)
Definition pending s : list T := match s with Scheduling rest => rest | _ => [] end.

(** What the pool has done to the tasks is a run of them. *)
Definition refines (n : nat) (l : list T) (g : G) ts p : Prop :=
  exists s, inv_at n s ts p /\ run step env l g (tasks p ++ pending s) (shared p).

Lemma owner_keeps_tasks n s ts p now :
  inv_at n s ts p -> let '(s', p') := owner_step now s p in
  tasks p' ++ pending s' = tasks p ++ pending s /\ shared p' = shared p.
Proof.
  intros H. destruct s as [[|t rest]| |i|r|i r|r]; simpl; try done.
  - by rewrite <-app_assoc.
  - destruct (completion_waiter p); [done|]. by destruct (all_finished p).
  - destruct (futures p !! i) as [[[[]|e]|]|]; done.
  - destruct (Nat.eqb i (worker_count p)); [done|]. by case_bool_decide.
Qed.

Lemma worker_runs_tasks n l g s ts p now id w :
  inv_at n s ts p -> ts !! S id = Some (Worker id w) -> run step env l g (tasks p ++ pending s) (shared p) ->
  let '(w', p') := worker_step step task_done result now id w p in
  run step env l g (tasks p' ++ pending s) (shared p').
Proof.
  intros H Hw Hr. destruct w as [|job| |]; simpl; try done.
  - case_bool_decide; [done|]. destruct (job_or_stopped p); simpl; [|done]. destruct (stopped p); [done|].
    by destruct (jobs p).
  - destruct (tasks p !! job) as [t|] eqn:Ht; [|done]. destruct (task_done t); [done|].
    destruct (step now t (shared p)) as [t' g'] eqn:Hs. simpl.
    rewrite <-(insert_app_l (tasks p)) by (by eapply lookup_lt_Some).
    eapply run_task; [exact Hr|by apply lookup_app_l_Some|done].
Qed.

Lemma pool_run_refines n l g ts p :
  Z.of_nat n < two64 ->
  run (actor_step step task_done result) (disturb env) (executor n l) (new_pool n g) ts p -> refines n l g ts p.
Proof.
  intros Hn Hrun. remember (executor n l) as ts0 eqn:E1. remember (new_pool n g) as p0 eqn:E2.
  induction Hrun as [ts p|ts0 p0 ts p i a now a' p' Hrun IH Hi Hs|ts0 p0 ts p p' Hrun IH Hd]; subst.
  - exists (Scheduling l). split; [apply executor_inv|]. apply run_refl.
  - destruct (IH eq_refl eq_refl) as (s & H & Hr). destruct i as [|id].
    + pose proof (iv_owner _ _ _ _ H) as Ho. rewrite Ho in Hi. injection Hi as <-. simpl in Hs.
      pose proof (owner_turn n s ts p now H) as Ht. pose proof (owner_keeps_tasks n s ts p now H) as Hk.
      destruct (owner_step now s p) as [s' p1]. injection Hs as <- <-. exists s'. split; [done|]. by destruct Hk as [-> ->].
    + assert (id < n)%nat as Hlt. { apply lookup_lt_Some in Hi. rewrite (iv_length _ _ _ _ H) in Hi. lia. }
      destruct (iv_workers _ _ _ _ H id Hlt) as [w Hw]. rewrite Hw in Hi. injection Hi as <-. simpl in Hs.
      pose proof (worker_turn n s ts p now id w Hn H Hw) as Ht. pose proof (worker_runs_tasks n l g s ts p now id w H Hw Hr) as Hk.
      destruct (worker_step _ _ _ now id w p) as [w' p1]. injection Hs as <- <-. by exists s.
  - destruct (IH eq_refl eq_refl) as (s & H & Hr). exists s. split; [by eapply disturb_inv|].
    destruct Hd; simpl; [by eapply run_env|done|done].
Qed.

(** Two workers never run the same task. *)
Lemma runs_once n s ts p i i' id id' j :
  inv_at n s ts p -> ts !! i = Some (Worker id (Running j)) -> ts !! i' = Some (Worker id' (Running j)) -> i = i'.
Proof.
  intros H Hi Hi'. refine (count_tasks_one (runs j) ts i i' _ _ _ Hi Hi' eq_refl eq_refl).
  pose proof (iv_once _ _ _ _ H j) as Ho. destruct (decide (j < length (tasks p))%nat); lia.
Qed.

Lemma all_settled n s ts p : inv_at n s ts p -> waited s -> Forall (fun t => task_done t = true) (tasks p).
Proof.
  intros H Hw. apply Forall_lookup_2. intros j t Ht. destruct (iv_waited _ _ _ _ H Hw) as [Hj Hb].
  pose proof (iv_once _ _ _ _ H j) as Ho. rewrite decide_True in Ho by (by eapply lookup_lt_Some).
  rewrite Hj in Ho. rewrite (count_tasks_none (runs j) ts) in Ho.
  - unfold settled in Ho. destruct (futures p !! j) as [[r|]|] eqn:Hf; [|done|done].
    destruct (iv_settled _ _ _ _ H j r Hf) as (t' & Ht' & Hd & _). congruence.
  - intros k a Hk Hr. apply (count_tasks_zero busy ts k a Hb Hk). by destruct a as [|? []].
Qed.

Lemma pool_returns n l g ts p r :
  Z.of_nat n < two64 ->
  run (actor_step step task_done result) (disturb env) (executor n l) (new_pool n g) ts p ->
  ts !! 0%nat = Some (Owner (Returned r)) ->
  run step env l g (tasks p) (shared p) /\ Forall (fun t => task_done t = true) (tasks p) /\
  r = first_failure result (tasks p) /\ forall id, (id < n)%nat -> ts !! S id = Some (Worker id Exited).
Proof.
  intros Hn Hrun Ho. destruct (pool_run_refines n l g ts p Hn Hrun) as (s & H & Hr).
  rewrite (iv_owner _ _ _ _ H) in Ho. injection Ho as ->. simpl in Hr. rewrite app_nil_r in Hr.
  split; [done|]. split; [by eapply all_settled|]. split; [apply (iv_result _ _ _ _ H)|].
  intros id Hid. apply (iv_exited _ _ _ _ H). by apply (iv_joined _ _ _ _ H).
Qed.

(** C6: The thread pool implements the interleaving of tasks.  Whatever turns the threads take, whomever
    a notification wakes up, and however often threads wake up for no reason, two workers never
    run the same task, and what has happened to the tasks is a run of [Tasks]; once WaitAll and
    the destructor are done, every task has finished, the owner has got the first failure in
    scheduling order (or none), and all workers have exited. *)
Theorem thread_pool_refines_tasks n l g ts p :
  Z.of_nat n < two64 ->
  run (actor_step step task_done result) (disturb env) (executor n l) (new_pool n g) ts p ->
  (forall i i' id id' j, ts !! i = Some (Worker id (Running j)) -> ts !! i' = Some (Worker id' (Running j)) -> i = i') /\
  (exists rest, run step env l g (tasks p ++ rest) (shared p)) /\
  forall r, ts !! 0%nat = Some (Owner (Returned r)) ->
    run step env l g (tasks p) (shared p) /\ Forall (fun t => task_done t = true) (tasks p) /\
    r = first_failure result (tasks p) /\ forall id, (id < n)%nat -> ts !! S id = Some (Worker id Exited).
Proof.
  intros Hn Hrun. destruct (pool_run_refines n l g ts p Hn Hrun) as (s & H & Hr). split; [|split].
  - intros i i' id id' j. by eapply runs_once.
  - by exists (pending s).
  - intros r. by apply pool_returns.
Qed.
End Refinement.

(** *** Liveness *)
Section Liveness.
Variable measure : T -> nat.
Hypothesis task_decreases : forall now t g, task_done t = false -> (measure (step now t g).1 < measure t)%nat.

Definition worker_measure (a : actor T) : nat :=
  match a with Worker _ Waiting => 1 | Worker _ (Running _) => 4 | Worker _ Completed => 3 | _ => 0 end.

(** [n] workers, [L] futures; [sleeping] tells whether the owner sleeps in [ThreadPool::Wait]. *)
Definition owner_measure (n L : nat) (sleeping : bool) s : nat :=
  match s with
  | Scheduling rest => 2 * n + 7 + L + 7 * length rest + sum_list_with measure rest
  | InWait => 2 * n + 5 + L + (if sleeping then 0 else 1)
  | Getting i => 2 * n + 4 + (L - i)
  | Destroying _ => 2 * n + 3
  | Joining i _ => 1 + (n - i)
  | Returned _ => 0
  end.

(** What the threads have still to do. *)
Definition pool_measure (n : nat) s ts p : nat :=
  owner_measure n (length (futures p)) (completion_waiter p) s + sum_list_with worker_measure ts + 4 * length (jobs p) +
  (n - length (new_job_waiters p)) + sum_list_with measure (tasks p).

Lemma waiters_bound n s ts p l :
  inv_at n s ts p -> NoDup l -> (forall i, i ∈ l -> exists w, ts !! S i = Some (Worker i w)) -> (length l <= n)%nat.
Proof.
  intros H Hnd Hl. rewrite <-(length_seq n 0). apply submseteq_length, NoDup_submseteq; [done|].
  intros i Hi. destruct (Hl i Hi) as [w Hw]. apply elem_of_seq. apply lookup_lt_Some in Hw. rewrite (iv_length _ _ _ _ H) in Hw. lia.
Qed.

Lemma worker_measure_insert ts id w w' :
  ts !! S id = Some (Worker id w) ->
  (sum_list_with worker_measure (<[S id := Worker id w']> ts) + worker_measure (Worker id w) =
   sum_list_with worker_measure ts + worker_measure (Worker id w'))%nat.
Proof. apply sum_list_with_insert. Qed.

Lemma owner_measure_wakes n L sleeping s : (owner_measure n L false s <= owner_measure n L sleeping s + 1)%nat.
Proof. destruct s, sleeping; simpl; lia. Qed.

(** A turn of a worker changes nothing or leaves less to do. *)
Lemma worker_progress n s ts p now id w :
  inv_at n s ts p -> ts !! S id = Some (Worker id w) ->
  let '(w', p') := worker_step step task_done result now id w p in
  (w' = w /\ p' = p) \/ (pool_measure n s (<[S id := Worker id w']> ts) p' < pool_measure n s ts p)%nat.
Proof.
  intros H Hw. pose proof (worker_measure_insert ts id w) as Hm. unfold pool_measure.
  destruct w as [|job| |]; cbn [worker_step].
  - case_bool_decide as Hid; [by left|]. destruct (job_or_stopped p) eqn:Hjs; cbn [negb].
    + destruct (stopped p) eqn:Hs.
      * right. specialize (Hm Exited Hw). simpl in *. lia.
      * destruct (jobs p) as [|job rest] eqn:Hj; [by left|]. right. specialize (Hm (Running job) Hw).
        simpl in *. lia.
    + right. rewrite list_insert_id by done. simpl.
      assert (S (length (new_job_waiters p)) <= n)%nat; [|lia].
      apply (waiters_bound n s ts p (id :: new_job_waiters p) H).
      * apply NoDup_cons. split; [done|apply H].
      * intros i [->|Hi]%elem_of_cons; [by exists Waiting|]. exists Waiting. by apply H.
  - destruct (tasks p !! job) as [t|] eqn:Ht; [|by left]. destruct (task_done t) eqn:Hd.
    + right. specialize (Hm Completed Hw). simpl in *. rewrite length_insert. lia.
    + pose proof (task_decreases now t (shared p) Hd) as Hlt. destruct (step now t (shared p)) as [t' g'].
      right. rewrite list_insert_id by done. simpl in *.
      pose proof (sum_list_with_insert measure (tasks p) job t t' Ht). lia.
  - right. specialize (Hm Waiting Hw). simpl in *.
    pose proof (owner_measure_wakes n (length (futures p)) (completion_waiter p) s). lia.
  - by left.
Qed.

Lemma owner_keeps_workers ts s s' :
  ts !! 0%nat = Some (Owner s) -> sum_list_with worker_measure (<[0%nat := Owner s']> ts) = sum_list_with worker_measure ts.
Proof. intros Ho. pose proof (sum_list_with_insert worker_measure ts 0 _ (Owner s') Ho). simpl in *. lia. Qed.

Lemma owner_progress n s ts p now :
  inv_at n s ts p ->
  let '(s', p') := owner_step now s p in
  (s' = s /\ p' = p) \/ (pool_measure n s' (<[0%nat := Owner s']> ts) p' < pool_measure n s ts p)%nat.
Proof.
  intros H. pose proof (iv_owner _ _ _ _ H) as Ho. pose proof (owner_keeps_workers ts s) as Hk. unfold pool_measure.
  destruct s as [[|t rest]| |i|r|i r|r]; cbn [owner_step].
  - right. rewrite (Hk InWait Ho). simpl. destruct (completion_waiter p); lia.
  - right. rewrite (Hk (Scheduling rest) Ho). simpl. rewrite !length_app, sum_list_with_app. simpl.
    destruct (notify_one_cases now (new_job_waiters p)) as [[-> ->]|[x Hx%Permutation_length]]; simpl in *; lia.
  - destruct (completion_waiter p) eqn:Hc; [by left|]. destruct (all_finished p); right.
    + rewrite (Hk (Getting 0) Ho). simpl. lia.
    + rewrite (Hk InWait Ho). simpl. lia.
  - destruct (futures p !! i) as [[[[]|e]|]|] eqn:Hf.
    + right. rewrite (Hk (Getting (S i)) Ho). simpl. apply lookup_lt_Some in Hf. lia.
    + right. rewrite (Hk _ Ho). simpl. lia.
    + by left.
    + right. rewrite (Hk _ Ho). simpl. lia.
  - right. rewrite (Hk _ Ho). simpl. lia.
  - destruct (Nat.eqb_spec i (worker_count p)) as [->|Hne].
    + right. rewrite (Hk _ Ho). simpl. lia.
    + case_bool_decide as Hi; [|by left]. right. rewrite (Hk _ Ho). simpl. destruct (iv_joined _ _ _ _ H) as [Hle _].
      rewrite (iv_count _ _ _ _ H) in Hne. lia.
  - by left.
Qed.

Definition measure_of (n : nat) ts p : nat :=
  match ts !! 0%nat with Some (Owner s) => pool_measure n s ts p | _ => 0 end.

Lemma measure_of_eq n s ts p : inv_at n s ts p -> measure_of n ts p = pool_measure n s ts p.
Proof. intros H. unfold measure_of. by rewrite (iv_owner _ _ _ _ H). Qed.

Lemma actor_progress n s ts p now i a :
  Z.of_nat n < two64 -> inv_at n s ts p -> ts !! i = Some a ->
  actor_step step task_done result now a p = (a, p) \/
  (measure_of n (<[i := (actor_step step task_done result now a p).1]> ts) (actor_step step task_done result now a p).2 <
   measure_of n ts p)%nat.
Proof.
  intros Hn H Hi. rewrite (measure_of_eq n s ts p H). destruct i as [|id].
  - rewrite (iv_owner _ _ _ _ H) in Hi. injection Hi as <-. simpl.
    pose proof (owner_turn n s ts p now H) as Ht. pose proof (owner_progress n s ts p now H) as Hp.
    destruct (owner_step now s p) as [s' p']. simpl. rewrite (measure_of_eq n s' _ p' Ht).
    destruct Hp as [[-> ->]|Hp]; [by left|by right].
  - assert (id < n)%nat as Hlt. { apply lookup_lt_Some in Hi. rewrite (iv_length _ _ _ _ H) in Hi. lia. }
    destruct (iv_workers _ _ _ _ H id Hlt) as [w Hw]. rewrite Hw in Hi. injection Hi as <-. simpl.
    pose proof (worker_turn n s ts p now id w Hn H Hw) as Ht. pose proof (worker_progress n s ts p now id w H Hw) as Hp.
    destruct (worker_step _ _ _ now id w p) as [w' p']. simpl. rewrite (measure_of_eq n s _ p' Ht).
    destruct Hp as [[-> ->]|Hp]; [by left|by right].
Qed.

(** A busy worker is never stuck. *)
Lemma busy_moves n s ts p now id w :
  inv_at n s ts p -> ts !! S id = Some (Worker id w) -> busy (Worker id w) ->
  actor_step step task_done result now (Worker id w) p <> (Worker id w, p).
Proof.
  intros H Hw Hb. destruct w as [|job| |]; simpl in *; try done.
  destruct (running_job n s ts p (S id) id job H Hw) as (t & Ht & _). rewrite Ht.
  destruct (task_done t) eqn:Hd; [done|]. pose proof (task_decreases now t (shared p) Hd) as Hlt.
  destruct (step now t (shared p)) as [t' g']. simpl in *. intros [= Hp]. apply (f_equal tasks) in Hp. simpl in Hp.
  assert (<[job := t']> (tasks p) !! job = Some t) as Hl by (by rewrite Hp).
  rewrite list_lookup_insert_eq in Hl by (by eapply lookup_lt_Some). injection Hl as ->. lia.
Qed.

(** A worker that is awake and has a job to take, or a reason to exit, is not stuck. *)
Lemma awake_moves n s ts p now id w :
  inv_at n s ts p -> ts !! S id = Some (Worker id w) -> w <> Exited -> id ∉ new_job_waiters p -> job_or_stopped p = true ->
  actor_step step task_done result now (Worker id w) p <> (Worker id w, p).
Proof.
  intros H Hw Hx Hid Hjs. destruct w as [|job| |]; [|by eapply busy_moves..|done]. simpl.
  rewrite bool_decide_eq_false_2 by done. rewrite Hjs. simpl. destruct (stopped p) eqn:Hs; [done|].
  unfold job_or_stopped in Hjs. rewrite Hs, orb_false_r in Hjs. by destruct (jobs p).
Qed.

Lemma count_positive {A} (P : A -> Prop) `{forall x, Decision (P x)} l :
  count_tasks P l <> 0%nat -> exists i x, l !! i = Some x /\ P x.
Proof.
  unfold count_tasks. intros Hc. destruct (filter P l) as [|x xs] eqn:Hf; [done|].
  assert (x ∈ filter P l) as [Hx [i Hi]%list_elem_of_lookup]%list_elem_of_filter by (rewrite Hf; left). by exists i, x.
Qed.

(** No deadlock: until the owner is done, some thread's turn changes something. *)
Lemma some_thread_moves n s ts p :
  (0 < n)%nat -> inv_at n s ts p -> (exists r, s = Returned r) \/
  exists i a, ts !! i = Some a /\ forall now, actor_step step task_done result now a p <> (a, p).
Proof.
  intros Hn H. pose proof (iv_owner _ _ _ _ H) as Ho. destruct s as [[|t rest]| |i|r|i r|r].
  - right. exists 0%nat. eexists. split; [exact Ho|]. intros now [=].
  - right. exists 0%nat. eexists. split; [exact Ho|]. intros now [= Hl _]. apply (f_equal length) in Hl. simpl in Hl. lia.
  - right. destruct (completion_waiter p) eqn:Hc.
    + destruct (iv_completion _ _ _ _ H Hc) as [_ Hnot]. destruct (decide (jobs p = [])) as [Hj|Hj].
      * destruct (count_positive busy ts) as (k & a & Hk & Hb); [tauto|]. destruct a as [|id w]; [done|].
        assert (k = S id) as ->.
        { destruct k as [|k]; [rewrite Ho in Hk; done|]. assert (k < n)%nat as Hlt by (apply lookup_lt_Some in Hk; rewrite (iv_length _ _ _ _ H) in Hk; lia).
          destruct (iv_workers _ _ _ _ H k Hlt) as [w' Hw']. congruence. }
        exists (S id), (Worker id w). split; [done|]. intros now. by eapply busy_moves.
      * destruct (iv_awake _ _ _ _ H Hn Hj) as (id & w & Hw & Hid & Hx). exists (S id), (Worker id w). split; [done|].
        intros now. eapply awake_moves; try done. unfold job_or_stopped. by destruct (jobs p).
    + exists 0%nat. eexists. split; [exact Ho|]. intros now. simpl. rewrite Hc. destruct (all_finished p); [done|].
      intros [= Hp]. apply (f_equal completion_waiter) in Hp. simpl in Hp. congruence.
  - right. exists 0%nat. eexists. split; [exact Ho|]. intros now. simpl. pose proof (get_future n i ts p H) as Hg.
    destruct (futures p !! i) as [[[[]|e]|]|]; [|done|done|done]. intros [= Hi]. lia.
  - right. exists 0%nat. eexists. split; [exact Ho|]. intros now [=].
  - right. destruct (iv_joined _ _ _ _ H) as [Hle Hj]. destruct (decide (i = n)) as [->|Hne].
    { exists 0%nat. eexists. split; [exact Ho|]. intros now. simpl. rewrite (iv_count _ _ _ _ H), Nat.eqb_refl. done. }
    destruct (decide (i ∈ exited p)) as [Hi|Hi].
    { exists 0%nat. eexists. split; [exact Ho|]. intros now. simpl. rewrite (iv_count _ _ _ _ H).
      destruct (Nat.eqb_spec i n); [done|]. rewrite bool_decide_eq_true_2 by done. intros [= He]. lia. }
    destruct (iv_workers _ _ _ _ H i) as [w Hw]; [lia|]. exists (S i), (Worker i w). split; [done|]. intros now.
    assert (stopped p = true) as Hs by (by apply (iv_stopped _ _ _ _ H)).
    eapply awake_moves; try done.
    + intros ->. by apply (iv_exited _ _ _ _ H) in Hw.
    + rewrite (iv_asleep _ _ _ _ H Hs). apply not_elem_of_nil.
    + unfold job_or_stopped. rewrite Hs. apply orb_true_r.
  - left. by exists r.
Qed.

Lemma executor_measure n : sum_list_with worker_measure ((fun id => Worker id Waiting) <$> seq 0 n) = n.
Proof. generalize 0%nat. induction n as [|n IH]; intros i; simpl; [done|]. by rewrite IH. Qed.

Definition owner_done ts : Prop := exists r, ts !! 0%nat = Some (Owner (Returned r)).

Lemma pool_ends n l g rounds :
  (0 < n)%nat -> Z.of_nat n < two64 ->
  Forall (fun sch => round sch (S n)) rounds ->
  (4 * n + 7 + 7 * length l + sum_list_with measure l <= length rounds)%nat ->
  owner_done (run_schedule (actor_step step task_done result) (concat rounds) (executor n l) (new_pool n g)).1.
Proof.
  intros H0 Hn Hr Hm.
  refine (rounds_reach_goal (actor_step step task_done result) (fun ts p => exists s, inv_at n s ts p) _
    (fun ts _ => owner_done ts) (measure_of n) _ _ _ rounds (executor n l) (new_pool n g) _ _ _).
  - intros ts p i a now [s H] Hi. pose proof (actor_turn n s ts p now i a Hn H Hi) as Ht.
    by destruct (actor_step step task_done result now a p).
  - intros ts p i a now [s H] Hi. by eapply actor_progress.
  - intros ts p [s H]. destruct (some_thread_moves n s ts p H0 H) as [[r ->]|(i & a & Hi & Hmv)].
    + left. exists r. apply (iv_owner _ _ _ _ H).
    + right. exists i, a. split; [done|]. intros now.
      destruct (actor_progress n s ts p now i a Hn H Hi) as [He|Hlt]; [by destruct (Hmv now)|done].
  - intros ts p i a now [s H] [r Hg] Hi. exists r. destruct i as [|i]; [|by rewrite list_lookup_insert_ne].
    rewrite Hg in Hi. injection Hi as <-. simpl. apply list_lookup_insert_eq. by eapply lookup_lt_Some.
  - exists (Scheduling l). apply executor_inv.
  - by rewrite length_executor.
  - rewrite (measure_of_eq n _ _ _ (executor_inv n l g)). unfold pool_measure. simpl.
    rewrite executor_measure. lia.
Qed.

(** C7: Waiting for the thread pool ends: no wake-up is lost and nobody deadlocks.  With at least one
    worker, in every schedule of 4n + 7 + 7k rounds more than the steps of the k tasks, in which each
    thread has a turn per round, the owner returns from WaitAll and from the destructor. *)
Theorem thread_pool_wait_ends n l g rounds :
  (0 < n)%nat -> Z.of_nat n < two64 ->
  Forall (fun sch => round sch (S n)) rounds ->
  (4 * n + 7 + 7 * length l + sum_list_with measure l <= length rounds)%nat ->
  owner_done (run_schedule (actor_step step task_done result) (concat rounds) (executor n l) (new_pool n g)).1.
Proof. apply pool_ends. Qed.
End Liveness.
End Invariant.

(** ** Witnesses

    Three tasks on two workers; the second fails. *)
Definition counter_step (now : Z) (t : nat * Res unit) (g : list nat) : (nat * Res unit) * list nat :=
  ((pred t.1, t.2), t.1 :: g).
Definition counter_done (t : nat * Res unit) : bool := Nat.eqb t.1 0.
Definition counters : list (nat * Res unit) := [(1, Ok tt); (2, Throw IOException); (3, Ok tt)]%nat.

(** The owner first, and the workers in alternating order. *)
Definition sample_rounds : list (list (nat * Z)) :=
  concat (replicate 22 [[(0%nat, 0); (1%nat, 1); (2%nat, 2)]; [(0%nat, 3); (2%nat, 4); (1%nat, 5)]]).
Lemma sample_rounds_fair : Forall (fun sch => round sch 3) sample_rounds.
Proof.
  apply (Forall_impl (fun sch => is_round 3 sch = true)); [|apply is_round_spec].
  apply Forall_forall. intros sch Hs%list_elem_of_In. revert sch Hs. apply forallb_forall. vm_compute. reflexivity.
Qed.

Definition pool_end : list (actor (nat * Res unit)) * pool (nat * Res unit) (list nat) :=
  run_schedule (actor_step counter_step counter_done snd) (concat sample_rounds) (executor 2 counters) (new_pool 2 []).

Lemma thread_pool_refines_tasks_witness :
  pool_end.1 !! 0%nat = Some (Owner (Returned (Throw IOException))) /\
  Throw IOException = first_failure snd (tasks pool_end.2) /\ Forall (fun t => counter_done t = true) (tasks pool_end.2).
Proof.
  destruct (thread_pool_refines_tasks counter_step counter_done snd (fun _ _ => False) 2 counters [] pool_end.1 pool_end.2)
    as (_ & _ & Hret).
  - done.
  - exact (run_schedule_run (actor_step counter_step counter_done snd) (disturb (fun _ _ => False)) (concat sample_rounds)
      (executor 2 counters) (new_pool 2 [])).
  - assert (pool_end.1 !! 0%nat = Some (Owner (Returned (Throw IOException)))) as H0 by (vm_compute; reflexivity).
    destruct (Hret _ H0) as (_ & Hd & He & _). by split; [|split].
Defined.

Lemma thread_pool_wait_ends_witness : owner_done pool_end.1.
Proof.
  apply (thread_pool_wait_ends counter_step counter_done snd fst).
  - intros now [[|k] r] g Hd; [done|]. simpl. lia.
  - lia.
  - done.
  - exact sample_rounds_fair.
  - vm_compute. lia.
Defined.
