(* ===== verification/Profile.v ===== *)
(** * Profile

    The profile collectors: [Histogram] ([src/src/histogram.cpp]), [LatencyGuard] and
    [BaseProfileCollector] ([src/src/base_profile_collector.cpp]), [NoopProfileCollector]
    ([src/src/noop_profile_collector.cpp]) and [TempProfileCollector]
    ([src/src/temp_profile_collector.cpp]).

    A finite [double] is a rational; [rnd] rounds a sum or quotient to the nearest one, and
    [lf] is what the format directive [%lf] prints. *)
From S2P Require Import Prelude CppString StringUtil Config IoOperations.
From Stdlib Require Import QArith.QArith_base Strings.Ascii.

#[local] Open Scope Z_scope.

(** [double] comparison. *)
Definition q_lt (a b : Q) : bool := negb (Qle_bool b a).
Definition DBL_MAX : Q := inject_Z ((2 ^ 53 - 1) * 2 ^ 971).

(** ** [Histogram] *)
Record Histogram := MkHistogram {
  boundaries_ : list Q;
  min_encountered_ : Q;
  max_encountered_ : Q;
  total_counts_ : Z;
  sum_ : Q;
  hist_ : list Z;
  distribution_name_ : string;
  distribution_unit_ : string
}.

(** [std::is_sorted]. *)
Fixpoint is_sorted (l : list Q) : bool :=
  match l with
  | a :: ((b :: _) as l') => negb (q_lt b a) && is_sorted l'
  | _ => true
  end.

Definition Reset (h : Histogram) : Histogram :=
  MkHistogram (boundaries_ h) DBL_MAX (- DBL_MAX)%Q 0 0%Q (replicate (length (boundaries_ h) + 1) 0)
    (distribution_name_ h) (distribution_unit_ h).

Definition NewHistogram (boundaries : list Q) : Res Histogram :=
  if Nat.eqb (length boundaries) 0 then Throw InvalidInputException
  else if negb (is_sorted boundaries) then Throw InvalidInputException
  else Ok (Reset (MkHistogram boundaries 0%Q 0%Q 0 0%Q [] "" "")).

Definition SetStatsDistribution (name unit : string) (h : Histogram) : Histogram :=
  MkHistogram (boundaries_ h) (min_encountered_ h) (max_encountered_ h) (total_counts_ h) (sum_ h) (hist_ h) name unit.

(** [std::upper_bound]: the first boundary greater than [val]. *)
Fixpoint upper_bound (l : list Q) (val : Q) : nat :=
  match l with
  | [] => O
  | b :: l => if q_lt val b then O else S (upper_bound l val)
  end.

Definition Bucket (val : Q) (h : Histogram) : nat := upper_bound (boundaries_ h) val.

Definition Add (rnd : Q -> Q) (val : Q) (h : Histogram) : Histogram :=
  MkHistogram (boundaries_ h)
    (if q_lt val (min_encountered_ h) then val else min_encountered_ h)
    (if q_lt (max_encountered_ h) val then val else max_encountered_ h)
    (total_counts_ h +u 1) (rnd (sum_ h + val)%Q)
    (alter (fun n => n +u 1) (Bucket val h) (hist_ h)) (distribution_name_ h) (distribution_unit_ h).

Definition mean (rnd : Q -> Q) (h : Histogram) : Q :=
  if total_counts_ h =? 0 then 0%Q else rnd (sum_ h / rnd (inject_Z (total_counts_ h)))%Q.

Definition newline : string := String (ascii_of_nat 10) "".

(** [FormatString]. *)
Definition format_bucket (rnd : Q -> Q) (lf : Q -> string) (h : Histogram) (idx : nat) : string :=
  let count := default 0 (hist_ h !! idx) in
  let cur_min_val := match idx with O => 0%Q | S i => default 0%Q (boundaries_ h !! i) end in
  let percentage := rnd (rnd (rnd (inject_Z count * 1) / rnd (inject_Z (total_counts_ h))) * 100)%Q in
  if count =? 0 then ""
  else
    ("Distribution " +:+ distribution_name_ h +:+ " [" +:+ lf cur_min_val +:+ ", " +:+
     (if Nat.eqb idx (length (boundaries_ h)) then "+inf" else lf (default 0%Q (boundaries_ h !! idx))) +:+
     ") " +:+ distribution_unit_ h +:+ ": " +:+ lf percentage +:+ " %" +:+ newline)%string.

Definition FormatString (rnd : Q -> Q) (lf : Q -> string) (h : Histogram) : string :=
  let name := distribution_name_ h in
  let unit := distribution_unit_ h in
  ("Max " +:+ name +:+ " = " +:+ lf (max_encountered_ h) +:+ " " +:+ unit +:+ newline +:+
   "Min " +:+ name +:+ " = " +:+ lf (min_encountered_ h) +:+ " " +:+ unit +:+ newline +:+
   "Mean " +:+ name +:+ " = " +:+ lf (mean rnd h) +:+ " " +:+ unit +:+ newline +:+
   String.concat "" (format_bucket rnd lf h <$> seq 0 (length (hist_ h))))%string.

(** ** The collectors *)

(** [io_operation] is [None] for [kUnknown]. *)
Record LatencyGuard := MkGuard { io_operation : option IoOperation; start_timestamp : Z }.

(** The move constructor: the new guard, and what is left of the old one. *)
Definition move_guard (other : LatencyGuard) : LatencyGuard * LatencyGuard := (other, MkGuard None 0).

Record CacheAccessInfo := MkAccessInfo {
  ai_cache_type : string;
  cache_hit_count : Z;
  cache_miss_count : Z;
  cache_miss_by_in_use : Z;
  (** [None] is a default [Value], a SQL [NULL]. *)
  ai_total_bytes_to_read : option Z;
  ai_total_bytes_to_cache : option Z;
  ai_bytes_read_from_hits : option Z;
  ai_bytes_read_from_misses : option Z
}.

(** The virtual functions; the first argument of the timed ones is what the steady clock
    reads, in milliseconds. *)
Class BaseProfileCollector (P : Type) := {
  record_operation_start : Z -> IoOperation -> P -> LatencyGuard * P;
  record_operation_end : Z -> IoOperation -> Z -> P -> P;
  record_cache_access : CacheEntity -> CacheAccess -> Z -> P -> P;
  record_actual_cache_read : Z -> Z -> P -> P;
  record_bytes_written : Z -> P -> P;
  get_profiler_type : P -> string;
  get_cache_access_info : P -> list CacheAccessInfo;
  reset_collector : P -> P
}.

(** [~LatencyGuard]. *)
Definition end_guard {P} `{BaseProfileCollector P} (now : Z) (g : LatencyGuard) (p : P) : P :=
  match io_operation g with
  | None => p
  | Some op => record_operation_end now op (now - start_timestamp g) p
  end.

Module NoopProfileCollector.
(** [latest_timestamp]. *)
Definition collector : Type := Z.

Definition RecordOperationStart (now : Z) (op : IoOperation) (_ : collector) : LatencyGuard * collector :=
  (MkGuard (Some op) now, u64 now).

Definition GetCacheAccessInfo (_ : collector) : list CacheAccessInfo :=
  (fun name => MkAccessInfo name 0 0 0 (Some 0) (Some 0) (Some 0) (Some 0)) <$> CACHE_ENTITY_NAMES.

Definition GetHumanReadableStats (p : collector) : string * Z := ("(noop profile collector)"%string, p).

#[export] Instance noop_collector : BaseProfileCollector collector := {
  record_operation_start := RecordOperationStart;
  record_operation_end now op latency p := p;
  record_cache_access entity access byte_count p := p;
  record_actual_cache_read cache_bytes actual_bytes p := p;
  record_bytes_written bytes p := p;
  get_profiler_type _ := NOOP_PROFILE_TYPE;
  get_cache_access_info := GetCacheAccessInfo;
  reset_collector _ := 0
}.
End NoopProfileCollector.

Module TempProfileCollector.

Definition kDefaultLatencyBucketsMs : list Q := inject_Z <$> [1; 10; 50; 100; 250; 500; 1000; 2500; 5000; 10000].
Definition kDiskCacheReadLatencyBucketsMs : list Q := (1 # 2)%Q :: (inject_Z <$> [1; 2; 5; 10; 25; 50; 100; 250; 500]).
(** 0.1, rounded to the nearest [double]. *)
Definition kPathClearLatencyBucketsMs : list Q :=
  (3602879701896397 # 36028797018963968)%Q :: (1 # 2)%Q :: (inject_Z <$> [1; 2; 5; 10; 25; 50; 100; 250]).

(** Indexed by [IoOperation]. *)
Definition kLatencyBuckets : list (list Q) :=
  replicate 6 kDefaultLatencyBucketsMs ++ [kDiskCacheReadLatencyBucketsMs; kPathClearLatencyBucketsMs].

Record collector := MkCollector {
  histograms : list Histogram;
  cache_access_count : list Z;
  latest_timestamp : Z;
  total_bytes_to_read : Z;
  total_bytes_to_cache : Z;
  bytes_read_from_hits : Z;
  bytes_read_from_misses : Z;
  total_bytes_written : Z
}.
Implicit Types (p : collector).

(** The constructor; the boundaries are accepted by [Histogram]. *)
Definition new_histograms : Res (list Histogram) :=
  foldr (fun buckets rest =>
           h ← NewHistogram buckets; hs ← rest;
           Ok (SetStatsDistribution "latency" "millisec" h :: hs)) (Ok []) kLatencyBuckets.

Definition NewCollector : Res collector :=
  hs ← new_histograms;
  Ok (MkCollector hs (replicate (kCacheEntityCount * kCacheAccessCount) 0) 0 0 0 0 0 0).

Definition RecordOperationStart (now : Z) (op : IoOperation) p : LatencyGuard * collector :=
  (MkGuard (Some op) now, p).

Definition RecordOperationEnd (rnd : Q -> Q) (now : Z) (op : IoOperation) (latency_millisec : Z) p : collector :=
  MkCollector (alter (Add rnd (rnd (inject_Z latency_millisec))) (operation_index op) (histograms p))
    (cache_access_count p) (u64 now) (total_bytes_to_read p) (total_bytes_to_cache p) (bytes_read_from_hits p)
    (bytes_read_from_misses p) (total_bytes_written p).

Definition access_slot (entity : CacheEntity) (access : CacheAccess) : nat :=
  entity_index entity * kCacheAccessCount + access_index access.

Definition RecordCacheAccess (entity : CacheEntity) (access : CacheAccess) (byte_count : Z) p : collector :=
  let counts := alter (fun n => n +u 1) (access_slot entity access) (cache_access_count p) in
  let data_hit := bool_decide (entity = kData /\ access = kCacheHit) in
  let data_miss := bool_decide (entity = kData /\ access = kCacheMiss) in
  MkCollector (histograms p) counts (latest_timestamp p) (total_bytes_to_read p) (total_bytes_to_cache p)
    (if data_hit then bytes_read_from_hits p +u byte_count else bytes_read_from_hits p)
    (if data_miss then bytes_read_from_misses p +u byte_count else bytes_read_from_misses p)
    (total_bytes_written p).

Definition RecordActualCacheRead (cache_bytes actual_bytes : Z) p : collector :=
  MkCollector (histograms p) (cache_access_count p) (latest_timestamp p) (total_bytes_to_read p +u actual_bytes)
    (total_bytes_to_cache p +u cache_bytes) (bytes_read_from_hits p) (bytes_read_from_misses p) (total_bytes_written p).

Definition RecordBytesWritten (bytes : Z) p : collector :=
  MkCollector (histograms p) (cache_access_count p) (latest_timestamp p) (total_bytes_to_read p)
    (total_bytes_to_cache p) (bytes_read_from_hits p) (bytes_read_from_misses p) (total_bytes_written p +u bytes).

Definition ResetCollector p : collector :=
  MkCollector (Reset <$> histograms p) (replicate (length (cache_access_count p)) 0) 0 0 0 0 0 0.

(** The row of an entity; the byte totals go to the row whose index is that of
    [IoOperation::kRead]. *)
Definition access_info p (idx : nat) : CacheAccessInfo :=
  let count i := default 0 (cache_access_count p !! (idx * kCacheAccessCount + i)%nat) in
  let data z := if Nat.eqb idx (operation_index kRead) then Some z else None in
  MkAccessInfo (default ""%string (CACHE_ENTITY_NAMES !! idx)) (count 0%nat) (count 1%nat) (count 2%nat)
    (data (total_bytes_to_read p)) (data (total_bytes_to_cache p)) (data (bytes_read_from_hits p))
    (data (bytes_read_from_misses p)).

Definition GetCacheAccessInfo p : list CacheAccessInfo := access_info p <$> seq 0 kCacheEntityCount.

(** [GetHumanReadableStats]. *)
Definition entity_stats p (idx : nat) : string :=
  let name := default ""%string (CACHE_ENTITY_NAMES !! idx) in
  let count i := to_string (default 0 (cache_access_count p !! (idx * kCacheAccessCount + i)%nat)) in
  (newline +:+ name +:+ " cache hit count = " +:+ count 0%nat +:+ newline +:+
   name +:+ " cache miss count = " +:+ count 1%nat +:+ newline +:+
   name +:+ " cache miss by in-use resource = " +:+ count 2%nat +:+ newline +:+
   (if Nat.eqb idx (operation_index kRead) then
      newline +:+ "for data cache, number of bytes to read = " +:+ to_string (total_bytes_to_read p) +:+ newline +:+
      "number of bytes to cache = " +:+ to_string (total_bytes_to_cache p) +:+ newline +:+
      "bytes read from hits = " +:+ to_string (bytes_read_from_hits p) +:+ newline +:+
      "bytes read from misses = " +:+ to_string (bytes_read_from_misses p) +:+ newline
    else ""))%string.

Definition operation_stats (rnd : Q -> Q) (lf : Q -> string) p (idx : nat) : string :=
  match histograms p !! idx with
  | Some h =>
      if total_counts_ h =? 0 then ""%string
      else (newline +:+ default ""%string (OPER_NAMES !! idx) +:+ " operation latency is " +:+ FormatString rnd lf h)%string
  | None => ""%string
  end.

Definition GetHumanReadableStats (rnd : Q -> Q) (lf : Q -> string) (cache_reader_type : string) p : string * Z :=
  (("For temp profile collector and stats for " +:+ cache_reader_type +:+ " (unit in milliseconds)" +:+ newline +:+
    String.concat "" (entity_stats p <$> seq 0 kCacheEntityCount) +:+
    String.concat "" (operation_stats rnd lf p <$> seq 0 kIoOperationCount))%string,
   latest_timestamp p).

Definition temp_collector (rnd : Q -> Q) : BaseProfileCollector collector := {|
  record_operation_start := RecordOperationStart;
  record_operation_end := RecordOperationEnd rnd;
  record_cache_access := RecordCacheAccess;
  record_actual_cache_read := RecordActualCacheRead;
  record_bytes_written := RecordBytesWritten;
  get_profiler_type _ := TEMP_PROFILE_TYPE;
  get_cache_access_info := GetCacheAccessInfo;
  reset_collector := ResetCollector
|}.
End TempProfileCollector.

(** ** Buckets *)

(** [i] is the bucket of [v]: the boundary before it is at most [v], the one after above. *)
Definition in_bucket (bs : list Q) (i : nat) (v : Q) : Prop :=
  match i with O => True | S j => exists b, bs !! j = Some b /\ (b <= v)%Q end /\
  forall b, bs !! i = Some b -> (v < b)%Q.

Lemma q_lt_true a b : q_lt a b = true <-> (a < b)%Q.
Proof.
  unfold q_lt. rewrite negb_true_iff, <-not_true_iff_false, Qle_bool_iff. split; [apply Qnot_le_lt|apply Qlt_not_le].
Qed.

Lemma q_lt_false a b : q_lt a b = false <-> (b <= a)%Q.
Proof. unfold q_lt. by rewrite negb_false_iff, Qle_bool_iff. Qed.

Lemma is_sorted_cons b l : is_sorted (b :: l) = true -> is_sorted l = true /\ forall j c, l !! j = Some c -> (b <= c)%Q.
Proof.
  revert b. induction l as [|a l IH]; intros b Hs; [done|].
  simpl in Hs. apply andb_true_iff in Hs as [Hab Hs]. apply negb_true_iff, q_lt_false in Hab.
  split; [done|]. intros [|j] c Hc; simpl in Hc; [by simplify_eq|].
  destruct (IH a Hs) as [_ Hl]. eapply Qle_trans; [exact Hab|by eapply Hl].
Qed.

Lemma upper_bound_bucket bs v i :
  is_sorted bs = true -> (i <= length bs)%nat -> upper_bound bs v = i <-> in_bucket bs i v.
Proof.
  revert i. induction bs as [|b bs IH]; intros i Hs Hi; simpl in *.
  { destruct i; [|lia]. split; [by split|done]. }
  apply is_sorted_cons in Hs as [Hs Hle]. destruct (q_lt v b) eqn:Hv.
  - apply q_lt_true in Hv. split.
    + intros <-. split; [done|]. by intros c [= <-].
    + destruct i as [|j]; [done|]. intros [(c & Hc & Hcv) _]. exfalso. apply (Qlt_not_le _ _ Hv).
      destruct j as [|j]; simpl in Hc; [by simplify_eq|]. eapply Qle_trans; [by eapply Hle|done].
  - apply q_lt_false in Hv. destruct i as [|j].
    + split; [done|]. intros [_ Hn]. exfalso. apply (Qlt_not_le v b); [by apply Hn|done].
    + specialize (IH j Hs ltac:(lia)). split.
      * intros [= Hj]. apply IH in Hj as [Hp Hn]. split; [|done].
        destruct j as [|j]; [by exists b|]. destruct Hp as (c & Hc & Hcv). by exists c.
      * intros [(c & Hc & Hcv) Hn]. f_equal. apply IH. split; [|done].
        destruct j as [|j]; [done|]. by exists c.
Qed.

Lemma upper_bound_le bs v : (upper_bound bs v <= length bs)%nat.
Proof. induction bs as [|b bs IH]; simpl; [done|]. destruct (q_lt v b); lia. Qed.

(** The bucket of a value, counted over a list of values. *)
Definition bucket_count (bs : list Q) (i : nat) (vals : list Q) : nat :=
  length (filter (fun v => upper_bound bs v = i) vals).

Record histogram_of (bs vals : list Q) (h : Histogram) : Prop := {
  ho_bounds : boundaries_ h = bs;
  ho_sorted : is_sorted bs = true;
  ho_total : total_counts_ h = u64 (Z.of_nat (length vals));
  ho_length : length (hist_ h) = S (length bs);
  ho_hist i : (i <= length bs)%nat -> hist_ h !! i = Some (u64 (Z.of_nat (bucket_count bs i vals)));
  ho_range v : v ∈ vals -> (min_encountered_ h <= v)%Q /\ (v <= max_encountered_ h)%Q
}.

Lemma bucket_count_snoc bs i vals v :
  bucket_count bs i (vals ++ [v]) = (bucket_count bs i vals + if decide (upper_bound bs v = i) then 1 else 0)%nat.
Proof. unfold bucket_count. rewrite filter_app, length_app, filter_cons. by case_decide. Qed.

Lemma u64_succ (n m : nat) : (u64 (Z.of_nat n) +u Z.of_nat m) = u64 (Z.of_nat (n + m)).
Proof. rewrite u64_add_l. f_equal. lia. Qed.

Lemma histogram_new bs h : NewHistogram bs = Ok h -> histogram_of bs [] h.
Proof.
  unfold NewHistogram. destruct (Nat.eqb _ _); [done|]. destruct (is_sorted bs) eqn:Hs; [|done].
  intros [= <-]. constructor; simpl; [done|done|done|by rewrite length_replicate; lia| |].
  - intros i Hi. rewrite lookup_replicate. split; [done|lia].
  - intros v Hv. inversion Hv.
Qed.

Lemma histogram_reset bs vals h : histogram_of bs vals h -> histogram_of bs [] (Reset h).
Proof.
  intros [Hb Hs _ _ _ _]. unfold Reset. rewrite Hb. constructor; simpl; [done|done|done|by rewrite length_replicate; lia| |].
  - intros i Hi. rewrite lookup_replicate. split; [done|lia].
  - intros v Hv. inversion Hv.
Qed.

Lemma histogram_add rnd bs vals h v : histogram_of bs vals h -> histogram_of bs (vals ++ [v]) (Add rnd v h).
Proof.
  intros [Hb Hs Ht Hl Hh Hr]. constructor; simpl; [done|done| | | |].
  - rewrite Ht, length_app. apply (u64_succ _ 1).
  - by rewrite length_alter.
  - intros i Hi. rewrite bucket_count_snoc. unfold Bucket. rewrite Hb. case_decide as Hd.
    + rewrite Hd, list_lookup_alter_eq, Hh by done. simpl. f_equal. apply (u64_succ _ 1).
    + rewrite list_lookup_alter_ne, Hh by done. by rewrite Nat.add_0_r.
  - intros w [Hw|Hw]%elem_of_app.
    + destruct (Hr w Hw) as [H1 H2]. split.
      * destruct (q_lt v (min_encountered_ h)) eqn:E; [|done]. apply q_lt_true in E.
        eapply Qle_trans; [apply Qlt_le_weak, E|done].
      * destruct (q_lt (max_encountered_ h) v) eqn:E; [|done]. apply q_lt_true in E.
        eapply Qle_trans; [done|apply Qlt_le_weak, E].
    + apply list_elem_of_singleton in Hw as ->. split.
      * destruct (q_lt v (min_encountered_ h)) eqn:E; [apply Qle_refl|by apply q_lt_false in E].
      * destruct (q_lt (max_encountered_ h) v) eqn:E; [apply Qle_refl|by apply q_lt_false in E].
Qed.

(** ** Calls of a collector *)
Import TempProfileCollector.

Inductive collector_call :=
| CallEnd (now : Z) (op : IoOperation) (latency : Z)
| CallAccess (entity : CacheEntity) (access : CacheAccess) (byte_count : Z)
| CallActualRead (cache_bytes actual_bytes : Z)
| CallWritten (bytes : Z)
| CallReset.

Definition apply_call (rnd : Q -> Q) (p : collector) (c : collector_call) : collector :=
  match c with
  | CallEnd now op latency => RecordOperationEnd rnd now op latency p
  | CallAccess e a n => RecordCacheAccess e a n p
  | CallActualRead c a => RecordActualCacheRead c a p
  | CallWritten n => RecordBytesWritten n p
  | CallReset => ResetCollector p
  end.

(** The calls since the last reset. *)
Definition extend_history (cs : list collector_call) (c : collector_call) : list collector_call :=
  match c with CallReset => [] | _ => cs ++ [c] end.
Definition since_reset (cs : list collector_call) : list collector_call := foldl extend_history [] cs.

Definition is_access e a (c : collector_call) : bool :=
  match c with CallAccess e' a' _ => bool_decide (e' = e /\ a' = a) | _ => false end.
Definition accesses e a (cs : list collector_call) : nat := length (filter (fun c => is_access e a c = true) cs).
Definition access_bytes e a (c : collector_call) : Z :=
  match c with CallAccess e' a' n => if bool_decide (e' = e /\ a' = a) then n else 0 | _ => 0 end.
Definition read_bytes (c : collector_call) : Z := match c with CallActualRead _ a => a | _ => 0 end.
Definition cached_bytes (c : collector_call) : Z := match c with CallActualRead c _ => c | _ => 0 end.
Definition written_bytes (c : collector_call) : Z := match c with CallWritten n => n | _ => 0 end.
Definition latency_of (rnd : Q -> Q) op (c : collector_call) : option Q :=
  match c with
  | CallEnd _ op' latency => if decide (op' = op) then Some (rnd (inject_Z latency)) else None
  | _ => None
  end.
Definition op_buckets (op : IoOperation) : list Q := default [] (kLatencyBuckets !! operation_index op).

Record aggregates (rnd : Q -> Q) (p : collector) (cs : list collector_call) : Prop := {
  ag_slots e a : cache_access_count p !! access_slot e a = Some (u64 (Z.of_nat (accesses e a cs)));
  ag_length : length (cache_access_count p) = 12%nat;
  ag_hits : bytes_read_from_hits p = u64 (sum_Z (access_bytes kData kCacheHit <$> cs));
  ag_misses : bytes_read_from_misses p = u64 (sum_Z (access_bytes kData kCacheMiss <$> cs));
  ag_read : total_bytes_to_read p = u64 (sum_Z (read_bytes <$> cs));
  ag_cached : total_bytes_to_cache p = u64 (sum_Z (cached_bytes <$> cs));
  ag_written : total_bytes_written p = u64 (sum_Z (written_bytes <$> cs));
  ag_latencies op : exists h, histograms p !! operation_index op = Some h /\
    histogram_of (op_buckets op) (omap (latency_of rnd op) cs) h
}.

Lemma sum_snoc (f : collector_call -> Z) cs c : sum_Z (f <$> (cs ++ [c])) = sum_Z (f <$> cs) + f c.
Proof. rewrite fmap_app, sum_Z_app. simpl. lia. Qed.

Lemma accesses_snoc e a cs c : accesses e a (cs ++ [c]) = (accesses e a cs + if is_access e a c then 1 else 0)%nat.
Proof. unfold accesses. rewrite filter_app, length_app, filter_cons. destruct (is_access e a c); simpl; lia. Qed.

Lemma access_slot_inj e a e' a' : access_slot e a = access_slot e' a' -> e = e' /\ a = a'.
Proof. unfold access_slot. by destruct e, a, e', a'. Qed.

Lemma operation_index_inj o o' : operation_index o = operation_index o' -> o = o'.
Proof. by destruct o, o'. Qed.

Lemma quiet_slot rnd p cs c e a :
  aggregates rnd p cs -> is_access e a c = false ->
  cache_access_count p !! access_slot e a = Some (u64 (Z.of_nat (accesses e a (cs ++ [c])))).
Proof. intros Hag Ha. rewrite accesses_snoc, Ha, Nat.add_0_r. apply Hag. Qed.

Lemma quiet_latency rnd p cs c op :
  aggregates rnd p cs -> latency_of rnd op c = None ->
  exists h, histograms p !! operation_index op = Some h /\
    histogram_of (op_buckets op) (omap (latency_of rnd op) (cs ++ [c])) h.
Proof. intros Hag Hl. rewrite omap_app. simpl. rewrite Hl, app_nil_r. apply Hag. Qed.

Ltac sums Hag :=
  simpl; rewrite ?sum_snoc, ?Z.add_0_r;
  rewrite ?(ag_hits _ _ _ Hag), ?(ag_misses _ _ _ Hag), ?(ag_read _ _ _ Hag), ?(ag_cached _ _ _ Hag),
    ?(ag_written _ _ _ Hag), ?u64_add_l; simpl; rewrite ?Z.add_0_r; try done.

Lemma aggregates_end rnd p cs now op latency :
  aggregates rnd p cs -> aggregates rnd (RecordOperationEnd rnd now op latency p) (cs ++ [CallEnd now op latency]).
Proof.
  intros Hag. constructor; try (by sums Hag).
  - intros e a. by apply (quiet_slot rnd p cs).
  - apply (ag_length _ _ _ Hag).
  - intros o. destruct (ag_latencies _ _ _ Hag o) as (h & Hh & Hof). simpl. rewrite omap_app. simpl.
    destruct (decide (op = o)) as [->|Hne].
    + rewrite list_lookup_alter_eq, Hh. eexists. split; [done|]. by apply histogram_add.
    + rewrite list_lookup_alter_ne by (intros E; by apply Hne, operation_index_inj). exists h.
      by rewrite app_nil_r.
Qed.

Lemma aggregates_access rnd p cs e a n :
  aggregates rnd p cs -> aggregates rnd (RecordCacheAccess e a n p) (cs ++ [CallAccess e a n]).
Proof.
  intros Hag. constructor; try (by sums Hag).
  - intros e' a'. simpl. rewrite accesses_snoc. simpl. destruct (decide (e = e' /\ a = a')) as [[-> ->]|Hne].
    + rewrite list_lookup_alter_eq, (ag_slots _ _ _ Hag), bool_decide_eq_true_2 by done. simpl. f_equal. apply (u64_succ _ 1).
    + rewrite list_lookup_alter_ne, (ag_slots _ _ _ Hag), bool_decide_eq_false_2 by
        (done || intros E; by apply Hne, access_slot_inj). by rewrite Nat.add_0_r.
  - simpl. rewrite length_alter. apply Hag.
  - simpl. rewrite sum_snoc. simpl. rewrite (ag_hits _ _ _ Hag). case_bool_decide; [apply u64_add_l|by rewrite Z.add_0_r].
  - simpl. rewrite sum_snoc. simpl. rewrite (ag_misses _ _ _ Hag). case_bool_decide; [apply u64_add_l|by rewrite Z.add_0_r].
  - intros o. by apply (quiet_latency rnd p cs).
Qed.

Lemma aggregates_bytes rnd p cs c :
  aggregates rnd p cs -> match c with CallActualRead _ _ | CallWritten _ => True | _ => False end ->
  aggregates rnd (apply_call rnd p c) (cs ++ [c]).
Proof.
  intros Hag Hc. destruct c as [| |ca ac|w|]; try done; simpl.
  - constructor; try (by sums Hag).
    + intros e a. by apply (quiet_slot rnd p cs).
    + apply (ag_length _ _ _ Hag).
    + intros op. by apply (quiet_latency rnd p cs).
  - constructor; try (by sums Hag).
    + intros e a. by apply (quiet_slot rnd p cs).
    + apply (ag_length _ _ _ Hag).
    + intros op. by apply (quiet_latency rnd p cs).
Qed.

Lemma aggregates_reset rnd p cs : aggregates rnd p cs -> aggregates rnd (ResetCollector p) [].
Proof.
  intros Hag. constructor; try done; simpl.
  - intros e a. rewrite (ag_length _ _ _ Hag). by destruct e, a.
  - by rewrite length_replicate, (ag_length _ _ _ Hag).
  - intros op. destruct (ag_latencies _ _ _ Hag op) as (h & Hh & Hof). exists (Reset h).
    rewrite list_lookup_fmap, Hh. split; [done|by eapply histogram_reset].
Qed.

Lemma aggregates_call rnd p cs c : aggregates rnd p cs -> aggregates rnd (apply_call rnd p c) (extend_history cs c).
Proof.
  destruct c; intros Hag.
  - by apply aggregates_end.
  - by apply aggregates_access.
  - by apply aggregates_bytes.
  - by apply aggregates_bytes.
  - by eapply aggregates_reset.
Qed.

Lemma aggregates_new rnd p : NewCollector = Ok p -> aggregates rnd p [].
Proof.
  intros Hn. unfold NewCollector in Hn. destruct new_histograms as [hs|] eqn:Hhs; [|done]. injection Hn as <-.
  constructor; try done; simpl.
  - intros e a. by destruct e, a.
  - intros op. unfold new_histograms in Hhs. vm_compute in Hhs. injection Hhs as <-.
    unfold op_buckets. destruct op; simpl; (eexists; split; [reflexivity|]); (constructor; simpl; try done);
      (intros i Hi; do 11 (destruct i as [|i]; [reflexivity|]); simpl in Hi; lia) || (intros v Hv; inversion Hv).
Qed.

Lemma aggregates_calls rnd p cs calls :
  aggregates rnd p cs -> aggregates rnd (foldl (apply_call rnd) p calls) (foldl extend_history cs calls).
Proof.
  revert p cs. induction calls as [|c calls IH]; intros p cs Hag; [done|]. simpl. by apply IH, aggregates_call.
Qed.

(** ** Properties *)

(** The latency histogram.  Construction accepts exactly a non-empty sorted list of
    boundaries; then, whatever values are added, every value is counted in exactly the
    bucket whose boundaries enclose it, the buckets add up to the count of values (modulo
    2^64, as all counters), and the recorded extremes enclose every value. *)
Theorem histogram_counts_buckets rnd bs vals :
  match NewHistogram bs with
  | Throw e => e = InvalidInputException /\ (bs = [] \/ is_sorted bs = false)
  | Ok h0 =>
      let h := foldl (fun h v => Add rnd v h) h0 vals in
      bs <> [] /\ is_sorted bs = true /\
      total_counts_ h = u64 (Z.of_nat (length vals)) /\ length (hist_ h) = S (length bs) /\
      (forall i, (i <= length bs)%nat ->
         exists n, hist_ h !! i = Some (u64 (Z.of_nat n)) /\
           exists inside outside, vals ≡ₚ inside ++ outside /\ length inside = n /\
             Forall (in_bucket bs i) inside /\ Forall (fun v => ~ in_bucket bs i v) outside) /\
      Forall (fun v => (min_encountered_ h <= v)%Q /\ (v <= max_encountered_ h)%Q) vals
  end.
Proof.
  destruct (NewHistogram bs) as [h0|e] eqn:Hn.
  - assert (histogram_of bs vals (foldl (fun h v => Add rnd v h) h0 vals)) as [Hb Hs Ht Hl Hh Hr].
    { apply histogram_new in Hn. clear -Hn. induction vals as [|v vals IH] using rev_ind; [done|].
      rewrite foldl_app. by apply histogram_add. }
    split; [by intros ->|]. split; [done|]. split; [done|]. split; [done|]. split; [|by apply Forall_forall].
    intros i Hi. exists (bucket_count bs i vals). split; [by apply Hh|].
    exists (filter (fun v => upper_bound bs v = i) vals), (filter (fun v => upper_bound bs v <> i) vals).
    split; [symmetry; apply filter_app_complement|]. split; [done|].
    split; apply Forall_forall; intros v [Hv _]%list_elem_of_filter; [by apply upper_bound_bucket|].
    by rewrite <-upper_bound_bucket.
  - unfold NewHistogram in Hn. destruct bs as [|b bs]; [simplify_eq/=; auto|]. simpl length in Hn. simpl Nat.eqb in Hn.
    cbv beta iota in Hn. destruct (is_sorted (b :: bs)); simpl in Hn; [done|]. simplify_eq. auto.
Qed.

(** C28: The collector shows what happened since it was created or last reset.  For every
    kind of cache, the counts of hits, misses and in-use misses it lists are those of the
    recorded accesses; the byte totals, listed for the data cache only, are the sums of the
    recorded bytes; and the latencies of each operation are in its histogram. *)
Theorem temp_collector_aggregates rnd p0 calls :
  NewCollector = Ok p0 ->
  let p := foldl (apply_call rnd) p0 calls in
  let cs := since_reset calls in
  (forall e, GetCacheAccessInfo p !! entity_index e =
     let count a := u64 (Z.of_nat (accesses e a cs)) in
     let bytes f := if decide (e = kData) then Some (u64 (sum_Z (f <$> cs))) else None in
     Some (MkAccessInfo (default ""%string (CACHE_ENTITY_NAMES !! entity_index e))
             (count kCacheHit) (count kCacheMiss) (count kCacheEntryInUse)
             (bytes read_bytes) (bytes cached_bytes) (bytes (access_bytes kData kCacheHit))
             (bytes (access_bytes kData kCacheMiss)))) /\
  (forall op, exists h, histograms p !! operation_index op = Some h /\
     total_counts_ h = u64 (Z.of_nat (length (omap (latency_of rnd op) cs))) /\
     histogram_of (op_buckets op) (omap (latency_of rnd op) cs) h).
Proof.
  intros Hn p cs. pose proof (aggregates_calls rnd p0 [] calls (aggregates_new rnd p0 Hn)) as Hag.
  fold p cs in Hag. split.
  - intros e. pose proof (ag_slots _ _ _ Hag e) as Hs.
    pose proof (Hs kCacheHit) as S0. pose proof (Hs kCacheMiss) as S1. pose proof (Hs kCacheEntryInUse) as S2.
    unfold access_slot, access_index in S0, S1, S2.
    assert (GetCacheAccessInfo p !! entity_index e = Some (access_info p (entity_index e))) as -> by (by destruct e).
    f_equal. unfold access_info. rewrite S0, S1, S2.
    rewrite (ag_hits _ _ _ Hag), (ag_misses _ _ _ Hag), (ag_read _ _ _ Hag), (ag_cached _ _ _ Hag). by destruct e.
  - intros op. destruct (ag_latencies _ _ _ Hag op) as (h & Hh & Hof). exists h. split; [done|]. split; [|done].
    apply Hof.
Qed.

(** ** Witness *)
Definition sample_calls : list collector_call :=
  [CallAccess kGlob kCacheMiss 0; CallReset; CallAccess kData kCacheHit 7; CallEnd 5 kRead 3; CallAccess kData kCacheMiss 4;
   CallAccess kMetadata kCacheHit 0; CallActualRead 16 11].
Definition sample_collector : collector := match NewCollector with Ok p => p | Throw _ => MkCollector [] [] 0 0 0 0 0 0 end.

Lemma temp_collector_aggregates_witness :
  let p := foldl (apply_call (fun q => q)) sample_collector sample_calls in
  GetCacheAccessInfo p !! 1%nat = Some (MkAccessInfo "data" 1 1 0 (Some 11) (Some 16) (Some 7) (Some 4)) /\
  GetCacheAccessInfo p !! 3%nat = Some (MkAccessInfo "glob" 0 0 0 None None None None).
Proof.
  destruct (temp_collector_aggregates (fun q => q) sample_collector sample_calls eq_refl) as [Hinfo _].
  split; [exact (Hinfo kData)|exact (Hinfo kGlob)].
Defined.
