(* ===== verification/LocalFs.v ===== *)
(** * LocalFs

    The local filesystem that the disk cache lives in (DuckDB's [LocalFileSystem] and
    the extended attributes of the operating system), as an interface.  An open handle
    is the content the file had when it was opened: a file removed or replaced later
    stays readable through it.  Opening, reading, asking for the modification time and
    removing may throw at any time (permissions, descriptors, I/O errors), and a
    directory may list names that are not files.  [LocalFsLaws] states what the sources
    rely on.  [disk], a map from paths to files on which nothing fails, and [faulty], a
    disk with paths that do not open or cannot be removed, keep it. *)
From S2P Require Import Prelude CppString StringUtil.

#[local] Open Scope Z_scope.

(** A regular file: its bytes, its modification time in microseconds and its extended
    attributes. *)
Record file := MkFile { contents : list byte; mtime : Z; xattrs : gmap string string }.

#[export] Instance file_eq_dec : EqDecision file.
Proof. solve_decision. Defined.

(** Opening for reading, with direct I/O or without: null when there is no such file
    ([FILE_FLAGS_NULL_IF_NOT_EXISTS]).  [TryRemoveFile] returns false when there is no such
    file and throws when it cannot be removed.  The results of [setxattr] and [utime] are
    booleans; the other writes throw. *)
Class LocalFileSystem (F : Type) := {
  fs_open : bool -> string -> F -> Res (option (list byte));
  fs_pread : list byte -> Z -> Z -> F -> Res (list byte);
  fs_mtime : string -> F -> Res Z;
  fs_exists : string -> F -> bool;
  fs_write_new : Z -> string -> list byte -> F -> Res unit * F;
  fs_remove : string -> F -> Res bool * F;
  fs_move : string -> string -> F -> Res unit * F;
  fs_list : string -> F -> list string;
  fs_getxattr : string -> string -> F -> string;
  fs_setxattr : string -> string -> string -> F -> bool * F;
  fs_touch : Z -> string -> F -> bool * F;
  fs_available : string -> F -> option Z;
  fs_total : string -> F -> option Z;
  fs_remove_directory : string -> F -> Res unit * F;
  fs_create_directory : string -> F -> Res unit * F
}.

Definition in_directory (dir path : string) : Prop := exists name, slash_free name /\ path = (dir +:+ "/" +:+ name)%string.

Class LocalFsLaws (F : Type) `{LocalFileSystem F} := {
  node : F -> string -> option file;
  open_law direct f p r : fs_open direct p f = Ok r -> r = contents <$> node f p;
  pread_law h off n f b : fs_pread h off n f = Ok b -> read_at h off n = Some b;
  exists_law f p : fs_exists p f = bool_decide (is_Some (node f p));
  mtime_law f p n t : node f p = Some n -> fs_mtime p f = Ok t -> t = mtime n;
  getxattr_law f p k : fs_getxattr p k f = default ""%string (node f p ≫= fun n => xattrs n !! k);
  (** Creating a file: whatever happens, no other file changes. *)
  write_law now p b f r f' : fs_write_new now p b f = (r, f') ->
    (forall q, q <> p -> node f' q = node f q) /\ (r = Ok tt -> node f' p = Some (MkFile b now ∅));
  remove_law p f r f' : fs_remove p f = (r, f') ->
    (forall q, q <> p -> node f' q = node f q) /\
    match r with
    | Ok true => is_Some (node f p) /\ node f' p = None
    | Ok false => node f p = None /\ node f' p = None
    | Throw _ => node f' p = node f p
    end;
  (** Renaming is atomic. *)
  move_law p q f r f' : p <> q -> fs_move p q f = (r, f') ->
    match r with
    | Ok _ => is_Some (node f p) /\ node f' q = node f p /\ node f' p = None /\
              forall x, x <> p -> x <> q -> node f' x = node f x
    | Throw _ => forall x, node f' x = node f x
    end;
  (** An exception is not the end of the process. *)
  alive_law f : (forall now p b, (fs_write_new now p b f).1 <> Throw Terminated) /\ (forall p q, (fs_move p q f).1 <> Throw Terminated);
  setxattr_law p k v f r f' : fs_setxattr p k v f = (r, f') ->
    (forall q, q <> p -> node f' q = node f q) /\
    if r then exists n, node f p = Some n /\ node f' p = Some (MkFile (contents n) (mtime n) (<[k := v]> (xattrs n)))
    else node f' p = node f p;
  touch_law now p f r f' : fs_touch now p f = (r, f') ->
    (forall q, q <> p -> node f' q = node f q) /\
    if r then exists n, node f p = Some n /\ node f' p = Some (MkFile (contents n) now (xattrs n))
    else node f' p = node f p;
  (** Every file is listed; what else is listed does not open as a file. *)
  list_law dir f name : slash_free name -> is_Some (node f (dir +:+ "/" +:+ name)%string) -> name ∈ fs_list dir f;
  list_names dir f name : name ∈ fs_list dir f -> slash_free name;
  list_unique dir f : NoDup (fs_list dir f);
  remove_directory_law dir f r f' : fs_remove_directory dir f = (r, f') ->
    (forall q, ~ in_directory dir q -> node f' q = node f q) /\
    (r = Ok tt -> forall q, in_directory dir q -> node f' q = None) /\
    (forall q n, node f' q = Some n -> node f q = Some n);
  create_directory_law dir f r f' : fs_create_directory dir f = (r, f') -> forall q, node f' q = node f q
}.

(** What opening a file that must exist gives. *)
Definition open_existing {F} `{LocalFileSystem F} (p : string) (f : F) : Res (list byte) :=
  handle ← fs_open false p f; of_option IOException handle.

(** An exception that an operation of this filesystem throws in some state.  A read past
    the end of a file does not count. *)
Definition local_error (F : Type) `{LocalFileSystem F} (e : exn) : Prop :=
  exists f : F, (exists direct p, fs_open direct p f = Throw e) \/ (exists p, fs_mtime p f = Throw e) \/
    (exists h off n, is_Some (read_at h off n) /\ fs_pread h off n f = Throw e) \/
    (exists p, (fs_remove p f).1 = Throw e).

(** An exception of the filesystem, or the end of the process because a file could not be
    removed where no exception may leave. *)
Definition local_failure (F : Type) `{LocalFileSystem F} (e : exn) : Prop :=
  local_error F e \/ e = Terminated /\ exists (f : F) p x, (fs_remove p f).1 = Throw x.

Section Errors.
Context {F : Type} `{LocalFileSystem F}.
Implicit Types (f : F).

Lemma open_error direct p f e : fs_open direct p f = Throw e -> local_error F e.
Proof. intros He. exists f. eauto 10. Qed.
Lemma mtime_error p f e : fs_mtime p f = Throw e -> local_error F e.
Proof. intros He. exists f. eauto 10. Qed.
Lemma pread_error h off n f e : is_Some (read_at h off n) -> fs_pread h off n f = Throw e -> local_error F e.
Proof. intros Hr He. exists f. eauto 10. Qed.
Lemma remove_error p f e : (fs_remove p f).1 = Throw e -> local_error F e.
Proof. intros He. exists f. eauto 10. Qed.
Lemma local_error_failure e : local_error F e -> local_failure F e.
Proof. by left. Qed.
End Errors.
Create HintDb local_fs.
#[export] Hint Resolve open_error mtime_error pread_error remove_error local_error_failure : local_fs.

(** ** An instance on which nothing fails *)
Record disk := MkDisk { files : gmap string file; available : option Z; capacity : option Z }.

Definition with_files (d : disk) (m : gmap string file) : disk := MkDisk m (available d) (capacity d).

(** The names under a directory. *)
Definition name_in (dir path : string) : option string :=
  if StartsWith path (dir +:+ "/")%string then
    let name := substr_from (String.length (dir +:+ "/")%string) path in
    if decide (slash_free name) then Some name else None
  else None.

#[export] Instance disk_filesystem : LocalFileSystem disk := {
  fs_open _ p d := Ok (contents <$> files d !! p);
  fs_pread h off n _ := of_option IOException (read_at h off n);
  fs_mtime p d := Ok (from_option mtime 0 (files d !! p));
  fs_exists p d := bool_decide (is_Some (files d !! p));
  fs_write_new now p b d := (Ok tt, with_files d (<[p := MkFile b now ∅]> (files d)));
  fs_remove p d := match files d !! p with
                   | None => (Ok false, d)
                   | Some _ => (Ok true, with_files d (delete p (files d)))
                   end;
  fs_move p q d := match files d !! p with
                   | None => (Throw IOException, d)
                   | Some n => (Ok tt, with_files d (<[q := n]> (delete p (files d))))
                   end;
  fs_list dir d := omap (fun pn => name_in dir pn.1) (map_to_list (files d));
  fs_getxattr p k d := default ""%string (files d !! p ≫= fun n => xattrs n !! k);
  fs_setxattr p k v d := match files d !! p with
                         | None => (false, d)
                         | Some n => (true, with_files d (<[p := MkFile (contents n) (mtime n) (<[k := v]> (xattrs n))]> (files d)))
                         end;
  fs_touch now p d := match files d !! p with
                      | None => (false, d)
                      | Some n => (true, with_files d (<[p := MkFile (contents n) now (xattrs n)]> (files d)))
                      end;
  fs_available _ d := available d;
  fs_total _ d := capacity d;
  fs_remove_directory dir d := (Ok tt, with_files d (filter (fun pn => name_in dir pn.1 = None) (files d)));
  fs_create_directory _ d := (Ok tt, d)
}.

Lemma name_in_Some dir p name : name_in dir p = Some name <-> slash_free name /\ p = (dir +:+ "/" +:+ name)%string.
Proof.
  unfold name_in. destruct (StartsWith p (dir +:+ "/")) eqn:Hs.
  - apply StartsWith_law in Hs as [q ->]. rewrite substr_from_append. split.
    + case_decide; [|done]. intros [= <-]. split; [done|]. by rewrite append_assoc.
    + intros [Hf He]. rewrite append_assoc in He. apply append_inj_len in He as [_ He]; [|done].
      apply append_inj_len in He as [_ ->]; [|done]. by rewrite decide_True.
  - split; [done|]. intros [_ ->]. assert (StartsWith (dir +:+ "/" +:+ name) (dir +:+ "/") = true) as Hx.
    { apply StartsWith_law. exists name. by rewrite append_assoc. }
    by rewrite Hx in Hs.
Qed.

#[export] Program Instance disk_laws : LocalFsLaws disk := { node d p := files d !! p }.
Next Obligation. by intros direct f p r [= <-]. Qed.
Next Obligation. intros h off n f b. simpl. by destruct (read_at h off n) as [x|]; intros [= <-]. Qed.
Next Obligation. done. Qed.
Next Obligation. intros f p n t Hn. simpl in *. rewrite Hn. by intros [= <-]. Qed.
Next Obligation. done. Qed.
Next Obligation.
  intros now p b f r f' [= <- <-]. simpl. split; [|by rewrite lookup_insert_eq].
  intros q Hq. by rewrite lookup_insert_ne.
Qed.
Next Obligation.
  intros p f r f'. simpl. destruct (files f !! p) eqn:Hp; intros [= <- <-]; [|done]. simpl.
  split; [intros q Hq; by rewrite lookup_delete_ne|]. split; [by eexists|]. by rewrite lookup_delete_eq.
Qed.
Next Obligation.
  intros p q f r f' Hne. simpl. destruct (files f !! p) eqn:Hp; intros [= <- <-]; [|done]. simpl.
  split; [done|]. rewrite lookup_insert_eq, lookup_insert_ne, lookup_delete_eq by done.
  split; [done|]. split; [done|]. intros x H1 H2. by rewrite lookup_insert_ne, lookup_delete_ne.
Qed.
Next Obligation. intros f. split; [done|]. intros p q. simpl. by destruct (files f !! p). Qed.
Next Obligation.
  intros p k v f r f'. simpl. destruct (files f !! p) eqn:Hp; intros [= <- <-]; [|done]. simpl.
  split; [intros q Hq; by rewrite lookup_insert_ne|]. rewrite lookup_insert_eq. eauto.
Qed.
Next Obligation.
  intros now p f r f'. simpl. destruct (files f !! p) eqn:Hp; intros [= <- <-]; [|done]. simpl.
  split; [intros q Hq; by rewrite lookup_insert_ne|]. rewrite lookup_insert_eq. eauto.
Qed.
Next Obligation.
  intros dir f name Hn [n Hp]. simpl. rewrite list_elem_of_omap.
  exists ((dir +:+ "/" +:+ name)%string, n). rewrite elem_of_map_to_list. split; [done|]. by apply name_in_Some.
Qed.
Next Obligation.
  intros dir f name. simpl. rewrite list_elem_of_omap. intros ([p n] & _ & Hp). by apply name_in_Some in Hp as [].
Qed.
Next Obligation.
  intros dir f. simpl. apply NoDup_omap_inj; [apply NoDup_map_to_list|].
  intros [p n] [q n'] name H1%elem_of_map_to_list H2%elem_of_map_to_list [_ Hp]%name_in_Some [_ Hq]%name_in_Some.
  simpl in *. congruence.
Qed.
Next Obligation.
  intros dir f r f' [= <- <-]. simpl. split; [|split].
  - intros q Hq. destruct (files f !! q) as [n|] eqn:Hf.
    + apply map_lookup_filter_Some. split; [done|]. simpl. destruct (name_in dir q) as [name|] eqn:Hn; [|done].
      exfalso. apply Hq. exists name. by apply name_in_Some.
    + apply map_lookup_filter_None. by left.
  - intros _ q (name & Hn & ->). apply map_lookup_filter_None. right. intros n _. simpl.
    rewrite (proj2 (name_in_Some dir _ name)); done.
  - intros q n Hq. by apply map_lookup_filter_Some in Hq as [].
Qed.
Next Obligation. by intros dir f r f' [= <- <-]. Qed.

(** Nothing fails on a [disk]. *)
Lemma disk_no_error e : ~ local_error disk e.
Proof.
  intros (f & [(direct & p & He)|[(p & He)|[(h & off & n & [b Hb] & He)|(p & He)]]]); simpl in He; [done|done| |].
  - by rewrite Hb in He.
  - by destruct (files f !! p).
Qed.

Lemma disk_no_failure e : ~ local_failure disk e.
Proof.
  intros [He|[_ (f & p & x & Hx)]]; [by eapply disk_no_error|].
  by apply (disk_no_error x), (remove_error p f).
Qed.

(** ** An instance that fails

    Paths that exist and do not open (subdirectories, files without permission), files that
    cannot be removed, reads that fail, and attributes that are not supported. *)
Record faulty := MkFaulty {
  sound : disk;
  unopenable : gset string;
  stuck : gset string;
  unreadable : bool;
  no_attributes : bool
}.

Definition with_sound (d : faulty) {A} (r : A * disk) : A * faulty :=
  (r.1, MkFaulty r.2 (unopenable d) (stuck d) (unreadable d) (no_attributes d)).

#[export] Instance faulty_filesystem : LocalFileSystem faulty | 100 := {
  fs_open direct p d := if decide (p ∈ unopenable d) then Throw IOException else fs_open direct p (sound d);
  fs_pread h off n d := if unreadable d then Throw IOException else fs_pread h off n (sound d);
  fs_mtime p d := fs_mtime p (sound d);
  fs_exists p d := fs_exists p (sound d);
  fs_write_new now p b d := with_sound d (fs_write_new now p b (sound d));
  fs_remove p d :=
    if decide (p ∈ stuck d /\ is_Some (files (sound d) !! p)) then (Throw IOException, d)
    else with_sound d (fs_remove p (sound d));
  fs_move p q d := with_sound d (fs_move p q (sound d));
  fs_list dir d := fs_list dir (sound d) ++ omap (name_in dir) (elements (unopenable d ∖ dom (files (sound d))));
  fs_getxattr p k d := fs_getxattr p k (sound d);
  fs_setxattr p k v d := if no_attributes d then (false, d) else with_sound d (fs_setxattr p k v (sound d));
  fs_touch now p d := with_sound d (fs_touch now p (sound d));
  fs_available p d := fs_available p (sound d);
  fs_total p d := fs_total p (sound d);
  fs_remove_directory dir d := with_sound d (fs_remove_directory dir (sound d));
  fs_create_directory dir d := with_sound d (fs_create_directory dir (sound d))
}.

Lemma with_sound_inv d {A} (x : A * disk) r f : with_sound d x = (r, f) -> x = (r, sound f).
Proof. destruct x as [a y]. by intros [= <- <-]. Qed.

#[export] Program Instance faulty_laws : LocalFsLaws faulty | 100 := { node d p := files (sound d) !! p }.
Next Obligation. intros direct f p r. simpl. case_decide; [done|]. by intros [= <-]. Qed.
Next Obligation. intros h off n f b. simpl. destruct (unreadable f); [done|]. by destruct (read_at h off n) as [x|]; intros [= <-]. Qed.
Next Obligation. done. Qed.
Next Obligation. intros f p n t Hn. simpl in *. rewrite Hn. by intros [= <-]. Qed.
Next Obligation. done. Qed.
Next Obligation.
  intros now p b f r f' Hw%with_sound_inv. exact (write_law (F := disk) now p b (sound f) r (sound f') Hw).
Qed.
Next Obligation.
  intros p f r f'. simpl. case_decide; [by intros [= <- <-]|]. intros Hw%with_sound_inv. exact (remove_law (F := disk) p (sound f) r (sound f') Hw).
Qed.
Next Obligation.
  intros p q f r f' Hne Hw%with_sound_inv. exact (move_law (F := disk) p q (sound f) r (sound f') Hne Hw).
Qed.
Next Obligation. intros f. apply (alive_law (F := disk) (sound f)). Qed.
Next Obligation.
  intros p k v f r f'. simpl. destruct (no_attributes f); [by intros [= <- <-]|]. intros Hw%with_sound_inv. exact (setxattr_law (F := disk) p k v (sound f) r (sound f') Hw).
Qed.
Next Obligation.
  intros now p f r f' Hw%with_sound_inv. exact (touch_law (F := disk) now p (sound f) r (sound f') Hw).
Qed.
Next Obligation.
  intros dir f name Hn Hs. apply elem_of_app. left. by apply (list_law (F := disk)).
Qed.
Next Obligation.
  intros dir f name [Hn|Hn]%elem_of_app; [by apply (list_names (F := disk) dir (sound f))|].
  apply list_elem_of_omap in Hn as (p & _ & Hp). by apply name_in_Some in Hp as [].
Qed.
Next Obligation.
  intros dir f. apply NoDup_app. split; [apply (list_unique (F := disk))|]. split.
  - intros name Hn (p & Hp & He)%list_elem_of_omap. apply name_in_Some in He as [_ ->].
    apply elem_of_elements, elem_of_difference in Hp as [_ Hp]. apply Hp, elem_of_dom.
    apply list_elem_of_omap in Hn as ([q n] & Hq & He). apply name_in_Some in He as [_ He]. simpl in He. subst q.
    apply elem_of_map_to_list in Hq. eauto.
  - apply NoDup_omap_inj; [apply NoDup_elements|].
    by intros p q name _ _ [_ ->]%name_in_Some [_ ->]%name_in_Some.
Qed.
Next Obligation.
  intros dir f r f' Hw%with_sound_inv. exact (remove_directory_law (F := disk) dir (sound f) r (sound f') Hw).
Qed.
Next Obligation.
  intros dir f r f' Hw%with_sound_inv. exact (create_directory_law (F := disk) dir (sound f) r (sound f') Hw).
Qed.
