(* ===== verification/Url.v ===== *)
(** * Url

    [URLUtils] and [SanitizedCachePath] ([src/src/utils/url_utils.cpp]): the path that
    keys the caches is the URL without query and fragment. *)
From S2P Require Import Prelude CppString StringUtil.
From Stdlib Require Import Strings.Ascii.

#[local] Open Scope string_scope.

(** [find_first_of (chars, pos)]. *)
Fixpoint find_first_of_from (pos : nat) (chars : list ascii) (s : string) : option nat :=
  match s with
  | "" => None
  | String c s' => if existsb (Ascii.eqb c) chars then Some pos else find_first_of_from (S pos) chars s'
  end.

Definition StripQueryAndFragment (url : string) : string :=
  let question_pos := find_char url "?" in
  let hash_pos := find_char url "#" in
  let strip_pos :=
    match question_pos, hash_pos with
    | Some q, Some h => Some (if (q <? h)%nat then q else h)
    | Some q, None => Some q
    | None, Some h => Some h
    | None, None => None
    end in
  match strip_pos with
  | Some pos => substr_to pos url
  | None => url
  end.

(** [SanitizedCachePath]. *)
Definition SanitizedCachePath (url : string) : string := StripQueryAndFragment url.

Record ParsedURL := MkParsedURL {
  scheme : string;
  host : string;
  path : string;
  query : string;
  fragment : string;
  url_without_query : string
}.

(** The position [find (pat, pos)] from the start of the string. *)
Definition find_from (s pat : string) (pos : nat) : option nat := String.index pos pat s.

Definition char_at (pos : nat) (s : string) (c : ascii) : bool :=
  match String.get pos s with Some d => Ascii.eqb d c | None => false end.

Definition ParseURL (url : string) : ParsedURL :=
  if String.eqb url "" then MkParsedURL "" "" "" "" "" ""
  else
    let '(scheme, pos) :=
      match find url "://" with
      | Some e => (substr_to e url, e + 3)%nat
      | None => ("", 0%nat)
      end in
    let rest := substr_from pos url in
    match find_first_of_from 0 ["/"; "?"; "#"]%char rest with
    | None => MkParsedURL scheme rest "" "" "" url
    | Some h =>
        let host := substr_to h rest in
        let pos := (pos + h)%nat in
        let rest := substr_from h rest in
        match find_first_of_from 0 ["?"; "#"]%char rest with
        | None => MkParsedURL scheme host rest "" "" url
        | Some p =>
            let path := substr_to p rest in
            let base := substr_to (pos + p) url in
            let rest := substr_from p rest in
            if char_at 0 rest "?" then
              let rest := substr_from 1 rest in
              match find_char rest "#" with
              | None => MkParsedURL scheme host path rest "" base
              | Some q =>
                  MkParsedURL scheme host path (substr_to q rest) (substr_from (q + 1) rest) base
              end
            else MkParsedURL scheme host path "" (substr_from 1 rest) base
        end
    end.

(** ** Positions *)
Lemma substr_split n s : (n <= String.length s)%nat -> substr_to n s ++ substr_from n s = s.
Proof.
  intros Hn. unfold substr_to, substr_from. revert n Hn. induction s as [|c s IH]; intros n Hn; simpl in *.
  - by destruct n.
  - destruct n as [|n].
    + simpl. rewrite append_nil. by rewrite substring_all.
    + simpl. rewrite append_cons. f_equal. apply IH. lia.
Qed.

Lemma find_char_Some pos c s n :
  find_char_from pos c s = Some n ->
  (pos <= n < pos + String.length s)%nat /\ find_char (substr_to (n - pos) s) c = None /\
  substr_from (n - pos) s = String c (substr_from (n - pos + 1) s).
Proof.
  unfold substr_to, substr_from. revert pos. induction s as [|d s IH]; intros pos; simpl; [done|].
  destruct (Ascii.eqb_spec d c) as [->|Hne].
  - intros [= <-]. rewrite Nat.sub_diag. simpl. split; [lia|]. split; [done|].
    by rewrite Nat.sub_0_r, substring_all.
  - intros Hf. destruct (IH (S pos) Hf) as (H1 & H2 & H3). split; [lia|].
    replace (n - pos)%nat with (S (n - S pos)) by lia. simpl. split.
    + unfold find_char. simpl. rewrite (proj2 (Ascii.eqb_neq d c)) by done.
      by eapply find_char_from_shift.
    + exact H3.
Qed.

Lemma find_first_of_Some pos chars s n :
  find_first_of_from pos chars s = Some n -> (pos <= n < pos + String.length s)%nat.
Proof.
  revert pos. induction s as [|d s IH]; intros pos; simpl; [done|].
  destruct (existsb _ _); [intros [= <-]; lia|]. intros Hf%IH. lia.
Qed.

Lemma first_of_char pos chars s n :
  find_first_of_from pos chars s = Some n ->
  exists c, existsb (Ascii.eqb c) chars = true /\ substr_from (n - pos) s = String c (substr_from 1 (substr_from (n - pos) s)).
Proof.
  unfold substr_from. revert pos. induction s as [|d s IH]; intros pos; simpl; [done|].
  destruct (existsb (Ascii.eqb d) chars) eqn:He.
  - intros [= <-]. rewrite Nat.sub_diag. simpl. exists d. split; [done|].
    rewrite Nat.sub_0_r. by rewrite !substring_all by (rewrite ?substring_all; lia).
  - intros Hf. destruct (IH (S pos) Hf) as (c & Hc & H). exists c. split; [done|].
    apply find_first_of_Some in Hf. replace (n - pos)%nat with (S (n - S pos)) by lia. simpl. exact H.
Qed.

Lemma none_before pos c s n m :
  find_char_from pos c s = Some n -> (pos <= m <= n)%nat -> find_char (substr_to (m - pos) s) c = None.
Proof.
  unfold substr_to, find_char. intros Hf Hm. revert pos m Hf Hm. induction s as [|d s IH]; intros pos m; simpl; [done|].
  destruct (Ascii.eqb d c) eqn:Hd.
  - intros [= <-] Hm. replace (m - pos)%nat with 0%nat by lia. done.
  - intros Hf Hm. destruct (m - pos)%nat as [|k] eqn:Hk; [done|]. simpl. rewrite Hd.
    eapply find_char_from_shift. replace k with (m - S pos)%nat by lia. apply (IH (S pos) m Hf). lia.
Qed.

Lemma none_in_prefix c s n : find_char s c = None -> find_char (substr_to n s) c = None.
Proof.
  unfold find_char, substr_to.
  assert (forall m pos, find_char_from pos c s = None -> find_char_from pos c (String.substring 0 m s) = None) as H.
  { induction s as [|d s IH]; intros m pos; [by destruct m|]. simpl.
    destruct (Ascii.eqb d c) eqn:Hd; [done|]. intros Hf. destruct m as [|m]; simpl; [done|]. rewrite Hd. by apply IH. }
  apply H.
Qed.

Definition no_query (s : string) : Prop := find_char s "?" = None /\ find_char s "#" = None.
Definition tail_ok (s : string) : Prop := s = "" \/ exists c s', s = String c s' /\ (c = "?" \/ c = "#")%char.

Lemma substr_to_le n s : (n < String.length s)%nat -> (n <= String.length s)%nat.
Proof. lia. Qed.

Lemma strip_spec url :
  exists rest, url = StripQueryAndFragment url ++ rest /\ no_query (StripQueryAndFragment url) /\ tail_ok rest.
Proof.
  unfold StripQueryAndFragment.
  assert (forall n c d, find_char url c = Some n -> (find_char url d = None \/ exists m, find_char url d = Some m /\ (n <= m)%nat) ->
    url = substr_to n url ++ substr_from n url /\ find_char (substr_to n url) c = None /\
    find_char (substr_to n url) d = None /\ exists s', substr_from n url = String c s') as Hcut.
  { intros n c d Hn Hd. pose proof (find_char_Some 0 c url n Hn) as (Hlt & Hc & Hs). rewrite Nat.sub_0_r in *.
    split; [symmetry; apply substr_split; lia|]. split; [done|]. split; [|eauto].
    destruct Hd as [Hd|(m & Hd & Hm)]; [by apply none_in_prefix|].
    rewrite <-(Nat.sub_0_r n). apply (none_before 0 d url m n Hd). lia. }
  destruct (find_char url "?") as [q|] eqn:Hq, (find_char url "#") as [h|] eqn:Hh.
  - destruct (Nat.ltb_spec q h).
    + destruct (Hcut q "?" "#")%char as (H1 & H2 & H3 & s' & Hs); [done|right; exists h; split; [done|lia]|].
      exists (substr_from q url). split; [done|]. split; [done|]. right. eauto 10.
    + destruct (Hcut h "#" "?")%char as (H1 & H2 & H3 & s' & Hs); [done|right; exists q; split; [done|lia]|].
      exists (substr_from h url). split; [done|]. split; [done|]. right. eauto 10.
  - destruct (Hcut q "?" "#")%char as (H1 & H2 & H3 & s' & Hs); [done|by left|].
    exists (substr_from q url). split; [done|]. split; [done|]. right. eauto 10.
  - destruct (Hcut h "#" "?")%char as (H1 & H2 & H3 & s' & Hs); [done|by left|].
    exists (substr_from h url). split; [done|]. split; [done|]. right. eauto 10.
  - exists "". split; [by rewrite append_nil_r|]. split; [done|]. by left.
Qed.

(** The cache key of a URL.  [StripQueryAndFragment] cuts the URL at its first '?'
    or '#': what it returns contains neither, what it drops is empty or starts with one
    of them; so URLs that differ only in their query or fragment share a key, and
    stripping twice changes nothing. *)
Theorem strip_query_and_fragment url :
  (exists rest, url = StripQueryAndFragment url ++ rest /\ no_query (StripQueryAndFragment url) /\ tail_ok rest) /\
  (forall base rest, url = base ++ rest -> no_query base -> tail_ok rest -> StripQueryAndFragment url = base) /\
  StripQueryAndFragment (StripQueryAndFragment url) = StripQueryAndFragment url.
Proof.
  assert (forall base rest, no_query base -> tail_ok rest -> StripQueryAndFragment (base ++ rest) = base) as Huniq.
  { intros base rest [Hq Hh] [->|(c & s' & -> & Hc)].
    - unfold StripQueryAndFragment. by rewrite append_nil_r, Hq, Hh.
    - unfold StripQueryAndFragment, find_char in *. rewrite !find_char_append by done. simpl.
      destruct Hc as [-> | ->]; simpl.
      + destruct (find_char_from _ "#"%char s') as [m|] eqn:Hm.
        * assert (String.length base < m)%nat as Hlt.
          { apply find_char_Some in Hm as (Hm & _). lia. }
          rewrite (proj2 (Nat.ltb_lt _ _) Hlt). apply substr_to_append.
        * apply substr_to_append.
      + destruct (find_char_from _ "?"%char s') as [m|] eqn:Hm.
        * assert (String.length base < m)%nat as Hlt.
          { apply find_char_Some in Hm as (Hm & _). lia. }
          rewrite (proj2 (Nat.ltb_ge _ _)) by lia. apply substr_to_append.
        * apply substr_to_append. }
  split; [apply strip_spec|]. split; [intros base rest ->; apply Huniq|].
  destruct (strip_spec url) as (rest & _ & Hn & _).
  pose proof (Huniq (StripQueryAndFragment url) "" Hn (or_introl eq_refl)) as H. by rewrite append_nil_r in H.
Qed.

(** ** Parsing *)
Lemma substring_split n m s :
  (n + m <= String.length s)%nat -> substr_from n s = String.substring n m s ++ substr_from (n + m) s.
Proof.
  intros Hl. unfold substr_from. revert n Hl. induction s as [|c s IH]; intros n Hl; simpl in *.
  - destruct n, m; try lia. done.
  - destruct n as [|n]; simpl.
    + rewrite substring_all by lia. destruct m as [|m]; simpl.
      * by rewrite substring_all by lia.
      * rewrite append_cons. f_equal. symmetry. apply (substr_split m s). lia.
    + apply IH. lia.
Qed.

Lemma length_substring n m s : String.length (String.substring n m s) = Nat.min m (String.length s - n).
Proof.
  revert n m. induction s as [|c s IH]; intros n m; simpl; [by destruct n, m|].
  destruct n as [|n]; simpl; [|by rewrite IH]. destruct m as [|m]; simpl; [done|]. rewrite IH. lia.
Qed.

Lemma find_Some pat s e :
  pat <> "" -> find s pat = Some e ->
  (e + String.length pat <= String.length s)%nat /\ s = substr_to e s ++ pat ++ substr_from (e + String.length pat) s.
Proof.
  unfold find. intros Hp Hf. apply String.index_correct1 in Hf. pose proof (length_substring e (String.length pat) s) as Hl.
  rewrite Hf in Hl. assert (String.length pat <> 0)%nat by (by destruct pat). split; [lia|].
  rewrite <-Hf at 1. rewrite <-substring_split by lia. symmetry. apply substr_split. lia.
Qed.

Lemma substr_from_add n m s : (n <= String.length s)%nat -> substr_from m (substr_from n s) = substr_from (n + m) s.
Proof.
  unfold substr_from. revert n. induction s as [|c s IH]; intros n Hn; simpl in Hn.
  - by replace n with 0%nat by lia.
  - destruct n as [|n]; [by rewrite (substring_all (String c s)) by (simpl; lia)|]. simpl. apply IH. lia.
Qed.

Lemma length_substr_from n s : String.length (substr_from n s) = (String.length s - n)%nat.
Proof. unfold substr_from. rewrite length_substring. lia. Qed.

(** The tail that the query and the fragment come from. *)
Definition url_tail (u : ParsedURL) (tail : string) : Prop :=
  (tail = "" /\ query u = "" /\ fragment u = "") \/
  (tail = "?" ++ query u /\ fragment u = "") \/
  (tail = "?" ++ query u ++ "#" ++ fragment u) \/
  (tail = "#" ++ fragment u /\ query u = "").

Lemma parse_tail rest :
  (exists c, existsb (Ascii.eqb c) ["?"; "#"]%char = true /\ rest = String c (substr_from 1 rest)) ->
  forall scheme host path base,
  let u := if char_at 0 rest "?" then
              match find_char (substr_from 1 rest) "#" with
              | None => MkParsedURL scheme host path (substr_from 1 rest) "" base
              | Some q => MkParsedURL scheme host path (substr_to q (substr_from 1 rest))
                            (substr_from (q + 1) (substr_from 1 rest)) base
              end
            else MkParsedURL scheme host path "" (substr_from 1 rest) base in
  url_tail u rest.
Proof.
  intros (c & Hc & Hr) sc ho pa base. set (t := substr_from 1 rest) in *. clearbody t. subst rest.
  unfold char_at. simpl in *. rewrite !orb_true_iff in Hc.
  destruct (Ascii.eqb c "?") eqn:Hq0; [apply Ascii.eqb_eq in Hq0; subst c|].
  - destruct (find_char t "#") as [q|] eqn:Hq; [|right; left; done].
    right. right. left. simpl. pose proof (find_char_Some 0 _ _ _ Hq) as (Hlt & _ & Hs). rewrite Nat.sub_0_r in *.
    change ("#" ++ substr_from (q + 1) t) with (String "#" (substr_from (q + 1) t)). rewrite <-Hs.
    rewrite substr_split by lia. done.
  - right. right. right. destruct Hc as [|[Hc|]]; [done| |done]. apply Ascii.eqb_eq in Hc. by subst.
Qed.

(** Parsing loses nothing.  The components of a parsed URL, put back in order with
    their separators, are the URL; the scheme ends at the first "://"; and
    [url_without_query] followed by the query and fragment is the URL as well. *)
Theorem parse_url_reassembles url :
  url <> "" ->
  exists sep tail,
    ((sep = "" /\ scheme (ParseURL url) = "" /\ find url "://" = None) \/
     (sep = "://" /\ find url "://" = Some (String.length (scheme (ParseURL url))))) /\
    url = scheme (ParseURL url) ++ sep ++ host (ParseURL url) ++ path (ParseURL url) ++ tail /\
    url = url_without_query (ParseURL url) ++ tail /\
    url_tail (ParseURL url) tail.
Proof.
  intros Hne. unfold ParseURL. rewrite (proj2 (String.eqb_neq url "") Hne).
  assert (exists sep sc pos, (match find url "://" with Some e => (substr_to e url, (e + 3)%nat) | None => ("", 0%nat) end)
      = (sc, pos) /\ (pos <= String.length url)%nat /\ url = sc ++ sep ++ substr_from pos url /\
      ((sep = "" /\ sc = "" /\ find url "://" = None) \/ (sep = "://" /\ find url "://" = Some (String.length sc))))
    as (sep & sc & pos & -> & Hpos & Hurl & Hsep).
  { destruct (find url "://") as [e|] eqn:He.
    - destruct (find_Some "://" url e) as [Hl Hs]; [done|done|]. exists "://", (substr_to e url), (e + 3)%nat.
      split; [done|]. split; [simpl in Hl; lia|]. split; [done|]. right. split; [done|].
      unfold substr_to. rewrite length_substring. simpl in Hl. f_equal. lia.
    - exists "", "", 0%nat. split; [done|]. split; [lia|]. split; [|by left]. rewrite !append_nil.
      unfold substr_from. rewrite substring_all; [done|lia]. }
  destruct (find_first_of_from 0 ["/"; "?"; "#"]%char (substr_from pos url)) as [h|] eqn:Hh.
  2:{ exists sep, "". simpl. split; [done|]. rewrite !append_nil_r. split; [done|]. split; [done|]. by left. }
  apply find_first_of_Some in Hh as Hlt. set (rest := substr_from pos url) in *.
  assert (rest = substr_to h rest ++ substr_from h rest) as Hrest by (symmetry; apply substr_split; lia).
  destruct (find_first_of_from 0 ["?"; "#"]%char (substr_from h rest)) as [p|] eqn:Hp.
  2:{ exists sep, "". simpl. split; [done|]. rewrite !append_nil_r. split; [by rewrite <-Hrest|]. split; [done|]. by left. }
  apply find_first_of_Some in Hp as Hlt2. apply first_of_char in Hp as (c & Hc & Htail). rewrite Nat.sub_0_r in Htail.
  set (rest2 := substr_from h rest) in *. set (tail := substr_from p rest2) in *.
  assert (rest2 = substr_to p rest2 ++ tail) as Hrest2 by (symmetry; apply substr_split; lia).
  set (base := substr_to (pos + h + p) url).
  pose proof (parse_tail tail (ex_intro _ c (conj Hc Htail)) sc (substr_to h rest) (substr_to p rest2) base) as Hu.
  cbv zeta in Hu. exists sep, tail. split; [|split; [|split]].
  - destruct (char_at 0 tail "?"); [destruct (find_char _ "#")|]; exact Hsep.
  - destruct (char_at 0 tail "?"); [destruct (find_char _ "#")|]; simpl; by rewrite <-Hrest2, <-Hrest.
  - assert (url = base ++ tail) as Hbase.
    { unfold rest2, rest in Hlt, Hlt2. rewrite length_substr_from in Hlt. do 2 rewrite length_substr_from in Hlt2.
      unfold tail, rest2, rest, base. rewrite !substr_from_add by (rewrite ?length_substr_from; lia).
      rewrite Nat.add_assoc. symmetry. apply substr_split. lia. }
    destruct (char_at 0 tail "?"); [destruct (find_char _ "#")|]; exact Hbase.
  - exact Hu.
Qed.

Lemma parse_url_reassembles_witness :
  exists sep tail,
    ((sep = "" /\ scheme (ParseURL "s3://b/k?v=1#f") = "" /\ find "s3://b/k?v=1#f" "://" = None) \/
     (sep = "://" /\ find "s3://b/k?v=1#f" "://" = Some (String.length (scheme (ParseURL "s3://b/k?v=1#f"))))) /\
    "s3://b/k?v=1#f" = scheme (ParseURL "s3://b/k?v=1#f") ++ sep ++ host (ParseURL "s3://b/k?v=1#f") ++
      path (ParseURL "s3://b/k?v=1#f") ++ tail /\
    "s3://b/k?v=1#f" = url_without_query (ParseURL "s3://b/k?v=1#f") ++ tail /\
    url_tail (ParseURL "s3://b/k?v=1#f") tail.
Proof. apply (parse_url_reassembles "s3://b/k?v=1#f"). discriminate. Defined.

(** A separator that only the query contains is taken for the scheme's: the scheme then
    holds the path, and [url_without_query] differs from [StripQueryAndFragment]. *)
Theorem parse_url_separator_in_query :
  let u := ParseURL "/data/f?redirect=http://x?y" in
  scheme u = "/data/f?redirect=http" /\ host u = "x" /\
  url_without_query u = "/data/f?redirect=http://x" /\
  StripQueryAndFragment "/data/f?redirect=http://x?y" = "/data/f".
Proof. repeat split; reflexivity. Qed.
