(* ===== verification/FilesystemUtils.v ===== *)
(** * FilesystemUtils

    [src/src/utils/filesystem_utils.cpp] on Linux, over the interface of [LocalFs]:
    extended attributes, stale file eviction, the timestamp index of the cache
    directories and the disk space check. *)
From S2P Require Import Prelude CppString StringUtil OrdMap LocalFs Config.
From Stdlib Require QArith.QArith_base.

#[local] Open Scope Z_scope.

(** Timestamps are ordered by value ([std::map<timestamp_t, string>]). *)
#[export] Program Instance timestamp_less : KeyCompare Z := {| less := Z.ltb |}.
Next Obligation. apply Z.ltb_irrefl. Qed.
Next Obligation. intros a b c. rewrite !Z.ltb_lt. lia. Qed.
Next Obligation. intros a b Hne. rewrite !Z.ltb_lt. lia. Qed.

Definition CACHE_VERSION_ATTR_KEY : string := "user.cache_version".

(** [XATTR_SIZE_MAX]. *)
Definition GetMaxXattrValueSize : Z := 65536.

Record MaxFileNameLength := MkMaxFileNameLength { max_filepath_len : Z; max_filename_len : Z }.

(** [PATH_MAX] and [NAME_MAX]. *)
Definition GetMaxFileNameLength : MaxFileNameLength := MkMaxFileNameLength 4096 255.

Definition GetTemporaryDirectory : string := "/tmp".

(** [sysconf (_SC_PAGESIZE)] as argument. *)
Definition GetFileSystemPageSize (sysconf : Z) : Z := if sysconf <=? 0 then 4096 else sysconf.

(** *** Disk space

    [statvfs] of a path, when it succeeds: the blocks of the filesystem and their size. *)
Section DiskSpace.
Variable statvfs : string -> option (Z * Z).
#[local] Open Scope u64_scope.

Definition GetOverallFileSystemDiskSpace (path : string) : Z :=
  match statvfs path with None => 0 | Some (total_blocks, block_size) => total_blocks *u block_size end.

(** What [fs_total] of [LocalFs] stands for. *)
Definition GetTotalDiskSpace (path : string) : option Z :=
  '(total_blocks, block_size) ← statvfs path; Some (total_blocks *u block_size).

(** Only the second tells a failure from an empty disk. *)
Lemma disk_space_agrees path : GetOverallFileSystemDiskSpace path = default 0 (GetTotalDiskSpace path).
Proof. unfold GetOverallFileSystemDiskSpace, GetTotalDiskSpace. by destruct (statvfs path) as [[]|]. Qed.
End DiskSpace.

(** *** Reading an attribute

    [getxattr] is called twice, for the size of the value and for the value; what the
    attribute is at the first call ([at_size]) and at the second ([at_value]) differs when
    another process replaces the file in between.  A negative result is an error; the second
    call fails when the value does not fit any more. *)
Definition getxattr_size (attribute : option string) : Z :=
  match attribute with None => -1 | Some value => str_size value end.

Definition getxattr_value (attribute : option string) (size : Z) : Z * string :=
  match attribute with
  | None => (-1, ""%string)
  | Some value => if size <? str_size value then (-1, ""%string) else (str_size value, value)
  end.

Definition read_attribute (at_size at_value : option string) : string :=
  let size := getxattr_size at_size in
  if size <=? 0 then ""
  else let '(res, value) := getxattr_value at_value size in if 0 <? res then value else "".

(** While the file stays, the two calls are the one of [LocalFs]. *)
Lemma read_attribute_stable attribute : read_attribute attribute attribute = default ""%string attribute.
Proof.
  unfold read_attribute. destruct attribute as [value|]; [|done]. simpl. destruct (Z.leb_spec (str_size value) 0) as [Hl|Hl].
  - destruct value; [done|]. unfold str_size in Hl. simpl in Hl. lia.
  - by rewrite Z.ltb_irrefl, (proj2 (Z.ltb_lt _ _) Hl).
Qed.

(** Otherwise the result is the later value, whole, or nothing: never a part of one. *)
Lemma read_attribute_whole at_size at_value :
  read_attribute at_size at_value = ""%string \/ Some (read_attribute at_size at_value) = at_value.
Proof.
  unfold read_attribute. destruct (getxattr_size at_size <=? 0); [by left|]. destruct at_value as [value|]; [|by left]. simpl.
  destruct (_ <? str_size value); [by left|]. destruct (0 <? str_size value); [by right|by left].
Qed.

Section Filesystem.
Context {F : Type} `{LocalFileSystem F}.
Implicit Types (f : F) (filepath : string).

Definition GetSortedFilesUnder (folder : string) f : list string :=
  std_sort_keys (fs_list folder f).

Definition SetSingleFileAttribute (filepath key value : string) f : Res bool * F :=
  if GetMaxXattrValueSize <? str_size key then (Throw InternalException, f)
  else if GetMaxXattrValueSize <? str_size value then (Throw InternalException, f)
  else let '(r, f') := fs_setxattr filepath key value f in (Ok r, f').

(** The loop over the attributes, in the order the map iterates. *)
Fixpoint set_attributes (filepath : string) (attrs : list (string * string)) (all_ok : bool) f : Res bool * F :=
  match attrs with
  | [] => (Ok all_ok, f)
  | (key, value) :: attrs =>
      match SetSingleFileAttribute filepath key value f with
      | (Throw e, f') => (Throw e, f')
      | (Ok r, f') => set_attributes filepath attrs (all_ok && r) f'
      end
  end.

Definition SetFileXattrs (filepath : string) (attrs : gmap string string) f : Res bool * F :=
  set_attributes filepath (map_to_list attrs) true f.

Definition SetCacheVersion (filepath version : string) f : Res bool * F :=
  SetSingleFileAttribute filepath CACHE_VERSION_ATTR_KEY version f.

Definition GetCacheVersion (filepath : string) f : string := fs_getxattr filepath CACHE_VERSION_ATTR_KEY f.

Definition GetFileXattr (filepath key : string) f : string := fs_getxattr filepath key f.

Definition UpdateFileTimestamps (now : Z) (filepath : string) f : bool * F := fs_touch now filepath f.

(** The files of [EvictStaleCacheFiles] one after the other.  [std::remove]'s result is
    compared with -1 by [<], which is never true: a failure is neither reported nor
    distinguished. *)
Fixpoint evict_stale_files (now : Z) (cache_directory : string) (names evicted : list string) f : Res (list string) * F :=
  match names with
  | [] => (Ok evicted, f)
  | fname :: names =>
      let full_name := (cache_directory +:+ "/" +:+ fname)%string in
      match (handle ← fs_open false full_name f;
             match handle with None => Ok None | Some _ => t ← fs_mtime full_name f; Ok (Some t) end) with
      | Throw e => (Throw e, f)
      | Ok None => evict_stale_files now cache_directory names evicted f
      | Ok (Some last_mod_time) =>
          if Z.geb (now - last_mod_time) CACHE_FILE_STALENESS_MICROSEC then
            evict_stale_files now cache_directory names (evicted ++ [full_name]) (fs_remove full_name f).2
          else evict_stale_files now cache_directory names evicted f
      end
  end.

Definition EvictStaleCacheFiles (now : Z) (cache_directory : string) f : Res (list string) * F :=
  evict_stale_files now cache_directory (fs_list cache_directory f) [] f.

Definition GetFileCountUnder (folder : string) f : Z := Z.of_nat (length (fs_list folder f)).

(** The first timestamp from [ts] on that is not taken.  A free one is found within as
    many tries as there are entries, and one more. *)
Fixpoint free_timestamp (fuel : nat) (m : gmap Z string) (ts : Z) : Z :=
  match fuel with
  | O => ts
  | S fuel => match m !! ts with None => ts | Some _ => free_timestamp fuel m (ts + 1) end
  end.

Definition insert_at_free (ts : Z) (filepath : string) (m : gmap Z string) : gmap Z string :=
  <[free_timestamp (S (base.size m)) m ts := filepath]> m.

Definition index_file (f : F) (folder : string) (m : Res (gmap Z string)) (fname : string) : Res (gmap Z string) :=
  let full_name := (folder +:+ "/" +:+ fname)%string in
  m ← m;
  handle ← fs_open false full_name f;
  match handle with
  | None => Ok m
  | Some _ => last_mod_time ← fs_mtime full_name f; Ok (insert_at_free last_mod_time full_name m)
  end.

Definition GetOnDiskFilesUnder (folders : list string) f : Res (gmap Z string) :=
  foldl (fun m folder => foldl (index_file f folder) m (fs_list folder f)) (Ok ∅) folders.

(** [CanCacheOnDisk]; [rnd] rounds to the nearest [double]. *)
Definition CanCacheOnDisk (rnd : QArith_base.Q -> QArith_base.Q) (cache_directory : string)
    (cache_block_size min_disk_bytes_for_cache : Z) f : bool :=
  match fs_available cache_directory f with
  | None => false
  | Some available =>
      if available <=? cache_block_size then false
      else if negb (min_disk_bytes_for_cache =? DEFAULT_MIN_DISK_BYTES_FOR_CACHE) then
        min_disk_bytes_for_cache <=? available
      else
        match fs_total cache_directory f with
        | None => false
        | Some total =>
            if total =? 0 then true (* [available > 0]: the quotient is infinite *)
            else
              negb (QArith_base.Qle_bool
                (rnd (QArith_base.Qdiv (rnd (QArith_base.inject_Z available)) (rnd (QArith_base.inject_Z total))))
                MIN_DISK_SPACE_PERCENTAGE_FOR_CACHE)
        end
  end.
End Filesystem.

(** ** Facts *)
Lemma free_timestamp_free (m : gmap Z string) fuel ts :
  (exists n, (n < Z.of_nat fuel) /\ 0 <= n /\ m !! (ts + n) = None) -> m !! free_timestamp fuel m ts = None /\ ts <= free_timestamp fuel m ts.
Proof.
  revert ts. induction fuel as [|fuel IH]; intros ts (n & Hn & H0 & Hf); [lia|]. simpl.
  destruct (m !! ts) as [x|] eqn:Hts; [|split; [done|lia]].
  destruct (IH (ts + 1)) as [H1 H2]; [|split; [done|lia]]. exists (n - 1).
  assert (n <> 0) by (intros ->; rewrite Z.add_0_r in Hf; congruence). split; [lia|]. split; [lia|].
  by replace (ts + 1 + (n - 1)) with (ts + n) by lia.
Qed.

(** Among [size + 1] consecutive timestamps one is free. *)
Lemma some_timestamp_free (m : gmap Z string) ts :
  exists n, n < Z.of_nat (S (base.size m)) /\ 0 <= n /\ m !! (ts + n) = None.
Proof.
  set (l := seqZ ts (Z.of_nat (S (base.size m)))).
  destruct (decide (Forall (fun t => is_Some (m !! t)) l)) as [Hall|Hno].
  - exfalso. rewrite Forall_forall in Hall.
    assert (length l <= length (fst <$> map_to_list m))%nat as Hle.
    { apply submseteq_length, NoDup_submseteq; [apply NoDup_seqZ|]. intros t [x Hx]%Hall.
      apply list_elem_of_fmap. exists (t, x). by rewrite elem_of_map_to_list. }
    unfold l in Hle. rewrite length_seqZ, length_fmap in Hle. rewrite length_map_to_list in Hle. lia.
  - apply not_Forall_Exists in Hno; [|apply _]. apply Exists_exists in Hno as (t & Ht & Hn). simpl in Hn.
    apply elem_of_seqZ in Ht. exists (t - ts). split; [lia|]. split; [lia|].
    replace (ts + (t - ts)) with t by lia. by apply eq_None_not_Some.
Qed.

Lemma free_timestamp_ok (m : gmap Z string) ts : m !! free_timestamp (S (base.size m)) m ts = None.
Proof. apply free_timestamp_free, some_timestamp_free. Qed.

Lemma free_timestamp_ge (m : gmap Z string) ts : ts <= free_timestamp (S (base.size m)) m ts.
Proof. apply free_timestamp_free, some_timestamp_free. Qed.

Lemma insert_at_free_lookup ts p (m : gmap Z string) t q :
  insert_at_free ts p m !! t = Some q <->
  (t = free_timestamp (S (base.size m)) m ts /\ q = p) \/ m !! t = Some q.
Proof.
  unfold insert_at_free. pose proof (free_timestamp_ok m ts) as Hf. rewrite lookup_insert_Some. split.
  - intros [[<- <-]|[_ Hm]]; auto.
  - intros [[-> ->]|Hm]; [by left|]. right. split; [|done]. intros <-. congruence.
Qed.
