(* ===== verification/DiskCacheUtil.v ===== *)
(** * DiskCacheUtil

    [DiskCacheUtil] ([src/src/disk_cache_util.cpp]) and the hexadecimal digests of
    [src/src/utils/hash_utils.cpp]: how a block of a remote file is named on disk, how a
    cache file is published, validated and read back, and the clean-up of temporary
    files.  [sha256] (mbedTLS) and the random UUID of a temporary name are arguments. *)
From S2P Require Import Prelude CppString StringUtil Blocks LocalFs Config FilesystemUtils Url.
From Stdlib Require Import Strings.Ascii.
From Stdlib Require QArith.QArith_base.

#[local] Open Scope Z_scope.

(** ** Digests *)
Definition kHexChars : string := "0123456789abcdef".

Definition hex_char (n : Z) : string :=
  match String.get (Z.to_nat n) kHexChars with Some c => String c EmptyString | None => EmptyString end.

(** Two characters for each byte, the high half first. *)
Definition Sha256ToHexString (sha256_val : list Z) : string :=
  foldl (fun result b => ((result +:+ hex_char (Z.shiftr b 4)) +:+ hex_char (Z.land b 15))%string) ""%string sha256_val.

(** FNV-1a over the digest, reduced to a directory index. *)
Definition fnv_step (hash_value b : Z) : Z := Z.lxor hash_value b *u 1099511628211.
Definition GetCacheDirectoryIdx (sha256_val : list Z) (cache_directory_count : Z) : Z :=
  foldl fnv_step 14695981039346656037 sha256_val mod cache_directory_count.

(** ** Names *)
Definition TEMP_CACHE_FILE_SUFFIX : string := ".httpfs_local_cache".
Definition DEAD_TEMP_STALENESS_MICROSEC : Z := 10 * 60 * 1000 * 1000.
Definition CACHE_FILEPATH_ATTR_PREFIX : string := "user.cache_httpfs_cache_filepath".
Definition REMOTE_PATH_ATTR_PREFIX : string := "user.cache_httpfs_remote_path".

(** [Format ("%s.%s.httpfs_local_cache", ...)]. *)
Definition GetTempCacheFilePath (uuid cache_filepath : string) : string :=
  (cache_filepath +:+ "." +:+ uuid +:+ ".httpfs_local_cache")%string.

(** ["%03llu"]. *)
Definition pad3 (n : Z) : string :=
  let s := to_string n in
  if (String.length s <? 2)%nat then ("00" +:+ s)%string
  else if (String.length s <? 3)%nat then ("0" +:+ s)%string else s.

Definition attr_key (key_prefix : string) (idx : Z) : string := (key_prefix +:+ "." +:+ pad3 idx)%string.

(** The names of a file's attributes take at most [XATTR_LIST_MAX], 65536 bytes, on
    Linux, so that no file has more than this many chunks. *)
Definition max_xattr_chunks : nat := 2185.

Record RemoteFileCachePathInfo := MkPathInfo {
  cache_directory_idx : Z;
  cache_directory : string;
  remote_file_sha256_hex : string;
  sanitized_fname : string
}.
Record CacheFileDestination := MkCacheFileDestination { dest_directory_idx : Z; cache_filepath : string }.
Record RemoteFileInfo := MkRemoteFileInfo { remote_filename : string; info_start_offset : Z; info_end_offset : Z }.
Record LocalCacheDestination := MkLocalCacheDestination {
  dest_local_filepath : string;
  temp_local_filepath : string;
  file_attrs : gmap string string
}.
Record LocalCacheReadResult := MkReadResult { cache_hit : bool; read_content : PageAlignedDataChunk }.

(** The loop of [AddChunkedXattrEntries] from index [idx]. *)
Fixpoint add_chunks (n : nat) (idx : Z) (key_prefix value : string) (attrs : gmap string string) : gmap string string :=
  match n with
  | O => attrs
  | S n =>
      let offset := idx *u GetMaxXattrValueSize in
      let len := Z.min GetMaxXattrValueSize (str_size value -u offset) in
      add_chunks n (idx + 1) key_prefix value
        (<[attr_key key_prefix idx := String.substring (Z.to_nat offset) (Z.to_nat len) value]> attrs)
  end.

Definition AddChunkedXattrEntries (attrs : gmap string string) (key_prefix value : string) : gmap string string :=
  let chunk_count := (str_size value +u GetMaxXattrValueSize -u 1) / GetMaxXattrValueSize in
  add_chunks (Z.to_nat chunk_count) 0 key_prefix value attrs.

Section Names.
Context `{StringUtil}.
Variable sha256 : string -> list Z.

Definition GetSha256 (input : string) : string := Sha256ToHexString (sha256 input).

(** [PopulateRemoteFileCacheKey]: digest, its text, sanitized base name. *)
Definition PopulateRemoteFileCacheKey (remote_file : string) : list Z * string * string :=
  let val := sha256 remote_file in
  (val, Sha256ToHexString val, GetFileName (SanitizedCachePath remote_file)).

Definition BuildRemoteFileCachePathInfo (cache_directories : list string) (remote_file : string) :
    Res RemoteFileCachePathInfo :=
  _ ← always_assert (negb (Nat.eqb (length cache_directories) 0));
  let '(val, hex, fname) := PopulateRemoteFileCacheKey remote_file in
  let idx := GetCacheDirectoryIdx val (Z.of_nat (length cache_directories)) in
  dir ← of_option UndefinedBehaviour (cache_directories !! Z.to_nat idx);
  if EndsWith dir "/" then Throw InternalException else Ok (MkPathInfo idx dir hex fname).

Definition block_file_name (hex fname : string) (start_offset bytes_to_read : Z) : string :=
  (hex +:+ "-" +:+ fname +:+ "-" +:+ to_string start_offset +:+ "-" +:+ to_string bytes_to_read)%string.

(** [GetLocalCacheFile] with precomputed [path_info]. *)
Definition GetLocalCacheFile (path_info : RemoteFileCachePathInfo) (start_offset bytes_to_read : Z) : CacheFileDestination :=
  MkCacheFileDestination (cache_directory_idx path_info)
    (cache_directory path_info +:+ "/" +:+
     block_file_name (remote_file_sha256_hex path_info) (sanitized_fname path_info) start_offset bytes_to_read)%string.

Definition GetLocalCacheFileFor (cache_directories : list string) (remote_file : string)
    (start_offset bytes_to_read : Z) : Res CacheFileDestination :=
  path_info ← BuildRemoteFileCachePathInfo cache_directories remote_file;
  Ok (GetLocalCacheFile path_info start_offset bytes_to_read).

Definition GetLocalCacheFilePrefix (remote_file : string) : string :=
  let '(_, hex, fname) := PopulateRemoteFileCacheKey remote_file in (hex +:+ "-" +:+ fname)%string.

Definition IsTempCacheFile (filename : string) : bool := EndsWith filename TEMP_CACHE_FILE_SUFFIX.

Definition ResolveLocalCacheDestination (uuid dir local_cache_file original_remote_path : string) :
    Res LocalCacheDestination :=
  if EndsWith dir "/" then Throw InvalidInputException
  else
    let filepath_limit := GetMaxFileNameLength in
    let local_temp_filepath := GetTempCacheFilePath uuid local_cache_file in
    let local_temp_filename := GetFileName local_temp_filepath in
    let dest :=
      if (str_size local_temp_filename <=? max_filename_len filepath_limit) &&
         (str_size local_temp_filepath <=? max_filepath_len filepath_limit) then
        MkLocalCacheDestination local_cache_file local_temp_filepath ∅
      else
        let dest_filepath := (dir +:+ "/" +:+ GetSha256 local_cache_file)%string in
        MkLocalCacheDestination dest_filepath (GetTempCacheFilePath uuid dest_filepath)
          (AddChunkedXattrEntries ∅ CACHE_FILEPATH_ATTR_PREFIX local_cache_file) in
    Ok (if String.eqb original_remote_path "" then dest
        else MkLocalCacheDestination (dest_local_filepath dest) (temp_local_filepath dest)
               (AddChunkedXattrEntries (file_attrs dest) REMOTE_PATH_ATTR_PREFIX original_remote_path)).
End Names.

(** ** Files *)
Section Files.
Context `{StringUtil} {F : Type} `{LocalFileSystem F}.
Implicit Types (f : F).

Fixpoint read_chunks (fuel : nat) (idx : Z) (filepath key_prefix : string) f : string :=
  match fuel with
  | O => ""
  | S fuel =>
      let chunk := GetFileXattr filepath (attr_key key_prefix idx) f in
      if String.eqb chunk "" then "" else (chunk +:+ read_chunks fuel (idx + 1) filepath key_prefix f)%string
  end.

Definition ReadChunkedXattr (filepath key_prefix : string) f : string :=
  read_chunks max_xattr_chunks 0 filepath key_prefix f.

Definition TryGetOriginalCacheFilepath (filepath : string) f : string := ReadChunkedXattr filepath CACHE_FILEPATH_ATTR_PREFIX f.
Definition TryGetOriginalRemotePath (filepath : string) f : string := ReadChunkedXattr filepath REMOTE_PATH_ATTR_PREFIX f.

(** [GetRemoteFileInfo] after the name is known. *)
Definition ParseCacheFileName (local_filename : string) : Res RemoteFileInfo :=
  let tokens := Split local_filename "-" in
  _ ← always_assert (4 <=? length tokens)%nat;
  let n := length tokens in
  let remote_path_tokens := take (n - 3) (drop 1 tokens) in
  start_offset ← ToUnsigned (nth (n - 2) tokens ""%string);
  block_size ← ToUnsigned (nth (n - 1) tokens ""%string);
  Ok (MkRemoteFileInfo (Join remote_path_tokens "/") start_offset (start_offset +u block_size)).

Definition GetRemoteFileInfo (cache_filepath : string) f : Res RemoteFileInfo :=
  let original_filepath := TryGetOriginalCacheFilepath cache_filepath f in
  let local_filename :=
    if negb (String.eqb original_filepath "") then GetFileName original_filepath else GetFileName cache_filepath in
  ParseCacheFileName local_filename.

Definition ValidateCacheFile (filepath version_tag : string) f : bool :=
  if String.eqb version_tag "" then true
  else
    let cached_version_tag := GetCacheVersion filepath f in
    if String.eqb cached_version_tag "" then false else String.eqb cached_version_tag version_tag.

(** [ReadLocalCacheFile] run on its own.  Direct I/O is attempted for whole pages; it does
    not change what is read, but may be refused when the file is opened. *)
Definition direct_io (attempt_direct_io : bool) (page_size chunk_size : Z) : bool :=
  attempt_direct_io && (chunk_size mod page_size =? 0).

(** The content of a cache file read through an open handle. *)
Definition read_content_of (page_size : Z) (al : Allocator) (handle : list byte) (chunk_size : Z) f : Res PageAlignedDataChunk :=
  content ← AllocatePageAlignedChunk page_size al chunk_size;
  bytes ← fs_pread handle 0 chunk_size f;
  m ← of_option UndefinedBehaviour (write_at (data content) 0 bytes);
  Ok (MkChunk (Some m) chunk_size (c_capacity content)).

Definition ReadLocalCacheFile (page_size : Z) (al : Allocator) (now : Z) (filepath : string) (chunk_size : Z)
    (version_tag : string) (attempt_direct_io : bool) f : Res LocalCacheReadResult * F :=
  match fs_open (direct_io attempt_direct_io page_size chunk_size) filepath f with
  | Throw e => (Throw e, f)
  | Ok None => (Ok (MkReadResult false empty_chunk), f)
  | Ok (Some handle) =>
      if negb (ValidateCacheFile filepath version_tag f) then
        let '(removed, f) := fs_remove filepath f in
        (_ ← removed; Ok (MkReadResult false empty_chunk), f)
      else
        match read_content_of page_size al handle chunk_size f with
        | Throw e => (Throw e, f)
        | Ok content => (Ok (MkReadResult true content), (UpdateFileTimestamps now filepath f).2)
        end
  end.

(** The callback that chooses the file to evict has the reader's state [D]. *)
Section Store.
Context {D : Type}.
Variable lru_eviction_decider : F -> D -> Res (option string) * D.
Variable rnd : QArith_base.Q -> QArith_base.Q.
Variable now : Z.

Definition EvictCacheFiles (dir eviction_policy : string) f (d : D) : Res unit * F * D :=
  if String.eqb eviction_policy ON_DISK_CREATION_TIMESTAMP_EVICTION then
    let '(evicted, f) := EvictStaleCacheFiles now dir f in (_ ← evicted; Ok tt, f, d)
  else if negb (String.eqb eviction_policy ON_DISK_LRU_SINGLE_PROC_EVICTION) then (Throw AssertionFailure, f, d)
  else
    match lru_eviction_decider f d with
    | (Throw e, d') => (Throw e, f, d')
    | (Ok None, d') => (Ok tt, f, d')
    | (Ok (Some filepath_to_evict), d') =>
        let '(removed, f) := fs_remove filepath_to_evict f in (_ ← removed; Ok tt, f, d')
    end.

(** Writing the temporary file and publishing it, before the temporary name is removed. *)
Definition publish (dest : LocalCacheDestination) (content : PageAlignedDataChunk) (version_tag : string) f : Res unit * F :=
  match fs_write_new now (temp_local_filepath dest) (slice (data content) 0 (c_length content)) f with
  | (Throw e, f1) => (Throw e, f1)
  | (Ok _, f1) =>
      match (if String.eqb version_tag "" then (Ok true, f1) else SetCacheVersion (temp_local_filepath dest) version_tag f1) with
      | (Throw e, f2) => (Throw e, f2)
      | (Ok false, f2) => (Ok tt, f2)
      | (Ok true, f2) =>
          match (if bool_decide (file_attrs dest = ∅) then (Ok true, f2)
                 else SetFileXattrs (temp_local_filepath dest) (file_attrs dest) f2) with
          | (Throw e, f3) => (Throw e, f3)
          | (Ok false, f3) => (Ok tt, f3)
          | (Ok true, f3) => fs_move (temp_local_filepath dest) (dest_local_filepath dest) f3
          end
      end
  end.

(** The temporary file is removed by a scope guard, whose destructor is [noexcept]: when
    the removal throws, [std::terminate] ends the process. *)
Definition StoreLocalCacheFile (dir : string) (dest : LocalCacheDestination) (content : PageAlignedDataChunk)
    (version_tag : string) (cache_block_size min_disk_bytes_for_cache : Z) (eviction_policy : string) f (d : D) :
    Res unit * F * D :=
  if negb (CanCacheOnDisk rnd dir cache_block_size min_disk_bytes_for_cache f) then
    EvictCacheFiles dir eviction_policy f d
  else
    let '(r, f') := publish dest content version_tag f in
    let '(removed, f') := fs_remove (temp_local_filepath dest) f' in
    (if is_ok removed then r else Throw Terminated, f', d).
End Store.

(** [CleanupDeadTempFiles]: the listing, then one task per temporary file.  The tasks
    remove different files, so that their order does not matter. *)
Definition temp_files_under (cache_directories : list string) f : list string :=
  mjoin ((fun dir => (fun fname => (dir +:+ "/" +:+ fname)%string) <$>
                       filter (fun fname => IsTempCacheFile fname = true) (fs_list dir f)) <$> cache_directories).

(** What a task returns: whether it removed the file. *)
Definition cleanup_task (now : Z) (path : string) f : Res bool * F :=
  match (handle ← fs_open false path f;
         match handle with None => Ok None | Some _ => t ← fs_mtime path f; Ok (Some t) end) with
  | Throw e => (Throw e, f)
  | Ok None => (Ok false, f)
  | Ok (Some last_mod_time) =>
      if Z.geb (now - last_mod_time) DEAD_TEMP_STALENESS_MICROSEC then fs_remove path f else (Ok false, f)
  end.

(** All tasks run; the first exception is thrown again by [WaitAll]. *)
Fixpoint cleanup_tasks (now : Z) (paths : list string) f : Res Z * F :=
  match paths with
  | [] => (Ok 0, f)
  | path :: paths =>
      let '(removed, f) := cleanup_task now path f in
      let '(deleted_count, f) := cleanup_tasks now paths f in
      (removed ← removed; deleted_count ← deleted_count;
       Ok (if removed : bool then deleted_count + 1 else deleted_count), f)
  end.

Definition CleanupDeadTempFiles (now : Z) (cache_directories : list string) f : Res Z * F :=
  let temp_file_paths := temp_files_under cache_directories f in
  if Nat.eqb (length temp_file_paths) 0 then (Ok 0, f) else cleanup_tasks now temp_file_paths f.
End Files.
