(* ===== verification/AccessIndex.v ===== *)
(** * AccessIndex

    The access timestamps of the cache files ([src/src/disk_cache_reader.cpp]), which the
    ['lru_sp'] eviction policy orders the files by: two maps that mirror each other, from
    timestamps to paths and back.  They hold the files accessed by this process, and are
    loaded from the cache directories when the first is empty. *)
From S2P Require Import Prelude CppString StringUtil OrdMap LocalFs FilesystemUtils.
From Stdlib Require Import Sorting.Sorted.

#[local] Open Scope Z_scope.

(** ** The index

    [cache_file_access_timestamp_map] and [cache_filepath_to_access_timestamp]. *)
Record timestamp_index := MkIndex { by_time : gmap Z string; by_path : gmap string Z }.

Definition no_access : timestamp_index := MkIndex ∅ ∅.

Definition same_size (ix : timestamp_index) : bool := Nat.eqb (base.size (by_time ix)) (base.size (by_path ix)).

Definition RemoveCacheFileAccessTimestamp (filepath : string) (ix : timestamp_index) : Res timestamp_index :=
  match by_path ix !! filepath with
  | None => Ok ix
  | Some ts =>
      _ ← always_assert (bool_decide (is_Some (by_time ix !! ts)));
      Ok (MkIndex (delete ts (by_time ix)) (delete filepath (by_path ix)))
  end.

(** The loop that fills the reverse map, with what it has filled when an [emplace] does
    not insert. *)
Fixpoint reverse_entries (l : list (Z * string)) (m : gmap string Z) : Res unit * gmap string Z :=
  match l with
  | [] => (Ok tt, m)
  | (ts, filepath) :: l =>
      match m !! filepath with
      | Some _ => (Throw AssertionFailure, m)
      | None => reverse_entries l (<[filepath := ts]> m)
      end
  end.

(** The entries in the order of the map. *)
Definition in_time_order (m : gmap Z string) : list (Z * string) :=
  omap (fun ts => (ts,.) <$> m !! ts) (sorted_keys m).

Section Index.
Context {F : Type} `{LocalFileSystem F}.

Definition LoadCacheFileAccessTimestampMapsFromDisk (cache_directories : list string) (f : F) (ix : timestamp_index) :
    Res unit * timestamp_index :=
  if negb (bool_decide (by_time ix = ∅)) || negb (bool_decide (by_path ix = ∅)) then (Throw AssertionFailure, ix)
  else
    match GetOnDiskFilesUnder cache_directories f with
    | Throw e => (Throw e, ix)
    | Ok m =>
        let '(r, reverse) := reverse_entries (in_time_order m) ∅ in
        let ix' := MkIndex m reverse in
        (_ ← r; always_assert (same_size ix'), ix')
    end.

(** The part of [UpsertCacheFileAccessTimestamp] under the lock. *)
Definition upsert_index (now : Z) (filepath : string) (ix : timestamp_index) : Res unit * timestamp_index :=
  match RemoveCacheFileAccessTimestamp filepath ix with
  | Throw e => (Throw e, ix)
  | Ok ix =>
      let ts := free_timestamp (S (base.size (by_time ix))) (by_time ix) now in
      match by_path ix !! filepath with
      | Some _ => (Throw AssertionFailure, MkIndex (<[ts := filepath]> (by_time ix)) (by_path ix))
      | None =>
          let ix' := MkIndex (<[ts := filepath]> (by_time ix)) (<[filepath := ts]> (by_path ix)) in
          (always_assert (same_size ix'), ix')
      end
  end.

(** The file's own timestamps are updated first, whatever comes of it. *)
Definition UpsertCacheFileAccessTimestamp (now : Z) (filepath : string) (f : F) (ix : timestamp_index) :
    Res unit * F * timestamp_index :=
  let f' := (UpdateFileTimestamps now filepath f).2 in
  let '(r, ix') := upsert_index now filepath ix in (r, f', ix').

(** The oldest entry's path is moved out of the map, which leaves an empty string there
    until the entry is removed. *)
Definition EvictCacheBlockLru (cache_directories : list string) (f : F) (ix : timestamp_index) :
    Res (option string) * timestamp_index :=
  let '(loaded, ix) :=
    if bool_decide (by_time ix = ∅) then LoadCacheFileAccessTimestampMapsFromDisk cache_directories f ix else (Ok tt, ix) in
  match loaded with
  | Throw e => (Throw e, ix)
  | Ok _ =>
      match (ts ← begin_key (by_time ix); filepath ← by_time ix !! ts; Some (ts, filepath)) with
      | None => (Ok None, ix)
      | Some (ts, filepath) =>
          let moved := MkIndex (<[ts := ""%string]> (by_time ix)) (by_path ix) in
          match RemoveCacheFileAccessTimestamp filepath moved with
          | Throw e => (Throw e, moved)
          | Ok ix' => (_ ← always_assert (same_size ix'); Ok (Some filepath), ix')
          end
      end
  end.
End Index.

(** ** Time order *)
Definition before (a b : Z * string) : Prop := a.1 < b.1.

#[local] Instance before_antisymm : AntiSymm eq before.
Proof. intros a b. unfold before. lia. Qed.

(** The files, the least recently accessed first. *)
Definition recency (ix : timestamp_index) : list string := snd <$> in_time_order (by_time ix).

Lemma elem_of_in_time_order (m : gmap Z string) ts p : (ts, p) ∈ in_time_order m <-> m !! ts = Some p.
Proof.
  unfold in_time_order. rewrite list_elem_of_omap. split.
  - intros (t & _ & Ht). destruct (m !! t) as [q|] eqn:Hq; simplify_eq/=. done.
  - intros Hm. exists ts. rewrite elem_of_sorted_keys, Hm. split; [eauto|done].
Qed.

Lemma in_time_order_sorted (m : gmap Z string) : StronglySorted before (in_time_order m).
Proof.
  unfold in_time_order. pose proof (NoDup_sorted_keys m) as Hnd. pose proof (sorted_keys_sorted m) as Hs.
  induction Hs as [|t l _ IH Ht]; [constructor|]. apply NoDup_cons in Hnd as [Hni Hnd]. simpl.
  destruct (m !! t) as [q|]; simpl; [|auto]. constructor; [auto|].
  apply Forall_forall. intros [t' q'] (x & Hx & Hx')%list_elem_of_omap.
  destruct (m !! x); simplify_eq/=. rewrite Forall_forall in Ht. specialize (Ht t' Hx).
  unfold not_less in Ht. simpl in Ht. apply Z.ltb_ge in Ht. unfold before. simpl.
  destruct (decide (t = t')) as [->|]; [done|lia].
Qed.

Lemma NoDup_in_time_order (m : gmap Z string) : NoDup (in_time_order m).
Proof.
  apply NoDup_omap_inj; [apply NoDup_sorted_keys|]. intros x y b _ _ Hx Hy.
  destruct (m !! x), (m !! y); simplify_eq/=. done.
Qed.

Lemma in_time_order_perm (m : gmap Z string) : in_time_order m ≡ₚ map_to_list m.
Proof.
  apply NoDup_Permutation; [apply NoDup_in_time_order|apply NoDup_map_to_list|]. intros [ts p].
  by rewrite elem_of_in_time_order, elem_of_map_to_list.
Qed.

Lemma in_time_order_unique (m : gmap Z string) l :
  StronglySorted before l -> l ≡ₚ map_to_list m -> in_time_order m = l.
Proof.
  intros Hl Hp. apply (StronglySorted_unique before); [apply in_time_order_sorted|done|].
  by rewrite in_time_order_perm, Hp.
Qed.

Lemma begin_in_time_order (m : gmap Z string) ts : begin_key m = Some ts -> head (in_time_order m) = (ts,.) <$> m !! ts.
Proof.
  unfold begin_key, in_time_order. intros Hb. destruct (sorted_keys m) as [|t l] eqn:Hs; [done|].
  injection Hb as ->. assert (is_Some (m !! ts)) as [q Hq]; [|simpl; by rewrite Hq].
  apply elem_of_sorted_keys. rewrite Hs. by constructor.
Qed.

Lemma in_time_order_pop (m : gmap Z string) ts p l :
  in_time_order m = (ts, p) :: l -> in_time_order (delete ts m) = l.
Proof.
  intros Hm. pose proof (in_time_order_sorted m) as Hs. rewrite Hm in Hs. apply StronglySorted_inv in Hs as [Hs _].
  apply in_time_order_unique; [done|]. apply (Permutation_cons_inv (a := (ts, p))). rewrite <-Hm, in_time_order_perm.
  symmetry. apply map_to_list_delete. apply elem_of_in_time_order. rewrite Hm. by constructor.
Qed.

Lemma in_time_order_delete (m : gmap Z string) ts p :
  m !! ts = Some p -> in_time_order (delete ts m) = without (ts, p) (in_time_order m).
Proof.
  intros Hm. apply in_time_order_unique.
  - generalize (in_time_order_sorted m). intros Hs. induction Hs as [|a l _ IH Ha]; [constructor|].
    rewrite without_cons. case_decide; [done|]. constructor; [done|]. apply Forall_forall.
    intros b [_ Hb]%elem_of_without. rewrite Forall_forall in Ha. auto.
  - apply (Permutation_cons_inv (a := (ts, p))). transitivity (in_time_order m).
    + symmetry. apply without_Permutation; [apply NoDup_in_time_order|by apply elem_of_in_time_order].
    + rewrite in_time_order_perm. symmetry. by apply map_to_list_delete.
Qed.

Lemma in_time_order_push (m : gmap Z string) ts p :
  (forall t q, m !! t = Some q -> t < ts) -> in_time_order (<[ts := p]> m) = in_time_order m ++ [(ts, p)].
Proof.
  intros Hlt. assert (m !! ts = None) as Hn. { destruct (m !! ts) eqn:He; [|done]. specialize (Hlt _ _ He). lia. }
  apply in_time_order_unique.
  - assert (Forall (fun a => a.1 < ts) (in_time_order m)) as Hall.
    { apply Forall_forall. intros [t q] Ht%elem_of_in_time_order. eauto. }
    generalize (in_time_order_sorted m). intros Hs. induction Hs as [|a l _ IH Ha]; [repeat constructor|].
    apply Forall_cons in Hall as [Hx Hall]. simpl. constructor; [auto|]. apply Forall_app. split; [done|].
    by repeat constructor.
  - rewrite map_to_list_insert by done. by rewrite Permutation_app_comm, in_time_order_perm.
Qed.

(** ** The two maps mirror each other *)
Definition index_ok (ix : timestamp_index) : Prop :=
  forall ts p, by_time ix !! ts = Some p <-> by_path ix !! p = Some ts.

Lemma index_ok_empty : index_ok no_access.
Proof. intros ts p. simpl. by rewrite !lookup_empty. Qed.

Lemma index_ok_size ix : index_ok ix -> same_size ix = true.
Proof.
  intros Hok. unfold same_size. apply Nat.eqb_eq. rewrite <-!length_map_to_list.
  rewrite <-(length_fmap (fun e : Z * string => (e.2, e.1)) (map_to_list (by_time ix))).
  apply Permutation_length, NoDup_Permutation; [|apply NoDup_map_to_list|].
  - apply NoDup_fmap_2; [intros [] []; simpl; congruence|apply NoDup_map_to_list].
  - intros [p ts]. rewrite elem_of_map_to_list, list_elem_of_fmap, <-(Hok ts p). split.
    + intros ([t q] & [= -> ->] & Ht). by apply elem_of_map_to_list in Ht.
    + intros Ht. exists (ts, p). by rewrite elem_of_map_to_list.
Qed.

Lemma index_ok_empty_path ix : index_ok ix -> by_time ix = ∅ -> by_path ix = ∅.
Proof.
  intros Hok He. apply map_empty. intros p. destruct (by_path ix !! p) as [ts|] eqn:Hp; [|done].
  apply Hok in Hp. by rewrite He, lookup_empty in Hp.
Qed.

Lemma elem_of_recency ix p : index_ok ix -> p ∈ recency ix <-> is_Some (by_path ix !! p).
Proof.
  intros Hok. unfold recency. rewrite list_elem_of_fmap. split.
  - intros ([ts q] & -> & Ht). apply elem_of_in_time_order, Hok in Ht. eauto.
  - intros [ts Hp]. exists (ts, p). rewrite elem_of_in_time_order. split; [done|]. by apply Hok.
Qed.

Lemma NoDup_recency ix : index_ok ix -> NoDup (recency ix).
Proof.
  intros Hok. apply NoDup_fmap_2_strong; [|apply NoDup_in_time_order].
  intros [t p] [t' p'] H1%elem_of_in_time_order H2%elem_of_in_time_order Hp. simpl in Hp. subst p'.
  apply Hok in H1, H2. congruence.
Qed.

Lemma recency_without ix ts p :
  index_ok ix -> by_path ix !! p = Some ts ->
  snd <$> without (ts, p) (in_time_order (by_time ix)) = without p (recency ix).
Proof.
  intros Hok Hp. unfold recency.
  assert (forall a, a ∈ in_time_order (by_time ix) -> a.2 = p -> a = (ts, p)) as Hinj.
  { intros [t q] Ht%elem_of_in_time_order Hq. simpl in Hq. subst q. apply Hok in Ht. congruence. }
  induction (in_time_order (by_time ix)) as [|a l IH]; [done|]. rewrite without_cons, fmap_cons, without_cons.
  rewrite <-IH by (intros b Hb; apply Hinj; by constructor).
  destruct (decide (a = (ts, p))) as [->|Hne]; [by rewrite decide_True|].
  rewrite decide_False; [done|]. intros Ha. apply Hne, Hinj; [by constructor|done].
Qed.

Lemma Remove_ok p ix :
  index_ok ix ->
  exists ix', RemoveCacheFileAccessTimestamp p ix = Ok ix' /\ index_ok ix' /\
    recency ix' = without p (recency ix) /\
    (forall q, by_path ix' !! q = if decide (q = p) then None else by_path ix !! q) /\
    (forall t, is_Some (by_time ix' !! t) -> is_Some (by_time ix !! t)).
Proof.
  intros Hok. unfold RemoveCacheFileAccessTimestamp. destruct (by_path ix !! p) as [ts|] eqn:Hp.
  - pose proof Hp as Ht. apply Hok in Ht. rewrite bool_decide_true by eauto. simpl. eexists. split; [done|].
    unfold index_ok, recency. simpl. split; [|split; [|split]].
    + intros t q. rewrite !lookup_delete_Some. split; intros [Hne Hm].
      * split; [|by apply Hok]. intros <-. apply Hok in Hm. congruence.
      * split; [|by apply Hok]. intros <-. apply Hok in Hm. congruence.
    + rewrite (in_time_order_delete _ _ p) by done. by apply recency_without.
    + intros q. case_decide as Hq; [subst; by rewrite lookup_delete_eq|by rewrite lookup_delete_ne].
    + intros t [x Hx]. apply lookup_delete_Some in Hx as []. eauto.
  - exists ix. split; [done|]. split; [done|]. split; [|split; [|done]].
    + symmetry. apply without_not_in. rewrite elem_of_recency by done. rewrite Hp. by intros [].
    + intros q. case_decide as Hq; [by subst|done].
Qed.

Lemma upsert_ok now p ix :
  index_ok ix ->
  exists ix', upsert_index now p ix = (Ok tt, ix') /\ index_ok ix' /\
    (forall q, q <> p -> by_path ix' !! q = by_path ix !! q) /\
    (exists ts, by_path ix' !! p = Some ts /\ now <= ts) /\
    ((forall t, is_Some (by_time ix !! t) -> t < now) ->
       recency ix' = without p (recency ix) ++ [p] /\ forall t, is_Some (by_time ix' !! t) -> t <= now).
Proof.
  intros Hok. destruct (Remove_ok p ix Hok) as (ix1 & Hr & Hok1 & Hrec & Hpath & Htime).
  unfold upsert_index. rewrite Hr. pose proof (free_timestamp_ok (by_time ix1) now) as Hfree.
  pose proof (free_timestamp_ge (by_time ix1) now) as Hge.
  remember (free_timestamp (S (base.size (by_time ix1))) (by_time ix1) now) as ts eqn:Hts.
  pose proof (Hpath p) as Hp. rewrite decide_True in Hp by done. rewrite Hp.
  set (ix' := MkIndex (<[ts:=p]> (by_time ix1)) (<[p:=ts]> (by_path ix1))).
  assert (index_ok ix') as Hok'.
  { intros t q. simpl. rewrite !lookup_insert_Some. split.
    - intros [[<- <-]|[Hne Hm]]; [by left|]. right. split; [|by apply Hok1]. intros <-. apply Hok1 in Hm. congruence.
    - intros [[<- <-]|[Hne Hm]]; [by left|]. right. split; [|by apply Hok1]. intros <-. apply Hok1 in Hm. congruence. }
  exists ix'. rewrite (index_ok_size ix' Hok'). split; [done|]. split; [done|]. simpl. split; [|split].
  - intros q Hq. rewrite lookup_insert_ne, Hpath, decide_False by done. done.
  - exists ts. by rewrite lookup_insert_eq.
  - intros Hlt. assert (forall t, is_Some (by_time ix1 !! t) -> t < now) as Hlt1 by eauto.
    assert (ts = now) as ->.
    { subst ts. simpl. destruct (by_time ix1 !! now) eqn:Hx; [|done]. specialize (Hlt1 now ltac:(eauto)). lia. }
    split.
    + rewrite <-Hrec. unfold recency. simpl. rewrite in_time_order_push by (intros t q Ht; apply Hlt1; eauto).
      by rewrite fmap_app.
    + intros t [q Hq]. apply lookup_insert_Some in Hq as [[<- _]|[_ Hq]]; [lia|].
      specialize (Hlt1 t ltac:(eauto)). lia.
Qed.

(** ** Loading from the cache directories *)
Lemma reverse_entries_ok l m :
  NoDup l.*2 -> (forall e, e ∈ l -> m !! e.2 = None) ->
  exists m', reverse_entries l m = (Ok tt, m') /\
    forall p ts, m' !! p = Some ts <-> (ts, p) ∈ l \/ m !! p = Some ts.
Proof.
  revert m. induction l as [|[t q] l IH]; intros m Hnd Hm.
  { exists m. split; [done|]. intros p ts. rewrite elem_of_nil. tauto. }
  rewrite fmap_cons in Hnd. apply NoDup_cons in Hnd as [Hq Hnd].
  pose proof (Hm (t, q) ltac:(constructor)) as Hn. simpl in Hn |- *. rewrite Hn.
  destruct (IH (<[q:=t]> m)) as (m' & Hr & Hl); [done| |].
  - intros [t' q'] He. simpl. rewrite lookup_insert_ne; [apply (Hm (t', q')); by constructor|].
    intros ->. apply Hq. apply list_elem_of_fmap. by exists (t', q').
  - exists m'. split; [done|]. intros p ts. rewrite Hl, elem_of_cons, lookup_insert_Some. split.
    + intros [Hin|[[<- <-]|[_ Hp]]]; auto.
    + intros [[[= -> ->]|Hin]|Hp]; [by right; left|by left|]. right. right. split; [|done]. intros <-. congruence.
Qed.

Section Load.
Context {F : Type} `{FS : LocalFileSystem F} `{FL : !LocalFsLaws F}.
Implicit Types (f : F).

Definition disk_paths (dirs : list string) f : list string :=
  mjoin ((fun dir => (fun name => (dir +:+ "/" +:+ name)%string) <$> fs_list dir f) <$> dirs).

Definition index_path f (m : Res (gmap Z string)) (p : string) : Res (gmap Z string) :=
  m ← m;
  handle ← fs_open false p f;
  match handle with
  | None => Ok m
  | Some _ => t ← fs_mtime p f; Ok (insert_at_free t p m)
  end.

Lemma index_file_path f dir names m :
  foldl (index_file f dir) m names = foldl (index_path f) m ((fun name => (dir +:+ "/" +:+ name)%string) <$> names).
Proof. revert m. induction names as [|name names IH]; intros m; [done|]. simpl. by rewrite IH. Qed.

Lemma GetOnDiskFiles_paths dirs f : GetOnDiskFilesUnder dirs f = foldl (index_path f) (Ok ∅) (disk_paths dirs f).
Proof.
  unfold GetOnDiskFilesUnder, disk_paths. generalize (Ok (∅ : gmap Z string)).
  induction dirs as [|dir dirs IH]; intros m; [done|]. simpl. by rewrite foldl_app, IH, index_file_path.
Qed.

Lemma index_path_throw f e l : foldl (index_path f) (Throw e) l = Throw e.
Proof. by induction l. Qed.

#[local] Arguments index_path : simpl never.

(** One more file: indexed at a free timestamp from its modification time on when it is
    there, skipped when it is not. *)
Lemma index_path_cases f m p :
  (node f p = None /\ index_path f (Ok m) p = Ok m) \/
  (exists n, node f p = Some n /\ index_path f (Ok m) p = Ok (insert_at_free (mtime n) p m)) \/
  (exists e, index_path f (Ok m) p = Throw e /\ local_error F e).
Proof.
  unfold index_path. simpl. destruct (fs_open false p f) as [h|e] eqn:Ho; simpl; [|right; right; eauto with local_fs].
  pose proof (open_law _ _ _ _ Ho) as ->. destruct (node f p) as [n|] eqn:Hn; [|by left]. simpl. right.
  destruct (fs_mtime p f) as [t|e] eqn:Ht; simpl; [left|right; eauto with local_fs].
  exists n. by rewrite (mtime_law _ _ _ _ Hn Ht).
Qed.

Lemma elem_of_disk_paths dirs f p :
  p ∈ disk_paths dirs f <-> exists dir name, dir ∈ dirs /\ name ∈ fs_list dir f /\ p = (dir +:+ "/" +:+ name)%string.
Proof.
  unfold disk_paths. rewrite list_elem_of_join. split.
  - intros (l & Hp & (dir & -> & Hd)%list_elem_of_fmap). apply list_elem_of_fmap in Hp as (name & -> & Hn). eauto.
  - intros (dir & name & Hd & Hn & ->). eexists. split; [|apply list_elem_of_fmap; by exists dir].
    apply list_elem_of_fmap. eauto.
Qed.

Lemma NoDup_disk_paths dirs f : NoDup dirs -> NoDup (disk_paths dirs f).
Proof.
  induction 1 as [|dir dirs Hd _ IH]; [constructor|]. unfold disk_paths. simpl. apply NoDup_app. split; [|split; [|done]].
  - apply NoDup_fmap_2_strong; [|apply list_unique]. intros a b _ _ He.
    by apply append_inj_len in He as [_ [_ He]%append_inj_len].
  - intros p (name & -> & Hn)%list_elem_of_fmap Hp.
    apply elem_of_disk_paths in Hp as (dir' & name' & Hd' & Hn' & He).
    apply list_names in Hn, Hn'. destruct (directory_inj dir dir' name name' Hn Hn' He) as [-> _]. done.
Qed.

Definition injective_index (m : gmap Z string) : Prop := forall t t' p, m !! t = Some p -> m !! t' = Some p -> t = t'.

Lemma index_paths_ok f paths m :
  NoDup paths -> injective_index m -> (forall t p, m !! t = Some p -> p ∉ paths) ->
  match foldl (index_path f) (Ok m) paths with
  | Throw e => local_error F e
  | Ok m' =>
      injective_index m' /\
      forall p, (exists t, m' !! t = Some p) <-> (exists t, m !! t = Some p) \/ (p ∈ paths /\ is_Some (node f p))
  end.
Proof.
  revert m. induction paths as [|q paths IH]; intros m Hnd Hi Hm; simpl.
  { split; [done|]. intros p. rewrite elem_of_nil. tauto. }
  apply NoDup_cons in Hnd as [Hq Hnd].
  destruct (index_path_cases f m q) as [[Hn ->]|[(n & Hn & ->)|(e & -> & He)]]; [| |by rewrite index_path_throw].
  - specialize (IH m Hnd Hi ltac:(intros t p Ht Hp; apply (Hm _ _ Ht); by constructor)).
    destruct (foldl _ _ paths) as [m'|]; [|done]. destruct IH as [Hi' Hp']. split; [done|].
    intros p. rewrite Hp', elem_of_cons. split; [tauto|].
    intros [?|[[->|?] [x Hx]]]; [by left|congruence|right; split; [done|by exists x]].
  - assert (injective_index (insert_at_free (mtime n) q m)) as Hi1.
    { intros t t' p. rewrite !insert_at_free_lookup. intros [[-> ->]|H1] [[-> ?]|H2]; [done| | |by eapply Hi].
      - exfalso. apply (Hm _ _ H2). by constructor.
      - subst. exfalso. apply (Hm _ _ H1). by constructor. }
    specialize (IH (insert_at_free (mtime n) q m) Hnd Hi1). destruct (foldl _ _ paths) as [m'|].
    + destruct IH as [Hi' Hp'].
      { intros t p [[_ ->]|Ht]%insert_at_free_lookup; [done|]. intros Hp. apply (Hm _ _ Ht). by constructor. }
      split; [done|]. intros p. rewrite Hp', elem_of_cons. setoid_rewrite insert_at_free_lookup. split.
      * intros [[t [[_ ->]|Ht]]|[? ?]]; [right; split; [by left|by rewrite Hn]|eauto|eauto].
      * intros [[t Ht]|[[->|?] ?]]; [eauto|left; eauto|eauto].
    + apply IH. intros t p [[_ ->]|Ht]%insert_at_free_lookup; [done|]. intros Hp. apply (Hm _ _ Ht). by constructor.
Qed.

(** An entry stays where it is. *)
Lemma index_paths_keep f l m m' :
  foldl (index_path f) (Ok m) l = Ok m' -> forall t q, m !! t = Some q -> m' !! t = Some q.
Proof.
  revert m. induction l as [|x l IH]; intros m; simpl; [by intros [= <-]|].
  destruct (index_path_cases f m x) as [[Hn ->]|[(n & Hn & ->)|(e & -> & He)]]; [apply IH| |by rewrite index_path_throw].
  intros Hl t q Hq. eapply IH; [exact Hl|]. apply insert_at_free_lookup. by right.
Qed.

(** Loading the index gives all files of the directories, or nothing and an exception of
    the filesystem. *)
Lemma Load_ok dirs f :
  NoDup dirs ->
  (exists e, LoadCacheFileAccessTimestampMapsFromDisk dirs f no_access = (Throw e, no_access) /\ local_error F e) \/
  exists ix, LoadCacheFileAccessTimestampMapsFromDisk dirs f no_access = (Ok tt, ix) /\ index_ok ix /\
    GetOnDiskFilesUnder dirs f = Ok (by_time ix) /\
    forall p, p ∈ recency ix <-> p ∈ disk_paths dirs f /\ is_Some (node f p).
Proof.
  intros Hnd. unfold LoadCacheFileAccessTimestampMapsFromDisk. rewrite !bool_decide_true by done. simpl.
  pose proof (index_paths_ok f (disk_paths dirs f) ∅) as Hload. rewrite <-GetOnDiskFiles_paths in Hload.
  specialize (Hload (NoDup_disk_paths _ _ Hnd) ltac:(intros t t' p; by rewrite lookup_empty) ltac:(intros t p; by rewrite lookup_empty)).
  destruct (GetOnDiskFilesUnder dirs f) as [m|e]; [|by left; exists e]. right. destruct Hload as [Hi Hp].
  destruct (reverse_entries_ok (in_time_order m) ∅) as (r & -> & Hr).
  { apply NoDup_fmap_2_strong; [|apply NoDup_in_time_order].
    intros [t p] [t' p'] H1%elem_of_in_time_order H2%elem_of_in_time_order He. simpl in He. subst p'.
    f_equal. by eapply Hi. }
  { intros e _. apply lookup_empty. }
  assert (index_ok (MkIndex m r)) as Hok.
  { intros t p. simpl. rewrite Hr, elem_of_in_time_order, lookup_empty. intuition congruence. }
  exists (MkIndex m r). simpl. rewrite (index_ok_size _ Hok). split; [done|]. split; [done|]. split; [done|].
  intros p. rewrite elem_of_recency by done. transitivity (exists t, m !! t = Some p).
  - split; intros [t Ht]; exists t; by apply Hok in Ht.
  - rewrite Hp. split; [intros [[t Ht]|?]; [by rewrite lookup_empty in Ht|done]|by right].
Qed.

(** Evicting takes the head of the order, loading it first when it is empty. *)
Lemma Evict_ok dirs f ix :
  NoDup dirs -> index_ok ix ->
  exists r ix', EvictCacheBlockLru dirs f ix = (r, ix') /\ index_ok ix' /\
    match recency ix with
    | p :: l => r = Ok (Some p) /\ recency ix' = l
    | [] => (exists e, r = Throw e /\ local_error F e /\ recency ix' = []) \/
            exists loaded, LoadCacheFileAccessTimestampMapsFromDisk dirs f no_access = (Ok tt, loaded) /\
              r = Ok (head (recency loaded)) /\ recency ix' = tail (recency loaded)
    end.
Proof.
  intros Hnd Hok. unfold EvictCacheBlockLru.
  assert (forall ix1, index_ok ix1 ->
    exists r ix', match (ts ← begin_key (by_time ix1); filepath ← by_time ix1 !! ts; Some (ts, filepath)) with
      | None => (Ok None, ix1)
      | Some (ts, filepath) =>
          let moved := MkIndex (<[ts := ""%string]> (by_time ix1)) (by_path ix1) in
          match RemoveCacheFileAccessTimestamp filepath moved with
          | Throw e => (Throw e, moved)
          | Ok ix' => (_ ← always_assert (same_size ix'); Ok (Some filepath), ix')
          end
      end = (Ok r, ix') /\ index_ok ix' /\ r = head (recency ix1) /\ recency ix' = tail (recency ix1)) as Hpop.
  { intros ix1 Hok1. unfold recency. destruct (begin_key (by_time ix1)) as [ts|] eqn:Hb; simpl.
    - pose proof (begin_in_time_order _ _ Hb) as Hh. destruct (begin_key_Some _ _ Hb) as [p Hp].
      rewrite Hp in Hh |- *. simpl in *. destruct (in_time_order (by_time ix1)) as [|e l] eqn:Hl; [done|].
      injection Hh as ->. pose proof Hp as Hq. apply Hok1 in Hq. unfold RemoveCacheFileAccessTimestamp. simpl.
      rewrite Hq, bool_decide_true by (rewrite lookup_insert_eq; eauto). simpl. rewrite delete_insert_eq.
      set (ix' := MkIndex (delete ts (by_time ix1)) (delete p (by_path ix1))).
      assert (index_ok ix') as Hok'.
      { destruct (Remove_ok p ix1 Hok1) as (ix2 & H2 & Hok2 & _). unfold RemoveCacheFileAccessTimestamp in H2.
        rewrite Hq, bool_decide_true in H2 by eauto. simpl in H2. by injection H2 as <-. }
      exists (Some p), ix'. rewrite (index_ok_size _ Hok'). split; [done|]. split; [done|]. split; [done|].
      simpl. by rewrite (in_time_order_pop _ _ _ _ Hl).
    - apply begin_key_None in Hb. exists None, ix1. split; [done|]. split; [done|]. by rewrite Hb. }
  case_bool_decide as He.
  - assert (ix = no_access) as ->. { destruct ix as [m r]. simpl in He. subst m. f_equal. by apply (index_ok_empty_path _ Hok). }
    change (recency no_access) with (@nil string).
    destruct (Load_ok dirs f Hnd) as [(e & -> & He')|(loaded & Hl & Hokl & _)].
    { exists (Throw e), no_access. split; [done|]. split; [apply index_ok_empty|]. left. by exists e. }
    rewrite Hl. destruct (Hpop loaded Hokl) as (r & ix' & Hr & Hok' & -> & Ht). exists (Ok (head (recency loaded))), ix'.
    split; [done|]. split; [done|]. right. by exists loaded.
  - destruct (Hpop ix Hok) as (r & ix' & Hr & Hok' & -> & Ht). exists (Ok (head (recency ix))), ix'.
    split; [done|]. split; [done|].
    destruct (recency ix) as [|p l] eqn:Hrec; [|done]. exfalso. apply He. apply map_empty. intros t.
    destruct (by_time ix !! t) as [p|] eqn:Hp; [|done].
    assert (p ∈ recency ix) as Hin; [|rewrite Hrec in Hin; by inversion Hin].
    apply elem_of_recency; [done|]. exists t. by apply Hok.
Qed.

(** A loaded file stands at its modification time or later, and that time is taken. *)
Definition timely f (m : gmap Z string) : Prop :=
  forall t p, m !! t = Some p -> exists n, node f p = Some n /\ mtime n <= t /\ is_Some (m !! mtime n).

Lemma insert_timely f m q n : timely f m -> node f q = Some n -> timely f (insert_at_free (mtime n) q m).
Proof.
  intros Hm Hn t p. pose proof (free_timestamp_ge m (mtime n)) as Hge. rewrite insert_at_free_lookup. intros [[-> ->]|Ht].
  - exists n. split; [done|]. split; [done|]. unfold insert_at_free. destruct (m !! mtime n) as [r|] eqn:Hr.
    + exists r. apply (insert_at_free_lookup _ q). by right.
    + simpl. rewrite Hr. rewrite lookup_insert_eq. eauto.
  - destruct (Hm t p Ht) as (n' & Hn' & Hle & [r Hr]). exists n'. split; [done|]. split; [done|].
    exists r. apply insert_at_free_lookup. by right.
Qed.

Lemma load_timely dirs f m : GetOnDiskFilesUnder dirs f = Ok m -> timely f m.
Proof.
  rewrite GetOnDiskFiles_paths. assert (timely f ∅) as H0 by (intros t p; by rewrite lookup_empty).
  revert H0. generalize (∅ : gmap Z string). induction (disk_paths dirs f) as [|q l IH]; intros m0 Hm; simpl.
  { by intros [= <-]. }
  destruct (index_path_cases f m0 q) as [[Hn ->]|[(n & Hn & ->)|(e & -> & He)]]; [by apply IH| |by rewrite index_path_throw].
  by apply IH, insert_timely.
Qed.

Lemma loaded_head_oldest dirs f ix p l :
  index_ok ix -> GetOnDiskFilesUnder dirs f = Ok (by_time ix) -> recency ix = p :: l ->
  forall q np nq, q ∈ recency ix -> node f p = Some np -> node f q = Some nq -> mtime np <= mtime nq.
Proof.
  intros Hok Hix Hr q np nq Hq Hnp Hnq. pose proof (load_timely dirs f _ Hix) as Ht.
  unfold recency in *. destruct (in_time_order (by_time ix)) as [|[t p'] es] eqn:He; [done|].
  simpl in Hr. injection Hr as -> _. pose proof (in_time_order_sorted (by_time ix)) as Hs. rewrite He in Hs.
  apply StronglySorted_inv in Hs as [_ Hs]. rewrite Forall_forall in Hs.
  assert (forall t' q', by_time ix !! t' = Some q' -> t <= t') as Hmin.
  { intros t' q' Hin%elem_of_in_time_order. rewrite He in Hin.
    apply elem_of_cons in Hin as [[= -> ->]|Hin]; [lia|]. specialize (Hs _ Hin). unfold before in Hs. simpl in Hs. lia. }
  rewrite <-He in Hq. apply list_elem_of_fmap in Hq as ([t' q'] & -> & Hin%elem_of_in_time_order).
  assert (by_time ix !! t = Some p) as Hp. { apply elem_of_in_time_order. rewrite He. by constructor. }
  destruct (Ht _ _ Hp) as (n1 & Hn1 & Hle & _). destruct (Ht _ _ Hin) as (n2 & Hn2 & _ & [r Hr']). simpl in Hnq.
  specialize (Hmin _ _ Hr'). replace np with n1 by congruence. replace nq with n2 by congruence. lia.
Qed.
End Load.

(** ** Properties *)
Section Properties.
Context {F : Type} `{FS : LocalFileSystem F} `{FL : !LocalFsLaws F}.
Implicit Types (f : F).


(** The first eviction of a process, when it has accessed no file yet, loads the
    files of the cache directories and takes one with the oldest modification time, or
    none when the directories hold no file; what it throws, the filesystem threw. *)
Theorem first_eviction_takes_oldest dirs f :
  NoDup dirs ->
  exists r ix', EvictCacheBlockLru dirs f no_access = (r, ix') /\ index_ok ix' /\
    match r with
    | Throw e => local_error F e
    | Ok None => forall p, p ∈ disk_paths dirs f -> node f p = None
    | Ok (Some p) => p ∈ disk_paths dirs f /\ (p ∉ recency ix') /\ exists n, node f p = Some n /\
        forall q nq, q ∈ disk_paths dirs f -> node f q = Some nq -> mtime n <= mtime nq /\ (q = p \/ q ∈ recency ix')
    end.
Proof.
  intros Hnd. destruct (Evict_ok dirs f no_access Hnd index_ok_empty) as (r & ix' & He & Hok' & Hm).
  change (recency no_access) with (@nil string) in Hm. exists r, ix'. split; [done|]. split; [done|].
  destruct Hm as [(e & -> & Hle & _)|(loaded & Hl & -> & Ht)]; [done|].
  destruct (Load_ok dirs f Hnd) as [(e & Hl' & _)|(ix & Hl' & Hok & Hix & Hrec)]; [congruence|].
  assert (ix = loaded) as -> by congruence.
  pose proof (loaded_head_oldest dirs f loaded) as Hold. pose proof (NoDup_recency loaded Hok) as Hnd'.
  destruct (recency loaded) as [|p l] eqn:Hr; simpl in *.
  - intros p Hp. destruct (node f p) as [b|] eqn:Ho; [|done].
    assert (p ∈ []) as Hin by (apply Hrec; by rewrite Ho). by inversion Hin.
  - apply NoDup_cons in Hnd' as [Hp _]. destruct (proj1 (Hrec p)) as [Hdp [n Hn]]; [by constructor|].
    split; [done|]. split; [by rewrite Ht|]. exists n. split; [done|]. intros q nq Hq Hnq.
    assert (q ∈ p :: l) as Hin by (apply Hrec; rewrite Hnq; eauto).
    split; [by apply (Hold p l Hok Hix eq_refl q)|]. rewrite Ht. by apply elem_of_cons in Hin.
Qed.

(** A directory listed twice breaks the index: loading it fails an assertion, and leaves
    the maps of different sizes, so that every later access fails one too. *)
Lemma repeated_directory_breaks dir p f m :
  p ∈ disk_paths [dir] f -> is_Some (node f p) -> GetOnDiskFilesUnder [dir; dir] f = Ok m ->
  (LoadCacheFileAccessTimestampMapsFromDisk [dir; dir] f no_access).1 = Throw AssertionFailure.
Proof.
  intros Hp [nd Hnd] Hload. unfold LoadCacheFileAccessTimestampMapsFromDisk. rewrite !bool_decide_true by done. simpl.
  rewrite Hload.
  assert (exists t t', t <> t' /\ m !! t = Some p /\ m !! t' = Some p) as (t & t' & Hne & H1 & H2).
  { rewrite GetOnDiskFiles_paths in Hload. revert Hload.
    replace (disk_paths [dir; dir] f) with (disk_paths [dir] f ++ disk_paths [dir] f)
      by (unfold disk_paths; simpl; by rewrite !app_nil_r).
    rewrite foldl_app.
    pose proof (index_paths_ok f (disk_paths [dir] f) ∅) as Hin.
    destruct (foldl _ (Ok ∅) (disk_paths [dir] f)) as [m0|e]; [|by rewrite index_path_throw].
    destruct Hin as [_ Hin].
    { apply NoDup_disk_paths. repeat constructor. by intros ?%elem_of_nil. }
    { intros ? ? ?. by rewrite lookup_empty. }
    { intros ? ?. by rewrite lookup_empty. }
    destruct (proj2 (Hin p)) as [t Ht]; [right; by rewrite Hnd|].
    apply list_elem_of_split in Hp as (l1 & l2 & ->). rewrite foldl_app. simpl.
    destruct (foldl _ (Ok m0) l1) as [m1|e] eqn:Hm1; [|by rewrite (index_path_throw f e (p :: l2) : foldl _ (index_path f (Throw e) p) l2 = _)].
    destruct (index_path_cases f m1 p) as [[? _]|[(n & Hn & ->)|(e & -> & _)]]; [congruence| |by rewrite index_path_throw].
    intros Hm. pose proof (index_paths_keep _ _ _ _ Hm1 t p Ht) as Ht1.
    exists t, (free_timestamp (S (base.size m1)) m1 (mtime n)). split; [|split].
    - intros Heq. pose proof (free_timestamp_ok m1 (mtime n)) as Hf. rewrite <-Heq in Hf. congruence.
    - eapply index_paths_keep; [exact Hm|]. apply insert_at_free_lookup. by right.
    - eapply index_paths_keep; [exact Hm|]. apply insert_at_free_lookup. by left. }
  assert (forall l r, (exists l1 l2 l3 a a', l = l1 ++ (a, p) :: l2 ++ (a', p) :: l3) \/ is_Some (r !! p) /\ p ∈ l.*2 ->
    (reverse_entries l r).1 = Throw AssertionFailure) as Hrev.
  { induction l as [|[a q] l IH]; intros r Hc; simpl.
    - destruct Hc as [(l1 & ? & ? & ? & ? & Hc)|[_ Hc]]; [by destruct l1|by inversion Hc].
    - destruct (r !! q) as [x|] eqn:Hx; [done|]. apply IH. destruct Hc as [(l1 & l2 & l3 & a1 & a2 & Hc)|[Hs Hc]].
      + destruct l1 as [|e l1]; simpl in Hc.
        * injection Hc as -> -> ->. right. rewrite lookup_insert_eq. split; [eauto|].
          rewrite fmap_app. apply elem_of_app. right. by constructor.
        * injection Hc as _ ->. left. eauto 7.
      + right. destruct (decide (q = p)) as [->|Hqp]; [destruct Hs; congruence|].
        rewrite lookup_insert_ne by done. split; [done|]. rewrite fmap_cons in Hc. apply elem_of_cons in Hc as [?|?]; [done|done]. }
  assert ((reverse_entries (in_time_order m) ∅).1 = Throw AssertionFailure) as Hthrow.
  { apply Hrev. left. apply elem_of_in_time_order, list_elem_of_split in H1 as (l1 & l2 & Hl).
    apply elem_of_in_time_order in H2. rewrite Hl in H2. apply elem_of_app in H2 as [H2|H2].
    - apply list_elem_of_split in H2 as (k1 & k2 & ->). exists k1, k2, l2, t', t. by rewrite Hl, <-app_assoc.
    - apply elem_of_cons in H2 as [[= ?]|H2]; [done|].
      apply list_elem_of_split in H2 as (k1 & k2 & ->). exists l1, k1, k2, t, t'. by rewrite Hl. }
  by destruct (reverse_entries (in_time_order m) ∅) as [r rev]; simpl in *; subst.
Qed.
End Properties.

(** ** Witnesses *)
Definition two_accesses : timestamp_index := (upsert_index 2 "b" (upsert_index 1 "a" no_access).2).2.

Lemma upsert_index_ok now p ix : index_ok ix -> index_ok (upsert_index now p ix).2.
Proof. intros Hok. by destruct (upsert_ok now p ix Hok) as (ix' & -> & ? & _). Qed.

Lemma two_accesses_ok : index_ok two_accesses.
Proof. apply upsert_index_ok, upsert_index_ok, index_ok_empty. Qed.

Lemma two_accesses_times t : is_Some (by_time two_accesses !! t) -> t < 3.
Proof.
  intros [p Hp]. assert (map_Forall (fun t (_ : string) => t < 3) (by_time two_accesses)) as Hall.
  { refine (bool_decide_unpack _ _). vm_compute. done. }
  apply (Hall _ _ Hp).
Qed.

Definition two_old_files : disk :=
  MkDisk {["/c/new"%string := MkFile [] 20 ∅; "/c/old"%string := MkFile [] 10 ∅]} (Some 0) (Some 1).


Lemma one_directory (dir : string) : NoDup [dir].
Proof. repeat constructor. by intros ?%elem_of_nil. Qed.

Lemma first_eviction_takes_oldest_witness :
  (EvictCacheBlockLru ["/c"%string] two_old_files no_access).1 = Ok (Some "/c/old"%string) /\
  exists r ix', EvictCacheBlockLru ["/c"%string] two_old_files no_access = (r, ix') /\ index_ok ix' /\
    match r with
    | Throw e => local_error disk e
    | Ok None => forall p, p ∈ disk_paths ["/c"%string] two_old_files -> node two_old_files p = None
    | Ok (Some p) => p ∈ disk_paths ["/c"%string] two_old_files /\ (p ∉ recency ix') /\ exists n, node two_old_files p = Some n /\
        forall q nq, q ∈ disk_paths ["/c"%string] two_old_files -> node two_old_files q = Some nq ->
          mtime n <= mtime nq /\ (q = p \/ q ∈ recency ix')
    end.
Proof. split; [vm_compute; reflexivity|]. apply first_eviction_takes_oldest, one_directory. Defined.
