(* ===== verification/DiskCacheProofs.v ===== *)
(** * DiskCacheProofs

    What [DiskCacheUtil] guarantees, for any filesystem that keeps [LocalFsLaws]: a
    published file appears complete, with its version and its attributes, or not at all;
    it is read back by the readers of its version only; and its name and attributes give
    back the block and the remote path they were made from. *)
From S2P Require Import Prelude CppString StringUtil Blocks LocalFs Config FilesystemUtils Url DiskCacheUtil.
From Stdlib Require Import Strings.Ascii.

#[local] Open Scope Z_scope.

(** ** Attributes *)
Section Attributes.
Context {F : Type} `{FS : LocalFileSystem F} `{FL : !LocalFsLaws F}.
Implicit Types (f : F).

(** Setting attributes touches one file, and only its attributes. *)
Definition attrs_only (p : string) f f' : Prop :=
  (forall q, q <> p -> node f' q = node f q) /\
  forall n, node f p = Some n -> exists n', node f' p = Some n' /\ contents n' = contents n.

Lemma attrs_only_refl p f : attrs_only p f f.
Proof. split; [done|]. intros n Hn. eauto. Qed.

Lemma attrs_only_trans p f1 f2 f3 : attrs_only p f1 f2 -> attrs_only p f2 f3 -> attrs_only p f1 f3.
Proof.
  intros [H1 H2] [H3 H4]. split; [intros q Hq; by rewrite H3, H1|]. intros n Hn.
  destruct (H2 n Hn) as (n' & Hn' & <-). destruct (H4 n' Hn') as (n'' & ? & <-). eauto.
Qed.

Lemma SetSingle_ok p k v f r f' :
  SetSingleFileAttribute p k v f = (r, f') ->
  attrs_only p f f' /\
  (r = Ok true -> exists n n', node f p = Some n /\ node f' p = Some n' /\ contents n' = contents n /\
     xattrs n' = <[k := v]> (xattrs n)) /\
  (r <> Ok true -> node f' p = node f p).
Proof.
  unfold SetSingleFileAttribute. intros Hs.
  destruct (GetMaxXattrValueSize <? str_size k); [injection Hs as <- <-; split; [apply attrs_only_refl|done]|].
  destruct (GetMaxXattrValueSize <? str_size v); [injection Hs as <- <-; split; [apply attrs_only_refl|done]|].
  destruct (fs_setxattr p k v f) as [b f1] eqn:Hx. injection Hs as <- <-.
  pose proof (setxattr_law p k v f b f1 Hx) as [Ho Hb]. destruct b.
  - destruct Hb as (n & Hn & Hn'). split; [split; [done|]|].
    + intros n0 Hn0. simplify_eq. eexists. split; [done|]. done.
    + split; [|done]. intros _. eexists _, _. split; [done|]. split; [done|]. done.
  - split; [split; [done|]|split; [done|done]]. intros n Hn. rewrite Hb. eauto.
Qed.

Lemma set_attributes_ok p attrs b f r f' :
  set_attributes p attrs b f = (r, f') ->
  attrs_only p f f' /\
  (r = Ok true -> b = true /\ forall n, node f p = Some n -> exists n', node f' p = Some n' /\
     contents n' = contents n /\ xattrs n' = foldl (fun m kv => <[kv.1 := kv.2]> m) (xattrs n) attrs).
Proof.
  revert b f. induction attrs as [|[k v] attrs IH]; intros b f Hs; simpl in Hs.
  - injection Hs as <- <-. split; [apply attrs_only_refl|]. intros [= ->]. split; [done|]. eauto.
  - destruct (SetSingleFileAttribute p k v f) as [[x|e] f1] eqn:H1.
    + destruct (SetSingle_ok _ _ _ _ _ _ H1) as (Ha & Ht & Hf). destruct (IH _ _ Hs) as [Ha' Ht'].
      split; [by eapply attrs_only_trans|]. intros Hr. destruct (Ht' Hr) as [[-> ->]%andb_true_iff Hn].
      split; [done|]. intros n Hn0. destruct (Ht eq_refl) as (n1 & n2 & Hn1 & Hn2 & Hc & Hx). simplify_eq.
      destruct (Hn n2 Hn2) as (n3 & Hn3 & Hc3 & Hx3). exists n3. split; [done|]. split; [congruence|].
      by rewrite Hx3, Hx.
    + injection Hs as <- <-. destruct (SetSingle_ok _ _ _ _ _ _ H1) as (Ha & _). by split.
Qed.

Lemma foldl_insert_lookup (l : list (string * string)) (m : gmap string string) k :
  NoDup l.*1 ->
  foldl (fun m kv => <[kv.1 := kv.2]> m) m l !! k =
    match (list_to_map l : gmap string string) !! k with Some v => Some v | None => m !! k end.
Proof.
  revert m. induction l as [|[k0 v0] l IH]; intros m Hnd; [simpl; by rewrite lookup_empty|].
  rewrite fmap_cons in Hnd. apply NoDup_cons in Hnd as [Hni Hnd]. simpl. rewrite IH by done.
  destruct (decide (k = k0)) as [->|Hne].
  - rewrite lookup_insert_eq, (not_elem_of_list_to_map_1 _ _ Hni). by rewrite lookup_insert_eq.
  - rewrite lookup_insert_ne by done. by rewrite lookup_insert_ne by done.
Qed.

Lemma SetFileXattrs_ok p attrs f f' n :
  SetFileXattrs p attrs f = (Ok true, f') -> node f p = Some n ->
  exists n', node f' p = Some n' /\ contents n' = contents n /\
    forall k, xattrs n' !! k = match attrs !! k with Some v => Some v | None => xattrs n !! k end.
Proof.
  intros Hs Hn. destruct (set_attributes_ok _ _ _ _ _ _ Hs) as [_ Ht].
  destruct (Ht eq_refl) as [_ Hx]. destruct (Hx n Hn) as (n' & Hn' & Hc & Hx'). exists n'.
  split; [done|]. split; [done|]. intros k. rewrite Hx', foldl_insert_lookup by apply NoDup_fst_map_to_list.
  by rewrite list_to_map_to_list.
Qed.
End Attributes.

(** ** Publishing *)
Section Publish.
Context {F : Type} `{FS : LocalFileSystem F} `{FL : !LocalFsLaws F}.
Implicit Types (f : F).

(** A complete cache file: its bytes, its version and its attributes. *)
Definition version_attrs (tag : string) : gmap string string :=
  if String.eqb tag "" then ∅ else {[CACHE_VERSION_ATTR_KEY := tag]}.

Definition complete_file (dest : LocalCacheDestination) (bytes : list byte) (tag : string) (n : file) : Prop :=
  contents n = bytes /\
  forall k, xattrs n !! k = match file_attrs dest !! k with Some v => Some v | None => version_attrs tag !! k end.

Lemma publish_ok now dest content tag f r f' :
  temp_local_filepath dest <> dest_local_filepath dest ->
  publish now dest content tag f = (r, f') ->
  (forall q, q <> temp_local_filepath dest -> q <> dest_local_filepath dest -> node f' q = node f q) /\
  (node f' (dest_local_filepath dest) = node f (dest_local_filepath dest) \/
   exists n, node f' (dest_local_filepath dest) = Some n /\
     complete_file dest (slice (data content) 0 (c_length content)) tag n).
Proof.
  intros Hne. unfold publish. destruct (fs_write_new _ _ _ f) as [[[]|e] f1] eqn:Hw.
  2:{ intros [= <- <-]. destruct (write_law _ _ _ _ _ _ Hw) as [Ho _]. split; [intros; by apply Ho|left; by apply Ho]. }
  destruct (write_law _ _ _ _ _ _ Hw) as [Ho1 Hn1]. specialize (Hn1 eq_refl).
  set (bytes := slice (data content) 0 (c_length content)) in *. clear Hw.
  destruct (if String.eqb tag "" then (Ok true, f1) else SetCacheVersion (temp_local_filepath dest) tag f1) as [r2 f2] eqn:Hv.
  assert (attrs_only (temp_local_filepath dest) f1 f2 /\ (r2 = Ok true -> exists n2, node f2 (temp_local_filepath dest) = Some n2 /\
     contents n2 = bytes /\ xattrs n2 = version_attrs tag)) as [Ha2 Hn2].
  { unfold version_attrs. destruct (String.eqb_spec tag "") as [->|Htag].
    - injection Hv as <- <-. split; [apply attrs_only_refl|]. intros _. by eexists.
    - destruct (SetSingle_ok _ _ _ _ _ _ Hv) as (Ha & Ht & _). split; [done|]. intros Hr.
      destruct (Ht Hr) as (n & n' & Hn & Hn' & Hc & Hx). rewrite Hn1 in Hn. injection Hn as <-.
      exists n'. split; [done|]. split; [done|]. by rewrite Hx. }
  assert (forall q, q <> temp_local_filepath dest -> node f2 q = node f q) as Ho2.
  { intros q Hq. rewrite (proj1 Ha2 q Hq). by apply Ho1. }
  destruct r2 as [[|]|e]; [|intros [= <- <-]; split; [intros; by apply Ho2|left; by apply Ho2]..].
  destruct (Hn2 eq_refl) as (n2 & Hn2' & Hc2 & Hx2). clear Hn2 Hv.
  destruct (if bool_decide (file_attrs dest = ∅) then (Ok true, f2) else SetFileXattrs (temp_local_filepath dest) (file_attrs dest) f2)
    as [r3 f3] eqn:Hf.
  assert (attrs_only (temp_local_filepath dest) f2 f3 /\ (r3 = Ok true -> exists n3, node f3 (temp_local_filepath dest) = Some n3 /\
    complete_file dest bytes tag n3)) as [Ha3 Hn3].
  { case_bool_decide as Hemp.
    - injection Hf as <- <-. split; [apply attrs_only_refl|]. intros _. exists n2. split; [done|]. split; [done|].
      intros k. by rewrite Hemp, lookup_empty, Hx2.
    - split; [by apply (set_attributes_ok _ _ _ _ _ _ Hf)|]. intros ->.
      destruct (SetFileXattrs_ok _ _ _ _ _ Hf Hn2') as (n3 & Hn3 & Hc3 & Hx3). exists n3. split; [done|].
      split; [congruence|]. intros k. by rewrite Hx3, Hx2. }
  assert (forall q, q <> temp_local_filepath dest -> node f3 q = node f q) as Ho3.
  { intros q Hq. rewrite (proj1 Ha3 q Hq). by apply Ho2. }
  destruct r3 as [[|]|e]; [|intros [= <- <-]; split; [intros; by apply Ho3|left; by apply Ho3]..].
  destruct (Hn3 eq_refl) as (n3 & Hn3' & Hcomp). intros Hm. pose proof (move_law _ _ _ _ _ Hne Hm) as Hmv.
  destruct r as [[]|e].
  - destruct Hmv as (_ & Hd & _ & Ho). split.
    + intros q H1 H2. rewrite Ho by done. by apply Ho3.
    + right. exists n3. by rewrite Hd.
  - split; intros; [rewrite Hmv|left; rewrite Hmv]; by apply Ho3.
Qed.
End Publish.

(** ** Chunked attributes *)
Lemma digits_zero_to_string n : is_u64 n -> digits (Some 0) (to_string n) = Some n.
Proof.
  intros [H0 H1]. destruct (digits_to_digits 20 n "" (Some 0)) as (k & Hk & _); [split; [done|]|lia|].
  { assert (10 ^ Z.of_nat 20 = 100000000000000000000) as -> by reflexivity. lia. }
  unfold to_string. rewrite Hk. simpl. f_equal.
Qed.

Lemma digits_pad3 n : is_u64 n -> digits None (pad3 n) = Some n.
Proof.
  intros Hn. unfold pad3. destruct (String.length (to_string n) <? 2)%nat; [|destruct (String.length (to_string n) <? 3)%nat].
  - change (digits None ("00" +:+ to_string n)) with (digits (Some 0) (to_string n)). by apply digits_zero_to_string.
  - change (digits None ("0" +:+ to_string n)) with (digits (Some 0) (to_string n)). by apply digits_zero_to_string.
  - by apply digits_to_string.
Qed.

Lemma append_cancel_l (a b c : string) : (a +:+ b = a +:+ c -> b = c)%string.
Proof. intros He. by apply append_inj_len in He as [_ ?]. Qed.

Lemma attr_key_inj prefix i j : is_u64 i -> is_u64 j -> attr_key prefix i = attr_key prefix j -> i = j.
Proof.
  intros Hi Hj He. unfold attr_key in He. apply append_cancel_l, append_cancel_l in He.
  pose proof (digits_pad3 i Hi). pose proof (digits_pad3 j Hj). congruence.
Qed.

#[local] Abbreviation M := GetMaxXattrValueSize.

(** What the attribute of index [i] holds. *)
Definition chunk_of (value : string) (i : Z) : string :=
  String.substring (Z.to_nat (i * M)) (Z.to_nat (Z.min M (str_size value - i * M))) value.

Definition chunk_total (value : string) : Z := (str_size value + M - 1) / M.

Lemma str_size_nonneg s : 0 <= str_size s.
Proof. unfold str_size. lia. Qed.

Lemma chunk_total_range value i : 0 <= i < chunk_total value -> 0 <= i * M < str_size value.
Proof.
  unfold chunk_total, M. intros Hi. pose proof (str_size_nonneg value).
  assert (65536 * ((str_size value + 65536 - 1) / 65536) <= str_size value + 65536 - 1) by (apply Z.mul_div_le; lia). lia.
Qed.

Lemma add_chunks_lookup n idx prefix value attrs k :
  str_size value < 9223372036854775808 -> 0 <= idx -> idx + Z.of_nat n <= chunk_total value ->
  add_chunks n idx prefix value attrs !! k =
    match list_find (fun i => k = attr_key prefix i) (seqZ idx (Z.of_nat n)) with
    | Some (_, i) => Some (chunk_of value i)
    | None => attrs !! k
    end.
Proof.
  intros Hs. revert idx attrs. induction n as [|n IH]; intros idx attrs H0 Hn; [done|].
  rewrite Nat2Z.inj_succ, seqZ_cons by lia. simpl add_chunks. rewrite IH by lia.
  replace (Z.pred (Z.succ (Z.of_nat n))) with (Z.of_nat n) by lia. simpl list_find.
  pose proof (chunk_total_range value idx ltac:(lia)) as Hr.
  assert (idx *u M = idx * M) as -> by (apply u64_small; unfold M in *; lia).
  assert (str_size value -u idx * M = str_size value - idx * M) as -> by (apply u64_small; lia).
  fold (chunk_of value idx). rewrite <-Z.add_1_r.
  destruct (decide (k = attr_key prefix idx)) as [->|Hne].
  - destruct (list_find _ (seqZ (idx + 1) (Z.of_nat n))) as [[j i]|] eqn:Hf; simpl.
    + apply list_find_Some in Hf as (Hi & He & _). apply list_elem_of_lookup_2, elem_of_seqZ in Hi.
      assert (idx = i); [|lia]. apply (attr_key_inj prefix); [..|done];
        pose proof (chunk_total_range value i ltac:(lia)); unfold is_u64, M in *; lia.
    + by rewrite lookup_insert_eq.
  - destruct (list_find _ (seqZ (idx + 1) (Z.of_nat n))) as [[j i]|]; simpl; [done|]. by rewrite lookup_insert_ne.
Qed.

Lemma AddChunked_lookup attrs prefix value k :
  str_size value < 9223372036854775808 ->
  AddChunkedXattrEntries attrs prefix value !! k =
    match list_find (fun i => k = attr_key prefix i) (seqZ 0 (chunk_total value)) with
    | Some (_, i) => Some (chunk_of value i)
    | None => attrs !! k
    end.
Proof.
  intros Hs. unfold AddChunkedXattrEntries. pose proof (str_size_nonneg value).
  rewrite u64_sub_l, u64_small by (unfold M; lia). fold (chunk_total value).
  assert (0 <= chunk_total value) by (apply Z.div_pos; unfold M; lia).
  rewrite add_chunks_lookup; [|done|lia|lia]. rewrite Z2Nat.id by done. done.
Qed.

Lemma AddChunked_chunk attrs prefix value i :
  str_size value < 9223372036854775808 -> 0 <= i < chunk_total value ->
  AddChunkedXattrEntries attrs prefix value !! attr_key prefix i = Some (chunk_of value i).
Proof.
  intros Hs Hi. rewrite AddChunked_lookup by done.
  destruct (list_find _ _) as [[j i']|] eqn:Hf.
  - apply list_find_Some in Hf as (Hi' & He & _). apply list_elem_of_lookup_2, elem_of_seqZ in Hi'.
    do 2 f_equal. symmetry. apply (attr_key_inj prefix); [..|done];
      pose proof (chunk_total_range value i ltac:(lia)); pose proof (chunk_total_range value i' ltac:(lia));
      unfold is_u64, M in *; lia.
  - apply list_find_None in Hf. rewrite Forall_forall in Hf. exfalso. apply (Hf i); [|done]. apply elem_of_seqZ. lia.
Qed.

Lemma AddChunked_other attrs prefix value k :
  str_size value < 9223372036854775808 -> (forall i, 0 <= i < chunk_total value -> k <> attr_key prefix i) ->
  AddChunkedXattrEntries attrs prefix value !! k = attrs !! k.
Proof.
  intros Hs Hk. rewrite AddChunked_lookup by done. destruct (list_find _ _) as [[j i]|] eqn:Hf; [|done].
  apply list_find_Some in Hf as (Hi & He & _). apply list_elem_of_lookup_2, elem_of_seqZ in Hi. exfalso.
  apply (Hk i); [lia|done].
Qed.

Lemma chunk_split value i :
  0 <= i < chunk_total value ->
  substr_from (Z.to_nat (i * M)) value = (chunk_of value i +:+ substr_from (Z.to_nat ((i + 1) * M)) value)%string.
Proof.
  intros Hi. pose proof (chunk_total_range value i Hi) as Hr. unfold chunk_of, str_size in *.
  rewrite (substring_split _ (Z.to_nat (Z.min M (Z.of_nat (String.length value) - i * M)))) by lia. f_equal.
  destruct (Z.le_ge_cases M (Z.of_nat (String.length value) - i * M)) as [Hm|Hm].
  - rewrite Z.min_l by done. f_equal. unfold M in *. lia.
  - rewrite Z.min_r by done.
    assert (forall n, (String.length value <= n)%nat -> substr_from n value = ""%string) as Hempty.
    { intros n Hn. assert (String.length (substr_from n value) = 0)%nat as Hl by (rewrite length_substr_from; lia).
      by destruct (substr_from n value). }
    rewrite !Hempty; [done| |]; unfold M in *; lia.
Qed.

Section ReadChunks.
Context {F : Type} `{FS : LocalFileSystem F} `{FL : !LocalFsLaws F}.

Lemma read_chunks_ok fuel idx p prefix value f n :
  str_size value < 9223372036854775808 -> node f p = Some n ->
  0 <= idx <= chunk_total value -> (Z.to_nat (chunk_total value - idx) < fuel)%nat ->
  (forall i, idx <= i < chunk_total value -> xattrs n !! attr_key prefix i = Some (chunk_of value i)) ->
  xattrs n !! attr_key prefix (chunk_total value) = None ->
  read_chunks fuel idx p prefix f = substr_from (Z.to_nat (idx * M)) value.
Proof.
  intros Hs Hn. revert idx. induction fuel as [|fuel IH]; intros idx Hi Hf Hch Hend; [lia|].
  simpl. unfold GetFileXattr. rewrite getxattr_law, Hn. simpl.
  destruct (decide (idx = chunk_total value)) as [->|Hne].
  - rewrite Hend. simpl. assert (String.length (substr_from (Z.to_nat (chunk_total value * M)) value) = 0)%nat as Hl.
    { rewrite length_substr_from. unfold chunk_total, M, str_size in *.
      pose proof (Z.mod_pos_bound (Z.of_nat (String.length value) + 65536 - 1) 65536).
      pose proof (Z.div_mod (Z.of_nat (String.length value) + 65536 - 1) 65536). lia. }
    by destruct (substr_from _ value).
  - rewrite Hch by lia. simpl. pose proof (chunk_total_range value idx ltac:(lia)) as Hr.
    assert (chunk_of value idx <> ""%string) as Hnz.
    { intros He. apply (f_equal String.length) in He. unfold chunk_of in He. rewrite length_substring in He.
      unfold str_size, M in *. simpl in He. lia. }
    rewrite (proj2 (String.eqb_neq _ _)) by done. rewrite IH by (lia || (intros; apply Hch; lia) || done).
    symmetry. apply chunk_split. lia.
Qed.
End ReadChunks.

(** [value] is stored under [prefix], and nothing else is. *)
Definition stored_under (m : gmap string string) (prefix value : string) : Prop :=
  (forall i, 0 <= i < chunk_total value -> m !! attr_key prefix i = Some (chunk_of value i)) /\
  m !! attr_key prefix (chunk_total value) = None.

(** The longest value that fits in the attributes a file may have. *)
Definition max_attr_value : Z := 2184 * 65536.

Lemma small_total value : str_size value <= max_attr_value -> 0 <= chunk_total value <= 2184.
Proof.
  intros Hs. unfold chunk_total, M, max_attr_value in *. pose proof (str_size_nonneg value). split.
  - apply Z.div_pos; lia.
  - assert ((str_size value + 65536 - 1) / 65536 < 2185); [|lia]. apply Z.div_lt_upper_bound; lia.
Qed.

Lemma chunk_total_empty : chunk_total "" = 0.
Proof. done. Qed.

Section StoredUnder.
Context {F : Type} `{FS : LocalFileSystem F} `{FL : !LocalFsLaws F}.

Lemma read_stored p prefix value (f : F) n :
  node f p = Some n -> str_size value <= max_attr_value -> stored_under (xattrs n) prefix value ->
  ReadChunkedXattr p prefix f = value.
Proof.
  intros Hn Hs [Hc He]. pose proof (small_total value Hs). unfold ReadChunkedXattr.
  rewrite (read_chunks_ok max_xattr_chunks 0 p prefix value f n); try done.
  - unfold substr_from. simpl. apply substring_all. lia.
  - unfold max_attr_value in Hs. lia.
  - lia.
  - unfold max_xattr_chunks. lia.
Qed.
End StoredUnder.

Lemma stored_add attrs prefix value :
  str_size value <= max_attr_value -> attrs !! attr_key prefix (chunk_total value) = None ->
  stored_under (AddChunkedXattrEntries attrs prefix value) prefix value.
Proof.
  intros Hs Hn. pose proof (small_total value Hs) as Ht. unfold max_attr_value in Hs. split.
  - intros i Hi. apply AddChunked_chunk; [lia|done].
  - rewrite AddChunked_other; [done|lia|]. intros i Hi He.
    apply attr_key_inj in He; unfold is_u64; lia.
Qed.

Lemma stored_other attrs prefix value prefix' value' :
  str_size value <= max_attr_value -> (forall i j, attr_key prefix' i <> attr_key prefix j) ->
  stored_under attrs prefix' value' -> stored_under (AddChunkedXattrEntries attrs prefix value) prefix' value'.
Proof.
  intros Hs Hne [H1 H2]. unfold max_attr_value in Hs. split.
  - intros i Hi. rewrite AddChunked_other; [by apply H1|lia|]. intros j _. apply Hne.
  - rewrite AddChunked_other; [done|lia|]. intros j _. apply Hne.
Qed.

Lemma stored_nothing prefix : stored_under ∅ prefix "".
Proof. split; [rewrite chunk_total_empty; lia|apply lookup_empty]. Qed.

(** Keys of different families differ at a fixed character. *)
Lemma keys_differ (s t : string) n : String.get n s <> String.get n t -> s <> t.
Proof. intros Hn ->. by apply Hn. Qed.

Lemma prefix_keys i j : attr_key CACHE_FILEPATH_ATTR_PREFIX i <> attr_key REMOTE_PATH_ATTR_PREFIX j.
Proof. apply (keys_differ _ _ 18). lazy. discriminate. Qed.
Lemma version_key_cache i : attr_key CACHE_FILEPATH_ATTR_PREFIX i <> CACHE_VERSION_ATTR_KEY.
Proof. apply (keys_differ _ _ 11). lazy. discriminate. Qed.
Lemma version_key_remote i : attr_key REMOTE_PATH_ATTR_PREFIX i <> CACHE_VERSION_ATTR_KEY.
Proof. apply (keys_differ _ _ 11). lazy. discriminate. Qed.

Lemma complete_stored dest bytes tag n prefix value :
  complete_file dest bytes tag n -> (forall i, attr_key prefix i <> CACHE_VERSION_ATTR_KEY) ->
  stored_under (file_attrs dest) prefix value -> stored_under (xattrs n) prefix value.
Proof.
  intros [_ Hx] Hv [H1 H2].
  assert (forall i, version_attrs tag !! attr_key prefix i = None) as Hnone.
  { intros i. unfold version_attrs. case_match; [apply lookup_empty|]. rewrite lookup_singleton_ne; [done|].
    intros He. by apply (Hv i). }
  split; [intros i Hi; by rewrite Hx, H1|by rewrite Hx, H2].
Qed.

(** ** Destinations *)
Section Destinations.
Context `{SU : StringUtil} `{SL : !StringUtilLaws}.
Variable sha256 : string -> list Z.

(** The attributes of a destination: the remote path, and the original name when it had
    to be shortened. *)
Lemma Resolve_ok uuid dir p remote dest :
  str_size p <= max_attr_value -> str_size remote <= max_attr_value ->
  ResolveLocalCacheDestination sha256 uuid dir p remote = Ok dest ->
  stored_under (file_attrs dest) REMOTE_PATH_ATTR_PREFIX remote /\
  ((dest_local_filepath dest = p /\ stored_under (file_attrs dest) CACHE_FILEPATH_ATTR_PREFIX "") \/
   (dest_local_filepath dest = (dir +:+ "/" +:+ GetSha256 sha256 p)%string /\
    stored_under (file_attrs dest) CACHE_FILEPATH_ATTR_PREFIX p)) /\
  temp_local_filepath dest = GetTempCacheFilePath uuid (dest_local_filepath dest).
Proof.
  intros Hp Hr. unfold ResolveLocalCacheDestination. destruct (EndsWith dir "/"); [done|].
  set (base := if _ && _ then _ else _).
  assert (stored_under (file_attrs base) REMOTE_PATH_ATTR_PREFIX "" /\
    (forall i, file_attrs base !! attr_key REMOTE_PATH_ATTR_PREFIX i = None) /\
    ((dest_local_filepath base = p /\ stored_under (file_attrs base) CACHE_FILEPATH_ATTR_PREFIX "") \/
     (dest_local_filepath base = (dir +:+ "/" +:+ GetSha256 sha256 p)%string /\
      stored_under (file_attrs base) CACHE_FILEPATH_ATTR_PREFIX p)) /\
    temp_local_filepath base = GetTempCacheFilePath uuid (dest_local_filepath base)) as (H1 & H2 & H3 & H4).
  { unfold base. destruct (_ && _); simpl.
    - split; [apply stored_nothing|]. split; [intros i; apply lookup_empty|]. split; [|done].
      left. split; [done|apply stored_nothing].
    - split; [apply stored_other; [done|intros i j He; by apply (prefix_keys j i)|apply stored_nothing]|].
      split; [|split; [right; split; [done|]|done]].
      + intros i. rewrite AddChunked_other; [apply lookup_empty|unfold max_attr_value in *; lia|].
        intros j _ He. by apply (prefix_keys j i).
      + apply stored_add; [done|apply lookup_empty]. }
  clearbody base. destruct (String.eqb_spec remote "") as [->|Hne]; intros [= <-]; [done|]. simpl.
  split; [by apply stored_add|]. split; [|done].
  destruct H3 as [[Hd Hs]|[Hd Hs]]; [left|right]; (split; [done|]); apply stored_other; try done;
    intros i j; apply prefix_keys.
Qed.

(** *** Names *)
Lemma split_name hex fname off size :
  is_u64 off -> is_u64 size -> (exists c s, hex = String c s /\ c <> "-"%char) ->
  Split (block_file_name hex fname off size) "-" =
    (Split (hex +:+ "-" +:+ fname)%string "-" ++ [to_string off; to_string size])%list.
Proof.
  intros Ho Hs (c & s & -> & Hc). unfold block_file_name.
  assert (forall n, is_u64 n -> dash_free (to_string n) /\ to_string n <> ""%string) as Hn.
  { intros n Hn. split; [by apply to_string_find|by apply to_string_nonempty]. }
  destruct (Hn off Ho), (Hn size Hs).
  rewrite <-!append_assoc.
  rewrite (append_assoc _ "-" (to_string size)), Split_law; [|done|done|eexists _, _; split; [done|done]].
  rewrite (append_assoc _ "-" (to_string off)), Split_law; [|done|done|eexists _, _; split; [done|done]].
  by rewrite <-app_assoc.
Qed.

Lemma parse_name hex fname off size :
  is_u64 off -> is_u64 size -> (exists c s, hex = String c s /\ c <> "-"%char) ->
  (2 <= length (Split (hex +:+ "-" +:+ fname)%string "-"))%nat ->
  ParseCacheFileName (block_file_name hex fname off size) =
    Ok (MkRemoteFileInfo (Join (drop 1 (Split (hex +:+ "-" +:+ fname)%string "-")) "/") off (off +u size)).
Proof.
  intros Ho Hs Hh Hl. unfold ParseCacheFileName. rewrite split_name by done.
  set (l := Split (hex +:+ "-" +:+ fname)%string "-") in *. clearbody l.
  rewrite length_app. simpl length. rewrite (proj2 (Nat.leb_le 4 _)) by lia. simpl.
  rewrite !app_nth2 by lia.
  replace (length l + 2 - 2 - length l)%nat with 0%nat by lia.
  replace (length l + 2 - 1 - length l)%nat with 1%nat by lia. simpl.
  rewrite !ToUnsigned_law by done. simpl. do 2 f_equal.
  destruct l as [|x l]; simpl in *; [lia|]. rewrite skipn_O || simpl.
  replace (length l + 2 - 2)%nat with (length l) by lia. f_equal. by rewrite take_app_length.
Qed.
End Destinations.

(** ** Properties *)
Section Properties.
Context `{SU : StringUtil} `{SL : !StringUtilLaws}.
Context {F : Type} `{FS : LocalFileSystem F} `{FL : !LocalFsLaws F}.
Variable sha256 : string -> list Z.

(** The text of a digest. *)
Definition hex_text (hex : string) : Prop :=
  slash_free hex /\ exists c s, hex = String c s /\ c <> "-"%char.

Lemma slash_free_append a b : slash_free a -> slash_free b -> slash_free (a +:+ b)%string.
Proof.
  unfold slash_free, find_char. intros Ha Hb. rewrite find_char_append by done. by eapply find_char_from_shift.
Qed.

Lemma block_name_slash_free hex fname off size :
  slash_free hex -> slash_free fname -> is_u64 off -> is_u64 size -> slash_free (block_file_name hex fname off size).
Proof.
  intros. unfold block_file_name. repeat apply slash_free_append; try done; by apply to_string_find.
Qed.

(** C16: a published cache file says what it caches.  Whatever the lengths of the path
    and of the name (a name too long for the filesystem is replaced by its digest, and
    kept in chunked attributes), the file that [ResolveLocalCacheDestination] and
    [publish] leave at the destination gives back the offset, the size and the full
    remote path of its block. *)
Theorem published_block_is_listed now uuid dir remote idx hex fname off size content tag dest (f f' : F) r :
  hex_text hex -> slash_free fname -> (2 <= length (Split (hex +:+ "-" +:+ fname)%string "-"))%nat ->
  is_u64 off -> is_u64 size ->
  let path := cache_filepath (GetLocalCacheFile (MkPathInfo idx dir hex fname) off size) in
  str_size path <= max_attr_value -> str_size remote <= max_attr_value ->
  ResolveLocalCacheDestination sha256 uuid dir path remote = Ok dest ->
  temp_local_filepath dest <> dest_local_filepath dest ->
  publish now dest content tag f = (r, f') ->
  node f' (dest_local_filepath dest) <> node f (dest_local_filepath dest) ->
  TryGetOriginalRemotePath (dest_local_filepath dest) f' = remote /\
  exists name, GetRemoteFileInfo (dest_local_filepath dest) f' = Ok (MkRemoteFileInfo name off (off +u size)).
Proof.
  intros [Hhs Hhex] Hfn Hsplit Hoff Hsize path Hp Hr Hres Hne Hpub Hchg.
  destruct (Resolve_ok sha256 uuid dir path remote dest Hp Hr Hres) as (Hrem & Hcase & _).
  destruct (publish_ok now dest content tag f r f' Hne Hpub) as [_ [Hsame|(n & Hn & Hcomp)]]; [done|].
  pose proof (complete_stored _ _ _ _ _ _ Hcomp version_key_remote Hrem) as Hrem'. split.
  - by apply (read_stored _ _ _ _ n).
  - unfold GetRemoteFileInfo, TryGetOriginalCacheFilepath.
    assert (GetFileName path = block_file_name hex fname off size) as Hname.
    { unfold path, GetLocalCacheFile. simpl. apply GetFileName_law. by apply block_name_slash_free. }
    destruct Hcase as [[Hd Hs]|[Hd Hs]]; pose proof (complete_stored _ _ _ _ _ _ Hcomp version_key_cache Hs) as Hs'.
    + rewrite (read_stored _ _ "" f' n Hn); [|done|done]. simpl. rewrite Hd, Hname, parse_name by done. eauto.
    + rewrite (read_stored _ _ path f' n Hn Hp Hs'). assert (path <> ""%string) as Hpne.
      { unfold path, GetLocalCacheFile. simpl. intros He. apply (f_equal String.length) in He.
        rewrite !length_append in He. simpl in He. lia. }
      rewrite (proj2 (String.eqb_neq _ _) Hpne). simpl. rewrite Hname, parse_name by done. eauto.
Qed.

(** Reading a whole chunk through a handle. *)
Lemma read_content_ok page_size al handle size (f : F) :
  0 < page_size -> 0 < size -> size + page_size <= two64 ->
  match read_content_of page_size al handle size f with
  | Ok content => c_length content = size /\ size <= Z.of_nat (length handle) /\
                  slice (data content) 0 size = slice handle 0 size
  | Throw e => e = BadAlloc \/ local_error F e \/ Z.of_nat (length handle) < size
  end.
Proof.
  intros Hpg Hsz Hmax. unfold read_content_of.
  destruct (AllocatePageAlignedChunk page_size al size) as [ch|e] eqn:Ha; simpl.
  2:{ left. unfold AllocatePageAlignedChunk in Ha. rewrite (proj2 (Z.eqb_neq size 0)) in Ha by lia.
      by destruct (posix_memalign_fails _ _); simplify_eq. }
  destruct (Allocate_Ok _ _ _ _ Hpg Hsz Hmax Ha) as (_ & Hcap & _ & m & Hm & Hlm).
  destruct (fs_pread handle 0 size f) as [bytes|e] eqn:Hp; simpl.
  2:{ right. destruct (read_at handle 0 size) as [b|] eqn:Hr; [left|right].
      - eapply (pread_error handle 0 size f); [by rewrite Hr|done].
      - unfold read_at in Hr. case_decide; [done|]. lia. }
  pose proof (pread_law _ _ _ _ _ Hp) as Hr. unfold read_at in Hr. case_decide as Hrd; [|done]. injection Hr as <-.
  pose proof (length_slice handle 0 size ltac:(lia) ltac:(lia) ltac:(lia)) as Hls.
  destruct (write_at_is_some (data ch) 0 (slice handle 0 size)) as [m' Hw]; [lia|unfold data; rewrite Hm; simpl; lia|].
  rewrite Hw. simpl. split; [done|]. split; [lia|].
  unfold data. simpl. pose proof (length_write_at _ _ _ _ Hw) as Hlw. unfold data in Hlw. rewrite Hm in Hlw. simpl in Hlw.
  apply slice_agrees; [lia..|]. intros d Hd. rewrite !Z.add_0_l. rewrite (lookup_write_at _ _ _ _ _ Hw).
  rewrite decide_True by lia. rewrite <-(Z.add_0_l d) at 2. rewrite <-lookup_slice with (len := size) by lia.
  f_equal. lia.
Qed.

(** The version check of a file that is there. *)
Lemma Validate_ok path tag (f : F) n :
  node f path = Some n ->
  ValidateCacheFile path tag f = true <-> tag = ""%string \/ xattrs n !! CACHE_VERSION_ATTR_KEY = Some tag.
Proof.
  intros Hn. unfold ValidateCacheFile, GetCacheVersion. rewrite getxattr_law, Hn. simpl.
  destruct (String.eqb_spec tag "") as [->|Ht]; [split; [by left|done]|].
  destruct (xattrs n !! CACHE_VERSION_ATTR_KEY) as [v|] eqn:Hv; simpl.
  - destruct (String.eqb_spec v "") as [->|Hv0].
    + split; [done|]. intros [|[= He]]; by subst.
    + rewrite String.eqb_eq. split; [intros ->; by right|]. intros [|[= ->]]; done.
  - split; [done|]. by intros [|].
Qed.

(** C17: [ReadLocalCacheFile], run on its own, serves a local cache file to the readers of
    its version only.  When it reports a hit, the bytes are the first [chunk_size] bytes of
    the file and the file carries the requested version (any version when validation is
    off).  When it reports a miss, there was no file, or one of another version or of none,
    and there is none any more.  It throws what the allocator or the local filesystem threw
    (the stale file may have resisted its removal), or because the file is too short, and
    then nothing has changed.  No other file is touched. *)
Theorem local_read_validates page_size al now path size tag direct (f f' : F) res :
  0 < page_size -> 0 < size -> size + page_size <= two64 ->
  ReadLocalCacheFile page_size al now path size tag direct f = (res, f') ->
  (forall q, q <> path -> node f' q = node f q) /\
  match res with
  | Ok rr =>
      if cache_hit rr then
        exists n, node f path = Some n /\ c_length (read_content rr) = size /\
          slice (data (read_content rr)) 0 size = slice (contents n) 0 size /\
          size <= Z.of_nat (length (contents n)) /\
          (tag = ""%string \/ xattrs n !! CACHE_VERSION_ATTR_KEY = Some tag)
      else node f' path = None /\
        (node f path = None \/
         exists n, node f path = Some n /\ tag <> ""%string /\ xattrs n !! CACHE_VERSION_ATTR_KEY <> Some tag)
  | Throw e =>
      node f' path = node f path /\
      (e = BadAlloc \/ local_error F e \/ exists n, node f path = Some n /\ Z.of_nat (length (contents n)) < size)
  end.
Proof.
  intros Hpg Hsz Hmax. unfold ReadLocalCacheFile.
  destruct (fs_open _ path f) as [h|e] eqn:Hop; [|intros [= <- <-]; eauto 10 with local_fs].
  pose proof (open_law _ _ _ _ Hop) as ->. destruct (node f path) as [n|] eqn:Hn; simpl; [|intros [= <- <-]; simpl; auto].
  pose proof (Validate_ok path tag f n Hn) as Hval. destruct (ValidateCacheFile path tag f); simpl.
  - pose proof (read_content_ok page_size al (contents n) size f Hpg Hsz Hmax) as Hrd.
    destruct (read_content_of _ _ _ _ f) as [content|e].
    2:{ intros [= <- <-]. split; [done|]. split; [done|]. destruct Hrd as [?|[?|?]]; eauto 10. }
    destruct (UpdateFileTimestamps now path f) as [b f1] eqn:Htouch. intros [= <- <-].
    destruct (touch_law _ _ _ _ _ Htouch) as [Ho _]. split; [done|]. simpl. exists n. destruct Hrd as (? & ? & ?).
    repeat split; try done. by apply Hval.
  - destruct (fs_remove path f) as [b f1] eqn:Hrm. intros [= <- <-].
    destruct (remove_law _ _ _ _ Hrm) as [Ho Hp]. split; [done|]. destruct b as [b|e]; simpl.
    + split; [by destruct b; destruct Hp|]. right. exists n. split; [done|]. split.
      * intros ->. by pose proof (proj2 Hval (or_introl eq_refl)).
      * intros Hx. by pose proof (proj2 Hval (or_intror Hx)).
    + rewrite Hp. split; [done|]. right. left. apply (remove_error path f). by rewrite Hrm.
Qed.

(** C18: publishing is all or nothing.  [StoreLocalCacheFile] on a directory with enough
    space changes at most the temporary file, which it always asks to be removed, and the
    destination; and the destination either keeps what it had, or holds all the bytes
    with the version and every attribute already attached, so a concurrent reader never
    sees a partial file or one without its version. *)
Theorem store_is_atomic {D} (decider : F -> D -> Res (option string) * D) rnd now dir dest content tag bs mind policy
    (f f' : F) (d d' : D) r :
  temp_local_filepath dest <> dest_local_filepath dest ->
  CanCacheOnDisk rnd dir bs mind f = true ->
  StoreLocalCacheFile decider rnd now dir dest content tag bs mind policy f d = (r, f', d') ->
  d' = d /\
  (forall q, q <> temp_local_filepath dest -> q <> dest_local_filepath dest -> node f' q = node f q) /\
  (node f' (dest_local_filepath dest) = node f (dest_local_filepath dest) \/
   exists n, node f' (dest_local_filepath dest) = Some n /\
     complete_file dest (slice (data content) 0 (c_length content)) tag n).
Proof.
  intros Hne Hcan. unfold StoreLocalCacheFile. rewrite Hcan. simpl.
  destruct (publish now dest content tag f) as [r1 f1] eqn:Hpub.
  destruct (publish_ok now dest content tag f r1 f1 Hne Hpub) as [Ho Hd].
  destruct (fs_remove (temp_local_filepath dest) f1) as [b f2] eqn:Hrm. intros [= <- <- <-].
  destruct (remove_law _ _ _ _ Hrm) as [Ho2 _]. split; [done|]. simpl. split.
  - intros q H1 H2. rewrite Ho2 by done. by apply Ho.
  - rewrite Ho2 by done. done.
Qed.
End Properties.

Section Witnesses.
#[local] Definition sha (s : string) : list Z := replicate 32 (str_size s mod 256).
#[local] Definition disk0 : disk := MkDisk ∅ (Some 1000000) (Some 2000000).
#[local] Definition chunk4 : PageAlignedDataChunk := MkChunk (Some [x01; x02; x03; x04]) 4 4096.
#[local] Definition info4 : RemoteFileCachePathInfo := MkPathInfo 0 "/c" "ab12" "f-1.parquet".
#[local] Definition path4 : string := cache_filepath (GetLocalCacheFile info4 4096 4).
#[local] Definition dest4 : LocalCacheDestination :=
  match ResolveLocalCacheDestination sha "u1" "/c" path4 "s3://b/f-1.parquet" with
  | Ok d => d | Throw _ => MkLocalCacheDestination "" "" ∅ end.
#[local] Definition disk4 : disk := (publish 7 dest4 chunk4 "v1" disk0).2.

Lemma dest4_names : temp_local_filepath dest4 <> dest_local_filepath dest4.
Proof. vm_compute. discriminate. Qed.

Lemma published_block_is_listed_witness :
  TryGetOriginalRemotePath (dest_local_filepath dest4) disk4 = "s3://b/f-1.parquet"%string /\
  exists name, GetRemoteFileInfo (dest_local_filepath dest4) disk4 = Ok (MkRemoteFileInfo name 4096 (4096 +u 4)).
Proof.
  apply (published_block_is_listed sha 7 "u1" "/c" "s3://b/f-1.parquet" 0 "ab12" "f-1.parquet" 4096 4 chunk4 "v1"
           dest4 disk0 disk4 (Ok tt)).
  - split; [reflexivity|]. eexists _, _. split; [reflexivity|discriminate].
  - reflexivity.
  - vm_compute. lia.
  - unfold is_u64. lia.
  - unfold is_u64. lia.
  - vm_compute. discriminate.
  - vm_compute. discriminate.
  - vm_compute. reflexivity.
  - exact dest4_names.
  - vm_compute. reflexivity.
  - vm_compute. discriminate.
Defined.

#[local] Definition al0 : Allocator := MkAllocator (fun _ => false) (fun _ => []).

Lemma local_read_validates_witness :
  let '(res, f') := ReadLocalCacheFile 4096 al0 9 (dest_local_filepath dest4) 4 "v2" true disk4 in
  (forall q, q <> dest_local_filepath dest4 -> node f' q = node disk4 q) /\
  res = Ok (MkReadResult false empty_chunk) /\ node f' (dest_local_filepath dest4) = None.
Proof.
  destruct (ReadLocalCacheFile 4096 al0 9 (dest_local_filepath dest4) 4 "v2" true disk4) as [res f'] eqn:He.
  assert (res = Ok (MkReadResult false empty_chunk)) as ->.
  { change res with (res, f').1. rewrite <-He. vm_compute. reflexivity. }
  destruct (local_read_validates 4096 al0 9 (dest_local_filepath dest4) 4 "v2" true disk4 f' (Ok (MkReadResult false empty_chunk)))
    as [Ho [Hn _]]; [lia..|exact He|]. split; [exact Ho|]. split; [reflexivity|exact Hn].
Defined.

Lemma store_is_atomic_witness :
  let '(r, f', d') := StoreLocalCacheFile (fun f d => (Ok None, d)) (fun q => q) 7 "/c" dest4 chunk4 "v1" 512 1
                        ON_DISK_LRU_SINGLE_PROC_EVICTION disk0 tt in
  d' = tt /\
  (forall q, q <> temp_local_filepath dest4 -> q <> dest_local_filepath dest4 -> node f' q = node disk0 q) /\
  (node f' (dest_local_filepath dest4) = node disk0 (dest_local_filepath dest4) \/
   exists n, node f' (dest_local_filepath dest4) = Some n /\
     complete_file dest4 (slice (data chunk4) 0 (c_length chunk4)) "v1" n).
Proof.
  destruct (StoreLocalCacheFile _ _ 7 "/c" dest4 chunk4 "v1" 512 1 _ disk0 tt) as [[r f'] d'] eqn:He.
  apply (store_is_atomic (fun f d => (Ok None, d)) (fun q => q) 7 "/c" dest4 chunk4 "v1" 512 1
           ON_DISK_LRU_SINGLE_PROC_EVICTION disk0 f' tt d' r dest4_names); [vm_compute; reflexivity|exact He].
Defined.
End Witnesses.
