(* ===== verification/DiskNames.v ===== *)
(** * DiskNames

    The paths of cache files tell blocks apart: two blocks, of the same remote file or of
    two, never share a path, and no temporary path is the path of a block, as long as the
    digest has no collision among the names in use. *)
From S2P Require Import Prelude CppString StringUtil LocalFs FilesystemUtils Url DiskCacheUtil DiskCacheProofs.
From Stdlib Require Import Strings.Ascii.

#[local] Open Scope Z_scope.

(** ** Digests as text *)
Definition is_byte (b : Z) : Prop := 0 <= b < 256.

Lemma hex_char_cases n : 0 <= n < 16 -> exists c, hex_char n = String c "" /\ forall m, 0 <= m < 16 -> hex_char m = String c "" -> m = n.
Proof.
  intros Hn. assert (forall k, 0 <= k < 16 -> k ∈ seqZ 0 16) as Hin by (intros k Hk; apply elem_of_seqZ; lia).
  assert (Forall (fun n => Forall (fun m => hex_char n = hex_char m -> m = n) (seqZ 0 16) /\
            String.length (hex_char n) = 1%nat) (seqZ 0 16)) as Hall.
  { refine (bool_decide_unpack _ _). vm_compute. done. }
  rewrite Forall_forall in Hall. destruct (Hall n (Hin n Hn)) as [Hinj Hlen]. rewrite Forall_forall in Hinj.
  destruct (hex_char n) as [|c [|]] eqn:Hh; try done. exists c. split; [done|].
  intros m Hm Hx. apply Hinj; [auto|]. by rewrite Hx.
Qed.

Definition hex_byte (b : Z) : string := (hex_char (Z.shiftr b 4) +:+ hex_char (Z.land b 15))%string.

Lemma byte_halves b : is_byte b -> 0 <= Z.shiftr b 4 < 16 /\ 0 <= Z.land b 15 < 16 /\ b = Z.shiftr b 4 * 16 + Z.land b 15.
Proof.
  intros Hb. unfold is_byte in Hb. rewrite Z.shiftr_div_pow2 by lia. change 15 with (Z.ones 4). rewrite Z.land_ones by lia.
  change (2 ^ 4) with 16. pose proof (Z.mod_pos_bound b 16 ltac:(lia)). pose proof (Z.div_mod b 16 ltac:(lia)).
  assert (0 <= b / 16 < 16); [|lia]. split; [apply Z.div_pos; lia|apply Z.div_lt_upper_bound; lia].
Qed.

Lemma hex_string_acc acc l :
  foldl (fun result b => ((result +:+ hex_char (Z.shiftr b 4)) +:+ hex_char (Z.land b 15))%string) acc l =
  (acc +:+ foldr (fun b r => hex_byte b +:+ r)%string "" l)%string.
Proof.
  revert acc. induction l as [|b l IH]; intros acc; simpl; [by rewrite append_nil_r|].
  rewrite IH. unfold hex_byte. by rewrite !append_assoc.
Qed.

Lemma hex_string_spec l : Sha256ToHexString l = foldr (fun b r => hex_byte b +:+ r)%string ""%string l.
Proof. unfold Sha256ToHexString. by rewrite hex_string_acc. Qed.

Lemma hex_string_inj l l' : Forall is_byte l -> Forall is_byte l' -> Sha256ToHexString l = Sha256ToHexString l' -> l = l'.
Proof.
  rewrite !hex_string_spec. intros Hl. revert l'. induction Hl as [|b l Hb _ IH]; intros [|b' l'] Hl' He; [done| | |].
  - exfalso. apply Forall_cons in Hl' as [Hb' _]. destruct (byte_halves b' Hb') as (H1 & _ & _).
    destruct (hex_char_cases _ H1) as (c & Hc & _). simpl in He. unfold hex_byte in He. by rewrite Hc in He.
  - exfalso. destruct (byte_halves b Hb) as (H1 & _ & _).
    destruct (hex_char_cases _ H1) as (c & Hc & _). simpl in He. unfold hex_byte in He. by rewrite Hc in He.
  - apply Forall_cons in Hl' as [Hb' Hl']. destruct (byte_halves b Hb) as (H1 & H2 & H3), (byte_halves b' Hb') as (H1' & H2' & H3').
    destruct (hex_char_cases _ H1) as (c & Hc & Hi), (hex_char_cases _ H2) as (d & Hd & Hj).
    destruct (hex_char_cases _ H1') as (c' & Hc' & _), (hex_char_cases _ H2') as (d' & Hd' & _).
    simpl in He. unfold hex_byte in He. rewrite Hc, Hd, Hc', Hd' in He.
    assert (c = c' /\ d = d' /\ foldr (fun b r => hex_byte b +:+ r)%string ""%string l =
            foldr (fun b r => hex_byte b +:+ r)%string ""%string l') as (<- & <- & Ht).
    { rewrite !append_assoc, !append_cons, !append_nil in He. injection He as -> -> He. by repeat split. }
    rewrite (IH _ Hl' Ht). f_equal. specialize (Hi _ H1' Hc'). specialize (Hj _ H2' Hd'). lia.
Qed.

Lemma hex_char_free n c : find_char kHexChars c = None -> free c (hex_char n).
Proof.
  intros Hc. unfold hex_char. destruct (String.get (Z.to_nat n) kHexChars) as [d|] eqn:Hg; [|done].
  apply free_cons. split; [|done]. intros ->. revert Hc Hg. generalize (Z.to_nat n) as k. generalize kHexChars as s.
  induction s as [|e s IH]; intros k Hc Hg; [by destruct k|]. apply free_cons in Hc as [Hne Hc].
  destruct k as [|k]; simpl in Hg; [congruence|]. by eapply IH.
Qed.

Lemma hex_string_free l c : find_char kHexChars c = None -> free c (Sha256ToHexString l).
Proof.
  intros Hc. rewrite hex_string_spec. induction l as [|b l IH]; [done|]. simpl. unfold hex_byte.
  rewrite !free_append. auto using hex_char_free.
Qed.

(** ** Block names *)
Lemma block_name_inj hex hex' fname fname' off off' n n' :
  dash_free hex -> dash_free hex' -> is_u64 off -> is_u64 off' -> is_u64 n -> is_u64 n' ->
  block_file_name hex fname off n = block_file_name hex' fname' off' n' -> hex = hex' /\ off = off' /\ n = n'.
Proof.
  intros Hh Hh' Ho Ho' Hn Hn' He. unfold block_file_name in He.
  assert (forall k, is_u64 k -> free "-" (to_string k)) as Hf by (intros k Hk; by apply to_string_find).
  change ("-" +:+ to_string n)%string with (String "-" (to_string n)) in He.
  change ("-" +:+ to_string n')%string with (String "-" (to_string n')) in He. rewrite <-!append_assoc in He.
  apply last_separator_inj in He as [He Hs]; [|by apply Hf..].
  rewrite !append_assoc in He. change ("-" +:+ to_string off)%string with (String "-" (to_string off)) in He.
  change ("-" +:+ to_string off')%string with (String "-" (to_string off')) in He. rewrite <-!append_assoc in He.
  apply last_separator_inj in He as [He Ho2]; [|by apply Hf..].
  rewrite !append_assoc in He. apply first_separator_inj in He as [He _]; [|done..].
  split; [done|]. split; by apply to_string_inj.
Qed.

Section Paths.
Context `{SU : StringUtil} `{SL : !StringUtilLaws}.
Variable sha256 : string -> list Z.
Variable dirs : list string.
Hypothesis digest_bytes : forall s, Forall is_byte (sha256 s).

(** What a UUID looks like. *)
Definition is_uuid (u : string) : Prop := String.length u = 36%nat /\ slash_free u.

(** A block's name and path, in full and as published: the name takes a temporary suffix
    of 56 characters, and is replaced by its digest when that makes it too long. *)
Definition full_path (info : RemoteFileCachePathInfo) (off n : Z) : string := cache_filepath (GetLocalCacheFile info off n).
Definition short_enough (info : RemoteFileCachePathInfo) (off n : Z) : bool :=
  (str_size (block_file_name (remote_file_sha256_hex info) (sanitized_fname info) off n) + 56 <=? 255) &&
  (str_size (full_path info off n) + 56 <=? 4096).
Definition published_path (info : RemoteFileCachePathInfo) (off n : Z) : string :=
  if short_enough info off n then full_path info off n
  else (cache_directory info +:+ "/" +:+ GetSha256 sha256 (full_path info off n))%string.

Definition path_info_of (remote_file : string) : Res RemoteFileCachePathInfo :=
  BuildRemoteFileCachePathInfo sha256 dirs remote_file.

(** Remote files in use, and the strings that are hashed for them. *)
Variable remote : string -> Prop.
Definition hashed (s : string) : Prop :=
  remote s \/ exists p info off n, remote p /\ is_u64 off /\ is_u64 n /\ path_info_of p = Ok info /\ s = full_path info off n.
Hypothesis no_collision : forall a b, hashed a -> hashed b -> sha256 a = sha256 b -> a = b.

Lemma path_info_fields p info :
  path_info_of p = Ok info ->
  remote_file_sha256_hex info = GetSha256 sha256 p /\ slash_free (sanitized_fname info) /\
  EndsWith (cache_directory info) "/" = false /\ cache_directory info ∈ dirs.
Proof.
  unfold path_info_of, BuildRemoteFileCachePathInfo. intros ([] & _ & Hi)%bind_Ok.
  unfold PopulateRemoteFileCacheKey in Hi. apply bind_Ok in Hi as (dir & Hdir & Hi).
  destruct (EndsWith dir "/") eqn:He; [done|]. injection Hi as <-. simpl. split; [done|].
  split; [apply GetFileName_slash_free|]. split; [done|].
  destruct (dirs !! _) as [x|] eqn:Hx; [|done]. injection Hdir as <-. exact (list_elem_of_lookup_2 _ _ _ Hx).
Qed.

Lemma hex_slash_free p info : path_info_of p = Ok info -> slash_free (remote_file_sha256_hex info).
Proof. intros (-> & _)%path_info_fields. by apply hex_string_free. Qed.

Lemma block_name_ok p info off n :
  path_info_of p = Ok info -> is_u64 off -> is_u64 n ->
  slash_free (block_file_name (remote_file_sha256_hex info) (sanitized_fname info) off n).
Proof.
  intros Hi Ho Hn. apply block_name_slash_free; try done; [by eapply hex_slash_free|by apply path_info_fields in Hi as (_ & ? & _)].
Qed.

(** Resolving a block never fails, and its UUID shows in the temporary path only. *)
Lemma Resolve_published uuid p info off n :
  is_uuid uuid -> path_info_of p = Ok info -> is_u64 off -> is_u64 n ->
  exists dest, ResolveLocalCacheDestination sha256 uuid (cache_directory info) (full_path info off n) p = Ok dest /\
    dest_local_filepath dest = published_path info off n /\
    temp_local_filepath dest = GetTempCacheFilePath uuid (published_path info off n).
Proof.
  intros Hu Hi Ho Hn. pose proof (block_name_ok p info off n Hi Ho Hn) as Hname.
  destruct (path_info_fields p info Hi) as (_ & _ & Hend & _). unfold ResolveLocalCacheDestination. rewrite Hend.
  assert (GetFileName (GetTempCacheFilePath uuid (full_path info off n)) =
    GetTempCacheFilePath uuid (block_file_name (remote_file_sha256_hex info) (sanitized_fname info) off n)) as ->.
  { unfold GetTempCacheFilePath, full_path, GetLocalCacheFile. simpl. rewrite !append_assoc. apply GetFileName_law.
    apply slash_free_append; [done|]. apply slash_free_append; [done|]. apply slash_free_append; [apply Hu|done]. }
  assert (forall s, str_size (GetTempCacheFilePath uuid s) = str_size s + 56) as Hlen.
  { intros s. unfold str_size, GetTempCacheFilePath. rewrite !length_append. destruct Hu as [-> _]. simpl String.length. lia. }
  rewrite !Hlen. unfold published_path, short_enough. simpl max_filename_len. simpl max_filepath_len.
  destruct (_ && _); destruct (String.eqb p ""); by eexists.
Qed.

Lemma digest_inj a b : hashed a -> hashed b -> GetSha256 sha256 a = GetSha256 sha256 b -> a = b.
Proof. intros Ha Hb He. apply no_collision; [done..|]. by apply hex_string_inj. Qed.

Lemma full_path_inj p p' info info' off off' n n' :
  remote p -> remote p' -> path_info_of p = Ok info -> path_info_of p' = Ok info' ->
  is_u64 off -> is_u64 off' -> is_u64 n -> is_u64 n' ->
  full_path info off n = full_path info' off' n' -> p = p' /\ off = off' /\ n = n'.
Proof.
  intros Hp Hp' Hi Hi' Ho Ho' Hn Hn' He. unfold full_path, GetLocalCacheFile in He. simpl in He.
  apply directory_inj in He as [_ He]; [|by eapply block_name_ok..].
  destruct (path_info_fields _ _ Hi) as [Hx _], (path_info_fields _ _ Hi') as [Hx' _]. rewrite Hx, Hx' in He.
  apply block_name_inj in He as (He & -> & ->); [|by apply hex_string_free|by apply hex_string_free|done..].
  split; [|done]. apply digest_inj; [by left..|done].
Qed.

Lemma name_has_dash hex fname off n : ~ dash_free (block_file_name hex fname off n).
Proof.
  unfold block_file_name. intros Hf. apply (free_append "-") in Hf as [_ Hf]. by apply (free_append "-") in Hf as [Hf _].
Qed.

Lemma published_path_inj p p' info info' off off' n n' :
  remote p -> remote p' -> path_info_of p = Ok info -> path_info_of p' = Ok info' ->
  is_u64 off -> is_u64 off' -> is_u64 n -> is_u64 n' ->
  published_path info off n = published_path info' off' n' -> p = p' /\ off = off' /\ n = n'.
Proof.
  intros Hp Hp' Hi Hi' Ho Ho' Hn Hn'. unfold published_path.
  assert (forall s, slash_free (GetSha256 sha256 s) /\ dash_free (GetSha256 sha256 s)) as Hs by (split; by apply hex_string_free).
  destruct (short_enough info off n), (short_enough info' off' n').
  - by apply full_path_inj.
  - intros He. exfalso. unfold full_path, GetLocalCacheFile in He. simpl in He.
    apply directory_inj in He as [_ He]; [|by eapply block_name_ok|apply Hs].
    apply (name_has_dash (remote_file_sha256_hex info) (sanitized_fname info) off n). rewrite He. apply Hs.
  - intros He. exfalso. unfold full_path at 2 in He. unfold GetLocalCacheFile in He. simpl in He.
    apply directory_inj in He as [_ He]; [|apply Hs|by eapply block_name_ok].
    apply (name_has_dash (remote_file_sha256_hex info') (sanitized_fname info') off' n'). rewrite <-He. apply Hs.
  - intros He. apply directory_inj in He as [_ He]; [|apply Hs..].
    apply digest_inj in He; [|by right; eauto 10..]. by eapply full_path_inj.
Qed.

(** A temporary path ends in a letter and holds a dot: it is the path of no block. *)
Lemma temp_not_published uuid s p info off n :
  path_info_of p = Ok info -> is_u64 off -> is_u64 n -> GetTempCacheFilePath uuid s <> published_path info off n.
Proof.
  intros Hi Ho Hn He. unfold published_path, GetTempCacheFilePath in He.
  change ".httpfs_local_cache"%string with (".httpfs_local_cach" +:+ "e")%string in He.
  rewrite <-!append_assoc in He. destruct (short_enough info off n).
  - unfold full_path, GetLocalCacheFile, block_file_name in He. simpl in He. rewrite <-!append_assoc in He.
    symmetry in He. apply append_last in He as [t' Ht']; [|by apply to_string_nonempty].
    pose proof (to_string_find n "e" Hn eq_refl) as Hf. rewrite Ht' in Hf. apply (free_append "e") in Hf as [_ Hf]. done.
  - (* the name: a digest has no dot, and a temporary name has one after its last slash *)
    set (h := GetSha256 sha256 (full_path info off n)) in *.
    assert (free "." h) as Hh by by apply hex_string_free. assert (free "/" h) as Hs by by apply hex_string_free.
    rewrite !append_assoc in He. change (".httpfs_local_cach" +:+ "e")%string with (String "." "httpfs_local_cache") in He.
    rewrite <-!append_assoc in He.
    assert (forall d a x, free "." h -> a +:+ String "." x = d +:+ "/" +:+ h -> ~ free "/" (String "." x)) as Hno.
    { intros d a x _ Hx Hf. revert a Hx. induction d as [|y d IH]; intros a Hx.
      - destruct a as [|z a]; [done|]. rewrite append_cons in Hx. injection Hx as -> Hx. rewrite append_nil in Hx.
        rewrite <-Hx in Hh. apply free_append in Hh as [_ Hh]. by apply free_cons in Hh as [].
      - destruct a as [|z a]; rewrite ?append_cons in Hx; injection Hx.
        + intros Hx' _. rewrite Hx' in Hf. apply free_cons in Hf as [_ Hf]. apply free_append in Hf as [_ Hf].
          by apply (free_cons "/" "/") in Hf as [].
        + intros Hx' _. by apply (IH a). }
    rewrite (append_assoc _ "/" h) in He. by apply (Hno _ _ _ Hh He).
Qed.
End Paths.

(** ** Properties *)
Section Properties.
Context `{SU : StringUtil} `{SL : !StringUtilLaws}.
Variable sha256 : string -> list Z.
Variable dirs : list string.
Variable remote : string -> Prop.

(** C19: The cache path identifies the block.  For any remote files in use, on whose names
    and block names the digest has no collision, and any two blocks of them, resolving
    the destinations succeeds; the two published paths are the same only if the blocks
    are, whether or not the names had to be shortened to a digest; and the temporary path
    of one is never the published path of the other. *)
Theorem block_paths_distinct uuid uuid' p p' info info' off off' n n' :
  (forall s, Forall is_byte (sha256 s)) ->
  (forall a b, hashed sha256 dirs remote a -> hashed sha256 dirs remote b -> sha256 a = sha256 b -> a = b) ->
  remote p -> remote p' ->
  BuildRemoteFileCachePathInfo sha256 dirs p = Ok info -> BuildRemoteFileCachePathInfo sha256 dirs p' = Ok info' ->
  is_u64 off -> is_u64 off' -> is_u64 n -> is_u64 n' -> is_uuid uuid -> is_uuid uuid' ->
  exists dest dest',
    ResolveLocalCacheDestination sha256 uuid (cache_directory info) (cache_filepath (GetLocalCacheFile info off n)) p = Ok dest /\
    ResolveLocalCacheDestination sha256 uuid' (cache_directory info') (cache_filepath (GetLocalCacheFile info' off' n')) p' = Ok dest' /\
    (dest_local_filepath dest = dest_local_filepath dest' -> p = p' /\ off = off' /\ n = n') /\
    temp_local_filepath dest <> dest_local_filepath dest'.
Proof.
  intros Hby Hcol Hp Hp' Hi Hi' Ho Ho' Hn Hn' Hu Hu'.
  destruct (Resolve_published sha256 dirs uuid p info off n Hu Hi Ho Hn) as (dest & Hd & Hl & Ht).
  destruct (Resolve_published sha256 dirs uuid' p' info' off' n' Hu' Hi' Ho' Hn') as (dest' & Hd' & Hl' & Ht').
  exists dest, dest'. split; [done|]. split; [done|]. rewrite Hl, Hl', Ht. split.
  - intros He. by eapply (published_path_inj sha256 dirs Hby remote Hcol).
  - by eapply temp_not_published.
Qed.
End Properties.

(** ** Witnesses *)
Definition plain_digest (s : string) : list Z := (fun c => Z.of_N (N_of_ascii c)) <$> String.list_ascii_of_string s.
Definition sample_uuid : string := "01234567-89ab-cdef-0123-456789abcdef".

Lemma plain_digest_bytes s : Forall is_byte (plain_digest s).
Proof.
  apply Forall_fmap, Forall_forall. intros c _. unfold is_byte. simpl. pose proof (N_ascii_bounded c). lia.
Qed.

Lemma plain_digest_inj a b : plain_digest a = plain_digest b -> a = b.
Proof.
  revert b. induction a as [|c a IH]; intros [|d b] He; try done. unfold plain_digest in *. simpl in He.
  injection He as Hc Ht. rewrite (IH b Ht). f_equal.
  rewrite <-(ascii_N_embedding c), <-(ascii_N_embedding d). f_equal. lia.
Qed.

Lemma sample_uuid_ok : is_uuid sample_uuid.
Proof. by split. Qed.

Definition sample_info (p : string) : RemoteFileCachePathInfo :=
  match BuildRemoteFileCachePathInfo plain_digest ["/c"; "/d"]%string p with
  | Ok info => info | Throw _ => MkPathInfo 0 "" "" "" end.

Lemma block_paths_distinct_witness :
  exists dest dest',
    ResolveLocalCacheDestination plain_digest sample_uuid (cache_directory (sample_info "s3://b/x"))
      (cache_filepath (GetLocalCacheFile (sample_info "s3://b/x") 0 4)) "s3://b/x" = Ok dest /\
    ResolveLocalCacheDestination plain_digest sample_uuid (cache_directory (sample_info "s3://b/y"))
      (cache_filepath (GetLocalCacheFile (sample_info "s3://b/y") 4 4)) "s3://b/y" = Ok dest' /\
    (dest_local_filepath dest = dest_local_filepath dest' -> "s3://b/x"%string = "s3://b/y"%string /\ 0 = 4 /\ 4 = 4) /\
    temp_local_filepath dest <> dest_local_filepath dest'.
Proof.
  apply (block_paths_distinct plain_digest ["/c"; "/d"]%string (fun _ => True));
    [apply plain_digest_bytes|intros a b _ _; apply plain_digest_inj|done|done|vm_compute; reflexivity|
     vm_compute; reflexivity|unfold is_u64; lia|unfold is_u64; lia|unfold is_u64; lia|unfold is_u64; lia|
     apply sample_uuid_ok|apply sample_uuid_ok].
Defined.
