(* ===== verification/PolicyStorage.v ===== *)
(** * PolicyStorage

    [PolicyDataCacheStorage] ([src/src/policy_data_cache_storage.cpp]): the backend
    bounded by bytes, whose replacement decision is a policy of [Policy], optionally
    partitioned into groups by substrings of the file path.  The operations are generic
    in the policy, of which they use the interface only. *)
From S2P Require Import Prelude CppString Blocks DataStorage Policy.
From Stdlib Require Import Strings.Ascii.
From Stdlib Require QArith.QArith_base QArith.Qround.

#[local] Open Scope Z_scope.

(** ** Data *)
Record SpecEntry := MkSpecEntry { s_pattern : string; s_policy : string; s_bytes : Z }.

(** The [Entry] of the storage; [inserted_at] in milliseconds of the steady clock. *)
Record PEntry := MkPEntry { p_data : InMemCacheDataEntry; p_bytes : Z; inserted_at : Z }.

Record Group (P : Type) := MkGroup {
  g_name : string;
  g_pattern : string;
  g_policy : P;
  bounded : bool;
  capacity_bytes : Z;
  used_bytes : Z;
  entries : gmap InMemCacheBlock PEntry;
  hits : Z;
  misses : Z;
  evictions : Z;
  bytes_admitted : Z;
  bytes_evicted : Z;
  min_entry_bytes : Z;
  max_entry_bytes : Z
}.
Arguments MkGroup {_}.
Arguments g_name {_}.
Arguments g_pattern {_}.
Arguments g_policy {_}.
Arguments bounded {_}.
Arguments capacity_bytes {_}.
Arguments used_bytes {_}.
Arguments entries {_}.
Arguments hits {_}.
Arguments misses {_}.
Arguments evictions {_}.
Arguments bytes_admitted {_}.
Arguments bytes_evicted {_}.
Arguments min_entry_bytes {_}.
Arguments max_entry_bytes {_}.

(** [group_by_file] memoises the position of a file's group. *)
Record storage (P : Type) := MkStorage {
  groups : list (Group P);
  group_by_file : gmap string nat;
  max_bytes : Z;
  timeout_millisec : Z
}.
Arguments MkStorage {_}.
Arguments groups {_}.
Arguments group_by_file {_}.
Arguments max_bytes {_}.
Arguments timeout_millisec {_}.

Record PolicyGroupStats := MkGroupStats {
  st_group : string;
  st_policy : string;
  st_capacity_bytes : Z;
  st_used_bytes : Z;
  st_entry_count : Z;
  st_hits : Z;
  st_misses : Z;
  st_evictions : Z;
  st_bytes_admitted : Z;
  st_bytes_evicted : Z;
  st_min_entry_bytes : Z;
  st_max_entry_bytes : Z
}.

(** ** The policy specification

    [StringUtil::Split] and [StringUtil::Trim] are DuckDB's; [stod] is the C library's,
    [None] when it throws, and [rnd] rounds to the nearest [double]. *)
Module Spec.
Section Parse.
Import QArith.QArith_base.
Variable Split : string -> ascii -> list string.
Variable Trimmed : string -> string.
Variable stod : string -> option double.
Variable rnd : Q -> Q.

(** [static_cast<idx_t>]: undefined outside the range of the type. *)
Definition double_to_idx (d : double) : Res Z :=
  match d with
  | Finite q =>
      let n := Qround.Qfloor q in
      if decide ((0 <= n < two64)%Z) then Ok n else Throw UndefinedBehaviour
  | _ => Throw UndefinedBehaviour
  end.

(** [percent <= 0.0 || percent > 100.0]; both comparisons are false on a NaN. *)
Definition percent_rejected (d : double) : bool :=
  match d with
  | Finite q => Qle_bool q 0 || negb (Qle_bool q 100)
  | NaN => false
  | Infinity _ => true
  end.

Definition percent_of (budget : Z) (d : double) : double :=
  match d with
  | Finite q => Finite (rnd (rnd (rnd (inject_Z budget) * q) / 100))
  | other => other
  end.

Definition parse_size (size_str : string) (budget : Z) : Res Z :=
  let is_percent := match str_back size_str with Some c => Ascii.eqb c "%" | None => false end in
  if is_percent then
    match stod (substr_to (String.length size_str - 1) size_str) with
    | None => Throw InvalidInputException
    | Some percent =>
        if percent_rejected percent then Throw InvalidInputException
        else double_to_idx (percent_of budget percent)
    end
  else of_option InvalidInputException (stoull size_str).

(** One part of the specification, trimmed and not empty. *)
Definition ParseEntry (budget : Z) (trimmed : string) : Res SpecEntry :=
  match find_char trimmed "=" with
  | None => Throw InvalidInputException
  | Some eq =>
      let pattern := Trimmed (substr_to eq trimmed) in
      let rhs := Trimmed (substr_from (eq + 1) trimmed) in
      sized ← match find_char rhs ":" with
        | None => Ok (rhs, 0%Z)
        | Some colon =>
            let size_str := Trimmed (substr_from (colon + 1) rhs) in
            bytes ← parse_size size_str budget;
            if (bytes =? 0)%Z then Throw InvalidInputException
            else Ok (Trimmed (substr_to colon rhs), bytes)
        end;
      if String.eqb pattern "" then Throw InvalidInputException
      else if negb (IsValidEvictionPolicy sized.1) then Throw InvalidInputException
      else Ok (MkSpecEntry pattern sized.1 sized.2)
  end.

Fixpoint parse_parts (budget : Z) (parts : list string) : Res (list SpecEntry) :=
  match parts with
  | [] => Ok []
  | part :: parts =>
      let trimmed := Trimmed part in
      if String.eqb trimmed "" then parse_parts budget parts
      else
        entry ← ParseEntry budget trimmed;
        rest ← parse_parts budget parts;
        Ok (entry :: rest)
  end.

Definition ParseFilePolicySpec (spec : string) (budget : Z) : Res (list SpecEntry) :=
  if String.eqb spec "" then Ok [] else parse_parts budget (Split spec ";").
End Parse.
End Spec.

(** ** Construction *)
Definition explicit_budget (spec : list SpecEntry) : Z :=
  foldl (fun total e => if 0 <? s_bytes e then total +u s_bytes e else total) 0 spec.

Definition unsized_groups (spec : list SpecEntry) : Z :=
  foldl (fun n e => if 0 <? s_bytes e then n else n +u 1) 1 spec.

Definition new_group {P} (name pattern : string) (p : P) (limited : bool) (capacity : Z) : Group P :=
  MkGroup name pattern p limited capacity 0 ∅ 0 0 0 0 0 0 0.

Fixpoint build_groups (limited : bool) (share : Z) (spec : list SpecEntry) : Res (list (Group policy)) :=
  match spec with
  | [] => Ok []
  | e :: spec =>
      p ← CreateEvictionPolicy (s_policy e);
      rest ← build_groups limited share spec;
      Ok (new_group (s_pattern e) (s_pattern e) p limited (if 0 <? s_bytes e then s_bytes e else share) :: rest)
  end.

(** The constructor after the specification is parsed. *)
Definition BuildStorage (budget timeout : Z) (default_policy : string) (spec : list SpecEntry) :
    Res (storage policy) :=
  let explicit_bytes := explicit_budget spec in
  if (0 <? budget) && (budget <? explicit_bytes) then Throw InvalidInputException
  else
    let share := if budget =? 0 then 0 else (budget -u explicit_bytes) / unsized_groups spec in
    let limited := 0 <? budget in
    sized ← build_groups limited share spec;
    p ← CreateEvictionPolicy default_policy;
    let fallback := new_group (match spec with [] => "global" | _ => "default" end)%string ""%string p limited share in
    Ok (MkStorage (sized ++ [fallback]) ∅ budget timeout).

(** The constructor; [parse] is [ParseFilePolicySpec]. *)
Definition NewStorage (parse : string -> Z -> Res (list SpecEntry))
    (budget timeout : Z) (default_policy file_policy_spec : string) (per_file_scope : bool) :
    Res (storage policy) :=
  if negb (IsValidEvictionPolicy default_policy) then Throw InvalidInputException
  else
    spec ← (if per_file_scope then parse file_policy_spec budget else Ok []);
    BuildStorage budget timeout default_policy spec.

(** ** Operations *)
Section Operations.
Context {P : Type} `{EvictionPolicy P}.
Implicit Types (g : Group P) (s : storage P) (key : InMemCacheBlock).

(** The first group whose pattern occurs in the path, else the last one. *)
Fixpoint match_group (fname : string) (pos : nat) (gs : list (Group P)) (chosen : nat) : nat :=
  match gs with
  | [] => chosen
  | g :: gs =>
      if negb (String.eqb (g_pattern g) "") && contains fname (g_pattern g) then pos
      else match_group fname (S pos) gs chosen
  end.

Definition choose (gs : list (Group P)) (fname : string) : nat :=
  match_group fname 0 gs (length gs - 1).

Definition GroupFor (fname : string) (s : storage P) : nat * storage P :=
  match group_by_file s !! fname with
  | Some i => (i, s)
  | None =>
      let chosen := choose (groups s) fname in
      (chosen, MkStorage (groups s) (<[fname := chosen]> (group_by_file s)) (max_bytes s) (timeout_millisec s))
  end.

Definition set_groups (gs : list (Group P)) (s : storage P) : storage P :=
  MkStorage gs (group_by_file s) (max_bytes s) (timeout_millisec s).
Definition set_group (i : nat) (g : Group P) (s : storage P) : storage P := set_groups (<[i := g]> (groups s)) s.

Definition Expired (now : Z) (s : storage P) (entry : PEntry) : bool :=
  if timeout_millisec s =? 0 then false else timeout_millisec s <=? u64 (now - inserted_at entry).

(** A group with other contents, keeping its counters. *)
Definition with_contents (g : Group P) (p : P) (used : Z) (es : gmap InMemCacheBlock PEntry) : Group P :=
  MkGroup (g_name g) (g_pattern g) p (bounded g) (capacity_bytes g) used es (hits g) (misses g) (evictions g)
    (bytes_admitted g) (bytes_evicted g) (min_entry_bytes g) (max_entry_bytes g).

(** [used_bytes -= bytes], [entries.erase], [policy->OnErase]. *)
Definition drop_entry (key : InMemCacheBlock) (e : PEntry) (g : Group P) : Group P :=
  with_contents g (OnErase key (g_policy g)) (used_bytes g -u p_bytes e) (delete key (entries g)).

Definition count_hit (g : Group P) : Group P :=
  MkGroup (g_name g) (g_pattern g) (g_policy g) (bounded g) (capacity_bytes g) (used_bytes g) (entries g)
    (hits g +u 1) (misses g) (evictions g) (bytes_admitted g) (bytes_evicted g) (min_entry_bytes g)
    (max_entry_bytes g).
Definition count_miss (g : Group P) : Group P :=
  MkGroup (g_name g) (g_pattern g) (g_policy g) (bounded g) (capacity_bytes g) (used_bytes g) (entries g)
    (hits g) (misses g +u 1) (evictions g) (bytes_admitted g) (bytes_evicted g) (min_entry_bytes g)
    (max_entry_bytes g).

(** The victim leaves the entries; the policy has already dropped it. *)
Definition evict_entry (victim : InMemCacheBlock) (e : PEntry) (p : P) (g : Group P) : Group P :=
  MkGroup (g_name g) (g_pattern g) p (bounded g) (capacity_bytes g) (used_bytes g -u p_bytes e)
    (delete victim (entries g)) (hits g) (misses g) (evictions g +u 1) (bytes_admitted g)
    (bytes_evicted g +u p_bytes e) (min_entry_bytes g) (max_entry_bytes g).

(** The loop of [EvictToFit]; [None] when [fuel] turns are not enough. *)
Fixpoint evict_loop (fuel : nat) (needed : Z) (g : Group P) : option (Group P) :=
  if negb (capacity_bytes g <? used_bytes g +u needed) then Some g
  else
    match fuel with
    | O => None
    | S fuel =>
        match PopVictim (g_policy g) with
        | (None, p) => Some (with_contents g p (used_bytes g) (entries g))
        | (Some victim, p) =>
            match entries g !! victim with
            | None => evict_loop fuel needed (with_contents g p (used_bytes g) (entries g))
            | Some e => evict_loop fuel needed (evict_entry victim e p g)
            end
        end
    end.

Definition EvictToFit (fuel : nat) (needed : Z) (g : Group P) : option (Group P) :=
  if negb (bounded g) then Some g else evict_loop fuel needed g.

(** [entries[key] = entry] and the counters of an admission. *)
Definition admit_entry (key : InMemCacheBlock) (e : PEntry) (g : Group P) : Group P :=
  let bytes := p_bytes e in
  MkGroup (g_name g) (g_pattern g) (OnInsert key bytes (g_policy g)) (bounded g) (capacity_bytes g)
    (used_bytes g +u bytes) (<[key := e]> (entries g)) (hits g) (misses g) (evictions g)
    (bytes_admitted g +u bytes) (bytes_evicted g)
    (if min_entry_bytes g =? 0 then bytes else Z.min (min_entry_bytes g) bytes)
    (Z.max (max_entry_bytes g) bytes).

Definition chunk_bytes (chunk : PageAlignedDataChunk) : Z :=
  u64 (if 0 <? c_capacity chunk then c_capacity chunk else c_length chunk).

(** [Put] on the group of the key.  The loop of [EvictToFit] gets one turn per entry
    and one to stop; a loop that needs more would not end, which is undefined. *)
Definition put_group (now : Z) (key : InMemCacheBlock) (chunk : PageAlignedDataChunk) (tag : string)
    (g : Group P) : Res (Group P) :=
  let bytes := chunk_bytes chunk in
  if negb (Admit bytes (g_policy g)) then Ok g
  else if bounded g && (capacity_bytes g <? bytes) then Ok g
  else
    let g := match entries g !! key with Some existing => drop_entry key existing g | None => g end in
    g ← of_option UndefinedBehaviour (EvictToFit (S (size (entries g))) bytes g);
    Ok (admit_entry key (MkPEntry (MkEntry chunk tag) bytes now) g).

Definition Put (now : Z) (key : InMemCacheBlock) (chunk : PageAlignedDataChunk) (tag : string)
    (s : storage P) : Res (storage P) :=
  let '(i, s) := GroupFor (fname key) s in
  g ← of_option UndefinedBehaviour (groups s !! i);
  g' ← put_group now key chunk tag g;
  Ok (set_group i g' s).

Definition get_group (expired : PEntry -> bool) (key : InMemCacheBlock) (expected_version_tag : string)
    (g : Group P) : option PageAlignedDataChunk * Group P :=
  match entries g !! key with
  | None => (None, count_miss g)
  | Some e =>
      if expired e || negb (ValidateVersionTag (version_tag (p_data e)) expected_version_tag) then
        (None, count_miss (drop_entry key e g))
      else
        let g := count_hit g in
        (Some (entry_data (p_data e)), with_contents g (OnHit key (g_policy g)) (used_bytes g) (entries g))
  end.

Definition Get (now : Z) (key : InMemCacheBlock) (expected_version_tag : string) (s : storage P) :
    option PageAlignedDataChunk * storage P :=
  let '(i, s) := GroupFor (fname key) s in
  match groups s !! i with
  | None => (None, s) (* [GroupFor] answers a position of [groups] *)
  | Some g => let '(r, g') := get_group (Expired now s) key expected_version_tag g in (r, set_group i g' s)
  end.

Definition delete_group (key : InMemCacheBlock) (g : Group P) : bool * Group P :=
  match entries g !! key with
  | None => (false, g)
  | Some e => (true, drop_entry key e g)
  end.

Definition Delete (key : InMemCacheBlock) (s : storage P) : bool * storage P :=
  let '(i, s) := GroupFor (fname key) s in
  match groups s !! i with
  | None => (false, s)
  | Some g => let '(b, g') := delete_group key g in (b, set_group i g' s)
  end.

Definition clear_group (g : Group P) : Group P := with_contents g (ClearPolicy (g_policy g)) 0 ∅.

Definition Clear (s : storage P) : storage P := set_groups (clear_group <$> groups s) s.

(** [Clear (start_key, filter)]: the filter over every entry. *)
Definition filter_entry (filter : InMemCacheBlock -> bool) (g : Group P) (kv : InMemCacheBlock * PEntry) : Group P :=
  if filter kv.1 then drop_entry kv.1 kv.2 g else g.
Definition filter_group (filter : InMemCacheBlock -> bool) (g : Group P) : Group P :=
  foldl (filter_entry filter) g (map_to_list (entries g)).

Definition ClearFrom (start_key : InMemCacheBlock) (filter : InMemCacheBlock -> bool) (s : storage P) : storage P :=
  set_groups (filter_group filter <$> groups s) s.

Definition Keys (s : storage P) : list InMemCacheBlock :=
  mjoin ((fun g => fst <$> map_to_list (entries g)) <$> groups s).

Definition taken_of (g : Group P) : list (InMemCacheBlock * InMemCacheDataEntry) :=
  (fun kv => (kv.1, p_data kv.2)) <$> map_to_list (entries g).

Definition Take (clock : nat -> Z) (s : storage P) :
    Res (list (InMemCacheBlock * InMemCacheDataEntry)) * storage P :=
  (Ok (mjoin (taken_of <$> groups s)), set_groups (clear_group <$> groups s) s).

Definition stats_row (g : Group P) : PolicyGroupStats :=
  MkGroupStats (g_name g) (GetName (g_policy g)) (capacity_bytes g) (used_bytes g)
    (Z.of_nat (size (entries g))) (hits g) (misses g) (evictions g) (bytes_admitted g) (bytes_evicted g)
    (min_entry_bytes g) (max_entry_bytes g).

Definition GetStats (s : storage P) : list PolicyGroupStats := stats_row <$> groups s.
End Operations.

#[export] Instance policy_storage {P} `{EvictionPolicy P} : InMemoryDataCacheStorage (storage P) := {
  DataStorage.Put := Put;
  DataStorage.Get := Get;
  DataStorage.Delete := Delete;
  DataStorage.Clear := Clear;
  DataStorage.ClearFrom := ClearFrom;
  DataStorage.Keys := Keys;
  DataStorage.Take := Take
}.
