(* ===== verification/PolicyStorageProofs.v ===== *)
(** * PolicyStorageProofs

    The byte-bounded storage of [PolicyStorage] keeps every group within its budget, with
    its accounting equal to the bytes it holds and its policy tracking exactly its
    entries, for any policy that keeps the laws of [Policy]; it discharges the laws of
    [DataStorage], so the in-memory reader is correct on top of it. *)
From S2P Require Import Prelude CppString Blocks DataStorage Policy PolicyProofs PolicyStorage.

#[local] Open Scope Z_scope.

(** ** Accounting *)
Definition total (m : gmap InMemCacheBlock PEntry) : Z := sum_Z ((fun kv => p_bytes kv.2) <$> map_to_list m).

Lemma total_empty : total ∅ = 0.
Proof. unfold total. by rewrite map_to_list_empty. Qed.

Lemma total_insert k e m : m !! k = None -> total (<[k := e]> m) = p_bytes e + total m.
Proof. intros Hk. unfold total. by rewrite map_to_list_insert. Qed.

Lemma total_delete k e m : m !! k = Some e -> total m = p_bytes e + total (delete k m).
Proof.
  intros Hk. rewrite <-(insert_delete_id m k e) at 1 by done. by rewrite total_insert by apply lookup_delete_eq.
Qed.

Definition bytes_ok (m : gmap InMemCacheBlock PEntry) : Prop := forall k e, m !! k = Some e -> is_u64 (p_bytes e).

Lemma total_nonneg m : bytes_ok m -> 0 <= total m.
Proof.
  intros Hm. apply sum_Z_nonneg, Forall_fmap, Forall_forall. intros [k e] Hin%elem_of_map_to_list.
  apply Hm in Hin as []. done.
Qed.

Lemma bytes_ok_delete k m : bytes_ok m -> bytes_ok (delete k m).
Proof. intros Hm k' e [_ He]%lookup_delete_Some. eauto. Qed.

Lemma bytes_ok_insert k e m : bytes_ok m -> is_u64 (p_bytes e) -> bytes_ok (<[k := e]> m).
Proof. intros Hm He k' e' [[_ <-]|[_ Hk]]%lookup_insert_Some; eauto. Qed.

(** ** Groups *)
Section Groups.
Context {P : Type} `{EP : EvictionPolicy P} `{PL : !PolicyLaws P}.
Implicit Types (g : Group P) (s : storage P) (k : InMemCacheBlock).

(** [2^63] keeps [used_bytes + needed] from wrapping around. *)
Definition group_ok g : Prop :=
  policy_ok (g_policy g) /\
  (forall k, k ∈ tracked (g_policy g) <-> is_Some (entries g !! k)) /\
  used_bytes g = u64 (total (entries g)) /\
  bytes_ok (entries g) /\
  (bounded g = true -> total (entries g) <= capacity_bytes g < 9223372036854775808).

Definition same_shape g g' : Prop :=
  g_name g' = g_name g /\ g_pattern g' = g_pattern g /\ bounded g' = bounded g /\
  capacity_bytes g' = capacity_bytes g.

Lemma same_shape_trans g1 g2 g3 : same_shape g1 g2 -> same_shape g2 g3 -> same_shape g1 g3.
Proof. unfold same_shape. intuition congruence. Qed.

Lemma in_perm {A} (l l' : list A) x : l ≡ₚ l' -> x ∈ l <-> x ∈ l'.
Proof. by intros ->. Qed.

Lemma is_Some_delete_iff {A} (m : gmap InMemCacheBlock A) k k' :
  is_Some (delete k m !! k') <-> k' <> k /\ is_Some (m !! k').
Proof.
  destruct (decide (k' = k)) as [->|Hne].
  - rewrite lookup_delete_eq. split; [intros [? [=]]|tauto].
  - rewrite lookup_delete_ne by done. tauto.
Qed.

Lemma drop_entry_ok k e g : group_ok g -> entries g !! k = Some e -> group_ok (drop_entry k e g).
Proof.
  intros (Hp & Ht & Hu & Hb & Hc) Hk. destruct (OnErase_law k (g_policy g) Hp) as [Hp' Ht'].
  pose proof (total_delete _ _ _ Hk) as Htot. pose proof (total_nonneg _ (bytes_ok_delete k _ Hb)).
  split; [done|]. split; [|split; [|split]]; simpl.
  - intros k'. rewrite (in_perm _ _ _ Ht'), elem_of_without, Ht, is_Some_delete_iff. done.
  - rewrite Hu, u64_sub_l. f_equal. lia.
  - by apply bytes_ok_delete.
  - intros Hbd. specialize (Hc Hbd). apply Hb in Hk as []. lia.
Qed.

Lemma tracked_victim g k p :
  group_ok g -> PopVictim (g_policy g) = (Some k, p) ->
  exists e, entries g !! k = Some e /\ group_ok (evict_entry k e p g).
Proof.
  intros (Hp & Ht & Hu & Hb & Hc) Hv. pose proof (PopVictim_law _ Hp) as Hl. rewrite Hv in Hl.
  destruct Hl as [Hp' Hperm]. pose proof (tracked_NoDup _ Hp) as Hnd. rewrite Hperm in Hnd.
  apply NoDup_cons in Hnd as [Hni _].
  assert (is_Some (entries g !! k)) as [e He] by (apply Ht; rewrite Hperm; constructor).
  exists e. split; [done|]. pose proof (total_delete _ _ _ He) as Htot.
  pose proof (total_nonneg _ (bytes_ok_delete k _ Hb)).
  split; [done|]. split; [|split; [|split]]; simpl.
  - intros k'. rewrite is_Some_delete_iff, <-Ht, Hperm, elem_of_cons. split; [|tauto].
    intros Hin. split; [congruence|by right].
  - rewrite Hu, u64_sub_l. f_equal. lia.
  - by apply bytes_ok_delete.
  - intros Hbd. specialize (Hc Hbd). apply Hb in He as []. lia.
Qed.

Lemma no_victim g p : group_ok g -> PopVictim (g_policy g) = (None, p) -> entries g = ∅.
Proof.
  intros (Hp & Ht & _) Hv. pose proof (PopVictim_law _ Hp) as Hl. rewrite Hv in Hl.
  destruct Hl as (_ & He & _). apply map_empty. intros k. apply eq_None_not_Some.
  rewrite <-Ht, He. intros Hin. inversion Hin.
Qed.

(** The loop ends with room for [needed], having only removed entries. *)
Lemma evict_loop_ok fuel needed g :
  group_ok g -> bounded g = true -> 0 <= needed <= capacity_bytes g -> (size (entries g) < fuel)%nat ->
  exists g', evict_loop fuel needed g = Some g' /\ group_ok g' /\ same_shape g g' /\
    entries g' ⊆ entries g /\ total (entries g') + needed <= capacity_bytes g.
Proof.
  revert g. induction fuel as [|fuel IH]; intros g Hg Hbd Hn Hf; [lia|].
  pose proof Hg as (Hp & Ht & Hu & Hb & Hc). specialize (Hc Hbd).
  pose proof (total_nonneg _ Hb) as H0. simpl.
  assert (used_bytes g +u needed = total (entries g) + needed) as Hw.
  { rewrite Hu. rewrite (u64_small (total _)) by lia. rewrite u64_small; lia. }
  rewrite Hw. destruct (Z.ltb_spec (capacity_bytes g) (total (entries g) + needed)); simpl.
  - destruct (PopVictim (g_policy g)) as [[k|] p] eqn:Hv.
    + destruct (tracked_victim g k p Hg Hv) as (e & He & Hg'). rewrite He.
      destruct (IH (evict_entry k e p g) Hg' Hbd Hn) as (g' & Hl & Hok & Hs & Hsub & Htot).
      { simpl. pose proof (map_size_ne_0_lookup_2 (entries g) k ltac:(eauto)).
        rewrite map_size_delete_Some by eauto. lia. }
      exists g'. split; [done|]. split; [done|]. split; [done|]. split; [|done].
      etransitivity; [done|]. apply delete_subseteq.
    + rewrite (no_victim _ _ Hg Hv), total_empty in *. lia.
  - exists g. split; [done|]. split; [done|]. split; [done|]. split; [done|]. lia.
Qed.

Lemma same_shape_refl g : same_shape g g.
Proof. done. Qed.

Lemma admit_entry_ok k e g :
  group_ok g -> entries g !! k = None -> is_u64 (p_bytes e) ->
  (bounded g = true -> total (entries g) + p_bytes e <= capacity_bytes g) ->
  group_ok (admit_entry k e g).
Proof.
  intros (Hp & Ht & Hu & Hb & Hc) Hk He Hroom. destruct (OnInsert_law k (p_bytes e) (g_policy g) Hp) as [Hp' Ht'].
  split; [done|]. split; [|split; [|split]]; simpl.
  - intros k'. rewrite (in_perm _ _ _ Ht'), decide_False, elem_of_cons, Ht.
    + destruct (decide (k' = k)) as [->|Hne]; [rewrite lookup_insert_eq; split; eauto|].
      rewrite lookup_insert_ne by done. tauto.
    + rewrite Ht, Hk. by intros [].
  - rewrite Hu, u64_add_l, total_insert by done. f_equal. lia.
  - by apply bytes_ok_insert.
  - intros Hbd. rewrite total_insert by done. specialize (Hc Hbd). specialize (Hroom Hbd). lia.
Qed.

Lemma EvictToFit_ok needed g :
  group_ok g -> (bounded g = true -> 0 <= needed <= capacity_bytes g) ->
  exists g', EvictToFit (S (size (entries g))) needed g = Some g' /\ group_ok g' /\ same_shape g g' /\
    entries g' ⊆ entries g /\ (bounded g = true -> total (entries g') + needed <= capacity_bytes g).
Proof.
  intros Hg Hn. unfold EvictToFit. destruct (bounded g) eqn:Hbd; simpl negb.
  - destruct (evict_loop_ok (S (size (entries g))) needed g Hg Hbd (Hn eq_refl)) as (g' & Hl & H1 & H2 & H3 & H4);
      [lia|]. by exists g'.
  - exists g. split; [done|]. split; [done|]. split; [done|]. by split.
Qed.

(** The group once the old entry of the key is gone. *)
Definition without_old k g : Group P :=
  match entries g !! k with Some existing => drop_entry k existing g | None => g end.

Lemma without_old_ok k g :
  group_ok g -> group_ok (without_old k g) /\ same_shape g (without_old k g) /\
  entries (without_old k g) = delete k (entries g).
Proof.
  intros Hg. unfold without_old. destruct (entries g !! k) as [e|] eqn:Hk.
  - split; [by apply drop_entry_ok|]. done.
  - split; [done|]. split; [done|]. by rewrite delete_id.
Qed.

Lemma chunk_bytes_u64 c : is_u64 (chunk_bytes c).
Proof. apply u64_range. Qed.

(** Whether the group takes the chunk, and what it holds afterwards. *)
Lemma put_group_ok now k c t g :
  group_ok g ->
  exists g', put_group now k c t g = Ok g' /\ group_ok g' /\ same_shape g g' /\
  if bounded g && (capacity_bytes g <? chunk_bytes c) then g' = g
  else entries g' !! k = Some (MkPEntry (MkEntry c t) (chunk_bytes c) now) /\
  delete k (entries g') ⊆ delete k (entries g).
Proof.
  intros Hg. unfold put_group. rewrite Admit_law by apply Hg. simpl negb.
  destruct (bounded g && (capacity_bytes g <? chunk_bytes c)) eqn:Hbig; [by exists g|].
  destruct (without_old_ok k g Hg) as (Hg1 & Hs1 & He1). fold (without_old k g).
  set (g1 := without_old k g) in *. clearbody g1.
  destruct (EvictToFit_ok (chunk_bytes c) g1 Hg1) as (g2 & Hl & Hg2 & Hs2 & Hsub & Hroom).
  { destruct Hs1 as (_ & _ & -> & ->). intros Hb. rewrite Hb in Hbig. simpl in Hbig. apply Z.ltb_ge in Hbig.
    pose proof (chunk_bytes_u64 c) as []. lia. }
  rewrite Hl. simpl. eexists. split; [done|]. set (e := MkPEntry _ _ _).
  assert (entries g2 !! k = None) as Hk.
  { apply eq_None_not_Some. intros [x Hx]. apply (lookup_weaken _ (entries g1)) in Hx; [|done].
    rewrite He1, lookup_delete_eq in Hx. done. }
  pose proof Hs1 as (_ & _ & Hb1 & Hc1). pose proof Hs2 as (_ & _ & Hb2 & Hc2).
  split; [|split; [|split]].
  - apply admit_entry_ok; [done..|apply chunk_bytes_u64|]. rewrite Hb2, Hc2. apply Hroom.
  - by eapply same_shape_trans.
  - simpl. apply lookup_insert_eq.
  - simpl. rewrite delete_insert_eq, delete_id by done. etransitivity; [done|]. by rewrite He1.
Qed.

Lemma count_ok (g g' : Group P) :
  g_policy g' = g_policy g -> bounded g' = bounded g -> capacity_bytes g' = capacity_bytes g ->
  used_bytes g' = used_bytes g -> entries g' = entries g -> group_ok g -> group_ok g'.
Proof. unfold group_ok. intros -> -> -> -> ->. done. Qed.

Lemma hit_touch_ok k g :
  group_ok g -> group_ok (with_contents g (OnHit k (g_policy g)) (used_bytes g) (entries g)).
Proof.
  intros (Hp & Ht & Hu & Hb & Hc). destruct (OnHit_law k (g_policy g) Hp) as [Hp' Ht'].
  split; [done|]. split; [|done]. simpl. intros k'. by rewrite (in_perm _ _ _ Ht').
Qed.

(** What [Get] answers and leaves. *)
Lemma get_group_ok expired k t g :
  group_ok g ->
  let '(r, g') := get_group expired k t g in
  group_ok g' /\ same_shape g g' /\
  match entries g !! k with
  | Some e =>
      if expired e || negb (ValidateVersionTag (version_tag (p_data e)) t)
      then r = None /\ entries g' = delete k (entries g)
      else r = Some (entry_data (p_data e)) /\ entries g' = entries g
  | None => r = None /\ entries g' = entries g
  end.
Proof.
  intros Hg. unfold get_group. destruct (entries g !! k) as [e|] eqn:Hk.
  - destruct (expired e || _).
    + split; [|done]. by apply (count_ok (drop_entry k e g)); [..|apply drop_entry_ok].
    + split; [|done]. apply hit_touch_ok. by apply (count_ok g).
  - split; [|done]. by apply (count_ok g).
Qed.

Lemma clear_group_ok g : group_ok g -> group_ok (clear_group g).
Proof.
  intros (Hp & Ht & Hu & Hb & Hc). pose proof (total_nonneg _ Hb). destruct (ClearPolicy_law (g_policy g) Hp) as [Hp' Ht'].
  split; [done|]. split; [|split; [|split]]; simpl.
  - intros k. rewrite Ht', lookup_empty. split; [intros Hin; inversion Hin|intros [? [=]]].
  - by rewrite total_empty.
  - intros k e. by rewrite lookup_empty.
  - intros Hbd. rewrite total_empty. specialize (Hc Hbd). lia.
Qed.

Lemma filter_group_ok filter g :
  group_ok g -> group_ok (filter_group filter g) /\ same_shape g (filter_group filter g) /\
  forall k e, entries (filter_group filter g) !! k = Some e <-> entries g !! k = Some e /\ filter k = false.
Proof.
  intros Hg. unfold filter_group.
  assert (forall l g0, NoDup l.*1 -> (forall k e, (k, e) ∈ l -> entries g0 !! k = Some e) -> group_ok g0 ->
    group_ok (foldl (filter_entry filter) g0 l) /\ same_shape g0 (foldl (filter_entry filter) g0 l) /\
    forall k e, entries (foldl (filter_entry filter) g0 l) !! k = Some e <->
                entries g0 !! k = Some e /\ (k ∈ l.*1 -> filter k = false)) as Hfold.
  { induction l as [|[k0 e0] l IH]; intros g0 Hnd Hin Hg0.
    { split; [done|]. split; [done|]. intros k e. split; [|by intros []]. intros He. split; [done|].
      intros Hk. inversion Hk. }
    rewrite fmap_cons in Hnd. apply NoDup_cons in Hnd as [Hni Hnd]. simpl foldl.
    assert (filter_entry filter g0 (k0, e0) = if filter k0 then drop_entry k0 e0 g0 else g0) as -> by done.
    rewrite fmap_cons.
    destruct (filter k0) eqn:Hf.
    - destruct (IH (drop_entry k0 e0 g0) Hnd) as (H1 & H2 & H3).
      + intros k e Hke. simpl. rewrite lookup_delete_ne; [apply Hin; by right|].
        intros ->. apply Hni. apply list_elem_of_fmap. by exists (k, e).
      + apply drop_entry_ok; [done|]. apply Hin. constructor.
      + split; [done|]. split; [done|]. intros k e. rewrite H3. simpl. rewrite lookup_delete_Some.
        rewrite elem_of_cons. simpl. split.
        * intros [[Hne He] Hfk]. split; [done|]. intros [->|]; [done|auto].
        * intros [He Hfk]. split; [|auto]. split; [|done]. intros ->. rewrite Hfk in Hf; [done|by left].
    - destruct (IH g0 Hnd) as (H1 & H2 & H3); [intros; apply Hin; by right|done|].
      split; [done|]. split; [done|]. intros k e. rewrite H3, elem_of_cons. simpl.
      split; intros [He Hfk]; (split; [done|]); [|auto]. intros [->|]; auto. }
  destruct (Hfold (map_to_list (entries g)) g) as (H1 & H2 & H3); [apply NoDup_fst_map_to_list| |done|].
  { intros k e. by rewrite elem_of_map_to_list. }
  split; [done|]. split; [done|]. intros k e. rewrite H3. split; intros [He Hf]; split; auto.
  apply Hf. apply list_elem_of_fmap. exists (k, e). by rewrite elem_of_map_to_list.
Qed.
End Groups.

(** ** The storage *)
Section Storage.
Context {P : Type} `{EP : EvictionPolicy P} `{PL : !PolicyLaws P}.
Implicit Types (g : Group P) (gs : list (Group P)) (s : storage P) (k : InMemCacheBlock).

(** Every file's blocks are in the group its path selects, and the memo agrees. *)
Definition store_ok s : Prop :=
  groups s <> [] /\
  (forall i g, groups s !! i = Some g -> group_ok g) /\
  (forall f i, group_by_file s !! f = Some i -> i = choose (groups s) f) /\
  (forall i g k, groups s !! i = Some g -> is_Some (entries g !! k) -> i = choose (groups s) (fname k)).

Definition store_holds s k (e : InMemCacheDataEntry) : Prop :=
  exists i g pe, groups s !! i = Some g /\ entries g !! k = Some pe /\ p_data pe = e.

Lemma choose_patterns gs gs' f : g_pattern <$> gs = g_pattern <$> gs' -> choose (P := P) gs f = choose gs' f.
Proof.
  intros Hp. unfold choose. assert (length gs = length gs') as ->.
  { by rewrite <-(length_fmap g_pattern gs), Hp, length_fmap. }
  generalize (length gs' - 1)%nat. generalize 0%nat. revert gs' Hp.
  induction gs as [|g gs IH]; intros [|g' gs'] Hp n m; [done..|].
  rewrite !fmap_cons in Hp. injection Hp as Hg Hp. simpl. rewrite Hg. case_match; [done|]. by apply IH.
Qed.

Lemma match_group_lt f n gs chosen : (chosen < n + length gs)%nat -> (match_group (P := P) f n gs chosen < n + length gs)%nat.
Proof.
  revert n. induction gs as [|g gs IH]; intros n Hc; simpl in *; [done|]. case_match; [lia|].
  specialize (IH (S n)). lia.
Qed.

Lemma choose_lookup gs f : gs <> [] -> is_Some (gs !! choose (P := P) gs f).
Proof.
  intros Hgs. apply lookup_lt_is_Some. unfold choose. apply (match_group_lt f 0 gs).
  destruct gs; simpl in *; [done|lia].
Qed.

(** [GroupFor] answers the selected group and changes nothing but the memo. *)
Lemma GroupFor_ok f s :
  store_ok s ->
  exists s' g, GroupFor f s = (choose (groups s) f, s') /\ store_ok s' /\ groups s' = groups s /\
    timeout_millisec s' = timeout_millisec s /\ max_bytes s' = max_bytes s /\
    groups s !! choose (groups s) f = Some g.
Proof.
  intros Hs. pose proof Hs as (Hne & Hg & Hm & Hpl). destruct (choose_lookup (groups s) f Hne) as [g Hgf].
  unfold GroupFor. destruct (group_by_file s !! f) as [i|] eqn:Hi.
  - apply Hm in Hi as ->. by exists s, g.
  - eexists _, g. split; [done|]. split; [|done]. split; [done|]. split; [done|]. split; [|done].
    simpl. intros f' i' [[<- <-]|[_ Hf]]%lookup_insert_Some; auto.
Qed.

Lemma set_group_ok i g g' s :
  store_ok s -> groups s !! i = Some g -> group_ok g' -> same_shape g g' ->
  (forall k, is_Some (entries g' !! k) -> is_Some (entries g !! k) \/ i = choose (groups s) (fname k)) ->
  store_ok (set_group i g' s).
Proof.
  intros (Hne & Hg & Hm & Hpl) Hi Hg' (_ & Hpat & _) Hk. unfold set_group, set_groups.
  assert (forall f, choose (<[i := g']> (groups s)) f = choose (groups s) f) as Hch.
  { intros f. apply choose_patterns. rewrite list_fmap_insert, list_insert_id; [done|].
    by rewrite list_lookup_fmap, Hi, Hpat. }
  split; [|split; [|split]]; simpl.
  - intros Hnil. apply (f_equal length) in Hnil. rewrite length_insert in Hnil. by destruct (groups s).
  - intros j h [(<- & <- & _)|[_ Hj]]%list_lookup_insert_Some; eauto.
  - intros f j. rewrite Hch. auto.
  - intros j h k Hj Hsome. rewrite Hch.
    apply list_lookup_insert_Some in Hj as [(<- & <- & _)|[_ Hj]]; [|eauto].
    destruct (Hk k Hsome); eauto.
Qed.

Lemma holds_set_group i g g' s k e :
  groups s !! i = Some g ->
  store_holds (set_group i g' s) k e <->
    (exists pe, entries g' !! k = Some pe /\ p_data pe = e) \/
    (exists j h pe, j <> i /\ groups s !! j = Some h /\ entries h !! k = Some pe /\ p_data pe = e).
Proof.
  intros Hi. pose proof (lookup_lt_Some _ _ _ Hi) as Hlt. split.
  - intros (j & h & pe & Hj & Hk & He). simpl in Hj.
    apply list_lookup_insert_Some in Hj as [(<- & <- & _)|[Hne Hj]]; [left; eauto|].
    right. exists j, h, pe. auto.
  - intros [(pe & Hk & He)|(j & h & pe & Hne & Hj & Hk & He)].
    + exists i, g', pe. simpl. by rewrite list_lookup_insert_eq.
    + exists j, h, pe. simpl. by rewrite list_lookup_insert_ne.
Qed.

(** An entry can only be in the selected group. *)
Lemma holds_chosen s k e g :
  store_ok s -> groups s !! choose (groups s) (fname k) = Some g ->
  store_holds s k e <-> exists pe, entries g !! k = Some pe /\ p_data pe = e.
Proof.
  intros (_ & _ & _ & Hpl) Hg. split.
  - intros (i & h & pe & Hi & Hk & He). assert (i = choose (groups s) (fname k)) as -> by eauto.
    simplify_eq. eauto.
  - intros (pe & Hk & He). eexists _, g, pe. eauto.
Qed.

Lemma holds_groups s s' k e : groups s' = groups s -> store_holds s' k e <-> store_holds s k e.
Proof. unfold store_holds. by intros ->. Qed.

Lemma store_holds_functional s k e e' : store_ok s -> store_holds s k e -> store_holds s k e' -> e = e'.
Proof.
  intros Hs He He'. pose proof Hs as (Hne & _). destruct (choose_lookup (groups s) (fname k) Hne) as [g Hg].
  apply (holds_chosen _ _ _ g Hs Hg) in He as (? & ? & <-), He' as (? & ? & <-). congruence.
Qed.

(** A change of the key's group only, whose other entries stay. *)
Lemma change_group i g g' s k :
  store_ok s -> i = choose (groups s) (fname k) -> groups s !! i = Some g -> group_ok g' -> same_shape g g' ->
  delete k (entries g') ⊆ delete k (entries g) ->
  store_ok (set_group i g' s) /\
  forall k' e, store_holds (set_group i g' s) k' e -> store_holds s k' e \/
    (k' = k /\ exists pe, entries g' !! k = Some pe /\ p_data pe = e).
Proof.
  intros Hs Hi Hg Hg' Hsh Hsub.
  assert (forall k' pe, k' <> k -> entries g' !! k' = Some pe -> entries g !! k' = Some pe) as Hkeep.
  { intros k' pe Hne Hk'. rewrite <-(lookup_delete_ne _ k) by done. eapply lookup_weaken; [|done].
    by rewrite lookup_delete_ne. }
  split.
  - eapply set_group_ok; [done..|]. intros k' [pe Hk']. destruct (decide (k' = k)) as [->|Hne]; [by right|left; eauto].
  - intros k' e [(pe & Hk' & He)|(j & h & pe & Hne & Hj & Hk' & He)]%(holds_set_group _ g); [| |done].
    + destruct (decide (k' = k)) as [->|Hne]; [right; eauto|left]. exists i, g, pe. auto.
    + left. exists j, h, pe. auto.
Qed.

Lemma Put_ok now k c t s :
  store_ok s ->
  exists s', Put now k c t s = Ok s' /\ store_ok s' /\
    forall k' e, store_holds s' k' e -> (k' = k /\ e = MkEntry c t) \/ store_holds s k' e.
Proof.
  intros Hs. unfold Put. destruct (GroupFor_ok (fname k) s Hs) as (s1 & g & -> & Hs1 & Hgs & _ & _ & Hg).
  rewrite Hgs, Hg. simpl. destruct (put_group_ok now k c t g) as (g' & -> & Hg' & Hsh & Hput);
    [destruct Hs as (_ & Hs & _); by eapply Hs|]. simpl. eexists. split; [done|].
  rewrite <-Hgs in Hg.
  assert (delete k (entries g') ⊆ delete k (entries g)) as Hsub.
  { case_match; [by subst|apply Hput]. }
  destruct (change_group (choose (groups s) (fname k)) g g' s1 k) as [H1 H2]; try done; [by rewrite Hgs|by rewrite Hgs in Hg; rewrite Hgs|].
  split; [done|]. intros k' e Hke. destruct (H2 k' e Hke) as [Hold|(-> & pe & Hpe & <-)].
  - right. by apply (holds_groups s s1).
  - case_match.
    + subst. right. apply (holds_groups s s1); [done|]. rewrite Hgs in Hg. eexists _, g, pe. rewrite Hgs. eauto.
    + left. destruct Hput as [Hput _]. simplify_eq. done.
Qed.

Lemma Get_ok now k t s r s' :
  store_ok s -> Get now k t s = (r, s') ->
  store_ok s' /\ (forall k' e, store_holds s' k' e -> store_holds s k' e) /\
  (forall c, r = Some c -> exists e, store_holds s k e /\ entry_data e = c /\
     ValidateVersionTag (version_tag e) t = true).
Proof.
  intros Hs Hget. unfold Get in Hget.
  destruct (GroupFor_ok (fname k) s Hs) as (s1 & g & He & Hs1 & Hgs & Hto & _ & Hg). rewrite He, Hgs, Hg in Hget.
  pose proof (get_group_ok (Expired now s1) k t g) as Hgg.
  destruct (get_group (Expired now s1) k t g) as [r0 g'] eqn:Heq. simplify_eq.
  destruct Hgg as (Hg' & Hsh & Hent); [destruct Hs as (_ & Hs & _); by eapply Hs|].
  assert (delete k (entries g') ⊆ delete k (entries g) /\ entries g' ⊆ entries g) as [Hsub Hsub'].
  { destruct (entries g !! k); [case_match|]; destruct Hent as [_ ->]; split; try done;
      [by rewrite delete_delete_eq|apply delete_subseteq]. }
  assert (groups s1 !! choose (groups s) (fname k) = Some g) as Hg1 by (by rewrite Hgs).
  assert (choose (groups s) (fname k) = choose (groups s1) (fname k)) as Hch by (by rewrite Hgs).
  destruct (change_group _ g g' s1 k Hs1 Hch Hg1 Hg' Hsh Hsub) as [H1 H2].
  split; [done|]. split.
  - intros k' e Hke. apply (holds_groups s s1); [done|].
    destruct (H2 k' e Hke) as [|(-> & pe & Hpe & <-)]; [done|]. eexists _, g, pe.
    split; [exact Hg1|]. split; [|done]. by eapply lookup_weaken.
  - intros c ->. destruct (entries g !! k) as [pe|] eqn:Hk; [|by destruct Hent].
    destruct (Expired now s1 pe || _) eqn:Hx; [by destruct Hent|]. destruct Hent as [[= ->] _].
    exists (p_data pe). split; [eexists _, g, pe; eauto|]. split; [done|].
    apply orb_false_iff in Hx as [_ Hx]. by apply negb_false_iff in Hx.
Qed.

Lemma Delete_ok k s b s' :
  store_ok s -> Delete k s = (b, s') ->
  store_ok s' /\ (b = true <-> exists e, store_holds s k e) /\
  (forall k' e, store_holds s' k' e <-> store_holds s k' e /\ k' <> k).
Proof.
  intros Hs Hdel. unfold Delete in Hdel.
  destruct (GroupFor_ok (fname k) s Hs) as (s1 & g & He & Hs1 & Hgs & _ & _ & Hg). rewrite He, Hgs, Hg in Hdel.
  assert (group_ok g) as Hgok by (destruct Hs as (_ & Hs & _); by eapply Hs).
  assert (groups s1 !! choose (groups s) (fname k) = Some g) as Hg1 by (by rewrite Hgs).
  assert (choose (groups s) (fname k) = choose (groups s1) (fname k)) as Hch by (by rewrite Hgs).
  assert (exists g', delete_group k g = (bool_decide (is_Some (entries g !! k)), g') /\ group_ok g' /\
    same_shape g g' /\ entries g' = delete k (entries g)) as (g' & Hd & Hg' & Hsh & Hent).
  { unfold delete_group. destruct (entries g !! k) as [e|] eqn:Hk.
    - eexists. split; [done|]. split; [by apply drop_entry_ok|done].
    - exists g. split; [done|]. split; [done|]. split; [done|]. by rewrite delete_id. }
  rewrite Hd in Hdel. simplify_eq. split; [|split].
  - apply (change_group _ g g' s1 k Hs1 Hch Hg1 Hg' Hsh). by rewrite Hent, delete_delete_eq.
  - rewrite bool_decide_eq_true. setoid_rewrite (holds_chosen s k _ g Hs Hg). split.
    + intros [pe Hpe]. eauto.
    + intros (e & pe & Hpe & _). eauto.
  - intros k' e. rewrite (holds_set_group _ g) by done. rewrite <-(holds_groups s s1) by done. split.
    + intros [(pe & Hk' & Hpe)|(j & h & pe & Hne & Hj & Hk' & Hpe)].
      * rewrite Hent in Hk'. apply lookup_delete_Some in Hk' as [Hne Hk']. split; [|done].
        eexists _, g, pe. eauto.
      * split; [exists j, h, pe; eauto|]. intros ->. apply Hne. destruct Hs1 as (_ & _ & _ & Hpl).
        rewrite Hch. by eapply Hpl; [|eauto].
    + intros [(j & h & pe & Hj & Hk' & Hpe) Hne].
      destruct (decide (j = choose (groups s) (fname k))) as [->|Hj'].
      * left. simplify_eq. exists pe. by rewrite Hent, lookup_delete_ne.
      * right. exists j, h, pe. eauto.
Qed.

(** An operation that treats every group alike. *)
Lemma map_groups_ok (f : Group P -> Group P) s :
  store_ok s ->
  (forall g, group_ok g -> group_ok (f g) /\ same_shape g (f g) /\
             forall k, is_Some (entries (f g) !! k) -> is_Some (entries g !! k)) ->
  store_ok (set_groups (f <$> groups s) s).
Proof.
  intros (Hne & Hg & Hm & Hpl) Hf.
  assert (forall fn, choose (f <$> groups s) fn = choose (groups s) fn) as Hch.
  { intros fn. apply choose_patterns. rewrite <-list_fmap_compose. apply list_fmap_ext.
    intros i g Hi. destruct (Hf g) as (_ & (_ & Hp & _) & _); [by eapply Hg|done]. }
  split; [|split; [|split]]; simpl.
  - by destruct (groups s).
  - intros i g. rewrite list_lookup_fmap. intros (g0 & Hi & ->)%fmap_Some. by apply Hf, (Hg i).
  - intros fn i. rewrite Hch. auto.
  - intros i g k. rewrite list_lookup_fmap, Hch. intros (g0 & Hi & ->)%fmap_Some Hk.
    eapply Hpl; [done|]. by apply Hf; [eapply Hg|].
Qed.

Lemma holds_map_groups (f : Group P -> Group P) s k e :
  store_holds (set_groups (f <$> groups s) s) k e <->
  exists i g pe, groups s !! i = Some g /\ entries (f g) !! k = Some pe /\ p_data pe = e.
Proof.
  split.
  - intros (i & g & pe & Hi & Hk & He). simpl in Hi. rewrite list_lookup_fmap in Hi.
    apply fmap_Some in Hi as (g0 & Hi & ->). eauto 6.
  - intros (i & g & pe & Hi & Hk & He). exists i, (f g), pe. simpl. rewrite list_lookup_fmap, Hi. eauto.
Qed.

Lemma Clear_ok s : store_ok s -> store_ok (Clear s) /\ forall k e, ~ store_holds (Clear s) k e.
Proof.
  intros Hs. split.
  - apply map_groups_ok; [done|]. intros g Hg. split; [by apply clear_group_ok|]. split; [done|].
    intros k. simpl. by rewrite lookup_empty.
  - intros k e Hh. apply (holds_map_groups clear_group) in Hh as (i & g & pe & _ & Hk & _). change ((∅ : gmap InMemCacheBlock PEntry) !! k = Some pe) in Hk. by rewrite lookup_empty in Hk.
Qed.

Lemma ClearFrom_ok start f s :
  store_ok s -> store_ok (ClearFrom start f s) /\
  forall k e, store_holds (ClearFrom start f s) k e <-> store_holds s k e /\ f k = false.
Proof.
  intros Hs. split.
  - apply map_groups_ok; [done|]. intros g Hg. destruct (filter_group_ok f g Hg) as (H1 & H2 & H3).
    split; [done|]. split; [done|]. intros k [e He]. apply H3 in He as []. eauto.
  - intros k e. unfold ClearFrom. rewrite holds_map_groups. destruct Hs as (_ & Hg & _). split.
    + intros (i & g & pe & Hi & Hk & He). apply (filter_group_ok f g (Hg i g Hi)) in Hk as [Hk Hf].
      split; [exists i, g, pe; auto|done].
    + intros [(i & g & pe & Hi & Hk & He) Hf]. exists i, g, pe. split; [done|]. split; [|done].
      by apply (filter_group_ok f g (Hg i g Hi)).
Qed.

Lemma Keys_ok s k : k ∈ Keys s <-> exists e, store_holds s k e.
Proof.
  unfold Keys. rewrite list_elem_of_join. split.
  - intros (l & Hk & Hl). apply list_elem_of_fmap in Hl as (g & -> & Hg).
    apply list_elem_of_lookup in Hg as [i Hi]. apply list_elem_of_fmap in Hk as ([k' e] & -> & Hk).
    apply elem_of_map_to_list in Hk. exists (p_data e), i, g, e. auto.
  - intros (e & i & g & pe & Hi & Hk & He). exists (fst <$> map_to_list (entries g)). split.
    + apply list_elem_of_fmap. exists (k, pe). by rewrite elem_of_map_to_list.
    + apply list_elem_of_fmap. exists g. split; [done|]. by eapply list_elem_of_lookup_2.
Qed.

Lemma taken_keys g : fst <$> taken_of g = fst <$> map_to_list (entries g).
Proof. unfold taken_of. rewrite <-list_fmap_compose. by apply list_fmap_ext. Qed.

Lemma elem_of_taken g k e : (k, e) ∈ taken_of g <-> exists pe, entries g !! k = Some pe /\ p_data pe = e.
Proof.
  unfold taken_of. rewrite list_elem_of_fmap. split.
  - intros ([k' pe] & [= -> ->] & Hin%elem_of_map_to_list). eauto.
  - intros (pe & Hk & <-). exists (k, pe). by rewrite elem_of_map_to_list.
Qed.

(** Groups with pairwise different keys. *)
Lemma NoDup_taken gs :
  (forall i j g h k, gs !! i = Some g -> gs !! j = Some h -> is_Some (entries g !! k) ->
     is_Some (entries h !! k) -> i = j) ->
  NoDup (fst <$> mjoin (taken_of <$> gs)).
Proof.
  induction gs as [|g gs IH]; intros Hd; [constructor|]. simpl. rewrite fmap_app. apply NoDup_app.
  split; [rewrite taken_keys; apply NoDup_fst_map_to_list|]. split.
  - intros k Hk Hk'. rewrite taken_keys in Hk. apply list_elem_of_fmap in Hk as ([k0 e] & -> & Hk).
    apply elem_of_map_to_list in Hk. apply list_elem_of_fmap in Hk' as ([k1 e'] & Heq & Hk'). simpl in *. subst k1.
    apply list_elem_of_join in Hk' as (l & Hin & Hl). apply list_elem_of_fmap in Hl as (h & -> & Hh).
    apply list_elem_of_lookup in Hh as [j Hj]. apply elem_of_taken in Hin as (pe & Hpe & _).
    pose proof (Hd 0%nat (S j) g h k0 eq_refl Hj) as Hz. specialize (Hz ltac:(eauto) ltac:(eauto)). done.
  - apply IH. intros i j g' h k Hi Hj H1 H2. pose proof (Hd (S i) (S j) g' h k Hi Hj H1 H2) as Heq. lia.
Qed.

Lemma Take_ok clock s :
  store_ok s ->
  exists r s', Take clock s = (Ok r, s') /\ store_ok s' /\ (forall k e, ~ store_holds s' k e) /\
    NoDup (fst <$> r) /\ forall k e, (k, e) ∈ r -> store_holds s k e.
Proof.
  intros Hs. destruct (Clear_ok s Hs) as [H1 H2]. eexists _, _. split; [done|]. split; [done|]. split; [done|].
  destruct Hs as (_ & _ & _ & Hpl). split.
  - apply NoDup_taken. intros i j g h k Hi Hj Hgk Hhk.
    by rewrite (Hpl i g k Hi Hgk), (Hpl j h k Hj Hhk).
  - intros k e (l & Hin & Hl)%list_elem_of_join. apply list_elem_of_fmap in Hl as (g & -> & Hg).
    apply list_elem_of_lookup in Hg as [i Hi]. apply elem_of_taken in Hin as (pe & Hk & He).
    exists i, g, pe. auto.
Qed.
End Storage.

#[export] Program Instance policy_storage_laws {P} `{EP : EvictionPolicy P} `{PL : !PolicyLaws P} :
    StorageLaws (storage P) := {|
  storage_ok := store_ok;
  holds := store_holds
|}.
Next Obligation. intros P EP PL. apply store_holds_functional. Qed.
Next Obligation.
  intros P EP PL now k c t s s' Hs _ Hp. destruct (Put_ok now k c t s Hs) as (s1 & Hp' & H1).
  simpl in Hp. rewrite Hp' in Hp. by simplify_eq.
Qed.
Next Obligation.
  intros P EP PL now k c t s Hs _ _. destruct (Put_ok now k c t s Hs) as (s1 & Hp' & _). by exists s1.
Qed.
Next Obligation. intros P EP PL. apply Get_ok. Qed.
Next Obligation.
  intros P EP PL k s b s' Hs Hd. destruct (Delete_ok k s b s' Hs Hd) as (H1 & H2 & H3).
  split; [done|]. split; [|done]. intros e He. apply H2. by exists e.
Qed.
Next Obligation. intros P EP PL. apply Clear_ok. Qed.
Next Obligation.
  intros P EP PL f s Hs. destruct (ClearFrom_ok (file_start_key f) (file_filter f) s Hs) as [H1 H2].
  split; [done|]. intros k e. simpl. rewrite H2. unfold file_filter. by rewrite String.eqb_neq.
Qed.
Next Obligation. intros P EP PL s k e _ He. apply Keys_ok. by exists e. Qed.
Next Obligation. intros P EP PL. apply Take_ok. Qed.

(** ** Budgets *)
Inductive storage_op :=
| OPut (now : Z) (k : InMemCacheBlock) (c : PageAlignedDataChunk) (t : string)
| OGet (now : Z) (k : InMemCacheBlock) (t : string)
| ODelete (k : InMemCacheBlock)
| OClear
| OClearFrom (start : InMemCacheBlock) (filter : InMemCacheBlock -> bool)
| OTake (clock : nat -> Z).

Section Budgets.
Context {P : Type} `{EP : EvictionPolicy P} `{PL : !PolicyLaws P}.
Implicit Types (g : Group P) (s : storage P).

Definition apply_op s (o : storage_op) : storage P :=
  match o with
  | OPut now k c t => match Put now k c t s with Ok s' => s' | Throw _ => s end
  | OGet now k t => (Get now k t s).2
  | ODelete k => (Delete k s).2
  | OClear => Clear s
  | OClearFrom start f => ClearFrom start f s
  | OTake clock => (Take clock s).2
  end.
Definition apply_ops (os : list storage_op) s : storage P := foldl apply_op s os.

Definition limits s : list (bool * Z) := (fun g => (bounded g, capacity_bytes g)) <$> groups s.

Lemma limits_set_group i g g' s :
  groups s !! i = Some g -> same_shape g g' -> limits (set_group i g' s) = limits s.
Proof.
  intros Hi (_ & _ & Hb & Hc). unfold limits, set_group. simpl. rewrite list_fmap_insert, list_insert_id; [done|].
  rewrite list_lookup_fmap, Hi. simpl. by rewrite Hb, Hc.
Qed.

Lemma limits_groups s s' : groups s' = groups s -> limits s' = limits s.
Proof. unfold limits. by intros ->. Qed.

Lemma limits_map (f : Group P -> Group P) s :
  (forall g, g ∈ groups s -> same_shape g (f g)) -> limits (set_groups (f <$> groups s) s) = limits s.
Proof.
  intros Hf. unfold limits. simpl. rewrite <-list_fmap_compose. apply list_fmap_ext. intros i g Hi. simpl.
  destruct (Hf g) as (_ & _ & -> & ->); [by eapply list_elem_of_lookup_2|done].
Qed.

Lemma apply_op_ok s o : store_ok s -> store_ok (apply_op s o) /\ limits (apply_op s o) = limits s.
Proof.
  intros Hs. assert (forall g, g ∈ groups s -> group_ok g) as Hgs.
  { intros g [i Hi]%list_elem_of_lookup. destruct Hs as (_ & Hs & _). eauto. }
  destruct o as [now k c t|now k t|k| |start f|clock]; simpl.
  - destruct (Put_ok now k c t s Hs) as (s' & Hp & Hs' & _). rewrite Hp. split; [done|]. unfold Put in Hp.
    destruct (GroupFor_ok (fname k) s Hs) as (s1 & g & He & Hs1 & Hg1 & _ & _ & Hg). rewrite He, Hg1, Hg in Hp.
    simpl in Hp. destruct (put_group_ok now k c t g) as (g' & Hpg & _ & Hsh & _);
      [by eapply Hgs, list_elem_of_lookup_2|]. rewrite Hpg in Hp. simplify_eq/=.
    rewrite (limits_set_group _ g); [by apply limits_groups|by rewrite Hg1|done].
  - destruct (Get now k t s) as [r s'] eqn:Hget. destruct (Get_ok now k t s r s' Hs Hget) as [Hs' _].
    split; [done|]. unfold Get in Hget.
    destruct (GroupFor_ok (fname k) s Hs) as (s1 & g & He & Hs1 & Hg1 & _ & _ & Hg). rewrite He, Hg1, Hg in Hget.
    pose proof (get_group_ok (Expired now s1) k t g) as Hgg. destruct (get_group _ k t g) as [r0 g'].
    destruct Hgg as (_ & Hsh & _); [by eapply Hgs, list_elem_of_lookup_2|]. simplify_eq/=.
    rewrite (limits_set_group _ g); [by apply limits_groups|by rewrite Hg1|done].
  - destruct (Delete k s) as [b s'] eqn:Hd. destruct (Delete_ok k s b s' Hs Hd) as [Hs' _].
    split; [done|]. unfold Delete in Hd.
    destruct (GroupFor_ok (fname k) s Hs) as (s1 & g & He & Hs1 & Hg1 & _ & _ & Hg). rewrite He, Hg1, Hg in Hd.
    assert (same_shape g (delete_group k g).2) as Hsh by (unfold delete_group; by destruct (entries g !! k)).
    destruct (delete_group k g) as [b0 g']. simplify_eq/=.
    rewrite (limits_set_group _ g); [by apply limits_groups|by rewrite Hg1|done].
  - split; [by apply Clear_ok|]. by apply limits_map.
  - split; [by apply ClearFrom_ok|]. apply limits_map. intros g Hg. by apply filter_group_ok, Hgs.
  - split; [by apply Clear_ok|]. by apply limits_map.
Qed.

Lemma apply_ops_ok os s : store_ok s -> store_ok (apply_ops os s) /\ limits (apply_ops os s) = limits s.
Proof.
  revert s. induction os as [|o os IH]; intros s Hs; [done|]. simpl.
  destruct (apply_op_ok s o Hs) as [H1 H2]. rewrite <-H2. by apply IH.
Qed.

(** The bytes resident in the whole storage. *)
Definition resident s : Z := sum_Z ((fun g => total (entries g)) <$> groups s).
Definition budgets s : Z := sum_Z (capacity_bytes <$> groups s).

Lemma resident_le s : store_ok s -> Forall (fun g => bounded g = true) (groups s) -> resident s <= budgets s.
Proof.
  intros (_ & Hg & _). unfold resident, budgets.
  assert (forall g, g ∈ groups s -> group_ok g) as Hok by (intros g [i Hi]%list_elem_of_lookup; eauto).
  clear Hg. induction (groups s) as [|g gs IH]; intros Hb; [done|]. rewrite !fmap_cons, !sum_Z_cons. apply Forall_cons in Hb as [Hb Hbs].
  destruct (Hok g ltac:(constructor)) as (_ & _ & _ & _ & Hc). specialize (Hc Hb).
  assert (forall h, h ∈ gs -> group_ok h) as Hok' by (intros; apply Hok; by right). specialize (IH Hok' Hbs). lia.
Qed.
End Budgets.

(** *** The shares of the constructor *)
Definition explicit_of (e : SpecEntry) : Z := if 0 <? s_bytes e then s_bytes e else 0.
Definition unsized_of (e : SpecEntry) : Z := if 0 <? s_bytes e then 0 else 1.

Lemma explicit_budget_sum spec : explicit_budget spec = u64 (sum_Z (explicit_of <$> spec)).
Proof.
  unfold explicit_budget. assert (forall acc, foldl (fun total e => if 0 <? s_bytes e then total +u s_bytes e else total)
    (u64 acc) spec = u64 (acc + sum_Z (explicit_of <$> spec))) as H.
  { induction spec as [|e spec IH]; intros acc; [simpl; f_equal; lia|].
    rewrite fmap_cons, sum_Z_cons. simpl foldl. unfold explicit_of at 1.
    destruct (0 <? s_bytes e).
    - rewrite u64_add_l, IH. f_equal. lia.
    - rewrite IH. f_equal. }
  apply (H 0).
Qed.

Lemma unsized_groups_sum spec :
  unsized_groups spec = u64 (1 + sum_Z (unsized_of <$> spec)).
Proof.
  unfold unsized_groups. assert (forall acc, foldl (fun n e => if 0 <? s_bytes e then n else n +u 1)
    (u64 acc) spec = u64 (acc + sum_Z (unsized_of <$> spec))) as H.
  { induction spec as [|e spec IH]; intros acc; [simpl; f_equal; lia|].
    rewrite fmap_cons, sum_Z_cons. simpl foldl. unfold unsized_of at 1.
    destruct (0 <? s_bytes e).
    - rewrite IH. f_equal.
    - rewrite u64_add_l, IH. f_equal. lia. }
  apply (H 1).
Qed.

Lemma unsized_range spec : 0 <= sum_Z (unsized_of <$> spec) <= Z.of_nat (length spec).
Proof. induction spec as [|e spec IH]; [simpl; lia|]. rewrite fmap_cons, sum_Z_cons. simpl length.
  unfold unsized_of at 1 3. destruct (0 <? s_bytes e); lia. Qed.

Lemma explicit_nonneg spec : 0 <= sum_Z (explicit_of <$> spec).
Proof. apply sum_Z_nonneg, Forall_fmap, Forall_forall. intros e _. unfold explicit_of. simpl. case_match; lia. Qed.

Lemma new_group_ok name pattern (p : policy) limited capacity :
  policy_ok p -> tracked p = [] -> 0 <= capacity < 9223372036854775808 ->
  group_ok (new_group name pattern p limited capacity).
Proof.
  intros Hp Ht Hc. split; [done|]. split; [|split; [|split]]; simpl.
  - intros k. simpl in Ht. rewrite Ht, lookup_empty. split; [intros Hin; inversion Hin|intros [? [=]]].
  - by rewrite total_empty.
  - intros k e. by rewrite lookup_empty.
  - rewrite total_empty. lia.
Qed.

Lemma new_group_unlimited name pattern (p : policy) capacity :
  policy_ok p -> tracked p = [] -> group_ok (new_group name pattern p false capacity).
Proof.
  intros Hp Ht. destruct (new_group_ok name pattern p false 0 Hp Ht) as (H1 & H2 & H3 & H4 & _); [lia|]. done.
Qed.

Lemma build_groups_unlimited share spec gs :
  build_groups false share spec = Ok gs -> Forall (fun g => group_ok g /\ entries g = ∅) gs.
Proof.
  revert gs. induction spec as [|e spec IH]; intros gs Hb; simpl in Hb; [simplify_eq; constructor|].
  apply bind_Ok in Hb as (p & Hp & Hb). apply bind_Ok in Hb as (rest & Hr & [= <-]).
  destruct (CreateEvictionPolicy_ok _ _ Hp) as (Hok & Ht & _).
  constructor; [|by apply IH]. split; [by apply new_group_unlimited|done].
Qed.

Definition fresh_group (limited : bool) (bound : Z) (g : Group policy) : Prop :=
  entries g = ∅ /\ bounded g = limited /\ 0 <= capacity_bytes g /\
  (capacity_bytes g <= bound -> bound < 9223372036854775808 -> group_ok g).

Lemma build_groups_ok limited share spec gs bound :
  0 <= share -> build_groups limited share spec = Ok gs ->
  Forall (fresh_group limited bound) gs /\
  sum_Z (capacity_bytes <$> gs) = sum_Z (explicit_of <$> spec) + share * sum_Z (unsized_of <$> spec).
Proof.
  intros Hsh. revert gs. induction spec as [|e spec IH]; intros gs Hb; simpl in Hb.
  { simplify_eq. split; [constructor|]. simpl. lia. }
  apply bind_Ok in Hb as (p & Hp & Hb). apply bind_Ok in Hb as (rest & Hr & [= <-]).
  destruct (IH rest Hr) as [H1 H2]. destruct (CreateEvictionPolicy_ok _ _ Hp) as (Hok & Ht & _).
  rewrite !fmap_cons, !sum_Z_cons, H2. split.
  - constructor; [|done]. split; [done|]. split; [done|]. simpl.
    destruct (Z.ltb_spec 0 (s_bytes e)); (split; [lia|]); intros ? ?; apply new_group_ok; auto; lia.
  - simpl capacity_bytes. unfold explicit_of at 2, unsized_of at 2. destruct (0 <? s_bytes e); lia.
Qed.

Lemma fresh_le gs l b g : Forall (fresh_group l b) gs -> g ∈ gs -> 0 <= capacity_bytes g <= sum_Z (capacity_bytes <$> gs).
Proof.
  intros Hf. induction Hf as [|h gs (_ & _ & Hc & _) Hf IH]; intros Hin; [inversion Hin|].
  rewrite fmap_cons, sum_Z_cons. assert (0 <= sum_Z (capacity_bytes <$> gs)) as H0.
  { apply sum_Z_nonneg, Forall_fmap. eapply Forall_impl; [exact Hf|]. intros x (_ & _ & Hx & _). done. }
  apply elem_of_cons in Hin as [->|Hin]; [lia|]. specialize (IH Hin). lia.
Qed.

(** The sizes of a specification whose total is a 64-bit number. *)
Definition spec_sizes_ok (spec : list SpecEntry) : Prop :=
  sum_Z (explicit_of <$> spec) < two64 /\ Z.of_nat (length spec) < two64 - 1.

(** A storage of empty groups. *)
Lemma fresh_store_ok (gs : list (Group policy)) budget timeout :
  gs <> [] -> (forall g, g ∈ gs -> group_ok g /\ entries g = ∅) -> store_ok (MkStorage gs ∅ budget timeout).
Proof.
  intros Hne Hgs. split; [done|split; [|split]]; simpl.
  - intros i g Hi. by apply Hgs, (list_elem_of_lookup_2 _ i).
  - intros f i. by rewrite lookup_empty.
  - intros i g k Hi. destruct (Hgs g) as [_ ->]; [by eapply list_elem_of_lookup_2|].
    rewrite lookup_empty. by intros [].
Qed.

Lemma BuildStorage_ok budget timeout name spec s :
  0 < budget < 9223372036854775808 -> spec_sizes_ok spec -> BuildStorage budget timeout name spec = Ok s ->
  store_ok s /\ Forall (fun g => bounded g = true) (groups s) /\ budgets s <= budget.
Proof.
  intros Hbu [He Hl] Hb. unfold BuildStorage in Hb. rewrite explicit_budget_sum, unsized_groups_sum in Hb.
  pose proof (explicit_nonneg spec). pose proof (unsized_range spec).
  rewrite (u64_small (sum_Z (explicit_of <$> spec))), (u64_small (1 + _)) in Hb by lia.
  rewrite (proj2 (Z.ltb_lt 0 budget)), (proj2 (Z.eqb_neq budget 0)) in Hb by lia. simpl in Hb.
  destruct (Z.ltb_spec budget (sum_Z (explicit_of <$> spec))); [done|]. rewrite u64_small in Hb by lia.
  set (share := (budget - sum_Z (explicit_of <$> spec)) / (1 + sum_Z (unsized_of <$> spec))) in Hb.
  assert (0 <= share) as Hsh by (apply Z.div_pos; lia).
  assert (share * (1 + sum_Z (unsized_of <$> spec)) <= budget - sum_Z (explicit_of <$> spec)) as Hle.
  { rewrite Z.mul_comm. apply Z.mul_div_le. lia. }
  apply bind_Ok in Hb as (sized & Hsz & Hb). apply bind_Ok in Hb as (p & Hp & [= <-]). simpl.
  destruct (build_groups_ok true share spec sized budget Hsh Hsz) as [Hf Hsum].
  destruct (CreateEvictionPolicy_ok _ _ Hp) as (Hok & Ht & _).
  set (last_group := new_group _ _ p true share).
  assert (Forall (fresh_group true budget) (sized ++ [last_group])) as Hall.
  { apply Forall_app. split; [done|]. constructor; [|constructor]. split; [done|]. split; [done|]. split; [done|].
    intros ? ?. apply new_group_ok; auto. simpl in *. lia. }
  assert (sum_Z (capacity_bytes <$> (sized ++ [last_group])) <= budget) as Htotal.
  { rewrite fmap_app, sum_Z_app, Hsum. simpl. lia. }
  assert (forall g, g ∈ sized ++ [last_group] -> group_ok g /\ entries g = ∅) as Hgs.
  { intros g Hin. pose proof (fresh_le _ _ _ g Hall Hin). rewrite Forall_forall in Hall.
    destruct (Hall g Hin) as (Hent & _ & _ & Hg). split; [apply Hg; lia|done]. }
  split; [apply fresh_store_ok; [by destruct sized|exact Hgs]|split; [|done]]; simpl.
  eapply Forall_impl; [exact Hall|]. by intros g (_ & -> & _).
Qed.

(** Without a budget ([0], the default) the groups are unbounded, whatever the sizes. *)
Lemma BuildStorage_unlimited timeout name spec s : BuildStorage 0 timeout name spec = Ok s -> store_ok s.
Proof.
  unfold BuildStorage. simpl. intros Hb. apply bind_Ok in Hb as (sized & Hsz & Hb). apply bind_Ok in Hb as (p & Hp & [= <-]).
  destruct (CreateEvictionPolicy_ok _ _ Hp) as (Hok & Ht & _). apply fresh_store_ok; [by destruct sized|].
  intros g [Hg| ->%list_elem_of_singleton]%elem_of_app.
  - pose proof (build_groups_unlimited _ _ _ Hsz) as Hall. rewrite Forall_forall in Hall. by apply Hall.
  - split; [by apply new_group_unlimited|done].
Qed.

(** A new storage is empty. *)
Lemma build_groups_empty limited share spec gs :
  build_groups limited share spec = Ok gs -> Forall (fun g => entries g = ∅) gs.
Proof.
  revert gs. induction spec as [|e spec IH]; intros gs Hb; simpl in Hb; [simplify_eq; constructor|].
  apply bind_Ok in Hb as (p & _ & Hb). apply bind_Ok in Hb as (rest & Hr & [= <-]). constructor; [done|by apply IH].
Qed.

Lemma BuildStorage_empty budget timeout name spec s k e :
  BuildStorage budget timeout name spec = Ok s -> ~ store_holds s k e.
Proof.
  unfold BuildStorage. destruct (_ && _); [done|]. intros Hb.
  apply bind_Ok in Hb as (sized & Hsz & Hb). apply bind_Ok in Hb as (p & _ & [= <-]).
  intros (i & g & pe & Hi & He & _). apply build_groups_empty in Hsz. simpl in Hi.
  apply list_elem_of_lookup_2, elem_of_app in Hi as [Hg|Hg%list_elem_of_singleton].
  - rewrite Forall_forall in Hsz. by rewrite (Hsz g Hg), lookup_empty in He.
  - subst g. simpl in He. by rewrite lookup_empty in He.
Qed.

(** ** Properties *)

(** C11: a limited storage never holds more bytes than its budget.  For a budget between
    one byte and [2^63] (a budget of 0 means no limit) and every specification that the
    constructor accepts and whose explicit sizes do not add up to [2^64] or more (see
    [explicit_sizes_wrap] for one that does), after every sequence of operations the bytes
    of the entries of each group stay within the group's share, [used_bytes] is exactly
    their sum, the policy tracks exactly the cached keys, and the whole storage stays
    within the configured budget. *)
Theorem policy_storage_within_budget budget timeout name spec s os :
  0 < budget < 9223372036854775808 -> spec_sizes_ok spec -> BuildStorage budget timeout name spec = Ok s ->
  resident (apply_ops os s) <= budget /\
  forall i g, groups (apply_ops os s) !! i = Some g ->
    used_bytes g = total (entries g) /\ total (entries g) <= capacity_bytes g /\
    forall k, k ∈ tracked (g_policy g) <-> is_Some (entries g !! k).
Proof.
  intros Hbu Hspec Hb. destruct (BuildStorage_ok _ _ _ _ _ Hbu Hspec Hb) as (Hs & Hall & Hle).
  destruct (apply_ops_ok os s Hs) as [Hs' Hlim].
  assert (Forall (fun g => bounded g = true) (groups (apply_ops os s))) as Hall'.
  { assert (Forall (fun bc : bool * Z => bc.1 = true) (limits s)) as Hbl.
    { apply Forall_fmap. eapply Forall_impl; [exact Hall|done]. }
    rewrite <-Hlim in Hbl. apply Forall_fmap in Hbl. eapply Forall_impl; [exact Hbl|done]. }
  assert (budgets (apply_ops os s) = budgets s) as Hbud.
  { unfold budgets. assert (forall t : storage policy, capacity_bytes <$> groups t = snd <$> limits t) as Hc.
    { intros t. unfold limits. rewrite <-list_fmap_compose. by apply list_fmap_ext. }
    by rewrite !Hc, Hlim. }
  split; [pose proof (resident_le _ Hs' Hall'); lia|]. intros i g Hi.
  destruct Hs' as (_ & Hg & _). destruct (Hg i g Hi) as (_ & Ht & Hu & Hby & Hc).
  rewrite Forall_lookup in Hall'. specialize (Hc (Hall' i g Hi)). pose proof (total_nonneg _ Hby).
  split; [by rewrite Hu, u64_small by lia|]. split; [lia|done].
Qed.

(** C12: what a reader that has just fetched a block gets back.  [Put] always succeeds.
    When the chunk fits in its group's share, an immediate [Get] within the timeout and
    with an acceptable version returns it.  When it is larger than the share, [Put]
    changes nothing the cache holds: it neither inserts the entry nor replaces an older
    one of the key, which is still served.  The comment of the interface, "Insert or
    replace the entry for [key]", does not hold of this backend for such a chunk. *)
Theorem policy_put_then_get {P} `{EP : EvictionPolicy P} `{PL : !PolicyLaws P}
    (s : storage P) now now' k c t t' :
  storage_ok s -> 0 <= now <= now' -> now' < two64 ->
  timeout_millisec s = 0 \/ now' - now < timeout_millisec s ->
  ValidateVersionTag t t' = true ->
  exists s' i g, Put now k c t s = Ok s' /\ storage_ok s' /\ GroupFor (fname k) s = (i, (GroupFor (fname k) s).2) /\
    groups s !! i = Some g /\
    if bounded g && (capacity_bytes g <? chunk_bytes c)
    then forall k' e, holds s' k' e <-> holds s k' e
    else (Get now' k t' s').1 = Some c.
Proof.
  intros Hs Hnow Hmax Hto Htag. simpl in Hs.
  destruct (Put_ok now k c t s Hs) as (s' & Hp & Hs' & _). pose proof Hp as Hput. unfold Put in Hp.
  destruct (GroupFor_ok (fname k) s Hs) as (s1 & g & He & Hs1 & Hg1 & Ht1 & _ & Hg). rewrite He in Hp.
  exists s', (choose (groups s) (fname k)), g. split; [done|]. split; [done|]. split; [by rewrite He|]. split; [done|].
  assert (group_ok g) as Hgok by (destruct Hs as (_ & Hs & _); by eapply Hs).
  rewrite Hg1, Hg in Hp. simpl in Hp. destruct (put_group_ok now k c t g Hgok) as (g' & Hpg & Hg' & Hsh & Hpost).
  rewrite Hpg in Hp. simplify_eq/=. case_match.
  - subst. intros k' e. rewrite (holds_set_group _ g) by (by rewrite Hg1). rewrite <-(holds_groups s s1) by done.
    split.
    + intros [(pe & Hk & Hpe)|(j & h & pe & _ & Hj & Hk & Hpe)]; [|by exists j, h, pe].
      eexists _, g, pe. rewrite Hg1. eauto.
    + intros (j & h & pe & Hj & Hk & Hpe). destruct (decide (j = choose (groups s) (fname k))) as [->|Hne].
      * left. rewrite Hg1 in Hj. simplify_eq. eauto.
      * right. eauto 8.
  - destruct Hpost as [Hpost _]. unfold Get.
    set (s2 := set_group (choose (groups s) (fname k)) g' s1) in *.
    destruct (GroupFor_ok (fname k) s2 Hs') as (s3 & g3 & -> & _ & Hg3 & Ht3 & _ & Hgg).
    assert (choose (groups s2) (fname k) = choose (groups s) (fname k)) as Hch.
    { rewrite <-Hg1. unfold s2, set_group. simpl. apply choose_patterns.
      rewrite list_fmap_insert, list_insert_id; [by rewrite Hg1|].
      rewrite list_lookup_fmap, Hg1, Hg. simpl. by destruct Hsh as (_ & -> & _). }
    rewrite Hg3, Hgg. rewrite Hch in Hgg. unfold s2 in Hgg. simpl in Hgg.
    rewrite list_lookup_insert_eq in Hgg by (rewrite Hg1; by eapply lookup_lt_Some). simplify_eq.
    pose proof (get_group_ok (Expired now' s3) k t' g3 Hg') as Hgr. destruct (get_group _ k t' g3) as [r g4].
    destruct Hgr as (_ & _ & Hr). rewrite Hpost in Hr. simpl in *. rewrite Htag in Hr.
    assert (Expired now' s3 (MkPEntry (MkEntry c t) (chunk_bytes c) now) = false) as Hx.
    { unfold Expired. rewrite Ht3. unfold s2. simpl. rewrite Ht1. simpl.
      destruct Hto as [Hto|Hto]; [by rewrite Hto|]. destruct (timeout_millisec s =? 0); [done|].
      rewrite u64_small by lia. apply Z.leb_gt. lia. }
    rewrite Hx in Hr. by destruct Hr as [-> _].
Qed.

(** Explicit sizes are summed modulo 2^64 before they are compared with the budget: two
    entries can wrap around it, and a group's share then exceeds the whole budget. *)
Theorem explicit_sizes_wrap :
  exists s g, BuildStorage 100 0 "lru" [MkSpecEntry "a" "lru" 18446744073709551615; MkSpecEntry "b" "lru" 1] = Ok s /\
    groups s !! 0%nat = Some g /\ capacity_bytes g = 18446744073709551615.
Proof. eexists _, _. split; [reflexivity|]. by split. Qed.

Section Witnesses.
#[local] Definition spec1 : list SpecEntry := [MkSpecEntry "hot" "lru" 64; MkSpecEntry "scan" "mru" 0].
#[local] Definition kb (f : string) (n : Z) : InMemCacheBlock := MkBlock f n 32.
#[local] Definition ck (n : Z) : PageAlignedDataChunk := MkChunk None n n.
#[local] Definition s1 : storage policy :=
  match BuildStorage 200 0 "clock" spec1 with Ok s => s | Throw _ => MkStorage [] ∅ 0 0 end.
#[local] Definition ops1 : list storage_op :=
  [OPut 1 (kb "hot/a" 0) (ck 32) ""; OPut 2 (kb "hot/a" 32) (ck 32) ""; OGet 3 (kb "hot/a" 0) "";
   OPut 4 (kb "hot/b" 0) (ck 32) ""; OPut 5 (kb "cold" 0) (ck 60) ""; OPut 6 (kb "cold" 1) (ck 60) ""].

(** The third block of the hot group evicts the second, least recently used one. *)
Lemma policy_storage_within_budget_witness :
  (Get 7 (kb "hot/a" 32) "" (apply_ops ops1 s1)).1 = None /\
  (Get 7 (kb "hot/a" 0) "" (apply_ops ops1 s1)).1 = Some (ck 32) /\
  resident (apply_ops ops1 s1) <= 200.
Proof.
  split; [vm_compute; reflexivity|]. split; [vm_compute; reflexivity|].
  refine (proj1 (policy_storage_within_budget 200 0 "clock" spec1 s1 ops1 _ _ _)).
  - lia.
  - split; vm_compute; reflexivity.
  - vm_compute. reflexivity.
Defined.

Lemma s1_ok : store_ok s1.
Proof.
  destruct (BuildStorage_ok 200 0 "clock" spec1 s1) as [H _]; [lia|split; vm_compute; reflexivity|vm_compute; reflexivity|done].
Qed.

Lemma policy_put_then_get_witness :
  exists s' i g, Put 1 (kb "hot/a" 0) (ck 32) "v" s1 = Ok s' /\ storage_ok s' /\
    GroupFor "hot/a" s1 = (i, (GroupFor "hot/a" s1).2) /\ groups s1 !! i = Some g /\
    if bounded g && (capacity_bytes g <? chunk_bytes (ck 32))
    then forall k' e, holds s' k' e <-> holds s1 k' e
    else (Get 2 (kb "hot/a" 0) "v" s').1 = Some (ck 32).
Proof.
  apply (policy_put_then_get s1 1 2 (kb "hot/a" 0) (ck 32) "v" "v").
  - exact s1_ok.
  - lia.
  - lia.
  - left. reflexivity.
  - reflexivity.
Defined.
End Witnesses.
