(* ===== verification/ObjectStorage.v ===== *)
(** * ObjectStorage

    [ObjectCacheStorage] ([src/src/object_cache_data_cache_storage.cpp]): the backend whose
    blocks live in DuckDB's [ObjectCache], which evicts them as it likes, next to a map of
    metadata; it discharges the laws of [DataStorage].  DuckDB's cache is a class. *)
From S2P Require Import Prelude CppString StringUtil OrdMap Blocks DataStorage.
From Stdlib Require Import Strings.Ascii.

#[local] Open Scope Z_scope.

(** [CacheHttpfsDataBlock]: the entry of the object cache. *)
Record CacheHttpfsDataBlock := MkDataBlock {
  block_key : InMemCacheBlock;
  block_data : PageAlignedDataChunk;
  block_id : Z
}.

(** DuckDB's [ObjectCache]: what is stored under a key, and the blocks that the operation
    destroyed, the ones it dropped that no reader holds. *)
Class ObjectCache (O : Type) := {
  oc_get : string -> O -> option CacheHttpfsDataBlock * O;
  oc_put : string -> CacheHttpfsDataBlock -> O -> list CacheHttpfsDataBlock * O;
  oc_delete : string -> O -> list CacheHttpfsDataBlock * O
}.

(** It answers with what was put under the key last, and an insertion may make it forget
    anything. *)
Class ObjectCacheLaws (O : Type) `{ObjectCache O} := {
  oc_view : O -> gmap string CacheHttpfsDataBlock;
  oc_get_law key o r o' : oc_get key o = (r, o') -> r = oc_view o !! key /\ oc_view o' = oc_view o;
  oc_put_law key b o dead o' : oc_put key b o = (dead, o') -> oc_view o' ⊆ <[key := b]> (oc_view o);
  oc_delete_law key o dead o' : oc_delete key o = (dead, o') ->
    oc_view o' = delete key (oc_view o) /\ forall b, b ∈ dead -> oc_view o !! key = Some b
}.

Module ObjectCacheStorage.
Record EntryMeta := MkMeta {
  m_obj_cache_key : string;
  m_length : Z;
  m_version_tag : string;
  m_insertion_time_ms : Z;
  m_block_id : Z
}.

Definition MakeObjCacheKey (key : InMemCacheBlock) : string :=
  ("cache_httpfs/data/" +:+ fname key +:+ ":" +:+ to_string (start_off key) +:+ ":" +:+ to_string (blk_size key))%string.

Section Storage.
Context {O : Type} `{ObjectCache O}.

Record storage := MkStorage {
  o_cache : O;
  timeout_millisec : Z;
  next_block_id : Z;
  entries : gmap InMemCacheBlock EntryMeta
}.
Implicit Types (s : storage) (key : InMemCacheBlock) (now : Z).

Definition with_cache s o := MkStorage o (timeout_millisec s) (next_block_id s) (entries s).
Definition with_entries s m := MkStorage (o_cache s) (timeout_millisec s) (next_block_id s) m.

(** The constructor. *)
Definition new_storage (o : O) (timeout : Z) : storage := MkStorage o timeout 0 ∅.

(** [OnEntryDestroyed], which the destructor of a block calls; a block that a reader holds
    is destroyed when the reader lets go of it. *)
Definition OnEntryDestroyed key (id : Z) s : storage :=
  match entries s !! key with
  | None => s
  | Some m => if m_block_id m =? id then with_entries s (delete key (entries s)) else s
  end.

Definition destroy_blocks (dead : list CacheHttpfsDataBlock) s : storage :=
  foldl (fun s b => OnEntryDestroyed (block_key b) (block_id b) s) s dead.

Definition delete_object (obj_cache_key : string) s : storage :=
  let '(dead, o) := oc_delete obj_cache_key (o_cache s) in destroy_blocks dead (with_cache s o).

(** The first critical section of [Put]: the block goes into the object cache. *)
Definition put_block key (chunk : PageAlignedDataChunk) (id : Z) s : storage :=
  let '(dead, o) := oc_put (MakeObjCacheKey key) (MkDataBlock key chunk id) (o_cache s) in
  destroy_blocks dead (with_cache s o).

(** The second: the metadata. *)
Definition put_meta now key (chunk : PageAlignedDataChunk) (tag : string) (id : Z) s : storage :=
  with_entries s (<[key := MkMeta (MakeObjCacheKey key) (c_length chunk) tag (u64 now) id]> (entries s)).

Definition take_id s : Z * storage :=
  (next_block_id s, MkStorage (o_cache s) (timeout_millisec s) (next_block_id s +u 1) (entries s)).

Definition Put now key (chunk : PageAlignedDataChunk) (tag : string) s : Res storage :=
  if negb (0 <? c_length chunk) then Throw AssertionFailure
  else let '(id, s) := take_id s in Ok (put_meta now key chunk tag id (put_block key chunk id s)).

Definition Get now key (expected_version_tag : string) s : option PageAlignedDataChunk * storage :=
  match entries s !! key with
  | None => (None, s)
  | Some m =>
      let stale :=
        if negb (ValidateVersionTag (m_version_tag m) expected_version_tag) then true
        else (0 <? timeout_millisec s) && (timeout_millisec s <? now -u m_insertion_time_ms m) in
      if stale then (None, delete_object (m_obj_cache_key m) s)
      else
        let '(block, o) := oc_get (m_obj_cache_key m) (o_cache s) in
        (block_data <$> block, with_cache s o)
  end.

Definition Delete key s : bool * storage :=
  match entries s !! key with
  | None => (false, s)
  | Some m => (true, delete_object (m_obj_cache_key m) s)
  end.

(** The keys are collected first, the blocks deleted after. *)
Definition delete_objects (keys : list string) s : storage := foldl (fun s k => delete_object k s) s keys.
Definition object_keys (keys : list InMemCacheBlock) s : list string :=
  omap (fun key => m_obj_cache_key <$> entries s !! key) keys.

Definition Clear s : storage := delete_objects (object_keys (sorted_keys (entries s)) s) s.

Definition ClearFrom (start_key : InMemCacheBlock) (filter : InMemCacheBlock -> bool) s : storage :=
  delete_objects (object_keys (take_while filter (keys_from start_key (entries s))) s) s.

Definition Keys s : list InMemCacheBlock := sorted_keys (entries s).

Fixpoint take_blocks (snapshot : list (InMemCacheBlock * EntryMeta)) s :
    list (InMemCacheBlock * InMemCacheDataEntry) * storage :=
  match snapshot with
  | [] => ([], s)
  | (key, m) :: snapshot =>
      let '(block, o) := oc_get (m_obj_cache_key m) (o_cache s) in
      let s := with_cache s o in
      match block with
      | None => take_blocks snapshot s
      | Some b =>
          let '(result, s) := take_blocks snapshot (delete_object (m_obj_cache_key m) s) in
          ((key, MkEntry (block_data b) (m_version_tag m)) :: result, s)
      end
  end.

Definition Take (clock : nat -> Z) s : Res (list (InMemCacheBlock * InMemCacheDataEntry)) * storage :=
  let snapshot := omap (fun key => (key,.) <$> entries s !! key) (sorted_keys (entries s)) in
  let '(result, s) := take_blocks snapshot s in (Ok result, s).
End Storage.
Arguments storage : clear implicits.
End ObjectCacheStorage.

Import ObjectCacheStorage.

#[export] Instance object_storage {O} `{ObjectCache O} : InMemoryDataCacheStorage (storage O) := {
  DataStorage.Put := Put;
  DataStorage.Get := Get;
  DataStorage.Delete := Delete;
  DataStorage.Clear := Clear;
  DataStorage.ClearFrom := ClearFrom;
  DataStorage.Keys := Keys;
  DataStorage.Take := Take
}.

(** ** Laws *)
Lemma MakeObjCacheKey_inj k k' : key_ok k -> key_ok k' -> MakeObjCacheKey k = MakeObjCacheKey k' -> k = k'.
Proof.
  intros [Ho Hn] [Ho' Hn'] He. destruct k as [f o n], k' as [f' o' n']. unfold MakeObjCacheKey in He. simpl in *.
  assert (forall z, is_u64 z -> free ":"%char (to_string z)) as Hf by (intros z Hz; by apply to_string_find).
  change (":" +:+ to_string n)%string with (String ":"%char (to_string n)) in He.
  change (":" +:+ to_string n')%string with (String ":"%char (to_string n')) in He. rewrite <-!append_assoc in He.
  apply last_separator_inj in He as [He Hs]; [|by apply Hf..].
  rewrite !append_assoc in He. change (":" +:+ to_string o)%string with (String ":"%char (to_string o)) in He.
  change (":" +:+ to_string o')%string with (String ":"%char (to_string o')) in He. rewrite <-!append_assoc in He.
  apply last_separator_inj in He as [He Hoo]; [|by apply Hf..].
  apply append_inj_len in He as [_ ->]; [|done]. apply to_string_inj in Hs, Hoo; [|done..]. congruence.
Qed.

Section Laws.
Context {O : Type} `{ObjectCacheLaws O}.
Implicit Types (s : storage O) (k : InMemCacheBlock) (e : InMemCacheDataEntry).

(** Metadata points to the object of its key, and the objects under our keys are ours. *)
Record obj_ok s : Prop := {
  meta_key k m : entries s !! k = Some m -> key_ok k /\ m_obj_cache_key m = MakeObjCacheKey k;
  object_key k b : key_ok k -> oc_view (o_cache s) !! MakeObjCacheKey k = Some b -> block_key b = k
}.

(** A key can be answered when both its metadata and its block are there. *)
Definition obj_holds s k e : Prop := exists m b,
  entries s !! k = Some m /\ oc_view (o_cache s) !! m_obj_cache_key m = Some b /\
  e = MkEntry (block_data b) (m_version_tag m).

Lemma obj_holds_functional s k e e' : obj_holds s k e -> obj_holds s k e' -> e = e'.
Proof. intros (m & b & Hm & Hb & ->) (m' & b' & Hm' & Hb' & ->). congruence. Qed.

(** *** Destruction *)
Definition smaller s s' : Prop := entries s' ⊆ entries s /\ oc_view (o_cache s') ⊆ oc_view (o_cache s).

Lemma obj_ok_smaller s s' : obj_ok s -> smaller s s' -> obj_ok s'.
Proof.
  intros [H1 H2] [He Ho]. constructor.
  - intros k m Hm. by apply H1, (lookup_weaken _ _ _ _ Hm).
  - intros k b Hk Hb. by apply H2, (lookup_weaken _ _ _ _ Hb).
Qed.

Lemma obj_holds_smaller s s' k e : smaller s s' -> obj_holds s' k e -> obj_holds s k e.
Proof.
  intros [He Ho] (m & b & Hm & Hb & ->). exists m, b. split; [by eapply lookup_weaken|]. split; [by eapply lookup_weaken|done].
Qed.

(** Whenever a block is destroyed, at most the metadata of its key goes. *)
Lemma OnEntryDestroyed_ok k id s :
  o_cache (OnEntryDestroyed k id s) = o_cache s /\ entries (OnEntryDestroyed k id s) ⊆ entries s /\
  forall k', k' <> k -> entries (OnEntryDestroyed k id s) !! k' = entries s !! k'.
Proof.
  unfold OnEntryDestroyed. destruct (entries s !! k) as [m|]; [|done]. destruct (m_block_id m =? id); [|done].
  simpl. split; [done|]. split; [apply delete_subseteq|]. intros k' Hk. by apply lookup_delete_ne.
Qed.

Lemma destroy_blocks_ok dead s :
  o_cache (destroy_blocks dead s) = o_cache s /\ entries (destroy_blocks dead s) ⊆ entries s /\
  forall k, (forall b, b ∈ dead -> block_key b <> k) -> entries (destroy_blocks dead s) !! k = entries s !! k.
Proof.
  unfold destroy_blocks. revert s. induction dead as [|b dead IH]; intros s; [done|]. simpl.
  destruct (OnEntryDestroyed_ok (block_key b) (block_id b) s) as (E1 & E2 & E3).
  destruct (IH (OnEntryDestroyed (block_key b) (block_id b) s)) as (H1 & H2 & H3).
  split; [congruence|]. split; [by etrans|]. intros k Hk. rewrite H3 by (intros; apply Hk; by right).
  apply E3. intros ->. by apply (Hk b); [left|].
Qed.

(** *** Deleting *)

(** What deleting the blocks of some keys leaves. *)
Record holds_without (P : InMemCacheBlock -> Prop) s s' : Prop := {
  without_ok : obj_ok s';
  without_smaller : smaller s s';
  without_holds k e : obj_holds s' k e <-> obj_holds s k e /\ ~ P k
}.

Lemma delete_object_holds k s : obj_ok s -> key_ok k -> holds_without (eq k) s (delete_object (MakeObjCacheKey k) s).
Proof.
  intros Hok Hk. unfold delete_object.
  destruct (oc_delete (MakeObjCacheKey k) (o_cache s)) as [dead o] eqn:Hd.
  destruct (oc_delete_law _ _ _ _ Hd) as [Hv Hdead].
  destruct (destroy_blocks_ok dead (with_cache s o)) as (E1 & E2 & E3). simpl in E1.
  set (s' := destroy_blocks dead (with_cache s o)) in *.
  assert (smaller s s') as Hs by (split; [exact E2|]; rewrite E1, Hv; apply delete_subseteq).
  pose proof (obj_ok_smaller s s' Hok Hs) as Hok'. constructor; [done..|]. intros k' e. split.
  - intros Hh. split; [by eapply obj_holds_smaller|]. intros <-. destruct Hh as (m' & b & Hm' & Hb & _).
    apply (meta_key _ Hok') in Hm' as [_ Hm']. by rewrite Hm', E1, Hv, lookup_delete_eq in Hb.
  - intros [(m' & b & Hm' & Hb & ->) Hne]. exists m', b. destruct (meta_key s Hok k' m' Hm') as [Hk' E].
    split; [|split; [|done]].
    + rewrite E3; [done|]. intros b' Hb' Hbk. apply Hne. rewrite <-Hbk. symmetry. by apply (object_key s Hok), Hdead.
    + rewrite E1, Hv, lookup_delete_ne; [done|]. rewrite E. by intros Hinj%MakeObjCacheKey_inj.
Qed.

Lemma smaller_trans s1 s2 s3 : smaller s1 s2 -> smaller s2 s3 -> smaller s1 s3.
Proof. intros [] []. split; by etrans. Qed.

Lemma delete_objects_holds ks s :
  obj_ok s -> Forall key_ok ks -> holds_without (fun k => k ∈ ks) s (delete_objects (MakeObjCacheKey <$> ks) s).
Proof.
  intros Hok Hks. unfold delete_objects. revert s Hok. induction Hks as [|k ks Hk Hks IH]; intros s Hok.
  - simpl. constructor; [done|by split|]. intros k e. split; [|by intros []]. intros Hh. split; [done|apply not_elem_of_nil].
  - rewrite fmap_cons. simpl. destruct (delete_object_holds k s Hok Hk) as [H1 H2 H3]. destruct (IH _ H1) as [H4 H5 H6].
    constructor; [done|by eapply smaller_trans|]. intros k' e. rewrite H6, H3, elem_of_cons. intuition congruence.
Qed.

Lemma object_keys_eq ks s : obj_ok s -> (forall k, k ∈ ks -> is_Some (entries s !! k)) ->
  object_keys ks s = MakeObjCacheKey <$> ks /\ Forall key_ok ks.
Proof.
  intros Hok. induction ks as [|k ks IH]; intros Hin; [by split|]. unfold object_keys in *. simpl.
  destruct (Hin k) as [m Hm]; [left|]. rewrite Hm. simpl. destruct (meta_key s Hok k m Hm) as [Hk ->].
  destruct IH as [E Hks]; [intros; apply Hin; by right|]. split; [by f_equal|by constructor].
Qed.

(** *** Taking *)
Definition described s (p : InMemCacheBlock * EntryMeta) : Prop := key_ok p.1 /\ m_obj_cache_key p.2 = MakeObjCacheKey p.1.

Lemma obj_ok_same_view s o : obj_ok s -> oc_view o = oc_view (o_cache s) -> obj_ok (with_cache s o).
Proof. intros [H1 H2] E. constructor; simpl; [done|by rewrite E]. Qed.

Lemma take_blocks_ok snapshot s :
  obj_ok s -> Forall (described s) snapshot -> NoDup snapshot.*1 ->
  let '(r, s') := take_blocks snapshot s in
  obj_ok s' /\ smaller s s' /\ (forall k, k ∈ snapshot.*1 -> oc_view (o_cache s') !! MakeObjCacheKey k = None) /\
  NoDup r.*1 /\ (forall k e, (k, e) ∈ r -> exists m b, (k, m) ∈ snapshot /\
    oc_view (o_cache s) !! MakeObjCacheKey k = Some b /\ e = MkEntry (block_data b) (m_version_tag m)).
Proof.
  revert s. induction snapshot as [|[k m] snapshot IH]; intros s Hok Hd Hnd; cbn [take_blocks].
  { split; [done|]. split; [done|]. split; [by intros k ?%elem_of_nil|]. split; [constructor|]. by intros k e ?%elem_of_nil. }
  apply Forall_cons in Hd as [[Hk Hm] Hd]. rewrite fmap_cons in Hnd. apply NoDup_cons in Hnd as [Hnk Hnd]. cbn [fst snd] in Hk, Hm, Hnk.
  destruct (oc_get (m_obj_cache_key m) (o_cache s)) as [block o] eqn:Hg.
  destruct (oc_get_law _ _ _ _ Hg) as [Hb Hv]. rewrite Hm in Hb.
  pose proof (obj_ok_same_view s o Hok Hv) as Hok1.
  assert (smaller s (with_cache s o)) as Hs1 by (split; simpl; [done|by rewrite Hv]).
  destruct block as [b|].
  - rewrite Hm. destruct (delete_object_holds k (with_cache s o) Hok1 Hk) as [Hok2 Hs2 Hh2].
    assert (oc_view (o_cache (delete_object (MakeObjCacheKey k) (with_cache s o))) !! MakeObjCacheKey k = None) as Hgone.
    { unfold delete_object. destruct (oc_delete _ _) as [dead o'] eqn:Hdel. destruct (oc_delete_law _ _ _ _ Hdel) as [Hv' _].
      destruct (destroy_blocks_ok dead (with_cache (with_cache s o) o')) as (-> & _). simpl. by rewrite Hv', lookup_delete_eq. }
    specialize (IH _ Hok2 Hd Hnd). destruct (take_blocks snapshot _) as [r s']. destruct IH as (Hok' & Hs' & Hnone & Hr & Hin).
    assert (forall (q : string) x, oc_view (o_cache (delete_object (MakeObjCacheKey k) (with_cache s o))) !! q = Some x ->
      oc_view (o_cache s) !! q = Some x) as Hsub.
    { intros q x Hx. rewrite <-Hv. apply (lookup_weaken _ _ _ _ Hx), Hs2. }
    split; [done|]. split; [by eapply smaller_trans; [|eapply smaller_trans]|]. split; [|split].
    + intros k' [->|Hk']%elem_of_cons; [|by apply Hnone]. destruct (oc_view (o_cache s') !! MakeObjCacheKey k) as [x|] eqn:Hx; [|done].
      destruct Hs' as [_ Hs'%(lookup_weaken _ _ _ _ Hx)]. congruence.
    + rewrite fmap_cons. apply NoDup_cons. split; [|done]. simpl. intros ([k' e] & -> & Hp)%list_elem_of_fmap.
      destruct (Hin _ _ Hp) as (m' & _ & Hm' & _). apply Hnk. apply list_elem_of_fmap. by exists (k', m').
    + intros k' e [[= -> ->]|Hp]%elem_of_cons; [exists m, b; split; [by left|by split]|].
      destruct (Hin _ _ Hp) as (m' & b' & Hm' & Hb' & ->). exists m', b'. split; [by right|]. split; [by apply Hsub|done].
  - specialize (IH _ Hok1 Hd Hnd). destruct (take_blocks snapshot _) as [r s']. destruct IH as (Hok' & Hs' & Hnone & Hr & Hin).
    simpl in Hin. rewrite Hv in Hin. split; [done|]. split; [by eapply smaller_trans|]. split; [|split; [done|]].
    + intros k' [->|Hk']%elem_of_cons; [|by apply Hnone]. destruct (oc_view (o_cache s') !! MakeObjCacheKey k) as [x|] eqn:Hx; [|done].
      destruct Hs' as [_ Hs'%(lookup_weaken _ _ _ _ Hx)]. simpl in Hs'. rewrite Hv in Hs'. congruence.
    + intros k' e Hp. destruct (Hin _ _ Hp) as (m' & b' & Hm' & Hb' & ->). exists m', b'. split; [by right|done].
Qed.

(** *** The operations *)
Lemma put_block_ok k c id s :
  obj_ok s -> key_ok k ->
  obj_ok (put_block k c id s) /\
  entries (put_block k c id s) ⊆ entries s /\
  oc_view (o_cache (put_block k c id s)) ⊆ <[MakeObjCacheKey k := MkDataBlock k c id]> (oc_view (o_cache s)).
Proof.
  intros Hok Hk. unfold put_block. destruct (oc_put _ _ _) as [dead o] eqn:Hp. pose proof (oc_put_law _ _ _ _ _ Hp) as Hv.
  destruct (destroy_blocks_ok dead (with_cache s o)) as (E1 & E2 & _). simpl in E1, E2. rewrite E1.
  split; [|by split]. constructor.
  - intros k' m Hm. by apply (meta_key s Hok), (lookup_weaken _ _ _ _ Hm).
  - intros k' b Hk' Hb. rewrite E1 in Hb. apply (lookup_weaken _ _ _ _ Hb) in Hv.
    destruct (decide (k' = k)) as [->|Hne]; [rewrite lookup_insert_eq in Hv; by injection Hv as <-|].
    rewrite lookup_insert_ne in Hv by (by intros Hinj%MakeObjCacheKey_inj). by apply (object_key s Hok).
Qed.

Lemma obj_Put_ok now k c t s :
  obj_ok s -> key_ok k -> 0 < c_length c ->
  exists s', Put now k c t s = Ok s' /\ obj_ok s' /\
    forall k' e, obj_holds s' k' e -> (k' = k /\ e = MkEntry c t) \/ obj_holds s k' e.
Proof.
  intros Hok Hk Hc. unfold Put. rewrite (proj2 (Z.ltb_lt _ _)) by done. simpl.
  set (s0 := MkStorage (o_cache s) (timeout_millisec s) (next_block_id s +u 1) (entries s)).
  assert (obj_ok s0) as Hok0 by (destruct Hok as [H1 H2]; by constructor).
  destruct (put_block_ok k c (next_block_id s) s0 Hok0 Hk) as (Hok1 & He & Hv). simpl in He, Hv.
  eexists. split; [done|]. split.
  - constructor; simpl; [|apply Hok1]. intros k' m. destruct (decide (k = k')) as [<-|Hne].
    + rewrite lookup_insert_eq. by intros [= <-].
    + rewrite lookup_insert_ne by done. apply Hok1.
  - intros k' e (m & b & Hm & Hb & ->). simpl in Hm, Hb. destruct (decide (k = k')) as [<-|Hne].
    + left. rewrite lookup_insert_eq in Hm. injection Hm as <-. simpl in *.
      apply (lookup_weaken _ _ _ _ Hb) in Hv. rewrite lookup_insert_eq in Hv. by injection Hv as <-.
    + right. rewrite lookup_insert_ne in Hm by done. apply (lookup_weaken _ _ _ _ Hm) in He.
      exists m, b. split; [done|]. split; [|done]. apply (lookup_weaken _ _ _ _ Hb) in Hv.
      destruct (meta_key s Hok k' m He) as [Hk' E]. rewrite E in *.
      by rewrite lookup_insert_ne in Hv by (by intros Hinj%MakeObjCacheKey_inj).
Qed.

Lemma obj_Get_ok now k t s r s' :
  obj_ok s -> Get now k t s = (r, s') ->
  obj_ok s' /\ (forall k' e, obj_holds s' k' e -> obj_holds s k' e) /\
  (forall c, r = Some c -> exists e, obj_holds s k e /\ entry_data e = c /\ ValidateVersionTag (version_tag e) t = true).
Proof.
  intros Hok. unfold Get. destruct (entries s !! k) as [m|] eqn:Hm; [|by intros [= <- <-]].
  destruct (meta_key s Hok k m Hm) as [Hk E].
  destruct (ValidateVersionTag (m_version_tag m) t) eqn:Hval; simpl;
    [destruct ((0 <? timeout_millisec s) && _)|].
  1, 3: rewrite E; destruct (delete_object_holds k s Hok Hk) as [H1 H2 H3]; intros [= <- <-];
    split; [done|]; split; [|done]; intros k' e; by apply obj_holds_smaller.
  destruct (oc_get (m_obj_cache_key m) (o_cache s)) as [block o] eqn:Hg. destruct (oc_get_law _ _ _ _ Hg) as [Hb Hv].
  intros [= <- <-]. split; [by apply obj_ok_same_view|]. split.
  - intros k' e. apply obj_holds_smaller. split; simpl; [done|by rewrite Hv].
  - intros c Hc. destruct block as [b|]; [|done]. injection Hc as <-.
    exists (MkEntry (block_data b) (m_version_tag m)). split; [|done]. by exists m, b.
Qed.

Lemma obj_Clear_keys ks s :
  obj_ok s -> (forall k, k ∈ ks -> is_Some (entries s !! k)) ->
  holds_without (fun k => k ∈ ks) s (delete_objects (object_keys ks s) s).
Proof.
  intros Hok Hin. destruct (object_keys_eq ks s Hok Hin) as [-> Hks]. by apply delete_objects_holds.
Qed.

Lemma described_snapshot s :
  obj_ok s -> Forall (described s) (omap (fun key => (key,.) <$> entries s !! key) (sorted_keys (entries s))).
Proof.
  intros Hok. apply Forall_forall. intros [k m] (k' & _ & Hm)%list_elem_of_omap.
  destruct (entries s !! k') as [m'|] eqn:Hm'; [|done]. simpl in Hm. injection Hm as <- <-. by apply (meta_key s Hok).
Qed.

Lemma snapshot_keys s : (omap (fun key => (key,.) <$> entries s !! key) (sorted_keys (entries s))).*1 = sorted_keys (entries s).
Proof.
  assert (forall ks, (forall k, k ∈ ks -> is_Some (entries s !! k)) ->
    (omap (fun key => (key,.) <$> entries s !! key) ks).*1 = ks) as Hgen.
  { induction ks as [|k ks IH]; intros Hin; [done|]. simpl. destruct (Hin k) as [m Hm]; [left|]. rewrite Hm. simpl.
    f_equal. apply IH. intros; apply Hin. by right. }
  apply Hgen. intros k. by rewrite elem_of_sorted_keys.
Qed.

Lemma obj_Take_ok clock s :
  obj_ok s -> exists r s', Take clock s = (Ok r, s') /\ obj_ok s' /\ (forall k e, ~ obj_holds s' k e) /\
    NoDup r.*1 /\ forall k e, (k, e) ∈ r -> obj_holds s k e.
Proof.
  intros Hok. unfold Take. set (snapshot := omap _ _).
  pose proof (take_blocks_ok snapshot s Hok (described_snapshot s Hok)) as Ht.
  destruct (take_blocks snapshot s) as [r s']. destruct Ht as (Hok' & Hs' & Hnone & Hnd & Hin).
  { unfold snapshot. rewrite snapshot_keys. apply NoDup_sorted_keys. }
  exists r, s'. split; [done|]. split; [done|]. split; [|split; [done|]].
  - intros k e (m & b & Hm & Hb & _). destruct (meta_key s' Hok' k m Hm) as [_ E]. rewrite E, Hnone in Hb; [done|].
    unfold snapshot. rewrite snapshot_keys, elem_of_sorted_keys. exists m. by apply (lookup_weaken _ _ _ _ Hm), Hs'.
  - intros k e (m & b & Hm & Hb & ->)%Hin. apply list_elem_of_omap in Hm as (k' & _ & Hm).
    destruct (entries s !! k') as [m'|] eqn:Hm'; [|done]. simpl in Hm. injection Hm as <- <-.
    exists m', b. split; [done|]. split; [|done]. by rewrite (proj2 (meta_key s Hok k' m' Hm')).
Qed.

#[export] Program Instance object_storage_laws : StorageLaws (storage O) := {|
  storage_ok := obj_ok;
  holds := obj_holds
|}.
Next Obligation. simpl. intros s k e e' _. apply obj_holds_functional. Qed.
Next Obligation.
  simpl. intros now k c t s s' Hok Hk Hp. assert (0 < c_length c) as Hc.
  { unfold Put in Hp. destruct (Z.ltb_spec 0 (c_length c)); done. }
  destruct (obj_Put_ok now k c t s Hok Hk Hc) as (s1 & E & H1). rewrite E in Hp. by injection Hp as <-.
Qed.
Next Obligation.
  simpl. intros now k c t s Hok Hk Hc. destruct (obj_Put_ok now k c t s Hok Hk Hc) as (s1 & E & _). eauto.
Qed.
Next Obligation. simpl. apply obj_Get_ok. Qed.
Next Obligation.
  simpl. intros k s b s' Hok. unfold Delete. destruct (entries s !! k) as [m|] eqn:Hm; intros [= <- <-].
  - destruct (meta_key s Hok k m Hm) as [Hk ->]. destruct (delete_object_holds k s Hok Hk) as [H1 H2 H3].
    split; [done|]. split; [done|]. intros k' e. rewrite H3. intuition congruence.
  - split; [done|]. split; [intros e (m & b & Hm' & _); congruence|]. intros k' e. split; [|by intros []].
    intros Hh. split; [done|]. intros ->. destruct Hh as (m & b & Hm' & _). congruence.
Qed.
Next Obligation.
  simpl. intros s Hok. unfold Clear. destruct (obj_Clear_keys (sorted_keys (entries s)) s Hok) as [H1 H2 H3].
  { intros k. by rewrite elem_of_sorted_keys. }
  split; [done|]. intros k e Hh. apply H3 in Hh as [(m & b & Hm & _) Hk]. apply Hk, elem_of_sorted_keys. eauto.
Qed.
Next Obligation.
  simpl. intros f s Hok. unfold ClearFrom.
  assert (forall k, k ∈ take_while (file_filter f) (keys_from (file_start_key f) (entries s)) <->
            is_Some (entries s !! k) /\ file_filter f k = true) as Hwalk.
  { intros k. apply elem_of_walk.
    - intros a [m Hm] Hf%String.eqb_eq. destruct (meta_key s Hok a m Hm) as [[] _]. apply file_block_start; [lia|lia|done].
    - intros a b _ _ Ha Hab Hf%String.eqb_eq. apply String.eqb_eq. by eapply file_block_convex. }
  destruct (obj_Clear_keys (take_while (file_filter f) (keys_from (file_start_key f) (entries s))) s Hok) as [H1 H2 H3].
  { intros k [Hk _]%Hwalk. done. }
  split; [done|]. intros k e. rewrite H3, Hwalk. unfold file_filter. rewrite String.eqb_eq. split.
  - intros [Hh Hn]. split; [done|]. intros Hf. apply Hn. split; [|done]. destruct Hh as (m & _ & Hm & _). eauto.
  - intros [Hh Hn]. split; [done|]. by intros [_ Hf].
Qed.
Next Obligation. simpl. intros s k e _ (m & b & Hm & _). unfold Keys. apply elem_of_sorted_keys. eauto. Qed.
Next Obligation. simpl. apply obj_Take_ok. Qed.

(** A block that a reader still held is destroyed later: at most its metadata goes. *)
Lemma late_destruction k id s : obj_ok s -> obj_ok (OnEntryDestroyed k id s) /\ smaller s (OnEntryDestroyed k id s).
Proof.
  intros Hok. destruct (OnEntryDestroyed_ok k id s) as (E1 & E2 & _).
  assert (smaller s (OnEntryDestroyed k id s)) as Hs by (split; [done|by rewrite E1]). split; [by eapply obj_ok_smaller|done].
Qed.
End Laws.

(** ** An object cache that forgets nothing *)
#[export] Instance map_object_cache : ObjectCache (gmap string CacheHttpfsDataBlock) := {
  oc_get key o := (o !! key, o);
  oc_put key b o := (option_list (o !! key), <[key := b]> o);
  oc_delete key o := (option_list (o !! key), delete key o)
}.

#[export] Program Instance map_object_cache_laws : ObjectCacheLaws (gmap string CacheHttpfsDataBlock) := {|
  oc_view o := o
|}.
Next Obligation. by intros key o r o' [= <- <-]. Qed.
Next Obligation. by intros key b o dead o' [= <- <-]. Qed.
Next Obligation.
  simpl. intros key o dead o' [= <- <-]. split; [done|]. intros b Hb.
  destruct (o !! key) as [b'|]; simpl in Hb; [by apply list_elem_of_singleton in Hb as ->|by apply elem_of_nil in Hb].
Qed.

(** ** Observation

    Two [Put]s of one key whose critical sections interleave: the first block goes in
    first, its metadata last.  The block of the second is then given out under the version
    tag of the first. *)
Definition racing_puts (now : Z) (k : InMemCacheBlock) (c1 c2 : PageAlignedDataChunk) (t1 t2 : string)
    (s : storage (gmap string CacheHttpfsDataBlock)) : storage (gmap string CacheHttpfsDataBlock) :=
  let '(id1, s) := take_id s in
  let s := put_block k c1 id1 s in
  let '(id2, s) := take_id s in
  let s := put_meta now k c2 t2 id2 (put_block k c2 id2 s) in
  put_meta now k c1 t1 id1 s.

Lemma racing_puts_mix_versions :
  let k := MkBlock "f" 0 1 in
  let s := racing_puts 0 k (MkChunk (Some [x00]) 1 1) (MkChunk (Some [x01]) 1 1) "old" "new" (new_storage ∅ 0) in
  (Get 0 k "old" s).1 = Some (MkChunk (Some [x01]) 1 1).
Proof. vm_compute. reflexivity. Qed.
