(* ===== verification/Storages.v ===== *)
(** * Storages

    The backend that the settings select, [BuildInMemoryDataCacheStorage]
    ([src/src/in_memory_data_cache_storage.cpp]): one of the three storages behind the
    interface of [DataStorage], with the laws of the one that was selected. *)
From S2P Require Import Prelude Blocks Config LruCache LruSpec ExtensionStorage ObjectStorage.
From S2P Require Import Policy PolicyProofs PolicyStorage PolicyStorageProofs DataStorage.

#[local] Open Scope Z_scope.

Inductive any_storage (O : Type) :=
| AnyExtension (s : ExtensionBoundedDataCacheStorage.storage)
| AnyObject (s : ObjectCacheStorage.storage O)
| AnyPolicy (s : PolicyStorage.storage policy).
Arguments AnyExtension {_} _.
Arguments AnyObject {_} _.
Arguments AnyPolicy {_} _.

(** ** The calls, dispatched *)
Section Dispatch.
Context {O : Type} `{ObjectCache O}.
Implicit Types (s : any_storage O).

Definition any_Put now k c t s : Res (any_storage O) :=
  match s with
  | AnyExtension s => s ← Put now k c t s; Ok (AnyExtension s)
  | AnyObject s => s ← Put now k c t s; Ok (AnyObject s)
  | AnyPolicy s => s ← Put now k c t s; Ok (AnyPolicy s)
  end.

Definition any_Get now k t s : option PageAlignedDataChunk * any_storage O :=
  match s with
  | AnyExtension s => let '(r, s) := Get now k t s in (r, AnyExtension s)
  | AnyObject s => let '(r, s) := Get now k t s in (r, AnyObject s)
  | AnyPolicy s => let '(r, s) := Get now k t s in (r, AnyPolicy s)
  end.

Definition any_Delete k s : bool * any_storage O :=
  match s with
  | AnyExtension s => let '(r, s) := Delete k s in (r, AnyExtension s)
  | AnyObject s => let '(r, s) := Delete k s in (r, AnyObject s)
  | AnyPolicy s => let '(r, s) := Delete k s in (r, AnyPolicy s)
  end.

Definition any_Clear s : any_storage O :=
  match s with
  | AnyExtension s => AnyExtension (Clear s)
  | AnyObject s => AnyObject (Clear s)
  | AnyPolicy s => AnyPolicy (Clear s)
  end.

Definition any_ClearFrom start filter s : any_storage O :=
  match s with
  | AnyExtension s => AnyExtension (ClearFrom start filter s)
  | AnyObject s => AnyObject (ClearFrom start filter s)
  | AnyPolicy s => AnyPolicy (ClearFrom start filter s)
  end.

Definition any_Keys s : list InMemCacheBlock :=
  match s with AnyExtension s => Keys s | AnyObject s => Keys s | AnyPolicy s => Keys s end.

Definition any_Take clock s : Res (list (InMemCacheBlock * InMemCacheDataEntry)) * any_storage O :=
  match s with
  | AnyExtension s => let '(r, s) := Take clock s in (r, AnyExtension s)
  | AnyObject s => let '(r, s) := Take clock s in (r, AnyObject s)
  | AnyPolicy s => let '(r, s) := Take clock s in (r, AnyPolicy s)
  end.

#[export] Instance any_data_storage : InMemoryDataCacheStorage (any_storage O) := {
  Put := any_Put; Get := any_Get; Delete := any_Delete; Clear := any_Clear; ClearFrom := any_ClearFrom;
  Keys := any_Keys; Take := any_Take
}.
End Dispatch.

(** ** Laws *)
Section Laws.
Context {O : Type} `{ObjectCacheLaws O}.
Implicit Types (s : any_storage O).

Definition any_ok s : Prop :=
  match s with AnyExtension s => storage_ok s | AnyObject s => storage_ok s | AnyPolicy s => storage_ok s end.
Definition any_holds s k e : Prop :=
  match s with AnyExtension s => holds s k e | AnyObject s => holds s k e | AnyPolicy s => holds s k e end.

#[export] Program Instance any_storage_laws : StorageLaws (any_storage O) := {|
  storage_ok := any_ok;
  holds := any_holds
|}.
Next Obligation. intros [s|s|s] k e e'; apply holds_functional. Qed.
Next Obligation.
  intros now k c t [s|s|s] s'' Hok Hk Hp; apply bind_Ok in Hp as (s' & Hp & [= <-]);
    by destruct (Put_law now k c t s s' Hok Hk Hp).
Qed.
Next Obligation.
  intros now k c t [s|s|s] Hok Hk Hc; destruct (Put_total now k c t s Hok Hk Hc) as [s' E];
    eexists; unfold Put, any_data_storage, any_Put; rewrite E; done.
Qed.
Next Obligation.
  intros now k t [s|s|s] r s'' Hok; unfold Get, any_data_storage, any_Get; destruct (Get now k t s) as [r' s'] eqn:E;
    intros [= <- <-]; by destruct (Get_law now k t s r' s' Hok E).
Qed.
Next Obligation.
  intros k [s|s|s] b s'' Hok; unfold Delete, any_data_storage, any_Delete; destruct (Delete k s) as [r' s'] eqn:E;
    intros [= <- <-]; by destruct (Delete_law k s r' s' Hok E).
Qed.
Next Obligation. intros [s|s|s] Hok; by apply Clear_law. Qed.
Next Obligation. intros f [s|s|s] Hok; by apply ClearFrom_law. Qed.
Next Obligation. intros [s|s|s] k e; exact (Keys_law s k e). Qed.
Next Obligation.
  intros clock [s|s|s] Hok; destruct (Take_law clock s Hok) as (r & s' & E & H1); exists r; eexists;
    unfold Take, any_data_storage, any_Take; rewrite E; (split; [done|exact H1]).
Qed.
End Laws.

(** ** Construction *)
Section Build.
Context {O : Type} `{ObjectCache O}.
(** [ParseFilePolicySpec]. *)
Variable parse : string -> Z -> Res (list SpecEntry).

Record PolicyStorageOptions := MkPolicyOptions {
  option_max_bytes : Z;
  option_eviction_policy : string;
  option_file_policies : string;
  option_per_file_scope : bool
}.

(** [db_instance]: none, or the object cache of the database. *)
Definition BuildInMemoryDataCacheStorage (mode : string) (db_instance : option O) (max_entries timeout_millisec : Z) :
    Res (any_storage O) :=
  if String.eqb mode OBJECT_CACHE_STORAGE then
    o ← of_option AssertionFailure db_instance; Ok (AnyObject (ObjectCacheStorage.new_storage o timeout_millisec))
  else Ok (AnyExtension (ExtensionBoundedDataCacheStorage.new_storage max_entries timeout_millisec)).

Definition BuildInMemoryDataCacheStorageWith (mode : string) (db_instance : option O) (max_entries timeout_millisec : Z)
    (policy_options : PolicyStorageOptions) : Res (any_storage O) :=
  if String.eqb mode POLICY_STORAGE then
    s ← NewStorage parse (option_max_bytes policy_options) timeout_millisec (option_eviction_policy policy_options)
          (option_file_policies policy_options) (option_per_file_scope policy_options);
    Ok (AnyPolicy s)
  else BuildInMemoryDataCacheStorage mode db_instance max_entries timeout_millisec.
End Build.

Section BuildLaws.
Context {O : Type} `{ObjectCacheLaws O}.
Variable parse : string -> Z -> Res (list SpecEntry).

(** Blocks under the keys of the extension have these keys. *)
Definition well_keyed (o : O) : Prop := forall k b,
  key_ok k -> oc_view o !! ObjectCacheStorage.MakeObjCacheKey k = Some b -> block_key b = k.

(** A budget below [2^63], or none ([0], the default); with a budget, explicit sizes whose sum
    is a 64-bit number. *)
Definition budget_ok (options : PolicyStorageOptions) : Prop :=
  0 <= option_max_bytes options < 9223372036854775808 /\
  forall spec, 0 < option_max_bytes options -> parse (option_file_policies options) (option_max_bytes options) = Ok spec -> spec_sizes_ok spec.

Lemma Build_ok mode (db : option O) max timeout s :
  (forall o, db = Some o -> well_keyed o) -> BuildInMemoryDataCacheStorage mode db max timeout = Ok s ->
  storage_ok s /\ forall k e, ~ holds s k e.
Proof.
  intros Hdb. unfold BuildInMemoryDataCacheStorage. destruct (String.eqb mode OBJECT_CACHE_STORAGE).
  - destruct db as [o|]; simpl; intros [= <-]. split.
    + constructor; simpl; [intros k m; by rewrite lookup_empty|]. by apply Hdb.
    + intros k e (m & b & Hm & _). simpl in Hm. by rewrite lookup_empty in Hm.
  - intros [= <-]. split; [apply new_storage_ok|]. intros k e [ts Hin].
    unfold ExtensionBoundedDataCacheStorage.new_storage in Hin. rewrite (proj2 (new_lru_ok max timeout)) in Hin.
    by apply elem_of_nil in Hin.
Qed.

Lemma BuildWith_ok mode (db : option O) max timeout options s :
  (forall o, db = Some o -> well_keyed o) -> (mode = POLICY_STORAGE -> budget_ok options) ->
  BuildInMemoryDataCacheStorageWith parse mode db max timeout options = Ok s ->
  storage_ok s /\ forall k e, ~ holds s k e.
Proof.
  intros Hdb Hbu. unfold BuildInMemoryDataCacheStorageWith.
  destruct (String.eqb_spec mode POLICY_STORAGE) as [Hmode|]; [|by apply Build_ok]. destruct (Hbu Hmode) as [Hb Hsp].
  intros Hn. apply bind_Ok in Hn as (s' & Hn & [= <-]). unfold NewStorage in Hn.
  destruct (negb (IsValidEvictionPolicy _)); [done|].
  assert (exists spec, (0 < option_max_bytes options -> spec_sizes_ok spec) /\ BuildStorage (option_max_bytes options) timeout (option_eviction_policy options) spec = Ok s')
    as (spec & Hsz & Hs').
  { destruct (option_per_file_scope options).
    - destruct (parse _ _) as [spec|e] eqn:Hp; [|done]. exists spec. split; [|done]. intros. by apply Hsp.
    - exists []. split; [|done]. intros _. split; simpl; lia. }
  split; [|intros k e; by eapply BuildStorage_empty].
  destruct (decide (option_max_bytes options = 0)) as [Hunl|]; [rewrite Hunl in Hs'; by apply BuildStorage_unlimited in Hs'|].
  apply (BuildStorage_ok _ _ _ _ _) in Hs'; [apply Hs'|lia|apply Hsz; lia].
Qed.
End BuildLaws.
