(* ===== verification/ParquetLayout.v ===== *)
(** * ParquetLayout

    Column-chunk granularity: the registry of extents
    ([src/src/parquet_layout_registry.cpp]) and the planner that splits a request
    so that each cache entry is one column chunk
    ([src/src/utils/column_chunk_planner.cpp]). *)
From S2P Require Import Prelude Blocks ReadPlan.

#[local] Open Scope Z_scope.

(** ** Registry *)
Record FileExtent := MkExtent { ext_offset : Z; ext_size : Z }.

#[export] Instance FileExtent_eq_dec : EqDecision FileExtent.
Proof. solve_decision. Defined.

Definition End_ (e : FileExtent) : Z := ext_offset e +u ext_size e.

Abbreviation registry := (gmap string (list FileExtent)).

(** [std::sort] by offset: some ordering of the extents; equal offsets come in an
    unspecified order. *)
Class StdSort := { std_sort : list FileExtent -> list FileExtent }.
Class StdSortLaws `{StdSort} := {
  std_sort_perm l : std_sort l ≡ₚ l;
  std_sort_sorted l : StronglySorted (fun a b => ext_offset a <= ext_offset b) (std_sort l)
}.

(** The loop of [Register] over the sorted extents; [cleaned] is kept in order,
    so [cleaned.back ()] is its last element. *)
Definition clean_step (cleaned : list FileExtent) (extent : FileExtent) : list FileExtent :=
  if ext_size extent =? 0 then cleaned
  else match last cleaned with
       | Some b => if ext_offset extent <? End_ b then cleaned else cleaned ++ [extent]
       | None => cleaned ++ [extent]
       end.
Definition clean (extents : list FileExtent) : list FileExtent := fold_left clean_step extents [].

Definition Register `{StdSort} (path : string) (extents : list FileExtent) (r : registry)
    : Z * registry :=
  let cleaned := clean (std_sort extents) in
  (Z.of_nat (length cleaned), <[path := cleaned]> r).

Definition HasLayout (path : string) (r : registry) : bool := bool_decide (is_Some (r !! path)).

(** [std::upper_bound] and [std::lower_bound] on a partitioned range: the number
    of elements before the partition point. *)
Fixpoint partition_point (before : FileExtent -> bool) (l : list FileExtent) : nat :=
  match l with
  | [] => 0
  | e :: l' => if before e then Datatypes.S (partition_point before l') else 0
  end.

Definition FindExtent (offset : Z) (extents : list FileExtent) : option FileExtent :=
  match partition_point (fun e => negb (offset <? ext_offset e)) extents with
  | O => None
  | Datatypes.S i =>
      match extents !! i with
      | Some e => if offset <? End_ e then Some e else None
      | None => None
      end
  end.

Definition Find (path : string) (offset : Z) (r : registry) : option FileExtent :=
  extents ← r !! path; FindExtent offset extents.

Definition NextStartExtent (offset : Z) (extents : list FileExtent) : option Z :=
  ext_offset <$> extents !! partition_point (fun e => ext_offset e <? offset) extents.

Definition NextStart (path : string) (offset : Z) (r : registry) : option Z :=
  extents ← r !! path; NextStartExtent offset extents.

(** One row of [List]: path, number of extents, bytes covered. *)
Definition layout_row (kv : string * list FileExtent) : string * Z * Z :=
  (kv.1, Z.of_nat (length kv.2), u64 (sum_Z (ext_size <$> kv.2))).
Definition ListLayouts (r : registry) : list (string * Z * Z) := layout_row <$> map_to_list r.

Definition ClearLayouts (r : registry) : registry := ∅.
Definition ClearLayout (path : string) (r : registry) : registry := delete path r.

(** [RegisterParquetLayoutFromFooter]: the rows (start, bytes) that the
    [parquet_metadata] query returned, as signed 64-bit integers, or its error. *)
Definition extents_of_rows (rows : list (Z * Z)) : list FileExtent :=
  omap (fun '(start, nbytes) =>
          if (start <? 0) || (nbytes <=? 0) then None else Some (MkExtent start nbytes)) rows.

Definition RegisterParquetLayoutFromFooter `{StdSort} (query : option (list (Z * Z)))
    (path : string) (r : registry) : Res (Z * registry) :=
  match query with
  | None => Throw InvalidInputException
  | Some rows => Ok (Register path (extents_of_rows rows) r)
  end.

(** ** Planner *)
Record ColumnChunkPlanRequest := MkPlanRequest {
  cc_start_offset : Z;
  cc_bytes_to_read : Z;
  cc_file_size : Z;
  cc_max_gap_entry_size : Z
}.

Section Planner.
Variables (request : ColumnChunkPlanRequest) (path : string) (r : registry).

#[local] Abbreviation req_start := (cc_start_offset request).
Definition req_end : Z := req_start +u cc_bytes_to_read request.
Definition gap_cap : Z :=
  if 0 <? cc_max_gap_entry_size request then cc_max_gap_entry_size request
  else cc_bytes_to_read request.

(** The cache entry for position [pos], before the cap at the end of file. *)
Definition entry_at (pos : Z) : Z * Z :=
  match Find path pos r with
  | Some extent => (ext_offset extent, ext_size extent)
  | None =>
      let gap_end := default (Z.max req_end (cc_file_size request)) (NextStart path pos r) in
      (pos, Z.min gap_cap (gap_end -u pos))
  end.

(** [None]: the entry starts at or after the end of the file ([break]). *)
Definition capped_entry (pos : Z) : option (Z * Z) :=
  let '(entry_start, entry_size) := entry_at pos in
  if 0 <? cc_file_size request then
    if cc_file_size request <=? entry_start then None
    else Some (entry_start, Z.min entry_size (cc_file_size request -u entry_start))
  else Some (entry_start, entry_size).

(** The body of the [while] loop: the next chunk and the next position, or
    [None] on [break]. *)
Definition planner_step (pos : Z) : option (CacheReadChunk * Z) :=
  match capped_entry pos with
  | None => None
  | Some (entry_start, entry_size) =>
      if entry_size =? 0 then None
      else
        let entry_end := entry_start +u entry_size in
        let copy_from := Z.max pos entry_start in
        let copy_to := Z.min req_end entry_end in
        if copy_to <=? copy_from then None
        else Some (MkReadChunk (copy_from -u req_start) copy_from entry_start entry_size
                               (copy_to -u copy_from), copy_to)
  end.

(** [None] when the fuel runs out. *)
Fixpoint planner_loop (fuel : nat) (pos : Z) : option (list CacheReadChunk) :=
  if pos <? req_end then
    match fuel with
    | O => None
    | Datatypes.S fuel' =>
        match planner_step pos with
        | None => Some []
        | Some (c, pos') => cs ← planner_loop fuel' pos'; Some (c :: cs)
        end
    end
  else Some [].
End Planner.

(** Each iteration consumes at least one requested byte. *)
Definition PlanColumnChunks (request : ColumnChunkPlanRequest) (path : string) (r : registry)
    : option (list CacheReadChunk) :=
  if cc_bytes_to_read request =? 0 then Some []
  else planner_loop request path r (Z.to_nat (cc_bytes_to_read request)) (cc_start_offset request).

(** ** Layout invariant *)
Definition extent_fits (e : FileExtent) : Prop :=
  0 <= ext_offset e /\ 0 <= ext_size e /\ ext_offset e + ext_size e < two64.

Inductive layout_ok : list FileExtent -> Prop :=
| layout_nil : layout_ok []
| layout_cons e l :
    extent_fits e -> 0 < ext_size e ->
    (forall e', e' ∈ l -> ext_offset e + ext_size e <= ext_offset e') ->
    layout_ok l -> layout_ok (e :: l).

Definition covers (e : FileExtent) (offset : Z) : Prop :=
  ext_offset e <= offset < ext_offset e + ext_size e.

Definition registry_ok (r : registry) : Prop := map_Forall (fun _ l => layout_ok l) r.

Lemma End_fits e : extent_fits e -> End_ e = ext_offset e + ext_size e.
Proof. intros (? & ? & ?). unfold End_. apply u64_small. lia. Qed.

Lemma layout_ok_elem l e : layout_ok l -> e ∈ l -> extent_fits e /\ 0 < ext_size e.
Proof.
  induction 1 as [|e0 l Hf Hp Hlt Hl IH]; intros Hin; [by inversion Hin|].
  apply elem_of_cons in Hin as [->|]; auto.
Qed.

Lemma layout_ok_app l1 l2 :
  layout_ok (l1 ++ l2) <->
  layout_ok l1 /\ layout_ok l2 /\
  forall a b, a ∈ l1 -> b ∈ l2 -> ext_offset a + ext_size a <= ext_offset b.
Proof.
  induction l1 as [|e l1 IH]; simpl.
  - split; [|tauto]. intros H. split; [apply layout_nil|]. split; [done|].
    intros a b Ha. inversion Ha.
  - split.
    + inversion 1 as [|e' l Hf Hp Hlt Hl]; subst. apply IH in Hl as (H1 & H2 & H3).
      split; [|split; [done|]].
      * constructor; [done..| |done]. intros e' He'. apply Hlt, elem_of_app. by left.
      * intros a b [->|Ha]%elem_of_cons Hb; [|eauto]. apply Hlt, elem_of_app. by right.
    + intros (H1 & H2 & H3). inversion H1 as [|e' l Hf Hp Hlt Hl]; subst.
      constructor; [done..| |].
      * intros e' [He'|He']%elem_of_app; [by apply Hlt|]. apply H3; [by constructor|done].
      * apply IH. split; [done|]. split; [done|]. intros a b Ha Hb. apply H3; [by constructor|done].
Qed.

(** The cleaning loop keeps the invariant as long as the rest of the input is
    sorted after what it has kept. *)
Lemma clean_step_ok cleaned e :
  extent_fits e -> layout_ok cleaned ->
  Forall (fun a => ext_offset a <= ext_offset e) cleaned ->
  layout_ok (clean_step cleaned e) /\
  (forall a, a ∈ clean_step cleaned e -> a ∈ cleaned \/ a = e).
Proof.
  intros Hf Hl Hle. unfold clean_step.
  destruct (Z.eqb_spec (ext_size e) 0) as [|Hz]; [auto|].
  assert (layout_ok [e]) as He.
  { destruct Hf as (? & ? & ?). constructor; [done|lia| |constructor]. intros ? H'. inversion H'. }
  assert (forall a, a ∈ cleaned ++ [e] -> a ∈ cleaned \/ a = e) as Hin.
  { intros a [?|?%list_elem_of_singleton]%elem_of_app; auto. }
  destruct (last cleaned) as [b|] eqn:Hb.
  - apply last_Some in Hb as [l' ->].
    pose proof (proj1 (layout_ok_app _ _) Hl) as (H1 & H2 & H3).
    assert (b ∈ l' ++ [b]) as Hbin by (apply elem_of_app; right; by constructor).
    destruct (layout_ok_elem _ b Hl Hbin) as [Hbf Hbp].
    rewrite End_fits by done. destruct (Z.ltb_spec (ext_offset e) (ext_offset b + ext_size b)); [auto|].
    split; [|done]. apply layout_ok_app. split; [done|]. split; [done|].
    intros a c Ha ->%list_elem_of_singleton. apply elem_of_app in Ha as [Ha|Ha%list_elem_of_singleton].
    + specialize (H3 a b Ha ltac:(by constructor)). lia.
    + subst. lia.
  - apply last_None in Hb as ->. auto.
Qed.

Lemma clean_ok l cleaned :
  StronglySorted (fun a b => ext_offset a <= ext_offset b) l ->
  Forall extent_fits l -> layout_ok cleaned ->
  (forall a b, a ∈ cleaned -> b ∈ l -> ext_offset a <= ext_offset b) ->
  layout_ok (fold_left clean_step l cleaned) /\
  forall a, a ∈ fold_left clean_step l cleaned -> a ∈ cleaned \/ a ∈ l.
Proof.
  revert cleaned. induction l as [|e l IH]; intros cleaned Hs Hf Hl Hle; simpl; [auto|].
  inversion Hs as [|? ? Hs' Hall]; subst. inversion Hf as [|? ? Hfe Hf']; subst.
  destruct (clean_step_ok cleaned e Hfe Hl) as [Hl' Hin].
  { apply Forall_forall. intros a Ha. apply Hle; [done|by constructor]. }
  destruct (IH (clean_step cleaned e) Hs' Hf' Hl') as [Hok Hel].
  { intros a b Ha Hb. rewrite Forall_forall in Hall.
    destruct (Hin a Ha) as [|Hae]; [apply Hle; [done|by constructor]|subst; auto]. }
  split; [done|]. intros a [Ha|Ha]%Hel; [|right; by constructor].
  destruct (Hin a Ha) as [|Hae]; [by left|subst; right; by constructor].
Qed.

(** ** Lookups *)
Lemma partition_point_spec before l :
  l = take (partition_point before l) l ++ drop (partition_point before l) l /\
  Forall (fun e => before e = true) (take (partition_point before l) l) /\
  forall e, l !! partition_point before l = Some e -> before e = false.
Proof.
  split; [by rewrite take_drop|]. induction l as [|e l [IH1 IH2]]; simpl; [done|].
  destruct (before e) eqn:He; simpl; [auto|]. split; [constructor|]. by intros e' [= <-].
Qed.

Lemma partition_point_le before l : (partition_point before l <= length l)%nat.
Proof. induction l as [|e l IH]; simpl; [lia|]. destruct (before e); lia. Qed.

Lemma layout_ok_ordered l i j a b :
  layout_ok l -> l !! i = Some a -> l !! j = Some b -> (i < j)%nat ->
  ext_offset a + ext_size a <= ext_offset b.
Proof.
  intros Hl. revert i j. induction Hl as [|e l Hf Hp Hlt Hl IH]; intros i j Hi Hj Hij; [done|].
  destruct j as [|j]; [lia|]. destruct i as [|i]; simpl in *.
  - injection Hi as <-. apply Hlt. by eapply list_elem_of_lookup_2.
  - apply (IH i j); [done..|lia].
Qed.

Lemma partition_point_ordered before l i e :
  l !! i = Some e -> (i < partition_point before l)%nat -> before e = true.
Proof.
  intros Hi Hlt. destruct (partition_point_spec before l) as (_ & Hall & _).
  rewrite Forall_forall in Hall. apply Hall. apply (list_elem_of_lookup_2 _ i).
  by rewrite lookup_take_lt.
Qed.

(** [Find] returns the extent that covers the offset, when there is one. *)
Lemma FindExtent_spec l offset e :
  layout_ok l -> FindExtent offset l = Some e <-> e ∈ l /\ covers e offset.
Proof.
  intros Hl. unfold FindExtent. set (before := fun e => negb (offset <? ext_offset e)).
  assert (forall e, before e = true <-> ext_offset e <= offset) as Hb.
  { intros e'. unfold before. rewrite negb_true_iff, Z.ltb_ge. done. }
  destruct (partition_point_spec before l) as (_ & _ & Hstop).
  assert (forall i a, l !! i = Some a -> ext_offset a <= offset -> (i < partition_point before l)%nat) as Hin.
  { intros i a Hi Ha. destruct (decide (i < partition_point before l)%nat) as [|Hge]; [done|].
    destruct (lookup_lt_is_Some_2 l (partition_point before l)) as [s Hs];
      [apply lookup_lt_Some in Hi; lia|].
    specialize (Hstop s Hs). apply not_true_iff_false in Hstop. rewrite Hb in Hstop.
    destruct (decide (i = partition_point before l)) as [->|]; [simplify_eq; lia|].
    pose proof (layout_ok_ordered _ _ _ _ _ Hl Hs Hi ltac:(lia)).
    destruct (layout_ok_elem _ s Hl) as [? ?]; [by eapply list_elem_of_lookup_2|]. lia. }
  destruct (partition_point before l) as [|i] eqn:Hpp.
  { split; [done|]. intros [[i Hi]%list_elem_of_lookup [Hc _]]. specialize (Hin i e Hi Hc). lia. }
  destruct (l !! i) as [a|] eqn:Ha.
  - pose proof (partition_point_ordered before l i a Ha ltac:(lia)) as Hba. apply Hb in Hba.
    destruct (layout_ok_elem _ a Hl) as [Hfa Hpa]; [by eapply list_elem_of_lookup_2|].
    rewrite End_fits by done. unfold covers.
    destruct (Z.ltb_spec offset (ext_offset a + ext_size a)) as [Hlt|Hge].
    + split; [intros [= <-]; split; [by eapply list_elem_of_lookup_2|lia]|].
      intros [[j Hj]%list_elem_of_lookup [Hc1 Hc2]]. pose proof (Hin j e Hj Hc1).
      destruct (decide (j = i)) as [->|]; [congruence|].
      pose proof (layout_ok_ordered _ j i _ _ Hl Hj Ha ltac:(lia)). lia.
    + split; [done|]. intros [[j Hj]%list_elem_of_lookup [Hc1 Hc2]]. pose proof (Hin j e Hj Hc1).
      destruct (decide (j = i)) as [->|]; [simplify_eq; lia|].
      pose proof (layout_ok_ordered _ j i _ _ Hl Hj Ha ltac:(lia)). lia.
  - pose proof (partition_point_le before l). apply lookup_ge_None in Ha. lia.
Qed.

(** [NextStart] returns the smallest start at or after the offset. *)
Lemma NextStartExtent_spec l offset s :
  layout_ok l -> NextStartExtent offset l = Some s ->
  offset <= s /\ (exists e, e ∈ l /\ ext_offset e = s) /\
  forall e, e ∈ l -> offset <= ext_offset e -> s <= ext_offset e.
Proof.
  intros Hl. unfold NextStartExtent. set (before := fun e => ext_offset e <? offset).
  destruct (l !! partition_point before l) as [a|] eqn:Ha; [|done]. simpl. intros [= <-].
  destruct (partition_point_spec before l) as (_ & _ & Hstop).
  specialize (Hstop a Ha). unfold before in Hstop. apply Z.ltb_ge in Hstop.
  split; [done|]. split; [exists a; split; [by eapply list_elem_of_lookup_2|done]|].
  intros e [i Hi]%list_elem_of_lookup He.
  destruct (decide (i < partition_point before l)%nat) as [Hlt|Hge].
  - pose proof (partition_point_ordered before l i e Hi Hlt) as Hbe. unfold before in Hbe.
    apply Z.ltb_lt in Hbe. lia.
  - destruct (decide (i = partition_point before l)) as [->|]; [simplify_eq; lia|].
    pose proof (layout_ok_ordered _ _ _ _ _ Hl Ha Hi ltac:(lia)).
    destruct (layout_ok_elem _ a Hl) as [_ ?]; [by eapply list_elem_of_lookup_2|]. lia.
Qed.

Lemma NextStartExtent_None l offset e :
  layout_ok l -> NextStartExtent offset l = None -> e ∈ l -> ext_offset e < offset.
Proof.
  intros Hl. unfold NextStartExtent. set (before := fun e => ext_offset e <? offset).
  destruct (l !! partition_point before l) as [a|] eqn:Ha; [done|]. intros _ [i Hi]%list_elem_of_lookup.
  apply lookup_ge_None in Ha. apply lookup_lt_Some in Hi as Hlt.
  pose proof (partition_point_ordered before l i e Hi ltac:(lia)) as Hbe. by apply Z.ltb_lt.
Qed.

Lemma Register_ok `{StdSortLaws} path extents r :
  Forall extent_fits extents -> registry_ok r ->
  registry_ok (Register path extents r).2 /\
  exists l, (Register path extents r).2 !! path = Some l /\ layout_ok l /\
            (Register path extents r).1 = Z.of_nat (length l) /\
            forall e, e ∈ l -> e ∈ extents.
Proof.
  intros Hf Hr. unfold Register. simpl.
  destruct (clean_ok (std_sort extents) []) as [Hok Hin].
  - apply std_sort_sorted.
  - by rewrite std_sort_perm.
  - constructor.
  - intros a b Ha. inversion Ha.
  - split; [by apply map_Forall_insert_2|]. exists (clean (std_sort extents)).
    rewrite lookup_insert_eq. do 3 (split; [done|]). intros e [He|He]%Hin; [inversion He|].
    by rewrite std_sort_perm in He.
Qed.

(** ** Correctness of the planner *)
Section PlannerFacts.
Variables (start n file_size gap : Z) (path : string) (r : registry).
Hypothesis Hr : registry_ok r.
Hypothesis Hstart : 0 <= start.
Hypothesis Hn : 0 < n.
Hypothesis Hend : start + n <= file_size.
Hypothesis Hfile : file_size < two64.
Hypothesis Hgap : 0 <= gap.

#[local] Abbreviation request := (MkPlanRequest start n file_size gap).
Definition layout_of : list FileExtent := default [] (r !! path).

(** Entries are a whole column chunk (up to the end of file) or a stretch
    that no column chunk meets. *)
Definition entry_kind (es sz : Z) : Prop :=
  (exists e, e ∈ layout_of /\ es = ext_offset e /\ sz = Z.min (ext_size e) (file_size - es)) \/
  (sz <= gap_cap request /\ forall e off, e ∈ layout_of -> covers e off -> ~ es <= off < es + sz).

Lemma layout_of_ok : layout_ok layout_of.
Proof.
  unfold layout_of. destruct (r !! path) as [l|] eqn:Hl; [by apply (Hr path l)|constructor].
Qed.

Lemma Find_layout pos e :
  Find path pos r = Some e <-> e ∈ layout_of /\ covers e pos.
Proof.
  rewrite <-FindExtent_spec by apply layout_of_ok. unfold Find, layout_of.
  by destruct (r !! path).
Qed.

Lemma NextStart_layout pos : NextStart path pos r = NextStartExtent pos layout_of.
Proof. unfold NextStart, layout_of. by destruct (r !! path). Qed.

Lemma req_end_eq : req_end request = start + n.
Proof. unfold req_end. simpl. apply u64_small. lia. Qed.

Lemma gap_cap_pos : 0 < gap_cap request.
Proof. unfold gap_cap. simpl. case_match; lia. Qed.

Lemma capped_entry_spec pos :
  start <= pos < start + n ->
  exists es sz, capped_entry request path r pos = Some (es, sz) /\
    0 <= es <= pos /\ pos < es + sz <= file_size /\ entry_kind es sz.
Proof.
  intros Hpos. pose proof layout_of_ok as Hlok. pose proof gap_cap_pos as Hcap.
  unfold capped_entry, entry_at. destruct (Find path pos r) as [e|] eqn:Hf; simpl.
  - apply Find_layout in Hf as [He Hc]. destruct (layout_ok_elem _ _ Hlok He) as [(? & ? & ?) ?].
    unfold covers in Hc. rewrite (proj2 (Z.ltb_lt 0 file_size)) by lia.
    rewrite (proj2 (Z.leb_gt _ _)) by lia. u64_norm. do 2 eexists. split; [done|].
    split; [lia|]. split; [lia|]. left. exists e. auto.
  - assert (forall e, e ∈ layout_of -> ~ covers e pos) as Hno.
    { intros e He Hc. by rewrite (proj2 (Find_layout pos e) (conj He Hc)) in Hf. }
    rewrite (proj2 (Z.ltb_lt 0 file_size)) by lia.
    rewrite (proj2 (Z.leb_gt _ _)) by lia. rewrite NextStart_layout, req_end_eq.
    destruct (NextStartExtent pos layout_of) as [s|] eqn:Hs; simpl.
    + destruct (NextStartExtent_spec _ _ _ Hlok Hs) as (Hle & (e & He & Heq) & Hmin).
      destruct (layout_ok_elem _ _ Hlok He) as [(? & ? & ?) ?].
      assert (s <> pos) by (intros ->; apply (Hno e He); unfold covers; lia).
      u64_norm. do 2 eexists. split; [done|]. split; [lia|]. split; [lia|]. right.
      split; [lia|]. intros e' off He' Hc' Hoff.
      destruct (decide (pos <= ext_offset e')) as [Hge|Hlt].
      * specialize (Hmin e' He' Hge). unfold covers in Hc'. lia.
      * apply (Hno e' He'). unfold covers in *. lia.
    + u64_norm. do 2 eexists. split; [done|]. split; [lia|]. split; [lia|]. right.
      split; [lia|]. intros e' off He' Hc' Hoff.
      pose proof (NextStartExtent_None _ _ _ Hlok Hs He'). apply (Hno e' He'). unfold covers in *. lia.
Qed.

Lemma planner_step_spec pos :
  start <= pos < start + n ->
  exists c pos', planner_step request path r pos = Some (c, pos') /\
    pos < pos' <= start + n /\ requested_start_offset c = pos /\
    requested_start_addr c = pos - start /\ bytes_to_copy c = pos' - pos /\
    0 <= aligned_start_offset c <= pos /\
    pos' <= aligned_start_offset c + chunk_size c <= file_size /\
    entry_kind (aligned_start_offset c) (chunk_size c).
Proof.
  intros Hpos. destruct (capped_entry_spec pos Hpos) as (es & sz & He & Hes & Hsz & Hk).
  unfold planner_step. rewrite He, req_end_eq. simpl.
  rewrite (proj2 (Z.eqb_neq _ _)) by lia. u64_norm. rewrite (proj2 (Z.leb_gt _ _)) by lia.
  do 2 eexists. split; [done|]. simpl. u64_norm.
  do 6 (split; [lia|]). done.
Qed.

Lemma planner_loop_tiles fuel pos :
  start <= pos <= start + n -> (Z.to_nat (start + n - pos) <= fuel)%nat ->
  exists cs, planner_loop request path r fuel pos = Some cs /\
    tiles file_size cs pos (pos - start) (start + n) /\
    Forall (fun c => entry_kind (aligned_start_offset c) (chunk_size c)) cs.
Proof.
  revert pos. induction fuel as [|fuel IH]; intros pos Hpos Hfuel; simpl; rewrite req_end_eq.
  - assert (pos = start + n) as -> by lia. rewrite Z.ltb_irrefl. exists [].
    split; [done|]. split; [constructor|done].
  - destruct (Z.ltb_spec pos (start + n)) as [Hlt|Hge].
    + destruct (planner_step_spec pos) as (c & pos' & Hs & Hp & H1 & H2 & H3 & H4 & H5 & H6); [lia|].
      rewrite Hs. destruct (IH pos') as (cs & Hcs & Ht & Hk); [lia..|]. rewrite Hcs. simpl.
      eexists. split; [done|]. split; [|by constructor].
      constructor; try done; try lia. rewrite H3.
      replace (pos + (pos' - pos)) with pos' by lia.
      replace (pos - start + (pos' - pos)) with (pos' - start) by lia. done.
    + assert (pos = start + n) as -> by lia. exists [].
      split; [done|]. split; [constructor|done].
Qed.

Lemma PlanColumnChunks_tiles :
  exists cs, PlanColumnChunks request path r = Some cs /\
    tiles file_size cs start 0 (start + n) /\
    Forall (fun c => entry_kind (aligned_start_offset c) (chunk_size c)) cs.
Proof.
  unfold PlanColumnChunks. simpl. rewrite (proj2 (Z.eqb_neq _ _)) by lia.
  destruct (planner_loop_tiles (Z.to_nat n) start) as (cs & H1 & H2 & H3); [lia..|].
  exists cs. by replace (start - start) with 0 in H2 by lia.
Qed.
End PlannerFacts.

(** ** A concrete sort *)
#[export] Instance extent_le_dec :
  RelDecision (fun a b : FileExtent => ext_offset a <= ext_offset b).
Proof. intros a b. apply _. Defined.

Definition merge_std_sort : StdSort :=
  {| std_sort := merge_sort (fun a b => ext_offset a <= ext_offset b) |}.

Lemma merge_std_sort_laws : @StdSortLaws merge_std_sort.
Proof.
  split; simpl.
  - apply merge_sort_Permutation.
  - intros l. apply StronglySorted_merge_sort; [intros ???; lia|intros a b; lia].
Qed.

Definition sample_extents : list FileExtent :=
  [MkExtent 20 10; MkExtent 4 6; MkExtent 8 3; MkExtent 12 0; MkExtent 10 5].
Definition sample_registry : registry :=
  (@Register merge_std_sort "f" sample_extents ∅).2.

Example sample_registry_layout :
  sample_registry !! "f"%string = Some [MkExtent 4 6; MkExtent 10 5; MkExtent 20 10].
Proof. vm_compute. reflexivity. Qed.

Example sample_plan :
  PlanColumnChunks (MkPlanRequest 2 20 28 4) "f" sample_registry =
    Some [MkReadChunk 0 2 2 2 2; MkReadChunk 2 4 4 6 6; MkReadChunk 8 10 10 5 5;
          MkReadChunk 13 15 15 4 4; MkReadChunk 17 19 19 1 1; MkReadChunk 18 20 20 8 2].
Proof. vm_compute. reflexivity. Qed.

(** ** Properties *)
Lemma layout_ok_unique l e e' x :
  layout_ok l -> e ∈ l -> e' ∈ l -> covers e x -> covers e' x -> e = e'.
Proof.
  intros Hl [i Hi]%list_elem_of_lookup [j Hj]%list_elem_of_lookup Hc Hc'. unfold covers in *.
  destruct (Nat.lt_trichotomy i j) as [Hlt|[->|Hlt]]; [|congruence|].
  - pose proof (layout_ok_ordered _ _ _ _ _ Hl Hi Hj Hlt). lia.
  - pose proof (layout_ok_ordered _ _ _ _ _ Hl Hj Hi Hlt). lia.
Qed.

(** [Register] stores, whatever order [std::sort] gives equal offsets, a list
    of non-empty pairwise disjoint extents in ascending order taken from its
    input, returns their number, leaves the other files alone, and [Find] on the
    result answers an offset with the one stored extent that covers it. *)
Theorem register_then_find `{StdSortLaws} path extents r :
  Forall extent_fits extents -> registry_ok r ->
  exists l, let '(count, r') := Register path extents r in
    r' !! path = Some l /\ registry_ok r' /\ count = Z.of_nat (length l) /\
    (forall e, e ∈ l -> e ∈ extents) /\
    (forall path', path' <> path -> r' !! path' = r !! path') /\
    (forall offset e, Find path offset r' = Some e <-> e ∈ l /\ covers e offset).
Proof.
  intros Hf Hr. destruct (Register_ok path extents r Hf Hr) as (Hr' & l & Hl & Hok & Hc & Hin).
  exists l. unfold Register in *. simpl in *. do 4 (split; [done|]). split.
  - intros path' Hne. by rewrite lookup_insert_ne.
  - intros offset e. unfold Find. rewrite Hl. simpl. by apply FindExtent_spec.
Qed.

Lemma register_then_find_witness :
  exists l, let '(count, r') := @Register merge_std_sort "f" sample_extents ∅ in
    r' !! "f"%string = Some l /\ registry_ok r' /\ count = Z.of_nat (length l) /\
    (forall e, e ∈ l -> e ∈ sample_extents) /\
    (forall path', path' <> "f"%string -> r' !! path' = (∅ : registry) !! path') /\
    (forall offset e, Find "f" offset r' = Some e <-> e ∈ l /\ covers e offset).
Proof.
  apply (@register_then_find merge_std_sort merge_std_sort_laws "f" sample_extents ∅).
  - repeat constructor; simpl; lia.
  - apply map_Forall_empty.
Defined.

(** C10: For a request inside the file, [PlanColumnChunks] ends within one
    iteration per requested byte and its chunks tile the request; every cache
    entry it names is a whole registered column chunk (cut at the end of the file)
    or meets no registered column chunk at all and is at most the gap cap long. *)
Theorem column_plan_tiles_request start n file_size gap path r :
  registry_ok r -> 0 <= start -> 0 < n -> start + n <= file_size -> file_size < two64 ->
  0 <= gap ->
  exists cs, PlanColumnChunks (MkPlanRequest start n file_size gap) path r = Some cs /\
    tiles file_size cs start 0 (start + n) /\
    Forall (fun c => entry_kind start n file_size gap path r (aligned_start_offset c) (chunk_size c)) cs.
Proof. intros. by apply PlanColumnChunks_tiles. Qed.

Lemma sample_registry_ok : registry_ok sample_registry.
Proof.
  apply (@Register_ok merge_std_sort merge_std_sort_laws).
  - repeat constructor; simpl; lia.
  - apply map_Forall_empty.
Qed.

Lemma column_plan_tiles_request_witness :
  exists cs, PlanColumnChunks (MkPlanRequest 2 20 28 4) "f" sample_registry = Some cs /\
    tiles 28 cs 2 0 (2 + 20) /\
    Forall (fun c => entry_kind 2 20 28 4 "f" sample_registry (aligned_start_offset c) (chunk_size c)) cs.
Proof. apply (column_plan_tiles_request 2 20 28 4); [apply sample_registry_ok|lia..]. Defined.

(** Whatever requests are planned, a byte that a registered column chunk
    covers is always served from the same cache entry, that column chunk: two
    requests for slices of one column chunk share its entry. *)
Theorem column_chunk_entry_canonical start n start' n' file_size gap path r cs cs' e c c' x :
  registry_ok r -> 0 <= start -> 0 < n -> start + n <= file_size ->
  0 <= start' -> 0 < n' -> start' + n' <= file_size -> file_size < two64 -> 0 <= gap ->
  PlanColumnChunks (MkPlanRequest start n file_size gap) path r = Some cs ->
  PlanColumnChunks (MkPlanRequest start' n' file_size gap) path r = Some cs' ->
  e ∈ layout_of path r -> covers e x ->
  c ∈ cs -> aligned_start_offset c <= x < aligned_start_offset c + chunk_size c ->
  c' ∈ cs' -> aligned_start_offset c' <= x < aligned_start_offset c' + chunk_size c' ->
  aligned_start_offset c = ext_offset e /\ aligned_start_offset c' = ext_offset e /\
  chunk_size c = Z.min (ext_size e) (file_size - ext_offset e) /\ chunk_size c' = chunk_size c.
Proof.
  intros Hr H1 H2 H3 H1' H2' H3' Hf Hg Hp Hp' He Hx Hc Hcx Hc' Hcx'.
  assert (forall s m d ds, 0 <= s -> 0 < m -> s + m <= file_size ->
    PlanColumnChunks (MkPlanRequest s m file_size gap) path r = Some ds -> d ∈ ds ->
    aligned_start_offset d <= x < aligned_start_offset d + chunk_size d ->
    aligned_start_offset d = ext_offset e /\
    chunk_size d = Z.min (ext_size e) (file_size - ext_offset e)) as Hcanon.
  { intros s m d ds Hs Hm Hsm Hpd Hd Hdx.
    destruct (PlanColumnChunks_tiles s m file_size gap path r) as (ds' & Hpd' & _ & Hk); [done..|].
    simplify_eq. rewrite Forall_forall in Hk.
    destruct (Hk d Hd) as [(e' & He' & Hoff & Hsz)|[_ Hno]]; [|exfalso; by eapply Hno].
    assert (e' = e) as -> by (eapply (layout_ok_unique _ _ _ x (layout_of_ok path r Hr));
      [done..| |done]; unfold covers; lia). split; congruence. }
  destruct (Hcanon start n c cs) as [-> ->]; [done..|].
  destruct (Hcanon start' n' c' cs') as [-> ->]; [done..|]. auto.
Qed.

Lemma column_chunk_entry_canonical_witness :
  let c := MkReadChunk 2 4 4 6 6 in
  let c' := MkReadChunk 0 7 4 6 3 in
  aligned_start_offset c = 4 /\ aligned_start_offset c' = 4 /\
  chunk_size c = Z.min 6 (28 - 4) /\ chunk_size c' = chunk_size c.
Proof.
  apply (column_chunk_entry_canonical 2 20 7 3 28 4 "f" sample_registry
    [MkReadChunk 0 2 2 2 2; MkReadChunk 2 4 4 6 6; MkReadChunk 8 10 10 5 5;
     MkReadChunk 13 15 15 4 4; MkReadChunk 17 19 19 1 1; MkReadChunk 18 20 20 8 2]
    [MkReadChunk 0 7 4 6 3] (MkExtent 4 6) _ _ 8);
    try (simpl; lia); try (vm_compute; reflexivity).
  - apply sample_registry_ok.
  - vm_compute. by constructor.
  - unfold covers. simpl. lia.
  - by apply elem_of_cons; right; constructor.
  - by constructor.
Defined.
