(* ===== verification/Remap.v ===== *)
(** * Remap

    [RemapInMemCacheEntries] ([src/src/in_mem_cache_remap.cpp]): after a change of
    the block size, the entries drained from the cache are cut again on the new
    grid.  Runs of adjacent entries with one version tag are re-emitted. *)
From S2P Require Import Prelude OrdMap Blocks DataStorage.

#[local] Open Scope Z_scope.

#[export] Program Instance Z_less : KeyCompare Z := {| less := Z.ltb |}.
Next Obligation. intros a. apply Z.ltb_irrefl. Qed.
Next Obligation. intros a b c. rewrite !Z.ltb_lt. lia. Qed.
Next Obligation. intros a b. rewrite !Z.ltb_lt. lia. Qed.

Record CachedSlice := MkSlice { byte_len : Z; slice_entry : InMemCacheDataEntry }.
Record Segment := MkSegment { seg_start : Z; seg_len : Z; seg_entry : InMemCacheDataEntry }.

Abbreviation pair := (InMemCacheBlock * InMemCacheDataEntry)%type (only parsing).

Definition AlignUpToBlock (offset block : Z) : Z :=
  let aligned := (offset / block) *u block in
  if aligned <? offset then aligned +u block else aligned.

(** [while (idx < segs.size () && pos >= segs[idx].start + segs[idx].byte_len) ++idx];
    [fuel] is the number of segments left. *)
Fixpoint skip_segments (fuel : nat) (segs : list Segment) (idx : nat) (pos : Z) : nat :=
  match fuel with
  | O => idx
  | S fuel =>
      match segs !! idx with
      | Some seg =>
          if seg_start seg +u seg_len seg <=? pos then skip_segments fuel segs (S idx) pos else idx
      | None => idx
      end
  end.

(** [CopyRange]: one turn of the loop copies at least a byte, so [copy_len] turns
    are enough; running out of them stands for a loop without end. *)
Fixpoint copy_range (fuel : nat) (segs : list Segment) (idx : nat) (global_start copy_len : Z)
    (done_ : Z) (dest : list byte) : Res (list byte) :=
  if done_ <? copy_len then
    match fuel with
    | O => Throw UndefinedBehaviour
    | S fuel =>
        let pos := global_start +u done_ in
        let idx := skip_segments (length segs - idx) segs idx pos in
        seg ← of_option AssertionFailure (segs !! idx);
        _ ← always_assert (seg_start seg <=? pos);
        _ ← always_assert (pos <? seg_start seg +u seg_len seg);
        let inner := pos -u seg_start seg in
        let chunk := Z.min (seg_len seg -u inner) (copy_len -u done_) in
        bytes ← of_option UndefinedBehaviour (read_at (data (entry_data (seg_entry seg))) inner chunk);
        dest' ← of_option UndefinedBehaviour (write_at dest done_ bytes);
        copy_range fuel segs idx global_start copy_len (done_ +u chunk) dest'
    end
  else Ok dest.

Definition CopyRange (segs : list Segment) (seg_hint : nat) (global_start copy_len : Z)
    (dest : list byte) : Res (list byte) :=
  copy_range (Z.to_nat copy_len) segs seg_hint global_start copy_len 0 dest.

(** [BuildFileIndex]: [emplace] keeps the first slice at an offset. *)
Definition index_entry (by_file : gmap string (gmap Z CachedSlice)) (kv : pair) :
    Res (gmap string (gmap Z CachedSlice)) :=
  let '(key, val) := kv in
  _ ← always_assert (negb (chunk_empty (entry_data val)));
  _ ← always_assert (c_length (entry_data val) =? blk_size key);
  let blocks := default ∅ (by_file !! fname key) in
  let blocks' := match blocks !! start_off key with
                 | Some _ => blocks
                 | None => <[start_off key := MkSlice (blk_size key) val]> blocks
                 end in
  Ok (<[fname key := blocks']> by_file).

Fixpoint build_index (by_file : gmap string (gmap Z CachedSlice)) (taken : list pair) :
    Res (gmap string (gmap Z CachedSlice)) :=
  match taken with
  | [] => Ok by_file
  | kv :: taken' => by_file' ← index_entry by_file kv; build_index by_file' taken'
  end.

Definition BuildFileIndex (taken : list pair) : Res (gmap string (gmap Z CachedSlice)) :=
  build_index ∅ taken.

Section Emit.
Variables (page_size : Z) (al : Allocator).
Variables (new_block_size : Z) (file_size_by_path : gmap string Z).

(** The body of both loops of [EmitRunOnNewGrid]. *)
Definition emit_block (f : string) (B len : Z) (run_segments : list Segment) (run_tag : string) :
    Res pair :=
  chunk ← AllocatePageAlignedChunk page_size al len;
  bytes ← CopyRange run_segments 0 B len (data chunk);
  Ok (MkBlock f B len, MkEntry (MkChunk (Some bytes) len (c_capacity chunk)) run_tag).

Fixpoint emit_full_blocks (fuel : nat) (f : string) (B run_end : Z) (run_segments : list Segment)
    (run_tag : string) (out : list pair) : Res (list pair) :=
  if B +u new_block_size <=? run_end then
    match fuel with
    | O => Throw UndefinedBehaviour
    | S fuel =>
        kv ← emit_block f B new_block_size run_segments run_tag;
        emit_full_blocks fuel f (B +u new_block_size) run_end run_segments run_tag (out ++ [kv])
    end
  else Ok out.

Fixpoint emit_pieces (fuel : nat) (f : string) (B emit_end : Z) (run_segments : list Segment)
    (run_tag : string) (out : list pair) : Res (list pair) :=
  if B <? emit_end then
    match fuel with
    | O => Throw UndefinedBehaviour
    | S fuel =>
        let piece_len := Z.min new_block_size (emit_end -u B) in
        kv ← emit_block f B piece_len run_segments run_tag;
        emit_pieces fuel f (AlignUpToBlock (B +u piece_len) new_block_size) emit_end run_segments
          run_tag (out ++ [kv])
    end
  else Ok out.

(** [EmitRunOnNewGrid]; a turn of either loop covers at least a byte of the run. *)
Definition EmitRunOnNewGrid (f : string) (run_start run_end : Z) (run_segments : list Segment)
    (run_tag : string) (out : list pair) : Res (list pair) :=
  let known := file_size_by_path !! f in
  let emit_end := match known with Some file_size => Z.min run_end file_size | None => run_end end in
  if emit_end <=? run_start then Ok out
  else
    let fuel := Z.to_nat (run_end - run_start) in
    let B := AlignUpToBlock run_start new_block_size in
    if match known with Some file_size => run_end <? file_size | None => false end then
      emit_full_blocks fuel f B run_end run_segments run_tag out
    else emit_pieces fuel f B emit_end run_segments run_tag out.

(** The locals of [RemapOneFile]. *)
Record remap_state := MkRemap {
  in_run : bool;
  run_start : Z;
  run_end : Z;
  run_tag : string;
  run_segments : list Segment;
  remap_out : list pair
}.

Definition flush_run (f : string) (st : remap_state) : Res remap_state :=
  if negb (in_run st) then Ok st
  else
    o ← EmitRunOnNewGrid f (run_start st) (run_end st) (run_segments st) (run_tag st) (remap_out st);
    Ok (MkRemap false (run_start st) (run_end st) (run_tag st) [] o).

Definition begin_run (s len : Z) (entry : InMemCacheDataEntry) (st : remap_state) : remap_state :=
  MkRemap true s (s +u len) (version_tag entry) [MkSegment s len entry] (remap_out st).

Definition remap_step (f : string) (off_and_slice : Z * CachedSlice) (st : remap_state) :
    Res remap_state :=
  let s := off_and_slice.1 in
  let len := byte_len off_and_slice.2 in
  let entry := slice_entry off_and_slice.2 in
  if len =? 0 then Ok st
  else if negb (in_run st) then Ok (begin_run s len entry st)
  else if s <? run_end st then Ok st
  else if (s =? run_end st) && String.eqb (version_tag entry) (run_tag st) then
    Ok (MkRemap true (run_start st) (s +u len) (run_tag st)
                (run_segments st ++ [MkSegment s len entry]) (remap_out st))
  else st' ← flush_run f st; Ok (begin_run s len entry st').

Fixpoint remap_steps (f : string) (slices : list (Z * CachedSlice)) (st : remap_state) :
    Res remap_state :=
  match slices with
  | [] => Ok st
  | sl :: slices' => st' ← remap_step f sl st; remap_steps f slices' st'
  end.

(** The slices of one file in ascending order of offset. *)
Definition ordered_slices (blk_map : gmap Z CachedSlice) : list (Z * CachedSlice) :=
  omap (fun s => (s,.) <$> blk_map !! s) (sorted_keys blk_map).

Definition RemapOneFile (f : string) (blk_map : gmap Z CachedSlice) (out : list pair) :
    Res (list pair) :=
  st ← remap_steps f (ordered_slices blk_map) (MkRemap false 0 0 "" [] out);
  st' ← flush_run f st;
  Ok (remap_out st').

Fixpoint remap_files (files : list (string * gmap Z CachedSlice)) (out : list pair) :
    Res (list pair) :=
  match files with
  | [] => Ok out
  | (f, blk_map) :: files' => out' ← RemapOneFile f blk_map out; remap_files files' out'
  end.

Definition RemapInMemCacheEntries (taken : list pair) : Res (list pair) :=
  if new_block_size =? 0 then Ok []
  else by_file ← BuildFileIndex taken; remap_files (map_to_list by_file) [].
End Emit.

(** ** Correctness *)
Section Correctness.
Variable content : string -> string -> list byte.
Variables (page_size : Z) (al : Allocator).
Variables (bs : Z) (file_size_by_path : gmap string Z).
Hypothesis page_pos : 0 < page_size.
Hypothesis bs_pos : 0 < bs.
Hypothesis files_fit : forall f t, Z.of_nat (length (content f t)) + 2 * bs + page_size < two64.

#[local] Abbreviation flen f t := (Z.of_nat (length (content f t))).

Lemma AlignUp_ok off : 0 <= off -> off + bs < two64 ->
  off <= AlignUpToBlock off bs < off + bs /\ AlignUpToBlock off bs mod bs = 0.
Proof.
  intros H0 H1. unfold AlignUpToBlock. pose proof (align_down off bs H0 bs_pos) as Ha.
  pose proof (Z.div_pos off bs H0 bs_pos) as Hd. rewrite (u64_small (off / bs * bs)) by nia.
  destruct (Z.ltb_spec (off / bs * bs) off) as [Hlt|Hge].
  - rewrite u64_small by nia. split; [lia|].
    replace (off / bs * bs + bs) with ((off / bs + 1) * bs) by lia. apply Z.mod_mul. lia.
  - split; [lia|]. apply Z.mod_mul. lia.
Qed.

(** A run: adjacent segments of one version of a file. *)
Inductive chain (f t : string) : Z -> Z -> list Segment -> Prop :=
| chain_nil s : chain f t s s []
| chain_cons s e seg segs :
    seg_start seg = s -> truthful content (MkBlock f s (seg_len seg)) (seg_entry seg) ->
    version_tag (seg_entry seg) = t -> chain f t (s + seg_len seg) e segs ->
    chain f t s e (seg :: segs).

Lemma chain_le f t s e segs : chain f t s e segs -> s <= e.
Proof. induction 1 as [|s e seg segs _ (_ & ? & _) _ _ IH]; simpl in *; lia. Qed.

Lemma chain_bounds f t s e segs : chain f t s e segs -> segs <> [] -> 0 <= s /\ e <= flen f t.
Proof.
  induction 1 as [|s e seg segs _ (H0 & H1 & H2 & _) Ht Hc IH]; [done|]. intros _. simpl in *.
  subst t. split; [lia|]. destruct segs as [|seg' segs].
  - inversion Hc; subst. lia.
  - by apply IH.
Qed.

Lemma chain_snoc f t s e segs len entry :
  chain f t s e segs -> truthful content (MkBlock f e len) entry -> version_tag entry = t ->
  chain f t s (e + len) (segs ++ [MkSegment e len entry]).
Proof.
  intros Hc Htr Ht. induction Hc as [s|s e seg segs Hs Htr' Ht' _ IH]; simpl.
  - constructor; simpl; try done. constructor.
  - constructor; auto.
Qed.

Lemma chain_lookup f t s e segs i seg :
  chain f t s e segs -> segs !! i = Some seg ->
  s <= seg_start seg /\ seg_start seg + seg_len seg <= e /\
  truthful content (MkBlock f (seg_start seg) (seg_len seg)) (seg_entry seg) /\
  version_tag (seg_entry seg) = t /\
  ((i = 0%nat /\ seg_start seg = s) \/ exists j p, i = S j /\ segs !! j = Some p /\
     seg_start p + seg_len p = seg_start seg).
Proof.
  intros Hc. revert i seg. induction Hc as [s|s e seg0 segs Hs Htr Ht Hc IH]; intros i seg Hi; [done|].
  pose proof (chain_le _ _ _ _ _ Hc) as Hle. pose proof Htr as (? & ? & _). simpl in *.
  destruct i as [|i]; simpl in Hi.
  - injection Hi as <-. split; [lia|]. split; [lia|]. split; [by rewrite Hs|]. auto.
  - destruct (IH i seg Hi) as (H1 & H2 & H3 & H4 & H5). split; [lia|]. split; [lia|].
    split; [done|]. split; [done|]. right. destruct H5 as [[-> H5]|(j & p & -> & Hj & Hp)].
    + exists 0%nat, seg0. simpl. split; [done|]. split; [done|]. lia.
    + exists (S j), p. by split.
Qed.

(** [skip_segments] stops at the segment that contains the position. *)
Lemma skip_segments_ok f t s e segs pos fuel idx :
  chain f t s e segs -> s <= pos < e -> e < two64 ->
  (forall i seg, (i < idx)%nat -> segs !! i = Some seg -> seg_start seg + seg_len seg <= pos) ->
  (length segs - idx <= fuel)%nat ->
  exists seg, segs !! skip_segments fuel segs idx pos = Some seg /\
    seg_start seg <= pos < seg_start seg + seg_len seg /\
    forall i seg', (i < skip_segments fuel segs idx pos)%nat -> segs !! i = Some seg' ->
      seg_start seg' + seg_len seg' <= pos.
Proof.
  intros Hc Hpos He. revert idx. induction fuel as [|fuel IH]; intros idx Hb Hf; simpl.
  all: destruct (segs !! idx) as [seg|] eqn:Hi;
    [|exfalso; clear -Hc Hpos Hb Hi; apply lookup_ge_None in Hi;
      assert (forall i seg, segs !! i = Some seg -> seg_start seg + seg_len seg <= pos) as Hall
        by (intros i seg Hl; apply (Hb i seg); [apply lookup_lt_Some in Hl; lia|done]);
      clear Hb Hi; induction Hc as [|s e seg segs Hs Htr Ht Hc IHc]; [lia|];
      pose proof (Hall 0%nat seg eq_refl); apply IHc; [lia|intros i; apply (Hall (S i))]].
  { apply lookup_lt_Some in Hi. lia. }
  destruct (chain_lookup _ _ _ _ _ _ _ Hc Hi) as (H1 & H2 & (H3 & H4 & _) & _ & H5). simpl in *.
  rewrite u64_small by lia. destruct (Z.leb_spec (seg_start seg + seg_len seg) pos).
  - apply IH; [|lia]. intros i seg' Hlt Hl. destruct (decide (i = idx)) as [->|]; [congruence|].
    eapply Hb; [|done]. lia.
  - exists seg. split; [done|]. split; [|done]. split; [|lia].
    destruct H5 as [[-> ->]|(j & p & -> & Hj & <-)]; [lia|]. eapply Hb; [|done]. lia.
Qed.

Lemma copy_range_ok f t s e segs gs copy_len fuel idx done_ dest :
  chain f t s e segs -> 0 <= s <= gs -> gs + copy_len <= e -> e <= flen f t ->
  0 <= done_ <= copy_len -> (Z.to_nat (copy_len - done_) <= fuel)%nat ->
  copy_len <= Z.of_nat (length dest) -> agrees dest 0 (content f t) gs done_ ->
  (done_ < copy_len -> forall i seg, (i < idx)%nat -> segs !! i = Some seg -> seg_start seg + seg_len seg <= gs + done_) ->
  exists dest', copy_range fuel segs idx gs copy_len done_ dest = Ok dest' /\
    length dest' = length dest /\ agrees dest' 0 (content f t) gs copy_len.
Proof.
  intros Hc Hs Hgs He. pose proof (files_fit f t) as Hfit.
  revert idx done_ dest. induction fuel as [|fuel IH]; intros idx done_ dest Hd Hf Hlen Hag Hidx; simpl.
  - assert (done_ = copy_len) as -> by lia. rewrite Z.ltb_irrefl. eauto.
  - destruct (Z.ltb_spec done_ copy_len) as [Hlt|Hge];
      [|assert (done_ = copy_len) as -> by lia; eauto].
    rewrite (u64_small (gs + done_)) by lia.
    destruct (skip_segments_ok f t s e segs (gs + done_) (length segs - idx) idx Hc)
      as (seg & Hseg & Hin & Hbef); [lia|lia|by apply Hidx|lia|].
    rewrite Hseg. simpl.
    destruct (chain_lookup _ _ _ _ _ _ _ Hc Hseg) as (H1 & H2 & Htr & Ht & _).
    pose proof Htr as (H3 & H4 & H5 & H6 & H7 & H8). simpl in *. rewrite Ht in *.
    rewrite (proj2 (Z.leb_le _ _)) by lia. simpl.
    rewrite (u64_small (seg_start seg + seg_len seg)) by lia.
    rewrite (proj2 (Z.ltb_lt _ _)) by lia. simpl.
    rewrite (u64_small (gs + done_ - seg_start seg)) by lia.
    rewrite (u64_small (seg_len seg - _)) by lia. rewrite (u64_small (copy_len - done_)) by lia.
    set (n := Z.min (seg_len seg - (gs + done_ - seg_start seg)) (copy_len - done_)).
    rewrite read_at_Some by lia. simpl.
    pose proof (truthful_slice content _ _ (gs + done_) n Htr) as Hsl. simpl in Hsl.
    rewrite Hsl by lia. rewrite Ht.
    pose proof (length_slice (content f t) (gs + done_) n ltac:(lia) ltac:(lia) ltac:(lia)) as Hl.
    destruct (write_at_is_some dest done_ (slice (content f t) (gs + done_) n)) as [dest1 Hw]; [lia..|].
    rewrite Hw. simpl. rewrite (u64_small (done_ + n)) by lia.
    pose proof (length_write_at _ _ _ _ Hw) as Hl1.
    destruct (IH (skip_segments (length segs - idx) segs idx (gs + done_)) (done_ + n) dest1)
      as (dest' & Hr & Hl' & Ha'); [lia|lia|lia| | |].
    + apply agrees_join; [lia| |].
      * eapply agrees_write_at_disjoint; [..|exact Hw| |exact Hag]; lia.
      * rewrite Z.add_0_l. rewrite <-Hl. eapply agrees_write_at_same; [|exact Hw|]; [lia|].
        rewrite Hl. apply agrees_slice. lia.
    + intros Hlt' i seg' Hi Hl2. specialize (Hbef i seg' Hi Hl2). lia.
    + exists dest'. split; [done|]. split; [congruence|done].
Qed.

Definition emitted_ok (f t : string) (s e : Z) (kv : pair) : Prop :=
  truthful content kv.1 kv.2 /\ fname kv.1 = f /\ version_tag kv.2 = t /\
  start_off kv.1 mod bs = 0 /\ blk_size kv.1 <= bs /\
  s <= start_off kv.1 /\ start_off kv.1 + blk_size kv.1 <= e.

Lemma emit_block_ok f t s e segs B len :
  chain f t s e segs -> 0 <= s <= B -> 0 < len -> B + len <= e -> e <= flen f t ->
  B mod bs = 0 -> len <= bs ->
  match emit_block page_size al f B len segs t with
  | Ok kv => emitted_ok f t s e kv /\ kv.1 = MkBlock f B len
  | Throw ex => ex = BadAlloc
  end.
Proof.
  intros Hc Hs Hl He Hfl Hmod Hbs. unfold emit_block. pose proof (files_fit f t).
  destruct (AllocatePageAlignedChunk page_size al len) as [ch|ex] eqn:Ha; simpl.
  2:{ unfold AllocatePageAlignedChunk in Ha. case_match; [done|]. case_match; congruence. }
  destruct (Allocate_Ok _ _ _ _ page_pos Hl ltac:(lia) Ha) as (_ & Hcap & _ & m & Hm & Hlm).
  unfold data at 1. rewrite Hm. simpl.
  destruct (copy_range_ok f t s e segs B len (Z.to_nat len) 0 0 m Hc) as (dest & Hr & Hld & Hag);
    [lia..| | |].
  - intros d ?. lia.
  - intros _ i ? ?. lia.
  - unfold CopyRange. rewrite Hr. simpl. split; [|done].
    split; [|simpl; repeat split; lia].
    unfold truthful. simpl. do 3 (split; [lia|]). split; [done|].
    split; [unfold data; simpl; lia|]. unfold data. simpl.
    apply slice_agrees; try lia. done.
Qed.

Definition remap_result (P : pair -> Prop) (out : list pair) (r : Res (list pair)) : Prop :=
  match r with
  | Ok out' => exists new, out' = out ++ new /\ Forall P new
  | Throw ex => ex = BadAlloc
  end.

Lemma emit_full_blocks_ok f t s e segs fuel B out :
  chain f t s e segs -> 0 <= s <= B -> e <= flen f t -> B mod bs = 0 -> B < e + bs ->
  (Z.to_nat (e - B) <= fuel)%nat ->
  remap_result (emitted_ok f t s e) out (emit_full_blocks page_size al bs fuel f B e segs t out).
Proof.
  intros Hc Hs He. pose proof (files_fit f t). assert (0 <= s) by lia. assert (Hs' := proj2 Hs). clear Hs. revert B out Hs'.
  induction fuel as [|fuel IH]; intros B out Hs Hmod HB Hf; simpl.
  all: rewrite (u64_small (B + bs)) by (pose proof (chain_le _ _ _ _ _ Hc); lia).
  - rewrite (proj2 (Z.leb_gt _ _)) by lia. exists []. by rewrite app_nil_r.
  - destruct (Z.leb_spec (B + bs) e) as [Hle|Hgt].
    + pose proof (emit_block_ok f t s e segs B bs Hc) as Hk.
      destruct (emit_block page_size al f B bs segs t) as [kv|ex]; simpl; [|apply Hk; lia].
      destruct Hk as [Hk _]; [lia..|].
      assert ((B + bs) mod bs = 0) as Hmod'
        by (rewrite <-(Z.mul_1_l bs) at 1; by rewrite Z.mod_add by lia).
      specialize (IH (B + bs) (out ++ [kv]) ltac:(lia) Hmod' ltac:(lia) ltac:(lia)).
      unfold remap_result in *.
      destruct (emit_full_blocks page_size al bs fuel f (B + bs) e segs t (out ++ [kv])) as [o|ex];
        [|done].
      destruct IH as (new & -> & Hn). exists (kv :: new). rewrite <-app_assoc.
      split; [done|by constructor].
    + exists []. by rewrite app_nil_r.
Qed.

Lemma emit_pieces_ok f t s e e' segs fuel B out :
  chain f t s e segs -> 0 <= s <= B -> e <= flen f t -> e' <= e -> B mod bs = 0 -> B < e + bs ->
  (Z.to_nat (e' - B) <= fuel)%nat ->
  remap_result (emitted_ok f t s e) out (emit_pieces page_size al bs fuel f B e' segs t out).
Proof.
  intros Hc Hs He He'. pose proof (files_fit f t). assert (0 <= s) by lia.
  pose proof (chain_le _ _ _ _ _ Hc) as Hse. revert B out Hs.
  induction fuel as [|fuel IH]; intros B out Hs Hmod HB Hf; simpl.
  - rewrite (proj2 (Z.ltb_ge _ _)) by lia. exists []. by rewrite app_nil_r.
  - destruct (Z.ltb_spec B e') as [Hlt|Hge]; [|exists []; by rewrite app_nil_r].
    rewrite (u64_small (e' - B)) by lia. set (n := Z.min bs (e' - B)).
    pose proof (emit_block_ok f t s e segs B n Hc) as Hk.
    destruct (emit_block page_size al f B n segs t) as [kv|ex]; simpl; [|apply Hk; lia].
    destruct Hk as [Hk _]; [lia..|]. rewrite (u64_small (B + n)) by lia.
    destruct (AlignUp_ok (B + n)) as [Hal Ham]; [lia..|].
    specialize (IH (AlignUpToBlock (B + n) bs) (out ++ [kv]) ltac:(lia) Ham ltac:(lia) ltac:(lia)).
    unfold remap_result in *.
    destruct (emit_pieces page_size al bs fuel f (AlignUpToBlock (B + n) bs) e' segs t (out ++ [kv])) as [o|ex]; [|done].
    destruct IH as (new & -> & Hn). exists (kv :: new). rewrite <-app_assoc.
    split; [done|by constructor].
Qed.

(** What an emitted entry satisfies: truthful, on the new grid, one block at most. *)
Definition regridded (kv : pair) : Prop :=
  truthful content kv.1 kv.2 /\ start_off kv.1 mod bs = 0 /\ blk_size kv.1 <= bs.

Lemma emitted_regridded f t s e kv : emitted_ok f t s e kv -> regridded kv.
Proof. intros (? & _ & _ & ? & ? & _). by split. Qed.

Lemma result_weaken (P Q : pair -> Prop) out r :
  (forall kv, P kv -> Q kv) -> remap_result P out r -> remap_result Q out r.
Proof.
  intros HPQ. destruct r; simpl; [|done]. intros (new & -> & Hn). exists new. split; [done|].
  by eapply Forall_impl.
Qed.

Lemma EmitRun_ok f t s e segs out :
  chain f t s e segs -> 0 <= s -> e <= flen f t ->
  remap_result regridded out
    (EmitRunOnNewGrid page_size al bs file_size_by_path f s e segs t out).
Proof.
  intros Hc Hs He. pose proof (chain_le _ _ _ _ _ Hc). pose proof (files_fit f t).
  assert (remap_result regridded out (Ok out)) as Hnone by (exists []; by rewrite app_nil_r).
  assert (forall e' fuel, e' <= e -> (Z.to_nat (e - s) <= fuel)%nat ->
    remap_result regridded out
      (emit_pieces page_size al bs fuel f (AlignUpToBlock s bs) e' segs t out)) as Hpieces.
  { intros e' fuel He' Hf. destruct (AlignUp_ok s) as [Ha Hm]; [lia..|].
    apply (result_weaken (emitted_ok f t s e)); [intros kv; apply emitted_regridded|].
    eapply emit_pieces_ok; try done; lia. }
  unfold EmitRunOnNewGrid. destruct (file_size_by_path !! f) as [size|].
  - destruct (Z.leb_spec (Z.min e size) s); [done|].
    destruct (Z.ltb_spec e size); [|apply Hpieces; lia].
    destruct (AlignUp_ok s) as [Ha Hm]; [lia..|].
    apply (result_weaken (emitted_ok f t s e)); [intros kv; apply emitted_regridded|].
    eapply emit_full_blocks_ok; try done; lia.
  - destruct (Z.leb_spec e s); [done|]. apply Hpieces; lia.
Qed.

Definition remap_inv (f : string) (st : remap_state) : Prop :=
  Forall regridded (remap_out st) /\
  (in_run st = true ->
   chain f (run_tag st) (run_start st) (run_end st) (run_segments st) /\
   run_segments st <> []).

Definition slice_ok (f : string) (p : Z * CachedSlice) : Prop :=
  truthful content (MkBlock f p.1 (byte_len p.2)) (slice_entry p.2).

Lemma flush_run_ok f st :
  remap_inv f st ->
  match flush_run page_size al bs file_size_by_path f st with
  | Ok st' => remap_inv f st' /\ in_run st' = false
  | Throw ex => ex = BadAlloc
  end.
Proof.
  intros [Ho Hr]. unfold flush_run. destruct (in_run st) eqn:Hi; simpl; [|split; [split; [done|by rewrite Hi]|done]].
  destruct (Hr eq_refl) as [Hc Hne]. destruct (chain_bounds _ _ _ _ _ Hc Hne).
  pose proof (EmitRun_ok f _ _ _ _ (remap_out st) Hc ltac:(lia) ltac:(lia)) as He.
  destruct (EmitRunOnNewGrid _ _ _ _ _ _ _ _ _ _) as [o|ex]; simpl; [|done].
  destruct He as (new & -> & Hn). split; [|done]. split; [|done]. simpl. by apply Forall_app.
Qed.

Lemma begin_run_ok f st p :
  remap_inv f st -> slice_ok f p -> byte_len p.2 <> 0 ->
  remap_inv f (begin_run p.1 (byte_len p.2) (slice_entry p.2) st).
Proof.
  intros [Ho _] Hp Hl. pose proof Hp as (? & ? & ? & _). pose proof (files_fit f (version_tag (slice_entry p.2))).
  simpl in *. split; [done|]. intros _. simpl. split; [|done]. rewrite u64_small by lia.
  constructor; simpl; try done. constructor.
Qed.

Lemma remap_step_ok f st p :
  remap_inv f st -> slice_ok f p ->
  match remap_step page_size al bs file_size_by_path f p st with
  | Ok st' => remap_inv f st'
  | Throw ex => ex = BadAlloc
  end.
Proof.
  intros Hst Hp. unfold remap_step. destruct (Z.eqb_spec (byte_len p.2) 0) as [|Hl]; [done|].
  destruct (in_run st) eqn:Hi; simpl; [|by apply begin_run_ok].
  destruct (p.1 <? run_end st); [done|].
  destruct ((p.1 =? run_end st) && String.eqb (version_tag (slice_entry p.2)) (run_tag st)) eqn:Hj.
  - apply andb_true_iff in Hj as [Hs%Z.eqb_eq Ht%String.eqb_eq]. destruct Hst as [Ho Hr].
    destruct (Hr Hi) as [Hc Hne]. split; [done|]. intros _. simpl.
    split; [|intros ?; by destruct (run_segments st)].
    pose proof Hp as (? & ? & ? & _). pose proof (files_fit f (version_tag (slice_entry p.2))).
    simpl in *. rewrite u64_small by lia. rewrite Hs. apply chain_snoc; [done| |done].
    unfold slice_ok in Hp. by rewrite Hs in Hp.
  - pose proof (flush_run_ok f st Hst) as Hf.
    destruct (flush_run _ _ _ _ _ _) as [st'|ex]; simpl; [|done]. by apply begin_run_ok; [apply Hf|..].
Qed.

Lemma RemapOneFile_ok f m out :
  Forall regridded out -> (forall s sl, m !! s = Some sl -> slice_ok f (s, sl)) ->
  match RemapOneFile page_size al bs file_size_by_path f m out with
  | Ok out' => Forall regridded out'
  | Throw ex => ex = BadAlloc
  end.
Proof.
  intros Ho Hm. unfold RemapOneFile.
  assert (Forall (slice_ok f) (ordered_slices m)) as Hall.
  { apply Forall_forall. intros p (s & _ & Hs)%list_elem_of_omap.
    destruct (m !! s) eqn:Hl; simplify_eq/=. by apply Hm. }
  assert (forall l st, Forall (slice_ok f) l -> remap_inv f st ->
    match remap_steps page_size al bs file_size_by_path f l st with
    | Ok st' => remap_inv f st' | Throw ex => ex = BadAlloc end) as Hsteps.
  { induction l as [|p l IH]; intros st Hl Hst; simpl; [done|].
    apply Forall_cons in Hl as [Hp Hl]. pose proof (remap_step_ok f st p Hst Hp) as H1.
    destruct (remap_step _ _ _ _ _ _ _) as [st'|ex]; simpl; [by apply IH|done]. }
  assert (remap_inv f (MkRemap false 0 0 "" [] out)) as Hinit by (split; [exact Ho|done]).
  specialize (Hsteps _ _ Hall Hinit).
  destruct (remap_steps _ _ _ _ _ _ _) as [st|ex]; simpl; [|done].
  pose proof (flush_run_ok f st Hsteps) as Hf.
  destruct (flush_run _ _ _ _ _ _) as [st'|ex]; simpl; [|done]. apply Hf.
Qed.

Definition index_ok (by_file : gmap string (gmap Z CachedSlice)) : Prop :=
  forall f m s sl, by_file !! f = Some m -> m !! s = Some sl -> slice_ok f (s, sl).

Lemma BuildFileIndex_ok taken :
  Forall (fun kv => truthful content kv.1 kv.2) taken ->
  exists by_file, BuildFileIndex taken = Ok by_file /\ index_ok by_file.
Proof.
  unfold BuildFileIndex. assert (index_ok ∅) as H0 by (intros f m s sl; by rewrite lookup_empty).
  revert H0. generalize (∅ : gmap string (gmap Z CachedSlice)) as b.
  induction taken as [|[k e] taken IH]; intros b Hb Hall; simpl; [eauto|].
  apply Forall_cons in Hall as [Hk Hall]. pose proof Hk as (? & ? & ? & Hcl & Hld & _). simpl in *.
  assert (chunk_empty (entry_data e) = false) as ->.
  { unfold chunk_empty. unfold data in Hld. destruct (c_chunk (entry_data e)); simpl in *; [|lia].
    apply Z.eqb_neq. lia. }
  rewrite Hcl, Z.eqb_refl. simpl. apply IH; [|done].
  intros f m s sl. destruct (decide (f = fname k)) as [->|Hf];
    [rewrite lookup_insert_eq|rewrite lookup_insert_ne by done; apply Hb].
  intros [= <-] Hs. destruct (default ∅ (b !! fname k) !! start_off k) as [sl0|] eqn:Hold.
  - destruct (b !! fname k) as [m|] eqn:Hbm; simpl in *; [by eapply Hb|by rewrite lookup_empty in Hs].
  - destruct (decide (s = start_off k)) as [->|Hne].
    + rewrite lookup_insert_eq in Hs. injection Hs as <-. unfold slice_ok. simpl. by destruct k.
    + rewrite lookup_insert_ne in Hs by done.
      destruct (b !! fname k) as [m|] eqn:Hbm; simpl in *; [by eapply Hb|by rewrite lookup_empty in Hs].
Qed.

Lemma Remap_ok taken :
  Forall (fun kv => truthful content kv.1 kv.2) taken ->
  match RemapInMemCacheEntries page_size al bs file_size_by_path taken with
  | Ok out => Forall regridded out
  | Throw ex => ex = BadAlloc
  end.
Proof.
  intros Ht. unfold RemapInMemCacheEntries. rewrite (proj2 (Z.eqb_neq _ _)) by lia.
  destruct (BuildFileIndex_ok taken Ht) as (b & -> & Hb). simpl.
  assert (forall p, p ∈ map_to_list b -> forall s sl, p.2 !! s = Some sl -> slice_ok p.1 (s, sl)) as Hl.
  { intros [f m] Hin%elem_of_map_to_list s sl Hs. by eapply Hb. }
  assert (Forall regridded []) as Hout by constructor. revert Hout.
  generalize (@nil pair) as out. induction (map_to_list b) as [|[f m] l IH]; intros out Hout; simpl; [done|].
  pose proof (RemapOneFile_ok f m out Hout (Hl (f, m) ltac:(constructor))) as H1.
  destruct (RemapOneFile _ _ _ _ _ _ _) as [out'|ex]; simpl; [|done].
  apply IH; [|done]. intros p Hp. apply Hl. by constructor.
Qed.

(** *** Completeness

    Nothing that starts a block of the new grid is lost: when the entries of a file do not
    overlap, every aligned position inside an entry starts a rebuilt block of its version,
    as long as the rest of the entry, or a whole block. *)
Section Completeness.
Context (unknown_sizes : forall f, file_size_by_path !! f = None).

Definition starts_block (out : list pair) (f t : string) (pos len : Z) : Prop :=
  exists kv, kv ∈ out /\ fname kv.1 = f /\ start_off kv.1 = pos /\ version_tag kv.2 = t /\ len <= blk_size kv.1.

Definition covers (out : list pair) (f t : string) (s e : Z) : Prop :=
  forall pos, s <= pos < e -> pos mod bs = 0 -> starts_block out f t pos (Z.min bs (e - pos)).

Lemma covers_app out new f t s e : covers out f t s e -> covers (out ++ new) f t s e.
Proof.
  intros Hc pos Hp Hm. destruct (Hc pos Hp Hm) as (kv & Hin & Hk). exists kv. split; [|exact Hk].
  apply elem_of_app. by left.
Qed.

Lemma covers_part out f t s e s' e' : covers out f t s e -> s <= s' -> e' <= e -> covers out f t s' e'.
Proof.
  intros Hc Hs He pos Hp Hm. destruct (Hc pos ltac:(lia) Hm) as (kv & Hin & Hf & Hk & Ht & Hl).
  exists kv. repeat split; try done. lia.
Qed.

(** Two aligned positions are at least a block apart. *)
Lemma aligned_gap a b : a mod bs = 0 -> b mod bs = 0 -> a < b -> a + bs <= b.
Proof.
  intros Ha Hb Hab. pose proof (Z.div_mod a bs ltac:(lia)). pose proof (Z.div_mod b bs ltac:(lia)).
  assert (a / bs < b / bs) by nia. nia.
Qed.

Lemma emit_block_Ok f B len segs t kv : emit_block page_size al f B len segs t = Ok kv ->
  kv.1 = MkBlock f B len /\ version_tag kv.2 = t.
Proof. unfold emit_block. intros (c & _ & (d & _ & [= <-])%bind_Ok)%bind_Ok. done. Qed.

Lemma emit_pieces_covers f t fuel B e segs out out' :
  0 <= B -> B mod bs = 0 -> e + 2 * bs < two64 ->
  emit_pieces page_size al bs fuel f B e segs t out = Ok out' ->
  exists new, out' = out ++ new /\ covers out' f t B e.
Proof.
  revert B out. induction fuel as [|fuel IH]; intros B out HB Hm He Hr; simpl in Hr.
  all: destruct (Z.ltb_spec B e); [|simplify_eq; exists []; split; [by rewrite app_nil_r|intros pos ?; lia]].
  { done. }
  rewrite (u64_small (e - B)) in Hr by lia. set (n := Z.min bs (e - B)) in *.
  apply bind_Ok in Hr as (kv & Hkv & Hr). destruct (emit_block_Ok _ _ _ _ _ _ Hkv) as [Hk Ht].
  rewrite (u64_small (B + n)) in Hr by lia. destruct (AlignUp_ok (B + n)) as [Hal Ham]; [lia..|].
  destruct (IH (AlignUpToBlock (B + n) bs) (out ++ [kv]) ltac:(lia) Ham He Hr) as (new & -> & Hc). exists (kv :: new). rewrite <-app_assoc. split; [done|].
  intros pos Hp Hpm. destruct (decide (pos = B)) as [->|Hne].
  - exists kv. rewrite Hk. split; [apply elem_of_app; right; by left|]. repeat split; simpl; first [done|lia].
  - pose proof (aligned_gap B pos Hm Hpm ltac:(lia)). rewrite <-app_assoc in Hc. apply Hc; [|done].
    split; [|lia]. destruct (decide (AlignUpToBlock (B + n) bs <= pos)); [done|].
    pose proof (aligned_gap pos (AlignUpToBlock (B + n) bs) Hpm Ham ltac:(lia)). lia.
Qed.

Lemma EmitRun_covers f t s e segs out out' :
  0 <= s -> e + 2 * bs < two64 ->
  EmitRunOnNewGrid page_size al bs file_size_by_path f s e segs t out = Ok out' ->
  exists new, out' = out ++ new /\ covers out' f t s e.
Proof.
  intros Hs He. unfold EmitRunOnNewGrid. rewrite unknown_sizes. destruct (Z.leb_spec e s).
  { intros [= <-]. exists []. split; [by rewrite app_nil_r|]. intros pos ?. lia. }
  destruct (AlignUp_ok s) as [Ha Hm]; [lia..|]. intros Hr.
  destruct (emit_pieces_covers f t _ (AlignUpToBlock s bs) e segs out out' ltac:(lia) Hm He Hr) as (new & -> & Hc). exists new. split; [done|].
  intros pos Hp Hpm. apply Hc; [|done]. split; [|lia].
  destruct (decide (AlignUpToBlock s bs <= pos)); [done|].
  pose proof (aligned_gap pos (AlignUpToBlock s bs) Hpm Hm ltac:(lia)). lia.
Qed.

(** What the remapping of a file has kept of a slice: rebuilt, or part of the current run. *)
Definition slice_covered (out : list pair) (f : string) (p : Z * CachedSlice) : Prop :=
  covers out f (version_tag (slice_entry p.2)) p.1 (p.1 + byte_len p.2).

Definition kept (f : string) (st : remap_state) (p : Z * CachedSlice) : Prop :=
  slice_covered (remap_out st) f p \/
  in_run st = true /\ run_tag st = version_tag (slice_entry p.2) /\
  run_start st <= p.1 /\ p.1 + byte_len p.2 <= run_end st.

Lemma flush_run_covers f st st' :
  remap_inv f st -> flush_run page_size al bs file_size_by_path f st = Ok st' ->
  in_run st' = false /\ (exists new, remap_out st' = remap_out st ++ new) /\
  forall p, kept f st p -> slice_covered (remap_out st') f p.
Proof.
  intros [_ Hr]. unfold flush_run. destruct (in_run st) eqn:Hi; simpl.
  - intros (o & He & [= <-])%bind_Ok. destruct (Hr eq_refl) as [Hc Hne]. destruct (chain_bounds _ _ _ _ _ Hc Hne).
    pose proof (files_fit f (run_tag st)).
    destruct (EmitRun_covers f (run_tag st) (run_start st) (run_end st) (run_segments st) (remap_out st) o ltac:(lia) ltac:(lia) He) as (new & -> & Hcov). split; [done|]. split; [by exists new|].
    intros p [Hp|(_ & Ht & Hs & Hle)]; [by apply covers_app|]. unfold slice_covered. simpl. rewrite <-Ht.
    by apply (covers_part _ _ _ _ _ _ _ Hcov).
  - intros [= <-]. split; [done|]. split; [exists []; by rewrite app_nil_r|]. intros p [Hp|[? _]]; [done|congruence].
Qed.

Lemma begin_run_kept f st p : slice_ok f p -> kept f (begin_run p.1 (byte_len p.2) (slice_entry p.2) st) p /\
  run_end (begin_run p.1 (byte_len p.2) (slice_entry p.2) st) = p.1 + byte_len p.2.
Proof.
  intros (? & ? & ? & _). pose proof (files_fit f (version_tag (slice_entry p.2))). simpl in *. unfold kept, begin_run. simpl.
  rewrite u64_small by lia. split; [|done]. right. split; [done|]. split; [done|]. lia.
Qed.

(** No slice of the rest starts before the end of the run. *)
Definition run_before (st : remap_state) (l : list (Z * CachedSlice)) : Prop :=
  in_run st = true -> Forall (fun q => run_end st <= q.1) l.

Lemma remap_step_keeps f st p l st' :
  remap_inv f st -> slice_ok f p -> run_before st (p :: l) -> Forall (fun q => p.1 + byte_len p.2 <= q.1) l ->
  remap_step page_size al bs file_size_by_path f p st = Ok st' ->
  run_before st' l /\ kept f st' p /\ forall q, kept f st q -> kept f st' q.
Proof.
  intros Hst Hp Hb Hl. pose proof Hp as (H0 & Hlen & Hend & _). simpl in H0, Hlen, Hend.
  pose proof (files_fit f (version_tag (slice_entry p.2))).
  destruct (begin_run_kept f st p Hp) as [Hbk Hbe]. unfold remap_step.
  destruct (Z.eqb_spec (byte_len p.2) 0); [lia|]. destruct (in_run st) eqn:Hi; simpl.
  2:{ intros [= <-]. split; [intros _; by rewrite Hbe|]. split; [done|]. intros q [Hq|[? _]]; [by left|congruence]. }
  specialize (Hb Hi). apply Forall_cons in Hb as [Hpe Hbl]. rewrite (proj2 (Z.ltb_ge _ _)) by lia.
  destruct (Z.eqb_spec p.1 (run_end st)) as [Heq|Hne]; simpl.
  1: destruct (String.eqb_spec (version_tag (slice_entry p.2)) (run_tag st)) as [Ht|Ht].
  - intros [= <-]. unfold run_before, kept. simpl. rewrite u64_small by lia. destruct Hst as [_ Hr].
    destruct (Hr Hi) as [Hc _]. pose proof (chain_le _ _ _ _ _ Hc).
    split; [done|]. split; [right; split; [done|split; [done|lia]]|].
    intros q [Hq|(_ & Hqt & Hqs & Hqe)]; [by left|right]. split; [done|]. split; [done|]. lia.
  - intros (st1 & Hf & [= <-])%bind_Ok. destruct (flush_run_covers _ _ _ Hst Hf) as (_ & _ & Hk).
    destruct (begin_run_kept f st1 p Hp) as [Hbk1 Hbe1].
    split; [intros _; by rewrite Hbe1|]. split; [done|]. intros q Hq. left. by apply Hk.
  - intros (st1 & Hf & [= <-])%bind_Ok. destruct (flush_run_covers _ _ _ Hst Hf) as (_ & _ & Hk).
    destruct (begin_run_kept f st1 p Hp) as [Hbk1 Hbe1].
    split; [intros _; by rewrite Hbe1|]. split; [done|]. intros q Hq. left. by apply Hk.
Qed.

#[local] Abbreviation in_order := (StronglySorted (fun p q : Z * CachedSlice => p.1 + byte_len p.2 <= q.1)).

Lemma remap_steps_keep f l st st' :
  remap_inv f st -> Forall (slice_ok f) l -> in_order l -> run_before st l ->
  remap_steps page_size al bs file_size_by_path f l st = Ok st' ->
  remap_inv f st' /\ (forall p, p ∈ l -> kept f st' p) /\ forall q, kept f st q -> kept f st' q.
Proof.
  intros Hst Hok Hs. revert st Hst. induction Hs as [|p l Hs IH Hp]; intros st Hst Hb Hr; simpl in Hr.
  { simplify_eq. split; [done|]. split; [intros p Hin; inversion Hin|done]. }
  apply Forall_cons in Hok as [Hpok Hok]. apply bind_Ok in Hr as (st1 & Hstep & Hr).
  destruct (remap_step_keeps f st p l st1 Hst Hpok Hb Hp Hstep) as (Hb1 & Hk1 & Hkeep).
  pose proof (remap_step_ok f st p Hst Hpok) as Hinv. rewrite Hstep in Hinv.
  destruct (IH Hok st1 Hinv Hb1 Hr) as (H1 & H2 & H3). split; [done|]. split; [|auto].
  intros q [->|Hq]%elem_of_cons; auto.
Qed.

(** The slices of a file that do not overlap, in the order of their offsets. *)
Definition disjoint_slices (m : gmap Z CachedSlice) : Prop := forall s sl s' sl',
  m !! s = Some sl -> m !! s' = Some sl' -> s < s' -> s + byte_len sl <= s'.

Lemma ordered_slices_in_order m : disjoint_slices m -> in_order (ordered_slices m).
Proof.
  intros Hd. unfold ordered_slices. pose proof (NoDup_sorted_keys m) as Hnd. pose proof (sorted_keys_sorted m) as Hs.
  induction Hs as [|k l Hs IH Hk]; [constructor|]. apply NoDup_cons in Hnd as [Hni Hnd]. specialize (IH Hnd). simpl.
  destruct (m !! k) as [sl|] eqn:Hm; simpl; [|done]. constructor; [done|]. apply Forall_forall.
  intros [s' sl'] (s0 & Hin & Hs')%list_elem_of_omap. destruct (m !! s0) eqn:Hm'; simplify_eq/=.
  rewrite Forall_forall in Hk. specialize (Hk _ Hin). unfold not_less, less in Hk. simpl in Hk. apply Z.ltb_ge in Hk.
  assert (k <> s') by (intros ->; done). eapply Hd; [done..|lia].
Qed.

Lemma RemapOneFile_covers f m out out' :
  Forall regridded out -> (forall s sl, m !! s = Some sl -> slice_ok f (s, sl)) -> disjoint_slices m ->
  RemapOneFile page_size al bs file_size_by_path f m out = Ok out' ->
  (exists new, out' = out ++ new) /\ forall s sl, m !! s = Some sl -> slice_covered out' f (s, sl).
Proof.
  intros Ho Hm Hd. unfold RemapOneFile. intros (st & Hr & (st' & Hf & [= <-])%bind_Ok)%bind_Ok.
  assert (forall p, p ∈ ordered_slices m <-> m !! p.1 = Some p.2) as Hel.
  { intros [s sl]. unfold ordered_slices. rewrite list_elem_of_omap. simpl. split.
    - intros (s0 & _ & Hs). destruct (m !! s0) eqn:?; simplify_eq/=. done.
    - intros Hs. exists s. rewrite elem_of_sorted_keys, Hs. split; [eauto|done]. }
  assert (Forall (slice_ok f) (ordered_slices m)) as Hall by (apply Forall_forall; intros [s sl] Hp%Hel; by apply Hm).
  destruct (remap_steps_keep f (ordered_slices m) (MkRemap false 0 0 "" [] out) st) as (Hinv & Hk & _);
    [by split|done|by apply ordered_slices_in_order|done|done|].
  destruct (flush_run_covers f st st' Hinv Hf) as (_ & Hgrow & Hcov).
  split; [|intros s sl Hs; by apply Hcov, Hk, Hel].
  assert (forall l st st', remap_steps page_size al bs file_size_by_path f l st = Ok st' -> Forall (slice_ok f) l -> remap_inv f st ->
    exists new, remap_out st' = remap_out st ++ new) as Hsteps.
  { clear -page_pos bs_pos files_fit unknown_sizes. induction l as [|p l IH]; intros st st' Hr Hl Hst; simpl in Hr; [simplify_eq; exists []; by rewrite app_nil_r|].
    apply Forall_cons in Hl as [Hp Hl]. apply bind_Ok in Hr as (st1 & Hstep & Hr).
    pose proof (remap_step_ok f st p Hst Hp) as Hinv. rewrite Hstep in Hinv.
    destruct (IH _ _ Hr Hl Hinv) as [new ->]. unfold remap_step in Hstep. repeat case_match; simplify_eq/=; eauto.
    apply bind_Ok in Hstep as (st2 & Hf & [= <-]). destruct (flush_run_covers _ _ _ Hst Hf) as (_ & [new2 Hn] & _).
    simpl. rewrite Hn. exists (new2 ++ new). by rewrite app_assoc. }
  destruct (Hsteps _ _ _ Hr Hall) as [new Hn]; [by split|]. destruct Hgrow as [new2 ->]. rewrite Hn. simpl.
  exists (new ++ new2). by rewrite app_assoc.
Qed.

(** The entries of one file that are apart. *)
Definition apart (a b : pair) : Prop := fname a.1 = fname b.1 ->
  start_off a.1 + blk_size a.1 <= start_off b.1 \/ start_off b.1 + blk_size b.1 <= start_off a.1.

Definition indexed (b : gmap string (gmap Z CachedSlice)) (kv : pair) : Prop :=
  exists m, b !! fname kv.1 = Some m /\ m !! start_off kv.1 = Some (MkSlice (blk_size kv.1) kv.2).

Lemma index_entry_indexed b kv b' :
  index_entry b kv = Ok b' -> (forall x, indexed b x -> 0 < blk_size x.1 /\ apart x kv) -> 0 < blk_size kv.1 ->
  forall x, indexed b' x <-> indexed b x \/ x = kv.
Proof.
  destruct kv as [key val]. unfold index_entry. intros Hb Hall Hpos. apply bind_Ok in Hb as (_ & _ & (_ & _ & [= <-])%bind_Ok).
  destruct (default ∅ (b !! fname key) !! start_off key) as [sl|] eqn:Hold.
  { exfalso. destruct (b !! fname key) as [m|] eqn:Hm; simpl in Hold; [|by rewrite lookup_empty in Hold].
    destruct (Hall (MkBlock (fname key) (start_off key) (byte_len sl), slice_entry sl)) as [Hs Ha].
    - exists m. simpl. split; [done|]. rewrite Hold. by destruct sl.
    - destruct (Ha eq_refl); simpl in *; lia. }
  intros [k e]. unfold indexed. simpl. destruct (decide (fname k = fname key)) as [Hfn|Hne].
  - rewrite Hfn, lookup_insert_eq. split.
    + intros (m & [= <-] & Hm). apply lookup_insert_Some in Hm as [[Hs [= Hb ->]]|[Hs Hm]].
      * right. destruct k, key; simpl in *. congruence.
      * left. destruct (b !! fname key) as [m|]; simpl in *; [eauto|by rewrite lookup_empty in Hm].
    + intros [(m & Hm & Hk)|[= -> ->]]; (eexists; split; [done|]); [|by rewrite lookup_insert_eq].
      rewrite Hm in *. simpl in *. rewrite lookup_insert_ne; [done|]. congruence.
  - rewrite lookup_insert_ne by done. split; [by left|]. intros [?|[= -> ->]]; [done|]. done.
Qed.

Lemma build_index_indexed taken b b' :
  build_index b taken = Ok b' -> ForallOrdPairs apart taken -> Forall (fun kv => 0 < blk_size kv.1) taken ->
  (forall x, indexed b x -> 0 < blk_size x.1 /\ Forall (apart x) taken) ->
  forall x, indexed b' x <-> indexed b x \/ x ∈ taken.
Proof.
  revert b. induction taken as [|kv taken IH]; intros b Hb Hap Hpos Hall x; simpl in Hb.
  { simplify_eq. split; [by left|]. intros [?|Hin]; [done|inversion Hin]. }
  apply bind_Ok in Hb as (b1 & Hi & Hb). inversion_clear Hap as [|? ? Hkv Hap'].
  apply Forall_cons in Hpos as [Hp Hpos].
  pose proof (index_entry_indexed b kv b1 Hi) as Hstep.
  assert (forall x, indexed b1 x <-> indexed b x \/ x = kv) as Hb1.
  { apply Hstep; [|done]. intros y Hy. destruct (Hall y Hy) as [H1 H2]. by apply Forall_cons in H2 as [H2 _]. }
  rewrite (IH b1 Hb Hap' Hpos), Hb1, elem_of_cons; [tauto|].
  intros y [Hy| ->]%Hb1; [|split; [done|]].
  - destruct (Hall y Hy) as [H1 H2]. by apply Forall_cons in H2 as [_ H2].
  - exact Hkv.
Qed.

Lemma remap_files_covers files out out' :
  (forall f m, (f, m) ∈ files -> (forall s sl, m !! s = Some sl -> slice_ok f (s, sl)) /\ disjoint_slices m) ->
  Forall regridded out -> remap_files page_size al bs file_size_by_path files out = Ok out' ->
  (exists new, out' = out ++ new) /\
  forall f m s sl, (f, m) ∈ files -> m !! s = Some sl -> slice_covered out' f (s, sl).
Proof.
  revert out. induction files as [|[f m] files IH]; intros out Hall Ho Hr; simpl in Hr.
  { simplify_eq. split; [exists []; by rewrite app_nil_r|]. intros f m s sl Hin. inversion Hin. }
  apply bind_Ok in Hr as (out1 & H1 & Hr). destruct (Hall f m ltac:(by left)) as [Hok Hd].
  pose proof (RemapOneFile_ok f m out Ho Hok) as Ho1. rewrite H1 in Ho1.
  destruct (RemapOneFile_covers f m out out1 Ho Hok Hd H1) as [[new1 ->] Hc1].
  destruct (IH _ ltac:(intros; apply Hall; by right) Ho1 Hr) as [[new ->] Hc].
  split; [exists (new1 ++ new); by rewrite app_assoc|]. intros f' m' s sl [[= -> ->]|Hin]%elem_of_cons Hs; [|by eapply Hc].
  by apply covers_app, Hc1.
Qed.

Lemma Remap_covers taken out :
  Forall (fun kv => truthful content kv.1 kv.2) taken -> ForallOrdPairs apart taken ->
  RemapInMemCacheEntries page_size al bs file_size_by_path taken = Ok out ->
  forall k e, (k, e) ∈ taken -> covers out (fname k) (version_tag e) (start_off k) (start_off k + blk_size k).
Proof.
  intros Ht Hap Hr k e Hin. unfold RemapInMemCacheEntries in Hr. rewrite (proj2 (Z.eqb_neq _ _)) in Hr by lia.
  destruct (BuildFileIndex_ok taken Ht) as (b & Hb & Hok). rewrite Hb in Hr. simpl in Hr.
  assert (forall x, indexed b x <-> x ∈ taken) as Hix.
  { intros x. rewrite (build_index_indexed taken ∅ b Hb Hap).
    - split; [|by right]. intros [(m & Hm & _)|]; [by rewrite lookup_empty in Hm|done].
    - eapply Forall_impl; [exact Ht|]. by intros y (_ & [? _] & _).
    - intros y (m & Hm & _). by rewrite lookup_empty in Hm. }
  assert (indexed b (k, e)) as (m & Hm & Hs) by by apply Hix.
  destruct (remap_files_covers (map_to_list b) [] out) as [_ Hc]; [|done|done|].
  - intros f m' Hf%elem_of_map_to_list. split; [intros s sl; by apply Hok|].
    intros s sl s' sl' Hsl Hsl' Hlt. pose proof (List.ForallOrdPairs_In Hap) as Hpairs.
    assert (forall s sl, m' !! s = Some sl -> (MkBlock f s (byte_len sl), slice_entry sl) ∈ taken) as Htk.
    { intros s0 sl0 H0. apply Hix. exists m'. simpl. split; [done|]. rewrite H0. by destruct sl0. }
    pose proof (Htk _ _ Hsl) as Hi1. pose proof (Htk _ _ Hsl') as Hi2.
    pose proof Ht as Ht'. rewrite Forall_forall in Ht'. destruct (Ht' _ Hi2) as (_ & Hpos & _). simpl in Hpos.
    apply list_elem_of_In in Hi1, Hi2. destruct (Hpairs _ _ Hi1 Hi2) as [E|[Ha|Ha]].
    + simplify_eq. lia.
    + destruct (Ha eq_refl); simpl in *; lia.
    + destruct (Ha eq_refl); simpl in *; lia.
  - apply (Hc (fname k) m (start_off k) (MkSlice (blk_size k) e)); [by apply elem_of_map_to_list|done].
Qed.
End Completeness.
End Correctness.
