(* ===== verification/InMemReader.v ===== *)
(** * InMemReader

    [InMemoryCacheReader] ([src/src/in_memory_cache_reader.cpp]) against the
    [InMemoryDataCacheStorage] interface.  A read chunk is processed by the
    atomic steps of [chunk_step]: every storage call is one critical section,
    and the steps of the chunks of one request, and those of other queries,
    interleave. *)
From S2P Require Import Prelude Blocks ReadPlan DataStorage Tasks IoOperations ParquetLayout Remap.
From S2P Require Import LruCache LruSpec ExtensionStorage.

#[local] Open Scope Z_scope.

Section Reader.
Context {S : Type} `{InMemoryDataCacheStorage S}.

(** The handle's path and version tag, the page size, the allocator, and the
    internal filesystem's [Read (handle, nr_bytes, location)]. *)
Variables (path tag : string) (page_size : Z) (al : Allocator).
Variable remote_read : Z -> Z -> Res (list byte).

Record shared := MkShared {
  buffer : list byte;
  storage : S;
  profile : list profile_event
}.

Definition with_buffer (g : shared) b := MkShared b (storage g) (profile g).
Definition with_storage (g : shared) s := MkShared (buffer g) s (profile g).
Definition log (g : shared) ev := MkShared (buffer g) (storage g) (profile g ++ [ev]).

Definition block_key (c : CacheReadChunk) : InMemCacheBlock :=
  MkBlock path (aligned_start_offset c) (chunk_size c).

(** [AllocatePageAlignedChunk], the remote read into it, and
    [content.length = chunk_size]. *)
Definition fetch (c : CacheReadChunk) : Res PageAlignedDataChunk :=
  content ← AllocatePageAlignedChunk page_size al (chunk_size c);
  bytes ← remote_read (chunk_size c) (aligned_start_offset c);
  m ← of_option UndefinedBehaviour (write_at (data content) 0 bytes);
  Ok (MkChunk (Some m) (chunk_size c) (c_capacity content)).

(** [InMemoryCacheReader::ProcessCacheReadChunk], run on its own: [now_get] and
    [now_put] are the clock readings of the two storage calls. *)
Definition ProcessCacheReadChunk (now_get now_put : Z) (c : CacheReadChunk)
    (g : shared) : Res unit * shared :=
  let '(pinned, s1) := Get now_get (block_key c) tag (storage g) in
  let g1 := with_storage g s1 in
  match pinned with
  | Some chunk =>
      let g2 := log g1 (RecordCacheAccess kData kCacheHit (bytes_to_copy c)) in
      match CopyBufferToRequestedMemory c (buffer g2) chunk with
      | Throw e => (Throw e, g2)
      | Ok b => (Ok tt, with_buffer g2 b)
      end
  | None =>
      let g2 := log g1 (RecordCacheAccess kData kCacheMiss (bytes_to_copy c)) in
      match fetch c with
      | Throw e => (Throw e, log g2 (RecordOperation kRead))
      | Ok content =>
          let g3 := log g2 (RecordOperation kRead) in
          match CopyBufferToRequestedMemory c (buffer g3) content with
          | Throw e => (Throw e, g3)
          | Ok b =>
              let g4 := with_buffer g3 b in
              match Put now_put (block_key c) content tag (storage g4) with
              | Throw e => (Throw e, g4)
              | Ok s2 => (Ok tt, with_storage g4 s2)
              end
          end
      end
  end.

(** The same function as a task: where it stands between its atomic steps. *)
Inductive chunk_task :=
| AtLookup (c : CacheReadChunk)
| AtHit (c : CacheReadChunk) (pinned : PageAlignedDataChunk)
| AtMiss (c : CacheReadChunk)
| AtFetched (c : CacheReadChunk) (content : PageAlignedDataChunk)
| AtPut (c : CacheReadChunk) (content : PageAlignedDataChunk)
| Finished (c : CacheReadChunk)
| Failed (c : CacheReadChunk) (e : exn).

Definition task_chunk (t : chunk_task) : CacheReadChunk :=
  match t with
  | AtLookup c | AtHit c _ | AtMiss c | AtFetched c _ | AtPut c _ | Finished c
  | Failed c _ => c
  end.

Definition copy_step (c : CacheReadChunk) (content : PageAlignedDataChunk)
    (next : chunk_task) (g : shared) : chunk_task * shared :=
  match CopyBufferToRequestedMemory c (buffer g) content with
  | Throw e => (Failed c e, g)
  | Ok b => (next, with_buffer g b)
  end.

Definition chunk_step (now : Z) (t : chunk_task) (g : shared) : chunk_task * shared :=
  match t with
  | AtLookup c =>
      let '(pinned, s') := Get now (block_key c) tag (storage g) in
      match pinned with
      | Some chunk =>
          (AtHit c chunk,
           log (with_storage g s') (RecordCacheAccess kData kCacheHit (bytes_to_copy c)))
      | None =>
          (AtMiss c,
           log (with_storage g s') (RecordCacheAccess kData kCacheMiss (bytes_to_copy c)))
      end
  | AtHit c chunk => copy_step c chunk (Finished c) g
  | AtMiss c =>
      let g' := log g (RecordOperation kRead) in
      match fetch c with
      | Throw e => (Failed c e, g')
      | Ok content => (AtFetched c content, g')
      end
  | AtFetched c content => copy_step c content (AtPut c content) g
  | AtPut c content =>
      match Put now (block_key c) content tag (storage g) with
      | Throw e => (Failed c e, g)
      | Ok s' => (Finished c, with_storage g s')
      end
  | Finished c => (Finished c, g)
  | Failed c e => (Failed c e, g)
  end.

Definition finished (t : chunk_task) : bool :=
  match t with Finished _ | Failed _ _ => true | _ => false end.

Definition task_measure (t : chunk_task) : nat :=
  match t with
  | AtLookup _ => 4 | AtMiss _ => 3 | AtFetched _ _ => 2
  | AtHit _ _ | AtPut _ _ => 1
  | Finished _ | Failed _ _ => 0
  end.

(** [WaitAll]: the first exception among the tasks, in scheduling order. *)
Definition task_result (t : chunk_task) : Res unit :=
  match t with Failed _ e => Throw e | _ => Ok tt end.
Definition WaitAll (ts : list chunk_task) : Res unit :=
  foldr (fun t r => match task_result t with Throw e => Throw e | Ok _ => r end) (Ok tt) ts.

(** Scheduling a plan, one task per chunk, and waiting for the tasks. *)
Definition RunChunks (env : shared -> shared -> Prop) (cs : list CacheReadChunk)
    (g0 : shared) (res : Res unit) (g : shared) : Prop :=
  exists ts, run chunk_step env (AtLookup <$> cs) g0 ts g /\
             Forall (fun t => finished t = true) ts /\ res = WaitAll ts.

(** Alone in the pool, a task makes the steps of [ProcessCacheReadChunk]. *)
Lemma ProcessCacheReadChunk_steps now_get now_put c g :
  exists t, run_schedule chunk_step [(0%nat, now_get); (0%nat, now_get); (0%nat, now_get); (0%nat, now_put)]
              [AtLookup c] g = ([t], (ProcessCacheReadChunk now_get now_put c g).2) /\
            finished t = true /\
            task_result t = (ProcessCacheReadChunk now_get now_put c g).1.
Proof.
  unfold ProcessCacheReadChunk. simpl.
  destruct (Get now_get (block_key c) tag (storage g)) as [[chunk|] s1] eqn:Hg; simpl.
  - unfold copy_step. simpl.
    destruct (CopyBufferToRequestedMemory c (buffer g) chunk) as [b|e] eqn:Hc; simpl; eauto.
  - destruct (fetch c) as [content|e] eqn:Hf; simpl; [|eauto].
    unfold copy_step. simpl.
    destruct (CopyBufferToRequestedMemory c (buffer g) content) as [b|e] eqn:Hc; simpl; [|eauto].
    destruct (Put now_put (block_key c) content tag s1) as [s2|e] eqn:Hp; simpl; eauto.
Qed.

Lemma chunk_step_chunk now t g : task_chunk (chunk_step now t g).1 = task_chunk t.
Proof.
  destruct t as [c|c ch|c|c ct|c ct|c|c e]; simpl; unfold copy_step; try (by case_match); try done.
  by destruct (Get now (block_key c) tag (storage g)) as [[?|] ?].
Qed.

Lemma chunk_step_measure now t g :
  (task_measure (chunk_step now t g).1 <= pred (task_measure t))%nat.
Proof.
  destruct t as [c|c ch|c|c ct|c ct|c|c e]; simpl; unfold copy_step;
    try (case_match; simpl; lia); try lia.
  destruct (Get now (block_key c) tag (storage g)) as [[?|] ?]; simpl; lia.
Qed.
End Reader.

Arguments shared : clear implicits.

(** ** Correctness *)
Section Correctness.
Context {S : Type} `{StorageLaws S}.
Variables (path tag : string) (page_size : Z) (al : Allocator).
Variable remote_read : Z -> Z -> Res (list byte).
Variable content : string -> string -> list byte.
Variable env : shared S -> shared S -> Prop.

#[local] Abbreviation file := (content path tag).
#[local] Abbreviation file_size := (Z.of_nat (length file)).

(** The internal filesystem's positional read delivers exactly the requested
    bytes of the current version, or throws. *)
Hypothesis remote_ok : forall nr loc bytes,
  0 <= loc -> 0 < nr -> loc + nr <= file_size ->
  remote_read nr loc = Ok bytes -> bytes = slice file loc nr.

(** Entries that pass validation have the current content: true by definition
    when validation is on, immutability of the file when it is off. *)
Hypothesis versions : forall t, ValidateVersionTag t tag = true -> content path t = file.

Hypothesis page_pos : 0 < page_size.
Hypothesis file_fits : file_size + page_size < two64.

(** Other queries keep the shared storage truthful and have their own buffers. *)
Hypothesis env_ok : forall g g', env g g' ->
  buffer g' = buffer g /\
  (truthful_storage content (storage g) -> truthful_storage content (storage g')).

Variables (cs : list CacheReadChunk) (start n : Z).
Hypothesis Hrange : 0 <= start /\ start + n <= file_size.
Hypothesis Htiles : tiles file_size cs start 0 (start + n).

Definition piece_done (c : CacheReadChunk) (b : list byte) : Prop :=
  agrees b (requested_start_addr c) file (requested_start_offset c) (bytes_to_copy c).

Definition entry_of (c : CacheReadChunk) (ch : PageAlignedDataChunk) (t : string) : Prop :=
  truthful content (block_key path c) (MkEntry ch t) /\ content path t = file.

(** The exceptions a chunk may end with. *)
Definition read_error (e : exn) : Prop :=
  e = BadAlloc \/ exists nr loc, remote_read nr loc = Throw e.

Definition task_ok (i : nat) (t : chunk_task) (g : shared S) : Prop :=
  cs !! i = Some (task_chunk t) /\
  match t with
  | AtLookup _ | AtMiss _ => True
  | AtHit c ch => exists t', entry_of c ch t'
  | AtFetched c ch => entry_of c ch tag
  | AtPut c ch => entry_of c ch tag /\ piece_done c (buffer g)
  | Finished c => piece_done c (buffer g)
  | Failed _ e => read_error e
  end.

Definition shared_ok (g : shared S) : Prop :=
  Z.of_nat (length (buffer g)) = n /\ truthful_storage content (storage g).

Lemma piece_done_other i j c d b b' bytes :
  i <> j -> cs !! i = Some c -> cs !! j = Some d ->
  write_at b (requested_start_addr c) bytes = Some b' ->
  Z.of_nat (length bytes) = bytes_to_copy c -> piece_done d b -> piece_done d b'.
Proof.
  intros Hij Hi Hj Hw Hl Hd.
  pose proof (tiles_lookup _ _ _ _ _ _ _ Htiles Hi). pose proof (tiles_lookup _ _ _ _ _ _ _ Htiles Hj).
  assert (start <= requested_start_offset c) by lia.
  eapply agrees_write_at_disjoint; [..|exact Hw| |exact Hd]; [lia..|].
  destruct (decide (i < j)%nat) as [Hlt|Hge].
  - pose proof (tiles_disjoint _ _ _ _ _ _ _ _ _ Htiles Hi Hj Hlt). lia.
  - pose proof (tiles_disjoint _ _ _ _ _ _ _ _ _ Htiles Hj Hi ltac:(lia)). lia.
Qed.

(** Copying a chunk from a good entry puts its piece in place, and only that. *)
Lemma copy_good i c ch t b0 :
  cs !! i = Some c -> Z.of_nat (length b0) = n -> entry_of c ch t ->
  exists b bytes, CopyBufferToRequestedMemory c b0 ch = Ok b /\
    write_at b0 (requested_start_addr c) bytes = Some b /\
    Z.of_nat (length bytes) = bytes_to_copy c /\ piece_done c b.
Proof.
  intros Hi Hlen [Htr Hver]. pose proof (tiles_lookup _ _ _ _ _ _ _ Htiles Hi) as Hc.
  pose proof Htr as (_ & Hsz & _ & Hcl & Hdl & _). simpl in *.
  unfold CopyBufferToRequestedMemory. u64_norm.
  destruct (CopyTo_Ok ch b0 (requested_start_addr c)
    (requested_start_offset c - aligned_start_offset c) (bytes_to_copy c)) as (b & Hb & Hw); [lia..|].
  pose proof (truthful_slice content _ _ (requested_start_offset c) (bytes_to_copy c) Htr) as Hs.
  simpl in Hs. rewrite Hver in Hs. rewrite Hs in Hw by lia.
  pose proof (length_slice file (requested_start_offset c) (bytes_to_copy c)) as Hl.
  exists b, (slice file (requested_start_offset c) (bytes_to_copy c)).
  split; [done|]. split; [done|]. split; [lia|].
  pose proof (agrees_write_at_same b0 (requested_start_addr c) _ b file
    (requested_start_offset c) ltac:(lia) Hw) as Ha.
  rewrite Hl in Ha by lia. apply Ha, agrees_slice. lia.
Qed.

Lemma fetch_good i c :
  cs !! i = Some c ->
  match fetch page_size al remote_read c with
  | Ok ch => entry_of c ch tag
  | Throw e => read_error e
  end.
Proof.
  intros Hi. pose proof (tiles_lookup _ _ _ _ _ _ _ Htiles Hi) as Hc.
  assert (0 < chunk_size c) as Hcs by lia.
  unfold fetch. destruct (AllocatePageAlignedChunk page_size al (chunk_size c)) as [ch|e] eqn:Ha; simpl.
  - destruct (Allocate_Ok page_size al (chunk_size c) ch page_pos Hcs ltac:(lia) Ha)
      as (_ & Hcap & _ & m & Hm & Hlm).
    destruct (remote_read (chunk_size c) (aligned_start_offset c)) as [bytes|e] eqn:Hr; simpl.
    + apply remote_ok in Hr; [|lia..]. subst bytes.
      pose proof (length_slice file (aligned_start_offset c) (chunk_size c)) as Hl.
      unfold data. rewrite Hm. simpl.
      destruct (write_at_is_some m 0 (slice file (aligned_start_offset c) (chunk_size c))) as [m' Hw];
        [lia..|]. rewrite Hw. simpl. split; [|done].
      pose proof (length_write_at _ _ _ _ Hw) as Hlm'.
      unfold truthful, data. simpl. repeat split; try lia.
      apply slice_of_agrees; try lia.
      { apply length_slice; lia. }
      intros d Hd. rewrite Z.add_0_l. rewrite lookup_slice by lia. rewrite Z.add_0_l.
      rewrite (lookup_write_at _ _ _ _ _ Hw). rewrite decide_True by lia.
      rewrite <-lookup_slice with (len := chunk_size c) by lia. f_equal. lia.
    + right. eauto.
  - left. unfold AllocatePageAlignedChunk in Ha. rewrite (proj2 (Z.eqb_neq _ 0)) in Ha by lia.
    by destruct (posix_memalign_fails _ _); simplify_eq.
Qed.

Lemma env_task_ok i t g g' : shared_ok g -> env g g' -> task_ok i t g -> task_ok i t g'.
Proof.
  intros _ [Hb _]%env_ok [Hi Ht]. split; [done|]. by rewrite Hb.
Qed.

Lemma env_shared_ok g g' : shared_ok g -> env g g' -> shared_ok g'.
Proof. intros [Hl Ht] [Hb Hs]%env_ok. split; [by rewrite Hb|auto]. Qed.

#[local] Abbreviation step := (chunk_step path tag page_size al remote_read).

(** Every step keeps the shared state and the moving task good, and writes at
    most the task's own piece of the buffer. *)
Lemma step_effect i t g now :
  shared_ok g -> task_ok i t g ->
  let '(t', g') := step now t g in
  shared_ok g' /\ task_ok i t' g' /\
  (buffer g' = buffer g \/
   exists bytes, write_at (buffer g) (requested_start_addr (task_chunk t)) bytes = Some (buffer g') /\
                 Z.of_nat (length bytes) = bytes_to_copy (task_chunk t)).
Proof.
  intros Hg [Hi Ht]. pose proof Hg as [Hlen Hs]. unfold task_ok.
  destruct t as [c|c ch|c|c ch|c ch|c|c e]; simpl in *.
  - destruct (Get now (block_key path c) tag (storage g)) as [r s'] eqn:Hget.
    destruct (truthful_Get content _ _ _ _ _ _ Hs Hget) as [Hs' Hr].
    destruct r as [ch|]; simpl; (split; [done|]); (split; [|by left]); (split; [done|]); [|done].
    destruct (Hr ch eq_refl) as (t' & Htr & Hv). exists t'. split; [done|]. by apply versions.
  - destruct Ht as [t' Ht']. unfold copy_step.
    destruct (copy_good i c ch t' (buffer g) Hi Hlen Ht') as (b & bytes & -> & Hw & Hl & Ha). simpl.
    split; [split; simpl; [by rewrite (length_write_at _ _ _ _ Hw)|done]|]. split; [done|]. right. eauto.
  - pose proof (fetch_good i c Hi) as Hf.
    destruct (fetch page_size al remote_read c) as [ch|e]; simpl; auto.
  - unfold copy_step.
    destruct (copy_good i c ch tag (buffer g) Hi Hlen Ht) as (b & bytes & -> & Hw & Hl & Ha). simpl.
    split; [split; simpl; [by rewrite (length_write_at _ _ _ _ Hw)|done]|]. split; [done|]. right. eauto.
  - destruct Ht as [[Htr Hv] Hd]. pose proof Htr as (_ & Hsz & _ & Hcl & _). simpl in *.
    destruct (Put_total now (block_key path c) ch tag (storage g)) as [s' Hp];
      [apply Hs|by eapply truthful_key_ok|lia|].
    rewrite Hp. simpl. split; [|by auto]. split; [done|]. by eapply truthful_Put.
  - auto.
  - auto.
Qed.

Lemma step_task_chunk now t g : task_chunk (step now t g).1 = task_chunk t.
Proof. apply chunk_step_chunk. Qed.

Lemma all_ok_reachable g0 ts g :
  shared_ok g0 -> run step env (AtLookup <$> cs) g0 ts g -> all_ok shared_ok task_ok ts g.
Proof.
  intros Hg0 Hrun.
  refine (run_invariant step env shared_ok task_ok env_shared_ok env_task_ok _ _ _ _ _ _ Hrun _).
  - intros i t g1 now t' g' Hg Ht Hs. pose proof (step_effect i t g1 now Hg Ht) as He.
    rewrite Hs in He. tauto.
  - intros i j t u g1 now t' g' Hij Hg Ht [Hj Hu] Hs.
    pose proof (step_effect i t g1 now Hg Ht) as He. rewrite Hs in He.
    destruct He as (_ & _ & [Hb|(bytes & Hw & Hl)]); (split; [done|]).
    + by rewrite Hb.
    + destruct Ht as [Hi _]. destruct u; try done; [destruct Hu; split; [done|]|];
        by eapply (piece_done_other i j).
  - split; [done|]. intros i t Hi. rewrite list_lookup_fmap in Hi.
    destruct (cs !! i) as [c|] eqn:Hc; [|done]. simpl in Hi. injection Hi as <-. done.
Qed.

Lemma RunChunks_correct g0 res g :
  shared_ok g0 ->
  RunChunks path tag page_size al remote_read env cs g0 res g ->
  truthful_storage content (storage g) /\
  match res with
  | Ok _ => buffer g = slice file start n
  | Throw e => read_error e
  end.
Proof.
  intros Hg0 (ts & Hrun & Hfin & ->).
  pose proof (run_length _ _ _ _ _ _ Hrun) as Hlen. rewrite length_fmap in Hlen.
  destruct (all_ok_reachable g0 ts g Hg0 Hrun) as [[Hb Hs] Hts]. split; [done|].
  destruct (first_failure_cases task_result ts) as [(t & e & [i Hi]%list_elem_of_lookup & Hr & Hw)|[Hw Hall]];
    unfold WaitAll; unfold first_failure in Hw; rewrite Hw.
  { destruct (Hts i t Hi) as [_ Ht]. destruct t; simplify_eq/=. done. }
  pose proof (tiles_le _ _ _ _ _ Htiles) as Hle.
  assert (agrees (buffer g) 0 file start n) as Ha.
  { replace n with (start + n - start) by lia. apply (tiles_agrees _ _ _ _ _ _ _ Htiles).
    intros c [i Hi]%list_elem_of_lookup.
    destruct (lookup_lt_is_Some_2 ts i) as [t Ht]; [rewrite Hlen; by eapply lookup_lt_Some|].
    pose proof (list_elem_of_lookup_2 _ _ _ Ht) as Hin. specialize (Hall t Hin).
    rewrite Forall_forall in Hfin. specialize (Hfin t Hin). destruct (Hts i t Ht) as [Hc Hd].
    destruct t as [| | | | |c'|]; simplify_eq/=. done. }
  apply slice_of_agrees; try done; lia.
Qed.
End Correctness.

(** ** The reader *)

(** [InMemoryCacheReaderConfig], the fields that shape a read and the backend. *)
Record InMemoryCacheReaderConfig := MkReaderConfig {
  max_cache_block_count : Z;
  cache_block_timeout_millisec : Z;
  cache_block_size : Z;
  max_subrequest_count : Z;
  enable_cache_validation : bool;
  in_mem_cache_storage : string;
  chunking : string;
  in_mem_cache_bytes : Z;
  eviction_policy : string;
  policy_scope : string;
  file_policies : string
}.

Definition COLUMN_CHUNK_CHUNKING : string := "column_chunk".

(** The chunks a request is split into, with [total_bytes_to_cache]. *)
Definition PlanRead (config : InMemoryCacheReaderConfig) (layouts : registry) (path : string)
    (requested_start_offset requested_bytes_to_read file_size : Z) : option (list CacheReadChunk * Z) :=
  let fixed := PlanFixedBlocks requested_start_offset requested_bytes_to_read file_size
                 (cache_block_size config) in
  if String.eqb (chunking config) COLUMN_CHUNK_CHUNKING && HasLayout path layouts then
    planned_chunks ← PlanColumnChunks
      (MkPlanRequest requested_start_offset requested_bytes_to_read file_size
         (cache_block_size config)) path layouts;
    match planned_chunks with
    | [] => fixed
    | _ => Some (planned_chunks,
                 fold_left (fun total c => total +u chunk_size c) planned_chunks 0)
    end
  else fixed.

Definition read_version_tag (config : InMemoryCacheReaderConfig) (handle_tag : string) : string :=
  if enable_cache_validation config then handle_tag else ""%string.

Section ReadAndCache.
Context {S : Type} `{InMemoryDataCacheStorage S}.
Variables (path handle_tag : string) (page_size : Z) (al : Allocator).
Variable remote_read : Z -> Z -> Res (list byte).
Variables (config : InMemoryCacheReaderConfig) (layouts : registry).
Variable env : shared S -> shared S -> Prop.

(** [InMemoryCacheReader::ReadAndCache] on a storage that [cache_init_flag] has
    already built, [buffer g] being the caller's memory. *)
Definition ReadAndCache (requested_start_offset requested_bytes_to_read file_size : Z)
    (g : shared S) (res : Res unit) (g' : shared S) : Prop :=
  if requested_bytes_to_read =? 0 then res = Ok tt /\ g' = g
  else
    exists chunks total_bytes_to_cache waited mid,
      PlanRead config layouts path requested_start_offset requested_bytes_to_read file_size
        = Some (chunks, total_bytes_to_cache) /\
      RunChunks path (read_version_tag config handle_tag) page_size al remote_read env
        chunks g waited mid /\
      match waited with
      | Throw e => res = Throw e /\ g' = mid
      | Ok _ => res = Ok tt /\
          g' = log mid (RecordActualCacheRead total_bytes_to_cache requested_bytes_to_read)
      end.
End ReadAndCache.

Section Maintenance.
Context {S : Type} `{InMemoryDataCacheStorage S}.

(** The reader's [storage] pointer: null until the first read. *)
Definition GetCacheEntriesInfo (s : option S) : list DataCacheEntryInfo :=
  match s with
  | None => []
  | Some s =>
      (fun k => MkEntryInfo "(no disk cache)" (fname k) (start_off k)
                            (start_off k +u blk_size k) "in-mem") <$> Keys s
  end.

Definition ClearCache (s : option S) : option S := Clear <$> s.

Definition ClearCacheFile (f : string) (s : option S) : option S :=
  ClearFrom (file_start_key f) (file_filter f) <$> s.

Fixpoint put_all (now : Z) (kvs : list (InMemCacheBlock * InMemCacheDataEntry)) (s : S) :
    Res unit * S :=
  match kvs with
  | [] => (Ok tt, s)
  | (k, e) :: kvs' =>
      match Put now k (entry_data e) (version_tag e) s with
      | Throw ex => (Throw ex, s)
      | Ok s' => put_all now kvs' s'
      end
  end.

(** [RemapInMemoryDataBlocksForNewBlockSize]; the storage is returned with the
    outcome since an exception leaves it drained. *)
Definition RemapInMemoryDataBlocksForNewBlockSize (page_size : Z) (al : Allocator)
    (clock : nat -> Z) (now new_block_size : Z) (s : option S) : Res unit * option S :=
  match s with
  | None => (Ok tt, None)
  | Some s =>
      let '(taken, s1) := Take clock s in
      match (taken ← taken; RemapInMemCacheEntries page_size al new_block_size ∅ taken) with
      | Throw e => (Throw e, Some s1)
      | Ok rebuilt => let '(res, s2) := put_all now rebuilt s1 in (res, Some s2)
      end
  end.
End Maintenance.

(** ** Facts *)
Lemma PlanRead_tiles config layouts path start n file_size :
  0 <= start -> 0 < n -> 0 < cache_block_size config -> start + n <= file_size ->
  file_size + cache_block_size config < two64 -> registry_ok layouts ->
  exists cs total, PlanRead config layouts path start n file_size = Some (cs, total) /\
    tiles file_size cs start 0 (start + n).
Proof.
  intros Hs Hn Hb He Hf Hr. unfold PlanRead.
  destruct (PlanFixedBlocks_ok start n file_size (cache_block_size config))
    as (cs & total & Hp & Ht & _); [lia..|].
  destruct (_ && _); [|eauto].
  destruct (PlanColumnChunks_tiles start n file_size (cache_block_size config) path layouts)
    as (ds & -> & Hd & _); [done|lia..|]. simpl.
  destruct ds as [|d ds]; [rewrite Hp; eauto|]. eauto.
Qed.

Section StorageFacts.
Context {S : Type} `{StorageLaws S}.
Variable content : string -> string -> list byte.

Lemma put_all_truthful now kvs (s : S) :
  truthful_storage content s -> Forall (fun kv => truthful content kv.1 kv.2) kvs ->
  exists s', put_all now kvs s = (Ok tt, s') /\ truthful_storage content s'.
Proof.
  intros Hs Hk. revert s Hs. induction Hk as [|[k [c t]] kvs Hk _ IH]; intros s Hs; simpl; [eauto|].
  simpl in Hk. pose proof Hk as (? & ? & _ & Hcl & _). simpl in *.
  destruct (Put_total now k c t s) as [s1 Hs1]; [apply Hs|by eapply truthful_key_ok|lia|].
  rewrite Hs1. apply IH. by eapply truthful_Put.
Qed.

Lemma put_all_holds now kvs (s s' : S) :
  storage_ok s -> Forall (fun kv => key_ok kv.1) kvs -> put_all now kvs s = (Ok tt, s') ->
  forall k e, holds s' k e -> (k, e) ∈ kvs \/ holds s k e.
Proof.
  intros Hs Hk. revert s Hs. induction Hk as [|[k [c t]] kvs Hk _ IH]; intros s Hs Hp; simpl in Hp; [simplify_eq; by right|].
  destruct (Put now k c t s) as [s1|] eqn:Hput; [|done].
  destruct (Put_law _ _ _ _ _ _ Hs Hk Hput) as [Hs1 Hh]. intros k' e' He.
  destruct (IH s1 Hs1 Hp k' e' He) as [Hin|He1]; [left; by right|].
  destruct (Hh _ _ He1) as [[-> ->]|?]; [left; by left|by right].
Qed.

(** [s'] is [s] on the grid of [bs]-byte blocks: what the storage gives up is rebuilt and put
    back, and nothing else is held.  A rebuilt block is truthful, starts on the grid and is
    one block long at most; and, when the drained blocks of a file do not overlap, every
    aligned position inside one of them starts a rebuilt block of the same version, as long
    as the rest of the drained one, or a whole block. *)
Definition regrids (bs now : Z) (clock : nat -> Z) (s s' : S) : Prop :=
  exists taken s1 rebuilt,
    Take clock s = (Ok taken, s1) /\ put_all now rebuilt s1 = (Ok tt, s') /\
    (forall k e, holds s' k e -> (k, e) ∈ rebuilt) /\
    Forall (regridded content bs) rebuilt /\
    (ForallOrdPairs apart taken -> forall k e, (k, e) ∈ taken ->
       covers bs rebuilt (fname k) (version_tag e) (start_off k) (start_off k + blk_size k)).

Lemma remap_truthful page_size al clock now bs (s : S) res s' :
  0 < page_size -> 0 < bs ->
  (forall f t, Z.of_nat (length (content f t)) + 2 * bs + page_size < two64) ->
  truthful_storage content s ->
  RemapInMemoryDataBlocksForNewBlockSize page_size al clock now bs (Some s) = (res, Some s') ->
  truthful_storage content s' /\ (res = Ok tt /\ regrids bs now clock s s' \/ res = Throw BadAlloc).
Proof.
  intros Hp Hb Hf [Hok Hall] Hr. unfold RemapInMemoryDataBlocksForNewBlockSize in Hr.
  destruct (Take_law clock s Hok) as (taken & s1 & Ht & Hok1 & Hnone & _ & Hin).
  rewrite Ht in Hr. simpl in Hr.
  assert (truthful_storage content s1) as Hs1 by (split; [done|]; intros k e []%Hnone).
  assert (Forall (fun kv => truthful content kv.1 kv.2) taken) as Htaken.
  { apply Forall_forall. intros [k e] Hke. apply Hall, Hin, Hke. }
  pose proof (Remap_ok content page_size al bs ∅ Hp Hb Hf taken Htaken) as Hrm.
  pose proof (Remap_covers content page_size al bs ∅ Hp Hb Hf (fun f => lookup_empty f) taken) as Hcov.
  destruct (RemapInMemCacheEntries page_size al bs ∅ taken) as [rebuilt|ex].
  - assert (Forall (fun kv => truthful content kv.1 kv.2) rebuilt) as Hreb.
    { eapply Forall_impl; [apply Hrm|by intros kv []]. }
    destruct (put_all_truthful now rebuilt s1 Hs1 Hreb) as (s2 & Hput & Hs2).
    rewrite Hput in Hr. simplify_eq. split; [done|]. left. split; [done|].
    exists taken, s1, rebuilt. split; [done|]. split; [done|]. split; [|split; [done|]].
    + assert (Forall (fun kv => key_ok kv.1) rebuilt) as Hkeys.
      { eapply Forall_impl; [exact Hreb|]. intros kv Hkv. eapply truthful_key_ok, Hkv. }
      intros k e He. by destruct (put_all_holds now rebuilt s1 s' Hok1 Hkeys Hput k e He) as [?|?%Hnone].
    + intros Hap k e Hke. by apply (Hcov rebuilt).
  - simplify_eq. split; [done|]. right. by f_equal.
Qed.
End StorageFacts.

(** ** Samples *)

(** The storage the witnesses run on: the entry-bounded backend. *)
Definition sample_file : list byte := [x61; x62; x63; x64; x65; x66; x67; x68; x69; x6a].
Definition sample_content (f t : string) : list byte := sample_file.
Definition sample_remote (nr loc : Z) : Res (list byte) := Ok (slice sample_file loc nr).
Definition sample_allocator : Allocator := MkAllocator (fun _ => false) (fun _ => []).
Definition sample_config : InMemoryCacheReaderConfig :=
  MkReaderConfig 64 0 4 2 true "extension" "fixed" 0 "lru" "global" "".
Definition sample_start : shared ExtensionBoundedDataCacheStorage.storage :=
  MkShared (replicate 5 x00) (ExtensionBoundedDataCacheStorage.new_storage 64 0) [].

(** An interleaving of the two sub-reads of bytes 3 to 8 of the sample file. *)
Definition sample_chunks : list CacheReadChunk :=
  [MkReadChunk 0 3 0 4 1; MkReadChunk 1 4 4 4 4].
Definition sample_schedule : list (nat * Z) :=
  [(0%nat, 1); (1%nat, 2); (1%nat, 3); (0%nat, 4); (0%nat, 5); (1%nat, 6); (0%nat, 7); (1%nat, 8)].
Definition sample_run :=
  run_schedule (chunk_step "f" "" 16 sample_allocator sample_remote) sample_schedule
    (AtLookup <$> sample_chunks) sample_start.
Definition sample_end : shared ExtensionBoundedDataCacheStorage.storage :=
  log sample_run.2 (RecordActualCacheRead 8 5).

Lemma sample_read :
  ReadAndCache "f" "" 16 sample_allocator sample_remote sample_config ∅ (fun _ _ => False)
    3 5 10 sample_start (Ok tt) sample_end.
Proof.
  exists sample_chunks, 8, (Ok tt), sample_run.2. split; [vm_compute; reflexivity|].
  split; [|by split]. exists sample_run.1. split; [apply run_schedule_run|].
  split; [|vm_compute; reflexivity]. vm_compute. repeat constructor.
Qed.

Lemma sample_start_ok :
  truthful_storage sample_content (storage sample_start).
Proof.
  split; [apply new_storage_ok|]. intros k e [ts Hin].
  change (view (ExtensionBoundedDataCacheStorage.new_storage 64 0)) with (@nil (InMemCacheBlock * (InMemCacheDataEntry * Z))) in Hin.
  inversion Hin.
Qed.

(** ** Properties *)
Section Reading.
Context {S : Type} `{StorageLaws S}.

Lemma ReadAndCache_ok path handle_tag page_size al remote_read config
    layouts env content start n (g : shared S) res g' :
  let tag := read_version_tag config handle_tag in
  let file := content path tag in
  let file_size := Z.of_nat (length file) in
  (forall nr loc bytes, 0 <= loc -> 0 < nr -> loc + nr <= file_size ->
     remote_read nr loc = Ok bytes -> bytes = slice file loc nr) ->
  (forall t, ValidateVersionTag t tag = true -> content path t = file) ->
  0 < page_size -> file_size + page_size < two64 ->
  (forall g g', env g g' -> buffer g' = buffer g /\
     (truthful_storage content (storage g) -> truthful_storage content (storage g'))) ->
  0 < cache_block_size config -> file_size + cache_block_size config < two64 ->
  registry_ok layouts ->
  0 <= start -> 0 <= n -> start + n <= file_size ->
  Z.of_nat (length (buffer g)) = n -> truthful_storage content (storage g) ->
  ReadAndCache path handle_tag page_size al remote_read config layouts env start n file_size g res g' ->
  truthful_storage content (storage g') /\
  match res with
  | Ok _ => buffer g' = slice file start n
  | Throw e => e = BadAlloc \/ exists nr loc, remote_read nr loc = Throw e
  end.
Proof.
  intros tag file file_size Hremote Hver Hpage Hfit Henv Hbs Hfit2 Hreg Hs Hn He Hbuf Htr Hread.
  unfold ReadAndCache in Hread. destruct (Z.eqb_spec n 0) as [->|Hn0].
  - destruct Hread as [-> ->]. split; [done|].
    destruct (buffer g); simpl in Hbuf; [done|lia].
  - destruct Hread as (cs & total & waited & mid & Hplan & Hrun & Hres).
    destruct (PlanRead_tiles config layouts path start n file_size) as (cs' & total' & Hp & Ht);
      [lia|lia|done|done|done|done|].
    assert (cs' = cs) as -> by congruence.
    destruct (RunChunks_correct path tag page_size al remote_read content env Hremote Hver Hpage
      Hfit Henv cs start n (conj Hs He) Ht g waited mid (conj Hbuf Htr) Hrun) as [Hok Hout].
    destruct waited; destruct Hres as [-> ->]; by split.
Qed.

(** C1: Whatever the cache holds, provided it is truthful, however the sub-reads of
    a request are scheduled and whatever other queries do to the shared cache in
    between, [InMemoryCacheReader::ReadAndCache] leaves in the caller's buffer
    exactly the requested bytes of the file's current version, or throws an
    exception that the allocator or the remote filesystem raised; the cache stays
    truthful in both cases, and the planner and every assertion on the way succeed. *)
Theorem in_memory_read_correct path handle_tag page_size al remote_read config
    layouts env content start n (g : shared S) res g' :
  let tag := read_version_tag config handle_tag in
  let file := content path tag in
  let file_size := Z.of_nat (length file) in
  (forall nr loc bytes, 0 <= loc -> 0 < nr -> loc + nr <= file_size ->
     remote_read nr loc = Ok bytes -> bytes = slice file loc nr) ->
  (forall t, ValidateVersionTag t tag = true -> content path t = file) ->
  0 < page_size -> file_size + page_size < two64 ->
  (forall g g', env g g' -> buffer g' = buffer g /\
     (truthful_storage content (storage g) -> truthful_storage content (storage g'))) ->
  0 < cache_block_size config -> file_size + cache_block_size config < two64 ->
  registry_ok layouts ->
  0 <= start -> 0 <= n -> start + n <= file_size ->
  Z.of_nat (length (buffer g)) = n -> truthful_storage content (storage g) ->
  ReadAndCache path handle_tag page_size al remote_read config layouts env start n file_size g res g' ->
  truthful_storage content (storage g') /\
  match res with
  | Ok _ => buffer g' = slice file start n
  | Throw e => e = BadAlloc \/ exists nr loc, remote_read nr loc = Throw e
  end.
Proof. apply ReadAndCache_ok. Qed.

(** A read always completes: its plan exists, and in any schedule in which
    every sub-read gets four turns, whatever else runs in between, every sub-read
    finishes, with a result or with an exception. *)
Theorem in_memory_read_terminates path tag page_size al remote_read config layouts
    start n file_size (g : shared S) (sch : list (nat * Z)) :
  0 <= start -> 0 < n -> 0 < cache_block_size config -> start + n <= file_size ->
  file_size + cache_block_size config < two64 -> registry_ok layouts ->
  exists cs total, PlanRead config layouts path start n file_size = Some (cs, total) /\
    ((forall i, (i < length cs)%nat -> (4 <= turns i sch)%nat) ->
     Forall (fun t => finished t = true)
       (run_schedule (chunk_step path tag page_size al remote_read) sch (AtLookup <$> cs) g).1).
Proof.
  intros Hs Hn Hb He Hf Hr.
  destruct (PlanRead_tiles config layouts path start n file_size) as (cs & total & Hp & _); [done..|].
  exists cs, total. split; [done|]. intros Hturns. apply Forall_forall.
  intros t [i Hi]%list_elem_of_lookup.
  pose proof (run_schedule_run (chunk_step path tag page_size al remote_read) (fun _ _ => True) sch
    (AtLookup <$> cs) g) as Hrun.
  pose proof (run_length _ _ _ _ _ _ Hrun) as Hlen. rewrite length_fmap in Hlen.
  assert (i < length cs)%nat as Hlt by (apply lookup_lt_Some in Hi; lia).
  destruct (lookup_lt_is_Some_2 cs i Hlt) as [c Hc].
  destruct (run_schedule_measure (chunk_step path tag page_size al remote_read) task_measure
    (chunk_step_measure path tag page_size al remote_read) sch (AtLookup <$> cs) g i (AtLookup c))
    as (t' & Ht' & Hm); [by rewrite list_lookup_fmap, Hc|by apply Hturns|].
  assert (t' = t) as -> by congruence. by destruct t.
Qed.

(** [ClearCache (fname)] of the reader makes every block of the file
    unavailable, whatever block sizes they were cached with, and touches no block of
    another file. *)
Theorem clear_file_exact f (s s' : S) :
  storage_ok s -> ClearCacheFile f (Some s) = Some s' ->
  storage_ok s' /\
  (forall k e, holds s' k e <-> holds s k e /\ fname k <> f) /\
  (forall now k t, fname k = f -> (Get now k t s').1 = None).
Proof.
  intros Hok [= <-]. destruct (ClearFrom_law f s Hok) as [Hok' Hh]. do 2 (split; [done|]).
  intros now k t Hk. destruct (Get now k t _) as [[c|] s'] eqn:Hg; [|done].
  destruct (Get_law _ _ _ _ _ _ Hok' Hg) as (_ & _ & Hr).
  destruct (Hr c eq_refl) as (e & He & _). by apply Hh in He as [].
Qed.
End Reading.

(** ** Witnesses *)
Lemma in_memory_read_correct_witness :
  truthful_storage sample_content (storage sample_end) /\
  buffer sample_end = slice sample_file 3 5.
Proof.
  apply (in_memory_read_correct "f" "" 16 sample_allocator sample_remote sample_config ∅
    (fun _ _ => False) sample_content 3 5 sample_start (Ok tt) sample_end);
    try (simpl; lia); try done.
  - intros nr loc bytes _ _ _ [= <-]. done.
  - apply sample_start_ok.
  - apply sample_read.
Defined.

Lemma in_memory_read_terminates_witness :
  exists cs total, PlanRead sample_config ∅ "f" 3 5 10 = Some (cs, total) /\
    ((forall i, (i < length cs)%nat -> (4 <= turns i sample_schedule)%nat) ->
     Forall (fun t => finished t = true)
       (run_schedule (chunk_step "f" "" 16 sample_allocator sample_remote) sample_schedule
          (AtLookup <$> cs) sample_start).1).
Proof. apply in_memory_read_terminates; try (simpl; lia). apply map_Forall_empty. Defined.

Definition sample_remapped :=
  RemapInMemoryDataBlocksForNewBlockSize 16 sample_allocator (fun _ => 9) 9 3 (Some (storage sample_end)).

Example sample_remap_keys :
  sample_remapped.1 = Ok tt /\
  (Keys <$> sample_remapped.2) = Some [MkBlock "f" 0 3; MkBlock "f" 3 3; MkBlock "f" 6 2].
Proof. vm_compute. by split. Qed.

Lemma sample_tiles : tiles 10 sample_chunks 3 0 (3 + 5).
Proof. repeat (constructor; simpl; try lia). Qed.

Lemma sample_end_truthful : truthful_storage sample_content (storage sample_end).
Proof.
  apply (RunChunks_correct "f" "" 16 sample_allocator sample_remote sample_content
    (fun _ _ => False)) with (cs := sample_chunks) (start := 3) (n := 5)
    (g0 := sample_start) (res := Ok tt) (g := sample_run.2); try done; try (simpl; lia).
  - intros nr loc bytes _ _ _ [= <-]. done.
  - apply sample_tiles.
  - split; [done|apply sample_start_ok].
  - exists sample_run.1. split; [apply run_schedule_run|].
    split; [vm_compute; repeat constructor|vm_compute; reflexivity].
Qed.

Lemma clear_file_exact_witness :
  let s := storage sample_end in
  let s' := default s (ClearCacheFile "f" (Some s)) in
  storage_ok s' /\ (forall k e, holds s' k e <-> holds s k e /\ fname k <> "f"%string) /\
  (forall now k t, fname k = "f"%string -> (Get now k t s').1 = None).
Proof. intros s s'. apply clear_file_exact; [apply sample_end_truthful|reflexivity]. Defined.
