(* ===== verification/PooledRead.v ===== *)
(** * PooledRead

    A read of the in-memory reader whose sub-reads run on the thread pool: total correctness of
    [InMemReader] over [ThreadPool], from the first scheduled task to the joined workers. *)
From S2P Require Import Prelude Tasks ThreadPool ThreadPoolProofs IoOperations Blocks DataStorage ReadPlan ParquetLayout ExtensionStorage InMemReader.

#[local] Open Scope Z_scope.

Section PooledRead.
Context {S : Type} `{StorageLaws S}.
Variables (path tag : string) (page_size : Z) (al : Allocator) (remote_read : Z -> Z -> Res (list byte)).
Implicit Types (g : shared S) (cs : list CacheReadChunk).

(** The threads of a pool on the sub-reads of a plan. *)
Definition pool_step : Z -> actor chunk_task -> pool chunk_task (shared S) -> actor chunk_task * pool chunk_task (shared S) :=
  actor_step (chunk_step path tag page_size al remote_read) finished task_result.

Lemma unfinished_decreases now t g :
  finished t = false ->
  (task_measure (chunk_step path tag page_size al remote_read now t g).1 < task_measure t)%nat.
Proof.
  intros Hf. pose proof (chunk_step_measure path tag page_size al remote_read now t g). by destruct t; simpl in *; try lia.
Qed.

Lemma pool_run_chunks env n cs g ts p r :
  Z.of_nat n < two64 ->
  run pool_step (disturb env) (executor n (AtLookup <$> cs)) (new_pool n g) ts p ->
  ts !! 0%nat = Some (Owner (Returned r)) -> RunChunks path tag page_size al remote_read env cs g r (ThreadPool.shared p).
Proof.
  intros Hn Hrun Ho. destruct (pool_returns _ _ _ env n _ g ts p r Hn Hrun Ho) as (Hr & Hf & -> & _). by exists (tasks p).
Qed.

Lemma lookup_measure cs : sum_list_with task_measure (AtLookup <$> cs) = (4 * length cs)%nat.
Proof. induction cs as [|c cs IH]; [done|]. rewrite fmap_cons. cbn [sum_list_with task_measure length]. rewrite IH. lia. Qed.

End PooledRead.

Section TotalRead.
Context {S : Type} `{StorageLaws S}.

(** C8: A read of the in-memory reader on the thread pool is total and correct.  Its plan exists; and in
    every schedule of 4n + 7 + 11k rounds of the owner and n workers, k being the number of
    sub-reads, the owner returns from WaitAll and joins the pool, with the requested bytes of
    the file's version in the caller's buffer, or with an exception of the allocator or of the
    remote filesystem; and the cache is truthful afterwards. *)
Theorem pooled_read_returns path tag page_size al remote_read config layouts content start n threads rounds (g : shared S) :
  let vtag := read_version_tag config tag in
  let file := content path vtag in
  let file_size := Z.of_nat (length file) in
  (forall nr loc bytes, 0 <= loc -> 0 < nr -> loc + nr <= file_size ->
     remote_read nr loc = Ok bytes -> bytes = slice file loc nr) ->
  (forall t, ValidateVersionTag t vtag = true -> content path t = file) ->
  0 < page_size -> file_size + page_size < two64 ->
  0 < cache_block_size config -> file_size + cache_block_size config < two64 ->
  registry_ok layouts ->
  0 <= start -> 0 < n -> start + n <= file_size ->
  Z.of_nat (length (buffer g)) = n -> truthful_storage content (storage g) ->
  (0 < threads)%nat -> Z.of_nat threads < two64 -> Forall (fun sch => round sch (Datatypes.S threads)) rounds ->
  exists cs total, PlanRead config layouts path start n file_size = Some (cs, total) /\
    ((4 * threads + 7 + 11 * length cs <= length rounds)%nat ->
     let '(ts, p) := run_schedule (actor_step (chunk_step path vtag page_size al remote_read) finished task_result)
                       (concat rounds) (executor threads (AtLookup <$> cs)) (new_pool threads g) in
     exists r, ts !! 0%nat = Some (Owner (Returned r)) /\ truthful_storage content (storage (ThreadPool.shared p)) /\
       match r with
       | Ok _ => buffer (ThreadPool.shared p) = slice file start n
       | Throw e => e = BadAlloc \/ exists nr loc, remote_read nr loc = Throw e
       end).
Proof.
  intros vtag file file_size Hremote Hver Hpage Hfit Hbs Hfit2 Hreg Hs Hn He Hbuf Htr Ht Ht64 Hrounds.
  destruct (PlanRead_tiles config layouts path start n file_size) as (cs & total & Hp & _); [done..|].
  exists cs, total. split; [done|]. intros Hlen.
  pose proof (run_schedule_run (actor_step (chunk_step path vtag page_size al remote_read) finished task_result)
    (disturb (fun _ _ => False)) (concat rounds) (executor threads (AtLookup <$> cs)) (new_pool threads g)) as Hrun.
  destruct (pool_ends (chunk_step path vtag page_size al remote_read) finished task_result task_measure
    (unfinished_decreases path vtag page_size al remote_read) threads (AtLookup <$> cs) g rounds) as [r Hr]; [done..| |].
  { rewrite lookup_measure, length_fmap. lia. }
  destruct (run_schedule _ _ _ _) as [ts p] eqn:E. simpl in Hr, Hrun. exists r. split; [done|].
  pose proof (pool_run_chunks path vtag page_size al remote_read (fun _ _ => False) threads cs g ts p r Ht64 Hrun Hr) as Hc.
  set (mid := ThreadPool.shared p) in *.
  destruct (ReadAndCache_ok path tag page_size al remote_read config layouts (fun _ _ => False) content start n g r
    (match r with Ok _ => log mid (RecordActualCacheRead total n) | Throw _ => mid end)) as [Hst Hres]; try done; try lia.
  - unfold ReadAndCache. destruct (Z.eqb_spec n 0); [lia|]. exists cs, total, r, mid. split; [done|]. split; [done|]. by destruct r as [[]|].
  - by destruct r.
Qed.
End TotalRead.

(** ** Witness: the sample of [InMemReader] on two workers *)
Definition pooled_end :=
  run_schedule (actor_step (chunk_step "f" "" 16 sample_allocator sample_remote) finished task_result)
    (concat sample_rounds) (executor 2 (AtLookup <$> sample_chunks)) (new_pool 2 sample_start).

Lemma pooled_read_returns_witness :
  pooled_end.1 !! 0%nat = Some (Owner (Returned (Ok tt))) /\ buffer (ThreadPool.shared pooled_end.2) = slice sample_file 3 5.
Proof.
  assert (pooled_end.1 !! 0%nat = Some (Owner (Returned (Ok tt)))) as H0 by (vm_compute; reflexivity).
  split; [exact H0|].
  destruct (pooled_read_returns "f" "" 16 sample_allocator sample_remote sample_config ∅ sample_content 3 5 2 sample_rounds
    sample_start) as (cs & total & Hp & Hret).
  - intros nr loc bytes _ _ _ [= <-]. reflexivity.
  - intros t _. reflexivity.
  - lia.
  - simpl. lia.
  - simpl. lia.
  - simpl. lia.
  - apply map_Forall_empty.
  - lia.
  - lia.
  - simpl. lia.
  - reflexivity.
  - apply sample_start_ok.
  - lia.
  - lia.
  - exact sample_rounds_fair.
  - change (PlanRead sample_config ∅ "f" 3 5 (Z.of_nat (length sample_file))) with (Some (sample_chunks, 8)) in Hp.
    injection Hp as <- <-. specialize (Hret ltac:(vm_compute; lia)).
    change (read_version_tag sample_config "") with ""%string in Hret.
    revert H0 Hret. unfold pooled_end. destruct (run_schedule _ _ _ _) as [ts p]. simpl. intros H0 (r & Hr & _ & Hb).
    rewrite H0 in Hr. injection Hr as <-. exact Hb.
Defined.
