(* ===== verification/CacheHits.v ===== *)
(** * CacheHits

    What the cache is for: a block that was read stays in memory, and reading it again needs
    no remote request.  A storage keeps what it is given as long as the working set fits into
    it and does not grow old ([RetainingStorage]); the count-bounded storage is one. *)
From S2P Require Import Prelude StdList OrdMap Blocks ReadPlan DataStorage Tasks IoOperations ParquetLayout.
From S2P Require Import LruCache LruSpec LruProofs ExtensionStorage InMemReader.

#[local] Open Scope Z_scope.

(** ** Storages that keep a working set

    [room ks from now until s]: between the times [from] and [until], [s] keeps entries with
    the keys [ks]; it is [now]. *)
Class RetainingStorage (S : Type) `{StorageLaws S} := {
  room : list InMemCacheBlock -> Z -> Z -> Z -> S -> Prop;
  room_later ks from now now' until s : room ks from now until s -> now <= now' <= until -> room ks from now' until s;
  Get_keeps ks from now now' until k t s r s' :
    storage_ok s -> room ks from now until s -> now <= now' <= until -> DataStorage.Get now' k t s = (r, s') ->
    room ks from now' until s' /\
    (forall k' e, holds s k' e -> (k' = k -> ValidateVersionTag (version_tag e) t = true) -> holds s' k' e) /\
    (forall e, holds s k e -> ValidateVersionTag (version_tag e) t = true -> r = Some (entry_data e));
  Put_keeps ks from now now' until k c t s s' :
    storage_ok s -> room ks from now until s -> now <= now' <= until -> k ∈ ks -> DataStorage.Put now' k c t s = Ok s' ->
    room ks from now' until s' /\ holds s' k (MkEntry c t) /\
    forall k' e, k' <> k -> holds s k' e -> holds s' k' e
}.

(** A schedule whose clock does not go back, and stops at [until]. *)
Fixpoint clock_ok (now until : Z) (sch : list (nat * Z)) : bool :=
  match sch with
  | [] => true
  | (_, now') :: sch => (now <=? now') && (now' <=? until) && clock_ok now' until sch
  end.

Definition end_clock (now : Z) (sch : list (nat * Z)) : Z := foldl (fun _ p => p.2) now sch.

Lemma clock_ok_app now until s1 s2 :
  clock_ok now until (s1 ++ s2) = clock_ok now until s1 && clock_ok (end_clock now s1) until s2.
Proof.
  revert now. induction s1 as [|[i now'] s1 IH]; intros now; simpl; [done|].
  rewrite IH. by rewrite !andb_assoc.
Qed.

(** An invariant that depends on the time, along such a schedule. *)
Lemma clock_invariant {T G} (step : Z -> T -> G -> T * G) (until : Z) (Inv : Z -> list T -> G -> Prop) sch now ts g :
  (forall now now' ts g, Inv now ts g -> now <= now' <= until -> Inv now' ts g) ->
  (forall now now' ts g i t, Inv now ts g -> now <= now' <= until -> ts !! i = Some t ->
     Inv now' (<[i := (step now' t g).1]> ts) (step now' t g).2) ->
  clock_ok now until sch = true -> Inv now ts g ->
  Inv (end_clock now sch) (run_schedule step sch ts g).1 (run_schedule step sch ts g).2.
Proof.
  intros Hlater Hstep. revert now ts g. induction sch as [|[i now'] sch IH]; intros now ts g Hc Hi; [done|].
  simpl in Hc. rewrite !andb_true_iff, !Z.leb_le in Hc. destruct Hc as [[H1 H2] Hc]. simpl.
  destruct (ts !! i) as [t|] eqn:Ht; [|apply IH; [done|by eapply Hlater]].
  pose proof (Hstep now now' ts g i t Hi (conj H1 H2) Ht) as Hs.
  destruct (step now' t g) as [t' g']. by apply IH.
Qed.

(** ** The count-bounded storage *)
Import ExtensionBoundedDataCacheStorage.

Record ext_room (ks : list InMemCacheBlock) (from now until : Z) (s : storage) : Prop := {
  er_keys : forall k e ts, (k, (e, ts)) ∈ view s -> k ∈ ks /\ from <= ts <= now;
  er_capacity : 0 < max_entries s -> Z.of_nat (length ks) <= max_entries s;
  er_timeout : 0 < timeout_millisec s -> until - from <= timeout_millisec s;
  er_range : 0 <= from <= now /\ now <= until < two64
}.

Lemma ext_room_later ks from now now' until s :
  ext_room ks from now until s -> now <= now' <= until -> ext_room ks from now' until s.
Proof.
  intros [Hk Hc Ht Hr] Hn. split; [|done|done|lia]. intros k e ts Hin. destruct (Hk k e ts Hin). split; [done|lia].
Qed.

Lemma ext_room_unexpired ks from now until k e ts s :
  ext_room ks from now until s -> (k, (e, ts)) ∈ view s -> spec_expired (timeout_millisec s) now ts = false.
Proof.
  intros [Hk Hc Ht Hr] Hin. destruct (Hk k e ts Hin) as [_ Hts]. unfold spec_expired.
  apply andb_false_iff. destruct (Z.ltb_spec 0 (timeout_millisec s)) as [Hp|]; [right|by left].
  specialize (Ht Hp). apply Z.ltb_ge. rewrite u64_small by lia. lia.
Qed.

Lemma ext_Get_keeps ks from now now' until k t s r s' :
  ext_ok s -> ext_room ks from now until s -> now <= now' <= until -> Get now' k t s = (r, s') ->
  ext_room ks from now' until s' /\
  (forall k' e, ext_holds s k' e -> (k' = k -> ValidateVersionTag (version_tag e) t = true) -> ext_holds s' k' e) /\
  (forall e, ext_holds s k e -> ValidateVersionTag (version_tag e) t = true -> r = Some (entry_data e)).
Proof.
  intros Hok Hroom Hn Hg. pose proof (ext_room_later _ _ _ _ _ _ Hroom Hn) as Hroom'. pose proof Hok as [Hw _].
  pose proof (ext_Get_ok now' k t s r s' Hok Hg) as (Hok' & _ & _).
  unfold Get in Hg. destruct (Shared.Get_refines now' k s Hw) as (Hw1 & Hval & Hview & Hmax & Hto).
  destruct (SharedValueLruCache.Get now' k s) as [o s1]. simpl in *.
  pose proof (NoDup_view s Hw) as Hnd. unfold spec_get in Hval, Hview.
  destruct (spec_find k (view s)) as [[e ts]|] eqn:Hf; simpl in *.
  - apply spec_find_Some in Hf; [|done]. rewrite (ext_room_unexpired _ _ _ _ _ _ _ _ Hroom' Hf) in Hval, Hview.
    simpl in *. subst o.
    assert (Hin : forall p, p ∈ view s1 <-> p ∈ view s).
    { intros p. rewrite Hview, elem_of_cons, elem_of_spec_remove. split; [intros [->|[_ ?]]; done|].
      intros Hp. destruct (decide (p.1 = k)) as [Hk|]; [left|by right].
      destruct p as [k' [e' ts']]. simpl in Hk. subst k'.
      assert (Some (e', ts') = Some (e, ts)) as [= -> ->]; [|done].
      rewrite <-(proj2 (spec_find_Some k (view s) (e, ts) Hnd) Hf). symmetry. by apply spec_find_Some. }
    assert (Hroom1 : ext_room ks from now' until s1).
    { destruct Hroom' as [Hk Hc Ht Hr]. split; rewrite ?Hmax, ?Hto; try done. intros k' e' ts' Hp. by eapply Hk, Hin. }
    destruct (ValidateVersionTag (version_tag e) t) eqn:Hv; simpl in Hg; injection Hg as <- <-.
    + split; [done|]. split.
      * intros k' e' [ts' Hp] _. exists ts'. by apply Hin.
      * intros e' He' _. f_equal. f_equal. eapply (ext_holds_functional s k); [done|by exists ts|done].
    + destruct (Shared.Delete_refines k s1 Hw1) as (Hw2 & _ & Hv2).
      destruct (remove_key_ok k s1 Hw1) as (_ & _ & _ & Hm2 & Ht2 & _). rewrite <-Shared.Delete_remove in Hm2, Ht2.
      split; [|split].
      * destruct Hroom1 as [Hk Hc Ht Hr]. split; rewrite ?Hm2, ?Ht2; try done.
        intros k' e' ts' Hp. unfold spec_delete in Hv2. simpl in Hv2. rewrite Hv2, elem_of_spec_remove in Hp. by eapply Hk, Hp.
      * intros k' e' [ts' Hp] Hval'. exists ts'. unfold spec_delete in Hv2. simpl in Hv2. rewrite Hv2, elem_of_spec_remove. split; [|by apply Hin]. simpl. intros ->.
        assert (e' = e) as -> by (eapply (ext_holds_functional s k); [done|by exists ts'|by exists ts]).
        by rewrite Hval' in Hv.
      * intros e' He' Hval'. assert (e' = e) as -> by (eapply (ext_holds_functional s k); [done|done|by exists ts]). congruence.
  - subst o. injection Hg as <- <-. split; [|split].
    + destruct Hroom' as [Hk Hc Ht Hr]. split; rewrite ?Hmax, ?Hto, ?Hview; done.
    + intros k' e' [ts' Hp] _. exists ts'. by rewrite Hview.
    + intros e' [ts' Hp] _. apply spec_find_None in Hf. destruct Hf. apply list_elem_of_fmap. by exists (k, (e', ts')).
Qed.

(** A capacity that covers the working set is never exceeded. *)
Lemma spec_put_no_eviction {V} (max now : Z) k (v : V) (l : list (InMemCacheBlock * (V * Z))) ks :
  NoDup l.*1 -> (forall k', k' ∈ l.*1 -> k' ∈ ks) -> k ∈ ks -> (0 < max -> Z.of_nat (length ks) <= max) ->
  spec_put max now k v l = (k, (v, now)) :: spec_remove k l.
Proof.
  intros Hnd Hsub Hk Hmax. unfold spec_put. destruct (Z.ltb_spec 0 max) as [Hp|]; [|done]. specialize (Hmax Hp).
  rewrite (proj2 (Z.ltb_ge _ _)); [done|]. etrans; [|done]. apply inj_le.
  rewrite <-(length_fmap fst), fmap_cons, keys_spec_remove. apply submseteq_length, NoDup_submseteq.
  - apply NoDup_cons. split; [intros [? _]%elem_of_without; done|by apply NoDup_without].
  - intros k' [->|Hk']%elem_of_cons; [done|]. apply elem_of_without in Hk' as [_ Hk']. by apply Hsub.
Qed.

Lemma ext_Put_keeps ks from now now' until k c t s s' :
  ext_ok s -> ext_room ks from now until s -> now <= now' <= until -> k ∈ ks -> Put now' k c t s = Ok s' ->
  ext_room ks from now' until s' /\ ext_holds s' k (MkEntry c t) /\
  forall k' e, k' <> k -> ext_holds s k' e -> ext_holds s' k' e.
Proof.
  intros [Hw _] Hroom Hn Hk [= <-]. pose proof (ext_room_later _ _ _ _ _ _ Hroom Hn) as [Hks Hc Ht Hr].
  destruct (Shared.Put_refines now' k (MkEntry c t) s Hw) as (_ & Hv & Hm & Hto).
  rewrite (spec_put_no_eviction _ _ _ _ _ ks) in Hv; [|by apply NoDup_view| |done|done].
  2: { intros k' [[k2 [e ts]] [-> Hp]]%list_elem_of_fmap. by apply (Hks k2 e ts). }
  split; [|split].
  - split; rewrite ?Hm, ?Hto; try done. intros k' e ts Hp. rewrite Hv in Hp.
    apply elem_of_cons in Hp as [[= -> -> ->]|Hp]; [split; [done|]; rewrite u64_small by lia; lia|].
    apply elem_of_spec_remove in Hp as [_ Hp]. by eapply Hks.
  - exists (u64 now'). rewrite Hv. by apply elem_of_cons; left.
  - intros k' e Hne [ts Hp]. exists ts. rewrite Hv. apply elem_of_cons. right. by apply elem_of_spec_remove.
Qed.

#[export] Program Instance extension_retains : RetainingStorage storage := {| room := ext_room |}.
Next Obligation. simpl. apply ext_room_later. Qed.
Next Obligation. simpl. apply ext_Get_keeps. Qed.
Next Obligation. simpl. apply ext_Put_keeps. Qed.

Lemma new_storage_room ks max timeout from until :
  (0 < max -> Z.of_nat (length ks) <= max) -> (0 < timeout -> until - from <= timeout) -> 0 <= from <= until -> until < two64 ->
  ext_room ks from from until (new_storage max timeout).
Proof.
  intros Hm Ht Hf Hu. split; [|done|done|lia].
  intros k e ts Hin. assert (view (new_storage max timeout) = []) as Hv by apply new_lru_ok.
  rewrite Hv in Hin. by apply elem_of_nil in Hin.
Qed.

(** ** Reading a block again *)
Section Hits.
Context {S : Type} `{RetainingStorage S}.
Variables (path tag : string) (page_size until from : Z) (ks : list InMemCacheBlock).
Hypothesis keys_ok : forall k, k ∈ ks -> key_ok k.

(** [k] will be answered. *)
Definition available (s : S) (k : InMemCacheBlock) : Prop :=
  exists e, holds s k e /\ ValidateVersionTag (version_tag e) tag = true.

Definition kept (now : Z) (s : S) : Prop := storage_ok s /\ room ks from now until s.

Lemma kept_later now now' s : kept now s -> now <= now' <= until -> kept now' s.
Proof. intros [Hok Hr] Hn. split; [done|]. by eapply room_later. Qed.

Lemma Get_available now now' k s r s' :
  kept now s -> now <= now' <= until -> DataStorage.Get now' k tag s = (r, s') ->
  kept now' s' /\ (forall k', available s k' -> available s' k') /\
  (available s k -> is_Some r) /\ (is_Some r -> available s' k).
Proof.
  intros [Hok Hr] Hn Hg. destruct (Get_law _ _ _ _ _ _ Hok Hg) as (Hok' & _ & Hres).
  destruct (Get_keeps ks from now now' until k tag s r s' Hok Hr Hn Hg) as (Hr' & Hkeep & Hhit).
  assert (forall k', available s k' -> available s' k') as Hav.
  { intros k' (e & He & Hv). exists e. split; [by apply Hkeep|done]. }
  split; [done|]. split; [done|]. split.
  - intros (e & He & Hv). rewrite (Hhit e He Hv). eauto.
  - intros [c ->]. destruct (Hres c eq_refl) as (e & He & _ & Hv). apply Hav. by exists e.
Qed.

Lemma Put_available now now' k c s s' :
  kept now s -> now <= now' <= until -> k ∈ ks -> DataStorage.Put now' k c tag s = Ok s' ->
  kept now' s' /\ (forall k', available s k' -> available s' k') /\ available s' k.
Proof.
  intros [Hok Hr] Hn Hk Hp. destruct (Put_law _ _ _ _ _ _ Hok (keys_ok k Hk) Hp) as [Hok' _].
  destruct (Put_keeps ks from now now' until k c tag s s' Hok Hr Hn Hk Hp) as (Hr' & Hnew & Hkeep).
  assert (available s' k) as Hav.
  { eexists. split; [done|]. simpl. apply ValidateVersionTag_true. by right. }
  split; [done|]. split; [|done]. intros k' (e & He & Hv). destruct (decide (k' = k)) as [->|Hne]; [done|].
  exists e. split; [by apply Hkeep|done].
Qed.

(** *** The first read leaves its blocks *)
Definition left_block (t : chunk_task) (s : S) : Prop :=
  match t with
  | AtHit c _ | Finished c => available s (block_key path c)
  | _ => True
  end.

Definition filling (cs : list CacheReadChunk) (now : Z) (ts : list chunk_task) (g : shared S) : Prop :=
  kept now (InMemReader.storage g) /\ length ts = length cs /\
  forall i t, ts !! i = Some t -> cs !! i = Some (task_chunk t) /\ left_block t (InMemReader.storage g).

Lemma filling_update cs now ts (g g' : shared S) i t t' :
  kept now (InMemReader.storage g') -> filling cs now ts g -> ts !! i = Some t -> task_chunk t' = task_chunk t ->
  (forall k, available (InMemReader.storage g) k -> available (InMemReader.storage g') k) ->
  left_block t' (InMemReader.storage g') -> filling cs now (<[i := t']> ts) g'.
Proof.
  intros Hk (_ & Hlen & Hall) Hi Hc Hav Hl. split; [done|]. split; [by rewrite length_insert|]. intros j u Hj.
  destruct (decide (i = j)) as [<-|Hne].
  - rewrite list_lookup_insert_eq in Hj by (by eapply lookup_lt_Some). injection Hj as <-.
    rewrite Hc. split; [by apply (Hall i t)|done].
  - rewrite list_lookup_insert_ne in Hj by done. destruct (Hall j u Hj) as [Hu Hlu]. split; [done|].
    destruct u; simpl in *; auto.
Qed.

Section First.
Variables (al : Allocator) (remote_read : Z -> Z -> Res (list byte)) (cs : list CacheReadChunk).
Hypothesis Hks : forall c, c ∈ cs -> block_key path c ∈ ks.

#[local] Abbreviation step := (chunk_step path tag page_size al remote_read).

Lemma filling_step now now' ts (g : shared S) i t :
  filling cs now ts g -> now <= now' <= until -> ts !! i = Some t ->
  filling cs now' (<[i := (step now' t g).1]> ts) (step now' t g).2.
Proof.
  intros Hf Hn Hi. pose proof Hf as (Hk & Hlen & Hall). pose proof (kept_later _ _ _ Hk Hn) as Hk'.
  assert (filling cs now' ts g) as Hf' by (split; [done|by split]). destruct (Hall i t Hi) as [Hc Hl].
  assert (block_key path (task_chunk t) ∈ ks) as Hkey by (apply Hks; by eapply list_elem_of_lookup_2).
  assert (forall t' (g' : shared S), task_chunk t' = task_chunk t -> left_block t' (InMemReader.storage g) ->
    InMemReader.storage g' = InMemReader.storage g -> filling cs now' (<[i := t']> ts) g') as Hsame.
  { intros t' g' Ht' Hl' Hs. by apply (filling_update cs now' ts g g' i t t'); rewrite ?Hs. }
  destruct t as [c|c ch|c|c ch|c ch|c|c e]; simpl in *; unfold copy_step.
  - destruct (DataStorage.Get now' (block_key path c) tag (InMemReader.storage g)) as [r s'] eqn:Hg.
    destruct (Get_available _ _ _ _ _ _ Hk Hn Hg) as (Hks' & Hav & _ & Hhit).
    destruct r as [ch|]; simpl; (eapply filling_update; [done|done|done|done|done|]); simpl; [|done].
    apply Hhit. eauto.
  - destruct (CopyBufferToRequestedMemory c (buffer g) ch); by apply Hsame.
  - destruct (fetch page_size al remote_read c); by apply Hsame.
  - destruct (CopyBufferToRequestedMemory c (buffer g) ch); by apply Hsame.
  - destruct (DataStorage.Put now' (block_key path c) ch tag (InMemReader.storage g)) as [s'|e] eqn:Hp; simpl; [|by apply Hsame].
    destruct (Put_available _ _ _ _ _ _ Hk Hn Hkey Hp) as (Hks' & Hav & Hnew). by eapply filling_update.
  - by apply Hsame.
  - by apply Hsame.
Qed.

(** A read that succeeds leaves the blocks of its plan available. *)
Lemma first_read_fills now sch (g : shared S) :
  kept now (InMemReader.storage g) -> clock_ok now until sch = true ->
  filling cs (end_clock now sch) (run_schedule step sch (AtLookup <$> cs) g).1 (run_schedule step sch (AtLookup <$> cs) g).2.
Proof.
  intros Hk Hc. apply (clock_invariant step until (filling cs)); [| |done|].
  - intros n1 n2 ts g1 (Hk1 & Hk2 & Hk3) Hn. split; [by eapply kept_later|done].
  - intros n1 n2 ts g1 i t Hf Hn Hi. by eapply filling_step.
  - split; [done|]. split; [by rewrite length_fmap|]. intros i t Hi. rewrite list_lookup_fmap in Hi.
    destruct (cs !! i) as [c|] eqn:Hci; [|done]. by injection Hi as <-.
Qed.
End First.

(** *** The second read finds them *)
Definition on_hit_path (t : chunk_task) : Prop :=
  match t with AtLookup _ | AtHit _ _ | Finished _ => True | _ => False end.

Definition is_hit (ev : profile_event) : Prop := exists n, ev = RecordCacheAccess kData kCacheHit n.

Definition hitting (evs : list profile_event) (cs : list CacheReadChunk) (now : Z) (ts : list chunk_task) (g : shared S) : Prop :=
  kept now (InMemReader.storage g) /\ (forall c, c ∈ cs -> available (InMemReader.storage g) (block_key path c)) /\
  (exists hits, profile g = evs ++ hits /\ Forall is_hit hits) /\
  forall t, t ∈ ts -> on_hit_path t /\ task_chunk t ∈ cs.

Section Second.
Variables (al : Allocator) (remote_read : Z -> Z -> Res (list byte)).

#[local] Abbreviation step := (chunk_step path tag page_size al remote_read).
#[local] Abbreviation offline := (chunk_step path tag page_size (MkAllocator (fun _ => true) (fun _ => [])) (fun _ _ => Throw BadAlloc)).

(** The remote filesystem and the allocator are not asked. *)
Lemma hit_step_offline now t (g : shared S) : on_hit_path t -> step now t g = offline now t g.
Proof. by destruct t. Qed.

Variables (content : string -> string -> list byte) (cs : list CacheReadChunk) (start n : Z).
#[local] Abbreviation file := (content path tag).
Hypothesis versions : forall t, ValidateVersionTag t tag = true -> content path t = file.
Hypothesis page_pos : 0 < page_size.
Hypothesis file_fits : Z.of_nat (length file) + page_size < two64.
Hypothesis Hrange : 0 <= start /\ start + n <= Z.of_nat (length file).
Hypothesis Htiles : tiles (Z.of_nat (length file)) cs start 0 (start + n).

Definition second_run (g0 : shared S) (now : Z) (ts : list chunk_task) (g : shared S) : Prop :=
  hitting (profile g0) cs now ts g /\ run offline (fun _ _ => False) (AtLookup <$> cs) g0 ts g.

Lemma second_run_ok g0 now ts (g : shared S) :
  shared_ok content n g0 -> second_run g0 now ts g ->
  all_ok (shared_ok content n) (task_ok path tag (fun _ _ => Throw BadAlloc) content cs) ts g.
Proof.
  intros H0' [_ Hrun].
  by apply (all_ok_reachable path tag page_size (MkAllocator (fun _ => true) (fun _ => [])) (fun _ _ => Throw BadAlloc)
    content (fun _ _ => False)) with (start := start) (n := n) (g0 := g0).
Qed.

Lemma second_run_step g0 now now' ts (g : shared S) i t :
  shared_ok content n g0 -> second_run g0 now ts g -> now <= now' <= until -> ts !! i = Some t ->
  second_run g0 now' (<[i := (step now' t g).1]> ts) (step now' t g).2.
Proof.
  intros Hg0 H2 Hn Hi. pose proof (second_run_ok g0 now ts g Hg0 H2) as [[Hlen _] Hl]. specialize (Hl i t Hi).
  destruct H2 as [(Hk & Hav & Hev & Hall) Hrun]. pose proof (kept_later _ _ _ Hk Hn) as Hk'.
  destruct (Hall t) as [Hp Hin]; [by eapply list_elem_of_lookup_2|].
  split; [|rewrite hit_step_offline by done; eapply run_task; [done..|by apply surjective_pairing]].
  assert (task_chunk (step now' t g).1 ∈ cs) as Hin' by (by rewrite chunk_step_chunk).
  assert (forall t' (g' : shared S), on_hit_path t' -> task_chunk t' ∈ cs -> kept now' (InMemReader.storage g') ->
    (forall c, c ∈ cs -> available (InMemReader.storage g') (block_key path c)) ->
    (exists hits, profile g' = profile g0 ++ hits /\ Forall is_hit hits) ->
    hitting (profile g0) cs now' (<[i := t']> ts) g') as Hnext.
  { intros t' g' Ht1 Ht2 Ht3 Ht4 Ht5. split; [done|]. split; [done|]. split; [done|].
    intros u [->|Hu]%elem_of_task_insert; [done|by apply Hall]. }
  destruct t as [c|c ch|c|c ch|c ch|c|c e]; simpl in *; unfold copy_step in *; try done.
  - destruct (DataStorage.Get now' (block_key path c) tag (InMemReader.storage g)) as [r s'] eqn:Hg.
    destruct (Get_available _ _ _ _ _ _ Hk Hn Hg) as (Hks' & Hkeep & Hhit & _).
    destruct (Hhit (Hav c Hin)) as [ch ->]. apply Hnext; simpl; [done|done|done|by auto|].
    destruct Hev as (hits & -> & Hh). exists (hits ++ [RecordCacheAccess kData kCacheHit (bytes_to_copy c)]).
    split; [by rewrite app_assoc|]. apply Forall_app. split; [done|]. constructor; [by eexists|done].
  - destruct Hl as [Hci [t' He]].
    destruct (copy_good path tag page_size content page_pos file_fits cs start n Hrange Htiles i c ch t' (buffer g) Hci Hlen He) as (b & bytes & -> & _).
    by apply Hnext.
  - by apply Hnext.
Qed.

Lemma second_run_start now (g : shared S) :
  kept now (InMemReader.storage g) -> (forall c, c ∈ cs -> available (InMemReader.storage g) (block_key path c)) ->
  second_run g now (AtLookup <$> cs) g.
Proof.
  intros Hk Hav. split; [|constructor]. split; [done|]. split; [done|]. split; [exists []; by rewrite app_nil_r|].
  intros t [c [-> Hin]]%list_elem_of_fmap. done.
Qed.

(** Reading available blocks. *)
Lemma second_read_hits now sch (g : shared S) :
  shared_ok content n g ->
  kept now (InMemReader.storage g) -> (forall c, c ∈ cs -> available (InMemReader.storage g) (block_key path c)) ->
  clock_ok now until sch = true -> (forall i, (i < length cs)%nat -> (4 <= turns i sch)%nat) ->
  let '(ts', g') := run_schedule step sch (AtLookup <$> cs) g in
  ts' = Finished <$> cs /\ buffer g' = slice file start n /\
  exists hits, profile g' = profile g ++ hits /\ Forall is_hit hits.
Proof.
  intros Hg Hk Hav Hc Hturns.
  pose proof (clock_invariant step until (second_run g) sch now (AtLookup <$> cs) g) as Hinv.
  destruct Hinv as [(_ & _ & Hev & Hall) Hrun]; [| |done|by apply second_run_start|].
  { intros n1 n2 ts g1 [(Hk1 & Hk2) Hr] Hn. split; [|done]. split; [by eapply kept_later|done]. }
  { intros n1 n2 ts g1 i t Hf Hn Hi. by eapply second_run_step. }
  pose proof (run_length _ _ _ _ _ _ Hrun) as Hlen. rewrite length_fmap in Hlen.
  pose proof (run_schedule_measure step task_measure (chunk_step_measure path tag page_size al remote_read) sch (AtLookup <$> cs) g) as Hm.
  destruct (run_schedule step sch (AtLookup <$> cs) g) as [ts' g'] eqn:E. simpl in *.
  destruct (all_ok_reachable path tag page_size (MkAllocator (fun _ => true) (fun _ => [])) (fun _ _ => Throw BadAlloc)
    content (fun _ _ => False)) with (cs := cs) (start := start) (n := n) (g0 := g) (ts := ts') (g := g') as [_ Hl]; try done.
  assert (ts' = Finished <$> cs) as Hts.
  { apply list_eq. intros i. rewrite list_lookup_fmap. destruct (cs !! i) as [c|] eqn:Hi.
    - assert (i < length cs)%nat as Hlt by (by eapply lookup_lt_Some).
      destruct (Hm i (AtLookup c)) as (t' & Ht' & H0m); [by rewrite list_lookup_fmap, Hi|by apply Hturns|].
      destruct (Hall t') as [Hp _]; [by eapply list_elem_of_lookup_2|]. destruct (Hl i t' Ht') as [Hci _].
      rewrite Ht'. destruct t'; simplify_eq/=; done.
    - apply lookup_ge_None in Hi. apply lookup_ge_None. lia. }
  split; [done|]. split; [|done].
  destruct (RunChunks_correct path tag page_size (MkAllocator (fun _ => true) (fun _ => [])) (fun _ _ => Throw BadAlloc)
    content (fun _ _ => False)) with (cs := cs) (start := start) (n := n) (g0 := g) (res := Ok tt) (g := g') as [_ Hb]; try done.
  exists ts'. split; [done|]. subst ts'. split; [by apply Forall_fmap, Forall_true|].
  clear. induction cs as [|c l IH]; [done|]. simpl. apply IH.
Qed.
End Second.
End Hits.

(** ** Reading part of a range again *)
Lemma tiles_covers file_size cs pos addr stop x :
  tiles file_size cs pos addr stop -> pos <= x < stop ->
  exists c, c ∈ cs /\ requested_start_offset c <= x < requested_start_offset c + bytes_to_copy c.
Proof.
  intros Ht. revert x. induction Ht as [pos addr|c cs pos addr stop H1 H2 H3 H4 H5 H6 Ht IH]; intros x Hx; [lia|].
  destruct (Z.lt_ge_cases x (pos + bytes_to_copy c)) as [Hlt|Hge].
  - exists c. split; [constructor|lia].
  - destruct (IH x) as (d & Hd & Hx'); [lia|]. exists d. split; [by constructor|done].
Qed.

Lemma grid_point bs a x : 0 < bs -> a mod bs = 0 -> a <= x < a + bs -> a = bs * (x / bs).
Proof.
  intros Hb Hm Hx. pose proof (Z.div_mod a bs ltac:(lia)) as Ha. rewrite Hm, Z.add_0_r in Ha.
  rewrite <-(Z.div_unique x bs (a / bs) (x - a)); [done|lia|lia].
Qed.

(** The blocks of a part of a range are blocks of the range. *)
Lemma subrange_blocks path file_size bs start1 n1 start2 n2 cs1 cs2 total1 total2 :
  0 < bs -> file_size + bs < two64 -> 0 <= start1 <= start2 -> 0 < n2 -> start2 + n2 <= start1 + n1 <= file_size ->
  PlanFixedBlocks start1 n1 file_size bs = Some (cs1, total1) ->
  PlanFixedBlocks start2 n2 file_size bs = Some (cs2, total2) ->
  forall c, c ∈ cs2 -> exists d, d ∈ cs1 /\ block_key path d = block_key path c.
Proof.
  intros Hbs Hf Hs Hn He Hp1 Hp2 c [i Hi]%list_elem_of_lookup.
  destruct (PlanFixedBlocks_ok start1 n1 file_size bs) as (ds1 & t1 & E1 & Ht1 & Hg1 & _); [lia..|].
  destruct (PlanFixedBlocks_ok start2 n2 file_size bs) as (ds2 & t2 & E2 & Ht2 & Hg2 & _); [lia..|].
  assert (ds1 = cs1) as -> by congruence. assert (ds2 = cs2) as -> by congruence. clear E1 E2.
  pose proof (tiles_lookup _ _ _ _ _ _ _ Ht2 Hi) as Hc. rewrite Forall_forall in Hg1, Hg2.
  destruct (Hg2 c) as [Hm2 Hz2]; [by eapply list_elem_of_lookup_2|].
  destruct (tiles_covers _ _ _ _ _ (requested_start_offset c) Ht1) as (d & Hd & Hx); [lia|].
  destruct (Hg1 d Hd) as [Hm1 Hz1]. apply list_elem_of_lookup in Hd as Hd'. destruct Hd' as [j Hj].
  pose proof (tiles_lookup _ _ _ _ _ _ _ Ht1 Hj) as Hdd. exists d. split; [done|].
  assert (aligned_start_offset d = aligned_start_offset c) as Ha.
  { transitivity (bs * (requested_start_offset c / bs)); [|symmetry]; apply grid_point; lia. }
  unfold block_key. by rewrite Hz1, Hz2, Ha.
Qed.

Lemma PlanRead_fixed config layouts path start n file_size :
  String.eqb (chunking config) COLUMN_CHUNK_CHUNKING && HasLayout path layouts = false ->
  PlanRead config layouts path start n file_size = PlanFixedBlocks start n file_size (cache_block_size config).
Proof. unfold PlanRead. by intros ->. Qed.

Section Repeated.
Context {S : Type} `{RetainingStorage S}.

(** C3: What the cache is for: a range that was read is read again without the remote filesystem.
    On the fixed block grid (in a plan along column chunks the entry of a gap starts where the
    request does, so that another request need not find it), after a read of a range that succeeded, any part of the range is read from the cache: however the
    sub-reads of both reads are scheduled, as long as the working set [ks] fits into the storage
    and is not older than the timeout, every sub-read of the second read is a cache hit, the
    remote filesystem and the allocator are not asked (they are arbitrary), and the
    caller's buffer holds the bytes of the file.  Every version that validates has the same bytes. *)
Theorem repeated_read_needs_no_remote path handle_tag page_size al al' remote_read remote_read' config layouts content
    ks from until now start1 n1 cs1 total1 sch1 start2 n2 sch2 (g0 : shared S) new_buffer :
  let tag := read_version_tag config handle_tag in
  let file := content path tag in
  let file_size := Z.of_nat (length file) in
  (forall nr loc bytes, 0 <= loc -> 0 < nr -> loc + nr <= file_size ->
     remote_read nr loc = Ok bytes -> bytes = slice file loc nr) ->
  (forall t, ValidateVersionTag t tag = true -> content path t = file) ->
  0 < page_size -> file_size + page_size < two64 ->
  0 < cache_block_size config -> file_size + cache_block_size config < two64 ->
  String.eqb (chunking config) COLUMN_CHUNK_CHUNKING && HasLayout path layouts = false ->
  0 <= start1 <= start2 -> 0 < n2 -> start2 + n2 <= start1 + n1 <= file_size ->
  truthful_storage content (InMemReader.storage g0) -> room ks from now until (InMemReader.storage g0) ->
  Z.of_nat (length (buffer g0)) = n1 -> Z.of_nat (length new_buffer) = n2 ->
  PlanRead config layouts path start1 n1 file_size = Some (cs1, total1) ->
  (forall c, c ∈ cs1 -> block_key path c ∈ ks) -> (forall k, k ∈ ks -> key_ok k) ->
  clock_ok now until (sch1 ++ sch2) = true ->
  let '(ts1, g1) := run_schedule (chunk_step path tag page_size al remote_read) sch1 (AtLookup <$> cs1) g0 in
  ts1 = Finished <$> cs1 ->
  exists cs2 total2, PlanRead config layouts path start2 n2 file_size = Some (cs2, total2) /\
    ((forall i, (i < length cs2)%nat -> (4 <= turns i sch2)%nat) ->
     let '(ts2, g2) := run_schedule (chunk_step path tag page_size al' remote_read') sch2 (AtLookup <$> cs2) (with_buffer g1 new_buffer) in
     ts2 = Finished <$> cs2 /\ buffer g2 = slice file start2 n2 /\
     exists hits, profile g2 = profile g1 ++ hits /\ Forall is_hit hits).
Proof.
  intros tag file file_size Hremote Hver Hpage Hfit Hbs Hfit2 Hlay Hs Hn He Htr Hroom Hb0 Hb2 Hp1 Hks Hkeys Hclock.
  rewrite clock_ok_app, andb_true_iff in Hclock. destruct Hclock as [Hc1 Hc2].
  rewrite PlanRead_fixed in Hp1 by exact Hlay.
  destruct (PlanFixedBlocks_ok start1 n1 file_size (cache_block_size config)) as (ds1 & t1 & E1 & Ht1 & _); [lia..|].
  assert (ds1 = cs1) as -> by congruence. clear E1.
  pose proof (first_read_fills path tag page_size until from ks Hkeys al remote_read cs1 Hks now sch1 g0
    (conj (proj1 Htr) Hroom) Hc1) as Hfill.
  pose proof (run_schedule_run (chunk_step path tag page_size al remote_read) (fun _ _ => False) sch1 (AtLookup <$> cs1) g0) as Hrun.
  destruct (run_schedule _ sch1 _ g0) as [ts1 g1]. intros ->. simpl in Hfill, Hrun.
  destruct Hfill as (Hkept & _ & Hleft).
  assert (0 <= start1 /\ start1 + n1 <= file_size) as Hrange1 by lia.
  destruct (all_ok_reachable path tag page_size al remote_read content (fun _ _ => False) Hremote Hver Hpage Hfit
    (fun _ _ => False_ind _) cs1 start1 n1 Hrange1 Ht1 g0 (Finished <$> cs1) g1 (conj Hb0 Htr) Hrun) as [[_ Htr1] _].
  destruct (PlanFixedBlocks_ok start2 n2 file_size (cache_block_size config)) as (cs2 & t2 & Hp2 & Ht2 & _); [lia..|].
  exists cs2, t2. split; [rewrite PlanRead_fixed; [exact Hp2|exact Hlay]|]. intros Hturns.
  assert (0 <= start2 /\ start2 + n2 <= file_size) as Hrange2 by lia.
  refine (second_read_hits path tag page_size until from ks al' remote_read' content cs2 start2 n2 Hver Hpage Hfit Hrange2 Ht2
    (end_clock now sch1) sch2 (with_buffer g1 new_buffer) (conj Hb2 Htr1) Hkept _ Hc2 Hturns).
  intros c Hc. destruct (subrange_blocks path file_size (cache_block_size config) start1 n1 start2 n2 cs1 cs2 total1 t2)
    with (c := c) as (d & [j Hj]%list_elem_of_lookup & <-); [exact Hbs|exact Hfit2|lia|lia|lia|exact Hp1|exact Hp2|exact Hc|].
  assert ((Finished <$> cs1) !! j = Some (Finished d)) as Hjd by (by rewrite list_lookup_fmap, Hj).
  by destruct (Hleft j (Finished d) Hjd).
Qed.
End Repeated.

(** ** Witness: bytes 3 to 8 of the sample file, then bytes 5 and 6 with the remote gone *)
Definition repeat_schedule : list (nat * Z) := [(0%nat, 9); (0%nat, 10); (0%nat, 11); (0%nat, 12)].
Definition repeated_end :=
  run_schedule (chunk_step "f" "" 16 (MkAllocator (fun _ => true) (fun _ => [])) (fun _ _ => Throw IOException)) repeat_schedule
    [AtLookup (MkReadChunk 0 5 4 4 2)] (with_buffer sample_run.2 [x00; x00]).

Lemma repeated_read_needs_no_remote_witness :
  repeated_end.1 = [Finished (MkReadChunk 0 5 4 4 2)] /\ buffer repeated_end.2 = [x66; x67] /\
  exists hits, profile repeated_end.2 = profile sample_run.2 ++ hits /\ Forall is_hit hits.
Proof.
  pose proof (repeated_read_needs_no_remote "f" "" 16 sample_allocator (MkAllocator (fun _ => true) (fun _ => []))
    sample_remote (fun _ _ => Throw IOException) sample_config ∅ sample_content [MkBlock "f" 0 4; MkBlock "f" 4 4] 0 20 0
    3 5 sample_chunks 8 sample_schedule 5 2 repeat_schedule sample_start [x00; x00]) as Hread.
  cbv zeta in Hread. change (read_version_tag sample_config "") with ""%string in Hread.
  change (sample_content "f" "") with sample_file in Hread. fold sample_run in Hread.
  destruct sample_run as [ts1 g1] eqn:E1.
  destruct Hread as (cs2 & total2 & Hp & Hrun).
  - intros nr loc bytes _ _ _ [= <-]. reflexivity.
  - intros t _. reflexivity.
  - lia.
  - vm_compute. reflexivity.
  - simpl. lia.
  - vm_compute. reflexivity.
  - reflexivity.
  - lia.
  - lia.
  - vm_compute. split; discriminate.
  - apply sample_start_ok.
  - apply new_storage_room; [vm_compute; discriminate|vm_compute; discriminate|lia|vm_compute; reflexivity].
  - reflexivity.
  - reflexivity.
  - vm_compute. reflexivity.
  - intros c Hc. repeat (apply elem_of_cons in Hc as [->|Hc]; [vm_compute; repeat constructor|]). by apply elem_of_nil in Hc.
  - intros k Hk. repeat (apply elem_of_cons in Hk as [->|Hk]; [split; vm_compute; split; congruence|]). by apply elem_of_nil in Hk.
  - vm_compute. reflexivity.
  - change ts1 with (ts1, g1).1. rewrite <-E1. vm_compute. reflexivity.
  - change (PlanRead sample_config ∅ "f" 5 2 (Z.of_nat (length sample_file))) with (Some ([MkReadChunk 0 5 4 4 2], 4)) in Hp.
    injection Hp as <- _. unfold repeated_end. rewrite E1. cbn [snd].
    change (AtLookup <$> [MkReadChunk 0 5 4 4 2]) with [AtLookup (MkReadChunk 0 5 4 4 2)] in Hrun.
    destruct (run_schedule _ repeat_schedule _ _) as [ts2 g2]. destruct Hrun as (H1 & H2 & H3).
    + intros i Hi. simpl in Hi. assert (i = 0%nat) as -> by lia. vm_compute. lia.
    + cbn [fst snd]. split; [exact H1|]. split; [rewrite H2; reflexivity|exact H3].
Defined.
