(* ===== verification/InstanceConfig.v ===== *)
(** * InstanceConfig

    The settings of a database instance, [InstanceConfig]
    ([src/src/include/cache_httpfs_instance_state.hpp]), with their default values. *)
From S2P Require Import Prelude Config FilesystemUtils.
From S2P Require CppString.
From coqutil Require Export Datatypes.RecordSetters.

Export TriangleBracketNotations.
#[local] Open Scope Z_scope.

(** [JoinPath] of the temporary directory with the extension's directory name. *)
Definition GetDefaultOnDiskCacheDirectory : string :=
  (GetTemporaryDirectory +:+ "/" +:+ "duckdb_cache_httpfs_cache")%string.

Record InstanceConfig := MkInstanceConfig {
  cache_block_size : Z;
  cache_type : string;
  profile_type : string;
  max_subrequest_count : Z;
  ignore_sigpipe : bool;
  on_disk_cache_directories : list string;
  min_disk_bytes_for_cache : Z;
  on_disk_eviction_policy : string;
  enable_disk_reader_mem_cache : bool;
  disk_reader_max_mem_cache_block_count : Z;
  disk_reader_max_mem_cache_timeout_millisec : Z;
  max_in_mem_cache_block_count : Z;
  in_mem_cache_block_timeout_millisec : Z;
  in_mem_cache_storage : string;
  chunking : string;
  in_mem_cache_bytes : Z;
  eviction_policy : string;
  policy_scope : string;
  file_policies : string;
  sim_latency_us : Z;
  sim_bandwidth_gbps : CppString.double;
  enable_metadata_cache : bool;
  max_metadata_cache_entry : Z;
  metadata_cache_entry_timeout_millisec : Z;
  enable_file_handle_cache : bool;
  max_file_handle_cache_entry : Z;
  file_handle_cache_entry_timeout_millisec : Z;
  enable_glob_cache : bool;
  max_glob_cache_entry : Z;
  glob_cache_entry_timeout_millisec : Z;
  enable_cache_validation : bool;
  clear_cache_on_write : bool;
  parallel_read_mode : ParallelExecutorMode
}.

Definition default_config : InstanceConfig := {|
  cache_block_size := DEFAULT_CACHE_BLOCK_SIZE;
  cache_type := DEFAULT_CACHE_TYPE;
  profile_type := DEFAULT_PROFILE_TYPE;
  max_subrequest_count := DEFAULT_MAX_SUBREQUEST_COUNT;
  ignore_sigpipe := DEFAULT_IGNORE_SIGPIPE;
  on_disk_cache_directories := [GetDefaultOnDiskCacheDirectory];
  min_disk_bytes_for_cache := DEFAULT_MIN_DISK_BYTES_FOR_CACHE;
  on_disk_eviction_policy := DEFAULT_ON_DISK_EVICTION_POLICY;
  enable_disk_reader_mem_cache := DEFAULT_ENABLE_DISK_READER_MEM_CACHE;
  disk_reader_max_mem_cache_block_count := DEFAULT_MAX_DISK_READER_MEM_CACHE_BLOCK_COUNT;
  disk_reader_max_mem_cache_timeout_millisec := DEFAULT_DISK_READER_MEM_CACHE_TIMEOUT_MILLISEC;
  max_in_mem_cache_block_count := DEFAULT_MAX_IN_MEM_CACHE_BLOCK_COUNT;
  in_mem_cache_block_timeout_millisec := DEFAULT_IN_MEM_BLOCK_CACHE_TIMEOUT_MILLISEC;
  in_mem_cache_storage := DEFAULT_IN_MEM_CACHE_STORAGE;
  chunking := DEFAULT_CHUNKING;
  in_mem_cache_bytes := DEFAULT_IN_MEM_CACHE_BYTES;
  eviction_policy := DEFAULT_EVICTION_POLICY;
  policy_scope := DEFAULT_POLICY_SCOPE;
  file_policies := "";
  sim_latency_us := DEFAULT_SIM_LATENCY_US;
  sim_bandwidth_gbps := CppString.Finite DEFAULT_SIM_BANDWIDTH_GBPS;
  enable_metadata_cache := DEFAULT_ENABLE_METADATA_CACHE;
  max_metadata_cache_entry := DEFAULT_MAX_METADATA_CACHE_ENTRY;
  metadata_cache_entry_timeout_millisec := DEFAULT_METADATA_CACHE_ENTRY_TIMEOUT_MILLISEC;
  enable_file_handle_cache := DEFAULT_ENABLE_FILE_HANDLE_CACHE;
  max_file_handle_cache_entry := DEFAULT_MAX_FILE_HANDLE_CACHE_ENTRY;
  file_handle_cache_entry_timeout_millisec := DEFAULT_FILE_HANDLE_CACHE_ENTRY_TIMEOUT_MILLISEC;
  enable_glob_cache := DEFAULT_ENABLE_GLOB_CACHE;
  max_glob_cache_entry := DEFAULT_MAX_GLOB_CACHE_ENTRY;
  glob_cache_entry_timeout_millisec := DEFAULT_GLOB_CACHE_ENTRY_TIMEOUT_MILLISEC;
  enable_cache_validation := DEFAULT_ENABLE_CACHE_VALIDATION;
  clear_cache_on_write := DEFAULT_CLEAR_CACHE_ON_WRITE;
  parallel_read_mode := INTERNAL_THREAD_POOL
|}.
