(* ===== verification/DiskReader.v ===== *)
(** * DiskReader

    [DiskCacheReader] ([src/src/disk_cache_reader.cpp]): the processing of a read chunk
    through the memory layer, the local cache file and the remote file, as the atomic
    steps of [disk_step]; [DiskReadAndCache]; listing, clearing and remapping the cache.
    A cache file is written under a name that no other task knows, so that
    [StoreLocalCacheFile] is one step: its rename is what the others see. *)
From S2P Require Import Prelude CppString StringUtil OrdMap Blocks ReadPlan DataStorage Tasks IoOperations.
From S2P Require Import Remap InMemReader LocalFs Config FilesystemUtils DiskCacheUtil AccessIndex InstanceConfig.
From Stdlib Require QArith.QArith_base.

#[local] Open Scope Z_scope.

(** ** Chunks *)
Section Chunks.
Context `{StringUtil} {F : Type} `{LocalFileSystem F} {S : Type} `{InMemoryDataCacheStorage S}.

(** The handle, the remote filesystem and the allocator as for the in-memory reader. *)
Variables (path tag : string) (page_size : Z) (al : Allocator).
Variable remote_read : Z -> Z -> Res (list byte).
(** Naming, access control and configuration. *)
Variable sha256 : string -> list Z.
Variable uuid : CacheReadChunk -> string.
Variable path_info : RemoteFileCachePathInfo.
Variable CanAccessFile : string -> bool.
Variable rnd : QArith_base.Q -> QArith_base.Q.
Variable config : InstanceConfig.
(** What the system clock reads when the steady clock reads [now]. *)
Variable wall : Z -> Z.

(** [in_mem_storage]: [None] when the memory layer is disabled. *)
Record disk_shared := MkDiskShared {
  d_buffer : list byte;
  d_mem : option S;
  d_files : F;
  d_index : timestamp_index;
  d_profile : list profile_event
}.

Definition set_buffer (g : disk_shared) b := MkDiskShared b (d_mem g) (d_files g) (d_index g) (d_profile g).
Definition set_mem (g : disk_shared) m := MkDiskShared (d_buffer g) m (d_files g) (d_index g) (d_profile g).
Definition set_files (g : disk_shared) f := MkDiskShared (d_buffer g) (d_mem g) f (d_index g) (d_profile g).
Definition set_index (g : disk_shared) ix := MkDiskShared (d_buffer g) (d_mem g) (d_files g) ix (d_profile g).
Definition record_event (g : disk_shared) ev :=
  MkDiskShared (d_buffer g) (d_mem g) (d_files g) (d_index g) (d_profile g ++ [ev]).

Definition chunk_dest (c : CacheReadChunk) : Res LocalCacheDestination :=
  ResolveLocalCacheDestination sha256 (uuid c) (cache_directory path_info)
    (cache_filepath (GetLocalCacheFile path_info (aligned_start_offset c) (chunk_size c))) path.

(** Where [ProcessCacheReadChunk] stands between its atomic steps. *)
Inductive disk_task :=
| DStart (c : CacheReadChunk)
| DMemHit (c : CacheReadChunk) (pinned : PageAlignedDataChunk)
| DOpen (c : CacheReadChunk) (dest : LocalCacheDestination)
| DValidate (c : CacheReadChunk) (dest : LocalCacheDestination) (handle : list byte)
| DReadFile (c : CacheReadChunk) (dest : LocalCacheDestination) (handle : list byte)
| DFileHit (c : CacheReadChunk) (dest : LocalCacheDestination) (content : PageAlignedDataChunk)
| DTouch (c : CacheReadChunk) (dest : LocalCacheDestination) (content : PageAlignedDataChunk) (cached : bool)
| DMiss (c : CacheReadChunk) (dest : LocalCacheDestination)
| DFetched (c : CacheReadChunk) (dest : LocalCacheDestination) (content : PageAlignedDataChunk)
| DStore (c : CacheReadChunk) (dest : LocalCacheDestination) (content : PageAlignedDataChunk)
| DMemPut (c : CacheReadChunk) (content : PageAlignedDataChunk) (cached : bool)
| DFinished (c : CacheReadChunk)
| DFailed (c : CacheReadChunk) (e : exn).

Definition disk_chunk (t : disk_task) : CacheReadChunk :=
  match t with
  | DStart c | DMemHit c _ | DOpen c _ | DValidate c _ _ | DReadFile c _ _ | DFileHit c _ _ | DTouch c _ _ _
  | DMiss c _ | DFetched c _ _ | DStore c _ _ | DMemPut c _ _ | DFinished c | DFailed c _ => c
  end.

Definition disk_copy (c : CacheReadChunk) (content : PageAlignedDataChunk) (next : disk_task) (g : disk_shared) :
    disk_task * disk_shared :=
  match CopyBufferToRequestedMemory c (d_buffer g) content with
  | Throw e => (DFailed c e, g)
  | Ok b => (next, set_buffer g b)
  end.

(** An exception after the bytes were copied: swallowed by [catch (...)] when the block
    had been fetched ([cached] is false), thrown when it came from the cache file. *)
Definition late_failure (c : CacheReadChunk) (cached : bool) (e : exn) : disk_task :=
  if cached then DFailed c e else DFinished c.

(** The latency guard of the cache file covers everything up to the end of the hit. *)
Definition end_file_read (cached : bool) (g : disk_shared) : disk_shared :=
  if cached then record_event g (RecordOperation kDiskCacheRead) else g.

Definition lru_policy : bool := String.eqb (on_disk_eviction_policy config) ON_DISK_LRU_SINGLE_PROC_EVICTION.

Definition after_file (c : CacheReadChunk) (dest : LocalCacheDestination) : disk_task :=
  if CanAccessFile (dest_local_filepath dest) then DOpen c dest else DMiss c dest.

Definition miss_event (c : CacheReadChunk) : profile_event := RecordCacheAccess kData kCacheMiss (bytes_to_copy c).

Definition disk_step (now : Z) (t : disk_task) (g : disk_shared) : disk_task * disk_shared :=
  match t with
  | DStart c =>
      match chunk_dest c with
      | Throw e => (DFailed c e, g)
      | Ok dest =>
          match d_mem g with
          | None => (after_file c dest, g)
          | Some s =>
              let '(pinned, s') := Get now (block_key path c) tag s in
              let g' := set_mem g (Some s') in
              match pinned with
              | Some chunk => (DMemHit c chunk, record_event g' (RecordCacheAccess kData kCacheHit (bytes_to_copy c)))
              | None => (after_file c dest, g')
              end
          end
      end
  | DMemHit c chunk => disk_copy c chunk (DFinished c) g
  | DOpen c dest =>
      (* [ReadLocalCacheFile]: the handle is opened first, its latency recorded *)
      match fs_open (direct_io (enable_disk_reader_mem_cache config) page_size (chunk_size c)) (dest_local_filepath dest) (d_files g) with
      | Throw e => (DFailed c e, end_file_read true g)
      | Ok None => (DMiss c dest, end_file_read true g)
      | Ok (Some handle) => (DValidate c dest handle, g)
      end
  | DValidate c dest handle =>
      (* the version is read through the path, not through the handle *)
      if ValidateCacheFile (dest_local_filepath dest) tag (d_files g) then (DReadFile c dest handle, g)
      else
        let '(removed, f') := fs_remove (dest_local_filepath dest) (d_files g) in
        let g' := end_file_read true (set_files g f') in
        match removed with
        | Throw e => (DFailed c e, g')
        | Ok _ => (DMiss c dest, g')
        end
  | DReadFile c dest handle =>
      match read_content_of page_size al handle (chunk_size c) (d_files g) with
      | Throw e => (DFailed c e, end_file_read true g)
      | Ok content =>
          (DFileHit c dest content,
           record_event (set_files g (UpdateFileTimestamps (wall now) (dest_local_filepath dest) (d_files g)).2)
             (RecordCacheAccess kData kCacheHit (bytes_to_copy c)))
      end
  | DFileHit c dest content =>
      match CopyBufferToRequestedMemory c (d_buffer g) content with
      | Throw e => (DFailed c e, end_file_read true g)
      | Ok b => (DTouch c dest content true, set_buffer g b)
      end
  | DTouch c dest content cached =>
      if lru_policy && (cached || fs_exists (dest_local_filepath dest) (d_files g)) then
        let '(r, f', ix') := UpsertCacheFileAccessTimestamp (wall now) (dest_local_filepath dest) (d_files g) (d_index g) in
        let g' := set_index (set_files g f') ix' in
        match r with
        | Throw e => (late_failure c cached e, end_file_read cached g')
        | Ok _ => (DMemPut c content cached, g')
        end
      else (DMemPut c content cached, g)
  | DMiss c dest =>
      let g' := record_event (record_event g (miss_event c)) (RecordOperation kRead) in
      match fetch page_size al remote_read c with
      | Throw e => (DFailed c e, g')
      | Ok content => (DFetched c dest content, g')
      end
  | DFetched c dest content =>
      disk_copy c content (if CanAccessFile (dest_local_filepath dest) then DStore c dest content else DFinished c) g
  | DStore c dest content =>
      let '(r, f', ix') :=
        StoreLocalCacheFile (EvictCacheBlockLru (on_disk_cache_directories config)) rnd (wall now)
          (cache_directory path_info) dest content tag (cache_block_size config) (min_disk_bytes_for_cache config)
          (on_disk_eviction_policy config) (d_files g) (d_index g) in
      let g' := set_index (set_files g f') ix' in
      match r with
      | Throw Terminated => (DFailed c Terminated, g') (* the process has ended *)
      | Throw _ => (DFinished c, g')
      | Ok _ => (DTouch c dest content false, g')
      end
  | DMemPut c content cached =>
      match d_mem g with
      | None => (DFinished c, end_file_read cached g)
      | Some s =>
          match Put now (block_key path c) content tag s with
          | Throw e => (late_failure c cached e, end_file_read cached g)
          | Ok s' => (DFinished c, end_file_read cached (set_mem g (Some s')))
          end
      end
  | DFinished c => (DFinished c, g)
  | DFailed c e => (DFailed c e, g)
  end.

Definition disk_finished (t : disk_task) : bool := match t with DFinished _ | DFailed _ _ => true | _ => false end.

Definition disk_measure (t : disk_task) : nat :=
  match t with
  | DStart _ => 9 | DOpen _ _ => 8 | DValidate _ _ _ => 7 | DReadFile _ _ _ => 6
  | DMiss _ _ => 5 | DFetched _ _ _ => 4 | DStore _ _ _ => 3 | DFileHit _ _ _ => 3
  | DTouch _ _ _ _ => 2 | DMemHit _ _ => 1 | DMemPut _ _ _ => 1
  | DFinished _ | DFailed _ _ => 0
  end.

Definition disk_result (t : disk_task) : Res unit := match t with DFailed _ e => Throw e | _ => Ok tt end.
Definition DiskWaitAll (ts : list disk_task) : Res unit :=
  foldr (fun t r => match disk_result t with Throw e => Throw e | Ok _ => r end) (Ok tt) ts.

Definition DiskRunChunks (env : disk_shared -> disk_shared -> Prop) (cs : list CacheReadChunk) (g0 : disk_shared)
    (res : Res unit) (g : disk_shared) : Prop :=
  exists ts, run disk_step env (DStart <$> cs) g0 ts g /\ Forall (fun t => disk_finished t = true) ts /\ res = DiskWaitAll ts.

Lemma disk_step_chunk now t g : disk_chunk (disk_step now t g).1 = disk_chunk t.
Proof.
  destruct t; simpl; unfold disk_copy, after_file, late_failure; repeat case_match; simplify_eq/=; done.
Qed.

Lemma disk_step_measure now t g : (disk_measure (disk_step now t g).1 <= pred (disk_measure t))%nat.
Proof.
  destruct t; simpl; unfold disk_copy, after_file, late_failure; repeat case_match; simplify_eq/=; lia.
Qed.
End Chunks.

(** ** The reader *)
Section DiskReadAndCache.
Context `{StringUtil} {F : Type} `{LocalFileSystem F} {S : Type} `{InMemoryDataCacheStorage S}.
Variables (path handle_tag : string) (page_size : Z) (al : Allocator).
Variable remote_read : Z -> Z -> Res (list byte).
Variable sha256 : string -> list Z.
Variable uuid : CacheReadChunk -> string.
Variable CanAccessFile : string -> bool.
Variable rnd : QArith_base.Q -> QArith_base.Q.
Variable config : InstanceConfig.
Variable wall : Z -> Z.
Variable env : @disk_shared F S -> @disk_shared F S -> Prop.

Definition disk_version_tag : string := if enable_cache_validation config then handle_tag else "".

(** [DiskCacheReader::ReadAndCache]; [cache_init_flag] has already built the memory layer
    or decided against it. *)
Definition DiskReadAndCache (requested_start_offset requested_bytes_to_read file_size : Z)
    (g : @disk_shared F S) (res : Res unit) (g' : @disk_shared F S) : Prop :=
  if requested_bytes_to_read =? 0 then res = Ok tt /\ g' = g
  else
    match BuildRemoteFileCachePathInfo sha256 (on_disk_cache_directories config) path with
    | Throw e => res = Throw e /\ g' = g
    | Ok path_info =>
        exists chunks total_bytes_to_cache waited mid,
          PlanFixedBlocks requested_start_offset requested_bytes_to_read file_size (cache_block_size config)
            = Some (chunks, total_bytes_to_cache) /\
          DiskRunChunks path disk_version_tag page_size al remote_read sha256 uuid path_info CanAccessFile rnd config wall
            env chunks g waited mid /\
          match waited with
          | Throw e => res = Throw e /\ g' = mid
          | Ok _ => res = Ok tt /\ g' = record_event mid (RecordActualCacheRead total_bytes_to_cache requested_bytes_to_read)
          end
    end.

(** ** Maintenance *)
Definition memory_entries (s : option S) : list DataCacheEntryInfo :=
  match s with
  | None => []
  | Some s =>
      (fun k => MkEntryInfo "(no disk cache)" (fname k) (start_off k) (start_off k +u blk_size k) "in-mem-disk-cache") <$> Keys s
  end.

Fixpoint directory_entries (f : F) (dir : string) (names : list string) (acc : list DataCacheEntryInfo) :
    Res (list DataCacheEntryInfo) :=
  match names with
  | [] => Ok acc
  | fname :: names =>
      if IsTempCacheFile fname then directory_entries f dir names acc
      else
        let filepath := (dir +:+ "/" +:+ fname)%string in
        info ← GetRemoteFileInfo filepath f;
        directory_entries f dir names
          (acc ++ [MkEntryInfo filepath (TryGetOriginalRemotePath filepath f) (info_start_offset info) (info_end_offset info)
                     "on-disk"])
  end.

Fixpoint disk_entries (f : F) (dirs : list string) (acc : list DataCacheEntryInfo) : Res (list DataCacheEntryInfo) :=
  match dirs with
  | [] => Ok acc
  | dir :: dirs => acc ← directory_entries f dir (fs_list dir f) acc; disk_entries f dirs acc
  end.

Definition DiskGetCacheEntriesInfo (g : @disk_shared F S) : Res (list DataCacheEntryInfo) :=
  disk_entries (d_files g) (on_disk_cache_directories config) (memory_entries (d_mem g)).

Fixpoint recreate_directories (dirs : list string) (f : F) : Res unit * F :=
  match dirs with
  | [] => (Ok tt, f)
  | dir :: dirs =>
      match fs_remove_directory dir f with
      | (Throw e, f) => (Throw e, f)
      | (Ok _, f) =>
          match fs_create_directory dir f with
          | (Throw e, f) => (Throw e, f)
          | (Ok _, f) => recreate_directories dirs f
          end
      end
  end.

Definition DiskClearCache (g : @disk_shared F S) : Res unit * @disk_shared F S :=
  let '(r, f) := recreate_directories (on_disk_cache_directories config) (d_files g) in
  match r with
  | Throw e => (Throw e, set_files g f)
  | Ok _ => (Ok tt, set_mem (set_index (set_files g f) no_access) (Clear <$> d_mem g))
  end.

(** The cache files whose name starts with the prefix of the remote file. *)
Definition cache_files_to_remove (f : F) (remote_file : string) : list string :=
  mjoin ((fun dir => (fun name => (dir +:+ "/" +:+ name)%string) <$>
                       filter (fun name => StartsWith name (GetLocalCacheFilePrefix sha256 remote_file) = true) (fs_list dir f))
         <$> on_disk_cache_directories config).

Fixpoint remove_timestamps (filepaths : list string) (ix : timestamp_index) : Res unit * timestamp_index :=
  match filepaths with
  | [] => (always_assert (same_size ix), ix)
  | filepath :: filepaths =>
      match RemoveCacheFileAccessTimestamp filepath ix with
      | Throw e => (Throw e, ix)
      | Ok ix => remove_timestamps filepaths ix
      end
  end.

(** The removals run in parallel, one task per file; [WaitAll] throws what the first task
    that failed threw, after all of them. *)
Fixpoint remove_files (filepaths : list string) (f : F) : Res unit * F :=
  match filepaths with
  | [] => (Ok tt, f)
  | filepath :: filepaths =>
      let '(removed, f) := fs_remove filepath f in
      let '(rest, f) := remove_files filepaths f in
      (_ ← removed; rest, f)
  end.

Definition DiskClearCacheFile (remote_file : string) (g : @disk_shared F S) : Res unit * @disk_shared F S :=
  let doomed := cache_files_to_remove (d_files g) remote_file in
  let '(r, ix) := remove_timestamps doomed (d_index g) in
  match r with
  | Throw e => (Throw e, set_index g ix)
  | Ok _ =>
      let '(removed, f) := remove_files doomed (d_files g) in
      let g' := set_files (set_index g ix) f in
      match removed with
      | Throw e => (Throw e, g')
      | Ok _ => (Ok tt, set_mem g' (ClearFrom (file_start_key remote_file) (file_filter remote_file) <$> d_mem g))
      end
  end.

Definition DiskRemapInMemoryDataBlocks (clock : nat -> Z) (now new_block_size : Z) (g : @disk_shared F S) :
    Res unit * @disk_shared F S :=
  match d_mem g with
  | None => (Ok tt, g)
  | Some s =>
      let '(taken, s1) := Take clock s in
      match (taken ← taken; RemapInMemCacheEntries page_size al new_block_size ∅ taken) with
      | Throw e => (Throw e, set_mem g (Some s1))
      | Ok rebuilt => let '(res, s2) := put_all now rebuilt s1 in (res, set_mem g (Some s2))
      end
  end.
End DiskReadAndCache.

Lemma DiskRemap_mem {F S} `{InMemoryDataCacheStorage S} page_size al clock now bs (g : @disk_shared F S) :
  DiskRemapInMemoryDataBlocks page_size al clock now bs g =
  let '(res, m) := RemapInMemoryDataBlocksForNewBlockSize page_size al clock now bs (d_mem g) in (res, set_mem g m).
Proof.
  unfold DiskRemapInMemoryDataBlocks, RemapInMemoryDataBlocksForNewBlockSize.
  destruct (d_mem g) as [s|] eqn:Hm; [|destruct g; simpl in *; by subst].
  destruct (Take clock s) as [taken s1]. destruct (taken ← taken; _) as [rebuilt|e]; [|done].
  by destruct (put_all now rebuilt s1).
Qed.
