(* ===== verification/DiskReaderProofs.v ===== *)
(** * DiskReaderProofs

    The disk reader returns the remote file's bytes.  The shared state is correct when the
    memory layer and the cache files hold the bytes their keys and paths name and the
    access index is consistent; every step of every sub-read keeps it so, and ends in the
    requested bytes. *)
From S2P Require Import Prelude CppString StringUtil OrdMap Blocks ReadPlan DataStorage Tasks IoOperations.
From S2P Require Import Remap InMemReader LocalFs Config FilesystemUtils DiskCacheUtil AccessIndex DiskCacheProofs DiskNames.
From S2P Require Import LruCache LruSpec ExtensionStorage InstanceConfig DiskReader.
From Stdlib Require QArith.QArith_base.

#[local] Open Scope Z_scope.

(** ** Files that come from other files *)
Section Shrinks.
Context {F : Type} `{FS : LocalFileSystem F} `{FL : !LocalFsLaws F}.
Implicit Types (f : F).

(** Every file of [f'] was in [f] with the same content. *)
Definition shrinks f f' : Prop :=
  forall q nd, node f' q = Some nd -> exists nd0, node f q = Some nd0 /\ contents nd = contents nd0.

Lemma shrinks_refl f : shrinks f f.
Proof. intros q nd Hq. eauto. Qed.

Lemma shrinks_trans f1 f2 f3 : shrinks f1 f2 -> shrinks f2 f3 -> shrinks f1 f3.
Proof. intros H1 H2 q nd Hq. destruct (H2 q nd Hq) as (n2 & Hn2 & ->). by apply H1. Qed.

Lemma shrinks_remove p f : shrinks f (fs_remove p f).2.
Proof.
  destruct (fs_remove p f) as [r f'] eqn:Hr. destruct (remove_law _ _ _ _ Hr) as [Ho Hp]. intros q nd Hq. simpl in Hq.
  destruct (decide (q = p)) as [->|Hne]; [|rewrite Ho in Hq by done; eauto].
  destruct r as [[]|]; [destruct Hp; congruence|destruct Hp; congruence|rewrite Hp in Hq; eauto].
Qed.

Lemma shrinks_touch now p f : shrinks f (UpdateFileTimestamps now p f).2.
Proof.
  unfold UpdateFileTimestamps. destruct (fs_touch now p f) as [r f'] eqn:Hr.
  destruct (touch_law _ _ _ _ _ Hr) as [Ho Hp]. intros q nd Hq. simpl in Hq.
  destruct (decide (q = p)) as [->|Hne]; [|rewrite Ho in Hq by done; eauto].
  destruct r; [|rewrite Hp in Hq; eauto]. destruct Hp as (n & Hn & Hn'). rewrite Hn' in Hq. injection Hq as <-. eauto.
Qed.

Lemma shrinks_evict_stale now dir f : shrinks f (EvictStaleCacheFiles now dir f).2.
Proof.
  unfold EvictStaleCacheFiles. generalize (fs_list dir f) as names, (@nil string) as evicted. intros names.
  revert f. induction names as [|name names IH]; intros f evicted; [apply shrinks_refl|]. simpl.
  destruct (handle ← _; _) as [[t|]|e]; [|apply IH|apply shrinks_refl]. destruct (Z.geb _ _); [|apply IH].
  eapply shrinks_trans; [apply shrinks_remove|apply IH].
Qed.

Lemma evict_stale_error now dir f e : (EvictStaleCacheFiles now dir f).1 = Throw e -> local_error F e.
Proof.
  unfold EvictStaleCacheFiles. generalize (fs_list dir f) as names, (@nil string) as evicted. intros names.
  revert f. induction names as [|name names IH]; intros f evicted; [done|]. simpl.
  destruct (fs_open false _ f) as [[h|]|x] eqn:Ho; simpl; [|apply IH|intros [= <-]; eauto with local_fs].
  destruct (fs_mtime _ f) as [t|x] eqn:Ht; simpl; [|intros [= <-]; eauto with local_fs].
  destruct (Z.geb _ _); apply IH.
Qed.

(** Evicting takes files away, and throws what the filesystem threw. *)
Lemma evict_files_ok dirs now dir policy f ix r f' ix' :
  NoDup dirs -> index_ok ix ->
  EvictCacheFiles (EvictCacheBlockLru dirs) now dir policy f ix = (r, f', ix') ->
  shrinks f f' /\ index_ok ix' /\ (forall e, r = Throw e -> e = AssertionFailure \/ local_error F e).
Proof.
  intros Hnd Hix. unfold EvictCacheFiles. destruct (String.eqb _ _).
  - pose proof (shrinks_evict_stale now dir f) as Hs. pose proof (evict_stale_error now dir f) as He.
    destruct (EvictStaleCacheFiles now dir f) as [x f1]. simpl in *. intros [= <- <- <-]. split; [done|]. split; [done|].
    intros e. destruct x; [done|]. intros [= <-]. right. by apply He.
  - destruct (negb _); [intros [= <- <- <-]; split; [apply shrinks_refl|]; split; [done|]; intros e [= <-]; by left|].
    destruct (Evict_ok dirs f ix Hnd Hix) as (ev & ix1 & -> & Hix1 & Hev).
    destruct ev as [[q|]|x].
    + pose proof (shrinks_remove q f) as Hs. pose proof (remove_error q f) as He. destruct (fs_remove q f) as [b f1]. simpl in *.
      intros [= <- <- <-]. split; [done|]. split; [done|]. intros e. destruct b; [done|]. intros [= <-]. right. by apply He.
    + intros [= <- <- <-]. split; [apply shrinks_refl|]. by split.
    + intros [= <- <- <-]. split; [apply shrinks_refl|]. split; [done|]. intros e [= <-]. right.
      destruct (recency ix); [|by destruct Hev]. destruct Hev as [(e & [= <-] & He & _)|(l & _ & [=] & _)]. done.
Qed.

Lemma set_attribute_throw p k v f e f' : SetSingleFileAttribute p k v f = (Throw e, f') -> e = InternalException.
Proof. unfold SetSingleFileAttribute. repeat case_match; intros [=]; done. Qed.

Lemma set_attributes_throw p l b f e f' : set_attributes p l b f = (Throw e, f') -> e = InternalException.
Proof.
  revert b f. induction l as [|[k v] l IH]; intros b f; simpl; [done|].
  destruct (SetSingleFileAttribute p k v f) as [[r|x] f1] eqn:Hs; [apply IH|].
  intros [= -> _]. by apply set_attribute_throw in Hs.
Qed.

(** Storing a block ends the process only where the temporary file resists its removal. *)
Lemma store_terminated {D} (decider : F -> D -> Res (option string) * D) rnd now dir dest ch tag bs mind policy f d f' d' :
  (forall r f1 d1, EvictCacheFiles decider now dir policy f d = (r, f1, d1) -> r = Throw Terminated -> local_error F Terminated) ->
  StoreLocalCacheFile decider rnd now dir dest ch tag bs mind policy f d = (Throw Terminated, f', d') ->
  local_failure F Terminated.
Proof.
  intros Hev. unfold StoreLocalCacheFile. destruct (negb _); [intros He; left; by eapply Hev|].
  destruct (publish now dest ch tag f) as [r f1] eqn:Hp. destruct (fs_remove _ f1) as [[b|x] f2] eqn:Hr; simpl.
  - intros [= -> <- <-]. exfalso. revert Hp. unfold publish.
    destruct (fs_write_new _ _ _ f) as [[[]|e] g1] eqn:Hw.
    2:{ intros [= -> _]. destruct (alive_law f) as [Ha _]. specialize (Ha now (temp_local_filepath dest) (slice (data ch) 0 (c_length ch))).
        by rewrite Hw in Ha. }
    destruct (if String.eqb _ _ then _ else _) as [[[|]|e] g2] eqn:Hv; [|by intros [=]|].
    2:{ intros [= -> _]. destruct (String.eqb _ _); [done|]. by apply set_attribute_throw in Hv. }
    destruct (if bool_decide _ then _ else _) as [[[|]|e] g3] eqn:Hx; [|by intros [=]|].
    2:{ intros [= -> _]. case_bool_decide; [done|]. by apply set_attributes_throw in Hx. }
    intros Hm. destruct (alive_law g3) as [_ Ha]. specialize (Ha (temp_local_filepath dest) (dest_local_filepath dest)). by rewrite Hm in Ha.
  - intros _. right. split; [done|]. exists f1, (temp_local_filepath dest), x. by rewrite Hr.
Qed.
End Shrinks.
#[local] Hint Resolve shrinks_refl shrinks_remove shrinks_touch shrinks_evict_stale : storage.

(** ** The shared state *)
Section DiskCorrectness.
Context `{SU : StringUtil} `{SL : !StringUtilLaws}.
Context {F : Type} `{FS : LocalFileSystem F} `{FL : !LocalFsLaws F}.
Context {S : Type} `{StorageLaws S}.
Variables (path tag : string) (page_size : Z) (al : Allocator).
Variable remote_read : Z -> Z -> Res (list byte).
Variable sha256 : string -> list Z.
Variable uuid : CacheReadChunk -> string.
Variable path_info : RemoteFileCachePathInfo.
Variable CanAccessFile : string -> bool.
Variable rnd : QArith_base.Q -> QArith_base.Q.
Variable config : InstanceConfig.
Variable wall : Z -> Z.
Variable content : string -> string -> list byte.
Variable remote : string -> Prop.

#[local] Abbreviation dirs := (on_disk_cache_directories config).
#[local] Abbreviation file := (content path tag).
#[local] Abbreviation file_size := (Z.of_nat (length file)).
#[local] Abbreviation shared := (@disk_shared F S).

Definition block_bytes (p : string) (off n : Z) (bytes : list byte) : Prop :=
  exists t, 0 <= off /\ 0 < n /\ off + n <= Z.of_nat (length (content p t)) /\ bytes = slice (content p t) off n.

(** Every cache file of a remote file in use holds the bytes its path names. *)
Definition truthful_disk (f : F) : Prop :=
  forall p info off n nd, remote p -> path_info_of sha256 dirs p = Ok info -> is_u64 off -> is_u64 n ->
    node f (published_path sha256 info off n) = Some nd -> block_bytes p off n (contents nd).

Definition truthful_memory (m : option S) : Prop := match m with None => True | Some s => truthful_storage content s end.

(** What a read through the disk cache may throw. *)
Definition disk_error (e : exn) : Prop := read_error remote_read e \/ local_failure F e.

Definition cache_ok (g : shared) : Prop :=
  truthful_memory (d_mem g) /\ truthful_disk (d_files g) /\ index_ok (d_index g).

Lemma truthful_shrinks f f' : truthful_disk f -> shrinks f f' -> truthful_disk f'.
Proof. intros Ht Hs p info off n nd Hp Hi Ho Hn (nd0 & Hq & ->)%Hs. by eapply Ht. Qed.

Lemma cache_ok_mem g s : cache_ok g -> truthful_storage content s -> cache_ok (set_mem g (Some s)).
Proof. intros (_ & Hf & Hx) Hs. exact (conj Hs (conj Hf Hx)). Qed.

Lemma cache_ok_files g f : cache_ok g -> shrinks (d_files g) f -> cache_ok (set_files g f).
Proof. intros (Hm & Hf & Hx) Hs. exact (conj Hm (conj (truthful_shrinks _ _ Hf Hs) Hx)). Qed.

(** *** Hypotheses *)
Hypothesis remote_ok : forall nr loc bytes,
  0 <= loc -> 0 < nr -> loc + nr <= file_size -> remote_read nr loc = Ok bytes -> bytes = slice file loc nr.
(** The file does not change while its blocks are cached. *)
Hypothesis immutable : forall t, content path t = file.
Hypothesis page_pos : 0 < page_size.
Hypothesis file_fits : file_size + page_size < two64.
Hypothesis digest_bytes : forall s, Forall is_byte (sha256 s).
Hypothesis no_collision : forall a b, hashed sha256 dirs remote a -> hashed sha256 dirs remote b -> sha256 a = sha256 b -> a = b.
Hypothesis in_use : remote path.
Hypothesis info_ok : path_info_of sha256 dirs path = Ok path_info.
Hypothesis uuids : forall c, is_uuid (uuid c).
Hypothesis dirs_unique : NoDup dirs.

Variables (cs : list CacheReadChunk) (start n : Z).
Hypothesis Hrange : 0 <= start /\ start + n <= file_size.
Hypothesis Htiles : tiles file_size cs start 0 (start + n).

Lemma chunk_u64 i c : cs !! i = Some c -> is_u64 (aligned_start_offset c) /\ is_u64 (chunk_size c).
Proof. intros Hi. pose proof (tiles_lookup _ _ _ _ _ _ _ Htiles Hi). unfold is_u64. lia. Qed.

(** What [chunk_dest] gives. *)
Definition dest_ok (c : CacheReadChunk) (dest : LocalCacheDestination) : Prop :=
  dest_local_filepath dest = published_path sha256 path_info (aligned_start_offset c) (chunk_size c) /\
  temp_local_filepath dest = GetTempCacheFilePath (uuid c) (dest_local_filepath dest).

Lemma chunk_dest_ok i c : cs !! i = Some c -> exists dest, chunk_dest path sha256 uuid path_info c = Ok dest /\ dest_ok c dest.
Proof.
  intros Hi. destruct (chunk_u64 i c Hi) as [Ho Hn].
  destruct (Resolve_published sha256 dirs (uuid c) path path_info _ _ (uuids c) info_ok Ho Hn) as (dest & Hd & Hl & Ht).
  exists dest. split; [done|]. split; [done|]. by rewrite Hl.
Qed.

#[local] Abbreviation entry := (entry_of path tag content).
#[local] Abbreviation done_piece := (piece_done path tag content).

Lemma opened_bytes i c dest direct f handle :
  cs !! i = Some c -> dest_ok c dest -> truthful_disk f -> fs_open direct (dest_local_filepath dest) f = Ok (Some handle) ->
  handle = slice file (aligned_start_offset c) (chunk_size c).
Proof.
  intros Hi [Hl _] Ht Ho%open_law. destruct (chunk_u64 i c Hi) as [Hao Hn]. rewrite Hl in Ho.
  destruct (node f _) as [nd|] eqn:Hnd; [|done]. injection Ho as ->.
  destruct (Ht path path_info _ _ nd in_use info_ok Hao Hn Hnd) as (t & _ & _ & _ & ->). by rewrite immutable.
Qed.

(** Reading the whole handle is a read of the remote file that only the allocator and the
    local filesystem can make fail. *)
Lemma read_handle_good i c f :
  cs !! i = Some c ->
  match read_content_of page_size al (slice file (aligned_start_offset c) (chunk_size c)) (chunk_size c) f with
  | Ok ch => entry c ch tag
  | Throw e => e = BadAlloc /\ AllocatePageAlignedChunk page_size al (chunk_size c) = Throw e \/ local_error F e
  end.
Proof.
  intros Hi. pose proof (tiles_lookup _ _ _ _ _ _ _ Htiles Hi) as Hc.
  set (h := slice file (aligned_start_offset c) (chunk_size c)).
  assert (read_at h 0 (chunk_size c) = Some h) as Hh.
  { unfold h. pose proof (length_slice file (aligned_start_offset c) (chunk_size c)) as Hl.
    unfold read_at. rewrite decide_True by lia. by rewrite slice_slice, Z.add_0_r by lia. }
  pose proof (fetch_good path tag page_size al (fun nr loc => Ok (slice file loc nr)) content
    ltac:(intros nr loc bytes _ _ _ [= <-]; done) page_pos file_fits cs start n Htiles i c Hi) as Hf.
  unfold read_content_of. unfold fetch in Hf. destruct (AllocatePageAlignedChunk page_size al (chunk_size c)) as [ch0|e]; simpl in *.
  2:{ left. destruct Hf as [->|(nr & loc & ?)]; done. }
  destruct (fs_pread h 0 (chunk_size c) f) as [b|e] eqn:Hp; simpl.
  - apply pread_law in Hp. assert (b = h) as -> by congruence.
    fold h in Hf. destruct (of_option UndefinedBehaviour (write_at (data ch0) 0 h)) as [m|e] eqn:Hw; simpl in *; [done|].
    exfalso. destruct (write_at _ 0 h); simplify_eq/=. destruct Hf as [?|(nr & loc & ?)]; done.
  - right. by eapply (pread_error h 0 (chunk_size c) f); [rewrite Hh|].
Qed.

(** Storing a good block. *)
Lemma store_good i c dest ch now f ix r f' ix' :
  cs !! i = Some c -> dest_ok c dest -> entry c ch tag -> truthful_disk f -> index_ok ix ->
  StoreLocalCacheFile (EvictCacheBlockLru dirs) rnd (wall now) (cache_directory path_info) dest ch tag
    (cache_block_size config) (min_disk_bytes_for_cache config) (on_disk_eviction_policy config) f ix = (r, f', ix') ->
  truthful_disk f' /\ index_ok ix' /\ (r = Throw Terminated -> local_failure F Terminated).
Proof.
  intros Hi [Hl Ht] He Hf Hix Hst. destruct (chunk_u64 i c Hi) as [Ho Hn]. apply and_assoc. split.
  2:{ intros ->. eapply store_terminated; [|exact Hst]. intros r1 f1 d1 Hev ->.
      destruct (evict_files_ok dirs _ _ _ _ _ _ _ _ dirs_unique Hix Hev) as (_ & _ & He').
      by destruct (He' _ eq_refl). }
  revert Hst. unfold StoreLocalCacheFile. destruct (CanCacheOnDisk _ _ _ _ f); simpl.
  - destruct (publish _ _ _ _ f) as [r1 f1] eqn:Hpub.
    pose proof (shrinks_remove (temp_local_filepath dest) f1) as Hrem. destruct (fs_remove _ f1) as [b f2]. simpl in Hrem.
    intros [= _ <- <-]. split; [|done].
    assert (temp_local_filepath dest <> dest_local_filepath dest) as Hne.
    { rewrite Ht, Hl. by eapply (temp_not_published sha256 dirs). }
    destruct (publish_ok (wall now) dest ch tag f r1 f1 Hne Hpub) as [Hother Hdest].
    apply (truthful_shrinks f1); [|done]. intros p info off m nd Hp Hinfo Hoff Hm Hnd.
    destruct (decide (published_path sha256 info off m = dest_local_filepath dest)) as [Heq|Hneq].
    + rewrite Heq in Hnd. destruct Hdest as [Hsame|(nd' & Hnd' & Hbytes & _)].
      { rewrite Hsame, <-Heq in Hnd. by eapply Hf. }
      rewrite Hnd' in Hnd. injection Hnd as <-. rewrite Hl in Heq.
      apply (published_path_inj sha256 dirs digest_bytes remote no_collision p path info path_info) in Heq as (-> & -> & ->); [|done..].
      destruct He as ((H1 & H2 & H3 & H4 & _ & H6) & Hv). simpl in *. exists tag. rewrite Hbytes, H4. auto with lia.
    + rewrite Hother in Hnd; [by eapply Hf| |done]. rewrite Ht. intros Heq. symmetry in Heq. revert Heq.
      by eapply (temp_not_published sha256 dirs).
  - intros Hev. destruct (evict_files_ok dirs _ _ _ _ _ _ _ _ dirs_unique Hix Hev) as (Hs & Hix' & _).
    split; [|done]. by eapply truthful_shrinks.
Qed.

(** *** Tasks *)
Definition disk_task_ok (i : nat) (t : disk_task) (g : shared) : Prop :=
  cs !! i = Some (disk_chunk t) /\
  match t with
  | DStart _ => True
  | DMemHit c ch => exists t', entry c ch t'
  | DOpen c dest | DMiss c dest => dest_ok c dest
  | DValidate c dest handle | DReadFile c dest handle =>
      dest_ok c dest /\ handle = slice file (aligned_start_offset c) (chunk_size c)
  | DFileHit c dest ch | DFetched c dest ch => dest_ok c dest /\ entry c ch tag
  | DTouch c dest ch _ | DStore c dest ch => dest_ok c dest /\ entry c ch tag /\ done_piece c (d_buffer g)
  | DMemPut c ch _ => entry c ch tag /\ done_piece c (d_buffer g)
  | DFinished c => done_piece c (d_buffer g)
  | DFailed _ e => disk_error e
  end.

Definition disk_ok (g : shared) : Prop := Z.of_nat (length (d_buffer g)) = n /\ cache_ok g.

#[local] Abbreviation step :=
  (disk_step path tag page_size al remote_read sha256 uuid path_info CanAccessFile rnd config wall).

(** What a step may do to the buffer: nothing, or write the piece of its task. *)
Definition own_write (t : disk_task) (g g' : shared) : Prop :=
  d_buffer g' = d_buffer g \/
  exists bytes, write_at (d_buffer g) (requested_start_addr (disk_chunk t)) bytes = Some (d_buffer g') /\
                Z.of_nat (length bytes) = bytes_to_copy (disk_chunk t).

Definition step_good (i : nat) (t t' : disk_task) (g g' : shared) : Prop :=
  disk_ok g' /\ disk_task_ok i t' g' /\ own_write t g g'.

(** Steps that leave the buffer alone. *)
Lemma quiet_step i t t' g g' :
  disk_ok g -> d_buffer g' = d_buffer g -> cache_ok g' -> disk_task_ok i t' g' -> step_good i t t' g g'.
Proof. intros [Hl _] Hb Hc Ht. split; [split; [by rewrite Hb|done]|]. split; [done|by left]. Qed.

(** Copying a good entry. *)
Lemma disk_copy_good i t c ch t0 g :
  cs !! i = Some c -> disk_chunk t = c -> disk_ok g -> entry c ch t0 ->
  exists b, CopyBufferToRequestedMemory c (d_buffer g) ch = Ok b /\
    done_piece c b /\ disk_ok (set_buffer g b) /\ own_write t g (set_buffer g b).
Proof.
  intros Hi Ht [Hl Hc] He.
  destruct (copy_good path tag page_size content page_pos file_fits cs start n Hrange Htiles i c ch t0 _ Hi Hl He)
    as (b & bytes & Hcp & Hw & Hlb & Hp).
  exists b. split; [done|]. split; [done|]. split.
  - split; [simpl; by rewrite (length_write_at _ _ _ _ Hw)|done].
  - right. rewrite Ht. eauto.
Qed.

Lemma memory_put_good i c ch now s :
  cs !! i = Some c -> entry c ch tag -> truthful_storage content s ->
  exists s', Put now (block_key path c) ch tag s = Ok s' /\ truthful_storage content s'.
Proof.
  intros Hi [Htr Hv] Hs. pose proof Htr as (_ & Hsz & _ & Hcl & _). simpl in *.
  destruct (Put_total now (block_key path c) ch tag s) as [s' Hp]; [apply Hs|by eapply truthful_key_ok|lia|].
  exists s'. split; [done|]. by eapply truthful_Put.
Qed.

Lemma start_step i c g now :
  disk_ok g -> cs !! i = Some c -> let '(t', g') := step now (DStart c) g in step_good i (DStart c) t' g g'.
Proof.
  intros Hg Hi. pose proof Hg as [_ (Hm & Hf & Hx)]. simpl.
  destruct (chunk_dest_ok i c Hi) as (dest & -> & Hd).
  assert (forall g', d_buffer g' = d_buffer g -> cache_ok g' ->
            step_good i (DStart c) (after_file CanAccessFile c dest) g g') as Hafter.
  { intros g' Hb Hc. apply quiet_step; [done..|]. unfold after_file. by destruct (CanAccessFile _). }
  destruct (d_mem g) as [s|] eqn:Hs; [|apply Hafter; [done|apply Hg]].
  destruct (Get now (block_key path c) tag s) as [[ch|] s'] eqn:Hget;
    destruct (truthful_Get content _ _ _ _ _ _ Hm Hget) as [Hs' Hr].
  - apply quiet_step; [done|done|by apply (cache_ok_mem g); [apply Hg|]|]. split; [done|].
    destruct (Hr ch eq_refl) as (t' & Htr & _). exists t'. split; [done|apply immutable].
  - apply Hafter; [done|]. apply cache_ok_mem; [apply Hg|done].
Qed.

Lemma file_step i t g now :
  disk_ok g -> disk_task_ok i t g ->
  match t with DOpen _ _ | DValidate _ _ _ | DReadFile _ _ _ => True | _ => False end ->
  let '(t', g') := step now t g in step_good i t t' g g'.
Proof.
  intros Hg [Hi Ht] Hk. pose proof Hg as [_ (Hm & Hf & Hx)]. destruct t as [| |c dest|c dest handle|c dest handle| | | | | | | |]; try done; simpl in *.
  - destruct (fs_open _ (dest_local_filepath dest) (d_files g)) as [[handle|]|e] eqn:Ho; apply quiet_step; try done.
    + split; [done|]. split; [done|]. by eapply opened_bytes.
    + split; [done|]. right. left. by eapply open_error.
  - destruct (ValidateCacheFile _ _ _).
    { by apply quiet_step. }
    pose proof (shrinks_remove (dest_local_filepath dest) (d_files g)) as Hs.
    destruct (fs_remove (dest_local_filepath dest) (d_files g)) as [[b|e] f'] eqn:Hrm; simpl in Hs; apply quiet_step; try done.
    + split; [done|]. split; [|done]. by eapply truthful_shrinks.
    + by split; [|apply Ht].
    + split; [done|]. split; [|done]. by eapply truthful_shrinks.
    + split; [done|]. right. left. apply (remove_error (dest_local_filepath dest) (d_files g)). by rewrite Hrm.
  - destruct Ht as [Hd ->]. pose proof (read_handle_good i c (d_files g) Hi) as Hr.
    destruct (read_content_of page_size al _ (chunk_size c) (d_files g)) as [ch|e]; apply quiet_step; try done.
    + split; [done|]. split; [|done]. eapply truthful_shrinks; [done|apply shrinks_touch].
    + split; [done|]. destruct Hr as [[-> _]|He]; [left; by left|right; by left].
Qed.

Lemma copy_steps i t g now :
  disk_ok g -> disk_task_ok i t g ->
  match t with DMemHit _ _ | DFileHit _ _ _ | DFetched _ _ _ => True | _ => False end ->
  let '(t', g') := step now t g in step_good i t t' g g'.
Proof.
  intros Hg [Hi Ht] Hk. destruct t as [|c ch| | | |c dest ch| | |c dest ch| | | |]; try done; simpl in *; unfold disk_copy.
  - destruct Ht as [t0 He]. destruct (disk_copy_good i (DMemHit c ch) c ch t0 g Hi eq_refl Hg He) as (b & -> & Hp & Hok & Hw).
    by repeat split; try done; apply Hok.
  - destruct Ht as [Hd He]. destruct (disk_copy_good i (DFileHit c dest ch) c ch tag g Hi eq_refl Hg He) as (b & -> & Hp & Hok & Hw).
    split; [done|]. split; [|done]. by split.
  - destruct Ht as [Hd He]. destruct (disk_copy_good i (DFetched c dest ch) c ch tag g Hi eq_refl Hg He) as (b & -> & Hp & Hok & Hw).
    split; [done|]. split; [|done]. destruct (CanAccessFile _); by split.
Qed.

Lemma late_steps i t g now :
  disk_ok g -> disk_task_ok i t g ->
  match t with DTouch _ _ _ _ | DMiss _ _ | DStore _ _ _ | DMemPut _ _ _ | DFinished _ | DFailed _ _ => True | _ => False end ->
  let '(t', g') := step now t g in step_good i t t' g g'.
Proof.
  intros Hg [Hi Ht] Hk. pose proof Hg as [_ (Hm & Hf & Hx)].
  destruct t as [| | | | | |c dest ch cached|c dest| |c dest ch|c ch cached|c|c e]; try done; simpl in *.
  - destruct Ht as (Hd & He & Hp). destruct (_ && _); [|apply quiet_step; [done|done|apply Hg|done]].
    unfold UpsertCacheFileAccessTimestamp.
    destruct (upsert_ok (wall now) (dest_local_filepath dest) (d_index g) Hx) as (ix' & -> & Hx' & _).
    apply quiet_step; [done|done| |done]. refine (conj Hm (conj _ Hx')).
    eapply truthful_shrinks; [exact Hf|apply shrinks_touch].
  - pose proof (fetch_good path tag page_size al remote_read content remote_ok page_pos file_fits cs start n Htiles i c Hi) as Hfe.
    destruct (fetch _ _ _ c) as [ch|e]; (apply quiet_step; [done|done|apply Hg|]); [done|]. split; [done|by left].
  - destruct (StoreLocalCacheFile _ _ _ _ _ _ _ _ _ _ _ _) as [[r f'] ix'] eqn:Hst.
    destruct Ht as (Hd & He & Hp). destruct (store_good i c dest ch now _ _ _ _ _ Hi Hd He Hf Hx Hst) as (Hf' & Hx' & Hend).
    destruct r as [[]|e]; [|destruct e]; (apply quiet_step; [done|done|exact (conj Hm (conj Hf' Hx'))|]); try done.
    split; [done|]. right. by apply Hend.
  - destruct Ht as [He Hp]. assert (forall g', d_buffer g' = d_buffer g -> cache_ok g' ->
      step_good i (DMemPut c ch cached) (DFinished c) g (end_file_read cached g')) as Hend.
    { intros g' Hb Hc. destruct cached; (apply quiet_step; [done|done|done|split; [done|]; simpl; by rewrite Hb]). }
    destruct (d_mem g) as [s|] eqn:Hs; [|apply Hend; [done|apply Hg]].
    destruct (memory_put_good i c ch now s Hi He Hm) as (s' & -> & Hs'). apply Hend; [done|].
    apply cache_ok_mem; [apply Hg|done].
  - apply quiet_step; [done|done|apply Hg|done].
  - apply quiet_step; [done|done|apply Hg|done].
Qed.

Lemma disk_step_good i t g now :
  disk_ok g -> disk_task_ok i t g -> let '(t', g') := step now t g in step_good i t t' g g'.
Proof.
  intros Hg Ht. destruct t; try (by apply file_step); try (by apply copy_steps); try (by apply late_steps).
  apply start_step; [done|apply Ht].
Qed.

(** *** Runs *)
Variable env : shared -> shared -> Prop.
(** Other queries keep the caches correct and have their own buffers. *)
Hypothesis env_ok : forall g g', env g g' -> d_buffer g' = d_buffer g /\ (cache_ok g -> cache_ok g').

Lemma disk_task_buffer i t g g' : d_buffer g' = d_buffer g -> disk_task_ok i t g -> disk_task_ok i t g'.
Proof. intros Hb [Hi Ht]. split; [done|]. by rewrite Hb. Qed.

Lemma disk_task_other i j t u g g' :
  i <> j -> disk_task_ok i t g -> own_write t g g' -> disk_task_ok j u g -> disk_task_ok j u g'.
Proof.
  intros Hij [Hi _] [Hb|(bytes & Hw & Hl)] Hu; [by apply (disk_task_buffer j u g)|]. destruct Hu as [Hj Hu].
  assert (done_piece (disk_chunk u) (d_buffer g) -> done_piece (disk_chunk u) (d_buffer g')) as Hp.
  { intros Hp. by eapply (piece_done_other path tag content cs start n Htiles i j). }
  split; [done|]. destruct u; simpl in *; try done; intuition.
Qed.

Lemma disk_reachable g0 ts g :
  disk_ok g0 -> run step env (DStart <$> cs) g0 ts g -> all_ok disk_ok disk_task_ok ts g.
Proof.
  intros Hg0 Hrun. refine (run_invariant step env disk_ok disk_task_ok _ _ _ _ _ _ _ _ Hrun _).
  - intros g1 g2 [Hl Hc] [Hb Hok]%env_ok. split; [by rewrite Hb|auto].
  - intros i t g1 g2 _ [Hb _]%env_ok. by apply disk_task_buffer.
  - intros i t g1 now t' g' Hg Ht Hs. pose proof (disk_step_good i t g1 now Hg Ht) as Hgood. rewrite Hs in Hgood.
    split; apply Hgood.
  - intros i j t u g1 now t' g' Hij Hg Ht Hu Hs. pose proof (disk_step_good i t g1 now Hg Ht) as Hgood. rewrite Hs in Hgood.
    by apply (disk_task_other i j t u g1); [..|apply Hgood|].
  - split; [done|]. intros i t Hi. rewrite list_lookup_fmap in Hi.
    destruct (cs !! i) as [c|] eqn:Hc; [|done]. injection Hi as <-. done.
Qed.

Lemma DiskRunChunks_correct g0 res g :
  disk_ok g0 ->
  DiskRunChunks path tag page_size al remote_read sha256 uuid path_info CanAccessFile rnd config wall env cs g0 res g ->
  cache_ok g /\ match res with Ok _ => d_buffer g = slice file start n | Throw e => disk_error e end.
Proof.
  intros Hg0 (ts & Hrun & Hfin & ->). pose proof (run_length _ _ _ _ _ _ Hrun) as Hlen. rewrite length_fmap in Hlen.
  destruct (disk_reachable g0 ts g Hg0 Hrun) as [[Hb Hc] Hts]. split; [done|].
  destruct (first_failure_cases disk_result ts) as [(t & e & [i Hi]%list_elem_of_lookup & Hr & Hw)|[Hw Hall]];
    unfold DiskWaitAll; unfold first_failure in Hw; rewrite Hw.
  { destruct (Hts i t Hi) as [_ Ht]. destruct t; simplify_eq/=. done. }
  pose proof (tiles_le _ _ _ _ _ Htiles) as Hle. apply slice_of_agrees; [lia..| |lia|].
  { done. }
  replace n with (start + n - start) at 1 by lia. apply (tiles_agrees _ _ _ _ _ _ _ Htiles).
  intros c [i Hi]%list_elem_of_lookup.
  destruct (lookup_lt_is_Some_2 ts i) as [t Ht]; [rewrite Hlen; by eapply lookup_lt_Some|].
  pose proof (list_elem_of_lookup_2 _ _ _ Ht) as Hin. specialize (Hall t Hin).
  rewrite Forall_forall in Hfin. specialize (Hfin t Hin). destruct (Hts i t Ht) as [Hci Hd].
  destruct t; simplify_eq/=. done.
Qed.
End DiskCorrectness.

(** ** Valid directories *)
Definition valid_directories `{StringUtil} (dirs : list string) : Prop :=
  dirs <> [] /\ NoDup dirs /\ Forall (fun d => EndsWith d "/" = false) dirs.

Lemma path_info_exists `{SU : StringUtil} sha256 dirs p :
  valid_directories dirs -> exists info, path_info_of sha256 dirs p = Ok info.
Proof.
  intros (Hne & _ & Hall). unfold path_info_of, BuildRemoteFileCachePathInfo.
  assert (0 < length dirs)%nat by (destruct dirs; [done|simpl; lia]).
  rewrite (proj2 (Nat.eqb_neq (length dirs) 0)) by lia. simpl. unfold PopulateRemoteFileCacheKey.
  set (idx := GetCacheDirectoryIdx _ _). assert (0 <= idx < Z.of_nat (length dirs)) as Hi by (apply Z.mod_pos_bound; lia).
  destruct (lookup_lt_is_Some_2 dirs (Z.to_nat idx)) as [dir Hdir]; [lia|]. rewrite Hdir. simpl.
  rewrite Forall_lookup in Hall. rewrite (Hall _ _ Hdir). eauto.
Qed.

(** ** Properties *)
Section Reading.
Context `{SU : StringUtil} `{SL : !StringUtilLaws}.
Context {F : Type} `{FS : LocalFileSystem F} `{FL : !LocalFsLaws F}.
Context {S : Type} `{StorageLaws S}.

Lemma DiskReadAndCache_ok path handle_tag page_size al remote_read sha256 uuid CanAccessFile rnd config wall env content
    remote start n (g : @disk_shared F S) res g' :
  let tag := disk_version_tag handle_tag config in
  let dirs := on_disk_cache_directories config in
  let file := content path tag in
  let file_size := Z.of_nat (length file) in
  (forall nr loc bytes, 0 <= loc -> 0 < nr -> loc + nr <= file_size ->
     remote_read nr loc = Ok bytes -> bytes = slice file loc nr) ->
  (forall t, content path t = file) ->
  0 < page_size -> file_size + page_size < two64 ->
  (forall s, Forall is_byte (sha256 s)) ->
  (forall a b, hashed sha256 dirs remote a -> hashed sha256 dirs remote b -> sha256 a = sha256 b -> a = b) ->
  remote path -> (forall c, is_uuid (uuid c)) -> valid_directories dirs ->
  (forall g g', env g g' -> d_buffer g' = d_buffer g /\
     (cache_ok sha256 config content remote g -> cache_ok sha256 config content remote g')) ->
  0 < cache_block_size config -> file_size + cache_block_size config < two64 ->
  0 <= start -> 0 <= n -> start + n <= file_size ->
  Z.of_nat (length (d_buffer g)) = n -> cache_ok sha256 config content remote g ->
  DiskReadAndCache path handle_tag page_size al remote_read sha256 uuid CanAccessFile rnd config wall env
    start n file_size g res g' ->
  cache_ok sha256 config content remote g' /\
  match res with
  | Ok _ => d_buffer g' = slice file start n
  | Throw e => e = BadAlloc \/ (exists nr loc, remote_read nr loc = Throw e) \/ local_failure F e
  end.
Proof.
  intros tag dirs file file_size Hremote Himm Hpage Hfit Hby Hcol Huse Huu Hdirs Henv Hbs Hfit2 Hs Hn He Hbuf Hc Hread.
  unfold DiskReadAndCache in Hread. destruct (Z.eqb_spec n 0) as [->|Hn0].
  { destruct Hread as [-> ->]. split; [done|]. destruct (d_buffer g); simpl in Hbuf; [done|lia]. }
  destruct (path_info_exists sha256 dirs path Hdirs) as [info Hinfo]. pose proof Hinfo as Hinfo'.
  unfold path_info_of in Hinfo'. fold dirs in Hread. rewrite Hinfo' in Hread.
  destruct Hread as (cs & total & waited & mid & Hplan & Hrun & Hres).
  destruct (PlanFixedBlocks_ok start n file_size (cache_block_size config)) as (cs' & total' & Hp & Ht & _); [lia..|].
  assert (cs' = cs) as -> by congruence.
  destruct (DiskRunChunks_correct path tag page_size al remote_read sha256 uuid info CanAccessFile rnd config wall content
    remote Hremote Himm Hpage Hfit Hby Hcol Huse Hinfo Huu (proj1 (proj2 Hdirs)) cs start n (conj Hs He) Ht env Henv
    g waited mid (conj Hbuf Hc) Hrun) as [Hok Hout].
  destruct waited; destruct Hres as [-> ->]; (split; [done|]); [done|]. by destruct Hout as [[?|?]|?]; auto.
Qed.

(** C2: The disk reader returns the file's bytes.  For a remote file that does not change
    while it is cached, whatever the memory layer and the cache directories hold, provided
    the blocks are what their keys and paths say, however the sub-reads of a request are
    scheduled, whatever files they evict and whatever other queries do to the shared
    caches in between, [DiskCacheReader::ReadAndCache] leaves in the caller's buffer the
    requested bytes, or throws what the allocator, the remote filesystem or the local
    filesystem threw, or the process ends because a temporary file resisted its removal;
    the memory layer, the cache files and the access index stay correct in all cases.  On a
    local filesystem that throws nothing only the first two are left. *)
Theorem disk_read_correct path handle_tag page_size al remote_read sha256 uuid CanAccessFile rnd config wall env content
    remote start n (g : @disk_shared F S) res g' :
  let tag := disk_version_tag handle_tag config in
  let dirs := on_disk_cache_directories config in
  let file := content path tag in
  let file_size := Z.of_nat (length file) in
  (forall nr loc bytes, 0 <= loc -> 0 < nr -> loc + nr <= file_size ->
     remote_read nr loc = Ok bytes -> bytes = slice file loc nr) ->
  (forall t, content path t = file) ->
  0 < page_size -> file_size + page_size < two64 ->
  (forall s, Forall is_byte (sha256 s)) ->
  (forall a b, hashed sha256 dirs remote a -> hashed sha256 dirs remote b -> sha256 a = sha256 b -> a = b) ->
  remote path -> (forall c, is_uuid (uuid c)) -> valid_directories dirs ->
  (forall g g', env g g' -> d_buffer g' = d_buffer g /\
     (cache_ok sha256 config content remote g -> cache_ok sha256 config content remote g')) ->
  0 < cache_block_size config -> file_size + cache_block_size config < two64 ->
  0 <= start -> 0 <= n -> start + n <= file_size ->
  Z.of_nat (length (d_buffer g)) = n -> cache_ok sha256 config content remote g ->
  DiskReadAndCache path handle_tag page_size al remote_read sha256 uuid CanAccessFile rnd config wall env
    start n file_size g res g' ->
  cache_ok sha256 config content remote g' /\
  match res with
  | Ok _ => d_buffer g' = slice file start n
  | Throw e => e = BadAlloc \/ (exists nr loc, remote_read nr loc = Throw e) \/ local_failure F e
  end.
Proof. apply DiskReadAndCache_ok. Qed.

(** A read through the disk cache always completes: its plan exists, and in any
    schedule in which every sub-read gets nine turns, whatever runs in between, every
    sub-read finishes, with a result or with an exception. *)
Theorem disk_read_terminates path tag page_size al remote_read sha256 uuid info CanAccessFile rnd config wall
    start n file_size (g : @disk_shared F S) (sch : list (nat * Z)) :
  0 <= start -> 0 < n -> 0 < cache_block_size config -> start + n <= file_size ->
  file_size + cache_block_size config < two64 ->
  exists cs total, PlanFixedBlocks start n file_size (cache_block_size config) = Some (cs, total) /\
    ((forall i, (i < length cs)%nat -> (9 <= turns i sch)%nat) ->
     Forall (fun t => disk_finished t = true)
       (run_schedule (disk_step path tag page_size al remote_read sha256 uuid info CanAccessFile rnd config wall) sch
          (DStart <$> cs) g).1).
Proof.
  intros Hs Hn Hb He Hf.
  destruct (PlanFixedBlocks_ok start n file_size (cache_block_size config)) as (cs & total & Hp & _); [done..|].
  exists cs, total. split; [done|]. intros Hturns. apply Forall_forall. intros t [i Hi]%list_elem_of_lookup.
  pose proof (run_length _ (fun _ _ => False) _ _ _ _ (run_schedule_run
    (disk_step path tag page_size al remote_read sha256 uuid info CanAccessFile rnd config wall) (fun _ _ => False) sch (DStart <$> cs) g)) as Hlen.
  assert (i < length cs)%nat as Hlt by (rewrite <-(length_fmap DStart cs), <-Hlen; by eapply lookup_lt_Some).
  destruct (lookup_lt_is_Some_2 cs i Hlt) as [c Hc].
  destruct (run_schedule_measure _ _ (disk_step_measure path tag page_size al remote_read sha256 uuid info CanAccessFile rnd config wall)
    sch (DStart <$> cs) g i (DStart c)) as (t' & Ht' & Hm).
  { by rewrite list_lookup_fmap, Hc. }
  { simpl. by apply Hturns. }
  assert (t' = t) as -> by congruence. by destruct t.
Qed.
End Reading.

(** ** Witnesses

    The sample file of [InMemReader], read through an empty cache. *)
Definition disk_config : InstanceConfig :=
  default_config <| cache_block_size := 4 |> <| on_disk_cache_directories := ["/c"%string] |>.
Definition disk_remote_path : string := "s3://b/f".
Definition disk_info : RemoteFileCachePathInfo :=
  match path_info_of plain_digest ["/c"%string] disk_remote_path with Ok i => i | Throw _ => MkPathInfo 0 "" "" "" end.
Definition empty_disk : disk := MkDisk ∅ (Some 1000) (Some 1000).
Definition disk_start : @disk_shared disk ExtensionBoundedDataCacheStorage.storage :=
  MkDiskShared (replicate 5 x00) (Some (ExtensionBoundedDataCacheStorage.new_storage 64 0)) empty_disk no_access [].

Definition disk_sample_step (path tag : string) (bytes : list byte) :=
  disk_step (F := disk) (S := ExtensionBoundedDataCacheStorage.storage) path tag 16 sample_allocator
    (fun nr loc => Ok (slice bytes loc nr)) plain_digest (fun _ => sample_uuid) disk_info (fun _ => true) (fun q => q) disk_config id.

Definition turn_schedule : list (nat * Z) := mjoin ((fun now => [(0%nat, now); (1%nat, now)]) <$> seqZ 1 9).
Definition disk_run := run_schedule (disk_sample_step disk_remote_path "" sample_file) turn_schedule (DStart <$> sample_chunks) disk_start.
Definition disk_end : @disk_shared disk ExtensionBoundedDataCacheStorage.storage :=
  record_event disk_run.2 (RecordActualCacheRead 8 5).

Lemma disk_start_ok : cache_ok plain_digest disk_config sample_content (fun _ => True) disk_start.
Proof.
  split; [apply sample_start_ok|]. split; [|apply index_ok_empty].
  intros p info off n nd _ _ _ _ Hn. simpl in Hn. by rewrite lookup_empty in Hn.
Qed.

Lemma disk_directories : valid_directories (on_disk_cache_directories disk_config).
Proof. split; [done|]. split; [apply one_directory|]. repeat constructor. Qed.

Lemma disk_sample_read :
  DiskReadAndCache disk_remote_path "" 16 sample_allocator (fun nr loc => Ok (slice sample_file loc nr)) plain_digest
    (fun _ => sample_uuid) (fun _ => true) (fun q => q) disk_config id (fun _ _ => False) 3 5 10 disk_start (Ok tt) disk_end.
Proof.
  unfold DiskReadAndCache. change (5 =? 0) with false. cbv iota.
  assert (BuildRemoteFileCachePathInfo plain_digest (on_disk_cache_directories disk_config) disk_remote_path = Ok disk_info)
    as -> by (vm_compute; reflexivity).
  exists sample_chunks, 8, (Ok tt), disk_run.2. split; [vm_compute; reflexivity|]. split; [|by split].
  exists disk_run.1. split.
  { exact (run_schedule_run (disk_sample_step disk_remote_path "" sample_file) (fun _ _ => False) turn_schedule
      (DStart <$> sample_chunks) disk_start). }
  assert (disk_run.1 = DFinished <$> sample_chunks) as -> by (vm_compute; reflexivity). split; [by repeat constructor|done].
Qed.

Lemma disk_read_correct_witness :
  cache_ok plain_digest disk_config sample_content (fun _ => True) disk_end /\ d_buffer disk_end = slice sample_file 3 5.
Proof.
  apply (disk_read_correct disk_remote_path "" 16 sample_allocator (fun nr loc => Ok (slice sample_file loc nr)) plain_digest
    (fun _ => sample_uuid) (fun _ => true) (fun q => q) disk_config id (fun _ _ => False) sample_content (fun _ => True)
    3 5 disk_start (Ok tt) disk_end);
    [intros nr loc bytes _ _ _ [= <-]; reflexivity|reflexivity|lia|vm_compute; reflexivity|apply plain_digest_bytes|
     intros a b _ _; apply plain_digest_inj|exact I|intros _; apply sample_uuid_ok|apply disk_directories|
     intros ? ? []|vm_compute; reflexivity|vm_compute; reflexivity|lia|lia|vm_compute; discriminate|reflexivity|
     apply disk_start_ok|apply disk_sample_read].
Defined.

Lemma disk_read_terminates_witness :
  exists cs total, PlanFixedBlocks 3 5 10 4 = Some (cs, total) /\
    ((forall i, (i < length cs)%nat -> (9 <= turns i turn_schedule)%nat) ->
     Forall (fun t => disk_finished t = true)
       (run_schedule (disk_sample_step disk_remote_path "" sample_file) turn_schedule (DStart <$> cs) disk_start).1).
Proof.
  unfold disk_sample_step. apply (disk_read_terminates disk_remote_path "" 16 sample_allocator (fun nr loc => Ok (slice sample_file loc nr)) plain_digest
    (fun _ => sample_uuid) disk_info (fun _ => true) (fun q => q) disk_config id 3 5 10);
    [lia|lia|vm_compute; reflexivity|lia|vm_compute; reflexivity].
Defined.

(** ** Without immutability

    [ReadLocalCacheFile] reads the version through the path, after it has opened the file.
    Two sub-reads of version "v2" of a block whose cache file is of version "v1": the first
    opens the old file; the second finds it stale, removes it, fetches the block and
    publishes it as "v2"; the first then reads "v2" through the path, takes its old handle
    for valid, returns the old bytes and caches them as version "v2". *)
Definition old_bytes : list byte := [x61; x61; x61; x61].
Definition new_bytes : list byte := [x62; x62; x62; x62].
Definition race_chunks : list CacheReadChunk := [MkReadChunk 0 0 0 4 4; MkReadChunk 4 0 0 4 4].

Definition race_disk : disk :=
  match chunk_dest disk_remote_path plain_digest (fun _ => sample_uuid) disk_info (MkReadChunk 0 0 0 4 4) with
  | Ok dest => (publish 0 dest (MkChunk (Some old_bytes) 4 16) "v1" empty_disk).2
  | Throw _ => empty_disk
  end.
Definition race_start : @disk_shared disk ExtensionBoundedDataCacheStorage.storage :=
  MkDiskShared (replicate 8 x00) (Some (ExtensionBoundedDataCacheStorage.new_storage 64 0)) race_disk no_access [].
Definition race_schedule : list (nat * Z) :=
  [(0%nat, 1); (0%nat, 2); (1%nat, 3); (1%nat, 4); (1%nat, 5); (1%nat, 6); (1%nat, 7); (1%nat, 8); (1%nat, 9); (1%nat, 10);
   (0%nat, 11); (0%nat, 12); (0%nat, 13); (0%nat, 14); (0%nat, 15)].
Definition race_run := run_schedule (disk_sample_step disk_remote_path "v2" new_bytes) race_schedule (DStart <$> race_chunks) race_start.

Lemma stale_handle_is_served :
  race_run.1 = DFinished <$> race_chunks /\ d_buffer race_run.2 = old_bytes ++ new_bytes /\
  ((fun s => data <$> (Get 16 (MkBlock disk_remote_path 0 4) "v2" s).1) <$> d_mem race_run.2) = Some (Some (old_bytes ++ replicate 12 x00)).
Proof. vm_compute. done. Qed.

(** ** Failures of the local filesystem

    A cache file that exists and does not open makes the read throw, although the remote
    file could serve it.  A temporary file that cannot be removed, after its attributes
    could not be set, ends the process: the guard that removes it must not throw. *)
Definition faulty_start (unopenable stuck : gset string) (no_attributes : bool) :
    @disk_shared faulty ExtensionBoundedDataCacheStorage.storage :=
  MkDiskShared (replicate 5 x00) (Some (ExtensionBoundedDataCacheStorage.new_storage 64 0))
    (MkFaulty empty_disk unopenable stuck false no_attributes) no_access [].
Definition faulty_run (tag : string) (start : disk_shared) :=
  run_schedule (disk_step (F := faulty) (S := ExtensionBoundedDataCacheStorage.storage) disk_remote_path tag 16 sample_allocator
    (fun nr loc => Ok (slice sample_file loc nr)) plain_digest (fun _ => sample_uuid) disk_info (fun _ => true) (fun q => q) disk_config id)
    turn_schedule (DStart <$> sample_chunks) start.
Definition first_dest : LocalCacheDestination :=
  match chunk_dest disk_remote_path plain_digest (fun _ => sample_uuid) disk_info (MkReadChunk 0 3 0 4 1) with
  | Ok dest => dest | Throw _ => MkLocalCacheDestination "" "" ∅ end.

Lemma unopenable_block_fails :
  DiskWaitAll (faulty_run "" (faulty_start {[dest_local_filepath first_dest]} ∅ false)).1 = Throw IOException.
Proof. vm_compute. done. Qed.

Lemma stuck_temporary_file_terminates :
  DiskWaitAll (faulty_run "" (faulty_start ∅ {[temp_local_filepath first_dest]} true)).1 = Throw Terminated.
Proof. vm_compute. done. Qed.
