(* ===== verification/DiskHits.v ===== *)
(** * DiskHits

    What the cache directories are for: blocks that are on disk are served from there, with no
    memory of earlier reads and no remote request, so that the cache outlives the process. *)
From S2P Require Import Prelude CppString StringUtil OrdMap Blocks ReadPlan DataStorage Tasks IoOperations.
From S2P Require Import Remap InMemReader LocalFs Config FilesystemUtils DiskCacheUtil AccessIndex DiskCacheProofs DiskNames.
From S2P Require Import LruCache LruSpec ExtensionStorage InstanceConfig DiskReader DiskReaderProofs.
From Stdlib Require QArith.QArith_base.

#[local] Open Scope Z_scope.

(** ** Blocks on disk *)
Section OnDisk.
Context {F : Type} `{FS : LocalFileSystem F} `{FL : !LocalFsLaws F}.
Implicit Types (f : F).

(** The file is there, of the version [tag] if versions count. *)
Definition on_disk (p tag : string) f : Prop :=
  exists nd, node f p = Some nd /\ (tag = ""%string \/ xattrs nd !! CACHE_VERSION_ATTR_KEY = Some tag).

Lemma on_disk_opens direct p tag f :
  on_disk p tag f ->
  match fs_open direct p f with Ok handle => is_Some handle | Throw e => local_error F e end.
Proof.
  intros (nd & Hn & _). destruct (fs_open direct p f) as [h|e] eqn:Ho; [|by eapply open_error].
  apply open_law in Ho as ->. rewrite Hn. eauto.
Qed.

Lemma on_disk_valid p tag f : on_disk p tag f -> ValidateCacheFile p tag f = true.
Proof.
  intros (nd & Hn & Ht). unfold ValidateCacheFile. destruct (String.eqb_spec tag ""); [done|].
  destruct Ht as [|Ht]; [done|]. unfold GetCacheVersion. rewrite getxattr_law, Hn. simpl. rewrite Ht. simpl.
  destruct (String.eqb_spec tag ""); [done|]. apply String.eqb_refl.
Qed.

Lemma on_disk_touch p tag now q f : on_disk p tag f -> on_disk p tag (UpdateFileTimestamps now q f).2.
Proof.
  intros (nd & Hn & Ht). unfold UpdateFileTimestamps. destruct (fs_touch now q f) as [r f'] eqn:Hr.
  destruct (touch_law _ _ _ _ _ Hr) as [Ho Hq]. simpl. destruct (decide (p = q)) as [->|Hne].
  - destruct r; [|exists nd; by rewrite Hq]. destruct Hq as (nd0 & Hn0 & Hn'). assert (nd0 = nd) as -> by congruence.
    eexists. split; [exact Hn'|done].
  - exists nd. by rewrite Ho.
Qed.
End OnDisk.

(** What can keep a block on disk from being served: memory that runs out, and the
    local filesystem. *)
Definition local_fault (F : Type) `{LocalFileSystem F} (al : Allocator) (e : exn) : Prop :=
  e = BadAlloc /\ (exists size, posix_memalign_fails al size = true) \/ local_error F e.

Lemma allocation_failure page_size al size e :
  0 < size -> AllocatePageAlignedChunk page_size al size = Throw e -> exists size', posix_memalign_fails al size' = true.
Proof.
  intros Hs. unfold AllocatePageAlignedChunk. rewrite (proj2 (Z.eqb_neq _ 0)) by lia.
  destruct (posix_memalign_fails al _) eqn:Ha; [eauto|done].
Qed.

Section Serving.
Context `{SU : StringUtil} `{SL : !StringUtilLaws}.
Context {F : Type} `{FS : LocalFileSystem F} `{FL : !LocalFsLaws F}.
Context {S : Type} `{StorageLaws S}.
Variables (path tag : string) (page_size : Z) (al : Allocator).
Variable remote_read : Z -> Z -> Res (list byte).
Variable sha256 : string -> list Z.
Variable uuid : CacheReadChunk -> string.
Variable path_info : RemoteFileCachePathInfo.
Variable CanAccessFile : string -> bool.
Variable rnd : QArith_base.Q -> QArith_base.Q.
Variable config : InstanceConfig.
Variable wall : Z -> Z.
Variable content : string -> string -> list byte.
Variable remote : string -> Prop.

#[local] Abbreviation dirs := (on_disk_cache_directories config).
#[local] Abbreviation file := (content path tag).
#[local] Abbreviation file_size := (Z.of_nat (length file)).
#[local] Abbreviation shared := (@disk_shared F S).
#[local] Abbreviation cache_ok := (cache_ok sha256 config content remote).

Hypothesis immutable : forall t, content path t = file.
Hypothesis page_pos : 0 < page_size.
Hypothesis file_fits : file_size + page_size < two64.
Hypothesis digest_bytes : forall s, Forall is_byte (sha256 s).
Hypothesis no_collision : forall a b, hashed sha256 dirs remote a -> hashed sha256 dirs remote b -> sha256 a = sha256 b -> a = b.
Hypothesis in_use : remote path.
Hypothesis info_ok : path_info_of sha256 dirs path = Ok path_info.
Hypothesis uuids : forall c, is_uuid (uuid c).
Hypothesis dirs_unique : NoDup dirs.

Variables (cs : list CacheReadChunk) (start n : Z).
Hypothesis Hrange : 0 <= start /\ start + n <= file_size.
Hypothesis Htiles : tiles file_size cs start 0 (start + n).

Definition block_file (c : CacheReadChunk) : string := published_path sha256 path_info (aligned_start_offset c) (chunk_size c).
Definition blocks_on_disk (f : F) : Prop := forall c, c ∈ cs -> on_disk (block_file c) tag f.
Hypothesis accessible : forall c, c ∈ cs -> CanAccessFile (block_file c) = true.

(** Where a sub-read stands that has not asked for the remote file. *)
Definition local_path (t : disk_task) : Prop :=
  match t with
  | DMiss _ _ | DFetched _ _ _ | DStore _ _ _ | DTouch _ _ _ false | DMemPut _ _ false => False
  | DFailed _ e => local_fault F al e
  | _ => True
  end.

(** A profile event of a read served from the memory layer or from a cache file. *)
Definition served_locally (ev : profile_event) : Prop :=
  ev = RecordOperation kDiskCacheRead \/ exists bytes, ev = RecordCacheAccess kData kCacheHit bytes.

#[local] Abbreviation step := (disk_step path tag page_size al remote_read sha256 uuid path_info CanAccessFile rnd config wall).
#[local] Abbreviation offline :=
  (disk_step path tag page_size al (fun _ _ => Throw BadAlloc) sha256 uuid path_info CanAccessFile rnd config wall).

Lemma local_step_offline now t (g : shared) : local_path t -> step now t g = offline now t g.
Proof. by destruct t. Qed.

Record serving (g0 : shared) (ts : list disk_task) (g : shared) : Prop := {
  sv_disk : blocks_on_disk (d_files g);
  sv_events : exists served, d_profile g = d_profile g0 ++ served /\ Forall served_locally served;
  sv_tasks : forall t, t ∈ ts -> local_path t;
  sv_run : run offline (fun _ _ => False) (DStart <$> cs) g0 ts g
}.

Definition events_local (g g' : shared) : Prop :=
  exists served, d_profile g' = d_profile g ++ served /\ Forall served_locally served.

Lemma events_local_refl (g g' : shared) : d_profile g' = d_profile g -> events_local g g'.
Proof. intros E. exists []. by rewrite E, app_nil_r. Qed.

Lemma events_local_one (g g' : shared) ev : served_locally ev -> d_profile g' = d_profile g ++ [ev] -> events_local g g'.
Proof. intros Hev E. exists [ev]. split; [done|by constructor]. Qed.

#[local] Abbreviation disk_ok := (disk_ok sha256 config content remote n).
#[local] Abbreviation task_ok := (disk_task_ok path tag (fun _ _ => Throw BadAlloc) sha256 uuid path_info content cs).

(** A turn of a sub-read that finds its block stays local. *)
Lemma local_step i t (g : shared) now :
  disk_ok g -> task_ok i t g -> blocks_on_disk (d_files g) -> local_path t ->
  local_path (step now t g).1 /\ blocks_on_disk (d_files (step now t g).2) /\ events_local g (step now t g).2.
Proof.
  intros Hg [Hi Ht] Hd Hl. pose proof Hg as [_ (Hm & Hf & Hx)].
  assert (disk_chunk t ∈ cs) as Hin by (by eapply list_elem_of_lookup_2).
  pose proof (tiles_lookup _ _ _ _ _ _ _ Htiles Hi) as Hc.
  assert (forall dest, dest_ok sha256 uuid path_info (disk_chunk t) dest ->
    dest_local_filepath dest = block_file (disk_chunk t)) as Hname by (by intros dest []).
  destruct t as [c|c ch|c dest|c dest handle|c dest handle|c dest ch|c dest ch [|]|c dest|c dest ch|c dest ch|c ch [|]|c|c e];
    try done; simpl in Hi, Hin, Ht, Hc, Hname; simpl.
  - destruct (chunk_dest_ok path tag page_size sha256 uuid path_info config content page_pos file_fits info_ok uuids cs start n
      Htiles i c Hi) as (dest & -> & Hdest).
    assert (local_path (after_file CanAccessFile c dest)) as Hnext.
    { unfold after_file. by rewrite (Hname dest Hdest), accessible. }
    destruct (d_mem g) as [s|]; [|split; [done|split; [done|by apply events_local_refl]]].
    destruct (Get now (block_key path c) tag s) as [[ch|] s']; (split; [done|split; [done|]]).
    + eapply events_local_one; [right; by eexists|done].
    + by apply events_local_refl.
  - destruct Ht as [t0 He]. unfold disk_copy.
    destruct (disk_copy_good path tag page_size sha256 config content remote page_pos file_fits cs start n Hrange Htiles i
      (DMemHit c ch) c ch t0 g Hi eq_refl Hg He) as (b & -> & _).
    split; [done|split; [done|by apply events_local_refl]].
  - rewrite (Hname dest Ht).
    pose proof (on_disk_opens (direct_io (enable_disk_reader_mem_cache config) page_size (chunk_size c)) _ _ _ (Hd c Hin)) as Ho.
    destruct (fs_open _ _ (d_files g)) as [[handle|]|e].
    + split; [done|split; [done|by apply events_local_refl]].
    + by destruct Ho.
    + split; [by right|split; [done|]]. eapply events_local_one; [by left|done].
  - destruct Ht as [Hdest _]. rewrite (Hname dest Hdest), (on_disk_valid _ _ _ (Hd c Hin)).
    split; [done|split; [done|by apply events_local_refl]].
  - destruct Ht as [Hdest ->].
    pose proof (read_handle_good path tag page_size al content page_pos file_fits cs start n Htiles i c (d_files g) Hi) as Hr.
    destruct (read_content_of page_size al _ (chunk_size c) (d_files g)) as [ch|e].
    + split; [done|split]; [intros d Hdin; by apply on_disk_touch, Hd|]. eapply events_local_one; [right; by eexists|done].
    + split; [|split; [done|by eapply events_local_one; [left|]]].
      destruct Hr as [[-> Ha]|He]; [left|by right]. split; [done|]. eapply allocation_failure; [|exact Ha]. lia.
  - destruct Ht as [Hdest He].
    destruct (disk_copy_good path tag page_size sha256 config content remote page_pos file_fits cs start n Hrange Htiles i
      (DFileHit c dest ch) c ch tag g Hi eq_refl Hg He) as (b & -> & _).
    split; [done|split; [done|by apply events_local_refl]].
  - destruct (_ && _); [|split; [done|split; [done|by apply events_local_refl]]]. unfold UpsertCacheFileAccessTimestamp.
    destruct (upsert_ok (wall now) (dest_local_filepath dest) (d_index g) Hx) as (ix' & -> & _).
    split; [done|split]; [intros d Hdin; by apply on_disk_touch, Hd|by apply events_local_refl].
  - assert (forall g' : shared, d_profile g' = d_profile g -> d_files g' = d_files g ->
      blocks_on_disk (d_files (end_file_read true g')) /\ events_local g (end_file_read true g')) as Hend.
    { intros g' E1 E2. simpl. rewrite E2. split; [done|]. eapply events_local_one; [by left|]. simpl. by rewrite E1. }
    destruct (d_mem g) as [s|] eqn:Hs; [|split; [done|by apply Hend]]. destruct Ht as [He _].
    destruct (memory_put_good path tag content cs i c ch now s Hi He Hm) as (s' & -> & _). split; [done|by apply Hend].
  - split; [done|split; [done|by apply events_local_refl]].
  - split; [done|split; [done|by apply events_local_refl]].
Qed.

Lemma serving_all_ok g0 ts (g : shared) : disk_ok g0 -> serving g0 ts g -> all_ok disk_ok task_ok ts g.
Proof.
  intros H0' [_ _ _ Hrun].
  refine (disk_reachable path tag page_size al (fun _ _ => Throw BadAlloc) sha256 uuid path_info CanAccessFile rnd config wall
    content remote _ immutable page_pos file_fits digest_bytes no_collision in_use info_ok uuids dirs_unique cs start n Hrange
    Htiles (fun _ _ => False) _ g0 ts g H0' Hrun); done.
Qed.

Lemma serving_step g0 ts (g : shared) i t now :
  disk_ok g0 -> serving g0 ts g -> ts !! i = Some t -> serving g0 (<[i := (step now t g).1]> ts) (step now t g).2.
Proof.
  intros Hg0 Hs Hi. pose proof (serving_all_ok g0 ts g Hg0 Hs) as [Hok Hall]. destruct Hs as [Hd (evs & Hevs & Hsv) Hl Hrun].
  assert (local_path t) as Ht by (apply Hl; by eapply list_elem_of_lookup_2).
  destruct (local_step i t g now Hok (Hall i t Hi) Hd Ht) as (Hl' & Hd' & new & Hnew & Hsv').
  constructor; [done| | |].
  - exists (evs ++ new). split; [by rewrite Hnew, Hevs, app_assoc|by apply Forall_app].
  - intros u [->|Hu]%elem_of_task_insert; [done|by apply Hl].
  - rewrite local_step_offline by done. eapply run_task; [done..|by apply surjective_pairing].
Qed.

(** Reading blocks that are on disk. *)
Definition served (ts : list disk_task) (g g' : shared) : Prop :=
  Forall (fun t => disk_finished t = true) ts /\
  match DiskWaitAll ts with
  | Ok _ => ts = DFinished <$> cs /\ d_buffer g' = slice file start n
  | Throw e => local_fault F al e
  end /\
  cache_ok g' /\ blocks_on_disk (d_files g') /\ events_local g g'.

Lemma served_from_disk sch (g : shared) :
  disk_ok g -> blocks_on_disk (d_files g) -> (forall i, (i < length cs)%nat -> (9 <= turns i sch)%nat) ->
  let '(ts, g') := run_schedule step sch (DStart <$> cs) g in served ts g g'.
Proof.
  intros Hg Hd Hturns.
  assert (serving g (run_schedule step sch (DStart <$> cs) g).1 (run_schedule step sch (DStart <$> cs) g).2) as Hs.
  { apply (schedule_inv step (serving g)); [intros; by apply serving_step|]. constructor; [done| | |constructor].
    - by apply events_local_refl.
    - by intros t [c [-> _]]%list_elem_of_fmap. }
  pose proof (run_schedule_measure step disk_measure
    (disk_step_measure path tag page_size al remote_read sha256 uuid path_info CanAccessFile rnd config wall) sch (DStart <$> cs) g) as Hm.
  destruct (run_schedule step sch (DStart <$> cs) g) as [ts g']. cbn [fst snd] in *.
  pose proof (serving_all_ok g ts g' Hg Hs) as [Hok Hall]. destruct Hs as [Hd' Hev Hl Hrun].
  pose proof (run_length _ _ _ _ _ _ Hrun) as Hlen. rewrite length_fmap in Hlen.
  assert (forall i c, cs !! i = Some c -> exists t, ts !! i = Some t /\ disk_finished t = true /\ disk_chunk t = c) as Hts.
  { intros i c Hi. destruct (Hm i (DStart c)) as (t' & Ht' & H0m).
    { by rewrite list_lookup_fmap, Hi. }
    { apply Hturns. by eapply lookup_lt_Some. }
    exists t'. destruct (Hall i t' Ht') as [Hci _]. split; [done|]. split; [by destruct t'|congruence]. }
  assert (Forall (fun t => disk_finished t = true) ts) as Hfin.
  { apply Forall_lookup. intros i t Hi. destruct (lookup_lt_is_Some_2 cs i) as [c Hc]; [apply lookup_lt_Some in Hi; lia|].
    destruct (Hts i c Hc) as (t' & Ht' & Hf & _). congruence. }
  split; [done|]. split; [|split; [apply Hok|done]].
  destruct (first_failure_cases disk_result ts) as [(t & e & Hin & Hr & Hw)|[Hw Hnone]];
    unfold DiskWaitAll; unfold first_failure in Hw; rewrite Hw.
  { specialize (Hl t Hin). destruct t; simplify_eq/=. done. }
  split.
  - apply list_eq. intros i. rewrite list_lookup_fmap. destruct (cs !! i) as [c|] eqn:Hi.
    + destruct (Hts i c Hi) as (t & Ht & Hf & Hc). rewrite Ht. pose proof (list_elem_of_lookup_2 _ _ _ Ht) as Hin.
      specialize (Hnone t Hin). destruct t; simplify_eq/=. done.
    + apply lookup_ge_None in Hi. apply lookup_ge_None. lia.
  - destruct (DiskRunChunks_correct path tag page_size al (fun _ _ => Throw BadAlloc) sha256 uuid path_info CanAccessFile rnd config
      wall content remote (fun _ _ _ _ _ _ E => ltac:(discriminate E)) immutable page_pos file_fits digest_bytes no_collision in_use
      info_ok uuids dirs_unique cs start n Hrange Htiles (fun _ _ => False) (fun _ _ E => False_ind _ E) g (Ok tt) g' Hg) as [_ Hb];
      [|exact Hb].
    by exists ts.
Qed.
End Serving.

(** ** Properties *)
Section Survival.
Context `{SU : StringUtil} `{SL : !StringUtilLaws}.
Context {F : Type} `{FS : LocalFileSystem F} `{FL : !LocalFsLaws F}.
Context {S : Type} `{StorageLaws S}.

(** C4: The disk cache outlives the process.  When the blocks of a request are in the cache
    directories, of the right version, the on-disk reader serves the request from there, from
    any correct state of its memory layer and its access index (empty ones, after a restart) and
    however the sub-reads are scheduled: every sub-read ends, and either all of them succeed and
    the buffer holds the bytes of the file, or the read throws because memory ran out or the
    local filesystem threw.  The remote filesystem is not asked (it is arbitrary), every profile
    event is a cache hit or a read of a cache file, the caches stay correct and the blocks stay on
    disk.  The remote file does not change: all its versions have the same bytes. *)
Theorem disk_cache_outlives_the_process path handle_tag page_size al remote_read sha256 uuid CanAccessFile rnd config wall
    content remote start n info cs total sch (g : @disk_shared F S) :
  let tag := disk_version_tag handle_tag config in
  let dirs := on_disk_cache_directories config in
  let file := content path tag in
  let file_size := Z.of_nat (length file) in
  (forall t, content path t = file) ->
  0 < page_size -> file_size + page_size < two64 ->
  (forall s, Forall is_byte (sha256 s)) ->
  (forall a b, hashed sha256 dirs remote a -> hashed sha256 dirs remote b -> sha256 a = sha256 b -> a = b) ->
  remote path -> (forall c, is_uuid (uuid c)) -> NoDup dirs ->
  0 < cache_block_size config -> file_size + cache_block_size config < two64 ->
  0 <= start -> 0 < n -> start + n <= file_size ->
  Z.of_nat (length (d_buffer g)) = n -> cache_ok sha256 config content remote g ->
  BuildRemoteFileCachePathInfo sha256 dirs path = Ok info ->
  PlanFixedBlocks start n file_size (cache_block_size config) = Some (cs, total) ->
  blocks_on_disk tag sha256 info cs (d_files g) ->
  (forall c, c ∈ cs -> CanAccessFile (block_file sha256 info c) = true) ->
  (forall i, (i < length cs)%nat -> (9 <= turns i sch)%nat) ->
  let '(ts, g') := run_schedule (disk_step path tag page_size al remote_read sha256 uuid info CanAccessFile rnd config wall) sch
                     (DStart <$> cs) g in
  Forall (fun t => disk_finished t = true) ts /\
  match DiskWaitAll ts with
  | Ok _ => ts = DFinished <$> cs /\ d_buffer g' = slice file start n
  | Throw e => e = BadAlloc /\ (exists size, posix_memalign_fails al size = true) \/ local_error F e
  end /\
  cache_ok sha256 config content remote g' /\ blocks_on_disk tag sha256 info cs (d_files g') /\ events_local g g'.
Proof.
  intros tag dirs file file_size Himm Hpage Hfit Hby Hcol Huse Huu Hdirs Hbs Hfit2 Hs Hn He Hb Hc Hinfo Hp Hd Hacc Hturns.
  destruct (PlanFixedBlocks_ok start n file_size (cache_block_size config)) as (cs' & total' & Hp' & Ht & _); [lia..|].
  assert (cs' = cs) as -> by congruence.
  exact (served_from_disk path tag page_size al remote_read sha256 uuid info CanAccessFile rnd config wall content remote Himm Hpage
    Hfit Hby Hcol Huse Hinfo Huu Hdirs cs start n (conj Hs He) Ht Hacc sch g (conj Hb Hc) Hd Hturns).
Qed.
End Survival.

(** ** Witness: the read of [DiskReaderProofs], a restart, and the read again without a remote *)
Lemma disk_end_ok : cache_ok plain_digest disk_config sample_content (fun _ => True) disk_end.
Proof.
  destruct (DiskReadAndCache_ok disk_remote_path "" 16 sample_allocator (fun nr loc => Ok (slice sample_file loc nr)) plain_digest
    (fun _ => sample_uuid) (fun _ => true) (fun q => q) disk_config id (fun _ _ => False) sample_content (fun _ => True)
    3 5 disk_start (Ok tt) disk_end) as [Hok _]; [..|exact Hok].
  1: by intros nr loc bytes _ _ _ [= <-].
  1: done.
  1: lia.
  1: vm_compute; reflexivity.
  1: apply plain_digest_bytes.
  1: intros a b _ _; apply plain_digest_inj.
  1: exact I.
  1: intros _; apply sample_uuid_ok.
  1: apply disk_directories.
  1: by intros ? ? [].
  1: vm_compute; reflexivity.
  1: vm_compute; reflexivity.
  1: lia.
  1: lia.
  1: vm_compute; discriminate.
  1: reflexivity.
  1: apply disk_start_ok.
  apply disk_sample_read.
Qed.

Definition restarted : @disk_shared disk ExtensionBoundedDataCacheStorage.storage :=
  MkDiskShared (replicate 5 x00) (Some (ExtensionBoundedDataCacheStorage.new_storage 64 0)) (d_files disk_end) no_access [].

Lemma restarted_ok : cache_ok plain_digest disk_config sample_content (fun _ => True) restarted.
Proof. split; [apply sample_start_ok|]. split; [apply disk_end_ok|apply index_ok_empty]. Qed.

Definition served_again :=
  run_schedule (disk_step (F := disk) (S := ExtensionBoundedDataCacheStorage.storage) disk_remote_path "" 16 sample_allocator
    (fun _ _ => Throw IOException) plain_digest (fun _ => sample_uuid) disk_info (fun _ => true) (fun q => q) disk_config id)
    turn_schedule (DStart <$> sample_chunks) restarted.

(** Neither the allocator nor the filesystem of the sample ever fails. *)
Lemma sample_no_fault e : ~ local_fault disk sample_allocator e.
Proof. intros [[_ [size Hs]]|He]; [done|by apply disk_no_error in He]. Qed.

Lemma disk_cache_outlives_the_process_witness :
  served_again.1 = DFinished <$> sample_chunks /\ d_buffer served_again.2 = slice sample_file 3 5.
Proof.
  pose proof (disk_cache_outlives_the_process disk_remote_path "" 16 sample_allocator (fun _ _ => Throw IOException) plain_digest
    (fun _ => sample_uuid) (fun _ => true) (fun q => q) disk_config id sample_content (fun _ => True) 3 5 disk_info sample_chunks 8
    turn_schedule restarted) as Hs.
  cbv zeta in Hs. change (disk_version_tag "" disk_config) with ""%string in Hs.
  change (sample_content disk_remote_path "") with sample_file in Hs. fold served_again in Hs.
  destruct served_again as [ts g']. cbn [fst snd]. destruct Hs as (_ & Hout & _); [..|destruct (DiskWaitAll ts) as [|e]; [exact Hout|destruct (sample_no_fault e Hout)]].
  1: done.
  1: lia.
  1: vm_compute; reflexivity.
  1: apply plain_digest_bytes.
  1: intros a b _ _; apply plain_digest_inj.
  1: exact I.
  1: intros _; apply sample_uuid_ok.
  1: apply disk_directories.
  1: vm_compute; reflexivity.
  1: vm_compute; reflexivity.
  1: lia.
  1: lia.
  1: vm_compute; discriminate.
  1: reflexivity.
  1: exact restarted_ok.
  1: vm_compute; reflexivity.
  1: vm_compute; reflexivity.
  1: { intros c Hc. unfold on_disk. repeat (apply elem_of_cons in Hc as [->|Hc]; [eexists; split; [vm_compute; reflexivity|by left]|]). by apply elem_of_nil in Hc. }
  1: reflexivity.
  intros i Hi. destruct i as [|[|i]]; [vm_compute; lia|vm_compute; lia|simpl in Hi; lia].
Defined.
