(* ===== verification/PooledDiskRead.v ===== *)
(** * PooledDiskRead

    A read of the on-disk reader whose sub-reads run on the thread pool: total correctness of
    [DiskReader] over [ThreadPool], as [PooledRead] is of [InMemReader]. *)
From S2P Require Import Prelude Tasks ThreadPool ThreadPoolProofs IoOperations CppString StringUtil Blocks ReadPlan DataStorage ExtensionStorage.
From S2P Require Import InMemReader LocalFs Config FilesystemUtils DiskCacheUtil AccessIndex DiskCacheProofs DiskNames InstanceConfig DiskReader DiskReaderProofs.
From Stdlib Require QArith.QArith_base.

#[local] Open Scope Z_scope.

Section PooledDiskRead.
Context `{SL : StringUtilLaws} {F : Type} `{FS : LocalFileSystem F} `{FL : !LocalFsLaws F}.
Context {S : Type} `{DS : InMemoryDataCacheStorage S} `{DL : !StorageLaws S}.
Variables (path handle_tag : string) (page_size : Z) (al : Allocator) (remote_read : Z -> Z -> Res (list byte)).
Variables (sha256 : string -> list Z) (uuid : CacheReadChunk -> string) (CanAccessFile : string -> bool).
Variables (rnd : QArith_base.Q -> QArith_base.Q) (config : InstanceConfig) (wall : Z -> Z).
Implicit Types (g : @disk_shared F S) (cs : list CacheReadChunk).

#[local] Abbreviation tag := (disk_version_tag handle_tag config).
#[local] Abbreviation dirs := (on_disk_cache_directories config).
#[local] Abbreviation step info :=
  (disk_step path tag page_size al remote_read sha256 uuid info CanAccessFile rnd config wall).

Lemma disk_unfinished_decreases info now t g :
  disk_finished t = false -> (disk_measure (step info now t g).1 < disk_measure t)%nat.
Proof.
  intros Hf. pose proof (disk_step_measure path tag page_size al remote_read sha256 uuid info CanAccessFile rnd config wall now t g).
  by destruct t; simpl in *; try lia.
Qed.

Lemma start_measure cs : sum_list_with disk_measure (DStart <$> cs) = (9 * length cs)%nat.
Proof. induction cs as [|c cs IH]; [done|]. rewrite fmap_cons. cbn [sum_list_with disk_measure length]. rewrite IH. lia. Qed.

(** What the owner of the pool returns is what the interleaved sub-reads give. *)
Lemma pool_disk_chunks env info n cs g ts p r :
  Z.of_nat n < two64 ->
  run (actor_step (step info) disk_finished disk_result) (disturb env) (executor n (DStart <$> cs)) (new_pool n g) ts p ->
  ts !! 0%nat = Some (Owner (Returned r)) ->
  DiskRunChunks path tag page_size al remote_read sha256 uuid info CanAccessFile rnd config wall env cs g r (ThreadPool.shared p).
Proof.
  intros Hn Hrun Ho. destruct (pool_returns _ _ _ env n _ g ts p r Hn Hrun Ho) as (Hr & Hf & -> & _). by exists (tasks p).
Qed.

(** C5: A read of the on-disk reader on the thread pool is total and correct.  The cache path of the
    file and the plan of the read exist; and in every schedule of 4n + 7 + 16k rounds of the owner and
    n workers, k being the number of sub-reads, the owner returns from WaitAll and joins the pool,
    with the requested bytes of the file in the caller's buffer, or with an exception of the
    allocator, of the remote filesystem or of the local filesystem ([Terminated] standing for a
    process that ended because a temporary file resisted its removal); memory layer, cache files
    and access index are correct afterwards.  The remote file does not change: all its versions
    have the same bytes. *)
Theorem pooled_disk_read_returns content remote start n threads rounds g :
  let file := content path tag in
  let file_size := Z.of_nat (length file) in
  (forall nr loc bytes, 0 <= loc -> 0 < nr -> loc + nr <= file_size ->
     remote_read nr loc = Ok bytes -> bytes = slice file loc nr) ->
  (forall t, content path t = file) ->
  0 < page_size -> file_size + page_size < two64 ->
  (forall s, Forall is_byte (sha256 s)) ->
  (forall a b, hashed sha256 dirs remote a -> hashed sha256 dirs remote b -> sha256 a = sha256 b -> a = b) ->
  remote path -> (forall c, is_uuid (uuid c)) -> valid_directories dirs ->
  0 < cache_block_size config -> file_size + cache_block_size config < two64 ->
  0 <= start -> 0 < n -> start + n <= file_size ->
  Z.of_nat (length (d_buffer g)) = n -> cache_ok sha256 config content remote g ->
  (0 < threads)%nat -> Z.of_nat threads < two64 -> Forall (fun sch => round sch (Datatypes.S threads)) rounds ->
  exists info cs total, BuildRemoteFileCachePathInfo sha256 dirs path = Ok info /\
    PlanFixedBlocks start n file_size (cache_block_size config) = Some (cs, total) /\
    ((4 * threads + 7 + 16 * length cs <= length rounds)%nat ->
     let '(ts, p) := run_schedule (actor_step (step info) disk_finished disk_result)
                       (concat rounds) (executor threads (DStart <$> cs)) (new_pool threads g) in
     exists r, ts !! 0%nat = Some (Owner (Returned r)) /\ cache_ok sha256 config content remote (ThreadPool.shared p) /\
       match r with
       | Ok _ => d_buffer (ThreadPool.shared p) = slice file start n
       | Throw e => e = BadAlloc \/ (exists nr loc, remote_read nr loc = Throw e) \/ local_failure F e
       end).
Proof.
  intros file file_size Hremote Himm Hpage Hfit Hby Hcol Huse Huu Hdirs Hbs Hfit2 Hs Hn He Hbuf Hc Ht Ht64 Hrounds.
  destruct (path_info_exists sha256 dirs path Hdirs) as [info Hinfo].
  destruct (PlanFixedBlocks_ok start n file_size (cache_block_size config)) as (cs & total & Hp & Htiles & _); [lia..|].
  exists info, cs, total. split; [exact Hinfo|]. split; [done|]. intros Hlen.
  pose proof (run_schedule_run (actor_step (step info) disk_finished disk_result)
    (disturb (fun _ _ => False)) (concat rounds) (executor threads (DStart <$> cs)) (new_pool threads g)) as Hrun.
  destruct (pool_ends (step info) disk_finished disk_result disk_measure (disk_unfinished_decreases info) threads
    (DStart <$> cs) g rounds) as [r Hr]; [done..| |].
  { rewrite start_measure, length_fmap. lia. }
  destruct (run_schedule _ _ _ _) as [ts p] eqn:E. simpl in Hr, Hrun. exists r. split; [done|].
  pose proof (pool_disk_chunks (fun _ _ => False) info threads cs g ts p r Ht64 Hrun Hr) as Hrc.
  destruct (DiskRunChunks_correct path tag page_size al remote_read sha256 uuid info CanAccessFile rnd config wall content
    remote Hremote Himm Hpage Hfit Hby Hcol Huse Hinfo Huu (proj1 (proj2 Hdirs)) cs start n (conj Hs He) Htiles
    (fun _ _ => False) (fun _ _ => False_ind _) g r _ (conj Hbuf Hc) Hrc) as [Hok Hout].
  split; [exact Hok|]. destruct r; [exact Hout|]. by destruct Hout as [[?|?]|?]; auto.
Qed.
End PooledDiskRead.

(** ** Witness: the sample of [DiskReaderProofs] on two workers *)
Definition pool_rounds : list (list (nat * Z)) :=
  concat (replicate 25 [[(0%nat, 0); (1%nat, 1); (2%nat, 2)]; [(0%nat, 3); (2%nat, 4); (1%nat, 5)]]).
Lemma pool_rounds_fair : Forall (fun sch => round sch 3) pool_rounds.
Proof.
  apply (Forall_impl (fun sch => is_round 3 sch = true)); [|apply is_round_spec].
  apply Forall_forall. intros sch Hs%list_elem_of_In. revert sch Hs. apply forallb_forall. vm_compute. reflexivity.
Qed.

Definition pooled_disk_end :=
  run_schedule (actor_step (disk_sample_step disk_remote_path "" sample_file) disk_finished disk_result)
    (concat pool_rounds) (executor 2 (DStart <$> sample_chunks)) (new_pool 2 disk_start).

Lemma pooled_disk_read_returns_witness :
  pooled_disk_end.1 !! 0%nat = Some (Owner (Returned (Ok tt))) /\
  cache_ok plain_digest disk_config sample_content (fun _ => True) (ThreadPool.shared pooled_disk_end.2) /\
  d_buffer (ThreadPool.shared pooled_disk_end.2) = slice sample_file 3 5.
Proof.
  assert (pooled_disk_end.1 !! 0%nat = Some (Owner (Returned (Ok tt)))) as H0 by (vm_compute; reflexivity).
  split; [exact H0|].
  destruct (pooled_disk_read_returns disk_remote_path "" 16 sample_allocator (fun nr loc => Ok (slice sample_file loc nr))
    plain_digest (fun _ => sample_uuid) (fun _ => true) (fun q => q) disk_config id sample_content (fun _ => True) 3 5 2
    pool_rounds disk_start) as (info & cs & total & Hi & Hp & Hret);
    [intros nr loc bytes _ _ _ [= <-]; reflexivity|reflexivity|lia|vm_compute; reflexivity|apply plain_digest_bytes|
     intros a b _ _; apply plain_digest_inj|exact I|intros _; apply sample_uuid_ok|apply disk_directories|
     vm_compute; reflexivity|vm_compute; reflexivity|lia|lia|vm_compute; discriminate|reflexivity|
     apply disk_start_ok|lia|lia|exact pool_rounds_fair|].
  assert (Hinfo : BuildRemoteFileCachePathInfo plain_digest (on_disk_cache_directories disk_config) disk_remote_path = Ok disk_info)
    by (vm_compute; reflexivity).
  rewrite Hinfo in Hi. injection Hi as <-.
  change (PlanFixedBlocks 3 5 (Z.of_nat (length (sample_content disk_remote_path (disk_version_tag "" disk_config))))
    (cache_block_size disk_config)) with (Some (sample_chunks, 8)) in Hp.
  injection Hp as <- <-. specialize (Hret ltac:(vm_compute; lia)).
  change (disk_version_tag "" disk_config) with ""%string in Hret.
  revert H0 Hret. unfold pooled_disk_end, disk_sample_step. destruct (run_schedule _ _ _ _) as [ts p]. simpl.
  intros H0 (r & Hr & Hc & Hb). rewrite H0 in Hr. injection Hr as <-. by split.
Defined.
