(* ===== verification/DiskMaintenance.v ===== *)
(** * DiskMaintenance

    Clearing the disk cache: everything, or the blocks of one remote file. *)
From S2P Require Import Prelude CppString StringUtil OrdMap Blocks DataStorage.
From S2P Require Import InMemReader LocalFs FilesystemUtils DiskCacheUtil AccessIndex DiskCacheProofs DiskNames.
From S2P Require Import LruCache LruSpec ExtensionStorage InstanceConfig DiskReader DiskReaderProofs.
From Stdlib Require Import Strings.Ascii.

#[local] Open Scope Z_scope.

Section Removal.
Context {F : Type} `{FS : LocalFileSystem F} `{FL : !LocalFsLaws F}.
Implicit Types (f : F).

(** The removals touch the given files only; without a failure all of them are gone, with
    one each of them is gone or as it was. *)
Lemma remove_files_ok l f r f' :
  remove_files l f = (r, f') ->
  (forall q, q ∉ l -> node f' q = node f q) /\
  (forall q, node f' q = None \/ node f' q = node f q) /\
  match r with Ok _ => forall q, q ∈ l -> node f' q = None | Throw e => local_error F e end.
Proof.
  revert f r. induction l as [|p l IH]; intros f r; simpl.
  { intros [= <- <-]. split; [done|]. split; [by right|]. by intros q Hq%elem_of_nil. }
  destruct (fs_remove p f) as [removed f1] eqn:Hr. destruct (remove_files l f1) as [rest f2] eqn:Hl. intros [= <- <-].
  destruct (IH f1 rest Hl) as (Ho & Hc & Hrest). destruct (remove_law _ _ _ _ Hr) as [Ho1 Hp]. split; [|split].
  - intros q Hq. apply not_elem_of_cons in Hq as [Hq1 Hq2]. by rewrite Ho, Ho1.
  - intros q. destruct (Hc q) as [Hcq|Hcq]; [by left|]. rewrite Hcq. destruct (decide (q = p)) as [->|Hne]; [|right; by apply Ho1].
    destruct removed as [[]|]; [left; apply Hp|left; apply Hp|by right].
  - destruct removed as [b|e]; simpl.
    + destruct rest as [[]|e]; [|done]. intros q Hq. apply elem_of_cons in Hq as [->|Hq]; [|by apply Hrest].
      destruct (Hc p) as [Hcp| ->]; [done|]. by destruct b; destruct Hp.
    + apply (remove_error p f). by rewrite Hr.
Qed.
End Removal.

Lemma remove_timestamps_ok l ix :
  index_ok ix ->
  exists ix', remove_timestamps l ix = (Ok tt, ix') /\ index_ok ix' /\ recency ix' = filter (fun p => p ∉ l) (recency ix).
Proof.
  revert ix. induction l as [|p l IH]; intros ix Hok; simpl.
  { exists ix. rewrite (index_ok_size ix Hok). split; [done|]. split; [done|].
    symmetry. apply filter_all, Forall_forall. intros q _ Hq. by inversion Hq. }
  destruct (Remove_ok p ix Hok) as (ix1 & -> & Hok1 & Hrec & _).
  destruct (IH ix1 Hok1) as (ix2 & H2 & Hok2 & Hrec2). exists ix2. split; [done|]. split; [done|].
  rewrite Hrec2, Hrec. unfold without. rewrite list_filter_filter. apply list_filter_iff. intros q. rewrite elem_of_cons. tauto.
Qed.

Section ClearFile.
Context `{SU : StringUtil} `{SL : !StringUtilLaws}.
Context {F : Type} `{FS : LocalFileSystem F} `{FL : !LocalFsLaws F}.
Context {S : Type} `{StorageLaws S}.
Variable sha256 : string -> list Z.
Variable config : InstanceConfig.
#[local] Abbreviation dirs := (on_disk_cache_directories config).

Lemma elem_of_doomed f p q :
  q ∈ cache_files_to_remove sha256 config f p <->
  exists dir name, dir ∈ dirs /\ name ∈ fs_list dir f /\ StartsWith name (GetLocalCacheFilePrefix sha256 p) = true /\
    q = (dir +:+ "/" +:+ name)%string.
Proof.
  unfold cache_files_to_remove. rewrite list_elem_of_join. split.
  - intros (l & Hq & (dir & -> & Hd)%list_elem_of_fmap). apply list_elem_of_fmap in Hq as (name & -> & Hn).
    apply list_elem_of_filter in Hn as [Hs Hn]. eauto 10.
  - intros (dir & name & Hd & Hn & Hs & ->). eexists. split; [|apply list_elem_of_fmap; by exists dir].
    apply list_elem_of_fmap. exists name. split; [done|]. by apply list_elem_of_filter.
Qed.

(** The file's own blocks that keep their name. *)
Lemma own_block_doomed f p info off n :
  path_info_of sha256 dirs p = Ok info -> is_u64 off -> is_u64 n -> short_enough info off n = true ->
  is_Some (node f (published_path sha256 info off n)) ->
  published_path sha256 info off n ∈ cache_files_to_remove sha256 config f p.
Proof.
  intros Hi Ho Hn Hs Hnode. unfold published_path in *. rewrite Hs in *. apply elem_of_doomed.
  pose proof (block_name_ok sha256 dirs p info off n Hi Ho Hn) as Hname.
  destruct (path_info_fields sha256 dirs p info Hi) as (Hhex & _ & _ & Hdir).
  exists (cache_directory info), (block_file_name (remote_file_sha256_hex info) (sanitized_fname info) off n).
  split; [done|]. split; [by apply list_law|]. split; [|done]. apply StartsWith_law.
  assert (GetLocalCacheFilePrefix sha256 p = (remote_file_sha256_hex info +:+ "-" +:+ sanitized_fname info)%string) as ->.
  { unfold path_info_of, BuildRemoteFileCachePathInfo in Hi. apply bind_Ok in Hi as ([] & _ & Hi).
    unfold PopulateRemoteFileCacheKey in Hi. apply bind_Ok in Hi as (dir & _ & Hi).
    destruct (EndsWith dir "/"); [done|]. injection Hi as <-. done. }
  unfold block_file_name. eexists. by rewrite !append_assoc.
Qed.

(** No block of another file. *)
Lemma other_block_kept f p p' info off n :
  (forall s, Forall is_byte (sha256 s)) -> (sha256 p = sha256 p' -> p = p') -> p <> p' ->
  path_info_of sha256 dirs p' = Ok info -> is_u64 off -> is_u64 n ->
  published_path sha256 info off n ∉ cache_files_to_remove sha256 config f p.
Proof.
  intros Hby Hcol Hne Hi Ho Hn (dir & name & _ & Hname & Hs & He)%elem_of_doomed. apply list_names in Hname.
  apply StartsWith_law in Hs as [rest Hrest]. unfold GetLocalCacheFilePrefix in Hrest. simpl in Hrest.
  rewrite !append_assoc in Hrest. unfold published_path in He. destruct (short_enough info off n).
  - unfold full_path, GetLocalCacheFile in He. simpl in He. apply directory_inj in He as [_ He]; [|by eapply block_name_ok|done].
    rewrite Hrest in He. unfold block_file_name in He. apply first_separator_inj in He as [He _]; [| |by apply hex_string_free].
    + apply Hne, Hcol. destruct (path_info_fields sha256 dirs p' info Hi) as (Hx & _). rewrite Hx in He.
      symmetry. by apply hex_string_inj in He.
    + destruct (path_info_fields sha256 dirs p' info Hi) as (-> & _). by apply hex_string_free.
  - apply directory_inj in He as [_ He]; [|by apply hex_string_free|done].
    assert (dash_free name) as Hd by (rewrite <-He; by apply hex_string_free).
    rewrite Hrest in Hd. apply (free_append "-"%char) in Hd as [_ Hd]. by apply (free_append "-"%char) in Hd as [Hd _].
Qed.

(** The cache files of the directories whose name has the prefix of [p]: digest, dash and
    base name. *)
Definition has_prefix_of (f : F) (p q : string) : Prop :=
  exists dir name, dir ∈ dirs /\ name ∈ fs_list dir f /\
    StartsWith name (GetLocalCacheFilePrefix sha256 p) = true /\ q = (dir +:+ "/" +:+ name)%string.

(** C20: Clearing one remote file from the disk cache deletes by name.  When it returns,
    exactly the files of the cache directories that have the name prefix of the remote file
    are gone, and no other file has changed: every block of the file that is cached under its
    own name is gone, every block of another file in use is untouched (two files in use have
    different digests); every block of the file, and no other, is gone from the memory layer.
    When it throws, the local filesystem refused a removal; some of these files may be left,
    no other file has changed and the memory layer still has the blocks.  In both cases no
    assertion fails, and the access index forgets exactly these files and stays consistent.
    Blocks under a shortened name have no such prefix and stay. *)
Theorem disk_clear_file_exact remote p (g g' : @disk_shared F S) r :
  (forall s, Forall is_byte (sha256 s)) ->
  (forall a b, remote a -> remote b -> sha256 a = sha256 b -> a = b) -> remote p ->
  index_ok (d_index g) -> (forall s, d_mem g = Some s -> storage_ok s) ->
  DiskClearCacheFile sha256 config p g = (r, g') ->
  index_ok (d_index g') /\
  (forall q, q ∈ recency (d_index g') <-> q ∈ recency (d_index g) /\ ~ has_prefix_of (d_files g) p q) /\
  (forall q, ~ has_prefix_of (d_files g) p q -> node (d_files g') q = node (d_files g) q) /\
  (forall q info off n, remote q -> q <> p -> path_info_of sha256 dirs q = Ok info -> is_u64 off -> is_u64 n ->
     ~ has_prefix_of (d_files g) p (published_path sha256 info off n)) /\
  match r with
  | Ok _ =>
      (forall q, has_prefix_of (d_files g) p q -> node (d_files g') q = None) /\
      (forall info off n, path_info_of sha256 dirs p = Ok info -> is_u64 off -> is_u64 n -> short_enough info off n = true ->
         node (d_files g') (published_path sha256 info off n) = None) /\
      (forall s', d_mem g' = Some s' -> exists s, d_mem g = Some s /\ storage_ok s' /\
         forall k e, holds s' k e <-> holds s k e /\ fname k <> p)
  | Throw e => local_error F e /\ d_mem g' = d_mem g
  end.
Proof.
  intros Hby Hcol Hp Hix Hmem. unfold DiskClearCacheFile.
  destruct (remove_timestamps_ok (cache_files_to_remove sha256 config (d_files g) p) (d_index g) Hix) as (ix' & -> & Hix' & Hrec).
  destruct (remove_files _ (d_files g)) as [removed f] eqn:Hrm. destruct (remove_files_ok _ _ _ _ Hrm) as (Hother & _ & Hres).
  assert (forall q info off n, remote q -> q <> p -> path_info_of sha256 dirs q = Ok info -> is_u64 off -> is_u64 n ->
     ~ has_prefix_of (d_files g) p (published_path sha256 info off n)) as Hkept.
  { intros q info off n Hq Hne Hi Ho Hn. unfold has_prefix_of. rewrite <-elem_of_doomed.
    apply (other_block_kept (d_files g) p q info off n Hby (Hcol p q Hp Hq) (not_eq_sym Hne) Hi Ho Hn). }
  assert (forall q, q ∈ recency ix' <-> q ∈ recency (d_index g) /\ ~ has_prefix_of (d_files g) p q) as Hidx.
  { intros q. rewrite Hrec, list_elem_of_filter. unfold has_prefix_of. rewrite <-elem_of_doomed. tauto. }
  assert (forall q, ~ has_prefix_of (d_files g) p q -> node f q = node (d_files g) q) as Hsame.
  { intros q Hq. apply Hother. unfold has_prefix_of in Hq. by rewrite <-elem_of_doomed in Hq. }
  destruct removed as [[]|e]; intros [= <- <-]; (split; [done|]); (split; [exact Hidx|]); (split; [exact Hsame|]); (split; [exact Hkept|]); [|done].
  split; [|split].
  - intros q Hq. apply Hres. by apply elem_of_doomed.
  - intros info off n Hi Ho Hn Hs. simpl. destruct (decide (published_path sha256 info off n ∈ cache_files_to_remove sha256 config (d_files g) p)) as [Hd|Hd].
    + by apply Hres.
    + rewrite Hother by done. destruct (node (d_files g) _) as [nd|] eqn:Hnode; [|done]. exfalso. apply Hd. by apply own_block_doomed.
  - intros s' Hs'. simpl in Hs'. destruct (d_mem g) as [s|]; [|done]. injection Hs' as <-. exists s. split; [done|].
    apply ClearFrom_law. auto.
Qed.

Lemma recreate_ok ds f f' :
  recreate_directories ds f = (Ok tt, f') ->
  (forall q n, node f' q = Some n -> node f q = Some n) /\
  forall dir q, dir ∈ ds -> in_directory dir q -> node f' q = None.
Proof.
  revert f. induction ds as [|d ds IH]; intros f; simpl.
  { intros [= <-]. split; [done|]. intros ? ? Hd. by inversion Hd. }
  destruct (fs_remove_directory d f) as [[[]|e] f1] eqn:H1; [|done].
  destruct (fs_create_directory d f1) as [[[]|e] f2] eqn:H2; [|done]. intros Hr.
  destruct (IH _ Hr) as [Hsub Hgone]. destruct (remove_directory_law _ _ _ _ H1) as (_ & Hd & Hs).
  pose proof (create_directory_law _ _ _ _ H2) as Hc. split.
  - intros q n Hq. apply Hs. rewrite <-Hc. by apply Hsub.
  - intros dir q [->|Hin]%elem_of_cons Hq; [|by eapply Hgone].
    destruct (node f' q) as [n|] eqn:Hn; [|done]. apply Hsub in Hn. rewrite Hc, (Hd eq_refl q Hq) in Hn. done.
Qed.

(** Clearing the whole disk cache.  When it returns, no file is left in any cache
    directory, the access index and the memory layer are empty, and nothing was added to
    the filesystem; when the filesystem refuses, the index and the memory layer are as
    they were. *)
Theorem disk_clear_cache_empties (g g' : @disk_shared F S) r :
  (forall s, d_mem g = Some s -> storage_ok s) ->
  DiskClearCache config g = (r, g') ->
  match r with
  | Ok _ =>
      (forall dir q, dir ∈ dirs -> in_directory dir q -> node (d_files g') q = None) /\
      (forall q n, node (d_files g') q = Some n -> node (d_files g) q = Some n) /\
      index_ok (d_index g') /\ recency (d_index g') = [] /\
      (forall s k e, d_mem g' = Some s -> ~ holds s k e)
  | Throw _ => d_index g' = d_index g /\ d_mem g' = d_mem g
  end.
Proof.
  intros Hmem. unfold DiskClearCache. destruct (recreate_directories dirs (d_files g)) as [[[]|e] f] eqn:Hr; intros [= <- <-]; [|done].
  destruct (recreate_ok _ _ _ Hr) as [Hsub Hgone]. split; [done|]. split; [done|]. split; [apply index_ok_empty|]. split; [done|].
  intros s k e Hs. simpl in Hs. destruct (d_mem g) as [s0|]; [|done]. injection Hs as <-. by apply Clear_law; auto.
Qed.
End ClearFile.

(** ** Witnesses *)
Definition cached_state : @disk_shared disk ExtensionBoundedDataCacheStorage.storage := set_files disk_start (d_files disk_end).

Lemma disk_clear_file_exact_witness :
  fs_list "/c" (d_files cached_state) <> [] /\
  exists g', DiskClearCacheFile plain_digest disk_config disk_remote_path cached_state = (Ok tt, g') /\
    index_ok (d_index g') /\ forall q, has_prefix_of plain_digest disk_config (d_files cached_state) disk_remote_path q ->
      node (d_files g') q = None.
Proof.
  split; [vm_compute; discriminate|].
  destruct (DiskClearCacheFile plain_digest disk_config disk_remote_path cached_state) as [r g'] eqn:He.
  destruct (disk_clear_file_exact plain_digest disk_config (fun _ => True) disk_remote_path cached_state g' r)
    as (Hix & _ & _ & _ & Hr).
  - apply plain_digest_bytes.
  - intros a b _ _. apply plain_digest_inj.
  - exact I.
  - apply index_ok_empty.
  - intros s [= <-]. apply sample_start_ok.
  - exact He.
  - clear He. destruct r as [[]|e]; [|destruct (disk_no_error e (proj1 Hr))].
    exists g'. split; [reflexivity|]. split; [exact Hix|]. exact (proj1 Hr).
Defined.

Lemma disk_clear_cache_empties_witness :
  let '(r, g') := DiskClearCache disk_config cached_state in
  match r with
  | Ok _ =>
      (forall dir q, dir ∈ on_disk_cache_directories disk_config -> in_directory dir q -> node (d_files g') q = None) /\
      (forall q n, node (d_files g') q = Some n -> node (d_files cached_state) q = Some n) /\
      index_ok (d_index g') /\ recency (d_index g') = [] /\
      (forall s k e, d_mem g' = Some s -> ~ holds s k e)
  | Throw _ => d_index g' = d_index cached_state /\ d_mem g' = d_mem cached_state
  end.
Proof.
  destruct (DiskClearCache disk_config cached_state) as [r g'] eqn:He.
  apply (disk_clear_cache_empties disk_config cached_state g' r); [|exact He].
  intros s [= <-]. apply sample_start_ok.
Defined.

(** A block whose name was shortened to its digest does not start with the prefix of its
    remote file: clearing that file leaves it in the cache. *)
Fixpoint repeat_char (n : nat) : string := match n with O => "" | Datatypes.S n => String "x" (repeat_char n) end.
Definition long_remote_path : string := ("s3://b/" +:+ repeat_char 120)%string.
Definition long_state : @disk_shared disk ExtensionBoundedDataCacheStorage.storage :=
  match path_info_of plain_digest ["/c"%string] long_remote_path with
  | Ok info =>
      match chunk_dest long_remote_path plain_digest (fun _ => sample_uuid) info (MkReadChunk 0 0 0 4 4) with
      | Ok dest => set_files disk_start (publish 0 dest (MkChunk (Some old_bytes) 4 16) "" empty_disk).2
      | Throw _ => disk_start
      end
  | Throw _ => disk_start
  end.

Lemma shortened_block_survives_clear :
  length (fs_list "/c" (d_files long_state)) = 1%nat /\
  fs_list "/c" (d_files (DiskClearCacheFile plain_digest disk_config long_remote_path long_state).2) =
  fs_list "/c" (d_files long_state).
Proof. vm_compute. done. Qed.
