(* ===== verification/InstanceState.v ===== *)
(** * InstanceState

    The state of a database instance ([src/src/cache_httpfs_instance_state.cpp],
    [src/src/include/cache_httpfs_instance_state.hpp]): the registry of cache filesystems,
    the profile collectors of the connections, the cache readers, the exclusion list
    ([src/src/cache_exclusion_manager.cpp]) and the settings, with its operations as [Handler]s. *)
From S2P Require Import Prelude StringUtil Blocks DataStorage IoOperations InMemReader LocalFs Config AccessIndex InstanceConfig.
From S2P Require Import DiskReader Profile Handler.
From Stdlib Require QArith.QArith_base.

#[local] Open Scope Z_scope.

(** ** [InstanceCacheFsRegistry]

    A registered filesystem is known by its address. *)
Module InstanceCacheFsRegistry.
Definition registry : Type := gset nat.
Definition Register (fs : nat) (r : registry) : registry := {[fs]} ∪ r.
Definition Unregister (fs : nat) (r : registry) : registry := r ∖ {[fs]}.
Definition GetAllCacheFs (r : registry) : list nat := elements r.
Definition ResetRegistry (_ : registry) : registry := ∅.
End InstanceCacheFsRegistry.

(** ** [InstanceProfileCollectorManager] *)
Module InstanceProfileCollectorManager.

Inductive any_collector :=
| Noop (p : NoopProfileCollector.collector)
| Temp (p : TempProfileCollector.collector).

Record manager := MkProfileManager {
  profile_collectors : gmap Z any_collector;
  default_noop_collector : option NoopProfileCollector.collector
}.
Implicit Types (m : manager) (connection_id : Z).

Definition GetProfilerType (c : any_collector) : string :=
  match c with Noop _ => NOOP_PROFILE_TYPE | Temp _ => TEMP_PROFILE_TYPE end.

Definition ResetAny (c : any_collector) : any_collector :=
  match c with Noop _ => Noop 0 | Temp p => Temp (TempProfileCollector.ResetCollector p) end.

Definition set_collector connection_id (c : any_collector) m : manager :=
  MkProfileManager (<[connection_id := c]> (profile_collectors m)) (default_noop_collector m).

Definition SetProfileCollector connection_id (profile_type : string) m : Res manager :=
  let same := match profile_collectors m !! connection_id with
              | Some c => String.eqb (GetProfilerType c) profile_type
              | None => false
              end in
  if same then Ok m
  else if String.eqb profile_type NOOP_PROFILE_TYPE then Ok (set_collector connection_id (Noop 0) m)
  else if String.eqb profile_type TEMP_PROFILE_TYPE then
    p ← TempProfileCollector.NewCollector; Ok (set_collector connection_id (Temp p) m)
  else Throw InvalidInputException.

(** The collector, and the manager with the default one created. *)
Definition GetProfileCollectorOrDefault connection_id m : any_collector * manager :=
  match profile_collectors m !! connection_id with
  | Some c => (c, m)
  | None => let d := default 0 (default_noop_collector m) in (Noop d, MkProfileManager (profile_collectors m) (Some d))
  end.

Definition GetProfileCollectorOrThrow connection_id m : Res any_collector :=
  of_option InternalException (profile_collectors m !! connection_id).

Definition HasExplicitProfileCollector connection_id m : bool :=
  bool_decide (is_Some (profile_collectors m !! connection_id)).

Definition ResetProfileCollector connection_id m : manager :=
  MkProfileManager (alter ResetAny connection_id (profile_collectors m)) (default_noop_collector m).

Definition RemoveProfileCollector connection_id m : manager :=
  MkProfileManager (delete connection_id (profile_collectors m)) (default_noop_collector m).

Definition GetProfileCollectorCount m : Z := Z.of_nat (size (profile_collectors m)).

(** A call on the reference that [GetProfileCollectorOrDefault] returns. *)
Definition on_collector (f : any_collector -> any_collector) connection_id m : manager :=
  match profile_collectors m !! connection_id with
  | Some c => set_collector connection_id (f c) m
  | None =>
      let '(c, m) := GetProfileCollectorOrDefault connection_id m in
      MkProfileManager (profile_collectors m)
        (match f c with Noop d => Some d | Temp _ => default_noop_collector m end)
  end.
End InstanceProfileCollectorManager.

(** ** [CacheExclusionManager]

    [std::regex] and [std::regex_search] are arguments. *)
Module CacheExclusionManager.
Section Exclusion.
Context {R : Type}.
Variable compile : string -> Res R.
Variable regex_search : string -> R -> bool.

Record exclusions := MkExclusions { exclusion_regexes : list R; exclusion_patterns : list string }.

Definition AddExclusionRegex (regex : string) (x : exclusions) : Res exclusions :=
  r ← compile regex; Ok (MkExclusions (exclusion_regexes x ++ [r]) (exclusion_patterns x ++ [regex])).

Definition ResetExclusionRegex (_ : exclusions) : exclusions := MkExclusions [] [].

Definition MatchAnyExclusion (filepath : string) (x : exclusions) : bool :=
  existsb (regex_search filepath) (exclusion_regexes x).

Definition GetExclusionRegex (x : exclusions) : list string := exclusion_patterns x.
End Exclusion.
Arguments exclusions : clear implicits.
End CacheExclusionManager.

(** ** [InstanceCacheReaderManager] *)

Inductive reader_kind := NoopReader | InMemReaderKind | OnDiskReader.

#[export] Instance reader_kind_eq_dec : EqDecision reader_kind.
Proof. solve_decision. Defined.

Module InstanceCacheReaderManager.
Section Manager.
Context `{StringUtil} {F : Type} `{LocalFileSystem F} {S : Type} `{InMemoryDataCacheStorage S}.
Variable sha256 : string -> list Z.
Variables (page_size : Z) (al : Allocator).

(** [DiskCacheReader]: whether the memory layer has been decided on, the memory layer, and
    the access index; its files are in the local filesystem. *)
Record disk_reader := MkDiskReader { dr_cache_init_flag : bool; dr_mem : option S; dr_index : timestamp_index }.

(** The readers that exist; [in_mem_cache_reader] holds the storage of that reader. *)
Record reader_manager := MkReaderManager {
  noop_cache_reader : bool;
  in_mem_cache_reader : option (option S);
  on_disk_cache_reader : option disk_reader;
  internal_cache_reader : option reader_kind
}.
Implicit Types (m : reader_manager) (config : InstanceConfig) (f : F).

Definition new_disk_reader : disk_reader := MkDiskReader false None no_access.

Definition SetCacheReader config m : reader_manager :=
  if String.eqb (cache_type config) ON_DISK_CACHE_TYPE then
    MkReaderManager (noop_cache_reader m) (in_mem_cache_reader m)
      (Some (default new_disk_reader (on_disk_cache_reader m))) (Some OnDiskReader)
  else if String.eqb (cache_type config) IN_MEM_CACHE_TYPE then
    MkReaderManager (noop_cache_reader m) (Some (default None (in_mem_cache_reader m)))
      (on_disk_cache_reader m) (Some InMemReaderKind)
  else
    MkReaderManager true (in_mem_cache_reader m) (on_disk_cache_reader m) (Some NoopReader).

Definition GetCacheReader m : option reader_kind := internal_cache_reader m.

Definition GetCacheReaders m : list reader_kind :=
  match in_mem_cache_reader m with Some _ => [InMemReaderKind] | None => [] end ++
  match on_disk_cache_reader m with Some _ => [OnDiskReader] | None => [] end.

Definition InitializeDiskCacheReader m : reader_manager :=
  MkReaderManager (noop_cache_reader m) (in_mem_cache_reader m)
    (Some (default new_disk_reader (on_disk_cache_reader m))) (internal_cache_reader m).

Definition set_in_mem (r : option (option S)) m : reader_manager :=
  MkReaderManager (noop_cache_reader m) r (on_disk_cache_reader m) (internal_cache_reader m).
Definition set_on_disk (r : disk_reader) m : reader_manager :=
  MkReaderManager (noop_cache_reader m) (in_mem_cache_reader m) (Some r) (internal_cache_reader m).

(** What the operations of [DiskReader] work on, without a caller's buffer. *)
Definition disk_view (r : disk_reader) f : @disk_shared F S := MkDiskShared [] (dr_mem r) f (dr_index r) [].
Definition from_view (r : disk_reader) (g : @disk_shared F S) : disk_reader :=
  MkDiskReader (dr_cache_init_flag r) (d_mem g) (d_index g).

(** Runs an operation of the disk reader, when it exists. *)
Definition on_disk (op : @disk_shared F S -> Res unit * @disk_shared F S) m f : Res unit * reader_manager * F :=
  match on_disk_cache_reader m with
  | None => (Ok tt, m, f)
  | Some r => let '(res, g) := op (disk_view r f) in (res, set_on_disk (from_view r g) m, d_files g)
  end.

(** [NoopCacheReader] has nothing to clear. *)
Definition ClearCache config m f : Res unit * reader_manager * F :=
  on_disk (DiskClearCache config) (set_in_mem (InMemReader.ClearCache <$> in_mem_cache_reader m) m) f.

Definition ClearCacheFile config (fname : string) m f : Res unit * reader_manager * F :=
  on_disk (DiskClearCacheFile sha256 config fname)
    (set_in_mem (InMemReader.ClearCacheFile fname <$> in_mem_cache_reader m) m) f.

Definition RemapInMemoryDataCachesAfterBlockSizeChange (clock : nat -> Z) (now new_block_size : Z) m f :
    Res unit * reader_manager * F :=
  let '(res, in_mem) :=
    match in_mem_cache_reader m with
    | None => (Ok tt, None)
    | Some s =>
        let '(res, s) := RemapInMemoryDataBlocksForNewBlockSize page_size al clock now new_block_size s in (res, Some s)
    end in
  let m := set_in_mem in_mem m in
  match res with
  | Throw e => (Throw e, m, f)
  | Ok _ => on_disk (DiskRemapInMemoryDataBlocks page_size al clock now new_block_size) m f
  end.

Definition ResetReaders (_ : reader_manager) : reader_manager := MkReaderManager false None None None.
End Manager.
Arguments disk_reader : clear implicits.
Arguments reader_manager : clear implicits.
End InstanceCacheReaderManager.

(** ** [CacheHttpfsInstanceState]

    [i_files] is the local filesystem, [i_closing] the connections whose closing removes
    their profile collector ([CacheHttpfsExtensionCallback]). *)
Section Instance.
Context {F S R : Type}.

Record instance_state := MkInstance {
  i_config : InstanceConfig;
  i_db_instance : bool;
  i_registry : InstanceCacheFsRegistry.registry;
  i_readers : InstanceCacheReaderManager.reader_manager S;
  i_profiles : InstanceProfileCollectorManager.manager;
  i_exclusions : CacheExclusionManager.exclusions R;
  i_files : F;
  i_closing : list Z
}.
Implicit Types (st : instance_state).

Definition with_config st c :=
  MkInstance c (i_db_instance st) (i_registry st) (i_readers st) (i_profiles st) (i_exclusions st) (i_files st) (i_closing st).
Definition with_readers st m f :=
  MkInstance (i_config st) (i_db_instance st) (i_registry st) m (i_profiles st) (i_exclusions st) f (i_closing st).
Definition with_profiles st p :=
  MkInstance (i_config st) (i_db_instance st) (i_registry st) (i_readers st) p (i_exclusions st) (i_files st) (i_closing st).
Definition with_files st f :=
  MkInstance (i_config st) (i_db_instance st) (i_registry st) (i_readers st) (i_profiles st) (i_exclusions st) f (i_closing st).
Definition with_closing st cs :=
  MkInstance (i_config st) (i_db_instance st) (i_registry st) (i_readers st) (i_profiles st) (i_exclusions st) (i_files st) cs.
Definition with_registry st r :=
  MkInstance (i_config st) (i_db_instance st) r (i_readers st) (i_profiles st) (i_exclusions st) (i_files st) (i_closing st).

(** [CanAccessFile]; [db_can_access] is DuckDB's check of its configuration. *)
Definition CanAccessFileOf (db_can_access : string -> bool) (path : string) st : Res bool :=
  if negb (i_db_instance st) then Throw InternalException else Ok (db_can_access path).

(** [CacheHttpfsExtensionCallback::OnConnectionClosed]; [alive] tells whether the instance
    state still exists. *)
Definition OnConnectionClosed (alive : bool) (connection_id : Z) : Handler instance_state unit := fun st =>
  if negb alive then (Throw InternalException, st)
  else (Ok tt, with_profiles st (InstanceProfileCollectorManager.RemoveProfileCollector connection_id (i_profiles st))).
End Instance.
Arguments instance_state : clear implicits.

(** ** Connections do not see each other's statistics *)
Section Isolation.
Import InstanceProfileCollectorManager.
Variable rnd : QArith_base.Q -> QArith_base.Q.

(** What a connection does with the manager: [cache_httpfs_set_profile_type], the calls
    of its collector, [cache_httpfs_clear_profile], and its closing. *)
Inductive profile_action :=
| ActSet (profile_type : string)
| ActStart (now : Z) (op : IoOperation)
| ActCall (call : collector_call)
| ActReset
| ActRemove.

Definition call_collector (call : collector_call) (c : any_collector) : any_collector :=
  match c with
  | Noop d => match call with CallReset => ResetAny c | _ => c end
  | Temp p => Temp (apply_call rnd p call)
  end.

Definition start_collector (now : Z) (op : IoOperation) (c : any_collector) : any_collector :=
  match c with
  | Noop d => Noop (NoopProfileCollector.RecordOperationStart now op d).2
  | Temp p => Temp (TempProfileCollector.RecordOperationStart now op p).2
  end.

Definition act (m : manager) (a : Z * profile_action) : manager :=
  match a.2 with
  | ActSet ty => match SetProfileCollector a.1 ty m with Ok m => m | Throw _ => m end
  | ActStart now op => on_collector (start_collector now op) a.1 m
  | ActCall call => on_collector (call_collector call) a.1 m
  | ActReset => ResetProfileCollector a.1 m
  | ActRemove => RemoveProfileCollector a.1 m
  end.

Definition collector_of (m : manager) (c : Z) : option any_collector := profile_collectors m !! c.

Lemma act_other m a c : a.1 <> c -> collector_of (act m a) c = collector_of m c.
Proof.
  intros Hne. destruct a as [c' []]; simpl in *; unfold act, collector_of; simpl.
  - unfold SetProfileCollector. destruct (match profile_collectors m !! c' with Some _ => _ | None => _ end); [done|].
    destruct (String.eqb profile_type _); [by simpl; rewrite lookup_insert_ne|].
    destruct (String.eqb profile_type _); [|done].
    destruct TempProfileCollector.NewCollector; simpl; [by rewrite lookup_insert_ne|done].
  - unfold on_collector. destruct (profile_collectors m !! c') eqn:Hc; simpl; [by rewrite lookup_insert_ne|].
    unfold GetProfileCollectorOrDefault. by rewrite Hc.
  - unfold on_collector. destruct (profile_collectors m !! c') eqn:Hc; simpl; [by rewrite lookup_insert_ne|].
    unfold GetProfileCollectorOrDefault. by rewrite Hc.
  - by rewrite lookup_alter_ne.
  - by rewrite lookup_delete_ne.
Qed.

(** An action on a connection depends on the collector of that connection alone. *)
Lemma act_own m m' a :
  collector_of m a.1 = collector_of m' a.1 -> collector_of (act m a) a.1 = collector_of (act m' a) a.1.
Proof.
  destruct a as [c []]; unfold act, collector_of; simpl; intros E.
  - unfold SetProfileCollector. rewrite E. destruct (match profile_collectors m' !! c with Some _ => _ | None => _ end); [done|].
    destruct (String.eqb profile_type _); [by simpl; rewrite !lookup_insert_eq|].
    destruct (String.eqb profile_type _); [|done].
    destruct TempProfileCollector.NewCollector; simpl; [by rewrite !lookup_insert_eq|done].
  - unfold on_collector, GetProfileCollectorOrDefault. rewrite E.
    destruct (profile_collectors m' !! c) eqn:Hc; simpl; [by rewrite !lookup_insert_eq|by rewrite E, Hc].
  - unfold on_collector, GetProfileCollectorOrDefault. rewrite E.
    destruct (profile_collectors m' !! c) eqn:Hc; simpl; [by rewrite !lookup_insert_eq|by rewrite E, Hc].
  - by rewrite !lookup_alter_eq, E.
  - by rewrite !lookup_delete_eq.
Qed.

(** Connections are isolated: whatever the connections of an instance do with their
    profile collectors, in any interleaving, the collector of a connection (its type and
    all its statistics) is the one its own actions alone would have made. *)
Theorem connections_are_isolated (m : manager) (actions : list (Z * profile_action)) c :
  collector_of (foldl act m actions) c = collector_of (foldl act m (filter (fun a => a.1 = c) actions)) c.
Proof.
  assert (forall m', collector_of m c = collector_of m' c ->
    collector_of (foldl act m actions) c = collector_of (foldl act m' (filter (fun a => a.1 = c) actions)) c) as Hgen.
  { revert m. induction actions as [|a actions IH]; intros m m' E; [done|]. simpl. rewrite filter_cons.
    destruct (decide (a.1 = c)) as [<-|Hne]; apply IH; [by apply act_own|by rewrite act_other]. }
  by apply Hgen.
Qed.
End Isolation.
