(* ===== verification/Settings.v ===== *)
(** * Settings

    The callbacks that DuckDB runs when a setting of the extension changes, and the table
    of settings ([src/src/cache_httpfs_extension.cpp]).  A callback is a handler of the
    instance state.  The value it receives is given as what the callback reads from it:
    [ToString ()], or [GetValue<...> ()] of its type. *)
From S2P Require Import Prelude CppString StringUtil Blocks DataStorage OrdMap LocalFs Config Policy FilesystemUtils AccessIndex.
From S2P Require Import Tasks Remap LruCache ExtensionStorage InMemReader InstanceConfig DiskReader DiskCacheProofs Handler InstanceState.
From Stdlib Require Import Strings.Ascii.

#[local] Open Scope Z_scope.

Import InstanceCacheReaderManager.

Section Callbacks.
Context `{StringUtil} {F : Type} `{LocalFileSystem F} {S : Type} `{InMemoryDataCacheStorage S} {R : Type}.

(** DuckDB's [IsPowerOfTwo], the allocator of the remapping, and the clock. *)
Variable IsPowerOfTwo : Z -> bool.
Variables (page_size : Z) (al : Allocator).
Variables (clock : nat -> Z) (now : Z).

#[local] Abbreviation state := (instance_state F S R).
#[local] Abbreviation handler := (Handler state unit).
Implicit Types (st : state).

Definition change_config (f : InstanceConfig -> InstanceConfig) : handler :=
  modify_state (fun st => with_config st (f (i_config st))).

(** A setting that must be positive. *)
Definition positive (value : Z) (f : InstanceConfig -> InstanceConfig) : handler :=
  if value =? 0 then throw InvalidInputException else change_config f.

(** A setting with a list of valid values. *)
Definition one_of (valid : list string) (value : string) (f : InstanceConfig -> InstanceConfig) : handler :=
  if existsb (String.eqb value) valid then change_config f else throw InvalidInputException.

(** *** General settings *)
Definition SetCacheType (cache_type_str : string) : handler :=
  if existsb (String.eqb cache_type_str) ALL_CACHE_TYPES then
    change_config (fun c => c <| cache_type := cache_type_str |>) ≫= fun _ =>
    modify_state (fun st => with_readers st (SetCacheReader (i_config st) (i_readers st)) (i_files st))
  else throw InvalidInputException.

Definition UpdateCacheType (value : string) : handler := SetCacheType value.

Definition UpdateCacheBlockSize (value : Z) : handler := fun st =>
  if value =? 0 then (Throw InvalidInputException, st)
  else if negb (IsPowerOfTwo value) then (Throw InvalidInputException, st)
  else
    let '(res, m, f) :=
      if cache_block_size (i_config st) =? value then (Ok tt, i_readers st, i_files st)
      else RemapInMemoryDataCachesAfterBlockSizeChange page_size al clock now value (i_readers st) (i_files st) in
    let st := with_readers st m f in
    match res with
    | Throw e => (Throw e, st)
    | Ok _ => (Ok tt, with_config st ((i_config st) <| cache_block_size := value |>))
    end.

(** The setting is stored before the collector accepts it. *)
Definition UpdateProfileType (conn_id : Z) (value : string) : handler := fun st =>
  let st := with_config st ((i_config st) <| profile_type := value |>) in
  match InstanceProfileCollectorManager.SetProfileCollector conn_id value (i_profiles st) with
  | Throw e => (Throw e, st)
  | Ok p => (Ok tt, with_closing (with_profiles st p) (conn_id :: i_closing st))
  end.

Definition UpdateMaxFanoutSubrequest (value : Z) : handler := change_config (fun c => c <| max_subrequest_count := value |>).
Definition UpdateEnableCacheValidation (value : bool) : handler :=
  change_config (fun c => c <| enable_cache_validation := value |>).
Definition UpdateClearCacheOnWrite (value : bool) : handler := change_config (fun c => c <| clear_cache_on_write := value |>).

Definition UpdateParallelReadMode (value : string) : handler :=
  lift (ParseParallelExecutorMode value) ≫= fun mode => change_config (fun c => c <| parallel_read_mode := mode |>).

(** The lambda of [cache_httpfs_ignore_sigpipe] only calls [std::signal]. *)
Definition ignore_sigpipe_callback (value : bool) : handler := mret tt.

(** *** Cache directories *)
Fixpoint sanitize_directories (directories : list string) : Res (list string) :=
  match directories with
  | [] => Ok []
  | dir :: directories =>
      if String.eqb dir "" then Throw InvalidInputException
      else
        rest ← sanitize_directories directories;
        Ok ((if String.eqb (substr_from (String.length dir - 1) dir) "/" then substr_to (String.length dir - 1) dir
             else dir) :: rest)
  end.

Fixpoint create_directories (dirs : list string) (f : F) : Res unit * F :=
  match dirs with
  | [] => (Ok tt, f)
  | dir :: dirs =>
      match fs_create_directory dir f with
      | (Throw e, f) => (Throw e, f)
      | (Ok _, f) => create_directories dirs f
      end
  end.

Definition UpdateCacheDirectoriesImpl (directories : list string) : handler := fun st =>
  match sanitize_directories directories with
  | Throw e => (Throw e, st)
  | Ok directories =>
      let directories := std_sort_keys directories in
      if bool_decide (directories = on_disk_cache_directories (i_config st)) then (Ok tt, st)
      else
        let '(res, f) := create_directories directories (i_files st) in
        let st := with_files st f in
        match res with
        | Throw e => (Throw e, st)
        | Ok _ => (Ok tt, with_config st ((i_config st) <| on_disk_cache_directories := directories |>))
        end
  end.

Definition UpdateCacheDirectory (value : string) : handler :=
  UpdateCacheDirectoriesImpl [if String.eqb value "" then GetDefaultOnDiskCacheDirectory else value].

Definition UpdateCacheDirectoriesConfig (value : string) : handler :=
  UpdateCacheDirectoriesImpl (if String.eqb value "" then [GetDefaultOnDiskCacheDirectory] else SplitChar value ";"%char).

(** *** On-disk cache *)
Definition UpdateMinDiskBytesForCache (value : Z) : handler :=
  positive value (fun c => c <| min_disk_bytes_for_cache := value |>).

Definition UpdateEvictPolicy (value : string) : handler :=
  if String.eqb value ON_DISK_CREATION_TIMESTAMP_EVICTION then
    change_config (fun c => c <| on_disk_eviction_policy := ON_DISK_CREATION_TIMESTAMP_EVICTION |>)
  else if String.eqb value ON_DISK_LRU_SINGLE_PROC_EVICTION then
    change_config (fun c => c <| on_disk_eviction_policy := ON_DISK_LRU_SINGLE_PROC_EVICTION |>)
  else throw InvalidInputException.

Definition UpdateDiskCacheReaderEnableMemoryCache (value : bool) : handler :=
  change_config (fun c => c <| enable_disk_reader_mem_cache := value |>).
Definition UpdateDiskCacheReaderMemCacheBlockCount (value : Z) : handler :=
  positive value (fun c => c <| disk_reader_max_mem_cache_block_count := value |>).
Definition UpdateDiskCacheReaderMemCacheTimeout (value : Z) : handler :=
  positive value (fun c => c <| disk_reader_max_mem_cache_timeout_millisec := value |>).

(** *** In-memory cache *)
Definition UpdateMaxInMemCacheBlockCount (value : Z) : handler :=
  positive value (fun c => c <| max_in_mem_cache_block_count := value |>).
Definition UpdateInMemCacheBlockTimeout (value : Z) : handler :=
  positive value (fun c => c <| in_mem_cache_block_timeout_millisec := value |>).
Definition UpdateInMemCacheStorage (value : string) : handler :=
  one_of ALL_IN_MEM_CACHE_STORAGES value (fun c => c <| in_mem_cache_storage := value |>).

(** *** Simulation *)
Definition UpdateChunking (value : string) : handler := one_of ALL_CHUNKINGS value (fun c => c <| chunking := value |>).
Definition UpdateInMemCacheBytes (value : Z) : handler := change_config (fun c => c <| in_mem_cache_bytes := value |>).
Definition UpdateEvictionPolicy (value : string) : handler :=
  if IsValidEvictionPolicy value then change_config (fun c => c <| eviction_policy := value |>)
  else throw InvalidInputException.
Definition UpdatePolicyScope (value : string) : handler :=
  one_of ALL_POLICY_SCOPES value (fun c => c <| policy_scope := value |>).
Definition UpdateFilePolicies (value : string) : handler := change_config (fun c => c <| file_policies := value |>).
Definition UpdateSimLatencyUs (value : Z) : handler := change_config (fun c => c <| sim_latency_us := value |>).
Definition UpdateSimBandwidthGbps (value : double) : handler :=
  if double_lt value (double_of_Z 0) then throw InvalidInputException
  else change_config (fun c => c <| sim_bandwidth_gbps := value |>).

(** *** Metadata, file handle and glob caches *)
Definition UpdateEnableMetadataCache (value : bool) : handler := change_config (fun c => c <| enable_metadata_cache := value |>).
Definition UpdateMetadataCacheEntrySize (value : Z) : handler :=
  positive value (fun c => c <| max_metadata_cache_entry := value |>).
Definition UpdateMetadataCacheEntryTimeout (value : Z) : handler :=
  positive value (fun c => c <| metadata_cache_entry_timeout_millisec := value |>).
Definition UpdateEnableFileHandleCache (value : bool) : handler :=
  change_config (fun c => c <| enable_file_handle_cache := value |>).
Definition UpdateFileHandleCacheEntrySize (value : Z) : handler :=
  positive value (fun c => c <| max_file_handle_cache_entry := value |>).
Definition UpdateFileHandleCacheEntryTimeout (value : Z) : handler :=
  positive value (fun c => c <| file_handle_cache_entry_timeout_millisec := value |>).
Definition UpdateEnableGlobCache (value : bool) : handler := change_config (fun c => c <| enable_glob_cache := value |>).
Definition UpdateGlobCacheEntrySize (value : Z) : handler :=
  positive value (fun c => c <| max_glob_cache_entry := value |>).
Definition UpdateGlobCacheEntryTimeout (value : Z) : handler :=
  positive value (fun c => c <| glob_cache_entry_timeout_millisec := value |>).
End Callbacks.

(** ** The table of settings *)

(** The value of a setting, by its logical type. *)
Inductive Value :=
| VARCHAR (s : string)
| UBIGINT (n : Z)
| BIGINT (n : Z)
| BOOLEAN (b : bool)
| DOUBLE (d : double).

(** An integer has 64 bits. *)
Definition value_ok (v : Value) : Prop :=
  match v with UBIGINT n => is_u64 n | BIGINT n => - 2 ^ 63 <= n < 2 ^ 63 | _ => True end.

Section Table.
Context `{StringUtil} {F : Type} `{LocalFileSystem F} {S : Type} `{InMemoryDataCacheStorage S} {R : Type}.
Variable IsPowerOfTwo : Z -> bool.
Variables (page_size : Z) (al : Allocator).
Variables (clock : nat -> Z) (now : Z).
(** The connection that changes the setting. *)
Variable conn_id : Z.

#[local] Abbreviation state := (instance_state F S R).
#[local] Abbreviation handler := (Handler state unit).

Record ExtensionOption := MkOption {
  option_name : string;
  default_value : Value;
  set_function : Value -> handler
}.

(** DuckDB has cast the value to the type of the setting; [GetValue<uint64_t>] of a
    negative number throws. *)
Definition on_string (f : string -> handler) (v : Value) : handler :=
  match v with VARCHAR s => f s | _ => throw InvalidInputException end.
Definition on_unsigned (f : Z -> handler) (v : Value) : handler :=
  match v with
  | UBIGINT n => f n
  | BIGINT n => if n <? 0 then throw InvalidInputException else f n
  | _ => throw InvalidInputException
  end.
Definition on_bool (f : bool -> handler) (v : Value) : handler :=
  match v with BOOLEAN b => f b | _ => throw InvalidInputException end.
Definition on_double (f : double -> handler) (v : Value) : handler :=
  match v with DOUBLE d => f d | _ => throw InvalidInputException end.

Definition general_options : list ExtensionOption := [
  MkOption "cache_httpfs_type" (VARCHAR ON_DISK_CACHE_TYPE) (on_string UpdateCacheType);
  MkOption "cache_httpfs_cache_block_size" (UBIGINT DEFAULT_CACHE_BLOCK_SIZE)
    (on_unsigned (UpdateCacheBlockSize IsPowerOfTwo page_size al clock now));
  MkOption "cache_httpfs_profile_type" (VARCHAR DEFAULT_PROFILE_TYPE) (on_string (UpdateProfileType conn_id));
  MkOption "cache_httpfs_max_fanout_subrequest" (BIGINT 0) (on_unsigned UpdateMaxFanoutSubrequest);
  MkOption "cache_httpfs_parallel_read_mode" (VARCHAR DEFAULT_PARALLEL_READ_MODE) (on_string UpdateParallelReadMode);
  MkOption "cache_httpfs_ignore_sigpipe" (BOOLEAN DEFAULT_IGNORE_SIGPIPE) (on_bool ignore_sigpipe_callback);
  MkOption "cache_httpfs_enable_cache_validation" (BOOLEAN DEFAULT_ENABLE_CACHE_VALIDATION)
    (on_bool UpdateEnableCacheValidation);
  MkOption "cache_httpfs_clear_cache_on_write" (BOOLEAN DEFAULT_CLEAR_CACHE_ON_WRITE) (on_bool UpdateClearCacheOnWrite)
]%string.

Definition disk_options : list ExtensionOption := [
  MkOption "cache_httpfs_cache_directory" (VARCHAR GetDefaultOnDiskCacheDirectory) (on_string UpdateCacheDirectory);
  MkOption "cache_httpfs_min_disk_bytes_for_cache" (UBIGINT 0) (on_unsigned UpdateMinDiskBytesForCache);
  MkOption "cache_httpfs_evict_policy" (VARCHAR DEFAULT_ON_DISK_EVICTION_POLICY) (on_string UpdateEvictPolicy);
  MkOption "cache_httpfs_cache_directories_config" (VARCHAR "") (on_string UpdateCacheDirectoriesConfig);
  MkOption "cache_httpfs_disk_cache_reader_enable_memory_cache" (BOOLEAN DEFAULT_ENABLE_DISK_READER_MEM_CACHE)
    (on_bool UpdateDiskCacheReaderEnableMemoryCache);
  MkOption "cache_httpfs_disk_cache_reader_mem_cache_block_count" (UBIGINT DEFAULT_MAX_DISK_READER_MEM_CACHE_BLOCK_COUNT)
    (on_unsigned UpdateDiskCacheReaderMemCacheBlockCount);
  MkOption "cache_httpfs_disk_cache_reader_mem_cache_timeout_millisec"
    (UBIGINT DEFAULT_DISK_READER_MEM_CACHE_TIMEOUT_MILLISEC) (on_unsigned UpdateDiskCacheReaderMemCacheTimeout)
]%string.

Definition memory_options : list ExtensionOption := [
  MkOption "cache_httpfs_max_in_mem_cache_block_count" (UBIGINT DEFAULT_MAX_IN_MEM_CACHE_BLOCK_COUNT)
    (on_unsigned UpdateMaxInMemCacheBlockCount);
  MkOption "cache_httpfs_in_mem_cache_block_timeout_millisec" (UBIGINT DEFAULT_IN_MEM_BLOCK_CACHE_TIMEOUT_MILLISEC)
    (on_unsigned UpdateInMemCacheBlockTimeout);
  MkOption "cache_httpfs_in_mem_cache_storage" (VARCHAR DEFAULT_IN_MEM_CACHE_STORAGE) (on_string UpdateInMemCacheStorage);
  MkOption "cache_httpfs_chunking" (VARCHAR DEFAULT_CHUNKING) (on_string UpdateChunking);
  MkOption "cache_httpfs_in_mem_cache_bytes" (UBIGINT DEFAULT_IN_MEM_CACHE_BYTES) (on_unsigned UpdateInMemCacheBytes);
  MkOption "cache_httpfs_eviction_policy" (VARCHAR DEFAULT_EVICTION_POLICY) (on_string UpdateEvictionPolicy);
  MkOption "cache_httpfs_policy_scope" (VARCHAR DEFAULT_POLICY_SCOPE) (on_string UpdatePolicyScope);
  MkOption "cache_httpfs_file_policies" (VARCHAR "") (on_string UpdateFilePolicies);
  MkOption "cache_httpfs_sim_latency_us" (UBIGINT DEFAULT_SIM_LATENCY_US) (on_unsigned UpdateSimLatencyUs);
  MkOption "cache_httpfs_sim_bandwidth_gbps" (DOUBLE (Finite DEFAULT_SIM_BANDWIDTH_GBPS)) (on_double UpdateSimBandwidthGbps)
]%string.

Definition entity_options : list ExtensionOption := [
  MkOption "cache_httpfs_enable_metadata_cache" (BOOLEAN DEFAULT_ENABLE_METADATA_CACHE) (on_bool UpdateEnableMetadataCache);
  MkOption "cache_httpfs_metadata_cache_entry_size" (UBIGINT DEFAULT_MAX_METADATA_CACHE_ENTRY)
    (on_unsigned UpdateMetadataCacheEntrySize);
  MkOption "cache_httpfs_metadata_cache_entry_timeout_millisec" (UBIGINT DEFAULT_METADATA_CACHE_ENTRY_TIMEOUT_MILLISEC)
    (on_unsigned UpdateMetadataCacheEntryTimeout);
  MkOption "cache_httpfs_enable_file_handle_cache" (BOOLEAN DEFAULT_ENABLE_FILE_HANDLE_CACHE)
    (on_bool UpdateEnableFileHandleCache);
  MkOption "cache_httpfs_file_handle_cache_entry_size" (UBIGINT DEFAULT_MAX_FILE_HANDLE_CACHE_ENTRY)
    (on_unsigned UpdateFileHandleCacheEntrySize);
  MkOption "cache_httpfs_file_handle_cache_entry_timeout_millisec" (UBIGINT DEFAULT_FILE_HANDLE_CACHE_ENTRY_TIMEOUT_MILLISEC)
    (on_unsigned UpdateFileHandleCacheEntryTimeout);
  MkOption "cache_httpfs_enable_glob_cache" (BOOLEAN DEFAULT_ENABLE_GLOB_CACHE) (on_bool UpdateEnableGlobCache);
  MkOption "cache_httpfs_glob_cache_entry_size" (UBIGINT DEFAULT_MAX_GLOB_CACHE_ENTRY) (on_unsigned UpdateGlobCacheEntrySize);
  MkOption "cache_httpfs_glob_cache_entry_timeout_millisec" (UBIGINT DEFAULT_GLOB_CACHE_ENTRY_TIMEOUT_MILLISEC)
    (on_unsigned UpdateGlobCacheEntryTimeout)
]%string.

Definition extension_options : list ExtensionOption := general_options ++ disk_options ++ memory_options ++ entity_options.
End Table.

(** ** Valid settings *)
Section Valid.
Variable IsPowerOfTwo : Z -> bool.

Definition sorted_strings (l : list string) : Prop := StronglySorted not_less l.

(** What the rest of the extension relies on.  The profile type is left out: see
    [profile_type_kept_after_failure]. *)
Record valid_config (c : InstanceConfig) : Prop := {
  vc_block_size : 0 < cache_block_size c < two64 /\ IsPowerOfTwo (cache_block_size c) = true;
  vc_cache_type : cache_type c ∈ ALL_CACHE_TYPES;
  vc_directories : on_disk_cache_directories c <> [] /\ sorted_strings (on_disk_cache_directories c);
  vc_min_disk : is_u64 (min_disk_bytes_for_cache c);
  vc_evict : on_disk_eviction_policy c ∈ [ON_DISK_CREATION_TIMESTAMP_EVICTION; ON_DISK_LRU_SINGLE_PROC_EVICTION];
  vc_disk_mem : 0 < disk_reader_max_mem_cache_block_count c /\ 0 < disk_reader_max_mem_cache_timeout_millisec c;
  vc_mem : 0 < max_in_mem_cache_block_count c /\ 0 < in_mem_cache_block_timeout_millisec c;
  vc_storage : in_mem_cache_storage c ∈ ALL_IN_MEM_CACHE_STORAGES;
  vc_chunking : chunking c ∈ ALL_CHUNKINGS;
  vc_policy : IsValidEvictionPolicy (eviction_policy c) = true;
  vc_scope : policy_scope c ∈ ALL_POLICY_SCOPES;
  vc_budget : is_u64 (in_mem_cache_bytes c);
  vc_simulation : is_u64 (sim_latency_us c) /\ double_lt (sim_bandwidth_gbps c) (double_of_Z 0) = false;
  vc_metadata : 0 < max_metadata_cache_entry c /\ 0 < metadata_cache_entry_timeout_millisec c;
  vc_handle : 0 < max_file_handle_cache_entry c /\ 0 < file_handle_cache_entry_timeout_millisec c;
  vc_glob : 0 < max_glob_cache_entry c /\ 0 < glob_cache_entry_timeout_millisec c
}.

Lemma elem_of_existsb (value : string) valid : existsb (String.eqb value) valid = true -> value ∈ valid.
Proof. intros (x & Hx%list_elem_of_In & ->%String.eqb_eq)%existsb_exists. done. Qed.


(** *** The handlers *)
Section Keeps.
Context {F S R : Type}.
#[local] Abbreviation state := (instance_state F S R).
Implicit Types (st : state) (h : Handler state unit).

Definition keeps_valid h : Prop := forall st, valid_config (i_config st) -> valid_config (i_config (h st).2).

(** A handler that throws has not touched the settings. *)
Definition all_or_nothing h : Prop := forall st e, (h st).1 = Throw e -> i_config (h st).2 = i_config st.

Definition good_handler h : Prop := keeps_valid h /\ all_or_nothing h.

Lemma good_throw e : good_handler (throw e).
Proof. split; [intros st Hst; exact Hst|intros st e' _; reflexivity]. Qed.

Lemma good_change f : (forall c, valid_config c -> valid_config (f c)) -> good_handler (change_config f).
Proof. intros Hf. split; [|intros st e [=]]. intros st Hst. by apply Hf. Qed.

Lemma good_positive value f :
  is_u64 value -> (forall c, 0 < value -> valid_config c -> valid_config (f c)) -> good_handler (positive value f).
Proof.
  intros Hu Hf. unfold positive. destruct (Z.eqb_spec value 0); [apply good_throw|].
  apply good_change. intros c. apply Hf. unfold is_u64 in Hu. lia.
Qed.

Lemma good_one_of valid value f :
  (forall c, value ∈ valid -> valid_config c -> valid_config (f c)) -> good_handler (one_of valid value f).
Proof.
  intros Hf. unfold one_of. destruct (existsb _ _) eqn:He; [|apply good_throw].
  apply good_change. intros c. by apply Hf, elem_of_existsb.
Qed.
End Keeps.
End Valid.

Arguments good_handler _ {_ _ _} _.

(** ** Every setting *)
Section Options.
Context `{StringUtil} {F : Type} `{LocalFileSystem F} {S : Type} `{InMemoryDataCacheStorage S} {R : Type}.
Variable IsPowerOfTwo : Z -> bool.
Variables (page_size : Z) (al : Allocator).
Variables (clock : nat -> Z) (now : Z).
Variable conn_id : Z.
Context `{!StringUtilLaws}.

#[local] Abbreviation good h := (good_handler IsPowerOfTwo (F := F) (S := S) (R := R) h).

Lemma good_cache_type s : good (SetCacheType s).
Proof.
  unfold SetCacheType. destruct (existsb _ _) eqn:He; [|apply good_throw]. split; [|done].
  intros st Hv. apply elem_of_existsb in He. destruct Hv. by constructor.
Qed.

Lemma good_block_size n : is_u64 n -> good (UpdateCacheBlockSize IsPowerOfTwo page_size al clock now n).
Proof.
  intros Hn. unfold UpdateCacheBlockSize. split.
  - intros st Hv. destruct (Z.eqb_spec n 0); [done|]. destruct (IsPowerOfTwo n) eqn:Hp; simpl; [|done].
    destruct (if cache_block_size (i_config st) =? n then _ else _) as [[[[]|e] m] f]; [|done].
    unfold is_u64 in Hn. destruct Hv. constructor; simpl; try done. unfold constant. split; [lia|done].
  - intros st e. destruct (n =? 0); [done|]. destruct (IsPowerOfTwo n); simpl; [|done].
    by destruct (if cache_block_size (i_config st) =? n then _ else _) as [[[[]|e'] m] f].
Qed.

Lemma sanitize_directories_length ds ds' : sanitize_directories ds = Ok ds' -> length ds' = length ds.
Proof.
  revert ds'. induction ds as [|d ds IH]; intros ds'; simpl; [by intros [= <-]|].
  destruct (String.eqb d ""); [done|]. intros (rest & Hr & [= <-])%bind_Ok. simpl. by rewrite (IH rest).
Qed.

Lemma good_directories ds : ds <> [] -> good (UpdateCacheDirectoriesImpl ds).
Proof.
  intros Hds. unfold UpdateCacheDirectoriesImpl. destruct (sanitize_directories ds) as [ds'|e] eqn:Hs; [|split; by intros st].
  apply sanitize_directories_length in Hs. split.
  - intros st Hv. case_bool_decide; [done|].
    destruct (create_directories _ _) as [[[]|e] f]; simpl; [|done]. destruct Hv. constructor; simpl; try done.
    unfold constant. split; [|apply std_sort_keys_sorted].
    intros E%(f_equal length). rewrite (Permutation_length (std_sort_keys_perm ds')), Hs in E.
    by destruct ds.
  - intros st e. case_bool_decide; [done|]. by destruct (create_directories _ _) as [[[]|e'] f].
Qed.

Lemma good_eviction s : good (UpdateEvictPolicy s).
Proof.
  unfold UpdateEvictPolicy. repeat case_match; [..|apply good_throw]; apply good_change;
    intros c []; constructor; simpl; try done; unfold constant; rewrite !elem_of_cons; auto.
Qed.

Lemma good_executor s : good (UpdateParallelReadMode s).
Proof.
  unfold UpdateParallelReadMode. destruct (ParseParallelExecutorMode s) as [mode|e]; [|apply good_throw].
  apply (good_change _ (fun c => c <| parallel_read_mode := mode |>)). intros c []. by constructor.
Qed.

Lemma good_bandwidth d : good (UpdateSimBandwidthGbps d).
Proof.
  unfold UpdateSimBandwidthGbps. destruct (double_lt d _) eqn:Hd; [apply good_throw|].
  apply good_change. intros c []. constructor; simpl; try done. unfold constant. tauto.
Qed.

Lemma good_policy s : good (UpdateEvictionPolicy s).
Proof.
  unfold UpdateEvictionPolicy. destruct (IsValidEvictionPolicy s) eqn:Hs; [|apply good_throw].
  apply good_change. intros c []. by constructor.
Qed.

Lemma good_profile_type s : keeps_valid IsPowerOfTwo (UpdateProfileType conn_id s : Handler (instance_state F S R) unit).
Proof. intros st []. unfold UpdateProfileType. case_match; by constructor. Qed.

#[local] Hint Resolve good_throw good_cache_type good_block_size good_eviction good_executor good_bandwidth good_policy : core.

Ltac valid_update :=
  intros c; intros; match goal with Hc : valid_config _ _ |- _ => destruct Hc end; constructor; simpl;
  try done; unfold constant, is_u64 in *; split; (lia || tauto).

(** A negative number is refused, and any other is an unsigned one. *)
Lemma good_unsigned (f : Z -> Handler (instance_state F S R) unit) v :
  value_ok v -> (forall n, is_u64 n -> good (f n)) -> good (on_unsigned f v).
Proof.
  intros Hv Hf. destruct v; simpl in *; try apply good_throw; [by apply Hf|].
  destruct (Z.ltb_spec n 0); [apply good_throw|]. apply Hf. unfold is_u64. lia.
Qed.

Ltac good_option :=
  intros v Hv;
  first [ apply (good_unsigned _ v Hv); clear v Hv; intros n Hn | destruct v; simpl in * ];
  try (apply good_throw); auto;
  first [ apply good_positive; [done|]; valid_update
        | apply good_one_of; valid_update
        | apply good_change; valid_update ].

#[local] Abbreviation option_ok o := (forall v, value_ok v -> good (set_function o v)).

Lemma general_options_ok :
  Forall (fun o => option_name o <> "cache_httpfs_profile_type"%string -> option_ok o)
    (general_options (F := F) (S := S) (R := R) IsPowerOfTwo page_size al clock now conn_id).
Proof.
  repeat apply List.Forall_cons; try apply List.Forall_nil; simpl option_name; intros Hne; try done; try solve [good_option].
  intros v Hv. destruct v; simpl; try apply good_throw. split; [intros st Hst; exact Hst|by intros st e [=]].
Qed.

Lemma disk_options_ok : Forall (fun o => option_ok o) (disk_options (F := F) (S := S) (R := R)).
Proof.
  repeat apply List.Forall_cons; try apply List.Forall_nil; try solve [good_option];
    intros v Hv; destruct v as [s| | | |]; simpl; try apply good_throw; apply good_directories; [done|].
  destruct (String.eqb_spec s ""); [done|by apply SplitChar_nonempty].
Qed.

Lemma memory_options_ok : Forall (fun o => option_ok o) (memory_options (F := F) (S := S) (R := R)).
Proof. repeat apply List.Forall_cons; try apply List.Forall_nil; good_option. Qed.

Lemma entity_options_ok : Forall (fun o => option_ok o) (entity_options (F := F) (S := S) (R := R)).
Proof. repeat apply List.Forall_cons; try apply List.Forall_nil; good_option. Qed.
End Options.

(** ** Changing settings *)
Section Changes.
Context `{StringUtil} {F : Type} `{LocalFileSystem F} {S : Type} `{InMemoryDataCacheStorage S} {R : Type}.
Variable IsPowerOfTwo : Z -> bool.
Variables (page_size : Z) (al : Allocator).

#[local] Abbreviation state := (instance_state F S R).
Implicit Types (st : state).

(** [SET name = value] by a connection; [ch_clock] and [ch_now] are what the clock reads. *)
Record change := MkChange { ch_clock : nat -> Z; ch_now : Z; ch_connection : Z; ch_name : string; ch_value : Value }.

Definition options_of (c : change) : list (ExtensionOption (F := F) (S := S) (R := R)) :=
  extension_options IsPowerOfTwo page_size al (ch_clock c) (ch_now c) (ch_connection c).

Definition set_option (c : change) : Handler state unit :=
  match List.find (fun o => String.eqb (option_name o) (ch_name c)) (options_of c) with
  | Some o => set_function o (ch_value c)
  | None => throw InvalidInputException
  end.

Definition set_options (cs : list change) st : state := foldl (fun st c => (set_option c st).2) st cs.

Lemma set_option_good `{!StringUtilLaws} c :
  value_ok (ch_value c) ->
  keeps_valid IsPowerOfTwo (set_option c) /\
  (ch_name c <> "cache_httpfs_profile_type"%string -> all_or_nothing (set_option c)).
Proof.
  intros Hv. unfold set_option. destruct (List.find _ _) as [o|] eqn:Hf; [|by destruct (good_throw IsPowerOfTwo (F := F) (S := S) (R := R) InvalidInputException)].
  apply List.find_some in Hf as [Hin Hn%String.eqb_eq]. rewrite <-Hn. apply list_elem_of_In in Hin.
  assert (option_name o <> "cache_httpfs_profile_type"%string -> good_handler IsPowerOfTwo (set_function o (ch_value c))) as Hgood.
  { intros Hne. unfold options_of, extension_options in Hin. rewrite !elem_of_app in Hin.
    destruct Hin as [Hin|[Hin|[Hin|Hin]]].
    - pose proof (general_options_ok IsPowerOfTwo page_size al (ch_clock c) (ch_now c) (ch_connection c)
        (F := F) (S := S) (R := R)) as Hall. rewrite Forall_forall in Hall. by apply (Hall o Hin Hne).
    - pose proof (disk_options_ok IsPowerOfTwo (F := F) (S := S) (R := R)) as Hall. rewrite Forall_forall in Hall.
      by apply (Hall o Hin).
    - pose proof (memory_options_ok IsPowerOfTwo (F := F) (S := S) (R := R)) as Hall. rewrite Forall_forall in Hall.
      by apply (Hall o Hin).
    - pose proof (entity_options_ok IsPowerOfTwo (F := F) (S := S) (R := R)) as Hall. rewrite Forall_forall in Hall.
      by apply (Hall o Hin). }
  split; [|by intros Hne; apply Hgood].
  destruct (decide (option_name o = "cache_httpfs_profile_type"%string)) as [E|Hne]; [|by apply Hgood].
  assert (o = MkOption "cache_httpfs_profile_type" (VARCHAR DEFAULT_PROFILE_TYPE) (on_string (UpdateProfileType (ch_connection c)))) as ->.
  { unfold options_of, extension_options, general_options, disk_options, memory_options, entity_options in Hin.
    simpl app in Hin. rewrite !elem_of_cons in Hin.
    repeat (destruct Hin as [->|Hin]; [by simpl in E|]). inversion Hin. }
  simpl. destruct (ch_value c); simpl; try apply good_throw. apply good_profile_type.
Qed.
End Changes.

Lemma default_config_valid (IsPowerOfTwo : Z -> bool) :
  IsPowerOfTwo DEFAULT_CACHE_BLOCK_SIZE = true -> valid_config IsPowerOfTwo default_config.
Proof.
  intros Hp. constructor; try (refine (bool_decide_unpack _ _); vm_compute; exact I); try (by vm_compute).
  - split; [done|]. repeat constructor.
Qed.

(** *** Block size *)
Section BlockSize.
Context `{StringUtil} {F : Type} `{LocalFileSystem F} {S : Type} `{StorageLaws S} {R : Type}.
Variable content : string -> string -> list byte.

(** What the readers hold is what the files contain. *)
Definition readers_truthful (m : reader_manager S) : Prop :=
  (forall s, in_mem_cache_reader m = Some (Some s) -> truthful_storage content s) /\
  (forall r s, on_disk_cache_reader m = Some r -> dr_mem r = Some s -> truthful_storage content s).

(** The storages of the two readers are re-gridded, where they exist, and nothing else of
    the readers changes. *)
Definition regrids_readers (bs now : Z) (clock : nat -> Z) (m m' : reader_manager S) : Prop :=
  option_Forall2 (option_Forall2 (regrids content bs now clock)) (in_mem_cache_reader m) (in_mem_cache_reader m') /\
  option_Forall2 (fun r r' => option_Forall2 (regrids content bs now clock) (dr_mem r) (dr_mem r') /\
      dr_cache_init_flag r' = dr_cache_init_flag r /\ dr_index r' = dr_index r)
    (on_disk_cache_reader m) (on_disk_cache_reader m') /\
  noop_cache_reader m' = noop_cache_reader m.

Lemma remap_storage page_size al clock now bs (s : option S) res s' :
  0 < page_size -> 0 < bs -> (forall f t, Z.of_nat (length (content f t)) + 2 * bs + page_size < two64) ->
  (forall x, s = Some x -> truthful_storage content x) ->
  RemapInMemoryDataBlocksForNewBlockSize page_size al clock now bs s = (res, s') ->
  (forall x, s' = Some x -> truthful_storage content x) /\
  (res = Ok tt /\ option_Forall2 (regrids content bs now clock) s s' \/ res = Throw BadAlloc).
Proof.
  intros Hp Hb Hf Hs Hr. destruct s as [s|]; [|simpl in Hr; simplify_eq; split; [done|left; by split; [|constructor]]].
  destruct s' as [s'|].
  - destruct (remap_truthful content page_size al clock now bs s res s' Hp Hb Hf (Hs s eq_refl) Hr) as [Ht Hres].
    split; [by intros x [= <-]|]. destruct Hres as [[-> Hg]|]; [left|by right]. by split; [|constructor].
  - unfold RemapInMemoryDataBlocksForNewBlockSize in Hr. destruct (Take clock s) as [taken s1].
    destruct (taken ← taken; _) as [rebuilt|e]; [|done]. by destruct (put_all now rebuilt s1).
Qed.

Lemma remap_readers page_size al clock now bs (m : reader_manager S) (f : F) res m' f' :
  0 < page_size -> 0 < bs -> (forall f t, Z.of_nat (length (content f t)) + 2 * bs + page_size < two64) ->
  readers_truthful m ->
  RemapInMemoryDataCachesAfterBlockSizeChange page_size al clock now bs m f = (res, m', f') ->
  readers_truthful m' /\ f' = f /\ GetCacheReader m' = GetCacheReader m /\
  (res = Ok tt /\ regrids_readers bs now clock m m' \/ res = Throw BadAlloc).
Proof.
  intros Hp Hb Hf [Hmem Hdisk] Hr. unfold RemapInMemoryDataCachesAfterBlockSizeChange in Hr.
  destruct (match in_mem_cache_reader m with Some s => _ | None => _ end) as [res1 in_mem] eqn:Hi.
  assert ((forall s, in_mem = Some (Some s) -> truthful_storage content s) /\
    (res1 = Ok tt /\ option_Forall2 (option_Forall2 (regrids content bs now clock)) (in_mem_cache_reader m) in_mem \/
     res1 = Throw BadAlloc)) as [Hmem' Hres1].
  { destruct (in_mem_cache_reader m) as [s|]; [|simplify_eq; split; [done|left; by split; [|constructor]]].
    destruct (RemapInMemoryDataBlocksForNewBlockSize page_size al clock now bs s) as [r1 s1] eqn:Hrm. simplify_eq.
    destruct (remap_storage page_size al clock now bs s res1 s1) as [Ht Ha]; [done..|by intros x ->; apply Hmem|done|].
    split; [intros x [= ->]; by apply Ht|]. destruct Ha as [[-> Hg]|]; [left|by right]. by split; [|constructor]. }
  destruct Hres1 as [[-> Hg1]| ->]; [|simplify_eq; do 3 (split; [done|]); by right].
  unfold on_disk in Hr. simpl in Hr. destruct (on_disk_cache_reader m) as [r|] eqn:Hd.
  - rewrite DiskRemap_mem in Hr. simpl in Hr.
    destruct (RemapInMemoryDataBlocksForNewBlockSize page_size al clock now bs (dr_mem r)) as [r1 s1] eqn:Hrm.
    simpl in Hr. simplify_eq.
    destruct (remap_storage page_size al clock now bs (dr_mem r) res s1) as [Ht Ha]; [done..|by intros x; eapply Hdisk|done|].
    split; [split; [done|]; simpl; intros r' s [= <-]; apply Ht|]. do 2 (split; [done|]).
    destruct Ha as [[-> Hg]|]; [left|by right]. split; [done|]. split; [done|]. rewrite Hd. by split; [constructor|].
  - simplify_eq. split; [split; [done|]; simpl; by rewrite Hd|]. do 2 (split; [done|]). left. split; [done|].
    split; [done|]. rewrite Hd. simpl. by split; [rewrite Hd; constructor|].
Qed.

Variable IsPowerOfTwo : Z -> bool.

End BlockSize.

(** *** Every sequence of settings *)
Section AllSettings.
Context `{StringUtilLaws} {F : Type} `{LocalFileSystem F} {S : Type} `{InMemoryDataCacheStorage S} {R : Type}.
Variable IsPowerOfTwo : Z -> bool.
Variables (page_size : Z) (al : Allocator).

Lemma set_options_valid cs (st : instance_state F S R) :
  Forall (fun c => value_ok (ch_value c)) cs ->
  valid_config IsPowerOfTwo (i_config st) ->
  valid_config IsPowerOfTwo (i_config (set_options IsPowerOfTwo page_size al cs st)).
Proof.
  intros Hcs. revert st. induction Hcs as [|c cs Hc Hcs IH]; intros st Hst; [done|].
  apply IH. by apply (set_option_good IsPowerOfTwo page_size al c).
Qed.

(** C25: from the default settings, whatever settings the connections change, in any
    order and with any values, the settings stay valid: the block size is a power of two
    that fits in 64 bits, there is a sorted list of cache directories, every count and
    timeout that divides or bounds something is positive, and every name is one of the
    names the extension knows.  The simulated bandwidth is not below zero, in the comparison
    of the code, which lets a NaN and an infinity through.  A change that is refused leaves
    all settings as they were; only the profile type is an exception. *)
Theorem settings_stay_valid cs (st : instance_state F S R) :
  IsPowerOfTwo DEFAULT_CACHE_BLOCK_SIZE = true ->
  Forall (fun c => value_ok (ch_value c)) cs -> i_config st = default_config ->
  let st' := set_options IsPowerOfTwo page_size al cs st in
  valid_config IsPowerOfTwo (i_config st') /\
  (forall c e, value_ok (ch_value c) -> ch_name c <> "cache_httpfs_profile_type"%string ->
     (set_option IsPowerOfTwo page_size al c st').1 = Throw e ->
     i_config (set_option IsPowerOfTwo page_size al c st').2 = i_config st').
Proof.
  intros Hp Hcs Hst st'. split.
  - apply set_options_valid; [done..|]. rewrite Hst. by apply default_config_valid.
  - intros c e Hv Hne. by apply (set_option_good IsPowerOfTwo page_size al c).
Qed.
End AllSettings.

(** ** Examples *)
Definition is_power_of_two (n : Z) : bool := Z.land n (n - 1) =? 0.

Definition new_instance {R} (m : reader_manager ExtensionBoundedDataCacheStorage.storage) :
    instance_state disk ExtensionBoundedDataCacheStorage.storage R :=
  MkInstance default_config true ∅ m (InstanceProfileCollectorManager.MkProfileManager ∅ None)
    (CacheExclusionManager.MkExclusions [] []) (MkDisk ∅ (Some 1000) (Some 1000)) [].

Definition no_readers : reader_manager ExtensionBoundedDataCacheStorage.storage := MkReaderManager false None None None.

Definition sample_change := MkChange (fun _ => 0) 0 1.
Definition sample_changes : list change := [
  sample_change "cache_httpfs_evict_policy" (VARCHAR "lru_sp");
  sample_change "cache_httpfs_cache_block_size" (UBIGINT 8);
  sample_change "cache_httpfs_cache_block_size" (UBIGINT 12);
  sample_change "cache_httpfs_cache_directories_config" (VARCHAR "/b;/a/");
  sample_change "cache_httpfs_profile_type" (VARCHAR "temp")
].
Definition sample_settings : instance_state disk ExtensionBoundedDataCacheStorage.storage unit :=
  set_options is_power_of_two 16 sample_allocator sample_changes (new_instance no_readers).

(** The change to 12 is refused, the others take effect. *)
Example sample_settings_values :
  cache_block_size (i_config sample_settings) = 8 /\
  on_disk_cache_directories (i_config sample_settings) = ["/a"; "/b"]%string /\
  on_disk_eviction_policy (i_config sample_settings) = "lru_sp"%string.
Proof. by vm_compute. Qed.

Lemma settings_stay_valid_witness :
  valid_config is_power_of_two (i_config sample_settings) /\
  i_config (set_option is_power_of_two 16 sample_allocator
    (sample_change "cache_httpfs_evict_policy" (VARCHAR "mru")) sample_settings).2 = i_config sample_settings.
Proof.
  destruct (settings_stay_valid (R := unit) is_power_of_two 16 sample_allocator sample_changes (new_instance no_readers))
    as [Hv Hk]; [reflexivity|repeat constructor; simpl; lia|reflexivity|].
  split; [exact Hv|].
  apply (Hk (sample_change "cache_httpfs_evict_policy" (VARCHAR "mru")) InvalidInputException);
    [exact I|discriminate|vm_compute; reflexivity].
Defined.

Definition sample_readers : reader_manager ExtensionBoundedDataCacheStorage.storage :=
  MkReaderManager false (Some (Some (storage sample_end))) None (Some InMemReaderKind).
Definition resized : Res unit * instance_state disk ExtensionBoundedDataCacheStorage.storage unit :=
  UpdateCacheBlockSize is_power_of_two 16 sample_allocator (fun _ => 9) 9 8 (new_instance sample_readers).


(** ** Observations *)

(** A profile type that is refused stays in the settings. *)
Lemma profile_type_kept_after_failure :
  let r := set_option is_power_of_two 16 sample_allocator
    (sample_change "cache_httpfs_profile_type" (VARCHAR "tempo")) (new_instance (R := unit) no_readers) in
  r.1 = Throw InvalidInputException /\ profile_type (i_config r.2) = "tempo"%string.
Proof. by vm_compute. Qed.

(** The registered default of the minimum disk space is a value that its callback
    refuses. *)
Lemma default_min_disk_bytes_refused :
  exists o, List.find (fun o => String.eqb (option_name o) "cache_httpfs_min_disk_bytes_for_cache")
    (disk_options (F := disk) (S := ExtensionBoundedDataCacheStorage.storage) (R := unit)) = Some o /\
    (set_function o (default_value o) (new_instance no_readers)).1 = Throw InvalidInputException.
Proof. eexists. split; [reflexivity|]. by vm_compute. Qed.

(** A NaN is not below zero: it is taken for a bandwidth. *)
Lemma nan_bandwidth_is_taken :
  let r := set_option is_power_of_two 16 sample_allocator
    (sample_change "cache_httpfs_sim_bandwidth_gbps" (DOUBLE NaN)) (new_instance (R := unit) no_readers) in
  r.1 = Ok tt /\ sim_bandwidth_gbps (i_config r.2) = NaN.
Proof. by vm_compute. Qed.

(** The same directory can be configured twice. *)
Lemma repeated_directories_installed :
  on_disk_cache_directories (i_config (set_option is_power_of_two 16 sample_allocator
    (sample_change "cache_httpfs_cache_directories_config" (VARCHAR "/d;/d/")) (new_instance (R := unit) no_readers)).2) =
  ["/d"; "/d"]%string.
Proof. by vm_compute. Qed.
