(* ===== verification/HandleCache.v ===== *)
(** * HandleCache

    The file handles of a cache filesystem: [CacheFileSystemHandle], the cache of
    internal file handles and the counter of those in use
    ([src/src/cache_filesystem.cpp], [src/src/include/cache_filesystem.hpp],
    [src/src/utils/include/counter.hpp]).

    A [shared_ptr] is the identifier of an object in a heap: the destructor of a handle
    puts it into the cache that was current when the handle was created, whether or not
    the filesystem has dropped that cache since. *)
From S2P Require Import Prelude OrdMap IoOperations LruCache MultiLru Handler InstanceState.

#[local] Open Scope Z_scope.

Import ExclusiveMultiLruCache.

(** ** [Counter]

    The values are [unsigned], of 32 bits. *)
Module Counter.
Abbreviation counter K := (gmap K Z).
Section Ops.
Context {K : Type} `{Countable K}.
Definition u32 (z : Z) : Z := z mod 4294967296.
Implicit Types (c : counter K) (key : K).

Definition GetCount key c : Z := default 0 (c !! key).

Definition Increment key c : Z * counter K :=
  let new_count := u32 (GetCount key c + 1) in (new_count, <[key := new_count]> c).

Definition Decrement key c : Res Z * counter K :=
  match c !! key with
  | None => (Throw AssertionFailure, c)
  | Some n =>
      let new_count := u32 (n - 1) in
      (Ok new_count, if new_count =? 0 then delete key c else <[key := new_count]> c)
  end.
End Ops.
End Counter.
Import Counter.

(** ** Keys *)
Section Keys.
Variable FILE_FLAGS_PARALLEL_ACCESS : N.

Record FileHandleCacheKey := MkHandleKey { key_path : string; key_flags : N }.

(** The constructor: the flags have parallel access enabled. *)
Definition NewHandleKey (path : string) (flags : N) : FileHandleCacheKey :=
  MkHandleKey path (N.lor flags FILE_FLAGS_PARALLEL_ACCESS).

Definition FileHandleCacheKeyLess (lhs rhs : FileHandleCacheKey) : bool :=
  String.ltb (key_path lhs) (key_path rhs) ||
  (negb (String.ltb (key_path rhs) (key_path lhs)) && (key_flags lhs <? key_flags rhs)%N).
End Keys.

#[export] Instance handle_key_eq_dec : EqDecision FileHandleCacheKey.
Proof. solve_decision. Defined.
#[export] Instance handle_key_countable : Countable FileHandleCacheKey.
Proof.
  apply (inj_countable' (fun k => (key_path k, key_flags k)) (fun p => MkHandleKey p.1 p.2)). by intros [].
Defined.

Definition key_lt (a b : FileHandleCacheKey) : Prop :=
  String.ltb (key_path a) (key_path b) = true \/ key_path a = key_path b /\ (key_flags a < key_flags b)%N.

Lemma FileHandleCacheKeyLess_spec a b : FileHandleCacheKeyLess a b = true <-> key_lt a b.
Proof.
  unfold FileHandleCacheKeyLess, key_lt. rewrite orb_true_iff, andb_true_iff, negb_true_iff, N.ltb_lt.
  destruct (decide (key_path a = key_path b)) as [->|Hn].
  - rewrite (less_irrefl (KeyCompare := string_less)). tauto.
  - split; [|intros [|[]]; tauto]. intros [?|[Hb _]]; [by left|].
    destruct (less_total (KeyCompare := string_less) _ _ Hn) as [Hl|Hl]; simpl in Hl; [by left|congruence].
Qed.

#[export] Program Instance handle_key_less : KeyCompare FileHandleCacheKey := {| less := FileHandleCacheKeyLess |}.
Next Obligation.
  intros a. apply not_true_iff_false. rewrite FileHandleCacheKeyLess_spec. intros [Hl|[_ Hl]]; [|lia].
  by rewrite (less_irrefl (KeyCompare := string_less)) in Hl.
Qed.
Next Obligation.
  intros a b c. rewrite !FileHandleCacheKeyLess_spec. unfold key_lt. intros [H1|[H1 H1']] [H2|[H2 H2']].
  - left. eapply (less_trans (KeyCompare := string_less)); [apply H1|apply H2].
  - left. by rewrite <-H2.
  - left. by rewrite H1.
  - right. split; [congruence|lia].
Qed.
Next Obligation.
  intros [p f] [q g] Hn. rewrite !FileHandleCacheKeyLess_spec. unfold key_lt. simpl.
  destruct (decide (p = q)) as [->|Hne].
  - assert (f <> g) by congruence. destruct (N.lt_total f g) as [|[|]]; [left|done|right]; by right.
  - destruct (less_total (KeyCompare := string_less) _ _ Hne); auto.
Qed.

(** ** The internal filesystem

    What the handles need of it.  [fs_open] is [OpenFile]: the path and the flags of the
    new handle, or nothing for a null pointer.  [Close] and [Reset] are assumed not to
    throw. *)
Class InternalHandles (X : Type) := {
  fs_open : string -> N -> X -> Res (option (string * N)) * X;
  fs_close : nat -> X -> X;
  fs_reset : nat -> X -> X
}.

(** A handle has the path and the flags it was opened with. *)
Class InternalHandlesLaws (X : Type) `{InternalHandles X} := {
  fs_open_law path flags x p f : (fs_open path flags x).1 = Ok (Some (p, f)) -> p = path /\ f = flags
}.

(** An internal [FileHandle], known by its address. *)
Record FileHandle := MkHandle { handle_id : nat; GetPath : string; GetFlags : N }.

(** [CacheFileSystemHandle].  [dtor_callback] holds what the lambda captures: the key, the
    handle cache and the counter; a write handle has none. *)
Record CacheFileSystemHandle := MkCacheHandle {
  internal_file_handle : FileHandle;
  dtor_callback : option (FileHandleCacheKey * option nat * option nat);
  GetConnectionId : Z
}.

Abbreviation FileHandleCache := (multi_lru FileHandleCacheKey FileHandle).

(** The part of a [CacheFileSystem] that handles live in.  [heap_caches] and
    [heap_counters] are the objects the shared pointers point to.  [closed] and
    [destroyed] list the handles that were closed, and those destroyed with their owner
    without being closed first. *)
Record handle_state (X : Type) := MkHandles {
  internal_filesystem : X;
  file_handle_cache : option nat;
  in_use_file_handle_counter : option nat;
  heap_caches : gmap nat FileHandleCache;
  heap_counters : gmap nat (counter FileHandleCacheKey);
  next_object : nat;
  next_handle : nat;
  closed : list nat;
  destroyed : list nat;
  profile_log : list (Z * profile_event)
}.
Arguments MkHandles {_} _ _ _ _ _ _ _ _ _ _.
Arguments internal_filesystem {_} _.
Arguments file_handle_cache {_} _.
Arguments in_use_file_handle_counter {_} _.
Arguments heap_caches {_} _.
Arguments heap_counters {_} _.
Arguments next_object {_} _.
Arguments next_handle {_} _.
Arguments closed {_} _.
Arguments destroyed {_} _.
Arguments profile_log {_} _.

Section Ops.
Context {X : Type} `{InternalHandles X}.
Variables FILE_FLAGS_READ FILE_FLAGS_PARALLEL_ACCESS : N.
Implicit Types (st : handle_state X) (h : FileHandle) (conn now : Z).

#[local] Abbreviation Op A := (Handler (handle_state X) A).
#[local] Abbreviation NewKey := (NewHandleKey FILE_FLAGS_PARALLEL_ACCESS).

Definition OpenForReading (flags : N) : bool := negb (N.land flags FILE_FLAGS_READ =? 0)%N.

(** *** Pieces of state *)
Definition set_pointers (c n : option nat) st : handle_state X :=
  MkHandles (internal_filesystem st) c n (heap_caches st) (heap_counters st) (next_object st) (next_handle st)
    (closed st) (destroyed st) (profile_log st).
Definition set_cache (id : nat) (c : FileHandleCache) st : handle_state X :=
  MkHandles (internal_filesystem st) (file_handle_cache st) (in_use_file_handle_counter st) (<[id := c]> (heap_caches st))
    (heap_counters st) (next_object st) (next_handle st) (closed st) (destroyed st) (profile_log st).
Definition set_counter (id : nat) (c : counter FileHandleCacheKey) st : handle_state X :=
  MkHandles (internal_filesystem st) (file_handle_cache st) (in_use_file_handle_counter st) (heap_caches st)
    (<[id := c]> (heap_counters st)) (next_object st) (next_handle st) (closed st) (destroyed st) (profile_log st).
Definition set_internal (x : X) st : handle_state X :=
  MkHandles x (file_handle_cache st) (in_use_file_handle_counter st) (heap_caches st) (heap_counters st)
    (next_object st) (next_handle st) (closed st) (destroyed st) (profile_log st).

(** A new object of the heap. *)
Definition allocate_object st : nat * handle_state X :=
  (next_object st,
   MkHandles (internal_filesystem st) (file_handle_cache st) (in_use_file_handle_counter st) (heap_caches st)
     (heap_counters st) (S (next_object st)) (next_handle st) (closed st) (destroyed st) (profile_log st)).

Definition close_handle h st : handle_state X :=
  MkHandles (fs_close (handle_id h) (internal_filesystem st)) (file_handle_cache st) (in_use_file_handle_counter st)
    (heap_caches st) (heap_counters st) (next_object st) (next_handle st) (handle_id h :: closed st) (destroyed st)
    (profile_log st).
Definition close_handles (hs : list FileHandle) st : handle_state X := foldl (fun st h => close_handle h st) st hs.

Definition destroy_handle h st : handle_state X :=
  MkHandles (internal_filesystem st) (file_handle_cache st) (in_use_file_handle_counter st) (heap_caches st)
    (heap_counters st) (next_object st) (next_handle st) (closed st) (handle_id h :: destroyed st) (profile_log st).

Definition record_profile conn (e : profile_event) : Op unit := modify_state (fun st =>
  MkHandles (internal_filesystem st) (file_handle_cache st) (in_use_file_handle_counter st) (heap_caches st)
    (heap_counters st) (next_object st) (next_handle st) (closed st) (destroyed st) (profile_log st ++ [(conn, e)])).

(** An operation under a latency guard: it is recorded when the guard goes, also when the
    operation throws. *)
Definition timed {A} conn (op : IoOperation) (m : Op A) : Op A := fun st =>
  let '(r, st) := m st in (r, (record_profile conn (RecordOperation op) st).2).

(** Through a pointer. *)
Definition deref_cache (id : nat) : Op FileHandleCache := fun st =>
  (of_option UndefinedBehaviour (heap_caches st !! id), st).
Definition deref_counter (p : option nat) : Op (nat * counter FileHandleCacheKey) := fun st =>
  (of_option UndefinedBehaviour (p ≫= fun id => (id,.) <$> heap_counters st !! id), st).

(** [OpenFile] of the internal filesystem, which allocates the handle. *)
Definition OpenInternal (path : string) (flags : N) : Op (option FileHandle) := fun st =>
  let '(r, x) := fs_open path flags (internal_filesystem st) in
  match r with
  | Ok (Some (p, f)) =>
      (Ok (Some (MkHandle (next_handle st) p f)),
       MkHandles x (file_handle_cache st) (in_use_file_handle_counter st) (heap_caches st) (heap_counters st)
         (next_object st) (S (next_handle st)) (closed st) (destroyed st) (profile_log st))
  | Ok None => (Ok None, set_internal x st)
  | Throw e => (Throw e, set_internal x st)
  end.

(** *** [CacheFileSystem::ClearFileHandleCache] *)
Definition ClearFileHandleCache : Op unit := fun st =>
  match file_handle_cache st with
  | None => (Ok tt, st)
  | Some id =>
      (c ← deref_cache id;
       let '(file_handles, c) := ClearAndGetValues c in
       modify_state (fun st => set_pointers None None (close_handles file_handles (set_cache id c st)))) st
  end.

Definition ClearFileHandleCacheOf (filepath : string) : Op unit := fun st =>
  match file_handle_cache st with
  | None => (Ok tt, st)
  | Some id =>
      (c ← deref_cache id;
       let '(file_handles, c) :=
         ClearAndGetValuesFrom (NewKey filepath 0%N) (fun key => String.eqb (key_path key) filepath) c in
       file_handles ← lift file_handles;
       modify_state (fun st => close_handles file_handles (set_cache id c st))) st
  end.

(** *** [CacheFileSystem::SetFileHandleCache] *)
Definition SetFileHandleCache (enable : bool) (max_entry timeout : Z) : Op unit := fun st =>
  if negb enable then ClearFileHandleCache st
  else
    let st := match file_handle_cache st with
              | Some _ => st
              | None => let '(id, st) := allocate_object st in
                        set_pointers (Some id) (in_use_file_handle_counter st) (set_cache id (new_multi max_entry timeout) st)
              end in
    let st := match in_use_file_handle_counter st with
              | Some _ => st
              | None => let '(id, st) := allocate_object st in
                        set_pointers (file_handle_cache st) (Some id) (set_counter id ∅ st)
              end in
    (Ok tt, st).

(** *** [CacheFileSystem::CreateCacheFileHandleForRead] *)
Definition CreateCacheFileHandleForRead (internal : option FileHandle) conn : Op (option CacheFileSystemHandle) :=
  match internal with
  | None => mret None
  | Some h =>
      _ ← lift (always_assert (OpenForReading (GetFlags h)));
      let cache_key := NewKey (GetPath h) (GetFlags h) in
      captured ← gets (fun st => (file_handle_cache st, in_use_file_handle_counter st));
      _ ← match captured.2 with
          | None => mret tt
          | Some _ =>
              counter ← deref_counter captured.2;
              modify_state (set_counter counter.1 (Increment cache_key counter.2).2)
          end;
      mret (Some (MkCacheHandle h (Some (cache_key, captured.1, captured.2)) conn))
  end.

(** *** [CacheFileSystem::GetOrCreateFileHandleForRead] *)
Definition open_miss (path : string) (flags : N) conn : Op (option CacheFileSystemHandle) :=
  timed conn kOpen (
    file_handle ← OpenInternal path (N.lor flags FILE_FLAGS_PARALLEL_ACCESS);
    CreateCacheFileHandleForRead file_handle conn).

Definition GetOrCreateFileHandleForRead now (path : string) (flags : N) conn : Op (option CacheFileSystemHandle) :=
  _ ← lift (always_assert (OpenForReading flags));
  cache ← gets file_handle_cache;
  match cache with
  | None => open_miss path flags conn
  | Some id =>
      let key := NewKey path flags in
      c ← deref_cache id;
      let '(popped, c) := GetAndPop now key c in
      popped ← lift popped;
      _ ← modify_state (fun st => close_handles (evicted_items popped) (set_cache id c st));
      match target_item popped with
      | Some target =>
          _ ← record_profile conn (RecordCacheAccess kFileHandle kCacheHit 0);
          CreateCacheFileHandleForRead (Some target) conn
      | None =>
          _ ← record_profile conn (RecordCacheAccess kFileHandle kCacheMiss 0);
          counter_pointer ← gets in_use_file_handle_counter;
          counter ← deref_counter counter_pointer;
          _ ← (if 0 <? GetCount key counter.2 then
                 record_profile conn (RecordCacheAccess kFileHandle kCacheEntryInUse 0)
               else mret tt);
          open_miss path flags conn
      end
  end.

(** The rest of [OpenFileExtended] for a handle that is not for reading: the handle is
    wrapped without a look at it, so that a null pointer is dereferenced. *)
Definition OpenForWrite (path : string) (flags : N) conn : Op (option CacheFileSystemHandle) :=
  file_handle ← OpenInternal path flags;
  match file_handle with
  | None => throw UndefinedBehaviour
  | Some h => mret (Some (MkCacheHandle h None conn))
  end.

(** *** [CacheFileSystemHandle::Close] and [~CacheFileSystemHandle] *)
Definition CloseCacheHandle (ch : CacheFileSystemHandle) : Op unit :=
  if OpenForReading (GetFlags (internal_file_handle ch)) then mret tt
  else modify_state (fun st =>
    set_internal (fs_close (handle_id (internal_file_handle ch)) (internal_filesystem st)) st).

Definition DestroyCacheHandle now (ch : CacheFileSystemHandle) : Op unit :=
  let h := internal_file_handle ch in
  match dtor_callback ch with
  | None => modify_state (destroy_handle h)
  | Some (cache_key, cache, counter) =>
      _ ← modify_state (fun st => set_internal (fs_reset (handle_id h) (internal_filesystem st)) st);
      match cache with
      | None =>
          _ ← lift (always_assert (bool_decide (counter = None)));
          modify_state (destroy_handle h)
      | Some id =>
          c ← deref_cache id;
          let '(evicted_handle, c) := ExclusiveMultiLruCache.Put now cache_key h c in
          evicted_handle ← lift evicted_handle;
          _ ← modify_state (fun st => close_handles (option_list evicted_handle) (set_cache id c st));
          counter ← deref_counter counter;
          let '(new_count, n) := Decrement cache_key counter.2 in
          _ ← modify_state (set_counter counter.1 n);
          _ ← lift new_count;
          mret tt
      end
  end.

(** *** The destructor of the filesystem, as far as handles go *)
Definition DestroyFileSystem : Op unit := ClearFileHandleCache.
End Ops.
