(* ===== verification/HandleCacheProofs.v ===== *)
(** * HandleCacheProofs

    The file handles of a cache filesystem ([HandleCache]) are conserved: every internal
    handle has exactly one owner, and the counters show the live ones. *)
From S2P Require Import Prelude OrdMap IoOperations LruCache MultiLru Handler InstanceState HandleCache.

#[local] Open Scope Z_scope.

Import ExclusiveMultiLruCache Counter.

(** ** Ownership

    Every internal handle has one owner: a cache of the heap, a live
    [CacheFileSystemHandle], or a function that runs. *)
Section Ownership.
Context {X : Type} `{InternalHandles X}.
Variables FILE_FLAGS_READ FILE_FLAGS_PARALLEL_ACCESS : N.
Implicit Types (st : handle_state X) (h : FileHandle) (conn now : Z) (pool : list CacheFileSystemHandle).

#[local] Abbreviation NewKey := (NewHandleKey FILE_FLAGS_PARALLEL_ACCESS).

Definition key_of h : FileHandleCacheKey := NewKey (GetPath h) (GetFlags h).

(** The handles of all caches, those dropped by the filesystem included. *)
Definition cached st : list FileHandle := map_to_list (heap_caches st) ≫= fun p => (ClearAndGetValues p.2).1.

(** The handles in [owned], the cached, the closed and the destroyed ones are all the
    handles ever opened, each once. *)
Definition conserved st (owned : list FileHandle) : Prop :=
  seq 0 (next_handle st) ≡ₚ (handle_id <$> owned) ++ (handle_id <$> cached st) ++ closed st ++ destroyed st.

Abbreviation cache_items := (list (N * (FileHandleCacheKey * (FileHandle * Z)))).

(** A cache keeps each handle under its own key, and all of them are for reading. *)
Definition keyed (a : cache_items) : Prop :=
  Forall (fun p => p.1 = key_of p.2.1 /\ OpenForReading FILE_FLAGS_READ (GetFlags p.2.1) = true) (abs a).
Definition cache_ok (c : FileHandleCache) (a : cache_items) : Prop := represents c a /\ keyed a.

Record heap_ok st : Prop := {
  heap_cache id c : heap_caches st !! id = Some c -> exists a, cache_ok c a;
  heap_current id : file_handle_cache st = Some id -> is_Some (heap_caches st !! id);
  heap_counter id : in_use_file_handle_counter st = Some id -> is_Some (heap_counters st !! id);
  heap_paired : file_handle_cache st = None <-> in_use_file_handle_counter st = None;
  heap_fresh id : (next_object st <= id)%nat -> heap_caches st !! id = None /\ heap_counters st !! id = None
}.

(** What a handle has captured is there. *)
Definition captured_ok st (ch : CacheFileSystemHandle) : Prop :=
  match dtor_callback ch with
  | None => True
  | Some (k, cache, counter) =>
      k = key_of (internal_file_handle ch) /\ OpenForReading FILE_FLAGS_READ (GetFlags (internal_file_handle ch)) = true /\
      (cache = None <-> counter = None) /\
      (forall id, cache = Some id -> is_Some (heap_caches st !! id)) /\
      (forall id, counter = Some id -> is_Some (heap_counters st !! id))
  end.

(** The live handles that counter [id] counts under [k]. *)
Definition counts (id : nat) k (ch : CacheFileSystemHandle) : bool :=
  match dtor_callback ch with
  | Some (k', _, Some id') => bool_decide (k' = k /\ id' = id)
  | _ => false
  end.
Definition in_use (id : nat) k pool : nat := length (filter (fun ch => counts id k ch = true) pool).

Definition counters_ok st pool : Prop :=
  forall id m k, heap_counters st !! id = Some m ->
    m !! k = match in_use id k pool with O => None | S n => Some (Z.of_nat (S n)) end.

Definition pool_ok st pool : Prop := Forall (captured_ok st) pool /\ counters_ok st pool.

(** Replacing a cache exchanges handles with it. *)
Lemma cached_set_cache id c c' st :
  heap_caches st !! id = Some c ->
  cached (set_cache id c' st) ++ (ClearAndGetValues c).1 ≡ₚ cached st ++ (ClearAndGetValues c').1.
Proof.
  intros Hc. unfold cached. simpl.
  rewrite <-(map_to_list_delete (heap_caches st) id c Hc).
  rewrite <-insert_delete_eq, map_to_list_insert by apply lookup_delete_eq.
  rewrite !bind_cons. simpl snd. solve_Permutation.
Qed.

Lemma cached_new_cache id c st :
  heap_caches st !! id = None -> cached (set_cache id c st) ≡ₚ cached st ++ (ClearAndGetValues c).1.
Proof.
  intros Hc. unfold cached. simpl. rewrite map_to_list_insert by done.
  rewrite bind_cons. apply Permutation_app_comm.
Qed.

Lemma cache_ok_values (c : FileHandleCache) a : represents c a -> held a ≡ₚ (ClearAndGetValues c).1.
Proof. intros Hr. by apply ClearAndGetValues_represents. Qed.

Lemma held_cached id c a st : heap_caches st !! id = Some c -> represents c a -> held a ⊆+ cached st.
Proof.
  intros Hc Hr. rewrite (cache_ok_values c a Hr). unfold cached.
  rewrite <-(map_to_list_delete (heap_caches st) id c Hc). rewrite bind_cons. by apply submseteq_inserts_r.
Qed.

(** The caches are as small as the number of handles. *)
Lemma cache_small id c a st owned :
  heap_caches st !! id = Some c -> represents c a -> conserved st owned -> (length a <= next_handle st)%nat.
Proof.
  intros Hc Hr Hcons. apply Permutation_length in Hcons. rewrite length_seq, !length_app, !length_fmap in Hcons.
  pose proof (submseteq_length _ _ (held_cached id c a st Hc Hr)) as Hl. unfold held in Hl. rewrite length_fmap in Hl. lia.
Qed.

Lemma heap_ok_set_cache id c a st :
  is_Some (heap_caches st !! id) -> cache_ok c a -> heap_ok st -> heap_ok (set_cache id c st).
Proof.
  intros Hid Hc [H1 H2 H3 H4 H5]. constructor; simpl; try done.
  - intros id' c'. destruct (decide (id = id')) as [<-|Hne].
    + rewrite lookup_insert_eq. intros [= <-]. by exists a.
    + rewrite lookup_insert_ne by done. apply H1.
  - intros id' Hi. destruct (decide (id = id')) as [<-|Hne]; [by rewrite lookup_insert_eq|].
    rewrite lookup_insert_ne by done. by apply H2.
  - intros id' Hle. split; [|by apply H5]. rewrite lookup_insert_ne; [by apply H5|].
    intros <-. destruct (H5 id Hle) as [Hn _]. rewrite Hn in Hid. by destruct Hid.
Qed.

(** An exchange with a cache: [taken] leaves it and [given] enters it. *)
Lemma conserved_exchange id c a c' a' given taken rest st :
  heap_caches st !! id = Some c -> represents c a -> represents c' a' ->
  given ++ held a ≡ₚ held a' ++ taken ->
  conserved st (given ++ rest) -> conserved (set_cache id c' st) (taken ++ rest).
Proof.
  intros Hc Hr Hr' Hx Hcons. unfold conserved in *. simpl. rewrite Hcons.
  pose proof (cached_set_cache id c c' st Hc) as Hs.
  rewrite <-(cache_ok_values _ _ Hr), <-(cache_ok_values _ _ Hr') in Hs.
  rewrite !app_assoc. do 2 f_equiv. rewrite <-!fmap_app. apply Permutation_map.
  apply (Permutation_app_inv_r (held a)). rewrite <-!app_assoc, Hs.
  rewrite (Permutation_app_comm rest), (Permutation_app_comm (cached st)), !app_assoc, Hx. solve_Permutation.
Qed.

Lemma pool_ok_set_cache id c pool st :
  is_Some (heap_caches st !! id) -> pool_ok st pool -> pool_ok (set_cache id c st) pool.
Proof.
  intros Hid [Hf Hc]. split; [|exact Hc]. eapply Forall_impl; [exact Hf|]. intros ch.
  unfold captured_ok. destruct (dtor_callback ch) as [[[k cache] counter]|]; [|done].
  intros (Hk & Hrd & Hp & Hca & Hco). do 3 (split; [done|]). split; [|done].
  intros id' Hi. simpl. destruct (decide (id = id')) as [<-|Hne]; [by rewrite lookup_insert_eq|].
  rewrite lookup_insert_ne by done. by apply Hca.
Qed.

(** *** Closing, destroying and opening *)
Lemma close_handles_frame hs st :
  heap_caches (close_handles hs st) = heap_caches st /\ heap_counters (close_handles hs st) = heap_counters st /\
  file_handle_cache (close_handles hs st) = file_handle_cache st /\
  in_use_file_handle_counter (close_handles hs st) = in_use_file_handle_counter st /\
  next_object (close_handles hs st) = next_object st /\ next_handle (close_handles hs st) = next_handle st /\
  destroyed (close_handles hs st) = destroyed st /\ closed (close_handles hs st) ≡ₚ (handle_id <$> hs) ++ closed st.
Proof.
  revert st. unfold close_handles. induction hs as [|h hs IH]; intros st; [done|]. simpl.
  destruct (IH (close_handle h st)) as (-> & -> & -> & -> & -> & -> & -> & ->). simpl. do 7 (split; [done|]).
  symmetry. apply Permutation_middle.
Qed.

(** Nothing but the heap and the pointers matters for the other two invariants. *)
Lemma heap_ok_frame st st' :
  heap_caches st' = heap_caches st -> heap_counters st' = heap_counters st ->
  file_handle_cache st' = file_handle_cache st -> in_use_file_handle_counter st' = in_use_file_handle_counter st ->
  next_object st' = next_object st -> heap_ok st -> heap_ok st'.
Proof. intros E1 E2 E3 E4 E5 [H1 H2 H3 H4 H5]. constructor; by rewrite ?E1, ?E2, ?E3, ?E4, ?E5. Qed.

Lemma pool_ok_frame st st' pool :
  heap_caches st' = heap_caches st -> heap_counters st' = heap_counters st -> pool_ok st pool -> pool_ok st' pool.
Proof. unfold pool_ok, captured_ok, counters_ok. by intros -> ->. Qed.

Lemma cached_frame st st' : heap_caches st' = heap_caches st -> cached st' = cached st.
Proof. unfold cached. by intros ->. Qed.

Lemma conserved_frame st st' owned owned' :
  heap_caches st' = heap_caches st -> next_handle st' = next_handle st -> closed st' = closed st ->
  destroyed st' = destroyed st -> owned ≡ₚ owned' -> conserved st owned -> conserved st' owned'.
Proof. intros E1 E2 E3 E4 Hp. unfold conserved. by rewrite (cached_frame st st' E1), E2, E3, E4, Hp. Qed.

Lemma conserved_close hs rest st : conserved st (hs ++ rest) -> conserved (close_handles hs st) rest.
Proof.
  unfold conserved. destruct (close_handles_frame hs st) as (E1 & _ & _ & _ & _ & -> & -> & ->).
  rewrite (cached_frame _ _ E1), fmap_app. intros ->. solve_Permutation.
Qed.

Lemma heap_ok_close hs st : heap_ok st -> heap_ok (close_handles hs st).
Proof. destruct (close_handles_frame hs st) as (E1 & E2 & E3 & E4 & E5 & _). by apply heap_ok_frame. Qed.

Lemma pool_ok_close hs st pool : pool_ok st pool -> pool_ok (close_handles hs st) pool.
Proof. destruct (close_handles_frame hs st) as (E1 & E2 & _). by apply pool_ok_frame. Qed.

Lemma conserved_destroy h rest st : conserved st (h :: rest) -> conserved (destroy_handle h st) rest.
Proof.
  unfold conserved. rewrite fmap_cons. simpl. intros ->. rewrite (cached_frame st (destroy_handle h st)) by done.
  solve_Permutation.
Qed.

(** The invariant of a state in which the live handles are [pool] and a running function
    owns [floating] besides. *)
Record handles_ok st pool (floating : list FileHandle) : Prop := {
  ok_heap : heap_ok st;
  ok_conserved : conserved st (floating ++ (internal_file_handle <$> pool));
  ok_pool : pool_ok st pool
}.

Lemma handles_ok_close st pool hs floating :
  handles_ok st pool (hs ++ floating) -> handles_ok (close_handles hs st) pool floating.
Proof.
  intros [H1 H2 H3]. constructor; [by apply heap_ok_close| |by apply pool_ok_close].
  rewrite <-app_assoc in H2. by apply conserved_close.
Qed.

Lemma handles_ok_destroy st pool h floating :
  handles_ok st pool (h :: floating) -> handles_ok (destroy_handle h st) pool floating.
Proof.
  intros [H1 H2 H3]. constructor; [by apply (heap_ok_frame st)| |by apply (pool_ok_frame st)].
  by apply conserved_destroy.
Qed.

(** Steps that touch nothing the invariant is about. *)
Lemma handles_ok_frame st st' pool floating :
  heap_caches st' = heap_caches st -> heap_counters st' = heap_counters st ->
  file_handle_cache st' = file_handle_cache st -> in_use_file_handle_counter st' = in_use_file_handle_counter st ->
  next_object st' = next_object st -> next_handle st' = next_handle st ->
  closed st' = closed st -> destroyed st' = destroyed st ->
  handles_ok st pool floating -> handles_ok st' pool floating.
Proof.
  intros E1 E2 E3 E4 E5 E6 E7 E8 [H1 H2 H3]. constructor; [by apply (heap_ok_frame st)| |by apply (pool_ok_frame st)].
  by eapply (conserved_frame st).
Qed.

Lemma handles_ok_exchange id c a c' a' given taken st pool floating :
  heap_caches st !! id = Some c -> represents c a -> cache_ok c' a' ->
  given ++ held a ≡ₚ held a' ++ taken ->
  handles_ok st pool (given ++ floating) -> handles_ok (set_cache id c' st) pool (taken ++ floating).
Proof.
  intros Hc Hr [Hr' Hk'] Hx [H1 H2 H3]. constructor.
  - eapply heap_ok_set_cache; [eauto|by split|done].
  - rewrite <-app_assoc in *. by eapply conserved_exchange.
  - apply pool_ok_set_cache; eauto.
Qed.

Lemma OpenInternal_ok path flags st pool :
  handles_ok st pool [] ->
  let '(r, st') := OpenInternal path flags st in
  match r with
  | Ok (Some h) => handles_ok st' pool [h] /\ next_handle st' = S (next_handle st) /\ handle_id h = next_handle st /\
      (fs_open path flags (internal_filesystem st)).1 = Ok (Some (GetPath h, GetFlags h))
  | Ok None => handles_ok st' pool [] /\ next_handle st' = next_handle st /\
      (fs_open path flags (internal_filesystem st)).1 = Ok None
  | Throw e => handles_ok st' pool [] /\ next_handle st' = next_handle st /\
      (fs_open path flags (internal_filesystem st)).1 = Throw e
  end.
Proof.
  intros Hok. unfold OpenInternal. destruct (fs_open path flags (internal_filesystem st)) as [[[[p f]|]|e] x]; simpl.
  - split; [|done]. destruct Hok as [H1 H2 H3]. constructor; [by apply (heap_ok_frame st)| |by apply (pool_ok_frame st)].
    unfold conserved in *. simpl next_handle. rewrite seq_S, (cached_frame st) by done. simpl in *. rewrite H2. solve_Permutation.
  - split; [|done]. by eapply handles_ok_frame; [..|exact Hok].
  - split; [|done]. by eapply handles_ok_frame; [..|exact Hok].
Qed.

(** *** Clearing *)
Lemma deref_cache_ok id c st : heap_caches st !! id = Some c -> deref_cache id st = (Ok c, st).
Proof. intros Hc. unfold deref_cache. by rewrite Hc. Qed.

(** The handles of the current cache. *)
Definition current_handles st : list FileHandle :=
  match file_handle_cache st ≫= fun id => heap_caches st !! id with Some c => (ClearAndGetValues c).1 | None => [] end.

Lemma handles_ok_pointers st pool floating :
  handles_ok st pool floating -> handles_ok (set_pointers None None st) pool floating.
Proof.
  intros [H1 H2 H3]. constructor; [|exact H2|by apply (pool_ok_frame st)].
  destruct H1 as [? ? ? ? ?]. by constructor.
Qed.

Lemma ClearFileHandleCache_ok st pool floating :
  handles_ok st pool floating ->
  exists st', ClearFileHandleCache st = (Ok tt, st') /\ handles_ok st' pool floating /\
    next_handle st' = next_handle st /\ file_handle_cache st' = None /\
    closed st' ≡ₚ (handle_id <$> current_handles st) ++ closed st.
Proof.
  intros Hok. unfold ClearFileHandleCache, current_handles.
  destruct (file_handle_cache st) as [id|] eqn:Hf; [|by exists st].
  destruct (heap_current _ (ok_heap _ _ _ Hok) id Hf) as [c Hc]. cbn [mbind option_bind]. rewrite Hc.
  rewrite (handler_ok _ _ _ _ _ (deref_cache_ok id c st Hc)).
  destruct (ClearAndGetValues c) as [hs c'] eqn:Hcl.
  destruct (heap_cache _ (ok_heap _ _ _ Hok) id c Hc) as (a & Hr & Hk).
  destruct (ClearAndGetValues_represents c a Hr) as [Hr' Hp]. rewrite Hcl in *. simpl in Hr', Hp.
  assert (handles_ok (close_handles hs (set_cache id c' st)) pool floating) as Hok'.
  { apply handles_ok_close. eapply (handles_ok_exchange id c a c' [] []); [done..|by split; [|apply List.Forall_nil]| |done].
    simpl. by rewrite Hp. }
  eexists. split; [reflexivity|]. destruct (close_handles_frame hs (set_cache id c' st)) as (_ & _ & _ & _ & _ & En & _ & Ec).
  split; [by apply handles_ok_pointers|]. split; [exact En|]. split; [done|]. simpl. by rewrite Ec.
Qed.

(** The keys of one path are consecutive, and [start_key] is before them. *)
Lemma path_keys_start path flags : less (NewKey path flags) (NewKey path 0) = false.
Proof.
  apply not_true_iff_false. simpl. rewrite FileHandleCacheKeyLess_spec. intros [Hl|[_ Hl]]; simpl in Hl.
  - by rewrite (less_irrefl (KeyCompare := string_less)) in Hl.
  - rewrite N.lor_0_l in Hl. enough (FILE_FLAGS_PARALLEL_ACCESS <= N.lor flags FILE_FLAGS_PARALLEL_ACCESS)%N by lia.
    apply N.ldiff_le, N.bits_inj_0. intros n. rewrite N.ldiff_spec, N.lor_spec.
    by destruct (N.testbit flags n), (N.testbit FILE_FLAGS_PARALLEL_ACCESS n).
Qed.

Lemma path_keys_convex path (a b : FileHandleCacheKey) :
  less a (NewKey path 0) = false -> not_less a b -> key_path b = path -> key_path a = path.
Proof.
  intros Ha Hab <-. unfold not_less in Hab. simpl in *.
  destruct (decide (key_path a = key_path b)) as [|Hn]; [done|exfalso].
  destruct (less_total (KeyCompare := string_less) _ _ Hn) as [Hl|Hl]; simpl in Hl.
  - enough (FileHandleCacheKeyLess a (NewKey (key_path b) 0) = true) by congruence.
    apply FileHandleCacheKeyLess_spec. by left.
  - enough (FileHandleCacheKeyLess b a = true) by congruence. apply FileHandleCacheKeyLess_spec. by left.
Qed.

Definition of_path (path : string) h : Prop := GetPath h = path.
#[local] Instance of_path_dec path h : Decision (of_path path h).
Proof. unfold of_path. apply _. Defined.

Lemma cleared_keys path c a x :
  cache_ok c a -> x ∈ a ->
  x.2.1 ∈ take_while (fun key => String.eqb (key_path key) path) (keys_from (NewKey path 0) (entry_map c)) <->
  of_path path (item_value x).
Proof.
  intros [Hr Hk'] Hx. assert (forall y, y ∈ a -> y.2.1 = key_of y.2.2.1) as Hk.
  { intros y Hy. unfold keyed in Hk'. rewrite Forall_forall in Hk'. apply (Hk' y.2). unfold abs. by apply list_elem_of_fmap_2. }
  assert (forall k, is_Some (entry_map c !! k) -> exists y, y ∈ a /\ y.2.1 = k) as Hin.
  { intros k. rewrite (elem_of_map_keys c a k Hr). unfold abs. rewrite <-list_fmap_compose.
    intros (y & -> & Hy)%list_elem_of_fmap. by exists y. }
  rewrite elem_of_walk.
  - rewrite String.eqb_eq, (Hk x Hx). unfold of_path, item_value. simpl. split; [by intros []|]. intros Hp. split; [|done].
    rewrite (elem_of_map_keys c a _ Hr), <-(Hk x Hx). unfold abs. rewrite <-list_fmap_compose.
    apply list_elem_of_fmap. by exists x.
  - intros k (y & Hy & <-)%Hin Hp%String.eqb_eq. rewrite (Hk y Hy) in *. rewrite <-Hp. apply path_keys_start.
  - intros k k' _ _ Hs Hl. rewrite !String.eqb_eq. by apply path_keys_convex.
Qed.

(** Clearing one path closes exactly the cached handles of the path. *)
Lemma ClearFileHandleCacheOf_ok path st pool floating :
  handles_ok st pool floating ->
  exists st', ClearFileHandleCacheOf FILE_FLAGS_PARALLEL_ACCESS path st = (Ok tt, st') /\ handles_ok st' pool floating /\
    next_handle st' = next_handle st /\ file_handle_cache st' = file_handle_cache st /\
    closed st' ≡ₚ (handle_id <$> filter (of_path path) (current_handles st)) ++ closed st /\
    current_handles st' ≡ₚ filter (fun h => ~ of_path path h) (current_handles st).
Proof.
  intros Hok. unfold ClearFileHandleCacheOf, current_handles.
  destruct (file_handle_cache st) as [id|] eqn:Hf; [|exists st; rewrite Hf; do 5 (split; [done|]); done].
  destruct (heap_current _ (ok_heap _ _ _ Hok) id Hf) as [c Hc]. cbn [mbind option_bind]. rewrite Hc.
  rewrite (handler_ok _ _ _ _ _ (deref_cache_ok id c st Hc)).
  destruct (heap_cache _ (ok_heap _ _ _ Hok) id c Hc) as (a & Hr & Hk).
  destruct (ClearAndGetValuesFrom_represents (NewKey path 0) (fun key => String.eqb (key_path key) path) c a Hr)
    as (out & c' & a' & -> & Hr' & Ha' & Hp). simpl.
  assert (a' = filter (fun x => ~ of_path path (item_value x)) a) as ->.
  { rewrite Ha'. clear -Hr Hk. assert (cache_ok c a) as Hco by done. clear Hr Hk.
    apply filter_ext_in. intros x Hx. by rewrite (cleared_keys path c a x). }
  assert (held (filter (fun x => ~ of_path path (item_value x)) a) = filter (fun h => ~ of_path path h) (held a)) as Hheld.
  { unfold held. by rewrite filter_of_fmap. }
  assert (out ≡ₚ filter (of_path path) (held a)) as Hout.
  { rewrite Hheld in Hp. rewrite <-(filter_app_complement (of_path path) (held a)) in Hp at 1.
    rewrite (Permutation_app_comm (filter _ _) out) in Hp. by apply Permutation_app_inv_r in Hp. }
  assert (handles_ok (close_handles out (set_cache id c' st)) pool floating) as Hok'.
  { apply handles_ok_close. eapply (handles_ok_exchange id c a c' _ []); [done..| |by simpl|done].
    split; [done|]. unfold keyed, abs in *. apply Forall_fmap in Hk. apply Forall_fmap. by apply Forall_filter_of. }
  eexists. split; [reflexivity|].
  destruct (close_handles_frame out (set_cache id c' st)) as (E1 & _ & E3 & _ & _ & En & _ & Ec).
  split; [done|]. split; [done|]. split; [by rewrite E3|]. rewrite Ec, E3, E1. simpl. rewrite Hf. simpl. rewrite lookup_insert_eq.
  rewrite <-(cache_ok_values _ _ Hr), <-(cache_ok_values _ _ Hr'), Hheld. by rewrite Hout.
Qed.

(** *** Enabling the cache *)
Lemma in_use_uncaptured st pool id k : Forall (captured_ok st) pool -> heap_counters st !! id = None -> in_use id k pool = O.
Proof.
  intros Hf Hn. unfold in_use. induction Hf as [|ch pool Hch Hf IH]; [done|]. rewrite filter_cons_False; [done|].
  unfold captured_ok, counts in *. destruct (dtor_callback ch) as [[[k' cache] [id'|]]|]; try done.
  destruct Hch as (_ & _ & _ & _ & Hc). rewrite bool_decide_eq_true. intros [_ ->].
  destruct (Hc id eq_refl) as [m Hm]. congruence.
Qed.

(** What [SetFileHandleCache] makes when there was no cache. *)
Definition with_new_cache (max_entry timeout : Z) st : handle_state X :=
  let '(id, st) := allocate_object st in
  let st := set_pointers (Some id) (in_use_file_handle_counter st) (set_cache id (new_multi max_entry timeout) st) in
  let '(id, st) := allocate_object st in
  set_pointers (file_handle_cache st) (Some id) (set_counter id ∅ st).

Lemma with_new_cache_ok max_entry timeout st pool floating :
  handles_ok st pool floating -> handles_ok (with_new_cache max_entry timeout st) pool floating.
Proof.
  intros [[H1 H2 H3 H4 H5] Hcons [Hf Hc]].
  destruct (H5 (next_object st)) as [Hn1 Hn2]; [lia|]. destruct (H5 (S (next_object st))) as [Hn3 Hn4]; [lia|].
  constructor; [constructor; simpl|..].
  - intros id c. destruct (decide (next_object st = id)) as [<-|Hne].
    + rewrite lookup_insert_eq. intros [= <-]. exists []. split; [apply new_multi_represents|by apply List.Forall_nil].
    + rewrite lookup_insert_ne by done. apply H1.
  - intros id [= <-]. by rewrite lookup_insert_eq.
  - intros id [= <-]. by rewrite lookup_insert_eq.
  - done.
  - intros id Hle. rewrite !lookup_insert_ne by lia. apply H5. lia.
  - unfold conserved in *. rewrite Hcons. simpl.
    rewrite (cached_frame (set_cache (next_object st) (new_multi max_entry timeout) st) (with_new_cache max_entry timeout st)) by done.
    rewrite cached_new_cache by done. simpl. by rewrite app_nil_r.
  - split.
    + eapply Forall_impl; [exact Hf|]. intros ch. unfold captured_ok. destruct (dtor_callback ch) as [[[k cache] counter]|]; [|done].
      intros (Hk & Hrd & Hp & Hca & Hco). do 3 (split; [done|]). simpl. split; intros id Hi.
      * rewrite lookup_insert_ne; [by apply Hca|]. intros <-. destruct (Hca _ Hi). congruence.
      * rewrite lookup_insert_ne; [by apply Hco|]. intros <-. destruct (Hco _ Hi). congruence.
    + intros id m k. simpl. destruct (decide (S (next_object st) = id)) as [<-|Hne].
      * rewrite lookup_insert_eq. intros [= <-]. by rewrite (in_use_uncaptured st).
      * rewrite lookup_insert_ne by done. apply Hc.
Qed.

Lemma SetFileHandleCache_ok enable max_entry timeout st pool floating :
  handles_ok st pool floating ->
  exists st', SetFileHandleCache enable max_entry timeout st = (Ok tt, st') /\ handles_ok st' pool floating /\
    next_handle st' = next_handle st /\ (is_Some (file_handle_cache st') <-> enable = true) /\
    closed st' ≡ₚ (if enable then [] else handle_id <$> current_handles st) ++ closed st.
Proof.
  intros Hok. unfold SetFileHandleCache. destruct enable; simpl.
  - pose proof (heap_paired _ (ok_heap _ _ _ Hok)) as Hp.
    destruct (file_handle_cache st) as [id|] eqn:Hf.
    + destruct (in_use_file_handle_counter st) as [id'|] eqn:Hi; [|by destruct Hp as [_ Hp]; specialize (Hp eq_refl)].
      exists st. split; [done|]. split; [done|]. split; [done|]. rewrite Hf. by split; [split|].
    + destruct (in_use_file_handle_counter st) as [id'|] eqn:Hi; [by destruct Hp as [Hp _]; specialize (Hp eq_refl)|].
      exists (with_new_cache max_entry timeout st). split; [unfold with_new_cache; simpl; by rewrite Hi|].
      split; [by apply with_new_cache_ok|]. split; [done|]. by split; [split|].
  - destruct (ClearFileHandleCache_ok st pool floating Hok) as (st' & -> & Hok' & Hn & Hf & Hc).
    exists st'. split; [done|]. split; [done|]. split; [done|]. split; [|done]. rewrite Hf. split; [by intros []|done].
Qed.

(** *** Handing out a handle *)
Lemma pool_bound st pool floating :
  handles_ok st pool floating -> (length floating + length pool <= next_handle st)%nat.
Proof.
  intros [_ Hc _]. unfold conserved in Hc. apply Permutation_length in Hc.
  rewrite length_seq, !length_app, !length_fmap, length_app, length_fmap in Hc. lia.
Qed.

Lemma u32_small z : 0 <= z < 4294967296 -> u32 z = z.
Proof. apply Z.mod_small. Qed.

Lemma heap_ok_set_counter id m st : is_Some (heap_counters st !! id) -> heap_ok st -> heap_ok (set_counter id m st).
Proof.
  intros [m0 Hm] [A1 A2 A3 A4 A5]. constructor; simpl; try done.
  - intros id' Hid'. destruct (decide (id = id')) as [<-|Hne]; [by rewrite lookup_insert_eq|].
    rewrite lookup_insert_ne by done. by apply A3.
  - intros id' Hle. split; [by apply A5|]. rewrite lookup_insert_ne; [by apply A5|].
    intros <-. destruct (A5 id Hle). congruence.
Qed.

Lemma captured_ok_set_counter id m st ch : captured_ok st ch -> captured_ok (set_counter id m st) ch.
Proof.
  unfold captured_ok. destruct (dtor_callback ch) as [[[k cache] counter]|]; [|done].
  intros (Hk & Hrd & Hp & Hca & Hco). do 4 (split; [done|]). intros id' Hi'. simpl.
  destruct (decide (id = id')) as [<-|Hne]; [by rewrite lookup_insert_eq|]. rewrite lookup_insert_ne by done. by apply Hco.
Qed.

(** The counter of a handle that is created, and of one that goes. *)
Lemma counters_ok_increment id k m st ch pool :
  counters_ok st pool -> heap_counters st !! id = Some m -> Z.of_nat (length pool) + 1 < 4294967296 ->
  (forall id' k', counts id' k' ch = bool_decide (k' = k /\ id' = id)) ->
  counters_ok (set_counter id (Increment k m).2 st) (ch :: pool).
Proof.
  intros Hc Hm Hb Hch id' m' k'. simpl. unfold in_use. rewrite filter_cons, Hch.
  pose proof (Hc id m k Hm) as Hk. unfold in_use in Hk.
  assert (length (filter (fun ch => counts id k ch = true) pool) <= length pool)%nat by apply length_filter.
  destruct (decide (id = id')) as [<-|Hne].
  - rewrite lookup_insert_eq. intros [= <-]. destruct (decide (k' = k)) as [->|Hk'].
    + rewrite decide_True by (by apply bool_decide_eq_true_2). rewrite lookup_insert_eq. unfold GetCount. rewrite Hk. simpl.
      destruct (length (filter _ pool)) as [|n]; simpl; rewrite u32_small by lia; f_equal; lia.
    + rewrite decide_False by (rewrite bool_decide_eq_true; by intros []). rewrite lookup_insert_ne by done. by apply Hc.
  - rewrite decide_False by (rewrite bool_decide_eq_true; by intros []). rewrite lookup_insert_ne by done. apply Hc.
Qed.

Lemma CreateCacheFileHandleForRead_ok h conn st pool floating :
  handles_ok st pool (h :: floating) -> OpenForReading FILE_FLAGS_READ (GetFlags h) = true ->
  Z.of_nat (next_handle st) < 4294967296 ->
  exists ch st', CreateCacheFileHandleForRead FILE_FLAGS_READ FILE_FLAGS_PARALLEL_ACCESS (Some h) conn st = (Ok (Some ch), st') /\
    internal_file_handle ch = h /\ GetConnectionId ch = conn /\ handles_ok st' (ch :: pool) floating /\
    next_handle st' = next_handle st /\ closed st' = closed st.
Proof.
  intros Hok Hr Hb. pose proof (pool_bound _ _ _ Hok) as Hlen. simpl in Hlen. destruct Hok as [H1 H2 [H3 H4]].
  set (captured := (file_handle_cache st, in_use_file_handle_counter st)).
  set (ch := MkCacheHandle h (Some (key_of h, captured.1, captured.2)) conn).
  unfold CreateCacheFileHandleForRead. rewrite Hr. simpl always_assert.
  rewrite (handler_ok _ _ _ _ _ (eq_refl : lift (Ok tt) st = (Ok tt, st))).
  rewrite (handler_ok _ _ _ _ _ (eq_refl : gets (fun st => (file_handle_cache st, in_use_file_handle_counter st)) st = (Ok captured, st))).
  assert (captured_ok st ch) as Hch.
  { do 2 (split; [done|]). split; [apply H1|]. split; intros id; apply H1. }
  destruct (in_use_file_handle_counter st) as [id|] eqn:Hi.
  - destruct (heap_counter _ H1 id Hi) as [m Hm]. exists ch, (set_counter id (Increment (key_of h) m).2 st).
    split.
    { unfold captured, mbind, Handler_bind, deref_counter. simpl. by rewrite Hm. }
    do 2 (split; [done|]). split; [|done]. constructor.
    + apply heap_ok_set_counter; [eauto|done].
    + eapply (conserved_frame st); [done..|exact (Permutation_middle floating _ h)|exact H2].
    + split.
      { apply Forall_cons. split; [by apply captured_ok_set_counter|]. eapply Forall_impl; [exact H3|].
        intros ch'. apply captured_ok_set_counter. }
      apply counters_ok_increment; [done|done|lia|]. intros id' k'. unfold counts, ch, captured. simpl.
      apply bool_decide_ext. split; by intros [-> ->].
  - exists ch, st. split; [unfold captured; simpl; done|]. do 2 (split; [done|]). split; [|done]. constructor; [done|..].
    + eapply (conserved_frame st); [done..|exact (Permutation_middle floating _ h)|exact H2].
    + split; [by apply Forall_cons|]. intros id m k Hm. unfold in_use. rewrite filter_cons_False; [by apply H4|done].
Qed.

(** *** Opening *)
Context `{!InternalHandlesLaws X}.
#[local] Abbreviation Reading flags := (OpenForReading FILE_FLAGS_READ flags).

Lemma OpenForReading_parallel flags : Reading flags = true -> Reading (N.lor flags FILE_FLAGS_PARALLEL_ACCESS) = true.
Proof.
  unfold OpenForReading. rewrite !negb_true_iff, !N.eqb_neq, N.land_lor_distr_l. intros Hr Hz.
  by apply N.lor_eq_0_iff in Hz as [Hz _].
Qed.

(** What an open leaves behind: a live handle of the path that was asked for, nothing, or
    an exception of the internal filesystem. *)
Definition opened_ok (found : list FileHandle) path flags conn st pool (r : Res (option CacheFileSystemHandle)) st' : Prop :=
  match r with
  | Ok (Some ch) =>
      let h := internal_file_handle ch in
      handles_ok st' (ch :: pool) [] /\ GetConnectionId ch = conn /\ GetPath h = path /\
      N.lor (GetFlags h) FILE_FLAGS_PARALLEL_ACCESS = N.lor flags FILE_FLAGS_PARALLEL_ACCESS /\
      (h ∈ found /\ next_handle st' = next_handle st \/
       handle_id h = next_handle st /\ next_handle st' = S (next_handle st))
  | Ok None => handles_ok st' pool [] /\ next_handle st' = next_handle st
  | Throw e => handles_ok st' pool [] /\ next_handle st' = next_handle st /\ exists p f x, (fs_open (X := X) p f x).1 = Throw e
  end.

Lemma lor_twice a b : N.lor (N.lor a b) b = N.lor a b.
Proof. by rewrite <-N.lor_assoc, N.lor_diag. Qed.

Lemma opened_ok_timed found path flags conn op (m : Handler (handle_state X) (option CacheFileSystemHandle)) st pool :
  (let '(r, st') := m st in opened_ok found path flags conn st pool r st') ->
  let '(r, st') := timed conn op m st in opened_ok found path flags conn st pool r st'.
Proof.
  unfold timed. destruct (m st) as [r st']. unfold opened_ok.
  assert (forall pool', handles_ok st' pool' [] -> handles_ok (record_profile conn (RecordOperation op) st').2 pool' []) as Hrec.
  { intros pool' Hok. by eapply handles_ok_frame; [..|exact Hok]. }
  destruct r as [[ch|]|e]; simpl; [intros []; split; auto..].
Qed.

Lemma open_miss_ok path flags conn st pool :
  handles_ok st pool [] -> Reading flags = true -> Z.of_nat (next_handle st) + 1 < 4294967296 ->
  let '(r, st') := open_miss FILE_FLAGS_READ FILE_FLAGS_PARALLEL_ACCESS path flags conn st in
  opened_ok [] path flags conn st pool r st'.
Proof.
  intros Hok Hr Hb. pose proof (OpenInternal_ok path (N.lor flags FILE_FLAGS_PARALLEL_ACCESS) st pool Hok) as Ho.
  unfold open_miss. apply opened_ok_timed. unfold mbind, Handler_bind.
  destruct (OpenInternal path (N.lor flags FILE_FLAGS_PARALLEL_ACCESS) st) as [[[h|]|e] st1] eqn:Ho1.
  - destruct Ho as (Hok1 & Hn & Hid & Hfs). apply fs_open_law in Hfs as [Hp Hfl].
    destruct (CreateCacheFileHandleForRead_ok h conn st1 pool [] Hok1) as (ch & st' & -> & Hh & Hconn & Hok' & Hn' & _).
    { rewrite Hfl. by apply OpenForReading_parallel. }
    { lia. }
    simpl. rewrite Hh. split; [done|]. split; [done|]. split; [done|]. split; [by rewrite Hfl, lor_twice|].
    right. split; congruence.
  - destruct Ho as (Hok1 & Hn & _). by split.
  - destruct Ho as (Hok1 & Hn & Hfs). split; [done|]. split; [done|]. by eexists _, _, _.
Qed.

Lemma keyed_sub (a a' : cache_items) gone :
  abs a ≡ₚ abs a' ++ gone -> keyed a ->
  keyed a' /\ Forall (fun p => p.1 = key_of p.2.1 /\ Reading (GetFlags p.2.1) = true) gone.
Proof. unfold keyed. intros -> Hk. by apply Forall_app in Hk. Qed.

Lemma record_profile_ok conn e st pool floating :
  handles_ok st pool floating ->
  exists st', record_profile conn e st = (Ok tt, st') /\ handles_ok st' pool floating /\ next_handle st' = next_handle st /\
    in_use_file_handle_counter st' = in_use_file_handle_counter st.
Proof. intros Hok. eexists. split; [reflexivity|]. split; [|done]. by eapply handles_ok_frame; [..|exact Hok]. Qed.

Lemma GetOrCreateFileHandleForRead_ok now path flags conn st pool :
  handles_ok st pool [] -> Reading flags = true -> Z.of_nat (next_handle st) + 1 < 4294967296 ->
  let '(r, st') := GetOrCreateFileHandleForRead FILE_FLAGS_READ FILE_FLAGS_PARALLEL_ACCESS now path flags conn st in
  opened_ok (current_handles st) path flags conn st pool r st'.
Proof.
  intros Hok Hr Hb. unfold GetOrCreateFileHandleForRead. rewrite Hr. simpl always_assert.
  rewrite (handler_ok _ _ _ _ _ (eq_refl : lift (Ok tt) st = (Ok tt, st))).
  rewrite (handler_ok _ _ _ _ _ (eq_refl : gets file_handle_cache st = (Ok (file_handle_cache st), st))).
  destruct (file_handle_cache st) as [id|] eqn:Hf.
  2:{ unfold current_handles. rewrite Hf. by apply open_miss_ok. }
  destruct (heap_current _ (ok_heap _ _ _ Hok) id Hf) as [c Hc].
  destruct (heap_cache _ (ok_heap _ _ _ Hok) id c Hc) as (a & Hrep & Hk).
  rewrite (handler_ok _ _ _ _ _ (deref_cache_ok id c st Hc)).
  destruct (GetAndPop_represents now (NewKey path flags) c a Hrep) as (ev & target & c' & a' & -> & (Hrep' & Hp & _) & Hspec).
  destruct (spec_take_perm _ _ _ _ _ _ _ _ Hspec) as (gone & Hgone & Hgk & Hgv).
  destruct (keyed_sub a a' gone Hgone Hk) as [Hk' Hgkeyed].
  rewrite (handler_ok _ _ _ _ _ (eq_refl : lift (Ok (MkPopped ev target)) st = (Ok (MkPopped ev target), st))).
  set (st1 := close_handles ev (set_cache id c' st)).
  rewrite (handler_ok _ _ _ _ _ (eq_refl : modify_state (fun st => close_handles ev (set_cache id c' st)) st = (Ok tt, st1))).
  assert (handles_ok st1 pool (option_list target)) as Hok1.
  { apply handles_ok_close. rewrite <-(app_nil_r (ev ++ _)).
    eapply (handles_ok_exchange id c a c' a' []); [done..|by split|by rewrite app_nil_l|done]. }
  destruct (close_handles_frame ev (set_cache id c' st)) as (_ & _ & _ & Ei & _ & En & _ & _).
  fold st1 in Ei, En. simpl in Ei, En. cbn [target_item].
  destruct target as [h|].
  - destruct (record_profile_ok conn (RecordCacheAccess kFileHandle kCacheHit 0) st1 pool [h] Hok1) as (st2 & E2 & Hok2 & En2 & _).
    rewrite (handler_ok _ _ _ _ _ E2).
    assert (h ∈ (fun p : FileHandleCacheKey * (FileHandle * Z) => p.2.1) <$> gone) as Hin
      by (rewrite Hgv; apply elem_of_app; right; by apply list_elem_of_singleton).
    apply list_elem_of_fmap in Hin as (p & -> & Hpin). rewrite Forall_forall in Hgk, Hgkeyed.
    pose proof (Hgk p Hpin) as Hkey. destruct (Hgkeyed p Hpin) as [Hkey' Hrd]. rewrite Hkey in Hkey'.
    destruct (CreateCacheFileHandleForRead_ok p.2.1 conn st2 pool [] Hok2 Hrd) as (ch & st' & -> & Hh & Hconn & Hok' & Hn' & _); [lia|].
    unfold opened_ok. simpl. rewrite Hh. split; [done|]. split; [done|].
    unfold key_of in Hkey'. injection Hkey' as Hpath Hflags. split; [done|]. split; [done|]. left. split; [|congruence].
    unfold current_handles. rewrite Hf. cbn [mbind option_bind]. rewrite Hc, <-(cache_ok_values c a Hrep), Hp.
    apply elem_of_app. right. apply elem_of_app. right. by apply list_elem_of_singleton.
  - destruct (record_profile_ok conn (RecordCacheAccess kFileHandle kCacheMiss 0) st1 pool [] Hok1) as (st2 & E2 & Hok2 & En2 & Ei2).
    rewrite (handler_ok _ _ _ _ _ E2).
    rewrite (handler_ok _ _ _ _ _ (eq_refl : gets in_use_file_handle_counter st2 = (Ok (in_use_file_handle_counter st2), st2))).
    destruct (in_use_file_handle_counter st2) as [cid|] eqn:Hi.
    2:{ assert (in_use_file_handle_counter st = None) as Hn by congruence. apply (heap_paired _ (ok_heap _ _ _ Hok)) in Hn. congruence. }
    destruct (heap_counter _ (ok_heap _ _ _ Hok2) cid Hi) as [m Hm].
    rewrite (handler_ok (deref_counter (Some cid)) _ st2 (cid, m) st2) by (unfold deref_counter; simpl; by rewrite Hm).
    assert (exists st3, (if 0 <? GetCount (NewKey path flags) m then
        record_profile conn (RecordCacheAccess kFileHandle kCacheEntryInUse 0) else mret tt) st2 = (Ok tt, st3) /\
      handles_ok st3 pool [] /\ next_handle st3 = next_handle st2) as (st3 & E3 & Hok3 & En3).
    { destruct (0 <? _); [|by exists st2]. destruct (record_profile_ok conn (RecordCacheAccess kFileHandle kCacheEntryInUse 0) st2 pool [] Hok2)
        as (st3 & ? & ? & ? & _). by exists st3. }
    rewrite (handler_ok _ _ _ _ _ E3).
    pose proof (open_miss_ok path flags conn st3 pool Hok3 Hr ltac:(lia)) as Hopen.
    destruct (open_miss _ _ path flags conn st3) as [[[ch|]|e] st']; simpl in *.
    + destruct Hopen as (Ho & Hconn & Hp' & Hfl & Hor). split; [done|]. split; [done|]. split; [done|]. split; [done|]. right.
      destruct Hor as [[Hin Hnn]|[Hid Hnn]]; [by apply elem_of_nil in Hin|split; congruence].
    + destruct Hopen as [? ?]. split; [done|congruence].
    + destruct Hopen as (? & ? & ?). split; [done|]. split; [congruence|done].
Qed.

Lemma OpenForWrite_ok path flags conn st pool :
  handles_ok st pool [] -> Reading flags = false -> (forall x, (fs_open path flags x).1 <> Ok None) ->
  let '(r, st') := OpenForWrite path flags conn st in opened_ok [] path flags conn st pool r st'.
Proof.
  intros Hok Hr Hnn. pose proof (OpenInternal_ok path flags st pool Hok) as Ho.
  unfold OpenForWrite, mbind, Handler_bind. destruct (OpenInternal path flags st) as [[[h|]|e] st1] eqn:Ho1.
  - destruct Ho as ([H1 H2 [H3 H4]] & Hn & Hid & Hfs). apply fs_open_law in Hfs as [Hp Hfl]. simpl.
    split; [|split; [done|]; split; [done|]; split; [by rewrite Hfl|by right]].
    constructor; [done|by eapply (conserved_frame st1)|]. split; [by apply Forall_cons|].
    intros id m k Hm. unfold in_use. rewrite filter_cons_False; [by apply H4|done].
  - by destruct Ho as (_ & _ & Hfs%Hnn).
  - destruct Ho as (Hok1 & Hn & Hfs). split; [done|]. split; [done|]. by eexists _, _, _.
Qed.

(** *** Destroying a handle *)
Lemma in_use_delete id k pool i ch :
  pool !! i = Some ch -> in_use id k pool = ((if counts id k ch then 1 else 0) + in_use id k (delete i pool))%nat.
Proof.
  intros Hi. unfold in_use. rewrite (delete_Permutation pool i ch Hi) at 1. rewrite filter_cons. by destruct (counts id k ch).
Qed.

Lemma owned_delete pool i ch :
  pool !! i = Some ch ->
  internal_file_handle <$> pool ≡ₚ internal_file_handle ch :: (internal_file_handle <$> delete i pool).
Proof. intros Hi. by rewrite (delete_Permutation pool i ch Hi) at 1. Qed.

Lemma pool_delete_uncounted st pool i ch :
  pool !! i = Some ch -> (forall id k, counts id k ch = false) -> pool_ok st pool -> pool_ok st (delete i pool).
Proof.
  intros Hi Hch [Hf Hc]. split; [by apply Forall_delete|]. intros id m k Hm.
  rewrite (Hc id m k Hm), (in_use_delete id k pool i ch Hi), Hch. done.
Qed.

Lemma counters_ok_decrement id k m st pool i ch :
  counters_ok st pool -> heap_counters st !! id = Some m -> Z.of_nat (length pool) < 4294967296 -> pool !! i = Some ch ->
  (forall id' k', counts id' k' ch = bool_decide (k' = k /\ id' = id)) ->
  exists n m', Decrement k m = (Ok n, m') /\ counters_ok (set_counter id m' st) (delete i pool).
Proof.
  intros Hc Hm Hb Hi Hch. pose proof (Hc id m k Hm) as Hk.
  pose proof (in_use_delete id k pool i ch Hi) as Hd. rewrite Hch, bool_decide_eq_true_2 in Hd by done.
  assert (in_use id k pool <= length pool)%nat as Hle by apply length_filter.
  rewrite Hd in Hk, Hle. simpl in Hk. unfold Decrement. rewrite Hk. eexists _, _. split; [reflexivity|].
  rewrite u32_small by lia. intros id' m' k'. simpl.
  destruct (decide (id = id')) as [<-|Hne].
  - rewrite lookup_insert_eq. intros [= <-]. destruct (decide (k' = k)) as [->|Hk'].
    + destruct (in_use id k (delete i pool)) as [|n]; simpl.
      * by rewrite lookup_delete_eq.
      * rewrite (proj2 (Z.eqb_neq _ _)) by lia. rewrite lookup_insert_eq. f_equal. lia.
    + pose proof (in_use_delete id k' pool i ch Hi) as Hd'.
      rewrite Hch, bool_decide_eq_false_2 in Hd' by (by intros []). simpl in Hd'. rewrite <-Hd'.
      destruct (_ =? 0); [rewrite lookup_delete_ne by done|rewrite lookup_insert_ne by done]; by apply Hc.
  - rewrite lookup_insert_ne by done. intros Hm'. rewrite (Hc id' m' k' Hm'), (in_use_delete id' k' pool i ch Hi), Hch.
    rewrite bool_decide_eq_false_2 by (by intros []). done.
Qed.

Lemma DestroyCacheHandle_ok now i ch st pool :
  handles_ok st pool [] -> pool !! i = Some ch -> Z.of_nat (next_handle st) < 4294967296 ->
  exists st', DestroyCacheHandle now ch st = (Ok tt, st') /\ handles_ok st' (delete i pool) [] /\
    next_handle st' = next_handle st.
Proof.
  intros Hok Hi Hb. pose proof (pool_bound _ _ _ Hok) as Hlen. simpl in Hlen. destruct Hok as [H1 H2 [H3 H4]].
  simpl in H2.
  assert (conserved st (internal_file_handle ch :: (internal_file_handle <$> delete i pool))) as Hcons.
  { eapply (conserved_frame st); [done..|by apply owned_delete|exact H2]. }
  pose proof (Forall_lookup_1 _ _ _ _ H3 Hi) as Hch. unfold captured_ok in Hch. unfold DestroyCacheHandle.
  destruct (dtor_callback ch) as [[[k cache] counter]|] eqn:Hd.
  2:{ eexists. split; [reflexivity|]. split; [|done]. constructor; [by apply (heap_ok_frame st)|by apply conserved_destroy|].
      apply (pool_ok_frame st); [done..|]. eapply pool_delete_uncounted; [done| |done]. intros id k. unfold counts. by rewrite Hd. }
  destruct Hch as (-> & Hrd & Hpair & Hca & Hco).
  set (st0 := set_internal (fs_reset (handle_id (internal_file_handle ch)) (internal_filesystem st)) st).
  rewrite (handler_ok (modify_state _) _ st tt st0) by done.
  assert (heap_ok st0) as H1' by (by apply (heap_ok_frame st)).
  assert (conserved st0 (internal_file_handle ch :: (internal_file_handle <$> delete i pool))) as Hcons0 by exact Hcons.
  assert (pool_ok st0 pool) as H3' by (by apply (pool_ok_frame st)).
  destruct cache as [id|].
  - destruct counter as [cid|]; [|by destruct Hpair as [_ Hp]; specialize (Hp eq_refl)].
    destruct (Hca id eq_refl) as [c Hc]. destruct (Hco cid eq_refl) as [m Hm].
    destruct (heap_cache _ H1' id c Hc) as (a & Hr & Hk).
    rewrite (handler_ok _ _ _ _ _ (deref_cache_ok id c st0 Hc)).
    destruct (Put_represents now (key_of (internal_file_handle ch)) (internal_file_handle ch) c a Hr)
      as (ev & c' & a' & -> & Hr' & Hspec & Hp & _).
    { pose proof (cache_small id c a st0 _ Hc Hr Hcons0) as Hsm. simpl in Hsm. lia. }
    rewrite (handler_ok _ _ _ _ _ (eq_refl : lift (Ok ev) st0 = (Ok ev, st0))).
    set (st1 := close_handles (option_list ev) (set_cache id c' st0)).
    rewrite (handler_ok (modify_state _) _ st0 tt st1) by done.
    destruct (spec_multi_put_perm _ _ _ _ _ _ _ (eq_sym Hspec)) as (gone & Hgone).
    assert (keyed a') as Hk'.
    { unfold keyed in *. apply (Forall_app _ _ gone). rewrite <-Hgone. by apply Forall_cons. }
    assert (heap_ok st1) as Hh1 by (apply heap_ok_close; eapply heap_ok_set_cache; [eauto|by split|done]).
    assert (conserved st1 (internal_file_handle <$> delete i pool)) as Hc1.
    { apply conserved_close. by eapply (conserved_exchange id c a c' a' [_]). }
    assert (pool_ok st1 pool) as [Hp1 Hp2] by (apply pool_ok_close, pool_ok_set_cache; [eauto|done]).
    destruct (close_handles_frame (option_list ev) (set_cache id c' st0)) as (_ & Ec & _ & _ & _ & En & _).
    fold st1 in Ec, En. simpl in Ec, En. rewrite <-Ec in Hm.
    rewrite (handler_ok (deref_counter (Some cid)) _ st1 (cid, m) st1) by (unfold deref_counter; simpl; by rewrite Hm).
    destruct (counters_ok_decrement cid (key_of (internal_file_handle ch)) m st1 pool i ch Hp2 Hm) as (n & m' & Hdec & Hp2');
      [lia|done|intros id' k'; unfold counts; rewrite Hd; apply bool_decide_ext; by split; intros [-> ->]|].
    cbn [snd fst]. rewrite Hdec. exists (set_counter cid m' st1). split; [done|]. split; [|done].
    constructor; [by apply heap_ok_set_counter; [eauto|]|by eapply (conserved_frame st1)|].
    split; [|done]. apply Forall_delete. eapply Forall_impl; [exact Hp1|]. intros ch'. apply captured_ok_set_counter.
  - destruct counter as [cid|]; [by destruct Hpair as [Hp _]; specialize (Hp eq_refl)|].
    eexists. split; [reflexivity|]. split; [|done]. constructor; [by apply (heap_ok_frame st)|by apply conserved_destroy|].
    apply (pool_ok_frame st); [done..|]. eapply pool_delete_uncounted; [done| |by split]. intros id k. unfold counts. by rewrite Hd.
Qed.

(** ** Histories

    What the users of a filesystem do: open a file, destroy a handle they hold, close it,
    clear the handles of a path, and (by a change of settings or a whole clear) enable or
    drop the cache. *)
Inductive handle_op :=
| OpOpen (now : Z) (path : string) (flags : N) (conn : Z)
| OpDestroy (now : Z) (i : nat)
| OpClose (i : nat)
| OpClearPath (path : string)
| OpClear
| OpConfigure (enable : bool) (max_entry timeout : Z).

Definition open_file (now : Z) (path : string) (flags : N) conn : Handler (handle_state X) (option CacheFileSystemHandle) :=
  if Reading flags then GetOrCreateFileHandleForRead FILE_FLAGS_READ FILE_FLAGS_PARALLEL_ACCESS now path flags conn
  else OpenForWrite path flags conn.

Definition handle_step (op : handle_op) (w : handle_state X * list CacheFileSystemHandle) :
    Res unit * (handle_state X * list CacheFileSystemHandle) :=
  let '(st, pool) := w in
  match op with
  | OpOpen now path flags conn =>
      match open_file now path flags conn st with
      | (Ok r, st) => (Ok tt, (st, option_list r ++ pool))
      | (Throw e, st) => (Throw e, (st, pool))
      end
  | OpDestroy now i =>
      match pool !! i with
      | None => (Ok tt, w)
      | Some ch => let '(r, st) := DestroyCacheHandle now ch st in (r, (st, delete i pool))
      end
  | OpClose i =>
      match pool !! i with
      | None => (Ok tt, w)
      | Some ch => let '(r, st) := CloseCacheHandle FILE_FLAGS_READ ch st in (r, (st, pool))
      end
  | OpClearPath path => let '(r, st) := ClearFileHandleCacheOf FILE_FLAGS_PARALLEL_ACCESS path st in (r, (st, pool))
  | OpClear => let '(r, st) := ClearFileHandleCache st in (r, (st, pool))
  | OpConfigure enable m t => let '(r, st) := SetFileHandleCache enable m t st in (r, (st, pool))
  end.

Definition new_handles (x : X) : handle_state X := MkHandles x None None ∅ ∅ 0 0 [] [] [].

(** A history: the result of each operation, and the final state. *)
Fixpoint handle_run (ops : list handle_op) w : list (Res unit) * (handle_state X * list CacheFileSystemHandle) :=
  match ops with
  | [] => ([], w)
  | op :: ops => let '(r, w) := handle_step op w in let '(rs, w) := handle_run ops w in (r :: rs, w)
  end.

Lemma new_handles_ok x : handles_ok (new_handles x) [] [].
Proof.
  constructor; [constructor; simpl; try done|..].
  - by unfold conserved, cached.
  - split; [by apply List.Forall_nil|]. intros id m k. simpl. by rewrite lookup_empty.
Qed.

(** A write is never answered with a null handle. *)
Definition writes_open : Prop := forall path flags x, Reading flags = false -> (fs_open (X := X) path flags x).1 <> Ok None.

Lemma open_file_ok now path flags conn st pool :
  writes_open -> handles_ok st pool [] -> Z.of_nat (next_handle st) + 1 < 4294967296 ->
  let '(r, st') := open_file now path flags conn st in opened_ok (current_handles st) path flags conn st pool r st'.
Proof.
  intros Hw Hok Hb. unfold open_file. destruct (Reading flags) eqn:Hr; [by apply GetOrCreateFileHandleForRead_ok|].
  pose proof (OpenForWrite_ok path flags conn st pool Hok Hr ltac:(auto)) as Ho.
  destruct (OpenForWrite path flags conn st) as [[[ch|]|e] st']; simpl in *; [|done|done].
  destruct Ho as (H1 & H2 & H3 & H4 & [[Hin _]|Hnew]); [by apply elem_of_nil in Hin|]. auto 10.
Qed.

Lemma handle_step_ok op st pool :
  writes_open -> handles_ok st pool [] -> Z.of_nat (next_handle st) + 1 < 4294967296 ->
  let '(r, (st', pool')) := handle_step op (st, pool) in
  handles_ok st' pool' [] /\ (next_handle st' <= S (next_handle st))%nat /\
  (r = Ok tt \/ exists e p f x, r = Throw e /\ (fs_open (X := X) p f x).1 = Throw e).
Proof.
  intros Hw Hok Hb. destruct op as [now path flags conn|now i|i|path| |enable m t]; simpl.
  - pose proof (open_file_ok now path flags conn st pool Hw Hok Hb) as Ho.
    destruct (open_file now path flags conn st) as [[[ch|]|e] st']; simpl in *.
    + destruct Ho as (Hok' & _ & _ & _ & Hn). split; [done|]. split; [|by left]. destruct Hn as [[_ ->]|[_ ->]]; lia.
    + destruct Ho as [Hok' ->]. split; [done|]. split; [lia|by left].
    + destruct Ho as (Hok' & -> & p & f & x & Hx). split; [done|]. split; [lia|]. right. by exists e, p, f, x.
  - destruct (pool !! i) as [ch|] eqn:Hi; [|by split; [|split; [lia|left]]].
    destruct (DestroyCacheHandle_ok now i ch st pool Hok Hi) as (st' & -> & Hok' & ->); [lia|].
    split; [done|]. split; [lia|by left].
  - destruct (pool !! i) as [ch|]; [|by split; [|split; [lia|left]]]. unfold CloseCacheHandle.
    destruct (OpenForReading _ _); simpl; (split; [|split; [lia|by left]]); [done|].
    by eapply handles_ok_frame; [..|exact Hok].
  - destruct (ClearFileHandleCacheOf_ok path st pool [] Hok) as (st' & -> & Hok' & -> & _). split; [done|]. split; [lia|by left].
  - destruct (ClearFileHandleCache_ok st pool [] Hok) as (st' & -> & Hok' & -> & _). split; [done|]. split; [lia|by left].
  - destruct (SetFileHandleCache_ok enable m t st pool [] Hok) as (st' & -> & Hok' & -> & _). split; [done|]. split; [lia|by left].
Qed.

Lemma handle_run_ok ops st pool :
  writes_open -> handles_ok st pool [] -> Z.of_nat (next_handle st) + Z.of_nat (length ops) < 4294967296 ->
  let '(rs, (st', pool')) := handle_run ops (st, pool) in
  handles_ok st' pool' [] /\ Z.of_nat (next_handle st') <= Z.of_nat (next_handle st) + Z.of_nat (length ops) /\
  Forall (fun r => r = Ok tt \/ exists e p f x, r = Throw e /\ (fs_open (X := X) p f x).1 = Throw e) rs.
Proof.
  intros Hw. revert st pool. induction ops as [|op ops IH]; intros st pool Hok Hb; cbn [handle_run length] in *.
  { split; [done|]. split; [lia|by apply List.Forall_nil]. }
  pose proof (handle_step_ok op st pool Hw Hok ltac:(lia)) as Hs.
  destruct (handle_step op (st, pool)) as [r [st1 pool1]]. destruct Hs as (Hok1 & Hn1 & Hr).
  specialize (IH st1 pool1 Hok1 ltac:(lia)). destruct (handle_run ops (st1, pool1)) as [rs [st2 pool2]].
  destruct IH as (Hok2 & Hn2 & Hrs). split; [done|]. split; [lia|by apply Forall_cons].
Qed.

(** C29: no file handle is lost, shared or closed while in use.  Whatever the users of a
    filesystem do, in any order (opens, clears, settings and destructions, the latter
    also after the cache was dropped or replaced), every internal handle ever opened is
    at exactly one place: under one live handle, in one cache, closed, or destroyed.  No
    assertion fails and nothing is dereferenced that is not there: only exceptions of
    the internal filesystem come out.  And the counter of the current cache shows, for
    every path and flags, exactly the live handles that were opened under it. *)
Theorem handles_are_exclusive x ops :
  writes_open -> Z.of_nat (length ops) < 4294967296 ->
  let '(rs, (st, pool)) := handle_run ops (new_handles x, []) in
  seq 0 (next_handle st) ≡ₚ
    ((handle_id ∘ internal_file_handle) <$> pool) ++ (handle_id <$> cached st) ++ closed st ++ destroyed st /\
  Forall (fun r => r = Ok tt \/ exists e p f y, r = Throw e /\ (fs_open (X := X) p f y).1 = Throw e) rs /\
  (forall id m k, in_use_file_handle_counter st = Some id -> heap_counters st !! id = Some m ->
     GetCount k m = Z.of_nat (in_use id k pool)).
Proof.
  intros Hw Hb. pose proof (handle_run_ok ops (new_handles x) [] Hw (new_handles_ok x) Hb) as Hrun.
  destruct (handle_run ops (new_handles x, [])) as [rs [st pool]]. destruct Hrun as ([H1 H2 [H3 H4]] & _ & Hrs).
  split; [|split; [done|]].
  - unfold conserved in H2. rewrite H2. simpl. by rewrite <-list_fmap_compose.
  - intros id m k _ Hm. unfold GetCount. rewrite (H4 id m k Hm). by destruct (in_use id k pool).
Qed.

(** An open gives the user a handle of the path and with the flags that were asked
    for, either one that lay unused in the cache or one that is new. *)
Theorem open_gives_the_file x ops now path flags conn :
  writes_open -> Z.of_nat (length ops) + 1 < 4294967296 ->
  let '(_, (st, pool)) := handle_run ops (new_handles x, []) in
  match open_file now path flags conn st with
  | (Ok (Some ch), st') =>
      let h := internal_file_handle ch in
      GetPath h = path /\ N.lor (GetFlags h) FILE_FLAGS_PARALLEL_ACCESS = N.lor flags FILE_FLAGS_PARALLEL_ACCESS /\
      GetConnectionId ch = conn /\ ~ (h ∈ internal_file_handle <$> pool) /\
      (h ∈ current_handles st \/ handle_id h = next_handle st)
  | (Ok None, st') | (Throw _, st') => next_handle st' = next_handle st
  end.
Proof.
  intros Hw Hb. pose proof (handle_run_ok ops (new_handles x) [] Hw (new_handles_ok x) ltac:(simpl; lia)) as Hrun.
  destruct (handle_run ops (new_handles x, [])) as [rs [st pool]]. destruct Hrun as (Hok & Hn & _).
  pose proof (open_file_ok now path flags conn st pool Hw Hok ltac:(simpl in Hn; lia)) as Ho.
  destruct (open_file now path flags conn st) as [[[ch|]|e] st']; simpl in *.
  - destruct Ho as ([_ Hc _] & Hconn & Hp & Hfl & Hor). split; [done|]. split; [done|]. split; [done|]. split.
    + unfold conserved in Hc. simpl in Hc. pose proof (NoDup_seq 0 (next_handle st')) as Hnd. rewrite Hc in Hnd.
      apply NoDup_cons in Hnd as [Hnd _]. intros Hin. apply Hnd. apply elem_of_app. left. by apply list_elem_of_fmap_2.
    + destruct Hor as [[Hin _]|[Hid _]]; auto.
  - by destruct Ho.
  - by destruct Ho as (_ & ? & _).
Qed.
End Ownership.

(** ** Witnesses *)
#[export] Instance sample_handles : InternalHandles nat := {
  fs_open path flags x := if String.eqb path "missing" then (Throw IOException, S x) else (Ok (Some (path, flags)), S x);
  fs_close _ x := x;
  fs_reset _ x := x
}.

#[export] Instance sample_handles_laws : InternalHandlesLaws nat.
Proof. constructor. intros path flags x p f. simpl. destruct (String.eqb _ _); [done|]. by intros [= <- <-]. Qed.

Definition sample_handle_ops : list handle_op :=
  [OpConfigure true 1 0; OpOpen 0 "a" 1 7; OpOpen 1 "b" 1 7; OpDestroy 2 0; OpDestroy 3 0; OpOpen 4 "a" 1 8;
   OpOpen 5 "missing" 1 8; OpOpen 6 "w" 2 8; OpClearPath "a"; OpConfigure false 1 0; OpDestroy 7 1; OpDestroy 8 0]%string%N.

Lemma sample_writes_open : writes_open (X := nat) 1.
Proof. intros path flags x _. simpl. by destruct (String.eqb _ _). Qed.

Lemma handles_are_exclusive_witness :
  let '(rs, (st, pool)) := handle_run (X := nat) 1 256 sample_handle_ops (new_handles 0%nat, []) in
  seq 0 (next_handle st) ≡ₚ
    ((handle_id ∘ internal_file_handle) <$> pool) ++ (handle_id <$> cached st) ++ closed st ++ destroyed st.
Proof.
  pose proof (handles_are_exclusive (X := nat) 1 256 0%nat sample_handle_ops sample_writes_open eq_refl) as He.
  destruct (handle_run _ _ _ _) as [rs [st pool]]. by destruct He.
Defined.

(** "b" evicts nothing while "a" is in use; destroying both evicts "b", which is closed. *)
Example sample_handle_run :
  let '(rs, (st, pool)) := handle_run (X := nat) 1 256 sample_handle_ops (new_handles 0%nat, []) in
  (next_handle st, pool, handle_id <$> cached st, closed st, destroyed st) = (3%nat, [], [0%nat], [1%nat], [2%nat]) /\
  rs !! 6%nat = Some (Throw IOException).
Proof. by vm_compute. Qed.

(** The handle of "a" that lay in the cache is given out again. *)
Example sample_open :
  let '(_, (st, pool)) := handle_run (X := nat) 1 256 (take 5 sample_handle_ops) (new_handles 0%nat, []) in
  option_map (fun ch => (internal_file_handle ch, GetConnectionId ch))
    (match (open_file (X := nat) 1 256 4 "a" 1 8 st).1 with Ok r => r | Throw _ => None end)
  = Some (MkHandle 0 "a" 257, 8).
Proof. by vm_compute. Qed.

Lemma open_gives_the_file_witness :
  let '(_, (st, pool)) := handle_run (X := nat) 1 256 (take 5 sample_handle_ops) (new_handles 0%nat, []) in
  match open_file (X := nat) 1 256 4 "a" 1 8 st with
  | (Ok (Some ch), st') =>
      let h := internal_file_handle ch in
      GetPath h = "a"%string /\ N.lor (GetFlags h) 256 = N.lor 1 256 /\
      GetConnectionId ch = 8 /\ ~ (h ∈ internal_file_handle <$> pool) /\
      (h ∈ current_handles st \/ handle_id h = next_handle st)
  | (Ok None, st') | (Throw _, st') => next_handle st' = next_handle st
  end.
Proof.
  exact (open_gives_the_file (X := nat) 1 256 0%nat (take 5 sample_handle_ops) 4 "a" 1 8 sample_writes_open eq_refl).
Defined.

(** ** Observations *)

(** A handle that is destroyed after the cache was dropped goes into the dropped cache:
    nobody will ever close it. *)
Lemma handle_of_dropped_cache_is_not_closed :
  let '(_, (st, pool)) := handle_run (X := nat) 1 256
    [OpConfigure true 1 0; OpOpen 0 "a" 1 7; OpClear; OpDestroy 2 0; OpClear]%string%N (new_handles 0%nat, []) in
  file_handle_cache st = None /\ pool = [] /\ handle_id <$> cached st = [0%nat] /\ closed st = [] /\ destroyed st = [].
Proof. by vm_compute. Qed.

(** A file opened for writing that is answered with a null handle is dereferenced. *)
Lemma null_write_handle_is_dereferenced {X} `{InternalHandles X} path flags conn (st : handle_state X) :
  (fs_open path flags (internal_filesystem st)).1 = Ok None ->
  (OpenForWrite path flags conn st).1 = Throw UndefinedBehaviour.
Proof.
  intros Hfs. unfold OpenForWrite, OpenInternal, mbind, Handler_bind.
  destruct (fs_open path flags (internal_filesystem st)) as [r x]. simpl in Hfs. by subst r.
Qed.
