(* ===== verification/ThreadSafe.v ===== *)
(** * ThreadSafe

    The thread-safe wrappers ([src/src/utils/include/shared_value_lru_cache.hpp],
    [copiable_value_lru_cache.hpp], [exclusive_lru_cache.hpp], [exclusive_multi_lru_cache.hpp],
    [counter.hpp], [annotated_mutex.hpp] and [annotated_lock.hpp]): an object next to a mutex.

    Each method of a wrapper is a body of statements, translated method by method: the lock
    that its first line takes for the rest of the scope, if it takes one, and the call of the
    object inside that it returns.  A thread runs the statements in turns of their own: it
    takes the mutex, reads the object, writes what the call made of it back and returns, so
    that two calls at a time would lose updates.  Nothing but the locks of the bodies keeps
    the threads apart; with them, threads that interleave these turns get the results of the
    methods called one after the other.  [GetOrCreate], which releases the mutex on its way,
    is in [SingleFlight]. *)
From S2P Require Import Prelude StdList OrdMap LruCache LruSpec LruProofs Tasks IoOperations MultiLru Handler InstanceState HandleCache.

#[local] Open Scope Z_scope.

(** ** [concurrency::mutex]

    The thread that holds it. *)
Definition mutex : Type := option nat.

Definition try_lock (tid : nat) (mu : mutex) : bool * mutex :=
  match mu with None => (true, Some tid) | Some _ => (false, mu) end.
(** [None]: the caller blocks. *)
Definition lock (tid : nat) (mu : mutex) : option mutex :=
  match mu with None => Some (Some tid) | Some _ => None end.
Definition unlock (_ : mutex) : mutex := None.

(** ** Bodies of methods

    [LockGuard rest]: [const lock_guard<mutex> lock (mu);] (or a [unique_lock] that nobody
    releases by hand) and the rest of the scope.  [Return call]: the call of the object
    inside, which may change it; [ReturnMember f]: [f] of the object, which stays. *)
Inductive method_body (St R : Type) :=
| LockGuard (rest : method_body St R)
| Return (call : Z -> St -> R * St)
| ReturnMember (f : St -> R).
Arguments LockGuard {St R}. Arguments Return {St R}. Arguments ReturnMember {St R}.

(** The call, when nobody else uses the object. *)
Fixpoint called_alone {St R} (b : method_body St R) (now : Z) (x : St) : R * St :=
  match b with
  | LockGuard rest => called_alone rest now x
  | Return call => call now x
  | ReturnMember f => (f x, x)
  end.

(** ** Threads *)
Section Locked.
Context {St Op R : Type}.
Variable body : Op -> method_body St R.

(** [history] records the calls that have taken effect: thread, time, call and result; it
    is not part of the program. *)
Record guarded := MkGuarded {
  mu : mutex;
  object : St;
  history : list (nat * (Z * Op) * R)
}.

(** Where a thread stands in the call that it makes: the statements to come, and whether a
    lock of the scope holds the mutex. *)
Inductive position :=
| Outside
| Running (op : Op) (b : method_body St R) (held : bool)
| Reading (op : Op) (b : method_body St R) (copy : St) (held : bool)
| Returning (op : Op) (r : R) (held : bool).

Record thread := MkThread {
  tid : nat;
  at_ : position;
  todo : list Op;
  finished : list (Op * R)
}.
Implicit Types (g : guarded) (t : thread) (now : Z).

Definition move (p : position) t : thread := MkThread (tid t) p (todo t) (finished t).

(** The result [r] of a call, and the object it leaves. *)
Definition take_effect now op (r : R) (x : St) t g : guarded :=
  MkGuarded (mu g) x (history g ++ [(tid t, (now, op), r)]).

(** One statement; at the end of the scope the destructor of its lock releases the mutex. *)
Definition thread_step now t g : thread * guarded :=
  match at_ t with
  | Outside =>
      match todo t with
      | [] => (t, g)
      | op :: ops => (MkThread (tid t) (Running op (body op) false) ops (finished t), g)
      end
  | Running op (LockGuard rest) held =>
      match lock (tid t) (mu g) with
      | None => (t, g)
      | Some m => (move (Running op rest true) t, MkGuarded m (object g) (history g))
      end
  | Running op b held => (move (Reading op b (object g) held) t, g)
  | Reading op (Return call) copy held =>
      let '(r, x) := call now copy in (move (Returning op r held) t, take_effect now op r x t g)
  | Reading op (ReturnMember f) copy held =>
      (move (Returning op (f copy) held) t, take_effect now op (f copy) (object g) t g)
  | Reading _ (LockGuard _) _ _ => (t, g)
  | Returning op r held =>
      (MkThread (tid t) Outside (todo t) (finished t ++ [(op, r)]),
       MkGuarded (if held then unlock (mu g) else mu g) (object g) (history g))
  end.

(** Threads with the calls they are to make. *)
Definition start_thread (i : nat) (ops : list Op) : thread := MkThread i Outside ops [].
Definition start_threads (programs : list (list Op)) : list thread := imap start_thread programs.
Definition start_object (x : St) : guarded := MkGuarded None x [].

(** The methods called one after the other. *)
Fixpoint in_sequence (calls : list (Z * Op)) (x : St) : list R * St :=
  match calls with
  | [] => ([], x)
  | (now, op) :: calls =>
      let '(r, x) := called_alone (body op) now x in let '(rs, x) := in_sequence calls x in (r :: rs, x)
  end.

(** ** Linearizability *)
Definition calls_of (h : list (nat * (Z * Op) * R)) : list (Z * Op) := (fun e => e.1.2) <$> h.
Definition results_of (h : list (nat * (Z * Op) * R)) : list R := snd <$> h.
(** What a thread sees of a history. *)
Definition seen_by (i : nat) (h : list (nat * (Z * Op) * R)) : list (Op * R) :=
  omap (fun e => if decide (e.1.1 = i) then Some (e.1.2.2, e.2) else None) h.

(** The call that has taken effect without having returned, and the calls that are to come. *)
Definition pending (p : position) : list (Op * R) :=
  match p with Returning op r _ => [(op, r)] | _ => [] end.
Definition ahead (p : position) : list Op :=
  match p with Running op _ _ | Reading op _ _ _ => [op] | _ => [] end.
Definition holds_lock (p : position) : bool :=
  match p with Outside => false | Running _ _ held | Reading _ _ _ held | Returning _ _ held => held end.

(** However the turns of the threads interleave, the calls that have taken effect have an
    order in which they return, called one after the other on the unprotected object, the
    results that they returned, and leave the object as it is; each thread finds its own
    calls in it, in the order of its program, with the results it got; and a call that has
    taken effect comes before every call that is made later. *)
Definition linearizable (ok : St -> Prop) : Prop :=
  forall sch later (x : St) programs, ok x ->
  let '(ts, g) := run_schedule thread_step sch (start_threads programs) (start_object x) in
  in_sequence (calls_of (history g)) x = (results_of (history g), object g) /\
  (forall i t, ts !! i = Some t ->
     seen_by i (history g) = finished t ++ pending (at_ t) /\
     programs !! i = Some ((finished t ++ pending (at_ t)).*1 ++ ahead (at_ t) ++ todo t)) /\
  history g `prefix_of` history (run_schedule thread_step (sch ++ later) (start_threads programs) (start_object x)).2.

(** A body that locks and calls, or reads a member that no call changes. *)
Variable ok : St -> Prop.
Definition well_locked : Prop :=
  (forall op now x, ok x -> ok (called_alone (body op) now x).2) /\
  forall op, match body op with
    | LockGuard (Return _) => True
    | LockGuard (ReturnMember _) => True
    | ReturnMember f => forall op' now x, ok x -> f (called_alone (body op') now x).2 = f x
    | _ => False
    end.
Hypothesis Hbody : well_locked.

Lemma body_cases op :
  (exists rest, body op = LockGuard rest /\ forall b, rest <> LockGuard b) \/
  exists f, body op = ReturnMember f /\ forall op' now x, ok x -> f (called_alone (body op') now x).2 = f x.
Proof.
  destruct Hbody as [_ Hb]. specialize (Hb op). destruct (body op) as [[]| |] eqn:E; try done; eauto.
  all: left; eexists; by split.
Qed.

Section Invariant.
Variables (x0 : St) (programs : list (list Op)).

Definition serial g : Prop := in_sequence (calls_of (history g)) x0 = (results_of (history g), object g).

(** The object is what the calls made of it, and the holder of the mutex is one of the threads. *)
Definition object_ok g : Prop :=
  serial g /\ ok (object g) /\ forall i, mu g = Some i -> is_Some (programs !! i).

(** The statements to come in the call of [op], and what it has read. *)
Definition runs (op : Op) (b : method_body St R) (held : bool) : Prop :=
  body op = b /\ held = false \/ body op = LockGuard b /\ held = true.

Definition copy_ok (b : method_body St R) (copy : St) (held : bool) g : Prop :=
  match b with
  | LockGuard _ => False
  | Return _ => held = true /\ copy = object g
  | ReturnMember f => f copy = f (object g)
  end.

Definition position_ok (p : position) g : Prop :=
  match p with
  | Running op b held => runs op b held
  | Reading op b copy held => runs op b held /\ copy_ok b copy held g
  | _ => True
  end.

Record thread_ok (i : nat) t g : Prop := {
  ok_tid : tid t = i;
  ok_lock : holds_lock (at_ t) = true <-> mu g = Some i;
  ok_position : position_ok (at_ t) g;
  ok_seen : seen_by i (history g) = finished t ++ pending (at_ t);
  ok_program : programs !! i = Some ((finished t ++ pending (at_ t)).*1 ++ ahead (at_ t) ++ todo t)
}.

Lemma in_sequence_snoc calls now op x :
  in_sequence (calls ++ [(now, op)]) x =
  let '(rs, y) := in_sequence calls x in let '(r, z) := called_alone (body op) now y in (rs ++ [r], z).
Proof.
  revert x. induction calls as [|[now' op'] calls IH]; intros x; simpl; [by destruct (called_alone (body op) now x)|].
  destruct (called_alone (body op') now' x) as [r y]. rewrite IH. destruct (in_sequence calls y) as [rs z].
  by destruct (called_alone (body op) now z).
Qed.

Lemma seen_by_snoc i h j e r :
  seen_by i (h ++ [(j, e, r)]) = seen_by i h ++ (if decide (j = i) then [(e.2, r)] else []).
Proof. unfold seen_by. rewrite omap_app. f_equal. simpl. by case_decide. Qed.

(** What a running call is about to do. *)
Lemma runs_cases op b held :
  runs op b held ->
  (held = false /\ exists rest, b = LockGuard rest /\ runs op rest true) \/
  (held = true /\ (forall now x, called_alone (body op) now x = called_alone b now x) /\ forall b', b <> LockGuard b') \/
  (held = false /\ exists f, b = ReturnMember f /\ body op = ReturnMember f).
Proof.
  intros [[<- ->]|[Hb ->]]; destruct (body_cases op) as [(rest & E & Hr)|(f & E & _)]; rewrite E in *.
  - left. split; [done|]. exists rest. split; [done|]. by right.
  - right. right. eauto.
  - right. left. injection Hb as <-. split; [done|]. split; [|exact Hr]. done.
  - done.
Qed.

(** A call that takes effect: the rest of the system sees the object it leaves. *)
Lemma effect_ok i t g now op b copy held :
  object_ok g -> thread_ok i t g -> at_ t = Reading op b copy held ->
  exists r x, thread_step now t g = (move (Returning op r held) t, take_effect now op r x t g) /\
    called_alone (body op) now (object g) = (r, x).
Proof.
  intros (_ & Hok & _) Ht Ha. pose proof (ok_position _ _ _ Ht) as Hp. rewrite Ha in Hp. destruct Hp as [Hr Hc].
  unfold thread_step. rewrite Ha.
  destruct (runs_cases op b held Hr) as [(-> & rest & -> & _)|[(-> & Hcall & Hn)|(-> & f & -> & Hb)]]; [done| |].
  - rewrite Hcall. destruct b as [b'|call|f]; [by destruct (Hn b')| |]; simpl in Hc |- *.
    + destruct Hc as [_ ->]. destruct (call now (object g)) as [r x]. eauto.
    + rewrite Hc. eauto.
  - simpl in Hc. rewrite Hb, Hc. simpl. eauto.
Qed.

Lemma serial_effect now op r x t g :
  serial g -> called_alone (body op) now (object g) = (r, x) -> serial (take_effect now op r x t g).
Proof.
  unfold serial, take_effect, calls_of, results_of. simpl. rewrite !fmap_app. simpl. rewrite in_sequence_snoc.
  by intros -> ->.
Qed.

Lemma step_own i t g now t' g' :
  object_ok g -> thread_ok i t g -> thread_step now t g = (t', g') -> object_ok g' /\ thread_ok i t' g'.
Proof.
  intros Hobj Hthr. pose proof Hobj as (Hs & Hx & Hm). pose proof Hthr as [Ht Hl Hpos Hseen Hp].
  destruct (at_ t) as [|op b held|op b copy held|op r held] eqn:Ha; simpl in *.
  - unfold thread_step. rewrite Ha. destruct (todo t) as [|op ops] eqn:Htodo; intros [= <- <-]; (split; [done|]).
    + split; rewrite ?Ha, ?Htodo; try done.
    + split; simpl; try done. by left.
  - unfold thread_step. rewrite Ha.
    destruct (runs_cases op b held Hpos) as [(-> & rest & -> & Hr)|Hread].
    + destruct (mu g) as [j|] eqn:Hmu; simpl; intros [= <- <-].
      * split; [by split_and!; rewrite ?Hmu|]. split; rewrite ?Ha; try done; by rewrite Hmu.
      * split; [split_and!; simpl; try done; intros ? [= <-]; rewrite Ht; eauto|]. split; simpl; try done; by rewrite Ht.
    + assert (copy_ok b (object g) held g) as Hcopy.
      { destruct b as [b'|call|f], Hread as [(-> & _ & Hn)|(_ & f' & ? & _)]; try done. by destruct (Hn b'). }
      destruct b as [b'|call|f]; [done|..]; intros [= <- <-]; (split; [done|]); by split.
  - destruct (effect_ok i t g now op b copy held Hobj Hthr Ha) as (r & x & -> & Hc). intros [= <- <-].
    split.
    + split_and!; [by apply serial_effect| |done]. simpl. pose proof (proj1 Hbody op now (object g) Hx) as Hx'.
      by rewrite Hc in Hx'.
    + split; simpl; try done; rewrite ?app_nil_r in *.
      * rewrite seen_by_snoc, decide_True, Hseen by done. done.
      * rewrite Hp, fmap_app. simpl. by rewrite <-app_assoc.
  - unfold thread_step. rewrite Ha. intros [= <- <-]. split.
    + split_and!; try done. simpl. by destruct held.
    + split; simpl; try done; rewrite ?app_nil_r; try done. destruct held; [done|]. simpl in Hl. done.
Qed.

Lemma step_other i j t u g now t' g' :
  i <> j -> object_ok g -> thread_ok i t g -> thread_ok j u g -> thread_step now t g = (t', g') -> thread_ok j u g'.
Proof.
  intros Hne Hobj Hthr [Hu Hlu Hcu Hseen Hp]. pose proof Hthr as [Ht Hl Hpos _ _].
  destruct (at_ t) as [|op b held|op b copy held|op r held] eqn:Ha; simpl in *.
  - unfold thread_step. rewrite Ha. destruct (todo t); intros [= _ <-]; by split.
  - unfold thread_step. rewrite Ha. destruct b; [|intros [= _ <-]; by split..].
    destruct (mu g) as [k|] eqn:Hmu; simpl; intros [= _ <-]; [by split; rewrite ?Hmu|].
    split; simpl; try done. rewrite Hlu, Ht. split; congruence.
  - destruct (effect_ok i t g now op b copy held Hobj Hthr Ha) as (r & x & -> & Hc). intros [= _ <-].
    split; simpl; try done; [|by rewrite seen_by_snoc, decide_False, app_nil_r by congruence].
    destruct (at_ u) as [|opu bu heldu|opu bu copyu heldu|opu ru heldu] eqn:Hau; try done. simpl in Hcu |- *.
    destruct Hcu as [Hru Hcu]. split; [done|]. unfold copy_ok in *. simpl.
    pose proof Hobj as (_ & Hx & _).
    assert (forall f op', body op' = ReturnMember f -> f x = f (object g)) as Hconst.
    { intros f op' E. destruct (body_cases op') as [(rest & E' & _)|(f' & E' & Hf)]; rewrite E in E'; simplify_eq.
      specialize (Hf op now (object g) Hx). by rewrite Hc in Hf. }
    assert (heldu = true -> x = object g) as Hexcl.
    { intros ->. destruct Hpos as [Hrt Hct].
      assert (held = false) as ->.
      { destruct held; [|done]. pose proof (proj1 Hlu eq_refl). pose proof (proj1 Hl eq_refl). congruence. }
      destruct (runs_cases op b false Hrt) as [(_ & rest & -> & _)|[(? & _)|(_ & f & -> & Hb)]]; [done|done|].
      rewrite Hb in Hc. by injection Hc. }
    destruct bu as [bu|call|f]; [done| |].
    + destruct Hcu as [-> ->]. split; [done|]. symmetry. by apply Hexcl.
    + rewrite Hcu. destruct heldu; [by rewrite Hexcl|]. destruct Hru as [[Hb _]|[_ ?]]; [|done].
      symmetry. by eapply Hconst.
  - unfold thread_step. rewrite Ha. intros [= _ <-]. split; simpl; try done. destruct held; [|done].
    assert (mu g = Some i) as Hmu by (by apply Hl). rewrite Hlu. unfold unlock. split; congruence.
Qed.

Definition system_ok : list thread -> guarded -> Prop := all_ok object_ok thread_ok.

Lemma system_step ts g i t now :
  system_ok ts g -> ts !! i = Some t ->
  system_ok (<[i := (thread_step now t g).1]> ts) (thread_step now t g).2.
Proof.
  intros Hok Hi. apply (run_invariant thread_step (fun _ _ => False) object_ok thread_ok) with (ts0 := ts) (g0 := g).
  - done.
  - done.
  - intros. by eapply step_own.
  - intros. by eapply step_other.
  - eapply run_task; [constructor|exact Hi|]. apply surjective_pairing.
  - done.
Qed.
End Invariant.

Lemma system_start x programs : ok x -> system_ok x programs (start_threads programs) (start_object x).
Proof.
  intros Hx. split; [by split|]. intros i t Hi. unfold start_threads in Hi. rewrite list_lookup_imap in Hi.
  destruct (programs !! i) as [ops|] eqn:Hp; simplify_eq/=. split; simpl; try done.
Qed.

Lemma system_run sch x programs :
  ok x -> system_ok x programs (run_schedule thread_step sch (start_threads programs) (start_object x)).1
    (run_schedule thread_step sch (start_threads programs) (start_object x)).2.
Proof. intros Hx. apply schedule_inv; [intros; by apply system_step|by apply system_start]. Qed.

(** A method that has taken effect stays in its place. *)
Lemma history_grows sch ts g : history g `prefix_of` history (run_schedule thread_step sch ts g).2.
Proof.
  revert ts g. induction sch as [|[i now] sch IH]; intros ts g; simpl; [done|].
  destruct (ts !! i) as [t|]; [|done]. transitivity (history (thread_step now t g).2).
  - unfold thread_step. destruct (at_ t) as [|op [rest|call|f] held|op [rest|call|f] copy held|op r held]; simpl; try done.
    + by destruct (todo t).
    + by destruct (lock (tid t) (mu g)).
    + destruct (call now copy). simpl. by apply prefix_app_r.
    + by apply prefix_app_r.
  - destruct (thread_step now t g) as [t' g']. apply IH.
Qed.

Lemma well_locked_linearizes : linearizable ok.
Proof.
  intros sch later x programs Hx. rewrite run_schedule_app. pose proof (system_run sch x programs Hx) as [[Hs _] Ht].
  destruct (run_schedule thread_step sch (start_threads programs) (start_object x)) as [ts g].
  split; [exact Hs|]. split; [|apply history_grows].
  intros i t Hi. destruct (Ht i t Hi) as [_ _ _ Hseen Hp]. done.
Qed.

(** *** Every call returns *)
Fixpoint statements (b : method_body St R) : nat :=
  match b with LockGuard rest => S (statements rest) | _ => 3 end.
Definition turns_of (p : position) : nat :=
  match p with Outside => 0 | Running _ b _ => statements b | Reading _ _ _ _ => 2 | Returning _ _ _ => 1 end.
Definition turns_to_call (ops : list Op) : nat := sum_list_with (fun op => S (statements (body op))) ops.
Definition turns_left t : nat := (turns_to_call (todo t) + turns_of (at_ t))%nat.
Definition total_turns (ts : list thread) (_ : guarded) : nat := sum_list_with turns_left ts.
Definition all_returned (ts : list thread) (_ : guarded) : Prop := Forall (fun t => turns_left t = 0%nat) ts.

Lemma statements_pos b : (2 < statements b)%nat.
Proof. induction b; simpl; lia. Qed.

Lemma thread_turn now t g :
  thread_step now t g = (t, g) \/ (turns_left (thread_step now t g).1 < turns_left t)%nat.
Proof.
  unfold thread_step, turns_left.
  destruct (at_ t) as [|op [rest|call|f] held|op [rest|call|f] copy held|op r held] eqn:Ha; simpl.
  - destruct (todo t) as [|op ops] eqn:Ht; [by left|right]. simpl. lia.
  - destruct (lock (tid t) (mu g)); [right|by left]. simpl. lia.
  - right. simpl. lia.
  - right. simpl. lia.
  - by left.
  - right. destruct (call now copy). simpl. lia.
  - right. simpl. lia.
  - right. simpl. lia.
Qed.

(** A thread that holds the mutex, or meets it free, moves on. *)
Lemma thread_moves x programs i now t g :
  object_ok x programs g -> thread_ok programs i t g ->
  turns_left t <> 0%nat -> holds_lock (at_ t) = true \/ mu g = None ->
  (turns_left (thread_step now t g).1 < turns_left t)%nat.
Proof.
  intros _ Hok Hne Hl. destruct (thread_turn now t g) as [E|]; [|done]. exfalso. pose proof (ok_position _ _ _ _ Hok) as Hp.
  destruct t as [j p ops rs]. unfold thread_step, turns_left, move in *. simpl in *.
  destruct p as [|op [rest|call|f] held|op [rest|call|f] copy held|op r held]; simpl in *; try done.
  - by destruct ops.
  - destruct Hl as [->|Hl]; [|rewrite Hl in E; simpl in E; assert (Some j = mu g) by (by injection E as _ _ <-); congruence]. destruct Hp as [[_ ?]|[Hb _]]; [done|].
    destruct (body_cases op) as [(r & E' & Hr)|(f & E' & _)]; rewrite Hb in E'; [|done]. injection E' as <-. by destruct (Hr rest).
  - by destruct Hp.
  - by destruct (call now copy).
Qed.

Lemma some_locked_thread_moves x programs ts g :
  system_ok x programs ts g -> length ts = length programs ->
  all_returned ts g \/
  exists i t, ts !! i = Some t /\ forall now, (turns_left (thread_step now t g).1 < turns_left t)%nat.
Proof.
  intros [Hobj Hok] Hlen. destruct (mu g) as [i|] eqn:Hmu.
  - right. destruct (ts !! i) as [t|] eqn:Hi.
    + pose proof (Hok i t Hi) as Ht. exists i, t. split; [done|]. intros now.
      assert (Hh : holds_lock (at_ t) = true) by (by apply (ok_lock _ _ _ _ Ht)).
      eapply thread_moves; [done|done| |by left].
      unfold turns_left. destruct (at_ t) as [|op b held| |]; simpl in *; try done; try lia.
      pose proof (statements_pos b). lia.
    + apply lookup_ge_None in Hi. destruct Hobj as (_ & _ & Hm). destruct (Hm i Hmu) as [ops Hp].
      apply lookup_lt_Some in Hp. lia.
  - destruct (decide (all_returned ts g)) as [|Hn]; [by left|]. right. unfold all_returned in Hn.
    apply not_Forall_Exists in Hn; [|apply _]. apply Exists_exists in Hn as (t & [i Hi]%list_elem_of_lookup & Ht).
    exists i, t. split; [done|]. intros now. eapply thread_moves; [done|by apply Hok|done|by right].
Qed.

Lemma total_turns_insert ts g i t t' g' :
  ts !! i = Some t -> (turns_left t' < turns_left t)%nat -> (total_turns (<[i := t']> ts) g' < total_turns ts g)%nat.
Proof. intros Hi Hlt. unfold total_turns. pose proof (sum_list_with_insert turns_left ts i t t' Hi). lia. Qed.

Lemma turns_to_call_le ops : (turns_to_call ops <= 5 * length ops)%nat.
Proof.
  induction ops as [|op ops IH]; simpl; [done|]. unfold turns_to_call in *.
  assert (statements (body op) <= 4)%nat; [|lia].
  destruct (body_cases op) as [([rest| |] & -> & Hr)|(f & -> & _)]; simpl; try lia. by destruct (Hr rest).
Qed.

Lemma total_turns_start programs g :
  (total_turns (start_threads programs) g <= sum_list_with (fun ops => 5 * length ops)%nat programs)%nat.
Proof.
  unfold total_turns, start_threads. assert (Hf : forall i ops, (turns_left (start_thread i ops) <= 5 * length ops)%nat).
  { intros i ops. unfold turns_left. simpl. pose proof (turns_to_call_le ops). lia. }
  revert Hf. generalize start_thread. induction programs as [|ops programs IH]; intros f Hf; [done|].
  rewrite imap_cons. cbn [sum_list_with]. specialize (IH (f ∘ S) (fun i ops => Hf (S i) ops)). specialize (Hf 0%nat ops). lia.
Qed.

(** In every fair schedule all calls return: no thread waits for ever for the mutex. *)
Lemma locked_methods_return rounds (x : St) programs :
  ok x -> Forall (fun sch => round sch (length programs)) rounds ->
  (sum_list_with (fun ops => 5 * length ops) programs <= length rounds)%nat ->
  let '(ts, g) := run_schedule thread_step (concat rounds) (start_threads programs) (start_object x) in
  forall i t, ts !! i = Some t -> programs !! i = Some (finished t).*1 /\ seen_by i (history g) = finished t.
Proof.
  intros Hx Hr Hn. set (Inv ts g := system_ok x programs ts g /\ length ts = length programs).
  assert (Hstep : forall ts g i t now, Inv ts g -> ts !! i = Some t ->
    Inv (<[i := (thread_step now t g).1]> ts) (thread_step now t g).2).
  { intros ts g i t now [Hok Hl] Hi. split; [by apply system_step|by rewrite length_insert]. }
  assert (Hstart : Inv (start_threads programs) (start_object x)).
  { split; [by apply system_start|]. apply length_imap. }
  assert (Hgoal : all_returned (run_schedule thread_step (concat rounds) (start_threads programs) (start_object x)).1
    (run_schedule thread_step (concat rounds) (start_threads programs) (start_object x)).2).
  { apply (rounds_reach_goal thread_step Inv Hstep all_returned total_turns); [| | |done| |].
    - intros ts g i t now _ Hi. destruct (thread_turn now t g) as [E|Hlt]; [by left|right]. by eapply total_turns_insert.
    - intros ts g [Hok Hl]. destruct (some_locked_thread_moves _ _ _ _ Hok Hl) as [|(i & t & Hi & Hd)]; [by left|right].
      exists i, t. split; [done|]. intros now. by eapply total_turns_insert.
    - intros ts g i t now _ Hall Hi. pose proof (Forall_lookup_1 _ _ _ _ Hall Hi) as Hz. apply Forall_insert; [done|].
      simpl in *. destruct (thread_turn now t g) as [E|]; [by rewrite E|lia].
    - unfold start_threads. by rewrite length_imap.
    - etransitivity; [apply total_turns_start|done]. }
  pose proof (system_run (concat rounds) x programs Hx) as [_ Hok].
  destruct (run_schedule thread_step (concat rounds) (start_threads programs) (start_object x)) as [ts g].
  intros i t Hi. destruct (Hok i t Hi) as [_ _ _ Hseen Hp]. pose proof (Forall_lookup_1 _ _ _ _ Hgoal Hi) as Hz.
  unfold turns_left, turns_to_call in Hz. destruct (at_ t) as [|op b held| |]; simpl in *; try lia.
  - destruct (todo t); simpl in *; [|lia]. rewrite !app_nil_r in *. done.
  - pose proof (statements_pos b). lia.
Qed.
End Locked.

(** ** The thread-safe classes

    The object inside, and the body of each method.  [MaxEntries] reads a constant member,
    and only [ThreadSafeCopiableValLruCache] takes the mutex for it. *)
Module ThreadSafeSharedValueLruCache.
Section Methods.
Context {K V : Type} `{Countable K} `{KeyCompare K}.
(** The times that the loop of [Take] reads when it starts at a time. *)
Variable reads : Z -> nat -> Z.

Inductive call :=
| Put (key : K) (value : V)
| Delete (key : K)
| Get (key : K)
| Clear
| ClearFrom (start_key : K) (key_filter : K -> bool)
| MaxEntries
| Keys
| Take.
Inductive reply :=
| Done
| Deleted (found : bool)
| Found (value : option V)
| Max (max_entries : Z)
| AllKeys (keys : list K)
| Taken (entries : Res (list (K * V))).

Definition body (op : call) : method_body (lru K V) reply :=
  match op with
  | Put key value => LockGuard (Return (fun now c => (Done, SharedValueLruCache.Put now key value c)))
  | Delete key =>
      LockGuard (Return (fun _ c => let '(found, c) := SharedValueLruCache.Delete key c in (Deleted found, c)))
  | Get key =>
      LockGuard (Return (fun now c => let '(value, c) := SharedValueLruCache.Get now key c in (Found value, c)))
  | Clear => LockGuard (Return (fun _ c => (Done, SharedValueLruCache.Clear c)))
  | ClearFrom start_key key_filter =>
      LockGuard (Return (fun _ c => (Done, SharedValueLruCache.ClearFrom start_key key_filter c)))
  | MaxEntries => ReturnMember (fun c => Max (SharedValueLruCache.MaxEntries c))
  | Keys => LockGuard (Return (fun _ c => (AllKeys (SharedValueLruCache.Keys c), c)))
  | Take =>
      LockGuard (Return (fun now c => let '(entries, c) := SharedValueLruCache.Take (reads now) c in (Taken entries, c)))
  end.
End Methods.
Arguments call : clear implicits.
Arguments reply : clear implicits.
End ThreadSafeSharedValueLruCache.

Module ThreadSafeCopiableValLruCache.
Section Methods.
Context {K V : Type} `{Countable K}.

Inductive call :=
| Put (key : K) (value : V)
| Delete (key : K)
| Get (key : K)
| Clear
| ClearFilter (key_filter : K -> bool)
| MaxEntries
| Keys.
Inductive reply :=
| Done
| Deleted (found : bool)
| Found (value : option V)
| Max (max_entries : Z)
| AllKeys (keys : list K).

Definition body (op : call) : method_body (lru K V) reply :=
  match op with
  | Put key value => LockGuard (Return (fun now c => (Done, CopiableValueLruCache.Put now key value c)))
  | Delete key =>
      LockGuard (Return (fun _ c => let '(found, c) := CopiableValueLruCache.Delete key c in (Deleted found, c)))
  | Get key =>
      LockGuard (Return (fun now c => let '(value, c) := CopiableValueLruCache.Get now key c in (Found value, c)))
  | Clear => LockGuard (Return (fun _ c => (Done, CopiableValueLruCache.Clear c)))
  | ClearFilter key_filter => LockGuard (Return (fun _ c => (Done, CopiableValueLruCache.ClearFilter key_filter c)))
  | MaxEntries => LockGuard (Return (fun _ c => (Max (CopiableValueLruCache.MaxEntries c), c)))
  | Keys => LockGuard (Return (fun _ c => (AllKeys (CopiableValueLruCache.Keys c), c)))
  end.
End Methods.
End ThreadSafeCopiableValLruCache.

Module ThreadSafeExclusiveLruCache.
Section Methods.
Context {K V : Type} `{Countable K}.

Inductive call :=
| Put (key : K) (value : V)
| Delete (key : K)
| GetAndPop (key : K)
| ClearAndGetValues
| Clear
| ClearFilter (key_filter : K -> bool)
| MaxEntries.
Inductive reply :=
| Done
| Max (max_entries : Z)
| Evicted (value : Res (option V))
| Deleted (found : bool)
| Found (value : option V)
| Values (values : list V).

Definition body (op : call) : method_body (lru K V) reply :=
  match op with
  | Put key value =>
      LockGuard (Return (fun now c => let '(evicted, c) := ExclusiveLruCache.Put now key value c in (Evicted evicted, c)))
  | Delete key =>
      LockGuard (Return (fun _ c => let '(found, c) := ExclusiveLruCache.Delete key c in (Deleted found, c)))
  | GetAndPop key =>
      LockGuard (Return (fun now c => let '(value, c) := ExclusiveLruCache.GetAndPop now key c in (Found value, c)))
  | ClearAndGetValues =>
      LockGuard (Return (fun _ c => let '(values, c) := ExclusiveLruCache.ClearAndGetValues c in (Values values, c)))
  | Clear => LockGuard (Return (fun _ c => (Done, ExclusiveLruCache.Clear c)))
  | ClearFilter key_filter => LockGuard (Return (fun _ c => (Done, ExclusiveLruCache.ClearFilter key_filter c)))
  | MaxEntries => ReturnMember (fun c => Max (ExclusiveLruCache.MaxEntries c))
  end.
End Methods.
End ThreadSafeExclusiveLruCache.

Module ThreadSafeExclusiveMultiLruCache.
Section Methods.
Context {K V : Type} `{Countable K} `{KeyCompare K}.

Inductive call :=
| Put (key : K) (value : V)
| GetAndPop (key : K)
| ClearAndGetValues
| ClearAndGetValuesFrom (start_key : K) (key_filter : K -> bool)
| Verify.
Inductive reply :=
| Evicted (value : Res (option V))
| Popped (result : Res (ExclusiveMultiLruCache.GetAndPopResult (V := V)))
| Values (values : Res (list V))
| Verified (ok : bool).

Definition body (op : call) : method_body (ExclusiveMultiLruCache.multi_lru K V) reply :=
  match op with
  | Put key value =>
      LockGuard (Return (fun now c => let '(evicted, c) := ExclusiveMultiLruCache.Put now key value c in (Evicted evicted, c)))
  | GetAndPop key =>
      LockGuard (Return (fun now c => let '(result, c) := ExclusiveMultiLruCache.GetAndPop now key c in (Popped result, c)))
  | ClearAndGetValues =>
      LockGuard (Return (fun _ c => let '(values, c) := ExclusiveMultiLruCache.ClearAndGetValues c in (Values (Ok values), c)))
  | ClearAndGetValuesFrom start_key key_filter =>
      LockGuard (Return (fun _ c => let '(values, c) := ExclusiveMultiLruCache.ClearAndGetValuesFrom start_key key_filter c in (Values values, c)))
  | Verify => LockGuard (Return (fun _ c => (Verified (ExclusiveMultiLruCache.Verify c), c)))
  end.
End Methods.
End ThreadSafeExclusiveMultiLruCache.

Module ThreadSafeCounter.
Section Methods.
Context {K : Type} `{Countable K}.

Inductive call := Increment (key : K) | Decrement (key : K) | GetCount (key : K).

Definition body (op : call) : method_body (Counter.counter K) (Res Z) :=
  match op with
  | Increment key => LockGuard (Return (fun _ c => let '(n, c) := Counter.Increment key c in (Ok n, c)))
  | Decrement key => LockGuard (Return (fun _ c => Counter.Decrement key c))
  | GetCount key => LockGuard (Return (fun _ c => (Ok (Counter.GetCount key c), c)))
  end.
End Methods.
Arguments call : clear implicits.
End ThreadSafeCounter.

(** ** The bodies keep the threads apart *)
Section Classes.
Context {K V : Type} `{Countable K} `{KeyCompare K}.

(** What every method keeps of a well-formed cache: it stays one, of the same capacity. *)
Definition keeps_capacity (c c' : lru K V) : Prop := lru_wf c' /\ max_entries c' = max_entries c.

Lemma shared_method_keeps reads op now (c : lru K V) :
  lru_wf c -> keeps_capacity c (called_alone (ThreadSafeSharedValueLruCache.body reads op) now c).2.
Proof.
  intros Hw. unfold keeps_capacity. destruct op as [k v|k|k| |start f| | |]; simpl.
  - destruct (Shared.Put_refines now k v c Hw) as (? & _ & Hmax & _). done.
  - destruct (remove_key_ok k c Hw) as (? & _ & _ & Hmax & _). pose proof (Shared.Delete_remove k c) as E.
    destruct (SharedValueLruCache.Delete k c) as [b c']. simpl in *. by subst c'.
  - destruct (Shared.Get_refines now k c Hw) as (? & _ & _ & Hmax & _).
    by destruct (SharedValueLruCache.Get now k c) as [v c'].
  - by destruct (clear_ok c) as [? _].
  - destruct (delete_keys_ok SharedValueLruCache.Delete (take_while f (keys_from start (entry_map c))) c
      Shared.Delete_remove Hw) as (? & _ & Hmax & _). done.
  - done.
  - done.
  - by destruct (Shared.Take_refines (reads now) c Hw) as (taken & c' & -> & ? & _ & Hmax & _).
Qed.

Lemma exclusive_method_keeps op now (c : lru K V) :
  lru_wf c -> keeps_capacity c (called_alone (ThreadSafeExclusiveLruCache.body op) now c).2.
Proof.
  intros Hw. unfold keeps_capacity. destruct op as [k v|k|k| | |f|]; simpl.
  - destruct (Exclusive.exclusive_Put_refines now k v c Hw) as (_ & _ & _ & ? & _ & Hmax & _).
    by destruct (ExclusiveLruCache.Put now k v c) as [b c'].
  - destruct (remove_key_ok k c Hw) as (? & _ & _ & Hmax & _). pose proof (Exclusive.exclusive_Delete_remove k c) as E.
    destruct (ExclusiveLruCache.Delete k c) as [b c']. simpl in *. by subst c'.
  - destruct (Exclusive.exclusive_GetAndPop_refines now k c Hw) as (? & _).
    assert (max_entries (ExclusiveLruCache.GetAndPop now k c).2 = max_entries c) as Hmax.
    { unfold ExclusiveLruCache.GetAndPop. destruct (entry_map c !! k) as [e|]; [|done]. by destruct (expired now e c). }
    by destruct (ExclusiveLruCache.GetAndPop now k c) as [v c'].
  - by destruct (clear_ok c) as [? _].
  - by destruct (clear_ok c) as [? _].
  - destruct (delete_keys_ok ExclusiveLruCache.Delete (filter (fun k => f k) (StdList.values (lru_list c))) c
      Exclusive.exclusive_Delete_remove Hw) as (? & _ & Hmax & _). done.
  - done.
Qed.

Lemma shared_well_locked reads max :
  well_locked (ThreadSafeSharedValueLruCache.body (V := V) reads) (fun c => lru_wf c /\ max_entries c = max).
Proof.
  split.
  - intros op now c [Hw Hm]. destruct (shared_method_keeps reads op now c Hw) as [? E]. by rewrite E.
  - intros []; try done. intros op' now c [Hw _]. destruct (shared_method_keeps reads op' now c Hw) as [_ E].
    f_equal. exact E.
Qed.

Lemma exclusive_well_locked max :
  well_locked (ThreadSafeExclusiveLruCache.body (K := K) (V := V)) (fun c => lru_wf c /\ max_entries c = max).
Proof.
  split.
  - intros op now c [Hw Hm]. destruct (exclusive_method_keeps op now c Hw) as [? E]. by rewrite E.
  - intros []; try done. intros op' now c [Hw _]. destruct (exclusive_method_keeps op' now c Hw) as [_ E].
    f_equal. exact E.
Qed.

Lemma copiable_well_locked : well_locked (ThreadSafeCopiableValLruCache.body (K := K) (V := V)) (fun _ => True).
Proof. split; [done|]. by intros []. Qed.
Lemma multi_well_locked : well_locked (ThreadSafeExclusiveMultiLruCache.body (K := K) (V := V)) (fun _ => True).
Proof. split; [done|]. by intros []. Qed.
Lemma counter_well_locked : well_locked (ThreadSafeCounter.body (K := K)) (fun _ => True).
Proof. split; [done|]. by intros []. Qed.

(** C22: The methods of the thread-safe classes are linearizable ([linearizable]): the three
    LRU caches, the multi LRU cache and the counter, each with the locks that its methods
    take and with no others.  However the turns of any number of threads interleave, what
    the calls return and leave is what the same calls give one after the other on the
    unprotected object, in an order that keeps the order of each thread and of calls that do
    not overlap.  [MaxEntries] of the shared and the exclusive cache takes no lock: no other
    method changes what it reads. *)
Theorem locked_methods_linearize reads max :
  linearizable (ThreadSafeSharedValueLruCache.body (V := V) reads) (fun c => lru_wf c /\ max_entries c = max) /\
  linearizable (ThreadSafeCopiableValLruCache.body (K := K) (V := V)) (fun _ => True) /\
  linearizable (ThreadSafeExclusiveLruCache.body (K := K) (V := V)) (fun c => lru_wf c /\ max_entries c = max) /\
  linearizable (ThreadSafeExclusiveMultiLruCache.body (K := K) (V := V)) (fun _ => True) /\
  linearizable (ThreadSafeCounter.body (K := K)) (fun _ => True).
Proof.
  split_and!; apply well_locked_linearizes.
  - apply shared_well_locked.
  - apply copiable_well_locked.
  - apply exclusive_well_locked.
  - apply multi_well_locked.
  - apply counter_well_locked.
Qed.

(** The index and the list of a shared LRU cache stay linked, and it never grows past its
    capacity, however many threads use it. *)
Lemma shared_cache_stays_bounded sch (programs : list (list (ThreadSafeSharedValueLruCache.call K V))) max timeout reads :
  let c := object (run_schedule (thread_step (ThreadSafeSharedValueLruCache.body reads)) sch (start_threads programs)
              (start_object (new_lru max timeout))).2 in
  lru_wf c /\ (0 < max -> Z.of_nat (size (lru_list c)) <= max).
Proof.
  destruct (system_run _ _ (shared_well_locked reads max) sch (new_lru max timeout) programs) as [(_ & [[Hl Hs] Hm] & _) _];
    [split; [apply new_lru_ok|done]|].
  split; [by split|]. intros Hpos. rewrite Hm in Hs. by apply Hs.
Qed.
End Classes.

(** ** Witnesses

    Two threads count one key up: at every turn of the one that waits, the mutex is held. *)
Definition sample_programs : list (list (ThreadSafeCounter.call string)) :=
  [[ThreadSafeCounter.Increment "a"; ThreadSafeCounter.GetCount "a"]; [ThreadSafeCounter.Increment "a"]]%string.
Definition sample_turns : list (nat * Z) := concat (replicate 15 [(0%nat, 1); (1%nat, 2)]).
Definition sample_counts :=
  run_schedule (thread_step ThreadSafeCounter.body) sample_turns (start_threads sample_programs)
    (start_object (∅ : Counter.counter string)).

Example both_increments_count : results_of (history sample_counts.2) = [Ok 1; Ok 2; Ok 2].
Proof. vm_compute. reflexivity. Qed.

(** Without its lock an increment is lost. *)
Definition unlocked_counter (op : ThreadSafeCounter.call string) : method_body (Counter.counter string) (Res Z) :=
  match ThreadSafeCounter.body op with LockGuard rest => rest | b => b end.
Example unlocked_increment_is_lost :
  let '(ts, g) := run_schedule (thread_step unlocked_counter) sample_turns (start_threads sample_programs)
    (start_object (∅ : Counter.counter string)) in
  results_of (history g) = [Ok 1; Ok 1; Ok 1] /\ object g = {["a"%string := 1]}.
Proof. vm_compute. done. Qed.

Lemma locked_methods_linearize_witness :
  in_sequence ThreadSafeCounter.body (calls_of (history sample_counts.2)) ∅ =
    ([Ok 1; Ok 2; Ok 2], object sample_counts.2).
Proof.
  destruct (locked_methods_linearize (K := string) (V := Z) (fun now _ => now) 0) as (_ & _ & _ & _ & Hlin).
  pose proof (proj1 (Hlin sample_turns [] ∅ sample_programs I)) as Hseq.
  rewrite <-both_increments_count. exact Hseq.
Defined.

(** ** [concurrency::unique_lock]

    A lock that need not hold its mutex: taken, tried and released by hand, and released by
    the destructor when it is still held.  [tid] is the thread that uses it. *)
Module UniqueLock.

Inductive lock_error := OperationNotPermitted | ResourceDeadlockWouldOccur.

(** A mutex, or none, and whether the lock holds it. *)
Record unique_lock := MkUniqueLock { device : bool; owns : bool }.

(** What a call comes to: a result with the lock and the mutex, a thread that waits, an
    exception. *)
Inductive outcome (A : Type) :=
| Done (a : A) (l : unique_lock) (m : mutex)
| Blocks
| Throws (e : lock_error).
Arguments Done {A}. Arguments Blocks {A}. Arguments Throws {A}.

Definition no_lock : unique_lock := MkUniqueLock false false.
Definition locked (tid : nat) (m : mutex) : outcome () :=
  match lock tid m with Some m => Done tt (MkUniqueLock true true) m | None => Blocks end.
Definition deferred : unique_lock := MkUniqueLock true false.
Definition adopted : unique_lock := MkUniqueLock true true.
Definition tried (tid : nat) (m : mutex) : unique_lock * mutex :=
  let '(b, m) := try_lock tid m in (MkUniqueLock true b, m).

(** [Impl::lock ()] and [Impl::try_lock ()] refuse a lock without a mutex and one that holds it. *)
Definition lockable (l : unique_lock) : option lock_error :=
  if negb (device l) then Some OperationNotPermitted
  else if owns l then Some ResourceDeadlockWouldOccur else None.

Definition ul_lock (tid : nat) (l : unique_lock) (m : mutex) : outcome () :=
  match lockable l with Some e => Throws e | None => locked tid m end.
Definition ul_try_lock (tid : nat) (l : unique_lock) (m : mutex) : outcome bool :=
  match lockable l with
  | Some e => Throws e
  | None => let '(l, m) := tried tid m in Done (owns l) l m
  end.
Definition ul_unlock (l : unique_lock) (m : mutex) : outcome () :=
  if owns l then Done tt (MkUniqueLock (device l) false) (unlock m) else Throws OperationNotPermitted.
Definition destroy (l : unique_lock) (m : mutex) : mutex := if owns l then unlock m else m.

(** The calls that the thread makes in the scope of the lock.  An exception leaves the scope;
    a thread that waits is where it is. *)
Inductive lock_call := CallLock | CallTryLock | CallUnlock.
Fixpoint in_scope (tid : nat) (calls : list lock_call) (l : unique_lock) (m : mutex) : option mutex :=
  match calls with
  | [] => Some (destroy l m)
  | CallLock :: calls =>
      match ul_lock tid l m with
      | Done _ l m => in_scope tid calls l m | Blocks => None | Throws _ => Some (destroy l m)
      end
  | CallTryLock :: calls =>
      match ul_try_lock tid l m with
      | Done _ l m => in_scope tid calls l m | Blocks => None | Throws _ => Some (destroy l m)
      end
  | CallUnlock :: calls =>
      match ul_unlock l m with
      | Done _ l m => in_scope tid calls l m | Blocks => None | Throws _ => Some (destroy l m)
      end
  end.

(** The lock knows whether its thread holds the mutex. *)
Definition knows (tid : nat) (l : unique_lock) (m : mutex) : Prop :=
  owns l = true <-> m = Some tid.

Lemma tried_knows tid m : m <> Some tid -> let '(l, m) := tried tid m in knows tid l m.
Proof. unfold tried, knows. by destruct m as [j|]; simpl; intros ?; split. Qed.

Lemma ul_lock_knows tid l m l' m' :
  ul_lock tid l m = Done tt l' m' -> knows tid l' m'.
Proof.
  unfold ul_lock, locked, knows. destruct (lockable l); [done|].
  by destruct m; simpl; intros [= <- <-].
Qed.

Lemma ul_try_lock_knows tid l m b l' m' :
  knows tid l m -> ul_try_lock tid l m = Done b l' m' -> knows tid l' m'.
Proof.
  intros Hk. unfold ul_try_lock, lockable. destruct (device l); [|done]. destruct (owns l) eqn:Ho; [done|]. simpl.
  pose proof (tried_knows tid m) as Ht. destruct (tried tid m) as [l1 m1]. intros [= _ <- <-].
  apply Ht. intros Hm. apply Hk in Hm. congruence.
Qed.

Lemma ul_unlock_knows tid l m l' m' : ul_unlock l m = Done tt l' m' -> knows tid l' m'.
Proof. unfold ul_unlock, knows. by destruct (owns l); intros [= <- <-]. Qed.

Lemma destroy_free tid l m : knows tid l m -> destroy l m <> Some tid.
Proof. unfold knows, destroy. destruct (owns l); [done|]. by intros [_ Hm] Hm'; specialize (Hm Hm'). Qed.

(** However the scope of a lock ends, the thread does not keep the mutex. *)
Lemma scope_releases tid calls l m m' :
  knows tid l m -> in_scope tid calls l m = Some m' -> m' <> Some tid.
Proof.
  revert l m. induction calls as [|[] calls IH]; intros l m Hk; simpl.
  - intros [= <-]. by apply destroy_free.
  - destruct (ul_lock tid l m) as [[] l1 m1| |] eqn:H; [|done|intros [= <-]; by apply destroy_free].
    apply IH. by apply ul_lock_knows in H.
  - destruct (ul_try_lock tid l m) as [b l1 m1| |] eqn:H; [|done|intros [= <-]; by apply destroy_free].
    apply IH. by apply ul_try_lock_knows in H.
  - destruct (ul_unlock l m) as [[] l1 m1| |] eqn:H; [|done|intros [= <-]; by apply destroy_free].
    apply IH. by apply (ul_unlock_knows tid) in H.
Qed.

(** A lock of one thread never gives back the mutex that another holds. *)
Lemma foreign_mutex_is_kept tid i calls l m' :
  tid <> i -> knows tid l (Some i) -> in_scope tid calls l (Some i) = Some m' -> m' = Some i.
Proof.
  intros Hi. revert l. induction calls as [|c calls IH]; intros l Hk.
  all: assert (Ho : owns l = false) by (destruct (owns l) eqn:Ho; [apply Hk in Ho; congruence|done]).
  - simpl. unfold destroy. rewrite Ho. by intros [= <-].
  - destruct c; simpl; unfold ul_lock, ul_try_lock, ul_unlock, lockable, destroy; rewrite Ho; destruct (device l); simpl;
      try (by intros [= <-]); try done.
    apply IH. unfold knows. simpl. split; [done|congruence].
Qed.

Example scope_example :
  in_scope 1 [CallUnlock; CallLock] (MkUniqueLock true true) (Some 1%nat) = Some None /\
  in_scope 1 [CallLock] deferred (Some 2%nat) = None /\
  ul_lock 1 adopted (Some 1%nat) = Throws ResourceDeadlockWouldOccur.
Proof. vm_compute. done. Qed.
End UniqueLock.
