(* ===== verification/ReadPath.v ===== *)
(** * ReadPath

    What a cache reader promises to the cache filesystem ([BaseCacheReader],
    [src/src/include/base_cache_reader.hpp]) as a type class, and its implementations:
    [NoopCacheReader] ([src/src/noop_cache_reader.cpp]) with the simulated remote of
    [src/src/remote_simulation.cpp], the in-memory reader and the on-disk reader.  The one that
    the settings select is in [ManagedReader]. *)
From S2P Require Import Prelude StringUtil Blocks DataStorage IoOperations ParquetLayout InMemReader LocalFs Config.
From S2P Require Import AccessIndex DiskNames InstanceConfig DiskReader DiskReaderProofs Handler InstanceState.
From S2P Require CppString.
From Stdlib Require QArith.QArith_base QArith.Qround.

#[local] Open Scope Z_scope.

(** ** The interface *)

(** What a reader sees of a file handle: its path, its version tag, and the positional
    [Read] of the internal filesystem on it. *)
Record FileView := MkView {
  view_path : string;
  view_tag : string;
  view_read : Z -> Z -> Res (list byte)
}.

(** [BaseCacheReader]: [read_and_cache v start n file_size g res g'] relates the state before
    and after a call; [caller_buffer] is the memory the caller handed over, and
    [with_caller_buffer] hands another one over. *)
Class BaseCacheReader (G : Type) := {
  caller_buffer : G -> list byte;
  with_caller_buffer : list byte -> G -> G;
  read_and_cache : FileView -> Z -> Z -> Z -> G -> Res unit -> G -> Prop
}.

(** [content] gives the content of the files, which do not change. *)
Section Contract.
Variable content : string -> list byte.

Definition view_size (v : FileView) : Z := Z.of_nat (length (content (view_path v))).

(** The internal filesystem delivers the requested bytes, or throws. *)
Definition truthful_view (v : FileView) : Prop := forall nr loc bytes,
  0 <= loc -> 0 <= nr -> loc + nr <= view_size v -> view_read v nr loc = Ok bytes -> bytes = slice (content (view_path v)) loc nr.

(** [readable]: the files a reader can serve; [cache_error]: what the creation of its cache
    and the cache itself may throw. *)
Class CacheReaderLaws (G : Type) `{BaseCacheReader G} := {
  reader_ok : G -> Prop;
  readable : string -> Prop;
  cache_error : exn -> Prop;
  caller_buffer_law b g : caller_buffer (with_caller_buffer b g) = b;
  reader_ok_law b g : reader_ok g -> reader_ok (with_caller_buffer b g);
  read_law v start n g res g' :
    truthful_view v -> readable (view_path v) -> 0 <= start -> 0 <= n -> start + n <= view_size v ->
    Z.of_nat (length (caller_buffer g)) = n -> reader_ok g ->
    read_and_cache v start n (view_size v) g res g' ->
    reader_ok g' /\
    match res with
    | Ok _ => caller_buffer g' = slice (content (view_path v)) start n
    | Throw e => e = BadAlloc \/ (exists nr loc, view_read v nr loc = Throw e) \/ cache_error e
    end
}.
End Contract.

(** ** [NoopCacheReader] *)

(** [SimulateRemoteRead]: how long the thread sleeps, in microseconds; [rnd] rounds a
    quotient or a sum to a [double] (one out of range is left as it is), and the cast to an
    integer truncates.  A quotient by infinity is zero; a NaN is not above zero. *)
Definition SimulateRemoteRead (rnd : QArith_base.Q -> QArith_base.Q) (config : InstanceConfig) (bytes : Z) : option Z :=
  let latency_us := sim_latency_us config in
  let bandwidth_gbps := sim_bandwidth_gbps config in
  let zero := CppString.double_of_Z 0 in
  if (latency_us =? 0) && CppString.double_le bandwidth_gbps zero then None
  else
    let delay_us := rnd (QArith_base.inject_Z latency_us) in
    let delay_us :=
      if CppString.double_lt zero bandwidth_gbps then
        let transfer_us :=
          match bandwidth_gbps with
          | CppString.Finite gbps =>
              rnd (QArith_base.Qdiv (rnd (QArith_base.inject_Z bytes)) (rnd (QArith_base.Qmult gbps (QArith_base.inject_Z 1000))))
          | _ => QArith_base.inject_Z 0
          end in
        rnd (QArith_base.Qplus delay_us transfer_us)
      else delay_us in
    if CppString.double_le (CppString.Finite delay_us) zero then None else Some (Qround.Qfloor delay_us).

Module NoopCacheReader.
(** The caller's buffer, the calls on the collector, and the microseconds slept. *)
Record noop_state := MkNoop { n_buffer : list byte; n_profile : list profile_event; n_slept : Z }.

Section Reading.
Variable rnd : QArith_base.Q -> QArith_base.Q.
Variable config : InstanceConfig.

Definition ReadAndCache (v : FileView) (requested_start_offset requested_bytes_to_read : Z) (g : noop_state) :
    Res unit * noop_state :=
  let slept := n_slept g + default 0 (SimulateRemoteRead rnd config requested_bytes_to_read) in
  let log := n_profile g ++ [RecordOperation kRead] in
  match (bytes ← view_read v requested_bytes_to_read requested_start_offset;
         of_option UndefinedBehaviour (write_at (n_buffer g) 0 bytes)) with
  | Throw e => (Throw e, MkNoop (n_buffer g) log slept)
  | Ok b => (Ok tt, MkNoop b log slept)
  end.

#[export] Instance noop_reader : BaseCacheReader noop_state := {
  caller_buffer := n_buffer;
  with_caller_buffer b g := MkNoop b (n_profile g) (n_slept g);
  read_and_cache v start n _ g res g' := ReadAndCache v start n g = (res, g')
}.

Lemma NoopRead_ok content v start n g res g' :
  truthful_view content v -> 0 <= start -> 0 <= n -> start + n <= view_size content v ->
  Z.of_nat (length (n_buffer g)) = n -> ReadAndCache v start n g = (res, g') ->
  match res with
  | Ok _ => n_buffer g' = slice (content (view_path v)) start n
  | Throw e => exists nr loc, view_read v nr loc = Throw e
  end.
Proof.
  intros Hv Hs Hn He Hb. unfold ReadAndCache. destruct (view_read v n start) as [bytes|e] eqn:Hr; simpl.
  - pose proof (Hv n start bytes Hs Hn He Hr) as Hbytes.
    assert (Z.of_nat (length bytes) = n) as Hlen by (rewrite Hbytes; by apply length_slice).
    unfold write_at. rewrite decide_True by lia. simpl. intros [= <- <-]. simpl.
    rewrite drop_ge by lia. by rewrite app_nil_r.
  - intros [= <- <-]. eauto.
Qed.

#[export] Instance noop_reader_laws content : CacheReaderLaws content noop_state.
Proof.
  refine {| reader_ok _ := True; readable _ := True; cache_error _ := False |}; [done|done|].
  intros v start n g res g' Hv _ Hs Hn He Hb _ Hr. split; [done|].
  pose proof (NoopRead_ok content v start n g res g' Hv Hs Hn He Hb Hr) as Ho. destruct res; [done|]. auto.
Defined.
End Reading.
End NoopCacheReader.

(** ** The in-memory reader *)
Section InMemory.
Context {S : Type} `{StorageLaws S}.
Variables (page_size : Z) (al : Allocator) (config : InMemoryCacheReaderConfig) (layouts : ParquetLayout.registry).
Variable env : shared S -> shared S -> Prop.
Variable content : string -> list byte.

#[local] Abbreviation versions := (fun (path _ : string) => content path).

#[export] Instance in_memory_reader : BaseCacheReader (shared S) := {
  caller_buffer := buffer;
  with_caller_buffer b g := with_buffer g b;
  read_and_cache v start n file_size g res g' :=
    ReadAndCache (view_path v) (view_tag v) page_size al (view_read v) config layouts env start n file_size g res g'
}.

Hypothesis page_pos : 0 < page_size.
Hypothesis block_pos : 0 < InMemReader.cache_block_size config.
Hypothesis layouts_ok : registry_ok layouts.
Hypothesis env_ok : forall g g', env g g' -> buffer g' = buffer g /\
  (truthful_storage versions (storage g) -> truthful_storage versions (storage g')).

Definition fits_in_memory (path : string) : Prop :=
  let file_size := Z.of_nat (length (content path)) in
  file_size + page_size < two64 /\ file_size + InMemReader.cache_block_size config < two64.

Definition in_memory_reader_laws : CacheReaderLaws content (shared S).
Proof.
  refine {| reader_ok g := truthful_storage versions (storage g); readable := fits_in_memory;
            cache_error _ := False |}; [done|done|].
  intros v start n g res g' Hv [Hf1 Hf2] Hs Hn He Hb Hg Hr.
  destruct (ReadAndCache_ok (view_path v) (view_tag v) page_size al (view_read v) config layouts env versions start n
    g res g' (fun nr loc bytes Hl Hnr => Hv nr loc bytes Hl (Z.lt_le_incl _ _ Hnr)) (fun _ _ => eq_refl) page_pos Hf1 env_ok block_pos Hf2 layouts_ok
    Hs Hn He Hb Hg Hr) as [Ht Ho].
  split; [exact Ht|]. destruct res; [exact Ho|]. destruct Ho as [?|?]; auto.
Defined.
End InMemory.

(** ** The on-disk reader *)
Section OnDisk.
Context `{SU : StringUtil} `{SL : !StringUtilLaws}.
Context {F : Type} `{FS : LocalFileSystem F} `{FL : !LocalFsLaws F}.
Context {S : Type} `{StorageLaws S}.
Variables (page_size : Z) (al : Allocator).
Variable sha256 : string -> list Z.
Variable uuid : CacheReadChunk -> string.
Variable CanAccessFile : string -> bool.
Variable rnd : QArith_base.Q -> QArith_base.Q.
Variable config : InstanceConfig.
Variable wall : Z -> Z.
Variable env : @disk_shared F S -> @disk_shared F S -> Prop.
Variable content : string -> list byte.
(** The remote files in use. *)
Variable remote : string -> Prop.

#[local] Abbreviation versions := (fun (path _ : string) => content path).
#[local] Abbreviation dirs := (on_disk_cache_directories config).

#[export] Instance on_disk_reader : BaseCacheReader (@disk_shared F S) := {
  caller_buffer := d_buffer;
  with_caller_buffer b g := set_buffer g b;
  read_and_cache v start n file_size g res g' :=
    DiskReadAndCache (view_path v) (view_tag v) page_size al (view_read v) sha256 uuid CanAccessFile rnd config wall env
      start n file_size g res g'
}.

Hypothesis page_pos : 0 < page_size.
Hypothesis block_pos : 0 < cache_block_size config.
Hypothesis sha256_bytes : forall s, Forall is_byte (sha256 s).
Hypothesis sha256_injective : forall a b,
  hashed sha256 dirs remote a -> hashed sha256 dirs remote b -> sha256 a = sha256 b -> a = b.
Hypothesis uuid_ok : forall c, is_uuid (uuid c).
Hypothesis directories_ok : valid_directories dirs.
Hypothesis env_ok : forall g g', env g g' -> d_buffer g' = d_buffer g /\
  (cache_ok sha256 config versions remote g -> cache_ok sha256 config versions remote g').

Definition readable_on_disk (path : string) : Prop :=
  let file_size := Z.of_nat (length (content path)) in
  remote path /\ file_size + page_size < two64 /\ file_size + cache_block_size config < two64.

Definition on_disk_reader_laws : CacheReaderLaws content (@disk_shared F S).
Proof.
  refine {| reader_ok g := cache_ok sha256 config versions remote g; readable := readable_on_disk;
            cache_error := local_failure F |}; [done|done|].
  intros v start n g res g' Hv (Hrem & Hf1 & Hf2) Hs Hn He Hb Hg Hr.
  destruct (DiskReadAndCache_ok (view_path v) (view_tag v) page_size al (view_read v) sha256 uuid CanAccessFile rnd config
    wall env versions remote start n g res g' (fun nr loc bytes Hl Hnr => Hv nr loc bytes Hl (Z.lt_le_incl _ _ Hnr))
    (fun _ => eq_refl) page_pos Hf1 sha256_bytes sha256_injective Hrem uuid_ok directories_ok env_ok block_pos Hf2
    Hs Hn He Hb Hg Hr) as [Ht Ho].
  split; [exact Ht|]. destruct res; [exact Ho|]. by destruct Ho as [?|[?|?]]; auto.
Defined.
End OnDisk.
