(* ===== verification/ManagedReader.v ===== *)
(** * ManagedReader

    The reader that a cache filesystem reads through: the one that
    [InstanceCacheReaderManager] has selected, with its storage built at the first read
    ([std::call_once] in [src/src/in_memory_cache_reader.cpp] and
    [src/src/disk_cache_reader.cpp]) from the settings.  It keeps the contract of
    [ReadPath] whichever reader and whichever storages are configured. *)
From S2P Require Import Prelude StringUtil Blocks Tasks Config PolicyStorage ObjectStorage ExtensionStorage DataStorage Storages.
From S2P Require Import IoOperations ParquetLayout InMemReader LocalFs AccessIndex DiskNames.
From S2P Require Import InstanceConfig DiskReader DiskReaderProofs Handler InstanceState ReadPath.
From Stdlib Require QArith.QArith_base.

#[local] Open Scope Z_scope.

Import InstanceCacheReaderManager.

Section Managed.
Context `{SU : StringUtil} `{SL : !StringUtilLaws}.
Context {F : Type} `{FS : LocalFileSystem F} `{FL : !LocalFsLaws F}.
Context {O : Type} `{OL : ObjectCacheLaws O}.
Variables (page_size : Z) (al : Allocator).
Variable sha256 : string -> list Z.
Variable uuid : CacheReadChunk -> string.
Variable CanAccessFile : string -> bool.
Variable rnd : QArith_base.Q -> QArith_base.Q.
Variable wall : Z -> Z.
Variable parse : string -> Z -> Res (list SpecEntry).
Variable layouts : ParquetLayout.registry.
Variable config : InstanceConfig.
(** The object cache of the database. *)
Variable db_instance : option O.
(** What other queries do to the storages of the readers meanwhile. *)
Variable memory_env : shared (any_storage O) -> shared (any_storage O) -> Prop.
Variable disk_env : @disk_shared F (any_storage O) -> @disk_shared F (any_storage O) -> Prop.

Record managed := MkManaged {
  m_buffer : list byte;
  m_readers : reader_manager (any_storage O);
  m_files : F;
  m_profile : list profile_event;
  m_slept : Z
}.
Implicit Types (g : managed).

(** *** Building the storages *)
Definition GetConfig : InMemoryCacheReaderConfig :=
  MkReaderConfig (max_in_mem_cache_block_count config) (in_mem_cache_block_timeout_millisec config)
    (InstanceConfig.cache_block_size config) (InstanceConfig.max_subrequest_count config)
    (InstanceConfig.enable_cache_validation config) (InstanceConfig.in_mem_cache_storage config)
    (InstanceConfig.chunking config) (InstanceConfig.in_mem_cache_bytes config)
    (InstanceConfig.eviction_policy config) (InstanceConfig.policy_scope config) (InstanceConfig.file_policies config).

Definition policy_options (c : InMemoryCacheReaderConfig) : PolicyStorageOptions :=
  MkPolicyOptions (InMemReader.in_mem_cache_bytes c) (InMemReader.eviction_policy c) (InMemReader.file_policies c)
    (String.eqb (InMemReader.policy_scope c) PER_FILE_POLICY_SCOPE).

Definition init_memory (storage : option (any_storage O)) : Res (any_storage O) :=
  match storage with
  | Some s => Ok s
  | None =>
      BuildInMemoryDataCacheStorageWith parse (InMemReader.in_mem_cache_storage GetConfig) db_instance
        (max_cache_block_count GetConfig) (cache_block_timeout_millisec GetConfig) (policy_options GetConfig)
  end.

Definition init_disk (r : disk_reader (any_storage O)) : Res (disk_reader (any_storage O)) :=
  if dr_cache_init_flag r then Ok r
  else if enable_disk_reader_mem_cache config then
    s ← BuildInMemoryDataCacheStorage (InstanceConfig.in_mem_cache_storage config) db_instance
          (disk_reader_max_mem_cache_block_count config) (disk_reader_max_mem_cache_timeout_millisec config);
    Ok (MkDiskReader true (Some s) (dr_index r))
  else Ok (MkDiskReader true (dr_mem r) (dr_index r)).

(** *** Reading *)
Definition view_memory (s : any_storage O) g : shared (any_storage O) := MkShared (m_buffer g) s (m_profile g).
Definition after_memory (s : shared (any_storage O)) g : managed :=
  MkManaged (buffer s) (set_in_mem (Some (Some (storage s))) (m_readers g)) (m_files g) (profile s) (m_slept g).

Definition view_disk (r : disk_reader (any_storage O)) g : @disk_shared F (any_storage O) :=
  MkDiskShared (m_buffer g) (dr_mem r) (m_files g) (dr_index r) (m_profile g).
Definition after_disk (r : disk_reader (any_storage O)) (s : @disk_shared F (any_storage O)) g : managed :=
  MkManaged (d_buffer s) (set_on_disk (from_view r s) (m_readers g)) (d_files s) (d_profile s) (m_slept g).

Definition read_managed (v : FileView) (start n file_size : Z) g (res : Res unit) g' : Prop :=
  match GetCacheReader (m_readers g) with
  | None => res = Throw UndefinedBehaviour /\ g' = g
  | Some NoopReader =>
      let '(r, s) := NoopCacheReader.ReadAndCache rnd config v start n
                       (NoopCacheReader.MkNoop (m_buffer g) (m_profile g) (m_slept g)) in
      res = r /\ g' = MkManaged (NoopCacheReader.n_buffer s) (m_readers g) (m_files g) (NoopCacheReader.n_profile s)
                        (NoopCacheReader.n_slept s)
  | Some InMemReaderKind =>
      if n =? 0 then res = Ok tt /\ g' = g
      else
        match in_mem_cache_reader (m_readers g) with
        | None => res = Throw UndefinedBehaviour /\ g' = g
        | Some storage =>
            match init_memory storage with
            | Throw e => res = Throw e /\ g' = g
            | Ok s => exists s', ReadAndCache (view_path v) (view_tag v) page_size al (view_read v) GetConfig layouts memory_env
                                   start n file_size (view_memory s g) res s' /\ g' = after_memory s' g
            end
        end
  | Some OnDiskReader =>
      if n =? 0 then res = Ok tt /\ g' = g
      else
        match on_disk_cache_reader (m_readers g) with
        | None => res = Throw UndefinedBehaviour /\ g' = g
        | Some r =>
            match init_disk r with
            | Throw e => res = Throw e /\ g' = g
            | Ok r => exists s', DiskReadAndCache (view_path v) (view_tag v) page_size al (view_read v) sha256 uuid CanAccessFile
                                   rnd config wall disk_env start n file_size (view_disk r g) res s' /\ g' = after_disk r s' g
            end
        end
  end.

#[export] Instance managed_reader : BaseCacheReader managed := {
  caller_buffer := m_buffer;
  with_caller_buffer b g := MkManaged b (m_readers g) (m_files g) (m_profile g) (m_slept g);
  read_and_cache := read_managed
}.

(** ** The contract *)
Variable content : string -> list byte.
(** The remote files in use. *)
Variable remote : string -> Prop.

#[local] Abbreviation versions := (fun (path _ : string) => content path).
#[local] Abbreviation dirs := (on_disk_cache_directories config).

Hypothesis page_pos : 0 < page_size.
Hypothesis block_pos : 0 < InstanceConfig.cache_block_size config.
Hypothesis layouts_ok : registry_ok layouts.
Hypothesis sha256_bytes : forall s, Forall is_byte (sha256 s).
Hypothesis sha256_injective : forall a b,
  hashed sha256 dirs remote a -> hashed sha256 dirs remote b -> sha256 a = sha256 b -> a = b.
Hypothesis uuid_ok : forall c, is_uuid (uuid c).
Hypothesis directories_ok : valid_directories dirs.
Hypothesis memory_env_ok : forall a b, memory_env a b -> buffer b = buffer a /\
  (truthful_storage versions (storage a) -> truthful_storage versions (storage b)).
Hypothesis disk_env_ok : forall a b, disk_env a b -> d_buffer b = d_buffer a /\
  (cache_ok sha256 config versions remote a -> cache_ok sha256 config versions remote b).
Hypothesis database_ok : forall o, db_instance = Some o -> well_keyed o.
Hypothesis budget_fits :
  InMemReader.in_mem_cache_storage GetConfig = POLICY_STORAGE -> budget_ok parse (policy_options GetConfig).

(** The selected reader exists and the caches are right. *)
Record managed_ok g : Prop := {
  managed_selected : match internal_cache_reader (m_readers g) with
                     | None => False
                     | Some NoopReader => True
                     | Some InMemReaderKind => is_Some (in_mem_cache_reader (m_readers g))
                     | Some OnDiskReader => is_Some (on_disk_cache_reader (m_readers g))
                     end;
  managed_memory s : in_mem_cache_reader (m_readers g) = Some (Some s) -> truthful_storage versions s;
  managed_disk r : on_disk_cache_reader (m_readers g) = Some r -> cache_ok sha256 config versions remote (view_disk r g)
}.

Definition managed_readable (path : string) : Prop :=
  fits_in_memory page_size GetConfig content path /\ readable_on_disk page_size config content remote path.

(** A setup fails when the object cache of a database is asked for and there is none, and
    when the policies of the settings are refused; the on-disk reader meets the failures of
    the local filesystem. *)
Definition managed_cache_error (e : exn) : Prop :=
  init_memory None = Throw e \/ (exists r, init_disk r = Throw e) \/ local_failure F e.

Lemma init_memory_ok storage s :
  (forall s, storage = Some s -> truthful_storage versions s) -> init_memory storage = Ok s -> truthful_storage versions s.
Proof.
  intros Hs. destruct storage as [s0|]; simpl; [intros [= <-]; by apply Hs|]. intros Hb.
  destruct (BuildWith_ok parse _ db_instance _ _ _ s database_ok budget_fits Hb) as [Hok He]. split; [done|]. intros k e Hh. by destruct (He k e).
Qed.

Lemma init_disk_ok r r' g :
  cache_ok sha256 config versions remote (view_disk r g) -> init_disk r = Ok r' ->
  cache_ok sha256 config versions remote (view_disk r' g).
Proof.
  intros (Hm & Hf & Hx). unfold init_disk. destruct (dr_cache_init_flag r); [by intros [= <-]|].
  destruct (enable_disk_reader_mem_cache config); [|by intros [= <-]].
  intros Hb. apply bind_Ok in Hb as (s & Hb & [= <-]). split; [|by split]. simpl.
  destruct (Build_ok _ db_instance _ _ s database_ok Hb) as [Hok He]. split; [done|]. intros k e Hh. by destruct (He k e).
Qed.

#[local] Instance memory_reader : BaseCacheReader (shared (any_storage O)) :=
  in_memory_reader page_size al GetConfig layouts memory_env.
#[local] Instance disk_reader_instance : BaseCacheReader (@disk_shared F (any_storage O)) :=
  on_disk_reader page_size al sha256 uuid CanAccessFile rnd config wall disk_env.

#[local] Instance memory_laws : CacheReaderLaws content (shared (any_storage O)) :=
  in_memory_reader_laws page_size al GetConfig layouts memory_env content page_pos block_pos layouts_ok memory_env_ok.
#[local] Instance disk_laws : CacheReaderLaws content (@disk_shared F (any_storage O)) :=
  on_disk_reader_laws page_size al sha256 uuid CanAccessFile rnd config wall disk_env content remote page_pos block_pos
    sha256_bytes sha256_injective uuid_ok directories_ok disk_env_ok.

Definition read_outcome (v : FileView) (start n : Z) (res : Res unit) g' : Prop :=
  match res with
  | Ok _ => m_buffer g' = slice (content (view_path v)) start n
  | Throw e => e = BadAlloc \/ (exists nr loc, view_read v nr loc = Throw e) \/ managed_cache_error e
  end.

Lemma empty_read v start g : Z.of_nat (length (m_buffer g)) = 0 -> read_outcome v start 0 (Ok tt) g.
Proof. simpl. unfold slice. simpl. by destruct (m_buffer g). Qed.

Lemma read_managed_ok v start n g res g' :
  truthful_view content v -> managed_readable (view_path v) -> 0 <= start -> 0 <= n ->
  start + n <= view_size content v -> Z.of_nat (length (m_buffer g)) = n -> managed_ok g ->
  read_managed v start n (view_size content v) g res g' ->
  managed_ok g' /\ read_outcome v start n res g'.
Proof.
  intros Hv [Hrm Hrd] Hs Hn He Hb Hg Hr. pose proof Hg as [Hsel Hmem Hdisk]. unfold read_managed, GetCacheReader in Hr.
  destruct (internal_cache_reader (m_readers g)) as [[| |]|] eqn:Hk; [| | |done].
  - destruct (NoopCacheReader.ReadAndCache rnd config v start n _) as [r s] eqn:Hno. destruct Hr as [-> ->].
    pose proof (NoopCacheReader.NoopRead_ok rnd config content v start n
      (NoopCacheReader.MkNoop (m_buffer g) (m_profile g) (m_slept g)) r s Hv Hs Hn He Hb Hno) as Ho.
    split; [constructor; simpl; [by rewrite Hk|done|done]|]. destruct r; [exact Ho|right; left; exact Ho].
  - destruct (Z.eqb_spec n 0) as [->|Hn0]; [destruct Hr as [-> ->]; split; [done|by apply empty_read]|].
    destruct Hsel as [storage Hst]. rewrite Hst in Hr, Hmem. destruct (init_memory storage) as [s|e] eqn:Hi.
    2:{ destruct Hr as [-> ->]. split; [done|]. right. right. left. by destruct storage. }
    destruct Hr as (s' & Hread & ->).
    destruct (@read_law content _ memory_reader memory_laws v start n (view_memory s g) res s' Hv Hrm Hs Hn He Hb) as [Hok Ho]; [|exact Hread|].
    { eapply init_memory_ok; [|exact Hi]. intros s0 ->. by apply Hmem. }
    split; [constructor; simpl; [by rewrite Hk|by intros ? [= <-]|done]|].
    destruct res; [exact Ho|]. destruct Ho as [?|[?|[]]]; unfold read_outcome; auto.
  - destruct (Z.eqb_spec n 0) as [->|Hn0]; [destruct Hr as [-> ->]; split; [done|by apply empty_read]|].
    destruct Hsel as [r Hrr]. rewrite Hrr in Hr. destruct (init_disk r) as [r'|e] eqn:Hi.
    2:{ destruct Hr as [-> ->]. split; [done|]. right. right. right. left. by exists r. }
    destruct Hr as (s' & Hread & ->).
    destruct (@read_law content _ disk_reader_instance disk_laws v start n (view_disk r' g) res s' Hv Hrd Hs Hn He Hb) as [Hok Ho]; [|exact Hread|].
    { eapply init_disk_ok; [|exact Hi]. by apply Hdisk. }
    split; [constructor; simpl; [by rewrite Hk; eauto|done|]|].
    + intros r0 [= <-]. by destruct Hok as (H1 & H2 & H3).
    + destruct res; [exact Ho|]. unfold read_outcome, managed_cache_error. tauto.
Qed.

Definition managed_reader_laws : CacheReaderLaws content managed.
Proof.
  refine {| reader_ok := managed_ok; readable := managed_readable; cache_error := managed_cache_error |}.
  - done.
  - intros b g [H1 H2 H3]. by constructor.
  - intros v start n g res g' Hv Hr Hs Hn He Hb Hg Hread.
    exact (read_managed_ok v start n g res g' Hv Hr Hs Hn He Hb Hg Hread).
Defined.

(** C32: the configured reader implements the contract of a reader.  For a remote file
    that does not change while it is cached, whichever reader the settings select and
    whichever storages they ask for (built at the first read: the extension's own, DuckDB's
    object cache, or the byte-bounded one with eviction policies, with no budget or one
    below [2^63] whose explicit sizes do not add up to [2^64]), a read of [n] bytes leaves
    in the caller's buffer the bytes of the file, or throws what the allocator, the remote
    filesystem, the setup of the storage or the local filesystem threw, or the process ends
    because a temporary file resisted its removal, and every cache of every reader stays
    right. *)
Theorem configured_read_correct v start n g res g' :
  truthful_view content v -> managed_readable (view_path v) -> 0 <= start -> 0 <= n ->
  start + n <= view_size content v -> Z.of_nat (length (m_buffer g)) = n -> managed_ok g ->
  read_managed v start n (view_size content v) g res g' ->
  managed_ok g' /\
  match res with
  | Ok _ => m_buffer g' = slice (content (view_path v)) start n
  | Throw e => e = BadAlloc \/ (exists nr loc, view_read v nr loc = Throw e) \/
               init_memory None = Throw e \/ (exists r, init_disk r = Throw e) \/ local_failure F e
  end.
Proof. apply read_managed_ok. Qed.
End Managed.

(** ** Witness

    The first read of an instance that caches in memory: the storage is built, and the two
    sub-reads of the request are scheduled as in [InMemReader.sample_run]. *)
Definition managed_config : InstanceConfig :=
  (default_config <| InstanceConfig.cache_block_size := 4 |>) <| on_disk_cache_directories := ["/c"%string] |>.
Definition managed_view : FileView := MkView disk_remote_path "" (fun nr loc => Ok (slice sample_file loc nr)).
Definition managed_text (path : string) : list byte := sample_file.
Definition no_parse (_ : string) (_ : Z) : Res (list SpecEntry) := Ok [].

#[local] Abbreviation object_cache := (gmap string CacheHttpfsDataBlock).

Definition managed_start : @managed disk object_cache :=
  MkManaged (replicate 5 x00) (MkReaderManager false (Some None) None (Some InMemReaderKind)) empty_disk [] 0.
Definition managed_storage : any_storage object_cache :=
  AnyExtension (ExtensionBoundedDataCacheStorage.new_storage
    (max_in_mem_cache_block_count managed_config) (in_mem_cache_block_timeout_millisec managed_config)).
Definition managed_run :=
  run_schedule (chunk_step disk_remote_path "" 16 sample_allocator (view_read managed_view)) sample_schedule
    (AtLookup <$> sample_chunks) (MkShared (replicate 5 x00) managed_storage []).
Definition managed_end : @managed disk object_cache :=
  after_memory (log managed_run.2 (RecordActualCacheRead 8 5)) managed_start.

Lemma managed_sample_read :
  read_managed 16 sample_allocator plain_digest (fun _ => sample_uuid) (fun _ => true) (fun q => q) id no_parse ∅ managed_config
    None (fun _ _ => False) (fun _ _ => False) managed_view 3 5 10 managed_start (Ok tt) managed_end.
Proof.
  unfold read_managed. change (GetCacheReader (m_readers managed_start)) with (Some InMemReaderKind). cbv iota.
  change (5 =? 0) with false. cbv iota. change (in_mem_cache_reader (m_readers managed_start)) with (Some (@None (any_storage object_cache))).
  cbv iota. change (init_memory no_parse managed_config (@None object_cache) None) with (Ok managed_storage). cbv iota.
  exists (log managed_run.2 (RecordActualCacheRead 8 5)). split; [|done].
  exists sample_chunks, 8, (Ok tt), managed_run.2. split; [vm_compute; reflexivity|].
  split; [|by split]. exists managed_run.1. split; [apply run_schedule_run|].
  assert (managed_run.1 = Finished <$> sample_chunks) as -> by (vm_compute; reflexivity). split; [by repeat constructor|done].
Qed.

Lemma configured_read_correct_witness : m_buffer managed_end = slice sample_file 3 5.
Proof.
  apply (configured_read_correct (F := disk) (O := object_cache) 16 sample_allocator plain_digest (fun _ => sample_uuid)
    (fun _ => true) (fun q => q) id no_parse ∅ managed_config None (fun _ _ => False) (fun _ _ => False) managed_text (fun _ => True))
    with (v := managed_view) (start := 3) (n := 5) (g := managed_start) (res := Ok tt) (g' := managed_end);
    [lia|vm_compute; reflexivity|apply map_Forall_empty|apply plain_digest_bytes|intros a b _ _; apply plain_digest_inj|
     intros _; apply sample_uuid_ok|apply disk_directories|intros ? ? []|intros ? ? []|done|discriminate|
     intros nr loc bytes _ _ _ [= <-]; reflexivity|split; [split|split; [|split]]; vm_compute; done|lia|lia|
     vm_compute; discriminate|reflexivity| |apply managed_sample_read].
  constructor; [simpl; eauto|done|done].
Defined.
