(* ===== verification/TableFunctions.v ===== *)
(** * TableFunctions

    The table functions of the extension: the status of the caches
    ([src/src/cache_status_query_function.cpp]), the settings
    ([src/src/extension_config_query_function.cpp]), the registered filesystems
    ([src/src/filesystem_status_query_function.cpp]), the statistics of the policy storage
    ([src/src/policy_stats_query_function.cpp]) and the exclusion list
    ([src/src/cache_exclusion_utils.cpp]).

    DuckDB binds a table function (its column types and names), initialises its global
    state, and calls it with an empty chunk until a call leaves the chunk empty. *)
From S2P Require Import Prelude StringUtil Blocks OrdMap DataStorage IoOperations InMemReader LocalFs Config AccessIndex.
From S2P Require Import InstanceConfig DiskReader Profile PolicyStorage Policy ObjectStorage Storages Handler InstanceState.
From S2P Require Remap.

#[local] Open Scope Z_scope.

(** ** Values, columns and chunks *)

(** The logical types in use. *)
Inductive LogicalType := VARCHAR_TYPE | UBIGINT_TYPE | VARCHAR_LIST_TYPE.

Inductive Value :=
| StringValue (s : string)
| UbigintValue (n : Z)
| BigintValue (n : Z)
| StringListValue (l : list string)
| NullValue.

Abbreviation schema := (list (LogicalType * string)).

(** The calls of a table function on the chunk it fills: [SetValue (col, row, value)] and
    [SetCardinality]. *)
Record DataChunk := MkDataChunk { cells : gmap (nat * nat) Value; cardinality : nat }.

Definition empty_data_chunk : DataChunk := MkDataChunk ∅ 0.

Definition SetValue (col row : nat) (v : Value) (out : DataChunk) : DataChunk :=
  MkDataChunk (<[(col, row) := v]> (cells out)) (cardinality out).
Definition SetCardinality (n : nat) (out : DataChunk) : DataChunk := MkDataChunk (cells out) n.

(** [output.SetValue (col++, row, ...)], once per value. *)
Fixpoint set_row (col row : nat) (vs : list Value) (out : DataChunk) : DataChunk :=
  match vs with
  | [] => out
  | v :: vs => set_row (S col) row vs (SetValue col row v out)
  end.

(** A bind callback receives no columns and adds its own. *)
Definition bind_columns (columns : schema) (bound : schema) : Res schema :=
  _ ← always_assert (bool_decide (bound = [])); Ok (bound ++ columns).

(** ** The emission of rows

    The global state of most table functions: the rows and the number of rows emitted.
    [vector_size] is [STANDARD_VECTOR_SIZE]. *)
Record row_cursor (A : Type) := MkCursor { cursor_rows : list A; cursor_offset : nat }.
Arguments MkCursor {_} _ _.
Arguments cursor_rows {_} _.
Arguments cursor_offset {_} _.

Section Emission.
Variable vector_size : nat.
Context {A : Type}.
Variable row_of : A -> list Value.
Implicit Types (c : row_cursor A).

(** The [while] loop; [room] is what [count] lacks to [vector_size]. *)
Fixpoint emit_loop (room count : nat) c (out : DataChunk) : nat * row_cursor A * DataChunk :=
  match room with
  | O => (count, c, out)
  | S room =>
      match cursor_rows c !! cursor_offset c with
      | None => (count, c, out)
      | Some entry =>
          emit_loop room (S count) (MkCursor (cursor_rows c) (S (cursor_offset c))) (set_row 0 count (row_of entry) out)
      end
  end.

Definition emit_table c out : row_cursor A * DataChunk :=
  if (length (cursor_rows c) <=? cursor_offset c)%nat then (c, out)
  else
    let '(count, c, out) := emit_loop vector_size 0 c out in
    (c, SetCardinality count out).
End Emission.

(** A function with one row, emitted once. *)
Definition emit_once (row : list Value) (emitted : bool) (out : DataChunk) : bool * DataChunk :=
  if emitted then (emitted, out) else (true, SetCardinality 1 (set_row 0 0 row out)).

(** ** Cache status *)
Section Status.
Variable vector_size : nat.

Definition DataCacheStatusQueryFuncBind : schema -> Res schema := bind_columns [
  (VARCHAR_TYPE, "cache_filepath"); (VARCHAR_TYPE, "original_remote_path"); (UBIGINT_TYPE, "start_offset");
  (UBIGINT_TYPE, "end_offset"); (VARCHAR_TYPE, "cache_type")
]%string.

(** [Value::BIGINT (static_cast<uint64_t> (n))]. *)
Definition bigint_of (n : Z) : Value := BigintValue (i64 n).

Definition status_row (entry : DataCacheEntryInfo) : list Value := [
  StringValue (cache_filepath entry);
  if String.eqb (original_remote_path entry) "" then NullValue else StringValue (original_remote_path entry);
  bigint_of (start_offset entry);
  bigint_of (end_offset entry);
  StringValue (Blocks.cache_type entry)
].

Definition DataCacheStatusQueryTableFunc := emit_table vector_size status_row.

(** [operator<] of [DataCacheEntryInfo] ([src/src/cache_entry_info.cpp]). *)
Definition entry_info_key (e : DataCacheEntryInfo) : string * (string * (Z * (Z * string))) :=
  (cache_filepath e, (original_remote_path e, (start_offset e, (end_offset e, Blocks.cache_type e)))).

Lemma entry_info_key_inj e e' : entry_info_key e = entry_info_key e' -> e = e'.
Proof. destruct e, e'. unfold entry_info_key. simpl. congruence. Qed.

#[export] Instance entry_info_less : KeyCompare DataCacheEntryInfo :=
  less_by (KB := pair_less (KB := pair_less (KB := pair_less (KA := Remap.Z_less) (KB := pair_less (KA := Remap.Z_less)))))
    entry_info_key entry_info_key_inj.

Section Init.
Context `{StringUtil} {F : Type} `{LocalFileSystem F} {S : Type} `{InMemoryDataCacheStorage S} {R : Type}.
Import InstanceCacheReaderManager.

(** [GetCacheEntriesInfo] of a reader. *)
Definition reader_entries (config : InstanceConfig) (m : reader_manager S) (f : F) (reader : reader_kind) :
    Res (list DataCacheEntryInfo) :=
  match reader with
  | NoopReader => Ok []
  | InMemReaderKind => Ok (match in_mem_cache_reader m with Some s => GetCacheEntriesInfo s | None => [] end)
  | OnDiskReader =>
      match on_disk_cache_reader m with
      | Some r => DiskGetCacheEntriesInfo config (disk_view r f)
      | None => Ok []
      end
  end.

Fixpoint gather_entries (config : InstanceConfig) (m : reader_manager S) (f : F) (readers : list reader_kind)
    (entries_info : list DataCacheEntryInfo) : Res (list DataCacheEntryInfo) :=
  match readers with
  | [] => Ok entries_info
  | r :: readers => es ← reader_entries config m f r; gather_entries config m f readers (entries_info ++ es)
  end.

(** The instance state may be missing. *)
Definition DataCacheStatusQueryFuncInit (st : option (instance_state F S R)) :
    Res (row_cursor DataCacheEntryInfo) * option (instance_state F S R) :=
  match st with
  | None => (Ok (MkCursor [] 0), None)
  | Some st =>
      let m := InitializeDiskCacheReader (i_readers st) in
      (entries ← gather_entries (i_config st) m (i_files st) (GetCacheReaders m) [];
       Ok (MkCursor (std_sort_keys entries) 0),
       Some (with_readers st m (i_files st)))
  end.
End Init.

(** ** Cache accesses *)
Definition CacheAccessInfoQueryFuncBind : schema -> Res schema := bind_columns [
  (VARCHAR_TYPE, "cache_type"); (UBIGINT_TYPE, "cache_hit_count"); (UBIGINT_TYPE, "cache_miss_count");
  (UBIGINT_TYPE, "cache_miss_by_in_use (file handle cache)"); (UBIGINT_TYPE, "number_bytes_to_read (data cache)");
  (UBIGINT_TYPE, "number_bytes_to_cache (data cache)"); (UBIGINT_TYPE, "bytes_read_from_hits (data cache)");
  (UBIGINT_TYPE, "bytes_read_from_misses (data cache)")
]%string.

Definition optional_bytes (v : option Z) : Value := match v with Some n => UbigintValue n | None => NullValue end.

Definition access_row (entry : CacheAccessInfo) : list Value := [
  StringValue (ai_cache_type entry);
  bigint_of (cache_hit_count entry);
  bigint_of (cache_miss_count entry);
  bigint_of (cache_miss_by_in_use entry);
  optional_bytes (ai_total_bytes_to_read entry);
  optional_bytes (ai_total_bytes_to_cache entry);
  optional_bytes (ai_bytes_read_from_hits entry);
  optional_bytes (ai_bytes_read_from_misses entry)
].

Definition CacheAccessInfoQueryTableFunc := emit_table vector_size access_row.

(** [GetValue<uint64_t> ()] of a [NULL] throws. *)
Definition add_bytes (total cur : option Z) : Res (option Z) :=
  n ← of_option InternalException cur; Ok (Some (default 0 total +u n)).

(** The iteration of an entity; the bytes are added in the row of index [IoOperation::kRead]. *)
Definition aggregate_info (idx : nat) (row cur : CacheAccessInfo) : Res CacheAccessInfo :=
  let hits := cache_hit_count row +u cache_hit_count cur in
  let misses := cache_miss_count row +u cache_miss_count cur in
  let in_use := cache_miss_by_in_use row +u cache_miss_by_in_use cur in
  if Nat.eqb idx (operation_index kRead) then
    to_read ← add_bytes (ai_total_bytes_to_read row) (ai_total_bytes_to_read cur);
    to_cache ← add_bytes (ai_total_bytes_to_cache row) (ai_total_bytes_to_cache cur);
    from_hits ← add_bytes (ai_bytes_read_from_hits row) (ai_bytes_read_from_hits cur);
    from_misses ← add_bytes (ai_bytes_read_from_misses row) (ai_bytes_read_from_misses cur);
    Ok (MkAccessInfo (ai_cache_type row) hits misses in_use to_read to_cache from_hits from_misses)
  else
    Ok (MkAccessInfo (ai_cache_type row) hits misses in_use (ai_total_bytes_to_read row) (ai_total_bytes_to_cache row)
          (ai_bytes_read_from_hits row) (ai_bytes_read_from_misses row)).

Fixpoint aggregate_infos (idx : nat) (rows curs : list CacheAccessInfo) : Res (list CacheAccessInfo) :=
  match rows, curs with
  | row :: rows, cur :: curs => row ← aggregate_info idx row cur; rows ← aggregate_infos (S idx) rows curs; Ok (row :: rows)
  | rows, _ => Ok rows
  end.

Definition no_access_info : list CacheAccessInfo :=
  (fun name => MkAccessInfo name 0 0 0 None None None None) <$> CACHE_ENTITY_NAMES.

Import InstanceProfileCollectorManager.

Definition any_access_info (c : any_collector) : list CacheAccessInfo :=
  match c with
  | Noop p => NoopProfileCollector.GetCacheAccessInfo p
  | Temp p => TempProfileCollector.GetCacheAccessInfo p
  end.

Definition CacheAccessInfoQueryFuncInit (conn_id : Z) (m : manager) : Res (row_cursor CacheAccessInfo) :=
  if HasExplicitProfileCollector conn_id m then
    collector ← GetProfileCollectorOrThrow conn_id m;
    let infos := any_access_info collector in
    _ ← always_assert (length infos =? kCacheEntityCount)%nat;
    rows ← aggregate_infos 0 no_access_info infos;
    Ok (MkCursor rows 0)
  else Ok (MkCursor no_access_info 0).
End Status.

(** ** Names *)
Section Names.
Variable vector_size : nat.

Definition name_row (name : string) : list Value := [StringValue name].

(** Wrapped filesystems: [name_of] gives the name of the internal filesystem of the cache
    filesystem at an address. *)
Definition WrappedCacheFileSystemsFuncBind : schema -> Res schema := bind_columns [(VARCHAR_TYPE, "wrapped_filesystems"%string)].

Definition WrappedCacheFileSystemsFuncInit (name_of : nat -> string) (r : InstanceCacheFsRegistry.registry) : row_cursor string :=
  MkCursor (name_of <$> InstanceCacheFsRegistry.GetAllCacheFs r) 0.

Definition WrappedCacheFileSystemsTableFunc := emit_table vector_size name_row.

(** Registered filesystems: [filesystems] is what [ListSubSystems] returns. *)
Definition ListFileSystemQueryFuncBind : schema -> Res schema := bind_columns [(VARCHAR_TYPE, "registered_filesystems"%string)].

Definition ListFileSystemQueryFuncInit (filesystems : list string) : row_cursor string :=
  MkCursor (std_sort_keys filesystems) 0.

Definition ListFileSystemQueryTableFunc := emit_table vector_size name_row.

(** Exclusion list. *)
Definition ListCacheExclusionRegexQueryFuncBind : schema -> Res schema := bind_columns [(VARCHAR_TYPE, "cache_exclusion_regex"%string)].

Definition ListCacheExclusionRegexQueryFuncInit {R} (x : CacheExclusionManager.exclusions R) : row_cursor string :=
  MkCursor (std_sort_keys (CacheExclusionManager.GetExclusionRegex x)) 0.

Definition ListCacheExclusionRegexQueryTableFunc := emit_table vector_size name_row.
End Names.

(** ** Statistics of the policy storage *)
Section PolicyStats.
Variable vector_size : nat.

Definition PolicyStatsBind : schema -> Res schema := bind_columns [
  (VARCHAR_TYPE, "policy_group"); (VARCHAR_TYPE, "policy"); (UBIGINT_TYPE, "capacity_bytes"); (UBIGINT_TYPE, "used_bytes");
  (UBIGINT_TYPE, "entry_count"); (UBIGINT_TYPE, "hits"); (UBIGINT_TYPE, "misses"); (UBIGINT_TYPE, "evictions");
  (UBIGINT_TYPE, "bytes_admitted"); (UBIGINT_TYPE, "bytes_evicted"); (UBIGINT_TYPE, "min_entry_bytes");
  (UBIGINT_TYPE, "max_entry_bytes")
]%string.

(** [InMemoryCacheReader::GetPolicyStats]. *)
Definition GetPolicyStats {O} (storage : option (any_storage O)) : list PolicyGroupStats :=
  match storage with
  | Some (AnyPolicy s) => GetStats s
  | _ => []
  end.

Definition reader_name (r : reader_kind) : string :=
  match r with
  | NoopReader => NOOP_CACHE_READER_NAME
  | InMemReaderKind => IN_MEM_CACHE_READER_NAME
  | OnDiskReader => ON_DISK_CACHE_READER_NAME
  end.

Definition PolicyStatsInit {O} (m : InstanceCacheReaderManager.reader_manager (any_storage O)) : row_cursor PolicyGroupStats :=
  MkCursor
    (foldl (fun rows reader =>
              if String.eqb (reader_name reader) IN_MEM_CACHE_READER_NAME then
                rows ++ GetPolicyStats (default None (InstanceCacheReaderManager.in_mem_cache_reader m))
              else rows)
       [] (InstanceCacheReaderManager.GetCacheReaders m)) 0.

Definition policy_row (row : PolicyGroupStats) : list Value := [
  StringValue (st_group row); StringValue (st_policy row); UbigintValue (st_capacity_bytes row);
  UbigintValue (st_used_bytes row); UbigintValue (st_entry_count row); UbigintValue (st_hits row); UbigintValue (st_misses row);
  UbigintValue (st_evictions row); UbigintValue (st_bytes_admitted row); UbigintValue (st_bytes_evicted row);
  UbigintValue (st_min_entry_bytes row); UbigintValue (st_max_entry_bytes row)
].

(** [for (i = 0; i < count; i++)] over the rows from [offset]. *)
Fixpoint policy_rows (i : nat) (rows : list PolicyGroupStats) (out : DataChunk) : DataChunk :=
  match rows with
  | [] => out
  | row :: rows => policy_rows (S i) rows (set_row 0 i (policy_row row) out)
  end.

Definition PolicyStatsTableFunc (c : row_cursor PolicyGroupStats) (out : DataChunk) : row_cursor PolicyGroupStats * DataChunk :=
  let count := Nat.min vector_size (length (cursor_rows c) - cursor_offset c) in
  if Nat.eqb count 0 then (c, out)
  else
    (MkCursor (cursor_rows c) (cursor_offset c + count),
     SetCardinality count (policy_rows 0 (take count (drop (cursor_offset c) (cursor_rows c))) out)).
End PolicyStats.

(** ** Settings

    The columns depend on the settings when the function is bound, and the values on the
    settings when it is called.  A bind helper appends its columns to those before it, a fill
    helper sets its values in the next columns. *)
Section Settings.
Implicit Types (config : InstanceConfig).

Definition GetDiskCacheReaderMemoryCacheType config : Value :=
  if enable_disk_reader_mem_cache config then StringValue "on-disk-memory-cache" else StringValue "page-cache".

Definition GetDiskCacheDirectories config : Value := StringListValue (on_disk_cache_directories config).

Definition GetCacheExclusionRegexes {R} (x : CacheExclusionManager.exclusions R) : Value :=
  StringListValue (CacheExclusionManager.GetExclusionRegex x).

Definition DataCacheConfigQueryFuncBindImpl config : schema :=
  (VARCHAR_TYPE, "data cache type") ::
  (if String.eqb (cache_type config) ON_DISK_CACHE_TYPE then
     [(VARCHAR_LIST_TYPE, "disk cache directories"); (UBIGINT_TYPE, "disk cache block size");
      (VARCHAR_TYPE, "disk cache eviction policy"); (VARCHAR_TYPE, "disk cache memory cache")]
   else if String.eqb (cache_type config) IN_MEM_CACHE_TYPE then
     [(UBIGINT_TYPE, "in-memory cache block size"); (VARCHAR_TYPE, "in-memory cache eviction policy")]
   else [])%string.

Definition FillDataCacheConfig config : list Value :=
  StringValue (cache_type config) ::
  (if String.eqb (cache_type config) ON_DISK_CACHE_TYPE then
     [GetDiskCacheDirectories config; UbigintValue (cache_block_size config);
      StringValue (on_disk_eviction_policy config); GetDiskCacheReaderMemoryCacheType config]
   else if String.eqb (cache_type config) IN_MEM_CACHE_TYPE then
     [UbigintValue (cache_block_size config); StringValue "lru"]
   else []).

Definition MetadataCacheConfigQueryFuncBindImpl config : schema :=
  (VARCHAR_TYPE, "metadata cache type") ::
  (if enable_metadata_cache config then [(UBIGINT_TYPE, "metadata cache entry size")] else [])%string.

Definition FillMetadataCacheConfig config : list Value :=
  if enable_metadata_cache config then [StringValue "enabled"; UbigintValue (max_metadata_cache_entry config)]
  else [StringValue "disabled"].

Definition FileHandleCacheConfigQueryFuncBindImpl config : schema :=
  (VARCHAR_TYPE, "file handle cache type") ::
  (if enable_file_handle_cache config then [(UBIGINT_TYPE, "file handle cache entry size")] else [])%string.

Definition FillFileHandleCacheConfig config : list Value :=
  if enable_file_handle_cache config then [StringValue "enabled"; UbigintValue (max_file_handle_cache_entry config)]
  else [StringValue "disabled"].

Definition GlobCacheConfigQueryFuncBindImpl config : schema :=
  (VARCHAR_TYPE, "glob cache type") ::
  (if enable_glob_cache config then [(UBIGINT_TYPE, "glob cache entry size")] else [])%string.

Definition FillGlobCacheConfig config : list Value :=
  if enable_glob_cache config then [StringValue "enabled"; UbigintValue (max_glob_cache_entry config)]
  else [StringValue "disabled"].

Definition DataCacheConfigQueryFuncBind config : schema -> Res schema := bind_columns (DataCacheConfigQueryFuncBindImpl config).
Definition DataCacheConfigQueryTableFunc config := emit_once (FillDataCacheConfig config).

Definition MetadataCacheConfigQueryFuncBind config : schema -> Res schema :=
  bind_columns (MetadataCacheConfigQueryFuncBindImpl config).
Definition MetadataCacheConfigQueryTableFunc config := emit_once (FillMetadataCacheConfig config).

Definition FileHandleCacheConfigQueryFuncBind config : schema -> Res schema :=
  bind_columns (FileHandleCacheConfigQueryFuncBindImpl config).
Definition FileHandleCacheConfigQueryTableFunc config := emit_once (FillFileHandleCacheConfig config).

Definition GlobCacheConfigQueryFuncBind config : schema -> Res schema := bind_columns (GlobCacheConfigQueryFuncBindImpl config).
Definition GlobCacheConfigQueryTableFunc config := emit_once (FillGlobCacheConfig config).

Definition CacheTypeQueryFuncBind : schema -> Res schema := bind_columns [
  (VARCHAR_TYPE, "data cache"); (VARCHAR_TYPE, "metadata cache"); (VARCHAR_TYPE, "file handle cache");
  (VARCHAR_TYPE, "glob cache")
]%string.

Definition enablement (b : bool) : Value := StringValue (if b then "enabled" else "disabled").

Definition CacheTypeQueryTableFunc config := emit_once [
  StringValue (cache_type config); enablement (enable_metadata_cache config); enablement (enable_file_handle_cache config);
  enablement (enable_glob_cache config)
].

Definition CacheConfigQueryFuncBind config : schema -> Res schema := bind_columns (
  DataCacheConfigQueryFuncBindImpl config ++ MetadataCacheConfigQueryFuncBindImpl config ++
  FileHandleCacheConfigQueryFuncBindImpl config ++ GlobCacheConfigQueryFuncBindImpl config ++
  [(VARCHAR_LIST_TYPE, "cache exclusion regexes"%string)]).

Definition cache_config_row {R} config (x : CacheExclusionManager.exclusions R) : list Value :=
  FillDataCacheConfig config ++ FillMetadataCacheConfig config ++ FillFileHandleCacheConfig config ++
  FillGlobCacheConfig config ++ [GetCacheExclusionRegexes x].

Definition CacheConfigQueryTableFunc {R} config (x : CacheExclusionManager.exclusions R) := emit_once (cache_config_row config x).
End Settings.

(** ** The table functions

    What a callback reads from the client context: the instance state, the connection, the
    registered filesystems and the names of the wrapped ones. *)
Section TableFunctions.
Variable vector_size : nat.
Context `{StringUtil} {F : Type} `{LocalFileSystem F} {O : Type} `{ObjectCache O} {R : Type}.

Record client_context := MkContext {
  ctx_instance : instance_state F (any_storage O) R;
  ctx_connection : Z;
  ctx_filesystems : list string;
  ctx_name_of : nat -> string
}.
Implicit Types (ctx : client_context).

Record TableFunction := MkTableFunction {
  tf_name : string;
  tf_state : Type;
  tf_function : client_context -> tf_state -> DataChunk -> tf_state * DataChunk;
  tf_bind : client_context -> schema -> Res schema;
  tf_init : client_context -> Res tf_state * client_context
}.

Definition set_instance (st : instance_state F (any_storage O) R) ctx : client_context :=
  MkContext st (ctx_connection ctx) (ctx_filesystems ctx) (ctx_name_of ctx).

Definition ctx_config ctx : InstanceConfig := i_config (ctx_instance ctx).

Definition GetDataCacheStatusQueryFunc : TableFunction :=
  MkTableFunction "cache_httpfs_cache_status_query" _ (fun _ => DataCacheStatusQueryTableFunc vector_size)
    (fun _ => DataCacheStatusQueryFuncBind)
    (fun ctx => let '(r, st) := DataCacheStatusQueryFuncInit (Some (ctx_instance ctx)) in
                (r, set_instance (default (ctx_instance ctx) st) ctx)).

Definition GetCacheAccessInfoQueryFunc : TableFunction :=
  MkTableFunction "cache_httpfs_cache_access_info_query" _ (fun _ => CacheAccessInfoQueryTableFunc vector_size)
    (fun _ => CacheAccessInfoQueryFuncBind)
    (fun ctx => (CacheAccessInfoQueryFuncInit (ctx_connection ctx) (i_profiles (ctx_instance ctx)), ctx)).

Definition GetWrappedCacheFileSystemsFunc : TableFunction :=
  MkTableFunction "cache_httpfs_get_cache_filesystems" _ (fun _ => WrappedCacheFileSystemsTableFunc vector_size)
    (fun _ => WrappedCacheFileSystemsFuncBind)
    (fun ctx => (Ok (WrappedCacheFileSystemsFuncInit (ctx_name_of ctx) (i_registry (ctx_instance ctx))), ctx)).

Definition ListRegisteredFileSystemsQueryFunc : TableFunction :=
  MkTableFunction "cache_httpfs_list_registered_filesystems" _ (fun _ => ListFileSystemQueryTableFunc vector_size)
    (fun _ => ListFileSystemQueryFuncBind)
    (fun ctx => (Ok (ListFileSystemQueryFuncInit (ctx_filesystems ctx)), ctx)).

Definition ListCacheExclusionRegex : TableFunction :=
  MkTableFunction "cache_httpfs_list_exclusion_regex" _ (fun _ => ListCacheExclusionRegexQueryTableFunc vector_size)
    (fun _ => ListCacheExclusionRegexQueryFuncBind)
    (fun ctx => (Ok (ListCacheExclusionRegexQueryFuncInit (i_exclusions (ctx_instance ctx))), ctx)).

Definition GetPolicyStatsQueryFunc : TableFunction :=
  MkTableFunction "cache_httpfs_policy_stats" _ (fun _ => PolicyStatsTableFunc vector_size)
    (fun _ => PolicyStatsBind)
    (fun ctx => (Ok (PolicyStatsInit (i_readers (ctx_instance ctx))), ctx)).

(** The settings functions start not emitted. *)
Definition config_function (name : string) (row : client_context -> bool -> DataChunk -> bool * DataChunk)
    (bind : client_context -> schema -> Res schema) : TableFunction :=
  MkTableFunction name bool row bind (fun ctx => (Ok false, ctx)).

Definition GetDataCacheConfigQueryFunc : TableFunction :=
  config_function "cache_httpfs_get_data_cache_config" (fun ctx => DataCacheConfigQueryTableFunc (ctx_config ctx))
    (fun ctx => DataCacheConfigQueryFuncBind (ctx_config ctx)).

Definition GetMetadataCacheConfigQueryFunc : TableFunction :=
  config_function "cache_httpfs_get_metadata_cache_config" (fun ctx => MetadataCacheConfigQueryTableFunc (ctx_config ctx))
    (fun ctx => MetadataCacheConfigQueryFuncBind (ctx_config ctx)).

Definition GetFileHandleCacheConfigQueryFunc : TableFunction :=
  config_function "cache_httpfs_get_file_handle_cache_config" (fun ctx => FileHandleCacheConfigQueryTableFunc (ctx_config ctx))
    (fun ctx => FileHandleCacheConfigQueryFuncBind (ctx_config ctx)).

Definition GetGlobCacheConfigQueryFunc : TableFunction :=
  config_function "cache_httpfs_get_glob_cache_config" (fun ctx => GlobCacheConfigQueryTableFunc (ctx_config ctx))
    (fun ctx => GlobCacheConfigQueryFuncBind (ctx_config ctx)).

Definition GetCacheTypeQueryFunc : TableFunction :=
  config_function "cache_httpfs_get_cache_type" (fun ctx => CacheTypeQueryTableFunc (ctx_config ctx))
    (fun _ => CacheTypeQueryFuncBind).

Definition GetCacheConfigQueryFunc : TableFunction :=
  config_function "cache_httpfs_get_cache_config"
    (fun ctx => CacheConfigQueryTableFunc (ctx_config ctx) (i_exclusions (ctx_instance ctx)))
    (fun ctx => CacheConfigQueryFuncBind (ctx_config ctx)).

(** Those that the extension registers. *)
Definition table_functions : list TableFunction := [
  ListCacheExclusionRegex; GetDataCacheStatusQueryFunc; GetDataCacheConfigQueryFunc; GetMetadataCacheConfigQueryFunc;
  GetFileHandleCacheConfigQueryFunc; GetGlobCacheConfigQueryFunc; GetCacheTypeQueryFunc; GetCacheConfigQueryFunc;
  GetPolicyStatsQueryFunc; ListRegisteredFileSystemsQueryFunc; GetCacheAccessInfoQueryFunc; GetWrappedCacheFileSystemsFunc
].
End TableFunctions.
Arguments client_context : clear implicits.
Arguments TableFunction : clear implicits.

(** ** The scan of a table function

    DuckDB calls it with empty chunks until one stays empty; [None] when [fuel] calls are not
    enough. *)
Fixpoint scan {St} (f : St -> DataChunk -> St * DataChunk) (fuel : nat) (s : St) : option (list DataChunk) :=
  match fuel with
  | O => None
  | S fuel =>
      let '(s, out) := f s empty_data_chunk in
      if Nat.eqb (cardinality out) 0 then Some [] else (out ::.) <$> scan f fuel s
  end.
