(* ===== verification/TableProofs.v ===== *)
(** * TableProofs

    Every table function delivers each of its rows once and in order, in chunks of at most
    [STANDARD_VECTOR_SIZE] rows that fit the columns it was bound with; and the status of the
    caches lists what they hold. *)
From S2P Require Import Prelude StringUtil Blocks OrdMap DataStorage IoOperations InMemReader LocalFs Config AccessIndex.
From S2P Require Import InstanceConfig DiskCacheUtil DiskReader Profile PolicyStorage Policy ObjectStorage Storages Handler InstanceState TableFunctions.

#[local] Open Scope Z_scope.

(** ** Emission *)

(** The cells of a chunk are the values of [rows]. *)
Definition filled (rows : list (list Value)) (out : DataChunk) : Prop :=
  forall col row, cells out !! (col, row) = rows !! row ≫= fun r => r !! col.

(** The chunks of a scan deliver [rows]. *)
Definition delivers (vector_size : nat) (chunks : list DataChunk) (rows : list (list Value)) : Prop :=
  exists parts, rows = mjoin parts /\
    Forall2 (fun part out => filled part out /\ cardinality out = length part /\ (0 < length part <= vector_size)%nat)
      parts chunks.

Lemma set_row_cells vs col row out c r :
  cells (set_row col row vs out) !! (c, r) =
    (if decide (r = row /\ (col <= c < col + length vs)%nat) then vs !! (c - col)%nat else cells out !! (c, r)).
Proof.
  revert col out. induction vs as [|v vs IH]; intros col out; simpl; [by rewrite decide_False by lia|].
  rewrite IH.
  destruct (decide (r = row /\ (S col <= c < S col + length vs)%nat)) as [H1|H1],
    (decide (r = row /\ (col <= c < col + S (length vs))%nat)) as [H2|H2]; [|lia|..].
  - rewrite lookup_cons_ne_0 by lia. f_equal. lia.
  - simpl. assert (c = col) as -> by lia. destruct H2 as [-> _].
    rewrite lookup_insert_eq. by rewrite Nat.sub_diag.
  - simpl. by rewrite lookup_insert_ne by (intros [= <- <-]; lia).
Qed.

Lemma set_row_cardinality vs col row out : cardinality (set_row col row vs out) = cardinality out.
Proof. revert col out. induction vs as [|v vs IH]; intros col out; simpl; [done|]. by rewrite IH. Qed.

Lemma filled_empty : filled [] empty_data_chunk.
Proof. intros c r. unfold empty_data_chunk. simpl. by rewrite lookup_empty. Qed.

Lemma filled_row rows vs out : filled rows out -> filled (rows ++ [vs]) (set_row 0 (length rows) vs out).
Proof.
  intros Hf c r. rewrite set_row_cells, Hf, Nat.sub_0_r. destruct (decide (r = length rows /\ (0 <= c < 0 + length vs)%nat)) as [Hd|Hd].
  - destruct Hd as [-> _]. by rewrite list_lookup_middle.
  - destruct (decide (r < length rows)%nat) as [Hr|Hr]; [by rewrite lookup_app_l|].
    rewrite (lookup_ge_None_2 rows) by lia. simpl.
    destruct (decide (r = length rows)) as [->|Hne].
    + rewrite list_lookup_middle by done. simpl. symmetry. apply lookup_ge_None_2. lia.
    + by rewrite (lookup_ge_None_2 (rows ++ [vs])) by (rewrite length_app; simpl; lia).
Qed.

Lemma filled_cardinality rows n out : filled rows out -> filled rows (SetCardinality n out).
Proof. done. Qed.

Section Emit.
Context {A : Type}.
Variable vector_size : nat.
Variable row_of : A -> list Value.
Implicit Types (c : row_cursor A).

Lemma emit_loop_ok room c out rows :
  filled rows out ->
  let now := take room (drop (cursor_offset c) (cursor_rows c)) in
  exists out', emit_loop row_of room (length rows) c out =
    (length rows + length now, MkCursor (cursor_rows c) (cursor_offset c + length now), out')%nat /\
    filled (rows ++ (row_of <$> now)) out'.
Proof.
  revert c out rows. induction room as [|room IH]; intros c out rows Hf; simpl.
  - rewrite !Nat.add_0_r, app_nil_r. destruct c. eauto.
  - destruct (cursor_rows c !! cursor_offset c) as [e|] eqn:He.
    + rewrite (drop_S _ e) by done. simpl.
      destruct (IH (MkCursor (cursor_rows c) (S (cursor_offset c))) (set_row 0 (length rows) (row_of e) out)
                  (rows ++ [row_of e])) as (out' & Hl & Hf'); [by apply filled_row|].
      rewrite length_app, Nat.add_1_r in Hl. rewrite Hl. simpl. exists out'.
      split; [repeat f_equal; lia|]. by rewrite <-app_assoc in Hf'.
    + rewrite drop_ge by by apply lookup_ge_None_1. simpl. rewrite !Nat.add_0_r, app_nil_r. destruct c. eauto.
Qed.

Lemma emit_table_end c out : (length (cursor_rows c) <= cursor_offset c)%nat -> emit_table vector_size row_of c out = (c, out).
Proof. intros Hc. unfold emit_table. by rewrite (proj2 (Nat.leb_le _ _) Hc). Qed.

Lemma emit_table_rows c :
  (cursor_offset c < length (cursor_rows c))%nat ->
  let now := take vector_size (drop (cursor_offset c) (cursor_rows c)) in
  exists out, emit_table vector_size row_of c empty_data_chunk =
    (MkCursor (cursor_rows c) (cursor_offset c + length now)%nat, out) /\
    filled (row_of <$> now) out /\ cardinality out = length now.
Proof.
  intros Hc now. unfold emit_table. rewrite (proj2 (Nat.leb_gt _ _) Hc).
  destruct (emit_loop_ok vector_size c empty_data_chunk [] filled_empty) as (out & Hl & Hf).
  simpl in Hl. rewrite Hl. by exists (SetCardinality (length now) out).
Qed.

(** The emission of anything that behaves like [emit_table]. *)
Lemma scan_delivers (f : row_cursor A -> DataChunk -> row_cursor A * DataChunk) fuel c :
  (0 < vector_size)%nat -> (forall c, f c empty_data_chunk = emit_table vector_size row_of c empty_data_chunk) ->
  (length (cursor_rows c) - cursor_offset c < fuel)%nat ->
  exists chunks, scan f fuel c = Some chunks /\ delivers vector_size chunks (row_of <$> drop (cursor_offset c) (cursor_rows c)).
Proof.
  intros Hv Hfe. revert c. induction fuel as [|fuel IH]; intros c Hn; [lia|]. simpl. rewrite Hfe.
  destruct (decide (length (cursor_rows c) <= cursor_offset c)%nat) as [Hle|Hgt].
  - rewrite emit_table_end by done. simpl. exists []. split; [done|]. rewrite drop_ge by done. by exists [].
  - destruct (emit_table_rows c ltac:(lia)) as (out & -> & Hf & Hcard).
    set (now := take vector_size (drop (cursor_offset c) (cursor_rows c))) in *.
    assert (0 < length now <= vector_size)%nat as Hnow by (unfold now; rewrite length_take, length_drop; lia).
    destruct (cardinality out) eqn:Hcd; [lia|]. simpl.
    destruct (IH (MkCursor (cursor_rows c) (cursor_offset c + length now)%nat)) as (chunks & -> & parts & Hr & Hp); [simpl; lia|].
    exists (out :: chunks). split; [done|]. exists ((row_of <$> now) :: parts). split.
    + simpl in *. rewrite <-Hr, <-fmap_app. f_equal. rewrite <-drop_drop.
      unfold now at 1 2. rewrite length_take.
      destruct (decide (vector_size <= length (drop (cursor_offset c) (cursor_rows c)))%nat).
      * by rewrite Nat.min_l, take_drop by done.
      * rewrite Nat.min_r, take_ge, (drop_ge _ (length _)), app_nil_r by lia. done.
    + constructor; [|done]. rewrite length_fmap. split; [done|]. lia.
Qed.
End Emit.

(** ** The emission of the policy statistics is the same *)
Lemma policy_rows_ok rs i out rows :
  filled rows out -> i = length rows -> filled (rows ++ (policy_row <$> rs)) (policy_rows i rs out).
Proof.
  revert i out rows. induction rs as [|r rs IH]; intros i out rows Hf ->; simpl; [by rewrite app_nil_r|].
  specialize (IH (S (length rows)) (set_row 0 (length rows) (policy_row r) out) (rows ++ [policy_row r])).
  rewrite <-app_assoc in IH. apply IH; [by apply filled_row|]. rewrite length_app. simpl. lia.
Qed.

Lemma filled_inj rows out out' :
  filled rows out -> filled rows out' -> cardinality out = cardinality out' -> out = out'.
Proof.
  destruct out as [m n], out' as [m' n']. intros H1 H2 Hn. simpl in Hn. subst n'. f_equal.
  apply map_eq. intros [c r]. specialize (H1 c r). specialize (H2 c r). simpl in *. congruence.
Qed.

Lemma policy_stats_emits vector_size c :
  PolicyStatsTableFunc vector_size c empty_data_chunk = emit_table vector_size policy_row c empty_data_chunk \/ vector_size = 0%nat.
Proof.
  destruct (decide (vector_size = 0%nat)) as [|Hv]; [by right|]. left. unfold PolicyStatsTableFunc.
  destruct (decide (length (cursor_rows c) <= cursor_offset c)%nat) as [Hle|Hgt].
  - rewrite emit_table_end by done. by replace (Nat.min _ _) with 0%nat by lia.
  - destruct (emit_table_rows vector_size policy_row c ltac:(lia)) as (out & -> & Hf & Hcard).
    set (now := take vector_size (drop (cursor_offset c) (cursor_rows c))) in *.
    assert (length now = Nat.min vector_size (length (cursor_rows c) - cursor_offset c)) as Hlen
      by (unfold now; by rewrite length_take, length_drop).
    rewrite <-Hlen. destruct (Nat.eqb_spec (length now) 0) as [Hz|_]; [lia|]. f_equal.
    assert (take (length now) (drop (cursor_offset c) (cursor_rows c)) = now) as ->.
    { unfold now. rewrite length_take, length_drop.
      destruct (decide (vector_size <= length (cursor_rows c) - cursor_offset c)%nat).
      - by rewrite Nat.min_l.
      - rewrite Nat.min_r by lia. rewrite !take_ge by (rewrite length_drop; lia). done. }
    eapply filled_inj; [apply filled_cardinality, (policy_rows_ok _ 0 _ []); [apply filled_empty|done]|done|].
    simpl. by rewrite Hcard.
Qed.

(** ** Columns and values *)

(** Whether a value can be stored in a column of a type; a [BIGINT] is cast to [UBIGINT], which
    fails for a negative number. *)
Definition fits (t : LogicalType) (v : Value) : bool :=
  match v, t with
  | NullValue, _ => true
  | StringValue _, VARCHAR_TYPE => true
  | UbigintValue _, UBIGINT_TYPE => true
  | BigintValue n, UBIGINT_TYPE => 0 <=? n
  | StringListValue _, VARCHAR_LIST_TYPE => true
  | _, _ => false
  end.

(** A row has one value per column, which fits it. *)
Definition row_fits (columns : schema) (row : list Value) : Prop := Forall2 (fun c v => fits c.1 v = true) columns row.

Definition small (n : Z) : Prop := 0 <= n < 9223372036854775808.

Lemma fits_bigint n : small n -> fits UBIGINT_TYPE (bigint_of n) = true.
Proof. intros [H1 H2]. unfold bigint_of. simpl. rewrite i64_small by done. by apply Z.leb_le. Qed.

Lemma fits_optional v : fits UBIGINT_TYPE (optional_bytes v) = true.
Proof. by destruct v. Qed.

Ltac fit := repeat first [assumption | apply fits_bigint | apply fits_optional | reflexivity | apply Forall2_cons; split | apply Forall2_nil_2].

Lemma bind_columns_ok columns : bind_columns columns [] = Ok columns.
Proof. done. Qed.

Lemma status_row_fits e :
  small (start_offset e) -> small (end_offset e) ->
  exists columns, DataCacheStatusQueryFuncBind [] = Ok columns /\ row_fits columns (status_row e).
Proof. intros H1 H2. eexists. split; [done|]. unfold row_fits, status_row. fit. by case_match. Qed.

Lemma access_row_fits e :
  small (cache_hit_count e) -> small (cache_miss_count e) -> small (cache_miss_by_in_use e) ->
  exists columns, CacheAccessInfoQueryFuncBind [] = Ok columns /\ row_fits columns (access_row e).
Proof. intros H1 H2 H3. eexists. split; [done|]. unfold row_fits, access_row. fit. Qed.

Lemma policy_row_fits e : exists columns, PolicyStatsBind [] = Ok columns /\ row_fits columns (policy_row e).
Proof. eexists. split; [done|]. unfold row_fits, policy_row. fit. Qed.

#[local] Instance Ok_inj {A} : Inj (=) (=) (@Ok A).
Proof. by intros ? ? [=]. Qed.

(** A bind helper and its fill helper agree. *)
Lemma data_config_fits c : row_fits (DataCacheConfigQueryFuncBindImpl c) (FillDataCacheConfig c).
Proof.
  unfold row_fits, DataCacheConfigQueryFuncBindImpl, FillDataCacheConfig, GetDiskCacheReaderMemoryCacheType.
  repeat case_match; fit.
Qed.

Lemma metadata_config_fits c : row_fits (MetadataCacheConfigQueryFuncBindImpl c) (FillMetadataCacheConfig c).
Proof. unfold row_fits, MetadataCacheConfigQueryFuncBindImpl, FillMetadataCacheConfig. case_match; fit. Qed.

Lemma file_handle_config_fits c : row_fits (FileHandleCacheConfigQueryFuncBindImpl c) (FillFileHandleCacheConfig c).
Proof. unfold row_fits, FileHandleCacheConfigQueryFuncBindImpl, FillFileHandleCacheConfig. case_match; fit. Qed.

Lemma glob_config_fits c : row_fits (GlobCacheConfigQueryFuncBindImpl c) (FillGlobCacheConfig c).
Proof. unfold row_fits, GlobCacheConfigQueryFuncBindImpl, FillGlobCacheConfig. case_match; fit. Qed.

Lemma cache_config_fits {R} c (x : CacheExclusionManager.exclusions R) columns :
  CacheConfigQueryFuncBind c [] = Ok columns -> row_fits columns (cache_config_row c x).
Proof.
  unfold CacheConfigQueryFuncBind. rewrite bind_columns_ok. intros Hc. apply (inj Ok) in Hc as <-.
  unfold row_fits, cache_config_row. repeat apply Forall2_app; [apply data_config_fits|apply metadata_config_fits|apply file_handle_config_fits|
    apply glob_config_fits|fit].
Qed.

(** ** The scan of every function *)
Section Typed.
Variable vector_size : nat.
Context `{SU : StringUtil} {F : Type} `{LF : LocalFileSystem F} {O : Type} `{OC : ObjectCache O} {R : Type}.
Implicit Types (ctx : client_context F O R).

Hypothesis vector_pos : (0 < vector_size)%nat.

(** The offsets and counters that the functions show are below 2^63. *)
Record context_ok ctx : Prop := {
  ctx_offsets c : (DataCacheStatusQueryFuncInit (Some (ctx_instance ctx))).1 = Ok c ->
    Forall (fun e => small (start_offset e) /\ small (end_offset e)) (cursor_rows c);
  ctx_counts c : InstanceProfileCollectorManager.profile_collectors (i_profiles (ctx_instance ctx)) !! ctx_connection ctx = Some c ->
    Forall (fun e => small (cache_hit_count e) /\ small (cache_miss_count e) /\ small (cache_miss_by_in_use e)) (any_access_info c)
}.

Lemma bound_once (bind : schema -> Res schema) c c' : bind [] = Ok c -> bind [] = Ok c' -> c = c'.
Proof. congruence. Qed.

(** Bound and initialised in a context, the function delivers rows that fit its columns. *)
Definition well_typed ctx (tf : TableFunction F O R) : Prop := forall columns s ctx',
  tf_bind tf ctx [] = Ok columns -> tf_init tf ctx = (Ok s, ctx') ->
  exists fuel chunks rows, scan (tf_function tf ctx') fuel s = Some chunks /\
    delivers vector_size chunks rows /\ Forall (row_fits columns) rows.

Lemma cursor_well_typed {A} ctx name f bind init (row_of : A -> list Value) :
  (forall c ctx', f ctx' c empty_data_chunk = emit_table vector_size row_of c empty_data_chunk) ->
  (forall c ctx' columns, bind ctx [] = Ok columns -> init ctx = (Ok c, ctx') ->
     Forall (fun e => row_fits columns (row_of e)) (cursor_rows c)) ->
  well_typed ctx (MkTableFunction name (row_cursor A) f bind init).
Proof.
  intros Hf Hr columns c ctx' Hb Hi. simpl in *.
  destruct (scan_delivers vector_size row_of (f ctx') (S (length (cursor_rows c))) c) as (chunks & Hs & Hd); [done..|lia|].
  eexists _, chunks, _. split; [exact Hs|]. split; [exact Hd|].
  apply Forall_fmap. apply Forall_drop. eapply Forall_impl; [by eapply Hr|done].
Qed.

Lemma config_well_typed ctx name (row : client_context F O R -> list Value) bind :
  (forall columns, bind ctx [] = Ok columns -> row_fits columns (row ctx)) ->
  well_typed ctx (config_function name (fun ctx => emit_once (row ctx)) bind).
Proof.
  intros Hr columns s ctx' Hb [= <- <-]. simpl in *.
  set (out := SetCardinality 1 (set_row 0 0 (row ctx) empty_data_chunk)).
  exists 2%nat, [out], [row ctx]. split; [done|]. split; [|by constructor; [apply Hr|]].
  exists [[row ctx]]. split; [done|]. constructor; [|done]. split; [|simpl; split; [done|lia]].
  apply filled_cardinality, (filled_row []), filled_empty.
Qed.
Lemma aggregate_infos_counts idx rows curs rs :
  aggregate_infos idx rows curs = Ok rs ->
  Forall (fun e => cache_hit_count e = 0 /\ cache_miss_count e = 0 /\ cache_miss_by_in_use e = 0) rows ->
  Forall (fun e => small (cache_hit_count e) /\ small (cache_miss_count e) /\ small (cache_miss_by_in_use e)) curs ->
  Forall (fun e => small (cache_hit_count e) /\ small (cache_miss_count e) /\ small (cache_miss_by_in_use e)) rs.
Proof.
  intros Ha Hz. revert idx curs rs Ha. induction Hz as [|row rows (H1 & H2 & H3) Hz IH]; intros idx curs rs Ha Hc; simpl in Ha.
  { injection Ha as <-. constructor. }
  destruct curs as [|cur curs].
  { injection Ha as <-. constructor; [rewrite H1, H2, H3; by repeat split|].
    eapply Forall_impl; [exact Hz|]. intros e (-> & -> & ->). by repeat split. }
  apply bind_Ok in Ha as (r & Hr & Ha). apply bind_Ok in Ha as (rs' & Hrs & [= <-]).
  apply Forall_cons_1 in Hc as [(C1 & C2 & C3) Hc]. constructor; [|by eapply IH].
  unfold aggregate_info in Hr. rewrite H1, H2, H3, !Z.add_0_l in Hr. unfold small in *.
  rewrite !u64_small in Hr by lia. destruct (Nat.eqb _ _); [|by injection Hr as <-].
  repeat (apply bind_Ok in Hr as (? & _ & Hr)). by injection Hr as <-.
Qed.

Lemma access_rows_small ctx c :
  context_ok ctx -> CacheAccessInfoQueryFuncInit (ctx_connection ctx) (i_profiles (ctx_instance ctx)) = Ok c ->
  Forall (fun e => small (cache_hit_count e) /\ small (cache_miss_count e) /\ small (cache_miss_by_in_use e)) (cursor_rows c).
Proof.
  intros [_ Hc] Hi. unfold CacheAccessInfoQueryFuncInit in Hi. destruct (InstanceProfileCollectorManager.HasExplicitProfileCollector _ _).
  - apply bind_Ok in Hi as (p & Hp & Hi). apply bind_Ok in Hi as (_ & _ & Hi). apply bind_Ok in Hi as (rows & Hr & [= <-]).
    simpl. eapply aggregate_infos_counts; [exact Hr| |].
    + by repeat constructor.
    + apply Hc. unfold InstanceProfileCollectorManager.GetProfileCollectorOrThrow in Hp. by destruct (_ !! _); simplify_eq/=.
  - injection Hi as <-. by repeat constructor.
Qed.

Lemma table_functions_well_typed ctx : context_ok ctx -> Forall (well_typed ctx) (table_functions vector_size).
Proof.
  intros Hok. unfold table_functions.
  assert (forall name c columns, bind_columns [(VARCHAR_TYPE, name)] [] = Ok columns ->
            Forall (fun n => row_fits columns (name_row n)) c) as Hn.
  { intros name c columns [= <-]. apply Forall_forall. intros n _. unfold row_fits, name_row. fit. }
  repeat apply Forall_cons_2; [..|apply Forall_nil_2].
  - eapply cursor_well_typed; [done..|]. intros c ctx' columns Hb Hi. by eapply Hn.
  - eapply (cursor_well_typed _ _ _ _ _ status_row); [done..|]. intros c ctx' columns Hb Hi.
    destruct (DataCacheStatusQueryFuncInit (Some (ctx_instance ctx))) as [r st] eqn:Hin. injection Hi as -> _.
    pose proof (ctx_offsets _ Hok c ltac:(by rewrite Hin)) as Ho. eapply Forall_impl; [exact Ho|]. intros e [H1 H2].
    destruct (status_row_fits e H1 H2) as (cs & Hcs & Hrow). by rewrite (bound_once _ _ _ Hb Hcs).
  - apply config_well_typed. intros columns [= <-]. apply data_config_fits.
  - apply config_well_typed. intros columns [= <-]. apply metadata_config_fits.
  - apply config_well_typed. intros columns [= <-]. apply file_handle_config_fits.
  - apply config_well_typed. intros columns [= <-]. apply glob_config_fits.
  - apply config_well_typed. intros columns [= <-]. unfold row_fits. fit.
  - apply config_well_typed. intros columns. apply cache_config_fits.
  - eapply (cursor_well_typed _ _ _ _ _ policy_row); [|intros c ctx' columns Hb Hi].
    + intros c ctx'. destruct (policy_stats_emits vector_size c) as [|]; [done|lia].
    + apply Forall_forall. intros e _. destruct (policy_row_fits e) as (cs & Hcs & Hrow). by rewrite (bound_once _ _ _ Hb Hcs).
  - eapply cursor_well_typed; [done..|]. intros c ctx' columns Hb Hi. by eapply Hn.
  - eapply (cursor_well_typed _ _ _ _ _ access_row); [done..|]. intros c ctx' columns Hb [= Hi _].
    pose proof (access_rows_small ctx c Hok Hi) as Ho. eapply Forall_impl; [exact Ho|]. intros e (H1 & H2 & H3).
    destruct (access_row_fits e H1 H2 H3) as (cs & Hcs & Hrow). by rewrite (bound_once _ _ _ Hb Hcs).
  - eapply cursor_well_typed; [done..|]. intros c ctx' columns Hb Hi. by eapply Hn.
Qed.
End Typed.

(** ** What the status lists *)
Section Listing.
Context `{SU : StringUtil} {F : Type} `{LF : LocalFileSystem F}.
Implicit Types (f : F) (dir name : string).

(** The row of a file of a cache directory: none for a temporary one. *)
Definition file_entry f dir name : option DataCacheEntryInfo :=
  let filepath := (dir +:+ "/" +:+ name)%string in
  if IsTempCacheFile name then None
  else match GetRemoteFileInfo filepath f with
       | Ok info => Some (MkEntryInfo filepath (TryGetOriginalRemotePath filepath f) (info_start_offset info)
                            (info_end_offset info) "on-disk")
       | Throw _ => None
       end.

(** A file that is neither temporary nor named like a cache file. *)
Definition foreign_file f dir name (e : exn) : Prop :=
  name ∈ fs_list dir f /\ IsTempCacheFile name = false /\ GetRemoteFileInfo (dir +:+ "/" +:+ name)%string f = Throw e.

Definition file_entries f (dirs : list string) : list DataCacheEntryInfo :=
  mjoin ((fun dir => omap (file_entry f dir) (fs_list dir f)) <$> dirs).

(** A cache file is shown once, if its directory is configured once. *)
Lemma file_entry_path f dir name e : file_entry f dir name = Some e -> Blocks.cache_filepath e = (dir +:+ "/" +:+ name)%string.
Proof. unfold file_entry. repeat case_match; intros [= <-]; done. Qed.

Lemma file_entries_unique `{!LocalFsLaws F} f dirs : NoDup dirs -> NoDup (Blocks.cache_filepath <$> file_entries f dirs).
Proof.
  assert (forall dir e, e ∈ omap (file_entry f dir) (fs_list dir f) ->
    exists name, slash_free name /\ Blocks.cache_filepath e = (dir +:+ "/" +:+ name)%string) as Hin.
  { intros dir e (name & Hn & He)%list_elem_of_omap. exists name. split; [by eapply list_names|by apply (file_entry_path f)]. }
  induction 1 as [|dir dirs Hni Hnd IH]; [constructor|].
  change (file_entries f (dir :: dirs)) with (omap (file_entry f dir) (fs_list dir f) ++ file_entries f dirs).
  rewrite fmap_app. apply NoDup_app. split; [|split; [|exact IH]].
  - pose proof (list_unique dir f) as Hu. pose proof (list_names dir f) as Hnames. revert Hu Hnames.
    generalize (fs_list dir f) as names. induction 1 as [|n names Hn Hu IHn]; intros Hnames; simpl; [constructor|].
    destruct (file_entry f dir n) as [e|] eqn:He; [|apply IHn; intros; apply Hnames; by right].
    rewrite fmap_cons. apply NoDup_cons. split; [|apply IHn; intros; apply Hnames; by right].
    intros (e' & Heq & (n' & Hn' & He')%list_elem_of_omap)%list_elem_of_fmap.
    rewrite (file_entry_path _ _ _ _ He), (file_entry_path _ _ _ _ He') in Heq.
    apply directory_inj in Heq as [_ ->]; [done|apply Hnames; by left|apply Hnames; by right].
  - intros path (e & -> & (n & Hn & Hp)%Hin)%list_elem_of_fmap (e' & Heq & He')%list_elem_of_fmap.
    apply list_elem_of_join in He' as (l & He' & (dir' & -> & Hd')%list_elem_of_fmap).
    apply Hin in He' as (n' & Hn' & Hp'). rewrite Hp, Hp' in Heq. by apply directory_inj in Heq as [-> _].
Qed.

Lemma directory_entries_ok f dir names acc :
  match directory_entries f dir names acc with
  | Ok es => es = acc ++ omap (file_entry f dir) names
  | Throw e => exists name, name ∈ names /\ IsTempCacheFile name = false /\ GetRemoteFileInfo (dir +:+ "/" +:+ name)%string f = Throw e
  end.
Proof.
  revert acc. induction names as [|n names IH]; intros acc; simpl; [by rewrite app_nil_r|].
  unfold file_entry at 1. destruct (IsTempCacheFile n) eqn:Ht.
  - specialize (IH acc). destruct (directory_entries f dir names acc); [done|].
    destruct IH as (m & Hm & Hr). exists m. split; [by right|done].
  - destruct (GetRemoteFileInfo _ f) as [info|e] eqn:Hi; simpl; [|exists n; split; [by left|done]].
    match goal with |- context [directory_entries f dir names ?l] => specialize (IH l); destruct (directory_entries f dir names l) end.
    + by rewrite IH, <-app_assoc.
    + destruct IH as (m & Hm & Hr). exists m. split; [by right|done].
Qed.

Lemma disk_entries_ok f dirs acc :
  match disk_entries f dirs acc with
  | Ok es => es = acc ++ file_entries f dirs
  | Throw e => exists dir name, dir ∈ dirs /\ foreign_file f dir name e
  end.
Proof.
  revert acc. induction dirs as [|d dirs IH]; intros acc; simpl; [by rewrite app_nil_r|].
  pose proof (directory_entries_ok f d (fs_list d f) acc) as Hd.
  destruct (directory_entries f d (fs_list d f) acc) as [es|e]; simpl.
  - specialize (IH es). destruct (disk_entries f dirs es); [by rewrite IH, Hd, <-app_assoc|].
    destruct IH as (d' & n & Hin & Hf). exists d', n. split; [by right|done].
  - destruct Hd as (n & Hn). exists d, n. split; [by left|done].
Qed.

Context {O : Type} `{OC : ObjectCache O} {R : Type}.
Import InstanceCacheReaderManager.

(** What the caches of an instance hold: the blocks in memory, those in the memory layer of the
    disk reader, and the cache files. *)
Definition cached_entries (st : instance_state F (any_storage O) R) : list DataCacheEntryInfo :=
  GetCacheEntriesInfo (default None (in_mem_cache_reader (i_readers st))) ++
  memory_entries (on_disk_cache_reader (i_readers st) ≫= dr_mem) ++
  file_entries (i_files st) (on_disk_cache_directories (i_config st)).

(** The instance with its disk reader. *)
Definition with_disk_reader (st : instance_state F (any_storage O) R) : instance_state F (any_storage O) R :=
  with_readers st (InitializeDiskCacheReader (i_readers st)) (i_files st).

Lemma status_init_ok (st : instance_state F (any_storage O) R) :
  let '(r, st') := DataCacheStatusQueryFuncInit (Some st) in
  st' = Some (with_disk_reader st) /\
  match r with
  | Ok c => exists es, c = MkCursor es 0 /\ es ≡ₚ cached_entries st /\ StronglySorted not_less es
  | Throw e => exists dir name, dir ∈ on_disk_cache_directories (i_config st) /\ foreign_file (i_files st) dir name e
  end.
Proof.
  simpl. split; [done|]. unfold cached_entries, GetCacheReaders. simpl.
  set (r := default new_disk_reader (on_disk_cache_reader (i_readers st))).
  assert (memory_entries (on_disk_cache_reader (i_readers st) ≫= dr_mem) = memory_entries (dr_mem r)) as ->
    by (unfold r; by destruct (on_disk_cache_reader (i_readers st))).
  set (mem := memory_entries (dr_mem r)).
  assert (forall acc, gather_entries (i_config st) (InitializeDiskCacheReader (i_readers st)) (i_files st) [OnDiskReader] acc =
            (es ← disk_entries (i_files st) (on_disk_cache_directories (i_config st)) mem; Ok (acc ++ es))) as Hdisk.
  { intros acc. simpl. unfold DiskGetCacheEntriesInfo. simpl. by destruct (disk_entries _ _ _). }
  pose proof (disk_entries_ok (i_files st) (on_disk_cache_directories (i_config st)) mem) as Hd.
  assert (forall mem_rows,
    match (entries ← gather_entries (i_config st) (InitializeDiskCacheReader (i_readers st)) (i_files st) [OnDiskReader] mem_rows;
           Ok (MkCursor (std_sort_keys entries) 0)) with
    | Ok c => exists es, c = MkCursor es 0 /\
        es ≡ₚ mem_rows ++ mem ++ file_entries (i_files st) (on_disk_cache_directories (i_config st)) /\ StronglySorted not_less es
    | Throw e => exists dir name, dir ∈ on_disk_cache_directories (i_config st) /\ foreign_file (i_files st) dir name e
    end) as Hall.
  { intros rows. rewrite Hdisk. destruct (disk_entries _ _ _) as [es|e]; simpl; [|done].
    eexists. split; [done|]. split; [by rewrite std_sort_keys_perm, Hd|apply std_sort_keys_sorted]. }
  destruct (in_mem_cache_reader (i_readers st)) as [s|] eqn:Hm; simpl; [|apply (Hall [])].
  rewrite Hm. simpl. apply (Hall (GetCacheEntriesInfo s)).
Qed.
End Listing.

Section Properties.
Context `{SU : StringUtil} {F : Type} `{LF : LocalFileSystem F} {O : Type} `{OC : ObjectCache O} {R : Type}.
Implicit Types (ctx : client_context F O R).

(** C38: every table function that the extension registers can be bound, and once
    initialised in the same settings its scan ends and delivers rows, in chunks of at most
    [STANDARD_VECTOR_SIZE], that have one value per bound column, of the type of the
    column, provided that the block offsets and the counters it shows are below [2^63].
    ([settings_changed_after_bind] and [huge_offset_does_not_fit] show that neither
    condition can be left out.) *)
Theorem table_rows_fit_their_columns vector_size ctx (tf : TableFunction F O R) :
  (0 < vector_size)%nat -> context_ok ctx -> tf ∈ table_functions vector_size ->
  exists columns, tf_bind tf ctx [] = Ok columns /\
    forall s ctx', tf_init tf ctx = (Ok s, ctx') ->
      exists fuel chunks rows, scan (tf_function tf ctx') fuel s = Some chunks /\
        delivers vector_size chunks rows /\ Forall (row_fits columns) rows.
Proof.
  intros Hv Hok Hin.
  assert (exists columns, tf_bind tf ctx [] = Ok columns) as [columns Hb].
  { revert tf Hin. apply Forall_forall. by repeat (constructor; [eexists; done|]). }
  exists columns. split; [done|]. intros s ctx' Hi.
  pose proof (table_functions_well_typed vector_size Hv ctx Hok) as Hall. rewrite Forall_forall in Hall. by eapply Hall.
Qed.

(** C39: querying the status of the caches shows, sorted, one row for each key that the
    in-memory reader reports, one for each key that the memory layer of the disk reader
    reports, and one for each cache file in each of the configured directories, and no other
    row.  A cache file is shown exactly once when no directory is configured twice
    ([repeated_directory_listed_twice] shows what happens otherwise).  It changes nothing but
    that the disk reader exists afterwards, and throws only when a cache directory holds a
    file that is neither temporary nor named like a cache file. *)
Theorem status_lists_the_cache `{!LocalFsLaws F} vector_size ctx :
  (0 < vector_size)%nat ->
  let tf := GetDataCacheStatusQueryFunc vector_size in
  let st := ctx_instance ctx in
  let '(r, ctx') := tf_init tf ctx in
  ctx' = set_instance (with_disk_reader st) ctx /\
  match r with
  | Ok c => exists es chunks, scan (tf_function tf ctx') (S (length es)) c = Some chunks /\
      delivers vector_size chunks (status_row <$> es) /\ es ≡ₚ cached_entries st /\ StronglySorted not_less es /\
      (NoDup (on_disk_cache_directories (i_config st)) ->
       NoDup (Blocks.cache_filepath <$> file_entries (i_files st) (on_disk_cache_directories (i_config st))))
  | Throw e => exists dir name, dir ∈ on_disk_cache_directories (i_config st) /\ foreign_file (i_files st) dir name e
  end.
Proof.
  intros Hv tf st. unfold tf, GetDataCacheStatusQueryFunc, tf_init, tf_function.
  pose proof (status_init_ok st) as Hi. destruct (DataCacheStatusQueryFuncInit (Some st)) as [r st'] eqn:Hin.
  fold st. rewrite Hin. destruct Hi as [-> Hr]. split; [done|]. destruct r as [c|e]; [|done].
  destruct Hr as (es & -> & Hp & Hs). exists es.
  destruct (scan_delivers vector_size status_row (DataCacheStatusQueryTableFunc vector_size) (S (length es)) (MkCursor es 0))
    as (chunks & Hsc & Hd); [done..|simpl; lia|]. exists chunks. do 4 (split; [done|]). apply file_entries_unique.
Qed.

(** A directory that is configured twice shows its files twice. *)
Lemma repeated_directory_listed_twice (f : F) dir :
  file_entries f [dir; dir] = file_entries f [dir] ++ file_entries f [dir].
Proof. unfold file_entries. simpl. by rewrite app_nil_r. Qed.
End Properties.

(** The settings are read when the function is bound and again when it is called: when they
    changed in between, the row does not fit the columns. *)
Lemma settings_changed_after_bind :
  exists (before after : InstanceConfig) columns, DataCacheConfigQueryFuncBind before [] = Ok columns /\
    ~ row_fits columns (FillDataCacheConfig after).
Proof.
  eexists default_config, (default_config <| cache_type := IN_MEM_CACHE_TYPE |>), _. split; [done|].
  intros Hf. apply Forall2_length in Hf. vm_compute in Hf. done.
Qed.

(** An offset from 2^63 on is shown as a negative [BIGINT], which its column refuses. *)
Lemma huge_offset_does_not_fit : fits UBIGINT_TYPE (bigint_of 9223372036854775808) = false.
Proof. done. Qed.

(** ** A concrete instance

    Three blocks of a file in memory, a cache file on disk, one connection with a collector;
    chunks of two rows. *)
Definition shown_config : InstanceConfig := default_config <| on_disk_cache_directories := ["/c"%string] |>.

Definition shown_storage : any_storage (gmap string CacheHttpfsDataBlock) :=
  let put off s := match DataStorage.Put 0 (MkBlock "s3://b/f" off 4) (MkChunk (Some (replicate 4 x00)) 4 4) "" s with
                   | Ok s => s | Throw _ => s end in
  put 8 (put 0 (put 4 (AnyExtension (ExtensionStorage.ExtensionBoundedDataCacheStorage.new_storage 10 0)))).

Definition shown_disk : disk := MkDisk {[ "/c/0a-f-0-4"%string := MkFile (replicate 4 x00) 0 ∅ ]} None None.

Definition shown_instance : instance_state disk (any_storage (gmap string CacheHttpfsDataBlock)) unit :=
  MkInstance shown_config true ∅ (InstanceCacheReaderManager.MkReaderManager false (Some (Some shown_storage)) None (Some InMemReaderKind))
    (InstanceProfileCollectorManager.MkProfileManager {[ 1 := InstanceProfileCollectorManager.Noop 0 ]} None)
    (CacheExclusionManager.MkExclusions [] []) shown_disk [].

Definition shown_context : client_context disk (gmap string CacheHttpfsDataBlock) unit :=
  MkContext shown_instance 1 ["HTTPFileSystem"%string] (fun _ => "HTTPFileSystem"%string).

Example shown_chunks :
  match (tf_init (GetDataCacheStatusQueryFunc 2) shown_context).1 with
  | Ok c => option_map (map cardinality) (scan (DataCacheStatusQueryTableFunc 2) 3 c)
  | Throw _ => None
  end = Some [2; 2]%nat.
Proof. vm_compute. reflexivity. Qed.

Definition small_entry (e : DataCacheEntryInfo) : bool :=
  (0 <=? start_offset e) && (start_offset e <? 9223372036854775808) &&
  (0 <=? end_offset e) && (end_offset e <? 9223372036854775808).

Example shown_entries_small :
  match (tf_init (GetDataCacheStatusQueryFunc 2) shown_context).1 with
  | Ok c => forallb small_entry (cursor_rows c)
  | Throw _ => true
  end = true.
Proof. vm_compute. reflexivity. Qed.

Lemma shown_context_ok : context_ok shown_context.
Proof.
  constructor.
  - intros c Hc. pose proof shown_entries_small as Hs. change ((tf_init (GetDataCacheStatusQueryFunc 2) shown_context).1 = Ok c) in Hc.
    rewrite Hc in Hs. rewrite forallb_forall in Hs. apply Forall_forall. intros e He.
    specialize (Hs e ltac:(by apply list_elem_of_In)). unfold small_entry in Hs.
    rewrite !andb_true_iff, !Z.leb_le, !Z.ltb_lt in Hs. unfold small. lia.
  - intros c Hc. simpl in Hc. injection Hc as <-. by repeat constructor.
Qed.

Lemma table_rows_fit_their_columns_witness :
  exists columns, DataCacheStatusQueryFuncBind [] = Ok columns /\
    forall s ctx', tf_init (GetDataCacheStatusQueryFunc 2) shown_context = (Ok s, ctx') ->
      exists fuel chunks rows, scan (DataCacheStatusQueryTableFunc 2) fuel s = Some chunks /\
        delivers 2 chunks rows /\ Forall (row_fits columns) rows.
Proof.
  apply (table_rows_fit_their_columns 2 shown_context (GetDataCacheStatusQueryFunc 2));
    [lia|apply shown_context_ok|unfold table_functions; right; left].
Defined.

Lemma status_lists_the_cache_witness :
  let tf := GetDataCacheStatusQueryFunc 2 in
  let '(r, ctx') := tf_init tf shown_context in
  ctx' = set_instance (with_disk_reader shown_instance) shown_context /\
  match r with
  | Ok c => exists es chunks, scan (tf_function tf ctx') (S (length es)) c = Some chunks /\
      delivers 2 chunks (status_row <$> es) /\ es ≡ₚ cached_entries shown_instance /\ StronglySorted not_less es /\
      (NoDup (on_disk_cache_directories shown_config) ->
       NoDup (Blocks.cache_filepath <$> file_entries shown_disk (on_disk_cache_directories shown_config)))
  | Throw e => exists dir name, dir ∈ on_disk_cache_directories shown_config /\ foreign_file shown_disk dir name e
  end.
Proof. apply (status_lists_the_cache 2 shown_context). lia. Defined.
