(* ===== verification/CacheFs.v ===== *)
(** * CacheFs

    [CacheFileSystem] ([src/src/cache_filesystem.cpp], [src/src/include/cache_filesystem.hpp]):
    the wrapper of an internal filesystem with its metadata cache, its glob cache and the
    file handles of [HandleCache], over the state of the instance; and the SQL functions of
    [src/src/cache_httpfs_extension.cpp] that clear the caches of all filesystems. *)
From S2P Require Import Prelude StringUtil OrdMap Blocks DataStorage IoOperations LocalFs Config LruCache MultiLru.
From S2P Require Import InstanceConfig DiskReader Handler InstanceState HandleCache ReadPath.
From S2P Require CppString.

#[local] Open Scope Z_scope.

(** A handler on a part of the state. *)
Definition zoom {St St' A} (get : St -> St') (set : St' -> St -> St) (m : Handler St' A) : Handler St A := fun st =>
  let '(r, s) := m (get st) in (r, set s st).

(** ** The internal filesystem *)
Record FileMetadata := MkMetadata { file_size : Z; last_modification_time : Z }.

(** [OpenFileInfo]: the extended information maps names to values of DuckDB. *)
Record OpenFileInfo (V : Type) := MkFileInfo { info_path : string; extended_info : option (gmap string V) }.
Arguments MkFileInfo {_} _ _.
Arguments info_path {_} _.
Arguments extended_info {_} _.

(** What the wrapper calls of the filesystem it wraps, besides [InternalHandles].  [Seek]
    is assumed not to throw. *)
Class InternalFileSystem (X V : Type) `{InternalHandles X} := {
  fs_name : X -> string;
  fs_can_handle : string -> X -> bool;
  fs_version_tag : FileHandle -> X -> string;
  fs_stats : FileHandle -> X -> Res FileMetadata;
  fs_file_size : FileHandle -> X -> Res Z;
  fs_last_modified : FileHandle -> X -> Res Z;
  fs_read : FileHandle -> Z -> Z -> X -> Res (list byte);
  fs_write_at : FileHandle -> list byte -> Z -> X -> Res unit * X;
  fs_write : FileHandle -> list byte -> X -> Res Z * X;
  fs_sync : FileHandle -> X -> Res unit * X;
  fs_seek : FileHandle -> Z -> X -> X;
  fs_seek_position : FileHandle -> X -> Z;
  fs_on_disk : FileHandle -> X -> bool;
  fs_glob : string -> X -> Res (list (OpenFileInfo V));
  fs_remove : string -> X -> Res unit * X;
  fs_try_remove : string -> X -> Res bool * X;
  fs_remove_files : list string -> X -> Res unit * X
}.

(** ** The wrapper *)
Section CacheFileSystem.
Context {X V : Type} `{InternalFileSystem X V}.

Record cache_fs := MkCacheFs {
  fs_handles : handle_state X;
  metadata_cache : option (lru string FileMetadata);
  glob_cache : option (lru string (list (OpenFileInfo V)))
}.
Implicit Types (fs : cache_fs) (clock : nat -> Z) (conn : Z) (ch : CacheFileSystemHandle).

Definition set_handles h fs : cache_fs := MkCacheFs h (metadata_cache fs) (glob_cache fs).
Definition set_metadata_cache c fs : cache_fs := MkCacheFs (fs_handles fs) c (glob_cache fs).
Definition set_glob_cache c fs : cache_fs := MkCacheFs (fs_handles fs) (metadata_cache fs) c.
Definition internal fs : X := internal_filesystem (fs_handles fs).

#[local] Abbreviation FsOp A := (Handler cache_fs A).

Definition in_handles {A} (m : Handler (handle_state X) A) : FsOp A := zoom fs_handles set_handles m.
Definition query {A} (f : X -> Res A) : FsOp A := fun fs => (f (internal fs), fs).
Definition on_internal {A} (f : X -> Res A * X) : FsOp A := fun fs =>
  let '(r, x) := f (internal fs) in (r, set_handles (set_internal x (fs_handles fs)) fs).

(** [RecordCacheAccess], and the latency guards. *)
Definition RecordAccess conn (entity : CacheEntity) (hit : bool) : FsOp unit :=
  in_handles (record_profile conn (IoOperations.RecordCacheAccess entity (if hit then kCacheHit else kCacheMiss) 0)).
(** [RecordCacheAccess] with a number of bytes. *)
Definition RecordAccessBytes conn (entity : CacheEntity) (access : CacheAccess) (byte_count : Z) : FsOp unit :=
  in_handles (record_profile conn (IoOperations.RecordCacheAccess entity access byte_count)).
Definition guarded {A} conn (op : IoOperation) (m : FsOp A) : FsOp A := fun fs =>
  let '(r, fs) := m fs in (r, (in_handles (record_profile conn (RecordOperation op)) fs).2).

(** *** [GetOrCreate] of a cache of the filesystem

    Run by a caller that meets no other ([SingleFlight] has the general case); the flag
    tells that the factory did not run. *)
Definition cached_or_created {St A} (get : St -> option (lru string A)) (set : option (lru string A) -> St -> St) clock
    (key : string) (factory : Handler St A) : Handler St (A * bool) :=
  cache ← gets get;
  match cache with
  | None => throw UndefinedBehaviour
  | Some c =>
      let '(v, c) := SharedValueLruCache.Get (clock 0%nat) key c in
      _ ← modify_state (set (Some c));
      match v with
      | Some v => mret (v, true)
      | None =>
          v ← factory;
          cache ← gets get;
          match cache with
          | None => throw UndefinedBehaviour
          | Some c => _ ← modify_state (set (Some (SharedValueLruCache.Put (clock 1%nat) key v c))); mret (v, false)
          end
      end
  end.

(** *** Metadata *)
Definition GetMetadataFallback (h : FileHandle) : FsOp FileMetadata :=
  size ← query (fs_file_size h);
  time ← query (fs_last_modified h);
  mret (MkMetadata size time).

(** The factory: [Stats], and the fallback when it throws. *)
Definition create_metadata (h : FileHandle) : FsOp FileMetadata := fun fs =>
  match fs_stats h (internal fs) with
  | Ok m => (Ok m, fs)
  | Throw _ => GetMetadataFallback h fs
  end.

(** What [Stats], [GetLastModifiedTime] and [GetFileSize] do when there is a cache. *)
Definition cached_metadata clock ch : FsOp FileMetadata :=
  let h := internal_file_handle ch in
  found ← cached_or_created metadata_cache set_metadata_cache clock (GetPath h) (create_metadata h);
  _ ← RecordAccess (GetConnectionId ch) kMetadata found.2;
  mret found.1.

Definition Stats clock ch : FsOp FileMetadata :=
  cache ← gets metadata_cache;
  match cache with None => query (fs_stats (internal_file_handle ch)) | Some _ => cached_metadata clock ch end.

Definition GetLastModifiedTime clock ch : FsOp Z :=
  cache ← gets metadata_cache;
  match cache with
  | None => query (fs_last_modified (internal_file_handle ch))
  | Some _ => m ← cached_metadata clock ch; mret (last_modification_time m)
  end.

Definition GetFileSize clock ch : FsOp Z :=
  cache ← gets metadata_cache;
  match cache with
  | None => query (fs_file_size (internal_file_handle ch))
  | Some _ => m ← cached_metadata clock ch; mret (file_size m)
  end.

(** [GetVersionTag] of a handle. *)
Definition GetVersionTag ch fs : string := fs_version_tag (internal_file_handle ch) (internal fs).

(** *** Reading

    [G] is the state of the cache reader in use; [excluded] is [MatchAnyExclusion]. *)
Section Read.
Context {G : Type} `{BaseCacheReader G}.
Variable excluded : string -> bool.

(** What the reader sees of the handle it is passed. *)
Definition view_of (h : FileHandle) fs : FileView :=
  MkView (GetPath h) (fs_version_tag h (internal fs)) (fun nr loc => fs_read h nr loc (internal fs)).

(** The bytes of the caller's buffer that a read must not touch. *)
Definition beyond (n : Z) (g : G) : list byte := drop (Z.to_nat n) (caller_buffer g).

Definition ReadImpl clock ch (nr_bytes location : Z) (st : cache_fs * G) (res : Res Z) (st' : cache_fs * G) : Prop :=
  let h := internal_file_handle ch in
  let '(size, fs) := GetFileSize clock ch st.1 in
  let g := st.2 in
  match size with
  | Throw e => res = Throw e /\ st' = (fs, g)
  | Ok file_size =>
      if u64 file_size <=? location then res = Ok 0 /\ st' = (fs, g)
      else
        let bytes_to_read := Z.min nr_bytes (i64 (file_size - location)) in
        if excluded (GetPath h) then
          match (bytes ← fs_read h bytes_to_read location (internal fs);
                 of_option UndefinedBehaviour (write_at (caller_buffer g) 0 bytes)) with
          | Throw e => res = Throw e /\ st' = (fs, g)
          | Ok b => res = Ok bytes_to_read /\ st' = (fs, with_caller_buffer b g)
          end
        else
          exists r g', read_and_cache (view_of h fs) location (u64 bytes_to_read) (u64 file_size)
                         (with_caller_buffer (take (Z.to_nat bytes_to_read) (caller_buffer g)) g) r g' /\
            st' = (fs, with_caller_buffer (caller_buffer g' ++ beyond bytes_to_read g) g') /\
            res = (_ ← r; Ok bytes_to_read)
  end.

(** [Read] at a position, and [Read] at the position of the handle, which it advances. *)
Definition ReadAt clock ch nr_bytes location st (res : Res unit) st' : Prop :=
  exists r, ReadImpl clock ch nr_bytes location st r st' /\ res = (_ ← r; Ok tt).

Definition Seek ch (location : Z) : FsOp unit :=
  on_internal (fun x => (Ok tt, fs_seek (internal_file_handle ch) location x)).
Definition SeekPosition ch fs : Z := fs_seek_position (internal_file_handle ch) (internal fs).

Definition Read clock ch nr_bytes (st : cache_fs * G) (res : Res Z) (st' : cache_fs * G) : Prop :=
  let offset := SeekPosition ch st.1 in
  exists r mid, ReadImpl clock ch nr_bytes offset st r mid /\
    match r with
    | Throw e => res = Throw e /\ st' = mid
    | Ok bytes_read => res = Ok bytes_read /\ st' = ((Seek ch (offset +u bytes_read) mid.1).2, mid.2)
    end.
End Read.

(** *** Writing *)
Definition WriteAt ch (bytes : list byte) (location : Z) : FsOp unit :=
  let conn := GetConnectionId ch in
  guarded conn kWrite (
    _ ← on_internal (fs_write_at (internal_file_handle ch) bytes location);
    in_handles (record_profile conn (RecordBytesWritten (Z.of_nat (length bytes))))).

Definition Write ch (bytes : list byte) : FsOp Z :=
  let conn := GetConnectionId ch in
  guarded conn kWrite (
    bytes_written ← on_internal (fs_write (internal_file_handle ch) bytes);
    _ ← in_handles (record_profile conn (RecordBytesWritten bytes_written));
    mret bytes_written).

Definition FileSync ch : FsOp unit :=
  guarded (GetConnectionId ch) kFileSync (on_internal (fs_sync (internal_file_handle ch))).

(** *** Which files *)
Definition is_local fs : bool := String.eqb (fs_name (internal fs)) "LocalFileSystem".
Definition CanHandleFile (fpath : string) fs : bool := fs_can_handle fpath (internal fs) || is_local fs.
Definition IsManuallySet fs : bool := negb (is_local fs).
Definition GetName fs : string := ("cache_httpfs_" +:+ fs_name (internal fs))%string.

(** [ClearInMemoryCache]. *)
Definition ClearInMemoryCache : FsOp unit :=
  _ ← in_handles ClearFileHandleCache;
  _ ← modify_state (fun fs => set_metadata_cache (SharedValueLruCache.Clear <$> metadata_cache fs) fs);
  modify_state (fun fs => set_glob_cache (SharedValueLruCache.Clear <$> glob_cache fs) fs).
End CacheFileSystem.
Arguments cache_fs : clear implicits.

(** ** The wrapper and the instance *)
Section WithInstance.
Context {X V : Type} `{InternalFileSystem X V}.
Context `{StringUtil} {F : Type} `{LocalFileSystem F} {S : Type} `{InMemoryDataCacheStorage S} {R : Type}.
Variables FILE_FLAGS_READ FILE_FLAGS_PARALLEL_ACCESS : N.
(** [DConstants::INVALID_INDEX], [FileSystem::HasGlob], and the values of the extended
    file information. *)
Variable INVALID_INDEX : Z.
Variable HasGlob : string -> bool.
Variables as_int64 as_timestamp : V -> Res Z.
Variable sha256 : string -> list Z.

Import InstanceCacheReaderManager InstanceProfileCollectorManager.

#[local] Abbreviation instance := (instance_state F S R).
#[local] Abbreviation fs_state := (cache_fs X V * instance)%type.
#[local] Abbreviation Op A := (Handler fs_state A).
Implicit Types (clock : nat -> Z) (conn : Z) (fs : cache_fs X V) (st : fs_state).

Definition in_fs {A} (m : Handler (cache_fs X V) A) : Op A := zoom fst (fun fs st => (fs, st.2)) m.
Definition in_instance {A} (m : Handler instance A) : Op A := zoom snd (fun i st => (st.1, i)) m.
Definition config_of st : InstanceConfig := i_config st.2.

(** An opener: none, or one with or without a client context. *)
Definition GetConnectionIdOf (opener : option (option Z)) : Z :=
  match opener with Some (Some connection_id) => connection_id | _ => INVALID_INDEX end.

(** The connection of a query context, when it is valid and has a client context. *)
Definition GetConnectionIdFromContext (context : option (option Z)) : Z :=
  match context with
  | None => INVALID_INDEX
  | Some client_context => default INVALID_INDEX client_context
  end.

(** An operation of the reader manager. *)
Definition on_readers (op : InstanceConfig -> reader_manager S -> F -> Res unit * reader_manager S * F) :
    Handler instance unit := fun i =>
  let '(r, m, f) := op (i_config i) (i_readers i) (i_files i) in (r, with_readers i m f).

(** *** Configuration *)
Definition SetMetadataCache : Op unit := fun st =>
  let config := config_of st in
  (Ok tt, (set_metadata_cache
             (if enable_metadata_cache config then
                Some (default (new_lru (max_metadata_cache_entry config) (metadata_cache_entry_timeout_millisec config))
                        (metadata_cache st.1))
              else None) st.1, st.2)).

Definition SetGlobCache : Op unit := fun st =>
  let config := config_of st in
  (Ok tt, (set_glob_cache
             (if enable_glob_cache config then
                Some (default (new_lru (max_glob_cache_entry config) (glob_cache_entry_timeout_millisec config))
                        (glob_cache st.1))
              else None) st.1, st.2)).

Definition SetFileHandleCacheOf : Op unit :=
  config ← gets config_of;
  in_fs (in_handles (SetFileHandleCache (enable_file_handle_cache config) (max_file_handle_cache_entry config)
                       (file_handle_cache_entry_timeout_millisec config))).

Definition InitializeGlobalConfig (opener : option (option Z)) : Op unit :=
  config ← gets config_of;
  _ ← in_instance (fun i =>
        match SetProfileCollector (GetConnectionIdOf opener) (profile_type config) (i_profiles i) with
        | Ok p => (Ok tt, with_profiles i p)
        | Throw e => (Throw e, i)
        end);
  _ ← in_instance (modify_state (fun i => with_readers i (SetCacheReader config (i_readers i)) (i_files i)));
  _ ← SetMetadataCache;
  _ ← SetFileHandleCacheOf;
  SetGlobCache.

(** *** Clearing *)
Definition ClearCache : Op unit :=
  _ ← in_fs (modify_state (fun fs => set_metadata_cache (SharedValueLruCache.Clear <$> metadata_cache fs) fs));
  _ ← in_fs (modify_state (fun fs => set_glob_cache (SharedValueLruCache.Clear <$> glob_cache fs) fs));
  _ ← in_fs (in_handles ClearFileHandleCache);
  in_instance (on_readers InstanceCacheReaderManager.ClearCache).

(** [Clear (filepath, key == filepath)]. *)
Definition clear_key {A} (filepath : string) (c : lru string A) : lru string A :=
  SharedValueLruCache.ClearFrom filepath (fun key => String.eqb key filepath) c.

Definition guarded_op {A} conn (op : IoOperation) (m : Op A) : Op A := fun st =>
  let '(r, st) := m st in (r, (in_fs (in_handles (record_profile conn (RecordOperation op))) st).2).

Definition ClearCacheOf (filepath : string) conn : Op unit :=
  guarded_op conn kFilePathCacheClear (
    _ ← in_fs (modify_state (fun fs => set_metadata_cache (clear_key filepath <$> metadata_cache fs) fs));
    _ ← in_fs (modify_state (fun fs => set_glob_cache (clear_key filepath <$> glob_cache fs) fs));
    _ ← in_fs (in_handles (ClearFileHandleCacheOf FILE_FLAGS_PARALLEL_ACCESS filepath));
    in_instance (on_readers (fun config => InstanceCacheReaderManager.ClearCacheFile sha256 config filepath))).

(** *** Removing *)
Definition TryRemoveFile (filename : string) (opener : option (option Z)) : Op bool :=
  let conn := GetConnectionIdOf opener in
  guarded_op conn kFileRemove (
    _ ← ClearCacheOf filename conn;
    in_fs (on_internal (fs_try_remove filename))).

Definition RemoveFile (filename : string) (opener : option (option Z)) : Op unit :=
  let conn := GetConnectionIdOf opener in
  guarded_op conn kFileRemove (
    _ ← ClearCacheOf filename conn;
    in_fs (on_internal (fs_remove filename))).

Fixpoint clear_files (filenames : list string) conn : Op unit :=
  match filenames with
  | [] => mret tt
  | filename :: filenames => _ ← ClearCacheOf filename conn; clear_files filenames conn
  end.

Definition RemoveFiles (filenames : list string) (opener : option (option Z)) : Op unit :=
  _ ← clear_files filenames (GetConnectionIdOf opener);
  in_fs (on_internal (fs_remove_files filenames)).

(** *** Globbing *)

(** The metadata that an entry carries, if it carries all of it. *)
Definition metadata_of_info (info : OpenFileInfo V) : Res (option FileMetadata) :=
  match extended_info info with
  | None => Ok None
  | Some options =>
      match options !! "file_size"%string with
      | None => Ok None
      | Some v =>
          size ← as_int64 v;
          match options !! "last_modified"%string with
          | None => Ok None
          | Some v => time ← as_timestamp v; Ok (Some (MkMetadata size time))
          end
      end
  end.

Fixpoint fill_metadata clock (i : nat) (infos : list (OpenFileInfo V)) : Handler (cache_fs X V) unit :=
  match infos with
  | [] => mret tt
  | info :: infos =>
      found ← lift (metadata_of_info info);
      match found with
      | None => fill_metadata clock i infos
      | Some m =>
          _ ← modify_state (fun fs =>
                set_metadata_cache (SharedValueLruCache.Put (clock i) (info_path info) m <$> metadata_cache fs) fs);
          fill_metadata clock (Datatypes.S i) infos
      end
  end.

(** [clock] is read once for each entry that is filled in. *)
Definition GlobImpl clock (path : string) (opener : option (option Z)) : Op (list (OpenFileInfo V)) :=
  open_file_info ← in_fs (guarded (GetConnectionIdOf opener) kGlobOp (query (fs_glob path)));
  _ ← SetMetadataCache;
  cache ← gets (metadata_cache ∘ fst);
  match cache with
  | None => mret open_file_info
  | Some _ => _ ← in_fs (fill_metadata clock 0 open_file_info); mret open_file_info
  end.

Definition Glob clock (path : string) (opener : option (option Z)) : Op (list (OpenFileInfo V)) :=
  _ ← InitializeGlobalConfig opener;
  cache ← gets (glob_cache ∘ fst);
  match cache with
  | None => GlobImpl (fun i => clock (Datatypes.S (Datatypes.S i))) path opener
  | Some _ =>
      if negb (HasGlob path) then in_fs (query (fs_glob path))
      else
        found ← cached_or_created (glob_cache ∘ fst) (fun c st => (set_glob_cache c st.1, st.2)) clock path
                  (GlobImpl (fun i => clock (Datatypes.S (Datatypes.S i))) path opener);
        _ ← in_fs (RecordAccess (GetConnectionIdOf opener) kGlob found.2);
        mret found.1
  end.

(** *** Opening *)
Definition OpenFileExtended (now : Z) (path : string) (flags : N) (opener : option (option Z)) :
    Op (option CacheFileSystemHandle) :=
  _ ← InitializeGlobalConfig opener;
  config ← gets config_of;
  let conn := GetConnectionIdOf opener in
  _ ← (if clear_cache_on_write config then ClearCacheOf path conn else mret tt);
  if OpenForReading FILE_FLAGS_READ flags then
    in_fs (in_handles (GetOrCreateFileHandleForRead FILE_FLAGS_READ FILE_FLAGS_PARALLEL_ACCESS now path flags conn))
  else in_fs (in_handles (OpenForWrite path flags conn)).

Definition OpenFile (now : Z) (path : string) (flags : N) (opener : option (option Z)) :
    Op (option CacheFileSystemHandle) := OpenFileExtended now path flags opener.

(** [OnDiskFile]: a simulated remote is never on disk. *)
Definition OnDiskFile (ch : CacheFileSystemHandle) st : bool :=
  if (0 <? sim_latency_us (config_of st)) || CppString.double_lt (CppString.double_of_Z 0) (sim_bandwidth_gbps (config_of st))
  then false
  else fs_on_disk (internal_file_handle ch) (internal st.1).

(** *** Construction and destruction

    The filesystem at [address]; [alive] tells whether the instance state still exists. *)
Definition new_cache_fs (x : X) : cache_fs X V := MkCacheFs (MkHandles x None None ∅ ∅ 0 0 [] [] []) None None.

Definition ConstructCacheFileSystem (alive : bool) (address : nat) (x : X) (i : instance) :
    Res (cache_fs X V) * instance :=
  if alive then (Ok (new_cache_fs x), with_registry i (InstanceCacheFsRegistry.Register address (i_registry i)))
  else (Throw InternalException, i).

Definition DestroyCacheFileSystem (alive : bool) (address : nat) : Op unit :=
  _ ← (if alive then
         in_instance (modify_state (fun i => with_registry i (InstanceCacheFsRegistry.Unregister address (i_registry i))))
       else mret tt);
  in_fs (in_handles DestroyFileSystem).

(** ** The SQL functions that clear caches

    The filesystems of the instance are where the registered addresses point to. *)
Record world := MkWorld { w_fs : gmap nat (cache_fs X V); w_instance : instance }.
#[local] Abbreviation WorldOp A := (Handler world A).

(** An operation of the filesystem at an address. *)
Definition at_fs {A} (address : nat) (m : Op A) : WorldOp A := fun w =>
  match w_fs w !! address with
  | None => (Throw UndefinedBehaviour, w)
  | Some fs => let '(r, (fs, i)) := m (fs, w_instance w) in (r, MkWorld (<[address := fs]> (w_fs w)) i)
  end.
Definition in_world {A} (m : Handler instance A) : WorldOp A := zoom w_instance (fun i w => MkWorld (w_fs w) i) m.

Fixpoint for_each_fs (addresses : list nat) (m : Op unit) : WorldOp unit :=
  match addresses with
  | [] => mret tt
  | address :: addresses => _ ← at_fs address m; for_each_fs addresses m
  end.

Definition all_cache_fs (w : world) : list nat := InstanceCacheFsRegistry.GetAllCacheFs (i_registry (w_instance w)).

(** [ClearAllCache] *)
Definition ClearAllCache conn : WorldOp unit :=
  _ ← in_world (fun i =>
        let '(r, f) := recreate_directories (on_disk_cache_directories (i_config i)) (i_files i) in (r, with_files i f));
  _ ← in_world (on_readers InstanceCacheReaderManager.ClearCache);
  addresses ← gets all_cache_fs;
  _ ← for_each_fs addresses ClearCache;
  in_world (modify_state (fun i => with_profiles i (ResetProfileCollector conn (i_profiles i)))).

(** [ClearCacheForFile] *)
Definition ClearCacheForFile (filepath : string) conn : WorldOp unit :=
  _ ← in_world (on_readers (fun config => InstanceCacheReaderManager.ClearCacheFile sha256 config filepath));
  addresses ← gets all_cache_fs;
  for_each_fs addresses (ClearCacheOf filepath conn).
End WithInstance.
Arguments world : clear implicits.
