(* ===== verification/PassThrough.v ===== *)
(** * PassThrough

    The operations that [CacheFileSystem] hands to the filesystem it wraps
    ([src/src/include/cache_filesystem.hpp], [src/src/cache_filesystem.cpp]): they act on the
    handle inside a cache handle, or on a path, and leave every cache as it is, also those
    that change files. *)
From S2P Require Import Prelude OrdMap IoOperations LruCache MultiLru Handler InstanceState HandleCache ReadPath CacheFs.

#[local] Open Scope Z_scope.

(** ** The internal filesystem

    What is passed on, besides [InternalFileSystem]: [FT] and [CT] are DuckDB's [FileType] and
    [FileCompressionType].  [list_files] gives the entries that its callback is called with,
    [is_directory] is [FileSystem::IsDirectory]; [is_directory] and the callback must not throw. *)
Class PassedThrough (X V FT CT : Type) `{InternalFileSystem X V} := {
  fs_trim : FileHandle -> Z -> Z -> X -> Res bool * X;
  fs_file_type : FileHandle -> X -> Res FT;
  fs_truncate : FileHandle -> Z -> X -> Res unit * X;
  fs_directory_exists : string -> X -> Res bool;
  fs_create_directory : string -> X -> Res unit * X;
  fs_create_directories : string -> X -> Res unit * X;
  fs_remove_directory : string -> X -> Res unit * X;
  fs_move_file : string -> string -> X -> Res unit * X;
  fs_file_exists : string -> X -> Res bool;
  fs_is_pipe : string -> X -> Res bool;
  fs_home_directory : X -> Res string;
  fs_expand_path : string -> X -> Res string;
  fs_path_separator : string -> X -> Res string;
  fs_register : X -> X -> Res unit * X;
  fs_register_compressed : CT -> X -> X -> Res unit * X;
  fs_unregister : string -> X -> Res unit * X;
  fs_list_subsystems : X -> Res (list string);
  fs_handle_reset : FileHandle -> X -> Res unit * X;
  fs_can_seek : X -> bool;
  fs_set_disabled : list string -> X -> Res unit * X;
  fs_open_compressed : FileHandle -> bool -> X -> Res (option FileHandle) * X;
  list_files : string -> X -> Res (list (OpenFileInfo V) * bool);
  is_directory : string -> bool
}.

Section PassThrough.
Context {X V FT CT : Type} `{PassedThrough X V FT CT}.
Implicit Types (fs : cache_fs X V) (ch : CacheFileSystemHandle) (path : string).

#[local] Abbreviation FsOp A := (Handler (cache_fs X V) A).

(** *** On the handle inside a cache handle *)
Definition Trim ch (offset_bytes length_bytes : Z) : FsOp bool :=
  on_internal (fs_trim (internal_file_handle ch) offset_bytes length_bytes).
Definition GetFileType ch : FsOp FT := query (fs_file_type (internal_file_handle ch)).
Definition Truncate ch (new_size : Z) : FsOp unit := on_internal (fs_truncate (internal_file_handle ch) new_size).
Definition Reset ch : FsOp unit := on_internal (fs_handle_reset (internal_file_handle ch)).

(** *** On paths *)
Definition DirectoryExists (directory : string) : FsOp bool := query (fs_directory_exists directory).
Definition CreateDirectory (directory : string) : FsOp unit := on_internal (fs_create_directory directory).
Definition CreateDirectoriesRecursive path : FsOp unit := on_internal (fs_create_directories path).
Definition RemoveDirectory (directory : string) : FsOp unit := on_internal (fs_remove_directory directory).
Definition MoveFile (source target : string) : FsOp unit := on_internal (fs_move_file source target).
Definition FileExists (filename : string) : FsOp bool := query (fs_file_exists filename).
Definition IsPipe (filename : string) : FsOp bool := query (fs_is_pipe filename).
Definition GetHomeDirectory : FsOp string := query fs_home_directory.
Definition ExpandPath path : FsOp string := query (fs_expand_path path).
Definition PathSeparator path : FsOp string := query (fs_path_separator path).

(** *** On the filesystem *)
Definition RegisterSubSystem (sub_fs : X) : FsOp unit := on_internal (fs_register sub_fs).
Definition RegisterCompressedSubSystem (compression_type : CT) (sub_fs : X) : FsOp unit :=
  on_internal (fs_register_compressed compression_type sub_fs).
Definition UnregisterSubSystem (name : string) : FsOp unit := on_internal (fs_unregister name).
Definition ListSubSystems : FsOp (list string) := query fs_list_subsystems.
Definition CanSeek fs : bool := fs_can_seek (internal fs).
Definition SetDisabledFileSystems (names : list string) : FsOp unit := on_internal (fs_set_disabled names).

(** *** Listing

    The calls of the callback, in order, and what the listing returns. *)
Definition ListFilesExtended (directory : string) : FsOp (list (OpenFileInfo V) * bool) := query (list_files directory).
Definition ListFiles (directory : string) : FsOp (list (string * bool) * bool) :=
  found ← ListFilesExtended directory;
  mret ((fun info => (info_path info, is_directory (info_path info))) <$> found.1, found.2).

(** *** Compressed files

    The new handle is wrapped without a look at it. *)
Definition OpenCompressedFile (connection_id : Z) (handle : FileHandle) (write : bool) : FsOp CacheFileSystemHandle :=
  file_handle ← on_internal (fs_open_compressed handle write);
  match file_handle with
  | None => throw UndefinedBehaviour
  | Some h => mret (MkCacheHandle h None connection_id)
  end.

(** ** Stale metadata *)
Lemma on_internal_caches {A} (f : X -> Res A * X) fs :
  metadata_cache (on_internal f fs).2 = metadata_cache fs /\ glob_cache (on_internal f fs).2 = glob_cache fs.
Proof. unfold on_internal. by destruct (f (internal fs)). Qed.

(** As long as metadata are cached for a path, they are what a handle of that path has. *)
Lemma cached_size clock ch fs c c' m :
  metadata_cache fs = Some c -> SharedValueLruCache.Get (clock 0%nat) (GetPath (internal_file_handle ch)) c = (Some m, c') ->
  (GetFileSize clock ch fs).1 = Ok (file_size m).
Proof.
  intros Hc Hg. unfold GetFileSize, cached_metadata, cached_or_created, mbind, Handler_bind, gets, modify_state. simpl.
  rewrite Hc. rewrite Hc. by rewrite Hg.
Qed.

(** A file moved over another, or truncated, keeps its cached size: with the metadata cache
    on, [GetFileSize] answers what it would have answered before. *)
Lemma moved_file_keeps_old_size clock ch source fs c c' m :
  metadata_cache fs = Some c -> SharedValueLruCache.Get (clock 0%nat) (GetPath (internal_file_handle ch)) c = (Some m, c') ->
  (GetFileSize clock ch (MoveFile source (GetPath (internal_file_handle ch)) fs).2).1 = Ok (file_size m).
Proof.
  intros Hc Hg. eapply cached_size; [|exact Hg]. unfold MoveFile. by rewrite (proj1 (on_internal_caches _ _)).
Qed.

Lemma truncated_file_keeps_old_size clock ch new_size fs c c' m :
  metadata_cache fs = Some c -> SharedValueLruCache.Get (clock 0%nat) (GetPath (internal_file_handle ch)) c = (Some m, c') ->
  (GetFileSize clock ch (Truncate ch new_size fs).2).1 = Ok (file_size m).
Proof.
  intros Hc Hg. eapply cached_size; [|exact Hg]. unfold Truncate. by rewrite (proj1 (on_internal_caches _ _)).
Qed.
End PassThrough.
