(* ===== verification/TestFs.v ===== *)
(** * TestFs

    The filesystems that the unit tests wrap: [MockFileSystem]
    ([src/src/utils/mock_filesystem.cpp]), which counts the calls and lists the reads it
    gets, the fake remote [CacheHttpfsFakeFileSystem] ([src/src/utils/fake_filesystem.cpp]),
    which hands every call to the local filesystem, and [ScopedDirectory]
    ([src/src/utils/scoped_directory.cpp]). *)
From S2P Require Import Prelude CppString StringUtil LocalFs Handler.
From stdpp Require Import sorting.

#[local] Open Scope Z_scope.
#[local] Open Scope u64_scope.

(** ** [MockFileSystem] *)
Module MockFileSystem.

(** *** Reads, ordered by offset and size *)
Record ReadOper := MkReadOper { start_offset : Z; bytes_to_read : Z }.

#[export] Instance ReadOper_eq_dec : EqDecision ReadOper.
Proof. solve_decision. Defined.

Definition oper_lt (lhs rhs : ReadOper) : bool :=
  (start_offset lhs <? start_offset rhs) ||
  (negb (start_offset rhs <? start_offset lhs) && (bytes_to_read lhs <? bytes_to_read rhs)).
Definition oper_gt (lhs rhs : ReadOper) : bool := oper_lt rhs lhs.
Definition oper_le (lhs rhs : ReadOper) : bool := negb (oper_lt rhs lhs).
Definition oper_ge (lhs rhs : ReadOper) : bool := negb (oper_lt lhs rhs).
Definition oper_eq (lhs rhs : ReadOper) : bool :=
  (start_offset lhs =? start_offset rhs) && (bytes_to_read lhs =? bytes_to_read rhs).
Definition oper_ne (lhs rhs : ReadOper) : bool := negb (oper_eq lhs rhs).

Lemma oper_lt_spec a b :
  oper_lt a b = true <->
  start_offset a < start_offset b \/ start_offset a = start_offset b /\ bytes_to_read a < bytes_to_read b.
Proof. unfold oper_lt. rewrite orb_true_iff, andb_true_iff, negb_true_iff, !Z.ltb_lt, Z.ltb_ge. lia. Qed.

Lemma oper_le_spec a b :
  oper_le a b = true <->
  start_offset a < start_offset b \/ start_offset a = start_offset b /\ bytes_to_read a <= bytes_to_read b.
Proof. unfold oper_le. rewrite negb_true_iff, <-not_true_iff_false, oper_lt_spec. lia. Qed.

#[export] Instance oper_le_dec : RelDecision (fun a b => oper_le a b = true).
Proof. intros a b. apply bool_eq_dec. Defined.
#[export] Instance oper_le_total : Total (fun a b => oper_le a b = true).
Proof. intros a b. rewrite !oper_le_spec. lia. Qed.
#[export] Instance oper_le_trans : Transitive (fun a b => oper_le a b = true).
Proof. intros a b c. rewrite !oper_le_spec. lia. Qed.
#[export] Instance oper_le_antisymm : AntiSymm eq (fun a b => oper_le a b = true).
Proof. intros [] []. rewrite !oper_le_spec. simpl. intros. f_equal; lia. Qed.

(** *** State

    [I] is DuckDB's [OpenFileInfo], [T] its timestamps, and [E] what the callbacks act on. *)
Section Mock.
Context {I T E : Type}.
Variable infinity : T.

Record mock := MkMock {
  file_size : Z;
  last_modification_time : T;
  version_tag : string;
  glob_returns : list I;
  close_callback : option (E -> E);
  dtor_callback : option (E -> E);
  file_open_invocation : Z;
  glob_invocation : Z;
  get_file_size_invocation : Z;
  get_last_mod_time_invocation : Z;
  get_version_tag_invocation : Z;
  read_operations : list ReadOper;
  remove_files_invocation : Z;
  removed_files : list string;
  throw_exception_on_read : bool
}.
Implicit Types (m : mock).
#[local] Abbreviation Op A := (Handler mock A).

Definition new_mock (close dtor : option (E -> E)) : mock :=
  MkMock 0 infinity "" [] close dtor 0 0 0 0 0 [] 0 [] false.

(** The counters, the settings and the reads change independently. *)
Definition with_settings m size time tag globs throws :=
  MkMock size time tag globs (close_callback m) (dtor_callback m) (file_open_invocation m) (glob_invocation m)
    (get_file_size_invocation m) (get_last_mod_time_invocation m) (get_version_tag_invocation m) (read_operations m)
    (remove_files_invocation m) (removed_files m) throws.
Definition with_counts m opens globs sizes times tags :=
  MkMock (file_size m) (last_modification_time m) (version_tag m) (glob_returns m) (close_callback m) (dtor_callback m)
    opens globs sizes times tags (read_operations m) (remove_files_invocation m) (removed_files m) (throw_exception_on_read m).
Definition with_reads m reads :=
  MkMock (file_size m) (last_modification_time m) (version_tag m) (glob_returns m) (close_callback m) (dtor_callback m)
    (file_open_invocation m) (glob_invocation m) (get_file_size_invocation m) (get_last_mod_time_invocation m)
    (get_version_tag_invocation m) reads (remove_files_invocation m) (removed_files m) (throw_exception_on_read m).
Definition with_removals m count files :=
  MkMock (file_size m) (last_modification_time m) (version_tag m) (glob_returns m) (close_callback m) (dtor_callback m)
    (file_open_invocation m) (glob_invocation m) (get_file_size_invocation m) (get_last_mod_time_invocation m)
    (get_version_tag_invocation m) (read_operations m) count files (throw_exception_on_read m).

(** *** Handles *)
Record MockFileHandle := MkMockHandle {
  mock_path : string;
  mock_flags : N;
  handle_close_callback : option (E -> E);
  handle_dtor_callback : option (E -> E)
}.

(** A callback that is empty fails the assertion. *)
Definition run_callback (callback : option (E -> E)) : Handler E unit :=
  match callback with None => throw AssertionFailure | Some f => modify_state f end.
Definition CloseMockHandle (h : MockFileHandle) : Handler E unit := run_callback (handle_close_callback h).
Definition DestroyMockHandle (h : MockFileHandle) : Handler E unit := run_callback (handle_dtor_callback h).

(** *** Operations *)
Definition OpenFile (path : string) (flags : N) : Op MockFileHandle := fun m =>
  (Ok (MkMockHandle path flags (close_callback m) (dtor_callback m)),
   with_counts m (file_open_invocation m +u 1) (glob_invocation m) (get_file_size_invocation m)
     (get_last_mod_time_invocation m) (get_version_tag_invocation m)).

(** The bytes that [Read] puts into the buffer. *)
Definition Read (nr_bytes location : Z) : Op (list byte) := fun m =>
  if throw_exception_on_read m then (Throw IOException, m)
  else (Ok (replicate (Z.to_nat nr_bytes) x61), with_reads m (read_operations m ++ [MkReadOper location nr_bytes])).

Definition Glob (path : string) : Op (list I) := fun m =>
  let m := with_counts m (file_open_invocation m) (glob_invocation m +u 1) (get_file_size_invocation m)
             (get_last_mod_time_invocation m) (get_version_tag_invocation m) in
  match glob_returns m with
  | [] => (Ok [], m)
  | front :: rest =>
      (Ok [front], with_settings m (file_size m) (last_modification_time m) (version_tag m) rest (throw_exception_on_read m))
  end.

Definition GetFileSize : Op Z := fun m =>
  (Ok (file_size m),
   with_counts m (file_open_invocation m) (glob_invocation m) (get_file_size_invocation m +u 1)
     (get_last_mod_time_invocation m) (get_version_tag_invocation m)).
Definition GetLastModifiedTime : Op T := fun m =>
  (Ok (last_modification_time m),
   with_counts m (file_open_invocation m) (glob_invocation m) (get_file_size_invocation m)
     (get_last_mod_time_invocation m +u 1) (get_version_tag_invocation m)).
Definition GetVersionTag : Op string := fun m =>
  (Ok (version_tag m),
   with_counts m (file_open_invocation m) (glob_invocation m) (get_file_size_invocation m)
     (get_last_mod_time_invocation m) (get_version_tag_invocation m +u 1)).
Definition Seek (location : Z) : Op unit := mret tt.
Definition GetName : string := "mock filesystem".

Definition SetGlobResults (file_open_infos : list I) m : mock :=
  with_settings m (file_size m) (last_modification_time m) (version_tag m) file_open_infos (throw_exception_on_read m).
Definition SetFileSize (size : Z) m : mock :=
  with_settings m size (last_modification_time m) (version_tag m) (glob_returns m) (throw_exception_on_read m).
Definition SetLastModificationTime (time : T) m : mock :=
  with_settings m (file_size m) time (version_tag m) (glob_returns m) (throw_exception_on_read m).
Definition SetVersionTag (tag : string) m : mock :=
  with_settings m (file_size m) (last_modification_time m) tag (glob_returns m) (throw_exception_on_read m).
Definition SetThrowExceptionOnRead (throw_on_read : bool) m : mock :=
  with_settings m (file_size m) (last_modification_time m) (version_tag m) (glob_returns m) throw_on_read.

(** The reads are sorted in place. *)
Definition GetSortedReadOperations : Op (list ReadOper) := fun m =>
  let sorted := merge_sort (fun a b => oper_le a b = true) (read_operations m) in (Ok sorted, with_reads m sorted).
Definition ClearReadOperations m : mock := with_reads m [].

Definition RemoveFiles (filenames : list string) : Op unit := modify_state (fun m =>
  with_removals m (remove_files_invocation m +u 1) (removed_files m ++ filenames)).

(** *** What the tests rely on *)

(** The reads come out sorted and complete, whatever order they came in. *)
Lemma sorted_reads m :
  let '(r, m') := GetSortedReadOperations m in
  exists reads, r = Ok reads /\ StronglySorted (fun a b => oper_le a b = true) reads /\
    reads ≡ₚ read_operations m /\ read_operations m' = reads /\ GetSortedReadOperations m' = (Ok reads, m').
Proof.
  unfold GetSortedReadOperations. set (reads := merge_sort _ (read_operations m)).
  assert (StronglySorted (fun a b => oper_le a b = true) reads) as Hs by (apply StronglySorted_merge_sort; apply _).
  exists reads. split; [done|]. split; [done|]. split; [apply merge_sort_Permutation|]. split; [done|]. simpl.
  assert (merge_sort (fun a b => oper_le a b = true) reads = reads) as ->; [|done].
  apply (StronglySorted_unique (fun a b => oper_le a b = true)); [apply StronglySorted_merge_sort; apply _|done|].
  apply merge_sort_Permutation.
Qed.

(** The mock lists what it was asked to read, and nothing while it throws. *)
Lemma read_is_listed nr loc m :
  read_operations (Read nr loc m).2 =
    read_operations m ++ (if throw_exception_on_read m then [] else [MkReadOper loc nr]).
Proof. unfold Read. destruct (throw_exception_on_read m); [by rewrite app_nil_r|done]. Qed.
End Mock.
End MockFileSystem.

(** ** [CacheHttpfsFakeFileSystem]

    [H] is a handle of DuckDB's [LocalFileSystem], [L] its state. *)
Class LocalHandles (H L : Type) := {
  lh_open : string -> N -> L -> Res H * L;
  lh_close : H -> L -> Res unit * L;
  lh_flags : H -> N;
  lh_read_at : H -> Z -> Z -> L -> Res (list byte) * L;
  lh_read : H -> Z -> L -> Res (list byte) * L;
  lh_write_at : H -> list byte -> Z -> L -> Res unit * L;
  lh_write : H -> list byte -> L -> Res Z * L;
  lh_file_size : H -> L -> Res Z * L;
  lh_sync : H -> L -> Res unit * L;
  lh_seek : H -> Z -> L -> Res unit * L;
  lh_seek_position : H -> L -> Res Z * L;
  lh_trim : H -> Z -> Z -> L -> Res bool * L;
  lh_last_modified : H -> L -> Res Z * L;
  lh_stats : H -> L -> Res (Z * Z) * L;
  lh_version_tag : H -> L -> Res string * L;
  lh_file_type : H -> L -> Res Z * L;
  lh_truncate : H -> Z -> L -> Res unit * L;
  lh_on_disk : H -> L -> Res bool * L;
  lh_create_directory : string -> L -> Res unit * L
}.

Module CacheHttpfsFakeFileSystem.
Section Fake.
Context {H L : Type} `{LocalHandles H L} `{StringUtil}.
Variable GetFakeOnDiskCacheDirectory : string.

Record fake_handle := MkFakeHandle { fake_path : string; fake_flags : N; internal_file_handle : H }.
Implicit Types (h : fake_handle).

Definition NewFakeHandle (path : string) (internal : H) : fake_handle := MkFakeHandle path (lh_flags internal) internal.

Definition NewFakeFileSystem : Handler L unit := lh_create_directory GetFakeOnDiskCacheDirectory.
Definition CanHandleFile (path : string) : bool := StartsWith path GetFakeOnDiskCacheDirectory.
Definition GetName : string := "cache_httpfs_fake_filesystem".

Definition OpenFile (path : string) (flags : N) : Handler L fake_handle :=
  internal ← (lh_open path flags : Handler L H); mret (NewFakeHandle path internal).
Definition Close h : Handler L unit := lh_close (internal_file_handle h).

Definition ReadAt h (nr_bytes location : Z) : Handler L (list byte) := lh_read_at (internal_file_handle h) nr_bytes location.
Definition Read h (nr_bytes : Z) : Handler L (list byte) := lh_read (internal_file_handle h) nr_bytes.
Definition WriteAt h (bytes : list byte) (location : Z) : Handler L unit := lh_write_at (internal_file_handle h) bytes location.
Definition Write h (bytes : list byte) : Handler L Z := lh_write (internal_file_handle h) bytes.
Definition GetFileSize h : Handler L Z := lh_file_size (internal_file_handle h).
Definition FileSync h : Handler L unit := lh_sync (internal_file_handle h).
Definition Seek h (location : Z) : Handler L unit := lh_seek (internal_file_handle h) location.
Definition SeekPosition h : Handler L Z := lh_seek_position (internal_file_handle h).
Definition Trim h (offset_bytes length_bytes : Z) : Handler L bool := lh_trim (internal_file_handle h) offset_bytes length_bytes.
Definition GetLastModifiedTime h : Handler L Z := lh_last_modified (internal_file_handle h).
Definition Stats h : Handler L (Z * Z) := lh_stats (internal_file_handle h).
Definition GetVersionTag h : Handler L string := lh_version_tag (internal_file_handle h).
Definition GetFileType h : Handler L Z := lh_file_type (internal_file_handle h).
Definition Truncate h (new_size : Z) : Handler L unit := lh_truncate (internal_file_handle h) new_size.
Definition OnDiskFile h : Handler L bool := lh_on_disk (internal_file_handle h).
End Fake.
End CacheHttpfsFakeFileSystem.

(** ** [ScopedDirectory]

    [DirectoryExists] of the local filesystem is an argument. *)
Module ScopedDirectory.
Section Scoped.
Context {F : Type} `{LocalFileSystem F}.
Variable directory_exists : string -> F -> bool.
Implicit Types (f : F) (directory_path : string).

Definition NewScopedDirectory directory_path : Handler F unit := fun f =>
  if directory_exists directory_path f then (Ok tt, f) else fs_create_directory directory_path f.

Definition DestroyScopedDirectory directory_path : Handler F unit := fun f =>
  if String.eqb directory_path "" then (Ok tt, f)
  else if directory_exists directory_path f then fs_remove_directory directory_path f
  else (Ok tt, f).

(** What was in the directory is gone after its scope. *)
Lemma scope_leaves_nothing `{!LocalFsLaws F} directory_path f f' :
  directory_path <> ""%string -> directory_exists directory_path f = true ->
  DestroyScopedDirectory directory_path f = (Ok tt, f') ->
  forall q, in_directory directory_path q -> node f' q = None.
Proof.
  intros Hne Hex. unfold DestroyScopedDirectory. rewrite Hex.
  destruct (String.eqb_spec directory_path ""); [done|]. intros Hr q Hq.
  destruct (remove_directory_law _ _ _ _ Hr) as (_ & Hgone & _). by apply Hgone.
Qed.
End Scoped.
End ScopedDirectory.
