(* ===== verification/CacheFsProofs.v ===== *)
(** * CacheFsProofs

    Properties of the cache filesystem: a read delivers the bytes of the file, whichever
    reader serves it; reads at the position of a handle deliver the file piece by piece; and
    clearing a file makes every filesystem of the instance forget it. *)
From S2P Require Import Prelude StringUtil OrdMap Blocks DataStorage IoOperations LocalFs Config LruCache LruSpec LruProofs.
From S2P Require Import SingleFlight MultiLru ExtensionStorage InMemReader InstanceConfig AccessIndex DiskReader.
From S2P Require Import DiskNames DiskReaderProofs DiskMaintenance Handler InstanceState Settings.
From S2P Require Import HandleCache HandleCacheProofs ReadPath CacheFs.

#[local] Open Scope Z_scope.

(** ** The internal filesystem

    Its files do not change: sizes and bytes are those of [content], and a seek sets the
    position of the handle. *)
Class InternalContent (X V : Type) `{InternalFileSystem X V} (content : string -> list byte) := {
  fs_stats_law h x m : fs_stats h x = Ok m -> file_size m = Z.of_nat (length (content (GetPath h)));
  fs_file_size_law h x n : fs_file_size h x = Ok n -> n = Z.of_nat (length (content (GetPath h)));
  fs_read_law h nr loc x bytes :
    0 <= loc -> 0 <= nr -> loc + nr <= Z.of_nat (length (content (GetPath h))) -> fs_read h nr loc x = Ok bytes ->
    bytes = slice (content (GetPath h)) loc nr;
  fs_seek_law h p x : 0 <= p -> fs_seek_position h (fs_seek h p x) = p
}.

(** What the internal filesystem may throw while a file is read. *)
Definition internal_error {X V} `{InternalFileSystem X V} (x : X) (e : exn) : Prop :=
  (exists h, fs_file_size h x = Throw e) \/ (exists h, fs_last_modified h x = Throw e) \/
  exists h nr loc, fs_read h nr loc x = Throw e.

(** ** Caches with a factory *)
Section Created.
Context {St A : Type}.
Variables (get : St -> option (lru string A)) (set : option (lru string A) -> St -> St).
Hypothesis get_set : forall c st, get (set c st) = c.

(** The entries of a cache that satisfy [P] still do, and so does the answer. *)
Definition all_hold (P : string -> A -> Prop) (c : option (lru string A)) : Prop :=
  match c with None => True | Some c => lru_wf c /\ forall k v, lru_holds c k v -> P k v end.

Lemma cached_or_created_ok (P : string -> A -> Prop) (I : St -> Prop) clock key factory (st : St) c :
  get st = Some c -> all_hold P (get st) ->
  (forall c st, I st -> I (set c st)) -> I st ->
  (forall st1, get st1 <> None -> all_hold P (get st1) -> I st1 ->
     let '(r, st2) := factory st1 in
     I st2 /\ all_hold P (get st2) /\ match r with Ok v => P key v /\ get st2 <> None | Throw _ => True end) ->
  let '(r, st') := cached_or_created get set clock key factory st in
  I st' /\ all_hold P (get st') /\
  match r with
  | Ok (v, _) => P key v
  | Throw e => exists st1, get st1 <> None /\ I st1 /\ (factory st1).1 = Throw e
  end.
Proof.
  intros Hc Hall Hset HI Hf. rewrite Hc in Hall. destruct Hall as [Hw Hall]. unfold cached_or_created.
  rewrite (handler_ok _ _ _ _ _ (eq_refl : gets get st = (Ok (get st), st))), Hc.
  destruct (SharedValueLruCache.Get (clock 0%nat) key c) as [v c1] eqn:Hg.
  destruct (cc_get_law (CreationCacheLaws := shared_creation_laws (fun _ : A => false)) (clock 0%nat) key c v c1 Hw Hg)
    as (Hw1 & Hsub & Hv). simpl in Hw1, Hsub, Hv.
  rewrite (handler_ok _ _ _ _ _ (eq_refl : modify_state (set (Some c1)) st = (Ok tt, set (Some c1) st))).
  assert (all_hold P (get (set (Some c1) st))) as Hall1 by (rewrite get_set; split; auto).
  destruct v as [v|]; [simpl; split; [auto|split; [done|]]; apply Hall, Hv; done|].
  assert (get (set (Some c1) st) <> None) as Hne by by rewrite get_set.
  specialize (Hf (set (Some c1) st) Hne Hall1 (Hset _ _ HI)).
  unfold mbind at 1, Handler_bind at 1.
  destruct (factory (set (Some c1) st)) as [[v|e] st2] eqn:Hfac.
  - destruct Hf as (HI2 & Hall2 & Hpv & Hne2).
    rewrite (handler_ok _ _ _ _ _ (eq_refl : gets get st2 = (Ok (get st2), st2))).
    destruct (get st2) as [c2|] eqn:Hc2; [|done]. destruct Hall2 as [Hw2 Hall2].
    destruct (cc_put_law (CreationCacheLaws := shared_creation_laws (fun _ : A => false)) (clock 1%nat) key v c2 Hw2)
      as [Hw3 Hsub3]. simpl in Hw3, Hsub3.
    rewrite (handler_ok (modify_state _) _ st2 tt (set (Some (SharedValueLruCache.Put (clock 1%nat) key v c2)) st2)) by done.
    cbn. split; [auto|]. rewrite get_set. split; [|done]. split; [exact Hw3|].
    intros k w [[-> ->]|[_ Hh]]%Hsub3; auto.
  - destruct Hf as (HI2 & Hall2 & _). split; [done|]. split; [done|].
    exists (set (Some c1) st). split; [done|]. split; [auto|]. by rewrite Hfac.
Qed.
End Created.

(** ** Reading *)
Section Reading.
Context {X V : Type} `{InternalFileSystem X V}.
Variable content : string -> list byte.
Context `{!InternalContent X V content}.
Implicit Types (fs : cache_fs X V) (clock : nat -> Z) (ch : CacheFileSystemHandle) (h : FileHandle).

Definition size_of (path : string) : Z := Z.of_nat (length (content path)).

(** The metadata cache knows the sizes of the files. *)
Definition size_right (path : string) (m : FileMetadata) : Prop := file_size m = size_of path.
Definition metadata_ok fs : Prop := all_hold size_right (metadata_cache fs).

Lemma create_metadata_ok h fs :
  let '(r, fs') := create_metadata h fs in
  fs' = fs /\ match r with Ok m => size_right (GetPath h) m | Throw e => internal_error (internal fs) e end.
Proof.
  unfold create_metadata. destruct (fs_stats h (internal fs)) as [m|e] eqn:Hs.
  { split; [done|]. unfold size_right. by apply fs_stats_law in Hs. }
  unfold GetMetadataFallback, query, mbind, Handler_bind.
  destruct (fs_file_size h (internal fs)) as [n|e'] eqn:Hn; [|split; [done|left; by exists h]].
  destruct (fs_last_modified h (internal fs)) as [t|e'] eqn:Ht; (split; [done|]).
  - by apply fs_file_size_law in Hn.
  - right. left. by exists h.
Qed.

Lemma cached_metadata_ok clock ch fs :
  is_Some (metadata_cache fs) -> metadata_ok fs ->
  let '(r, fs') := cached_metadata clock ch fs in
  metadata_ok fs' /\ internal fs' = internal fs /\
  match r with
  | Ok m => size_right (GetPath (internal_file_handle ch)) m
  | Throw e => internal_error (internal fs) e
  end.
Proof.
  intros [c Hc] Hm. unfold cached_metadata. set (h := internal_file_handle ch).
  pose proof (cached_or_created_ok metadata_cache set_metadata_cache (fun _ _ => eq_refl) size_right
    (fun fs' => internal fs' = internal fs) clock (GetPath h) (create_metadata h) fs c Hc Hm (fun _ _ E => E) eq_refl) as Hok.
  unfold mbind, Handler_bind.
  destruct (cached_or_created metadata_cache set_metadata_cache clock (GetPath h) (create_metadata h) fs) as [[[m hit]|e] fs'].
  - destruct Hok as (HI & Hm' & Hs); [|by split].
    intros fs1 Hne Hm1 HI1. pose proof (create_metadata_ok h fs1) as Hcr.
    destruct (create_metadata h fs1) as [r fs2]. destruct Hcr as [-> Hr]. split; [done|]. split; [done|]. by destruct r.
  - destruct Hok as (HI & Hm' & fs1 & Hne & HI1 & He).
    { intros fs1 Hne Hm1 HI1. pose proof (create_metadata_ok h fs1) as Hcr.
      destruct (create_metadata h fs1) as [r fs2]. destruct Hcr as [-> Hr]. split; [done|]. split; [done|]. by destruct r. }
    split; [done|]. split; [done|]. pose proof (create_metadata_ok h fs1) as Hcr.
    destruct (create_metadata h fs1) as [r fs2]. destruct Hcr as [-> Hr]. simpl in He. subst r. by rewrite HI1 in Hr.
Qed.

Lemma GetFileSize_ok clock ch fs :
  metadata_ok fs ->
  let '(r, fs') := GetFileSize clock ch fs in
  metadata_ok fs' /\ internal fs' = internal fs /\
  match r with
  | Ok n => n = size_of (GetPath (internal_file_handle ch))
  | Throw e => internal_error (internal fs) e
  end.
Proof.
  intros Hm. unfold GetFileSize.
  rewrite (handler_ok _ _ _ _ _ (eq_refl : gets metadata_cache fs = (Ok (metadata_cache fs), fs))).
  destruct (metadata_cache fs) as [c|] eqn:Hc.
  - pose proof (cached_metadata_ok clock ch fs (mk_is_Some _ _ Hc) Hm) as Hok. unfold mbind, Handler_bind.
    destruct (cached_metadata clock ch fs) as [[m|e] fs']; done.
  - unfold query. destruct (fs_file_size (internal_file_handle ch) (internal fs)) as [n|e] eqn:Hn; (split; [done|]); (split; [done|]).
    + by apply fs_file_size_law in Hn.
    + left. by eexists.
Qed.

(** *** One read *)
Context {G : Type} `{CacheReaderLaws content G}.
Variable excluded : string -> bool.
Implicit Types (g : G).

(** How many bytes a read delivers. *)
Definition bytes_at (path : string) (location nr_bytes : Z) : Z := Z.max 0 (Z.min nr_bytes (size_of path - location)).

Definition delivered (path : string) (location nr_bytes : Z) x g (res : Res Z) g' : Prop :=
  match res with
  | Ok n => n = bytes_at path location nr_bytes /\
            caller_buffer g' = slice (content path) location n ++ beyond n g
  | Throw e => internal_error x e \/ e = BadAlloc \/ cache_error content e
  end.

(** An excluded file is read through, into the first bytes of the buffer. *)
Lemma read_through h n location x g :
  0 <= location -> 0 <= n -> location + n <= size_of (GetPath h) -> n <= Z.of_nat (length (caller_buffer g)) ->
  match (bytes ← fs_read h n location x; of_option UndefinedBehaviour (write_at (caller_buffer g) 0 bytes)) with
  | Ok b => b = slice (content (GetPath h)) location n ++ beyond n g
  | Throw e => internal_error x e
  end.
Proof.
  intros Hl Hn He Hb. destruct (fs_read h n location x) as [bytes|e] eqn:Hr; simpl; [|right; right; by exists h, n, location].
  apply fs_read_law in Hr; [|done..]. subst bytes.
  pose proof (length_slice (content (GetPath h)) location n) as Hlen. unfold size_of in He.
  unfold write_at. rewrite decide_True by lia. simpl. unfold beyond. do 2 f_equal. lia.
Qed.

Lemma view_truthful h fs : truthful_view content (view_of h fs).
Proof. intros nr loc bytes Hl Hn He. unfold view_of. simpl. intros Hr. by apply fs_read_law in Hr. Qed.

Lemma ReadImpl_ok clock ch nr_bytes location fs g res fs' g' :
  let path := GetPath (internal_file_handle ch) in
  metadata_ok fs -> reader_ok content g -> readable content path -> size_of path < 9223372036854775808 ->
  0 <= location < two64 -> 0 <= nr_bytes <= Z.of_nat (length (caller_buffer g)) ->
  ReadImpl excluded clock ch nr_bytes location (fs, g) res (fs', g') ->
  metadata_ok fs' /\ internal fs' = internal fs /\ reader_ok content g' /\
  delivered path location nr_bytes (internal fs) g res g'.
Proof.
  intros path Hm Hg Hread Hsize Hl Hn. unfold ReadImpl. cbn [fst snd].
  pose proof (GetFileSize_ok clock ch fs Hm) as Hgs. destruct (GetFileSize clock ch fs) as [[size|e] fs1].
  2:{ destruct Hgs as (Hm1 & Hi & He). intros [-> [= -> ->]]. split; [done|]. split; [done|]. split; [done|by left]. }
  destruct Hgs as (Hm1 & Hi & Hsz). fold path in Hsz. assert (0 <= size_of path) as Hpos by (unfold size_of; lia).
  unfold u64 at 1. rewrite Z.mod_small by lia. unfold delivered, bytes_at.
  destruct (Z.leb_spec size location) as [Hle|Hgt].
  { intros [-> [= -> ->]]. split; [done|]. split; [done|]. split; [done|]. split; [lia|].
    unfold beyond. by rewrite drop_0. }
  rewrite i64_small by lia. set (n := Z.min nr_bytes (size - location)).
  destruct (excluded (GetPath (internal_file_handle ch))).
  - pose proof (read_through (internal_file_handle ch) n location (internal fs1) g) as Hthrough. fold path in Hthrough.
    destruct (bytes ← fs_read _ _ _ _; _) as [b|e]; intros [-> [= -> ->]]; (split; [done|]); (split; [done|]).
    + split; [by apply (reader_ok_law content)|]. split; [lia|]. rewrite (caller_buffer_law content). apply Hthrough; lia.
    + split; [done|]. left. rewrite <-Hi. apply Hthrough; lia.
  - intros (r & g1 & Hrc & [= -> ->] & ->). unfold u64 in Hrc. rewrite !Z.mod_small in Hrc by lia. rewrite Hsz in Hrc.
    assert (Z.of_nat (length (take (Z.to_nat n) (caller_buffer g))) = n) as Hlen by (rewrite length_take; lia).
    destruct (read_law content (view_of (internal_file_handle ch) fs1) location n _ r g1 (view_truthful _ fs1) Hread
      ltac:(lia) ltac:(lia) ltac:(unfold view_size, size_of in *; simpl; fold path; lia)
      ltac:(by rewrite (caller_buffer_law content)) ltac:(by apply (reader_ok_law content)) Hrc) as [Hg1 Ho].
    split; [done|]. split; [done|]. split; [by apply (reader_ok_law content)|]. destruct r as [[]|e]; simpl in *.
    + rewrite (caller_buffer_law content), Ho. split; [lia|done].
    + destruct Ho as [?|[(nr & loc & He)|?]]; [auto| |auto]. left. rewrite <-Hi. right. right. by exists (internal_file_handle ch), nr, loc.
Qed.

(** *** A sequence of reads

    Each [Read] of the handle gets a buffer of its own; what the reads deliver, in order. *)
Inductive read_seq ch : list Z -> cache_fs X V * G -> list byte -> cache_fs X V * G -> Prop :=
| read_seq_nil st : read_seq ch [] st [] st
| read_seq_cons clock buf n ns fs g k fs1 g1 out st' :
    Z.of_nat (length buf) = n ->
    Read excluded clock ch n (fs, with_caller_buffer buf g) (Ok k) (fs1, g1) ->
    read_seq ch ns (fs1, g1) out st' ->
    read_seq ch (n :: ns) (fs, g) (take (Z.to_nat k) (caller_buffer g1) ++ out) st'.

Lemma Read_ok clock ch nr_bytes fs g n fs' g' :
  let path := GetPath (internal_file_handle ch) in
  let position := SeekPosition ch fs in
  metadata_ok fs -> reader_ok content g -> readable content path -> size_of path < 9223372036854775808 ->
  0 <= position <= size_of path -> 0 <= nr_bytes <= Z.of_nat (length (caller_buffer g)) ->
  Read excluded clock ch nr_bytes (fs, g) (Ok n) (fs', g') ->
  metadata_ok fs' /\ reader_ok content g' /\ n = bytes_at path position nr_bytes /\
  SeekPosition ch fs' = position + n /\ caller_buffer g' = slice (content path) position n ++ beyond n g.
Proof.
  intros path position Hm Hg Hread Hsize Hp Hn (r & [fs1 g1] & Hri & Hres).
  destruct (ReadImpl_ok clock ch nr_bytes position fs g r fs1 g1 Hm Hg Hread Hsize) as (Hm1 & Hi & Hg1 & Hd); [lia|done|exact Hri|].
  destruct r as [k|e]; destruct Hres as [[= ->] [= -> ->]]. destruct Hd as [Hk Hb].
  split; [exact Hm1|]. split; [done|]. split; [done|]. split; [|done].
  etransitivity; [apply (fs_seek_law (content := content)), Z.mod_pos_bound; lia|]. fold position path in Hk.
  unfold bytes_at in Hk. unfold u64. apply Z.mod_small. lia.
Qed.

Lemma take_beyond path position n g :
  0 <= position -> 0 <= n -> position + n <= size_of path ->
  take (Z.to_nat n) (slice (content path) position n ++ beyond n g) = slice (content path) position n.
Proof.
  intros Hp Hn He. pose proof (length_slice (content path) position n Hp Hn He) as Hl. apply take_app_length'. lia.
Qed.

Lemma read_seq_ok ch ns st out st' :
  let path := GetPath (internal_file_handle ch) in
  let position := SeekPosition ch st.1 in
  read_seq ch ns st out st' ->
  metadata_ok st.1 -> reader_ok content st.2 -> readable content path -> size_of path < 9223372036854775808 ->
  0 <= position <= size_of path ->
  metadata_ok st'.1 /\ reader_ok content st'.2 /\
  out = slice (content path) position (bytes_at path position (sum_Z ns)) /\
  SeekPosition ch st'.1 = position + bytes_at path position (sum_Z ns).
Proof.
  intros path position Hseq. unfold position. clear position.
  induction Hseq as [st|clock buf n ns fs g k fs1 g1 out st' Hbuf Hrd Hseq IH]; intros Hm Hg Hread Hsize Hp.
  { split; [done|]. split; [done|]. unfold bytes_at, sum_Z. simpl.
    replace (Z.max 0 _) with 0 by lia. split; [done|lia]. }
  cbn [fst snd] in *.
  destruct (Read_ok clock ch n fs (with_caller_buffer buf g) k fs1 g1) as (Hm1 & Hg1 & Hk & Hpos & Hb); try done.
  { by apply (reader_ok_law content). }
  { rewrite (caller_buffer_law content). lia. }
  fold path in Hk, Hb. destruct IH as (Hm' & Hg' & Hout & Hpos'); [done|done|done|done|unfold bytes_at in Hk; lia|].
  assert (0 <= sum_Z ns) as Hns.
  { clear -Hseq. remember (fs1, g1) as st. clear Heqst.
    induction Hseq; simpl; [done|]. unfold sum_Z in *. simpl. lia. }
  rewrite Hpos in Hout, Hpos'. unfold bytes_at in *.
  split; [done|]. split; [done|]. rewrite Hb, take_beyond, Hout by lia.
  change (sum_Z (n :: ns)) with (n + sum_Z ns). rewrite slice_app by lia. split; [f_equal; lia|lia].
Qed.

(** C30: a positional read through the cache is a read of the file.  Whatever reader serves
    it, whatever the caches hold (as long as it is true), and also for files excluded from
    caching, [CacheFileSystem::Read] at a location delivers the bytes of the file from
    there, as many as were asked for or as there are, into the first bytes of the caller's
    buffer, and leaves the others alone; past the end of the file it delivers nothing.  It
    throws only what the internal filesystem, the allocator or the setup of the reader
    threw, and the metadata cache and the reader stay right in every case. *)
Theorem read_is_a_read_of_the_file clock ch nr_bytes location fs g res fs' g' :
  let path := GetPath (internal_file_handle ch) in
  metadata_ok fs -> reader_ok content g -> readable content path -> size_of path < 9223372036854775808 ->
  0 <= location < two64 -> 0 <= nr_bytes <= Z.of_nat (length (caller_buffer g)) ->
  ReadImpl excluded clock ch nr_bytes location (fs, g) res (fs', g') ->
  metadata_ok fs' /\ internal fs' = internal fs /\ reader_ok content g' /\
  match res with
  | Ok n => n = Z.max 0 (Z.min nr_bytes (size_of path - location)) /\
            caller_buffer g' = slice (content path) location n ++ drop (Z.to_nat n) (caller_buffer g)
  | Throw e => internal_error (internal fs) e \/ e = BadAlloc \/ cache_error content e
  end.
Proof. apply ReadImpl_ok. Qed.

(** C31: reads at the position of the handle deliver the file from there on.  Successive
    [Read]s of any sizes, each into a buffer of its own, deliver together the bytes from
    the position, each once and in order, up to the sum of the sizes or the end of the
    file, and leave the position after the last one. *)
Theorem reads_deliver_the_file_in_order ch ns fs g out fs' g' :
  let path := GetPath (internal_file_handle ch) in
  let position := SeekPosition ch fs in
  metadata_ok fs -> reader_ok content g -> readable content path -> size_of path < 9223372036854775808 ->
  0 <= position <= size_of path -> read_seq ch ns (fs, g) out (fs', g') ->
  let delivered := Z.max 0 (Z.min (sum_Z ns) (size_of path - position)) in
  out = slice (content path) position delivered /\ SeekPosition ch fs' = position + delivered.
Proof.
  intros path position Hm Hg Hread Hsize Hp Hseq.
  destruct (read_seq_ok ch ns (fs, g) out (fs', g') Hseq Hm Hg Hread Hsize Hp) as (_ & _ & Ho & Hpos). by split.
Qed.
End Reading.

(** ** Clearing a file *)
Section Clearing.
Context {X V : Type} `{InternalFileSystem X V} `{!InternalHandlesLaws X}.
Context `{SU : StringUtil} `{SL : !StringUtilLaws}.
Context {F : Type} `{FS : LocalFileSystem F} `{FL : !LocalFsLaws F}.
Context {S : Type} `{SS : InMemoryDataCacheStorage S} `{SLW : !StorageLaws S} {R : Type}.
Variables FILE_FLAGS_READ FILE_FLAGS_PARALLEL_ACCESS : N.
Variable sha256 : string -> list Z.
Implicit Types (fs : cache_fs X V) (i : instance_state F S R) (w : world X V F S R).

Import InstanceCacheReaderManager.

(** *** What clearing does to each cache *)
Definition keys_without {A} (path : string) (c c' : option (lru string A)) : Prop :=
  match c, c' with
  | Some c, Some c' => forall k v, lru_holds c' k v <-> lru_holds c k v /\ k <> path
  | None, None => True
  | _, _ => False
  end.

Definition blocks_without (path : string) (s s' : option S) : Prop :=
  match s, s' with
  | Some s, Some s' => forall k e, holds s' k e <-> holds s k e /\ fname k <> path
  | None, None => True
  | _, _ => False
  end.

(** The readers: both memory layers, when they exist. *)
Definition memory_of (m : reader_manager S) : option S := default None (in_mem_cache_reader m).
Definition disk_memory_of (m : reader_manager S) : option S := on_disk_cache_reader m ≫= dr_mem.

Record readers_forgot (path : string) (m m' : reader_manager S) : Prop := {
  forgot_memory : blocks_without path (memory_of m) (memory_of m');
  forgot_disk_memory : blocks_without path (disk_memory_of m) (disk_memory_of m');
  forgot_selected : internal_cache_reader m' = internal_cache_reader m
}.

(** The on-disk reader may fail to remove a cache file: its memory layer is then kept. *)
Record readers_partly (path : string) (m m' : reader_manager S) : Prop := {
  partly_memory : blocks_without path (memory_of m) (memory_of m');
  partly_disk_memory :
    disk_memory_of m' = disk_memory_of m \/ blocks_without path (disk_memory_of m) (disk_memory_of m');
  partly_selected : internal_cache_reader m' = internal_cache_reader m
}.

Definition readers_cleared (path : string) (r : Res unit) (m m' : reader_manager S) : Prop :=
  match r with
  | Ok _ => readers_forgot path m m'
  | Throw e => local_error F e /\ readers_partly path m m'
  end.

(** A filesystem that has forgotten a file: its metadata, the results of the glob, and the
    cached handles, which are closed; everything else it kept. *)
Record forgot (path : string) fs fs' : Prop := {
  forgot_metadata : keys_without path (metadata_cache fs) (metadata_cache fs');
  forgot_glob : keys_without path (glob_cache fs) (glob_cache fs');
  forgot_handles :
    current_handles (fs_handles fs') ≡ₚ filter (fun h => GetPath h <> path) (current_handles (fs_handles fs));
  forgot_closed :
    closed (fs_handles fs') ≡ₚ
      (handle_id <$> filter (fun h => GetPath h = path) (current_handles (fs_handles fs))) ++ closed (fs_handles fs)
}.

(** *** Invariants *)
Definition lru_ok {A} (c : option (lru string A)) : Prop := match c with None => True | Some c => lru_wf c end.

Record fs_ok fs : Prop := {
  fs_metadata : lru_ok (metadata_cache fs);
  fs_globs : lru_ok (glob_cache fs);
  fs_pool : exists pool, handles_ok FILE_FLAGS_READ FILE_FLAGS_PARALLEL_ACCESS (fs_handles fs) pool []
}.

Record readers_ok (m : reader_manager S) : Prop := {
  ok_memory : forall s, memory_of m = Some s -> storage_ok s;
  ok_disk_memory : forall s, disk_memory_of m = Some s -> storage_ok s;
  ok_index : forall r, on_disk_cache_reader m = Some r -> index_ok (dr_index r)
}.

Record world_ok w : Prop := {
  registered : forall a, a ∈ all_cache_fs w -> is_Some (w_fs w !! a);
  all_fs_ok : forall a fs, w_fs w !! a = Some fs -> fs_ok fs;
  instance_ok : readers_ok (i_readers (w_instance w))
}.

(** *** Lemmas *)
Lemma clear_key_ok {A} path (c : option (lru string A)) :
  lru_ok c -> lru_ok (clear_key path <$> c) /\ keys_without path c (clear_key path <$> c).
Proof.
  destruct c as [c|]; [|done]. simpl. intros Hw.
  destruct (Shared.ClearFrom_refines path (fun key => String.eqb key path) c Hw) as [Hw' Hv].
  - intros a _ ->%String.eqb_eq. apply less_irrefl.
  - intros a b _ _ Ha Hab ->%String.eqb_eq. apply String.eqb_eq.
    destruct (decide (a = path)) as [|Hn]; [done|]. unfold not_less in Hab.
    destruct (less_total _ _ Hn) as [Hl|Hl]; congruence.
  - split; [done|]. intros k v. unfold lru_holds, clear_key. rewrite Hv. unfold spec_clear.
    setoid_rewrite list_elem_of_filter. simpl. split.
    + intros (ts & Hk & Hin). split; [by exists ts|]. intros ->. by rewrite String.eqb_refl in Hk.
    + intros [[ts Hin] Hk]. exists ts. split; [|done]. by rewrite (proj2 (String.eqb_neq _ _)).
Qed.

Lemma blocks_without_trans path s1 s2 s3 :
  blocks_without path s1 s2 -> blocks_without path s2 s3 -> blocks_without path s1 s3.
Proof.
  destruct s1 as [s1|], s2 as [s2|], s3 as [s3|]; simpl; try done. intros H12 H23 k e. rewrite H23, H12. tauto.
Qed.

Lemma readers_forgot_trans path m1 m2 m3 :
  readers_forgot path m1 m2 -> readers_forgot path m2 m3 -> readers_forgot path m1 m3.
Proof.
  intros [A1 B1 C1] [A2 B2 C2]. constructor; [by eapply blocks_without_trans..|congruence].
Qed.

Lemma readers_cleared_trans path r m1 m2 m3 :
  readers_forgot path m1 m2 -> readers_cleared path r m2 m3 -> readers_cleared path r m1 m3.
Proof.
  destruct r as [[]|e]; simpl; [apply readers_forgot_trans|]. intros [A1 B1 C1] [He [A2 B2 C2]]. split; [done|].
  constructor; [by eapply blocks_without_trans| |congruence].
  right. destruct B2 as [->|B2]; [done|]. by eapply blocks_without_trans.
Qed.

Lemma clear_blocks_ok path (s : option S) :
  (forall s0, s = Some s0 -> storage_ok s0) ->
  let s' := ClearFrom (file_start_key path) (file_filter path) <$> s in
  (forall s0, s' = Some s0 -> storage_ok s0) /\ blocks_without path s s'.
Proof.
  destruct s as [s|]; simpl; intros Hok; [|done]. destruct (ClearFrom_law path s (Hok s eq_refl)) as [Hok' Hh].
  split; [by intros ? [= <-]|done].
Qed.

Lemma readers_clear_file config path m (f : F) :
  readers_ok m ->
  exists r m' f', ClearCacheFile sha256 config path m f = (r, m', f') /\ readers_ok m' /\ readers_cleared path r m m'.
Proof.
  intros [H1 H2 H3]. unfold ClearCacheFile, on_disk. cbn [on_disk_cache_reader set_in_mem].
  assert (default None (InMemReader.ClearCacheFile path <$> in_mem_cache_reader m) =
          ClearFrom (file_start_key path) (file_filter path) <$> memory_of m) as Hmem.
  { unfold memory_of. by destruct (in_mem_cache_reader m) as [[s|]|]. }
  destruct (clear_blocks_ok path (memory_of m) H1) as [Hok1 Hb1].
  destruct (on_disk_cache_reader m) as [r|] eqn:Hr.
  2:{ eexists _, _, _. split; [reflexivity|]. split; constructor; unfold memory_of, disk_memory_of; simpl;
        rewrite ?Hmem, ?Hr; done. }
  unfold DiskClearCacheFile. cbn [d_files d_index disk_view].
  destruct (remove_timestamps_ok (cache_files_to_remove sha256 config f path) (dr_index r) (H3 r eq_refl)) as (ix' & -> & Hix & _).
  assert (forall s, dr_mem r = Some s -> storage_ok s) as H2' by (intros s Hs; apply H2; unfold disk_memory_of; by rewrite Hr).
  destruct (clear_blocks_ok path (dr_mem r) H2') as [Hok2 Hb2].
  destruct (remove_files _ f) as [removed f'] eqn:Hrm. destruct (remove_files_ok _ _ _ _ Hrm) as (_ & _ & Hres).
  assert (forall s, default None (InMemReader.ClearCacheFile path <$> in_mem_cache_reader m) = Some s -> storage_ok s) as Hok1'
    by (intros s; rewrite Hmem; apply Hok1).
  assert (blocks_without path (memory_of m) (default None (InMemReader.ClearCacheFile path <$> in_mem_cache_reader m))) as Hb1'
    by (rewrite Hmem; exact Hb1).
  destruct removed as [[]|e]; (eexists _, _, _; split; [reflexivity|]; split;
    [constructor; [exact Hok1'|done|by intros ? [= <-]]|]).
  - constructor; [exact Hb1'| |done]. unfold disk_memory_of at 1. rewrite Hr. exact Hb2.
  - split; [done|]. constructor; [exact Hb1'| |done]. left. unfold disk_memory_of. by rewrite Hr.
Qed.

#[local] Abbreviation ClearOf := (ClearCacheOf FILE_FLAGS_PARALLEL_ACCESS sha256).

Lemma ClearCacheOf_ok path conn fs i :
  fs_ok fs -> readers_ok (i_readers i) ->
  exists r fs' i', ClearOf path conn (fs, i) = (r, (fs', i')) /\ fs_ok fs' /\ forgot path fs fs' /\
    readers_ok (i_readers i') /\ readers_cleared path r (i_readers i) (i_readers i') /\ i_registry i' = i_registry i.
Proof.
  intros [Hm Hg [pool Hp]] Hr.
  destruct (clear_key_ok path (metadata_cache fs) Hm) as [Hm' Hmf].
  destruct (clear_key_ok path (glob_cache fs) Hg) as [Hg' Hgf].
  destruct (ClearFileHandleCacheOf_ok _ _ path (fs_handles fs) pool [] Hp) as (hs & Ehs & Hp' & _ & _ & Hcl & Hcur).
  destruct (readers_clear_file (i_config i) path (i_readers i) (i_files i) Hr) as (r & m & f & Em & Hm0 & Hrf).
  set (fs1 := MkCacheFs hs (clear_key path <$> metadata_cache fs) (clear_key path <$> glob_cache fs)).
  set (fs2 := set_handles (record_profile conn (RecordOperation kFilePathCacheClear) hs).2 fs1).
  exists r, fs2, (with_readers i m f). split; [|split; [|split; [|by split; [|split]]]].
  - unfold ClearCacheOf, guarded_op, mbind, Handler_bind, in_fs, in_instance, in_handles, on_readers, zoom. simpl.
    rewrite Ehs. simpl. rewrite Em. done.
  - constructor; [done|done|]. exists pool. by eapply handles_ok_frame; [..|exact Hp'].
  - constructor; [done|done|exact Hcur|exact Hcl].
Qed.

(** *** All the filesystems of the instance *)
Lemma forgot_elsewhere w fs' i' address m (r : Res unit) fs :
  w_fs w !! address = Some fs -> m (fs, w_instance w) = (r, (fs', i')) ->
  at_fs address m w = (r, MkWorld (<[address := fs']> (w_fs w)) i').
Proof. intros Hf Hm. unfold at_fs. by rewrite Hf, Hm. Qed.

(** What a loop over the registered filesystems does to all of them: each has forgotten the
    file, or the loop has thrown and some of them have not been reached. *)
Definition cleared_fs (addresses : list nat) (path : string) (r : Res unit) w w' : Prop :=
  forall a, match w_fs w !! a, w_fs w' !! a with
            | Some fs, Some fs' =>
                if decide (a ∈ addresses) then forgot path fs fs' \/ r <> Ok tt /\ fs' = fs else fs' = fs
            | None, None => True
            | _, _ => False
            end.

Lemma cleared_fs_cons a addresses path r fs fs' i w w' :
  a ∉ addresses -> w_fs w !! a = Some fs -> forgot path fs fs' ->
  cleared_fs addresses path r (MkWorld (<[a := fs']> (w_fs w)) i) w' -> cleared_fs (a :: addresses) path r w w'.
Proof.
  intros Ha Hfs Hforg Hc b. specialize (Hc b). simpl in Hc. destruct (decide (a = b)) as [<-|Hn].
  - rewrite lookup_insert_eq in Hc. rewrite Hfs. destruct (w_fs w' !! a) as [fs2|]; [|done].
    rewrite decide_False in Hc by done. subst fs2. rewrite decide_True by constructor. by left.
  - rewrite lookup_insert_ne in Hc by done. destruct (w_fs w !! b) as [fsb|], (w_fs w' !! b) as [fsb'|]; try done.
    destruct (decide (b ∈ addresses)) as [Hb|Hb].
    + by rewrite decide_True by (by right).
    + rewrite decide_False; [done|]. intros [->|]%elem_of_cons; done.
Qed.

Lemma cleared_fs_none addresses path r w i : addresses = [] \/ r <> Ok tt -> cleared_fs addresses path r w (MkWorld (w_fs w) i).
Proof.
  intros Hr a. simpl. destruct (w_fs w !! a); [|done]. destruct (decide (a ∈ addresses)) as [Hin|]; [|done].
  destruct Hr as [->|Hr]; [by apply elem_of_nil in Hin|]. by right.
Qed.

Lemma for_each_clear path conn addresses w :
  NoDup addresses -> (forall a, a ∈ addresses -> is_Some (w_fs w !! a)) ->
  (forall a fs, w_fs w !! a = Some fs -> fs_ok fs) -> readers_ok (i_readers (w_instance w)) ->
  exists r w', for_each_fs addresses (ClearOf path conn) w = (r, w') /\
    (forall a fs, w_fs w' !! a = Some fs -> fs_ok fs) /\ readers_ok (i_readers (w_instance w')) /\
    i_registry (w_instance w') = i_registry (w_instance w) /\
    (r = Ok tt /\ i_readers (w_instance w') = i_readers (w_instance w) \/
     readers_cleared path r (i_readers (w_instance w)) (i_readers (w_instance w'))) /\
    cleared_fs addresses path r w w'.
Proof.
  intros Hnd. revert w. induction Hnd as [|a addresses Ha Hnd IH]; intros w Hreg Hall Hr; cbn [for_each_fs].
  { exists (Ok tt), w. do 4 (split; [done|]). split; [by left|]. destruct w. apply cleared_fs_none. by left. }
  destruct (Hreg a) as [fs Hfs]; [constructor|].
  destruct (ClearCacheOf_ok path conn fs (w_instance w) (Hall _ _ Hfs) Hr) as (r & fs' & i' & E & Hok & Hforg & Hr' & Hrf & Hri).
  pose proof (forgot_elsewhere w fs' i' a _ _ fs Hfs E) as Hat.
  set (w1 := MkWorld (<[a := fs']> (w_fs w)) i') in *.
  assert (forall b fsb, w_fs w1 !! b = Some fsb -> fs_ok fsb) as Hall1.
  { intros b fsb. simpl. destruct (decide (a = b)) as [->|Hn]; [rewrite lookup_insert_eq; by intros [= <-]|].
    rewrite lookup_insert_ne by done. apply Hall. }
  destruct r as [[]|e].
  - rewrite (handler_ok _ _ _ _ _ Hat).
    destruct (IH w1) as (r & w' & Ew & Hall' & Hr'' & Hri' & Hrf' & Hfss); [|done|done|].
    + intros b Hb. simpl. destruct (decide (a = b)) as [->|Hn]; [by rewrite lookup_insert_eq|].
      rewrite lookup_insert_ne by done. apply Hreg. by right.
    + exists r, w'. split; [exact Ew|]. split; [done|]. split; [done|]. split; [by rewrite Hri'|]. split.
      * right. destruct Hrf' as [[-> Hsame]|Hrf']; [by rewrite Hsame|]. by eapply readers_cleared_trans.
      * by eapply cleared_fs_cons.
  - rewrite (handler_throw _ _ _ _ _ Hat). exists (Throw e), w1. do 4 (split; [done|]). split; [by right|].
    eapply (cleared_fs_cons a addresses path (Throw e) fs fs' i'); [done..|]. apply cleared_fs_none. by right.
Qed.

(** C33: clearing a file makes the instance forget it.  [cache_httpfs_clear_cache_for_file]
    throws only what the local filesystem throws when it refuses to remove a cache file.
    Otherwise no registered filesystem of the instance has metadata, a glob result or an
    open handle cached for the path, its cached handles are closed, and neither the
    in-memory reader nor the memory layer of the disk reader can answer with a block of it.
    When it throws, the in-memory reader has forgotten the file, and every registered
    filesystem has forgotten it or is as it was.  In both cases everything cached for other
    paths, and every filesystem that is not registered, is as before. *)
Theorem cleared_file_is_forgotten path conn w :
  world_ok w ->
  exists r w', ClearCacheForFile FILE_FLAGS_PARALLEL_ACCESS sha256 path conn w = (r, w') /\ world_ok w' /\
    match r with
    | Ok _ => readers_forgot path (i_readers (w_instance w)) (i_readers (w_instance w'))
    | Throw e => local_error F e /\ readers_partly path (i_readers (w_instance w)) (i_readers (w_instance w'))
    end /\
    forall a, match w_fs w !! a, w_fs w' !! a with
              | Some fs, Some fs' =>
                  if decide (a ∈ all_cache_fs w) then forgot path fs fs' \/ r <> Ok tt /\ fs' = fs else fs' = fs
              | None, None => True
              | _, _ => False
              end.
Proof.
  intros [Hreg Hall Hr].
  destruct (readers_clear_file (i_config (w_instance w)) path (i_readers (w_instance w)) (i_files (w_instance w)) Hr)
    as (r & m & f & Em & Hm & Hmf).
  set (w1 := MkWorld (w_fs w) (with_readers (w_instance w) m f)).
  assert (in_world (on_readers (fun config => ClearCacheFile sha256 config path)) w = (r, w1)) as Hfirst.
  { unfold in_world, zoom, on_readers. by rewrite Em. }
  unfold ClearCacheForFile. destruct r as [[]|e].
  - rewrite (handler_ok _ _ _ _ _ Hfirst).
    destruct (for_each_clear path conn (all_cache_fs w) w1) as (r & w' & Ew & Hall' & Hr' & Hri & Hrf & Hfss);
      [apply NoDup_elements|done|done|done|].
    exists r, w'. split; [exact Ew|]. split; [|split; [|exact Hfss]].
    + constructor; [|done|done]. intros a Ha. specialize (Hfss a). unfold all_cache_fs in Ha. rewrite Hri in Ha.
      destruct (Hreg a Ha) as [fs Hfs]. simpl in Hfss. rewrite Hfs in Hfss. destruct (w_fs w' !! a); [eauto|done].
    + destruct Hrf as [[-> Hsame]|Hrf]; [by rewrite Hsame|]. by eapply (readers_cleared_trans path r).
  - rewrite (handler_throw _ _ _ _ _ Hfirst). exists (Throw e), w1. split; [done|]. split; [by constructor|].
    split; [exact Hmf|]. apply (cleared_fs_none _ path (Throw e)). by right.
Qed.
End Clearing.

(** ** Witnesses

    A filesystem in which every file has the content of the sample file, and whose state is
    the position of its handles. *)
#[export] Instance sample_internal : InternalFileSystem nat unit := {
  fs_name x := match x with
               | 1 => "HTTPFileSystem"
               | 2 => "HuggingFaceFileSystem"
               | 3 => "S3FileSystem"
               | _ => "SampleFileSystem"
               end%nat;
  fs_can_handle _ _ := true;
  fs_version_tag _ _ := "";
  fs_stats _ _ := Throw IOException;
  fs_file_size _ _ := Ok 10;
  fs_last_modified _ _ := Ok 0;
  fs_read _ nr loc _ := sample_remote nr loc;
  fs_write_at _ _ _ x := (Ok tt, x);
  fs_write _ bytes x := (Ok (Z.of_nat (length bytes)), x);
  fs_sync _ x := (Ok tt, x);
  fs_seek _ p _ := Z.to_nat p;
  fs_seek_position _ x := Z.of_nat x;
  fs_on_disk _ _ := false;
  fs_glob _ _ := Ok [];
  fs_remove _ x := (Ok tt, x);
  fs_try_remove _ x := (Ok true, x);
  fs_remove_files _ x := (Ok tt, x)
}.

Definition sample_text (path : string) : list byte := sample_file.

#[export] Instance sample_internal_content : InternalContent nat unit sample_text.
Proof.
  constructor.
  - done.
  - by intros h x n [= <-].
  - by intros h nr loc x bytes _ _ _ [= <-].
  - intros h p x Hp. simpl. lia.
Qed.

Definition sample_fs : cache_fs nat unit := MkCacheFs (new_handles 0%nat) (Some (new_lru 8 0)) (Some (new_lru 8 0)).
Definition sample_ch : CacheFileSystemHandle := MkCacheHandle (MkHandle 0 "f" 1) None 7.
Definition nothing_excluded (_ : string) : bool := false.
Definition sample_clock (_ : nat) : Z := 0.

(** Five bytes from 3, into a buffer of seven, through the in-memory reader. *)
Definition sample_caller : shared ExtensionBoundedDataCacheStorage.storage :=
  with_buffer sample_start (replicate 7 x00).
Definition sample_after_read : shared ExtensionBoundedDataCacheStorage.storage :=
  with_buffer sample_end (buffer sample_end ++ [x00; x00]).

#[local] Instance sample_memory_reader : BaseCacheReader (shared ExtensionBoundedDataCacheStorage.storage) :=
  in_memory_reader 16 sample_allocator sample_config ∅ (fun _ _ => False).

#[local] Instance sample_memory_laws : CacheReaderLaws sample_text (shared ExtensionBoundedDataCacheStorage.storage) :=
  in_memory_reader_laws 16 sample_allocator sample_config ∅ (fun _ _ => False) sample_text eq_refl eq_refl
    (map_Forall_empty _) (fun _ _ f => False_ind _ f).

Lemma read_is_a_read_of_the_file_witness :
  caller_buffer sample_after_read = [x64; x65; x66; x67; x68; x00; x00].
Proof.
  destruct (read_is_a_read_of_the_file sample_text nothing_excluded sample_clock sample_ch 5 3 sample_fs sample_caller
    (Ok 5) (GetFileSize sample_clock sample_ch sample_fs).2 sample_after_read) as (_ & _ & _ & _ & Hb).
  - split; [apply new_lru_ok|]. intros k v [ts Hin]. vm_compute in Hin. by apply elem_of_nil in Hin.
  - apply sample_start_ok.
  - split; vm_compute; reflexivity.
  - vm_compute. reflexivity.
  - lia.
  - simpl. lia.
  - exists (Ok tt), sample_end. split; [apply sample_read|]. split; reflexivity.
  - rewrite Hb. vm_compute. reflexivity.
Defined.

(** Reads of four and of eight bytes from the start of the file, without a cache. *)
#[local] Instance sample_noop : BaseCacheReader NoopCacheReader.noop_state :=
  NoopCacheReader.noop_reader (fun q => q) default_config.
#[local] Instance sample_noop_laws : CacheReaderLaws sample_text NoopCacheReader.noop_state :=
  NoopCacheReader.noop_reader_laws (fun q => q) default_config sample_text.

Definition noop_start : NoopCacheReader.noop_state := NoopCacheReader.MkNoop [] [] 0.
(** What a read of the sample file leaves behind. *)
Definition noop_read (nr : Z) (st : cache_fs nat unit * NoopCacheReader.noop_state) :=
  let g := with_caller_buffer (replicate (Z.to_nat nr) x00) st.2 in
  let position := SeekPosition sample_ch st.1 in
  let fs := (GetFileSize sample_clock sample_ch st.1).2 in
  let n := Z.min nr (10 - position) in
  let '(_, g') := NoopCacheReader.ReadAndCache (fun q => q) default_config (view_of (internal_file_handle sample_ch) fs) position n
                    (with_caller_buffer (take (Z.to_nat n) (caller_buffer g)) g) in
  ((Seek sample_ch (position +u n) fs).2, with_caller_buffer (caller_buffer g' ++ beyond n g) g').

Lemma reads_deliver_the_file_in_order_witness :
  exists fs' g', read_seq nothing_excluded sample_ch [4; 8] (sample_fs, noop_start) sample_file (fs', g') /\
    SeekPosition sample_ch fs' = 10.
Proof.
  set (mid := noop_read 4 (sample_fs, noop_start)). set (last := noop_read 8 mid).
  assert (read_seq nothing_excluded sample_ch [4; 8] (sample_fs, noop_start) sample_file last) as Hseq.
  { replace sample_file with (take (Z.to_nat 4) (caller_buffer mid.2) ++ take (Z.to_nat 6) (caller_buffer last.2) ++ [])
      by (vm_compute; reflexivity).
    apply (read_seq_cons nothing_excluded sample_ch sample_clock (replicate 4 x00) 4 [8] sample_fs noop_start 4 mid.1 mid.2);
      [reflexivity| |].
    { exists (Ok 4), ((GetFileSize sample_clock sample_ch sample_fs).2, mid.2). split; [|split; vm_compute; reflexivity].
      exists (Ok tt). eexists. split; [vm_compute; reflexivity|]. split; vm_compute; reflexivity. }
    apply (read_seq_cons nothing_excluded sample_ch sample_clock (replicate 8 x00) 8 [] mid.1 mid.2 6 last.1 last.2 []);
      [reflexivity| |apply read_seq_nil].
    exists (Ok 6), ((GetFileSize sample_clock sample_ch mid.1).2, last.2). split; [|split; vm_compute; reflexivity].
    exists (Ok tt). eexists. split; [vm_compute; reflexivity|]. split; vm_compute; reflexivity. }
  exists last.1, last.2. split; [exact Hseq|].
  destruct (reads_deliver_the_file_in_order sample_text nothing_excluded sample_ch [4; 8] sample_fs noop_start sample_file
    last.1 last.2) as [_ Hpos]; [..|exact Hpos].
  - split; [apply new_lru_ok|]. intros k v [ts Hin]. vm_compute in Hin. by apply elem_of_nil in Hin.
  - exact I.
  - exact I.
  - vm_compute. reflexivity.
  - vm_compute. split; discriminate.
  - exact Hseq.
Defined.

(** An instance with one registered filesystem, which has metadata, a glob result and a
    cached handle of "f" and of "g", and with the blocks of [sample_end] in memory. *)
Definition two_handles : handle_state nat :=
  (handle_run (X := nat) 1 256 [OpConfigure true 4 0; OpOpen 0 "f" 1 7; OpOpen 1 "g" 1 7; OpDestroy 2 0; OpDestroy 3 0]%string%N
     (new_handles 0%nat, [])).2.1.
Definition two_keys {A} (v : A) : lru string A :=
  SharedValueLruCache.Put 1 "g"%string v (SharedValueLruCache.Put 0 "f"%string v (new_lru 8 0)).
Definition full_fs : cache_fs nat unit := MkCacheFs two_handles (Some (two_keys (MkMetadata 10 0))) (Some (two_keys [])).
Definition full_world : world nat unit disk ExtensionBoundedDataCacheStorage.storage unit :=
  MkWorld {[5%nat := full_fs]} (with_registry (new_instance sample_readers) {[5%nat]}).

Lemma two_keys_ok {A} (v : A) : lru_ok (Some (two_keys v)).
Proof. apply Shared.Put_refines, Shared.Put_refines, new_lru_ok. Qed.

Lemma full_world_ok : world_ok 1 256 full_world.
Proof.
  constructor.
  - intros a Ha. vm_compute in Ha. apply list_elem_of_singleton in Ha as ->. simpl. rewrite lookup_singleton_eq. eauto.
  - intros a fs Ha. cbn [w_fs full_world] in Ha. apply lookup_singleton_Some in Ha as [<- <-]. constructor; [apply two_keys_ok..|].
    exists []. pose proof (handle_run_ok (X := nat) 1 256
      [OpConfigure true 4 0; OpOpen 0 "f" 1 7; OpOpen 1 "g" 1 7; OpDestroy 2 0; OpDestroy 3 0]%string%N
      (new_handles 0%nat) [] sample_writes_open (new_handles_ok 1 256 0%nat)) as Hrun.
    unfold full_fs, two_handles. cbn [fs_handles]. destruct (handle_run _ _ _ _) as [rs [st pool]] eqn:Hr.
    destruct Hrun as [Hok _]; [vm_compute; done|]. simpl.
    assert (pool = []) as ->; [|exact Hok].
    assert (pool = (rs, (st, pool)).2.2) as -> by done. rewrite <-Hr. vm_compute. reflexivity.
  - constructor; simpl; try done. unfold memory_of. simpl. intros s [= <-]. apply sample_end_truthful.
Qed.

Lemma cleared_file_is_forgotten_witness :
  exists w', ClearCacheForFile 256 plain_digest "f" 7 full_world = (Ok tt, w') /\
    readers_forgot "f" (i_readers (w_instance full_world)) (i_readers (w_instance w')).
Proof.
  destruct (cleared_file_is_forgotten 1 256 plain_digest "f" 7 full_world full_world_ok) as (r & w' & E & _ & Hr & _).
  destruct r as [[]|e]; [exact (ex_intro _ w' (conj E Hr))|]. destruct Hr as [He _]. destruct (disk_no_error e He).
Defined.

(** What is left: the key, the result and the handle of "g". *)
Example full_world_cleared :
  let w' := (ClearCacheForFile 256 plain_digest "f" 7 full_world).2 in
  (fun fs => (SharedValueLruCache.Keys <$> metadata_cache fs, SharedValueLruCache.Keys <$> glob_cache fs,
              GetPath <$> current_handles (fs_handles fs), closed (fs_handles fs))) <$> w_fs w' !! 5%nat
  = Some (Some ["g"%string], Some ["g"%string], ["g"%string], [0%nat]) /\
  Keys <$> memory_of (i_readers (w_instance w')) = Some [].
Proof. vm_compute. done. Qed.

(** ** Observations *)
Section Observations.
Context {X V : Type} `{InternalFileSystem X V}.
Context `{StringUtil} {F : Type} `{LocalFileSystem F} {S : Type} `{InMemoryDataCacheStorage S} {R : Type}.
Implicit Types (i : instance_state F S R) (fs : cache_fs X V).

(** A profile type that no collector has makes every open fail, before any file is looked
    at; and such a type stays in the settings ([Settings.profile_type_kept_after_failure]). *)
Lemma unknown_profile_type_blocks_opens READ PARALLEL INVALID sha256 now path flags opener fs i e :
  InstanceProfileCollectorManager.SetProfileCollector (GetConnectionIdOf INVALID opener) (profile_type (i_config i)) (i_profiles i)
    = Throw e ->
  OpenFileExtended READ PARALLEL INVALID sha256 now path flags opener (fs, i) = (Throw e, (fs, i)).
Proof.
  intros E. unfold OpenFileExtended, InitializeGlobalConfig. unfold mbind, Handler_bind, gets, in_instance, zoom, config_of. simpl.
  by rewrite E.
Qed.

(** Clearing a file does not touch the cache directories while no disk reader exists. *)
Lemma cache_files_survive_without_reader sha256 config path (m : InstanceCacheReaderManager.reader_manager S) (f : F) :
  InstanceCacheReaderManager.on_disk_cache_reader m = None ->
  (InstanceCacheReaderManager.ClearCacheFile sha256 config path m f).2 = f.
Proof. intros E. unfold InstanceCacheReaderManager.ClearCacheFile, InstanceCacheReaderManager.on_disk. simpl. by rewrite E. Qed.

(** A write leaves the metadata cached for the file as it was. *)
Lemma write_keeps_metadata ch bytes location fs : metadata_cache (WriteAt ch bytes location fs).2 = metadata_cache fs.
Proof.
  unfold WriteAt, guarded, mbind, Handler_bind, on_internal, in_handles, zoom.
  by destruct (fs_write_at (internal_file_handle ch) bytes location (internal fs)) as [[]].
Qed.
End Observations.
