(* ===== verification/ClearProofs.v ===== *)
(** * ClearProofs

    [ClearAllCache] of [src/src/cache_httpfs_extension.cpp] empties every cache of the
    instance: the cache directories, the memory layers of both readers, and the caches of every
    registered filesystem. *)
From S2P Require Import Prelude StringUtil Blocks DataStorage LruCache LruSpec LruProofs IoOperations InMemReader LocalFs AccessIndex.
From S2P Require Import ExtensionStorage SingleFlight InstanceConfig DiskReader DiskReaderProofs DiskMaintenance Handler InstanceState HandleCache HandleCacheProofs CacheFs CacheFsProofs.

#[local] Open Scope Z_scope.

(** ** The filesystem refused to recreate a cache directory *)
Section Refused.
Context {F : Type} `{FS : LocalFileSystem F} `{FL : !LocalFsLaws F}.
Implicit Types (f : F) (dirs : list string).

Definition refused dirs (e : exn) : Prop := exists dir f, dir ∈ dirs /\
  ((fs_remove_directory dir f).1 = Throw e \/ (fs_create_directory dir f).1 = Throw e).

(** Nothing is in [f'] that was not in [f]. *)
Definition no_new_files f f' : Prop := forall q n, node f' q = Some n -> node f q = Some n.

Definition directories_empty dirs f : Prop := forall dir q, dir ∈ dirs -> in_directory dir q -> node f q = None.

Lemma no_new_files_trans f1 f2 f3 : no_new_files f1 f2 -> no_new_files f2 f3 -> no_new_files f1 f3.
Proof. intros H1 H2 q n Hq. by apply H1, H2. Qed.

Lemma directories_stay_empty dirs f f' : directories_empty dirs f -> no_new_files f f' -> directories_empty dirs f'.
Proof.
  intros Hd Hs dir q Hin Hq. destruct (node f' q) as [n|] eqn:Hn; [|done]. apply Hs in Hn. by rewrite (Hd dir q Hin Hq) in Hn.
Qed.

Lemma recreate_cases dirs f r f' :
  recreate_directories dirs f = (r, f') ->
  no_new_files f f' /\ match r with Ok _ => directories_empty dirs f' | Throw e => refused dirs e end.
Proof.
  intros Hr. destruct r as [[]|e]; [by apply recreate_ok in Hr|].
  revert f Hr. induction dirs as [|d dirs IH]; intros f; simpl; [done|].
  destruct (fs_remove_directory d f) as [[[]|e1] f1] eqn:H1.
  - destruct (remove_directory_law _ _ _ _ H1) as (_ & _ & Hs).
    destruct (fs_create_directory d f1) as [[[]|e2] f2] eqn:H2; pose proof (create_directory_law _ _ _ _ H2) as Hc.
    + intros Hr. destruct (IH _ Hr) as [Hn (dir & g & Hd & Hg)]. split.
      * intros q n Hq. apply Hs. rewrite <-Hc. by apply Hn.
      * exists dir, g. split; [by right|done].
    + intros [= -> ->]. split; [intros q n Hq; apply Hs; by rewrite <-Hc|]. exists d, f1. split; [by left|]. right. by rewrite H2.
  - intros [= -> ->]. destruct (remove_directory_law _ _ _ _ H1) as (_ & _ & Hs). split; [done|].
    exists d, f. split; [by left|]. left. by rewrite H1.
Qed.
End Refused.

Section ClearAll.
Context {X V : Type} `{InternalFileSystem X V} `{!InternalHandlesLaws X}.
Context `{SU : StringUtil} `{SL : !StringUtilLaws}.
Context {F : Type} `{FS : LocalFileSystem F} `{FL : !LocalFsLaws F}.
Context {S : Type} `{SS : InMemoryDataCacheStorage S} `{SLW : !StorageLaws S} {R : Type}.
Variables FILE_FLAGS_READ FILE_FLAGS_PARALLEL_ACCESS : N.
Implicit Types (fs : cache_fs X V) (i : instance_state F S R) (w : world X V F S R).

Import InstanceCacheReaderManager.

#[local] Abbreviation fs_ok := (fs_ok FILE_FLAGS_READ FILE_FLAGS_PARALLEL_ACCESS).
#[local] Abbreviation world_ok := (world_ok FILE_FLAGS_READ FILE_FLAGS_PARALLEL_ACCESS).

(** ** Empty caches *)
Definition blocks_empty (s : option S) : Prop := forall s0 k e, s = Some s0 -> ~ holds s0 k e.
Definition keys_empty {A} (c : option (lru string A)) : Prop := forall l k v, c = Some l -> ~ lru_holds l k v.

Record readers_emptied (m : reader_manager S) : Prop := {
  emptied_memory : blocks_empty (memory_of m);
  emptied_disk_memory : blocks_empty (disk_memory_of m);
  emptied_index : forall r, on_disk_cache_reader m = Some r -> recency (dr_index r) = []
}.

Record emptied fs fs' : Prop := {
  emptied_metadata : keys_empty (metadata_cache fs');
  emptied_glob : keys_empty (glob_cache fs');
  emptied_handles : current_handles (fs_handles fs') = [];
  emptied_closed : closed (fs_handles fs') ≡ₚ (handle_id <$> current_handles (fs_handles fs)) ++ closed (fs_handles fs)
}.

(** ** The readers *)
Lemma cleared_blocks (s : option S) :
  (forall s0, s = Some s0 -> storage_ok s0) ->
  (forall s0, Clear <$> s = Some s0 -> storage_ok s0) /\ blocks_empty (Clear <$> s).
Proof.
  destruct s as [s|]; simpl; intros Hok; [|done]. destruct (Clear_law s (Hok s eq_refl)) as [H1 H2].
  split; [by intros ? [= <-]|]. intros s0 k e [= <-]. apply H2.
Qed.

Lemma readers_clear config m f r m' f' :
  readers_ok m -> InstanceCacheReaderManager.ClearCache config m f = (r, m', f') ->
  readers_ok m' /\ internal_cache_reader m' = internal_cache_reader m /\ no_new_files f f' /\
  match r with Ok _ => readers_emptied m' | Throw e => refused (F := F) (on_disk_cache_directories config) e end.
Proof.
  intros [H1 H2 H3]. unfold InstanceCacheReaderManager.ClearCache, on_disk. cbn [on_disk_cache_reader set_in_mem].
  assert (default None (InMemReader.ClearCache <$> in_mem_cache_reader m) = Clear <$> memory_of m) as Hmem.
  { unfold memory_of. by destruct (in_mem_cache_reader m) as [[s|]|]. }
  destruct (cleared_blocks (memory_of m) H1) as [Hok1 He1].
  destruct (on_disk_cache_reader m) as [d|] eqn:Hd.
  2: { intros [= <- <- <-]. split; [|split; [done|split; [by intros q n|]]]; constructor; unfold memory_of, disk_memory_of; simpl.
       - by rewrite Hmem.
       - by rewrite Hd.
       - by rewrite Hd.
       - by rewrite Hmem.
       - by rewrite Hd.
       - by rewrite Hd. }
  unfold DiskClearCache. cbn [d_files disk_view].
  destruct (recreate_directories (on_disk_cache_directories config) f) as [rd f1] eqn:Hrec.
  destruct (recreate_cases _ _ _ _ Hrec) as [Hn Hr].
  assert (forall s, dr_mem d = Some s -> storage_ok s) as H2' by (intros s Hs; apply H2; unfold disk_memory_of; by rewrite Hd).
  destruct (cleared_blocks (dr_mem d) H2') as [Hok2 He2].
  destruct rd as [[]|e]; intros [= <- <- <-]; (split; [|split; [done|split; [done|]]]).
  - constructor; unfold memory_of, disk_memory_of; simpl; [by rewrite Hmem|done|]. intros r' [= <-]. apply index_ok_empty.
  - constructor; unfold memory_of, disk_memory_of; simpl; [by rewrite Hmem|done|]. by intros r' [= <-].
  - constructor; unfold memory_of, disk_memory_of; simpl; [by rewrite Hmem|done|]. intros r' [= <-]. simpl. by apply (H3 d).
  - done.
Qed.

(** ** One filesystem *)
Lemma cleared_keys_empty {A} (c : option (lru string A)) :
  lru_ok c -> lru_ok (SharedValueLruCache.Clear <$> c) /\ keys_empty (SharedValueLruCache.Clear <$> c).
Proof.
  destruct c as [c|]; [|done]. intros Hw. destruct (clear_ok c) as [H1 H2]. split; [exact H1|].
  intros l k v [= <-] [ts Hin]. unfold SharedValueLruCache.Clear in Hin. rewrite H2 in Hin. by apply elem_of_nil in Hin.
Qed.

(** What clearing leaves of the instance. *)
Record instance_cleared (r : Res unit) i i' : Prop := {
  cleared_readers_ok : readers_ok (i_readers i');
  cleared_selected : internal_cache_reader (i_readers i') = internal_cache_reader (i_readers i);
  cleared_config : i_config i' = i_config i;
  cleared_registry : i_registry i' = i_registry i;
  cleared_profiles : i_profiles i' = i_profiles i;
  cleared_files : no_new_files (i_files i) (i_files i');
  cleared_result : match r with
                   | Ok _ => readers_emptied (i_readers i')
                   | Throw e => refused (F := F) (on_disk_cache_directories (i_config i)) e
                   end
}.

Lemma on_readers_clear i r i' :
  readers_ok (i_readers i) -> on_readers InstanceCacheReaderManager.ClearCache i = (r, i') -> instance_cleared r i i'.
Proof.
  intros Hok. unfold on_readers.
  destruct (InstanceCacheReaderManager.ClearCache (i_config i) (i_readers i) (i_files i)) as [[r0 m] f] eqn:E. intros [= <- <-].
  destruct (readers_clear _ _ _ _ _ _ Hok E) as (H1 & H2 & H3 & H4). by constructor.
Qed.

Lemma ClearCache_ok fs i r fs' i' :
  fs_ok fs -> readers_ok (i_readers i) -> CacheFs.ClearCache (fs, i) = (r, (fs', i')) ->
  fs_ok fs' /\ emptied fs fs' /\ instance_cleared r i i'.
Proof.
  intros [Hm Hg [pool Hp]] Hr.
  destruct (cleared_keys_empty (metadata_cache fs) Hm) as [Hm' Hme].
  destruct (cleared_keys_empty (glob_cache fs) Hg) as [Hg' Hge].
  destruct (ClearFileHandleCache_ok _ _ (fs_handles fs) pool [] Hp) as (hs & Ehs & Hp' & _ & Hf & Hcl).
  unfold CacheFs.ClearCache, mbind, Handler_bind, in_fs, in_instance, in_handles, zoom. simpl. rewrite Ehs. simpl.
  destruct (on_readers InstanceCacheReaderManager.ClearCache i) as [r0 i0] eqn:E. intros [= <- <- <-].
  split; [|split; [|by apply on_readers_clear]].
  - constructor; [done|done|]. by exists pool.
  - constructor; [done|done| |exact Hcl]. unfold current_handles. simpl. by rewrite Hf.
Qed.

(** ** All the filesystems *)
Lemma for_each_emptied addresses w r w' :
  NoDup addresses -> (forall a, a ∈ addresses -> is_Some (w_fs w !! a)) ->
  (forall a fs, w_fs w !! a = Some fs -> fs_ok fs) -> readers_ok (i_readers (w_instance w)) ->
  for_each_fs addresses CacheFs.ClearCache w = (r, w') ->
  (forall a fs, w_fs w' !! a = Some fs -> fs_ok fs) /\ (forall a, is_Some (w_fs w !! a) <-> is_Some (w_fs w' !! a)) /\
  (readers_emptied (i_readers (w_instance w)) -> instance_cleared r (w_instance w) (w_instance w')) /\
  (r = Ok tt -> forall a fs fs', w_fs w !! a = Some fs -> w_fs w' !! a = Some fs' ->
     if decide (a ∈ addresses) then emptied fs fs' else fs' = fs).
Proof.
  intros Hnd. revert w. induction Hnd as [|a addresses Ha Hnd IH]; intros w Hreg Hall Hr; cbn [for_each_fs].
  { intros [= <- <-]. split; [done|]. split; [done|]. split.
    - intros He. constructor; try done. by intros q n.
    - intros _ a fs fs' H1 H2. rewrite decide_False by apply not_elem_of_nil. congruence. }
  destruct (Hreg a) as [fs Hfs]; [constructor|]. unfold mbind, Handler_bind, at_fs. rewrite Hfs.
  destruct (CacheFs.ClearCache (fs, w_instance w)) as [r1 [fs1 i1]] eqn:E1.
  destruct (ClearCache_ok fs (w_instance w) r1 fs1 i1 (Hall _ _ Hfs) Hr E1) as (Hok1 & He1 & Hi1).
  set (w1 := MkWorld (<[a := fs1]> (w_fs w)) i1).
  assert (forall b fsb, w_fs w1 !! b = Some fsb -> fs_ok fsb) as Hall1.
  { intros b fsb. simpl. destruct (decide (a = b)) as [->|Hn]; [rewrite lookup_insert_eq; by intros [= <-]|].
    rewrite lookup_insert_ne by done. apply Hall. }
  assert (forall b, is_Some (w_fs w !! b) <-> is_Some (w_fs w1 !! b)) as Hdom1.
  { intros b. simpl. destruct (decide (a = b)) as [<-|Hn]; [rewrite lookup_insert_eq, Hfs; split; eauto|].
    by rewrite lookup_insert_ne. }
  destruct r1 as [[]|e].
  - intros Hrest. destruct (IH w1) as (Hall' & Hdom' & Hi' & Hfs'); [|done|apply (cleared_readers_ok _ _ _ Hi1)|exact Hrest|].
    { intros b Hb. apply Hdom1, Hreg. by right. }
    split; [done|]. split; [intros b; by rewrite Hdom1|]. split.
    + intros _. destruct Hi1 as [A1 A2 A3 A4 A5 A6 A7]. destruct (Hi' A7) as [B1 B2 B3 B4 B5 B6 B7]. simpl in *.
      constructor; try congruence; [by eapply no_new_files_trans|]. destruct r; [done|]. by rewrite A3 in B7.
    + intros -> b fsb fsb' Hb Hb'. specialize (Hfs' eq_refl b). simpl in Hfs'. destruct (decide (a = b)) as [<-|Hn].
      * rewrite lookup_insert_eq in Hfs'. specialize (Hfs' fs1 fsb' eq_refl Hb'). rewrite decide_False in Hfs' by done.
        rewrite decide_True by constructor. congruence.
      * rewrite lookup_insert_ne in Hfs' by done. specialize (Hfs' fsb fsb' Hb Hb').
        destruct (decide (b ∈ addresses)) as [Hin|Hin]; [by rewrite decide_True by (by right)|].
        rewrite decide_False; [done|]. intros [->|]%elem_of_cons; done.
  - intros [= <- <-]. split; [done|]. split; [done|]. split; [done|]. done.
Qed.

(** C36: clearing all caches empties them.  When [cache_httpfs_clear_cache] returns, the
    configured cache directories hold no file and no file was added anywhere, neither the
    in-memory reader nor the memory layer of the disk reader can answer with any block, the
    access index is empty, every registered filesystem has no metadata, no glob result and no
    cached handle (they are closed), the statistics of the connection are reset, and the
    settings and the filesystems that are not registered are as before.  It fails only when the
    local filesystem refuses to recreate a cache directory; the instance is consistent then
    too. *)
Theorem cleared_cache_is_empty conn w r w' :
  world_ok w -> ClearAllCache conn w = (r, w') ->
  world_ok w' /\
  let i := w_instance w in
  let i' := w_instance w' in
  match r with
  | Ok _ =>
      directories_empty (on_disk_cache_directories (i_config i)) (i_files i') /\ no_new_files (i_files i) (i_files i') /\
      readers_emptied (i_readers i') /\
      (forall a fs fs', w_fs w !! a = Some fs -> w_fs w' !! a = Some fs' ->
         if decide (a ∈ all_cache_fs w) then emptied fs fs' else fs' = fs) /\
      i_profiles i' = InstanceProfileCollectorManager.ResetProfileCollector conn (i_profiles i) /\ i_config i' = i_config i
  | Throw e => refused (F := F) (on_disk_cache_directories (i_config i)) e
  end.
Proof.
  intros [Hreg Hall Hr]. unfold ClearAllCache, in_world, mbind, Handler_bind, zoom, gets.
  destruct (recreate_directories (on_disk_cache_directories (i_config (w_instance w))) (i_files (w_instance w))) as [r1 f1] eqn:E1.
  destruct (recreate_cases _ _ _ _ E1) as [Hn1 H1]. destruct r1 as [[]|e1]; [|intros [= <- <-]; by split; [constructor|]].
  cbn [w_fs w_instance].
  destruct (on_readers InstanceCacheReaderManager.ClearCache (with_files (w_instance w) f1)) as [r2 i2] eqn:E2.
  destruct (on_readers_clear (with_files (w_instance w) f1) r2 i2 Hr E2) as [A1 A2 A3 A4 A5 A6 A7]. cbn in A2, A3, A4, A5, A6, A7.
  assert (forall a, a ∈ all_cache_fs (MkWorld (w_fs w) i2) -> is_Some (w_fs w !! a)) as Hreg2.
  { unfold all_cache_fs. simpl. rewrite A4. exact Hreg. }
  destruct r2 as [[]|e2]; [|intros [= <- <-]; by split; [constructor|]].
  destruct (for_each_fs (all_cache_fs (MkWorld (w_fs w) i2)) CacheFs.ClearCache (MkWorld (w_fs w) i2)) as [r3 w3] eqn:E3.
  assert (NoDup (all_cache_fs (MkWorld (w_fs w) i2))) as Hnd by apply NoDup_elements.
  destruct (for_each_emptied _ (MkWorld (w_fs w) i2) r3 w3 Hnd Hreg2 Hall A1 E3) as (Hall3 & Hdom & Hi & Hfs).
  destruct (Hi A7) as [B1 B2 B3 B4 B5 B6 B7]. cbn [w_fs w_instance] in *.
  assert (forall a, a ∈ all_cache_fs w3 -> is_Some (w_fs w3 !! a)) as Hreg3.
  { unfold all_cache_fs. rewrite B4. intros a Ha. by apply Hdom, Hreg2. }
  destruct r3 as [[]|e3]; intros [= <- <-]; (split; [by constructor|]); cbn [w_fs w_instance i_files i_readers i_profiles i_config with_profiles modify_state].
  - pose proof (no_new_files_trans _ _ _ A6 B6) as Hn.
    split; [exact (directories_stay_empty _ _ _ H1 Hn)|]. split; [exact (no_new_files_trans _ _ _ Hn1 Hn)|]. split; [done|].
    split; [|split; [by rewrite B5, A5|by rewrite B3, A3]].
    intros a fs fs' Ha Ha'. specialize (Hfs eq_refl a fs fs' Ha Ha'). revert Hfs. unfold all_cache_fs. simpl. by rewrite A4.
  - by rewrite A3 in B7.
Qed.
End ClearAll.

(** ** The instance of [CacheFsProofs] *)
Definition cleared_world : Res unit * world nat unit disk ExtensionBoundedDataCacheStorage.storage unit :=
  ClearAllCache 7 full_world.

Example clearing_succeeds : cleared_world.1 = Ok tt.
Proof. vm_compute. reflexivity. Qed.

Lemma cleared_cache_is_empty_witness :
  readers_emptied (i_readers (w_instance cleared_world.2)) /\ 
  forall fs', w_fs cleared_world.2 !! 5%nat = Some fs' -> emptied full_fs fs'.
Proof.
  pose proof (cleared_cache_is_empty 1 256 7 full_world (Ok tt) cleared_world.2 full_world_ok) as Hc.
  destruct Hc as [_ (_ & _ & Hr & Hfs & _)].
  { rewrite <-clearing_succeeds. unfold cleared_world. by destruct (ClearAllCache 7 full_world). }
  split; [exact Hr|]. intros fs' Hfs'. exact (Hfs 5%nat full_fs fs' eq_refl Hfs').
Defined.
