(* ===== verification/Lifetime.v ===== *)
(** * Lifetime

    The end of an instance: how its state is found ([GetInstanceStateOrThrow] and the other
    accessors of [src/src/cache_httpfs_instance_state.cpp]), what its destructor does with the
    filesystems that are still registered, and the destructors of the filesystems, in any
    order. *)
From S2P Require Import Prelude StringUtil Blocks DataStorage LruCache LruSpec LruProofs IoOperations InMemReader LocalFs AccessIndex.
From S2P Require Import ExtensionStorage InstanceConfig DiskReader DiskReaderProofs Handler InstanceState HandleCache HandleCacheProofs CacheFs CacheFsProofs ClearProofs.

#[local] Open Scope Z_scope.

(** ** Finding the state

    DuckDB's [ObjectCache] holds the state of the instance under a name; [P] is what a
    [shared_ptr] to the state points to. *)
Class StateCache (O P : Type) := {
  sc_put : string -> P -> O -> O;
  sc_get : string -> O -> option P
}.

Class StateCacheLaws (O P : Type) `{StateCache O P} := {
  sc_get_put key p o : sc_get key (sc_put key p o) = Some p
}.

Section Accessors.
Context {O P : Type} `{StateCache O P}.
Variable CACHE_KEY : string.
Implicit Types (o : O) (p : P).

Definition SetInstanceState p o : O := sc_put CACHE_KEY p o.
Definition GetInstanceStateShared o : option P := sc_get CACHE_KEY o.
Definition GetInstanceStateOrThrow o : Res P := of_option InternalException (sc_get CACHE_KEY o).

(** [lock] of a [weak_ptr] gives the state as long as somebody owns it. *)
Definition GetInstanceConfigOrThrow (lock : option P) : Res P := of_option InternalException lock.

Lemma state_is_found `{!StateCacheLaws O P} p o :
  GetInstanceStateOrThrow (SetInstanceState p o) = Ok p /\ GetInstanceStateShared (SetInstanceState p o) = Some p.
Proof. unfold GetInstanceStateOrThrow, GetInstanceStateShared, SetInstanceState. by rewrite sc_get_put. Qed.
End Accessors.

(** ** Destructors *)
Section Destructors.
Context {X V : Type} `{InternalFileSystem X V}.
Context {F : Type} {S : Type} {R : Type}.
Implicit Types (fs : cache_fs X V) (w : world X V F S R).

(** [~CacheHttpfsInstanceState]: the addresses in the registry are not null. *)
Definition DestroyInstanceState : Handler (world X V F S R) unit :=
  addresses ← gets all_cache_fs; for_each_fs addresses (in_fs ClearInMemoryCache).

(** An instance whose state may be gone, and the filesystems that were destroyed, as their
    destructors left them. *)
Record life := MkLife { l_world : world X V F S R; l_alive : bool; l_destroyed : gmap nat (cache_fs X V) }.
Implicit Types (l : life).

Inductive life_op :=
| LifeDestroy (address : nat)
| LifeExpire.

#[export] Instance life_op_eq_dec : EqDecision life_op.
Proof. solve_decision. Defined.

(** The destructor of the filesystem at an address, and the destructor of the state. *)
Definition life_step (op : life_op) : Handler life unit := fun l =>
  let w := l_world l in
  match op with
  | LifeDestroy address =>
      match w_fs w !! address with
      | None => (Throw UndefinedBehaviour, l)
      | Some fs =>
          let '(r, (fs, i)) := DestroyCacheFileSystem (l_alive l) address (fs, w_instance w) in
          (r, MkLife (MkWorld (delete address (w_fs w)) i) (l_alive l) (<[address := fs]> (l_destroyed l)))
      end
  | LifeExpire =>
      if l_alive l then let '(r, w) := DestroyInstanceState w in (r, MkLife w false (l_destroyed l))
      else (Throw UndefinedBehaviour, l)
  end.

Fixpoint life_run (ops : list life_op) : Handler life unit :=
  match ops with
  | [] => mret tt
  | op :: ops => _ ← life_step op; life_run ops
  end.
End Destructors.
Arguments life : clear implicits.

Section Shutdown.
Context {X V : Type} `{InternalFileSystem X V} `{!InternalHandlesLaws X}.
Context {F : Type} `{FS : LocalFileSystem F} {S : Type} `{SS : InMemoryDataCacheStorage S} `{SLW : !StorageLaws S} {R : Type}.
Variables FILE_FLAGS_READ FILE_FLAGS_PARALLEL_ACCESS : N.
Implicit Types (fs : cache_fs X V) (i : instance_state F S R) (w : world X V F S R) (l : life X V F S R) (a : nat).

#[local] Abbreviation fs_ok := (fs_ok FILE_FLAGS_READ FILE_FLAGS_PARALLEL_ACCESS).
#[local] Abbreviation world_ok := (world_ok FILE_FLAGS_READ FILE_FLAGS_PARALLEL_ACCESS).

(** Every handle that was in the cache of [fs] is closed. *)
Definition handles_closed fs fs' : Prop :=
  current_handles (fs_handles fs') = [] /\
  closed (fs_handles fs') ≡ₚ (handle_id <$> current_handles (fs_handles fs)) ++ closed (fs_handles fs).

Lemma emptied_closed fs fs' : emptied fs fs' -> handles_closed fs fs'.
Proof. intros [_ _ H1 H2]. by split. Qed.

Lemma handles_closed_again fs fs1 fs' : handles_closed fs fs1 -> handles_closed fs1 fs' -> handles_closed fs fs'.
Proof. intros [A1 A2] [B1 B2]. split; [done|]. rewrite B2, A1. simpl. exact A2. Qed.

Lemma ClearInMemoryCache_ok fs :
  fs_ok fs -> exists fs', ClearInMemoryCache fs = (Ok tt, fs') /\ fs_ok fs' /\ emptied fs fs'.
Proof.
  intros [Hm Hg [pool Hp]].
  destruct (cleared_keys_empty (metadata_cache fs) Hm) as [Hm' Hme].
  destruct (cleared_keys_empty (glob_cache fs) Hg) as [Hg' Hge].
  destruct (ClearFileHandleCache_ok _ _ (fs_handles fs) pool [] Hp) as (hs & Ehs & Hp' & _ & Hf & Hcl).
  unfold ClearInMemoryCache, mbind, Handler_bind, in_handles, zoom. rewrite Ehs. simpl.
  eexists. split; [reflexivity|]. split.
  - constructor; [done|done|]. by exists pool.
  - constructor; [done|done| |exact Hcl]. unfold current_handles. simpl. by rewrite Hf.
Qed.

(** An operation that succeeds on every filesystem and leaves the instance alone. *)
Lemma for_each_in_fs (m : Handler (cache_fs X V) unit) (Q : cache_fs X V -> cache_fs X V -> Prop) addresses w :
  (forall fs, fs_ok fs -> exists fs', m fs = (Ok tt, fs') /\ fs_ok fs' /\ Q fs fs') ->
  NoDup addresses -> (forall a, a ∈ addresses -> is_Some (w_fs w !! a)) ->
  (forall a fs, w_fs w !! a = Some fs -> fs_ok fs) ->
  exists w', for_each_fs addresses (in_fs m) w = (Ok tt, w') /\ w_instance w' = w_instance w /\
    (forall a fs, w_fs w' !! a = Some fs -> fs_ok fs) /\
    forall a, match w_fs w !! a, w_fs w' !! a with
              | Some fs, Some fs' => if decide (a ∈ addresses) then Q fs fs' else fs' = fs
              | None, None => True
              | _, _ => False
              end.
Proof.
  intros Hm Hnd. revert w. induction Hnd as [|a addresses Ha Hnd IH]; intros w Hreg Hall; cbn [for_each_fs].
  { exists w. split; [done|]. split; [done|]. split; [done|]. intros a. destruct (w_fs w !! a); [|done].
    by rewrite decide_False by apply not_elem_of_nil. }
  destruct (Hreg a) as [fs Hfs]; [constructor|]. destruct (Hm fs (Hall _ _ Hfs)) as (fs1 & E1 & Hok1 & HQ).
  unfold mbind, Handler_bind, at_fs. rewrite Hfs. unfold in_fs, zoom at 1. cbn [fst snd]. rewrite E1.
  set (w1 := MkWorld (<[a := fs1]> (w_fs w)) (w_instance w)).
  assert (forall b, w_fs w1 !! b = if decide (a = b) then Some fs1 else w_fs w !! b) as Hw1.
  { intros b. simpl. destruct (decide (a = b)) as [<-|Hn]; [by rewrite lookup_insert_eq|by rewrite lookup_insert_ne]. }
  destruct (IH w1) as (w' & E & Ei & Hall' & Hfs').
  { intros b Hb. rewrite Hw1. case_decide; [eauto|]. apply Hreg. by right. }
  { intros b fsb. rewrite Hw1. case_decide; [by intros [= <-]|]. apply Hall. }
  exists w'. split; [exact E|]. split; [exact Ei|]. split; [done|]. intros b. specialize (Hfs' b). rewrite Hw1 in Hfs'.
  destruct (decide (a = b)) as [<-|Hn].
  - rewrite Hfs. destruct (w_fs w' !! a) as [fs'|]; [|done]. rewrite decide_False in Hfs' by done. subst fs'.
    by rewrite decide_True by constructor.
  - destruct (w_fs w !! b) as [fsb|]; [|done]. destruct (w_fs w' !! b) as [fs'|]; [|done].
    destruct (decide (b ∈ addresses)); [by rewrite decide_True by (by right)|].
    rewrite decide_False; [done|]. intros [->|]%elem_of_cons; done.
Qed.

Lemma DestroyInstanceState_ok w :
  world_ok w ->
  exists w', DestroyInstanceState w = (Ok tt, w') /\ w_instance w' = w_instance w /\
    (forall a fs, w_fs w' !! a = Some fs -> fs_ok fs) /\
    forall a, match w_fs w !! a, w_fs w' !! a with
              | Some fs, Some fs' => if decide (a ∈ all_cache_fs w) then emptied fs fs' else fs' = fs
              | None, None => True
              | _, _ => False
              end.
Proof.
  intros [Hreg Hall _]. unfold DestroyInstanceState, mbind, Handler_bind, gets.
  apply for_each_in_fs; [apply ClearInMemoryCache_ok|apply NoDup_elements|done|done].
Qed.

Lemma DestroyCacheFileSystem_ok alive a fs i :
  fs_ok fs ->
  exists fs', DestroyCacheFileSystem alive a (fs, i) =
    (Ok tt, (fs', if alive then with_registry i (InstanceCacheFsRegistry.Unregister a (i_registry i)) else i)) /\
    handles_closed fs fs'.
Proof.
  intros [_ _ [pool Hp]].
  destruct (ClearFileHandleCache_ok _ _ (fs_handles fs) pool [] Hp) as (hs & Ehs & _ & _ & Hf & Hcl).
  unfold DestroyCacheFileSystem, DestroyFileSystem, mbind, Handler_bind, in_instance, in_fs, in_handles, zoom.
  destruct alive; simpl; rewrite Ehs; (eexists; split; [reflexivity|]); (split; [|exact Hcl]); unfold current_handles; simpl; by rewrite Hf.
Qed.

(** What became of the filesystem [fs] at address [a] after the destructors in [done] ran. *)
Definition fate (registered : bool) (done : list life_op) a fs l : Prop :=
  if decide (LifeDestroy a ∈ done) then
    w_fs (l_world l) !! a = None /\ exists fs', l_destroyed l !! a = Some fs' /\ handles_closed fs fs'
  else
    exists fs', w_fs (l_world l) !! a = Some fs' /\ fs_ok fs' /\
      if decide (LifeExpire ∈ done) then if registered then emptied fs fs' else fs' = fs else fs' = fs.

Record shutting_down w (done : list life_op) l : Prop := {
  sd_fate : forall a fs, w_fs w !! a = Some fs -> fate (bool_decide (a ∈ all_cache_fs w)) done a fs l;
  sd_alive : l_alive l = true <-> LifeExpire ∉ done;
  sd_registry : l_alive l = true -> forall a, a ∈ all_cache_fs (l_world l) <-> a ∈ all_cache_fs w /\ LifeDestroy a ∉ done;
  sd_domain : forall a, is_Some (w_fs (l_world l) !! a) -> is_Some (w_fs w !! a);
  sd_readers : readers_ok (i_readers (w_instance (l_world l)))
}.

Lemma elem_of_done (op x : life_op) (done : list life_op) : x ∈ done ++ [op] <-> x ∈ done \/ x = op.
Proof. by rewrite elem_of_app, list_elem_of_singleton. Qed.

(** The registry has no dangling pointers, so that the world is well formed at every point. *)
Lemma shutting_down_world w done l :
  world_ok w -> shutting_down w done l -> l_alive l = true -> world_ok (l_world l).
Proof.
  intros [Hreg _ _] [Hf Ha Hr Hd Hi] Hal. constructor; [| |done].
  - intros a [Hin Hn]%(Hr Hal). destruct (Hreg a Hin) as [fs Hfs]. specialize (Hf a fs Hfs). unfold fate in Hf.
    rewrite decide_False in Hf by done. destruct Hf as (fs' & Hfs' & _). eauto.
  - intros a fs' Hfs'. destruct (Hd a) as [fs Hfs]; [eauto|]. specialize (Hf a fs Hfs). unfold fate in Hf.
    case_decide; [destruct Hf; congruence|]. destruct Hf as (fs2 & Hfs2 & Hok & _). congruence.
Qed.

Lemma expire_step w done l :
  world_ok w -> shutting_down w done l -> LifeExpire ∉ done ->
  exists l', life_step LifeExpire l = (Ok tt, l') /\ shutting_down w (done ++ [LifeExpire]) l'.
Proof.
  intros Hw Hsd Hn. pose proof Hsd as [Hf Ha Hr Hd Hi]. apply Ha in Hn as Hal.
  destruct (DestroyInstanceState_ok (l_world l)) as (w' & E & Ei & Hok' & Hfs'); [by eapply shutting_down_world|].
  unfold life_step. rewrite Hal, E. eexists. split; [reflexivity|]. constructor; cbn [l_world l_alive l_destroyed].
  - intros a fs Hfs. specialize (Hf a fs Hfs). specialize (Hfs' a). unfold fate in *. cbn [l_world l_destroyed].
    destruct (decide (LifeDestroy a ∈ done)) as [Hin|Hin].
    + rewrite decide_True by (apply elem_of_done; by left). destruct Hf as [Hnone Hdead]. rewrite Hnone in Hfs'.
      by destruct (w_fs w' !! a).
    + rewrite decide_False by (by intros [|]%elem_of_done).
      destruct Hf as (fs1 & Hfs1 & _ & Hst). rewrite decide_False in Hst by done. subst fs1. rewrite Hfs1 in Hfs'.
      destruct (w_fs w' !! a) as [fs'|] eqn:Hw'; [|done]. exists fs'. split; [done|]. split; [by eapply Hok'|].
      rewrite decide_True by (apply elem_of_done; by right).
      destruct (decide (a ∈ all_cache_fs (l_world l))) as [Hc|Hc].
      * rewrite bool_decide_eq_true_2; [done|]. by apply (Hr Hal) in Hc as [].
      * rewrite bool_decide_eq_false_2; [done|]. intros Hc'. apply Hc, (Hr Hal). done.
  - split; [done|]. intros Hnot. destruct Hnot. apply elem_of_done. by right.
  - done.
  - intros a Hs. specialize (Hfs' a). destruct (w_fs (l_world l) !! a) as [fs|] eqn:Hfs; [apply Hd; eauto|].
    destruct Hs as [x Hx]. by rewrite Hx in Hfs'.
  - by rewrite Ei.
Qed.

Lemma destroy_step w done l a :
  world_ok w -> shutting_down w done l -> LifeDestroy a ∉ done -> is_Some (w_fs w !! a) ->
  exists l', life_step (LifeDestroy a) l = (Ok tt, l') /\ shutting_down w (done ++ [LifeDestroy a]) l'.
Proof.
  intros Hw [Hf Ha Hr Hd Hi] Hn [fs0 Hfs0]. pose proof (Hf a fs0 Hfs0) as Hfa. unfold fate in Hfa.
  rewrite decide_False in Hfa by done. destruct Hfa as (fs & Hfs & Hok & Hst).
  destruct (DestroyCacheFileSystem_ok (l_alive l) a fs
    (w_instance (l_world l)) Hok) as (fs' & E & Hcl).
  unfold life_step. rewrite Hfs, E. eexists. split; [reflexivity|].
  constructor; cbn [l_world l_alive l_destroyed w_fs w_instance].
  - intros b fsb Hb. specialize (Hf b fsb Hb). unfold fate in *. cbn [l_world l_destroyed w_fs].
    destruct (decide (a = b)) as [<-|Hne].
    + rewrite decide_True by (apply elem_of_done; by right). rewrite lookup_delete_eq, lookup_insert_eq. split; [done|].
      exists fs'. split; [done|]. assert (fsb = fs0) as -> by congruence.
      destruct (decide (LifeExpire ∈ done)); [|by subst fs].
      destruct (bool_decide (a ∈ all_cache_fs w)); [|by subst fs].
      apply (handles_closed_again _ fs); [by apply emptied_closed|done].
    + rewrite lookup_delete_ne, lookup_insert_ne by done.
      destruct (decide (LifeDestroy b ∈ done)) as [Hin|Hin].
      * by rewrite decide_True by (apply elem_of_done; by left).
      * rewrite decide_False by (intros [|]%elem_of_done; congruence).
        destruct Hf as (f1 & Hf1 & Hok1 & Hst1). exists f1. split; [done|]. split; [done|].
        destruct (decide (LifeExpire ∈ done)); [by rewrite decide_True by (apply elem_of_done; by left)|].
        by rewrite decide_False by (by intros [|]%elem_of_done).
  - rewrite Ha. split; intros Hnot Hin; apply Hnot; [by apply elem_of_done in Hin as []|]. apply elem_of_done. by left.
  - intros Hal b. rewrite Hal. unfold all_cache_fs, InstanceCacheFsRegistry.GetAllCacheFs. simpl.
    unfold InstanceCacheFsRegistry.Unregister. rewrite elem_of_elements, elem_of_difference, elem_of_singleton.
    specialize (Hr Hal b). unfold all_cache_fs, InstanceCacheFsRegistry.GetAllCacheFs in Hr. rewrite elem_of_elements in Hr.
    rewrite elem_of_done. rewrite Hr. split; [intros [[? ?] ?]|intros [? Hno]]; (split; [|]); try tauto.
    + intros [|[= ->]]; done.
    + intros ->. apply Hno. by right.
  - intros b Hb. apply Hd. destruct (decide (a = b)) as [<-|Hne]; [by rewrite lookup_delete_eq in Hb; destruct Hb|].
    by rewrite lookup_delete_ne in Hb.
  - by destruct (l_alive l).
Qed.

Lemma life_run_ok w (ops done : list life_op) l :
  world_ok w -> shutting_down w done l -> NoDup (done ++ ops) -> (forall a, LifeDestroy a ∈ ops -> is_Some (w_fs w !! a)) ->
  exists l', life_run ops l = (Ok tt, l') /\ shutting_down w (done ++ ops) l'.
Proof.
  intros Hw. revert done l. induction ops as [|op ops IH]; intros done l Hsd Hnd Hex.
  { exists l. by rewrite app_nil_r. }
  assert (op ∉ done) as Hop by (apply NoDup_app in Hnd as (_ & Hdis & _); intros Hin; by apply (Hdis op Hin), elem_of_cons; left).
  assert (exists l1, life_step op l = (Ok tt, l1) /\ shutting_down w (done ++ [op]) l1) as (l1 & E1 & Hsd1).
  { destruct op as [a|]; [apply destroy_step; try done; apply Hex; by left|by apply expire_step]. }
  destruct (IH (done ++ [op]) l1) as (l' & E & Hsd'); [done|by rewrite <-app_assoc|intros a Ha; apply Hex; by right|].
  exists l'. cbn [life_run]. rewrite (handler_ok _ _ _ _ _ E1). split; [done|]. by rewrite <-app_assoc in Hsd'.
Qed.

(** C37: An instance ends cleanly, whatever is destroyed first.  From any consistent state, the
    destructors of the filesystems and of the state of the instance run in any order without an
    exception or a dangling pointer in the registry; a destroyed filesystem has closed every
    handle of its cache, each once; and a filesystem that outlives the state, if it was
    registered, has lost its metadata and its glob results and closed its handles, so that
    nothing in its caches refers to the instance. *)
Theorem instance_ends_in_any_order w (ops : list life_op) :
  world_ok w -> NoDup ops -> (forall a, LifeDestroy a ∈ ops -> is_Some (w_fs w !! a)) ->
  exists l, life_run ops (MkLife w true ∅) = (Ok tt, l) /\
    forall a fs, w_fs w !! a = Some fs -> fate (bool_decide (a ∈ all_cache_fs w)) ops a fs l.
Proof.
  intros Hw Hnd Hex. destruct (life_run_ok w ops [] (MkLife w true ∅) Hw) as (l & E & Hsd); [|done|done|].
  - constructor; simpl; [|split; [by intros _ ?%elem_of_nil|done]| |done|apply Hw].
    + intros a fs Hfs. exists fs. split; [done|]. split; [by eapply (all_fs_ok _ _ _ Hw)|done].
    + intros _ a. split; [by split; [|apply not_elem_of_nil]|by intros []].
  - exists l. split; [done|]. apply (sd_fate _ _ _ Hsd).
Qed.
End Shutdown.

(** ** The world of [CacheFsProofs], whose filesystem 5 has two cached handles *)
Definition ended : Res unit * life nat unit disk ExtensionBoundedDataCacheStorage.storage unit :=
  life_run [LifeExpire; LifeDestroy 5] (MkLife full_world true ∅).

Example ended_closed :
  ended.1 = Ok tt /\ (fun fs => closed (fs_handles fs)) <$> l_destroyed ended.2 !! 5%nat = Some [1%nat; 0%nat].
Proof. vm_compute. by split. Qed.

Lemma instance_ends_in_any_order_witness :
  ended.1 = Ok tt /\ exists fs', l_destroyed ended.2 !! 5%nat = Some fs' /\ handles_closed full_fs fs'.
Proof.
  destruct (instance_ends_in_any_order 1 256 full_world [LifeExpire; LifeDestroy 5] full_world_ok) as (l & E & Hf).
  - repeat constructor; [by intros [[=]|[]%elem_of_nil]%elem_of_cons|apply not_elem_of_nil].
  - intros a Ha. exists full_fs. apply elem_of_cons in Ha as [[=]|Ha]. apply list_elem_of_singleton in Ha as [= ->]. reflexivity.
  - unfold ended. rewrite E. split; [reflexivity|]. specialize (Hf 5%nat full_fs eq_refl). unfold fate in Hf.
    rewrite decide_True in Hf by (apply elem_of_cons; right; apply elem_of_cons; left; reflexivity). apply Hf.
Defined.
