(* ===== verification/Extension.v ===== *)
(** * Extension

    The entry points of the extension ([src/src/cache_httpfs_extension.cpp],
    [src/src/cache_exclusion_utils.cpp]): loading it into a database, wrapping filesystems, and
    the SQL functions besides those that clear caches ([CacheFs]).

    DuckDB's virtual filesystem is a class: it lists its filesystems by name, hands one out and
    takes one in.  What LoadInternal registers in the catalogue (options, functions) is kept as a
    list of names. *)
From S2P Require Import Prelude StringUtil DataStorage IoOperations LocalFs Config FilesystemUtils DiskCacheUtil InstanceConfig.
From S2P Require Import Profile ParquetLayout Handler InstanceState Settings HandleCache CacheFs.
From Stdlib Require QArith.QArith_base.

#[local] Open Scope Z_scope.

(** ** The virtual filesystem

    A filesystem is known by its name, which [name] gives. *)
Class VirtualFileSystem (W Fs : Type) := {
  ListSubSystems : (Fs -> string) -> W -> list string;
  ExtractSubSystem : (Fs -> string) -> string -> W -> option Fs * W;
  RegisterSubSystem : Fs -> W -> W
}.

(** [subsystems]: those registered, in any order. *)
Class VirtualFileSystemLaws (W Fs : Type) `{VirtualFileSystem W Fs} := {
  subsystems : W -> list Fs;
  list_subsystems_law name w : ListSubSystems name w ≡ₚ name <$> subsystems w;
  extract_law name n w :
    match ExtractSubSystem name n w with
    | (Some fs, w') => name fs = n /\ subsystems w ≡ₚ fs :: subsystems w'
    | (None, w') => w' = w /\ n ∉ (name <$> subsystems w)
    end;
  register_law fs w : subsystems (RegisterSubSystem fs w) ≡ₚ fs :: subsystems w
}.

(** A filesystem that another extension registered, a cache filesystem by its address, or the
    fake filesystem ([src/src/utils/fake_filesystem.cpp]). *)
Inductive subsystem (X : Type) :=
| Foreign (x : X)
| Wrapped (address : nat)
| FakeFileSystem.
Arguments Foreign {_} _.
Arguments Wrapped {_} _.
Arguments FakeFileSystem {_}.

Section Extension.
Context {X V : Type} `{InternalFileSystem X V}.
Context `{StringUtil} {F : Type} `{LocalFileSystem F} {S : Type} `{InMemoryDataCacheStorage S} {R : Type}.
Context {W : Type} `{VirtualFileSystem W (subsystem X)}.
(** The local filesystem and those of httpfs, as they are constructed; a cache filesystem and
    the fake one, as the internal filesystem of another. *)
Variables local_filesystem new_http_filesystem new_huggingface_filesystem new_s3_filesystem : X.
Variable nested : nat -> X.
Variable fake : X.
(** [HttpfsExtension::Load]. *)
Variable load_httpfs : W -> Res unit * W.
(** The wall clock. *)
Variable now : Z.
(** What the callbacks of the settings use. *)
Variable IsPowerOfTwo : Z -> bool.
Variables (page_size : Z) (al : Blocks.Allocator) (clock : nat -> Z).

Record database := MkDatabase {
  db_vfs : W;
  db_world : world X V F S R;
  db_next_address : nat;
  db_extensions : list string;
  external_file_cache : bool;
  db_options : list string;
  db_functions : list string;
  db_layouts : registry
}.
Implicit Types (db : database) (w : world X V F S R).

#[local] Abbreviation DbOp A := (Handler database A).

Definition set_vfs v db := MkDatabase v (db_world db) (db_next_address db) (db_extensions db) (external_file_cache db)
  (db_options db) (db_functions db) (db_layouts db).
Definition set_world w db := MkDatabase (db_vfs db) w (db_next_address db) (db_extensions db) (external_file_cache db)
  (db_options db) (db_functions db) (db_layouts db).
Definition set_layouts l db := MkDatabase (db_vfs db) (db_world db) (db_next_address db) (db_extensions db)
  (external_file_cache db) (db_options db) (db_functions db) l.

Definition in_instance_of {A} (m : Handler (instance_state F S R) A) : DbOp A := zoom db_world set_world (in_world m).

(** An operation of the local filesystem. *)
Definition on_files {A} (op : F -> Res A * F) : DbOp A :=
  in_instance_of (fun i => let '(r, f) := op (i_files i) in (r, with_files i f)).

Definition subsystem_name w (s : subsystem X) : string :=
  match s with
  | Foreign x => fs_name x
  | Wrapped address => match w_fs w !! address with Some fs => GetName fs | None => "" end
  | FakeFileSystem => "cache_httpfs_fake_filesystem"
  end.

(** A filesystem seen as the one that a cache filesystem wraps. *)
Definition as_internal (s : subsystem X) : X :=
  match s with Foreign x => x | Wrapped address => nested address | FakeFileSystem => fake end.

(** *** Wrapping *)

(** [make_uniq<CacheFileSystem> (...)] and [RegisterSubSystem]. *)
Definition register_cache_filesystem (x : X) : DbOp unit := fun db =>
  let address := db_next_address db in
  let w := db_world db in
  let '(r, i) := ConstructCacheFileSystem true address x (w_instance w) in
  match r with
  | Throw e => (Throw e, set_world (MkWorld (w_fs w) i) db)
  | Ok fs =>
      (Ok tt, MkDatabase (RegisterSubSystem (Wrapped address) (db_vfs db)) (MkWorld (<[address := fs]> (w_fs w)) i)
                (Datatypes.S address) (db_extensions db) (external_file_cache db) (db_options db) (db_functions db)
                (db_layouts db))
  end.

Definition extract (name : string) : DbOp (option (subsystem X)) := fun db =>
  let '(s, v) := ExtractSubSystem (subsystem_name (db_world db)) name (db_vfs db) in (Ok s, set_vfs v db).

Definition WrapCacheFileSystem (filesystem_name : string) : DbOp unit :=
  s ← extract filesystem_name;
  match s with
  | Some s => register_cache_filesystem (as_internal s)
  | None =>
      if String.eqb filesystem_name "LocalFileSystem" then register_cache_filesystem local_filesystem
      else throw InvalidInputException
  end.

(** The first filesystem whose name ends with [suffix], taken out; else a new one. *)
Definition ExtractOrCreate (suffix : string) (new_filesystem : X) : DbOp X :=
  names ← gets (fun db => ListSubSystems (subsystem_name (db_world db)) (db_vfs db));
  match List.find (fun cur_fs_name => EndsWith cur_fs_name suffix) names with
  | None => mret new_filesystem
  | Some name =>
      s ← extract name;
      match s with
      | None => throw AssertionFailure
      | Some s => mret (as_internal s)
      end
  end.

Definition ExtractOrCreateHttpfs : DbOp X := ExtractOrCreate "HTTPFileSystem" new_http_filesystem.
Definition ExtractOrCreateHuggingfs : DbOp X := ExtractOrCreate "HuggingFaceFileSystem" new_huggingface_filesystem.
Definition ExtractOrCreateS3fs : DbOp X := ExtractOrCreate "S3FileSystem" new_s3_filesystem.

(** *** Loading *)
Definition HTTPFS_EXTENSION : string := "httpfs".

Definition IsHttpfsExtensionLoaded db : bool := existsb (String.eqb HTTPFS_EXTENSION) (db_extensions db).

Definition add_extension (name : string) : DbOp unit := modify_state (fun db =>
  MkDatabase (db_vfs db) (db_world db) (db_next_address db) (name :: db_extensions db) (external_file_cache db)
    (db_options db) (db_functions db) (db_layouts db)).

Definition EnsureHttpfsExtensionLoaded : DbOp unit :=
  loaded ← gets IsHttpfsExtensionLoaded;
  if (loaded : bool) then mret tt
  else
    _ ← (fun db => let '(r, v) := load_httpfs (db_vfs db) in (r, set_vfs v db));
    add_extension HTTPFS_EXTENSION.

Definition add_options (names : list string) : DbOp unit := modify_state (fun db =>
  MkDatabase (db_vfs db) (db_world db) (db_next_address db) (db_extensions db) (external_file_cache db)
    (db_options db ++ names) (db_functions db) (db_layouts db)).
Definition register_functions (names : list string) : DbOp unit := modify_state (fun db =>
  MkDatabase (db_vfs db) (db_world db) (db_next_address db) (db_extensions db) (external_file_cache db)
    (db_options db) (db_functions db ++ names) (db_layouts db)).
Definition disable_external_file_cache : DbOp unit := modify_state (fun db =>
  MkDatabase (db_vfs db) (db_world db) (db_next_address db) (db_extensions db) false
    (db_options db) (db_functions db) (db_layouts db)).

(** A new [CacheHttpfsInstanceState], with its [db_instance]. *)
Definition loaded_instance (f : F) : instance_state F S R :=
  MkInstance default_config true ∅ (InstanceCacheReaderManager.MkReaderManager false None None None)
    (InstanceProfileCollectorManager.MkProfileManager ∅ None) (CacheExclusionManager.MkExclusions [] []) f [].

Definition SetInstanceState : DbOp unit := modify_state (fun db =>
  set_world (MkWorld (w_fs (db_world db)) (loaded_instance (i_files (w_instance (db_world db))))) db).

(** The constructor of the fake filesystem, and its registration. *)
Definition GetFakeOnDiskCacheDirectory : string := "/tmp/cache_httpfs_fake_filesystem".
Definition register_fake : DbOp unit :=
  _ ← on_files (fs_create_directory GetFakeOnDiskCacheDirectory);
  modify_state (fun db => set_vfs (RegisterSubSystem FakeFileSystem (db_vfs db)) db).

(** The settings, as [Settings] lists them with their callbacks. *)
Definition option_names : list string :=
  option_name <$> extension_options (F := F) (S := S) (R := R) IsPowerOfTwo page_size al clock now 0.

Definition function_names : list string := [
  "cache_httpfs_add_exclusion_regex"; "cache_httpfs_reset_exclusion_regex"; "cache_httpfs_list_exclusion_regex";
  "cache_httpfs_clear_cache"; "cache_httpfs_clear_cache_for_file"; "cache_httpfs_register_parquet_layout";
  "cache_httpfs_clear_parquet_layouts"; "cache_httpfs_wrap_cache_filesystem"; "cache_httpfs_cleanup_dead_temp";
  "cache_httpfs_get_ondisk_data_cache_size"; "cache_httpfs_cache_status_query"; "cache_httpfs_get_profile";
  "cache_httpfs_clear_profile"; "cache_httpfs_get_data_cache_config"; "cache_httpfs_get_metadata_cache_config";
  "cache_httpfs_get_file_handle_cache_config"; "cache_httpfs_get_glob_cache_config"; "cache_httpfs_get_cache_type";
  "cache_httpfs_get_cache_config"; "cache_httpfs_policy_stats"; "cache_httpfs_list_registered_filesystems";
  "cache_httpfs_cache_access_info_query"
]%string.

Definition LoadInternal : DbOp unit :=
  _ ← SetInstanceState;
  directories ← gets (fun db => on_disk_cache_directories (i_config (w_instance (db_world db))));
  _ ← on_files (create_directories directories);
  _ ← on_files (CleanupDeadTempFiles now directories);
  _ ← disable_external_file_cache;
  _ ← EnsureHttpfsExtensionLoaded;
  _ ← register_fake;
  http_fs ← ExtractOrCreateHttpfs;
  _ ← register_cache_filesystem http_fs;
  hf_fs ← ExtractOrCreateHuggingfs;
  _ ← register_cache_filesystem hf_fs;
  s3_fs ← ExtractOrCreateS3fs;
  _ ← register_cache_filesystem s3_fs;
  _ ← in_instance_of (SetCacheType DEFAULT_CACHE_TYPE);
  _ ← add_options option_names;
  _ ← register_functions function_names;
  _ ← on_files (fs_create_directory GetDefaultOnDiskCacheDirectory);
  register_functions ["cache_httpfs_get_cache_filesystems"%string].

(** *** SQL functions *)
Definition instance_of db : instance_state F S R := w_instance (db_world db).

(** [NumericCast] of the number of files to [int64_t]. *)
Definition CleanupDeadTemp : DbOp Z :=
  directories ← gets (fun db => on_disk_cache_directories (i_config (instance_of db)));
  on_files (fun f => let '(deleted, f) := CleanupDeadTempFiles now directories f in
                     (deleted ← deleted; if deleted <? 9223372036854775808 then Ok deleted else Throw InternalException, f)).

(** The sum is an [int64_t], whose overflow is undefined. *)
Definition add_int64 (total n : Z) : Res Z :=
  if total + n <? 9223372036854775808 then Ok (total + n) else Throw UndefinedBehaviour.

Fixpoint directory_size (f : F) (dir : string) (names : list string) (total : Z) : Res Z :=
  match names with
  | [] => Ok total
  | fname :: names =>
      handle ← open_existing (dir +:+ "/" +:+ fname)%string f;
      total ← add_int64 total (Z.of_nat (length handle));
      directory_size f dir names total
  end.

Fixpoint directories_size (f : F) (dirs : list string) (total : Z) : Res Z :=
  match dirs with
  | [] => Ok total
  | dir :: dirs => total ← directory_size f dir (fs_list dir f) total; directories_size f dirs total
  end.

Definition GetOnDiskDataCacheSize : DbOp Z := fun db =>
  let i := instance_of db in (directories_size (i_files i) (on_disk_cache_directories (i_config i)) 0, db).

Import InstanceProfileCollectorManager.

(** No caller of [SetCacheReaderType] exists: the reader type is empty. *)
Definition any_stats (rnd : QArith_base.Q -> QArith_base.Q) (lf : QArith_base.Q -> string) (c : any_collector) : string :=
  match c with
  | Noop p => (NoopProfileCollector.GetHumanReadableStats p).1
  | Temp p => (TempProfileCollector.GetHumanReadableStats rnd lf "" p).1
  end.

Definition no_access_message : string := "No valid access to cache filesystem".

Definition GetProfileStats rnd lf (conn_id : Z) : DbOp string :=
  in_instance_of (fun i =>
    if negb (HasExplicitProfileCollector conn_id (i_profiles i)) then (Ok no_access_message, i)
    else
      let '(collector, m) := GetProfileCollectorOrDefault conn_id (i_profiles i) in
      let latest_stat := any_stats rnd lf collector in
      (Ok (if String.eqb latest_stat "" then no_access_message else latest_stat), with_profiles i m)).

Definition ResetProfileStats (conn_id : Z) : DbOp unit :=
  in_instance_of (modify_state (fun i => with_profiles i (ResetProfileCollector conn_id (i_profiles i)))).

Definition with_exclusions (i : instance_state F S R) x : instance_state F S R :=
  MkInstance (i_config i) (i_db_instance i) (i_registry i) (i_readers i) (i_profiles i) x (i_files i) (i_closing i).

Definition AddCacheExclusionRegex (compile : string -> Res R) (regex : string) : DbOp unit :=
  in_instance_of (fun i =>
    match CacheExclusionManager.AddExclusionRegex compile regex (i_exclusions i) with
    | Ok x => (Ok tt, with_exclusions i x)
    | Throw e => (Throw e, i)
    end).

Definition ResetCacheExclusionRegex : DbOp unit :=
  in_instance_of (modify_state (fun i => with_exclusions i (CacheExclusionManager.ResetExclusionRegex (i_exclusions i)))).

Definition RegisterParquetLayout `{StdSort} (query : string -> option (list (Z * Z))) (filepath : string) : DbOp Z := fun db =>
  match RegisterParquetLayoutFromFooter (query filepath) filepath (db_layouts db) with
  | Ok (registered, l) => (Ok registered, set_layouts l db)
  | Throw e => (Throw e, db)
  end.

Definition ClearParquetLayouts : DbOp unit := modify_state (fun db => set_layouts (ClearLayouts (db_layouts db)) db).
End Extension.
Arguments database : clear implicits.
