(* ===== verification/ExtensionProofs.v ===== *)
(** * ExtensionProofs

    Loading the extension puts a cache filesystem in the place of each filesystem of httpfs and
    leaves an instance on which everything else is proved to work; wrapping a filesystem
    replaces exactly that one; and the SQL functions answer for the state they read. *)
From S2P Require Import Prelude CppString StringUtil DataStorage IoOperations LocalFs Config FilesystemUtils DiskCacheUtil AccessIndex InstanceConfig.
From S2P Require Import Profile InMemReader DiskReader Handler InstanceState Settings ExtensionStorage HandleCache HandleCacheProofs CacheFs CacheFsProofs Extension.

#[local] Open Scope Z_scope.

(** ** Suffixes *)
Section Suffixes.
Context `{StringUtil} `{!StringUtilLaws}.
Implicit Types (s t p q : string).

Lemma shorter_suffix p q t1 t2 :
  (p +:+ t1 = q +:+ t2)%string -> (String.length t1 <= String.length t2)%nat -> exists r, t2 = (r +:+ t1)%string.
Proof.
  revert p. induction q as [|c q IH]; intros p He Hl; [by exists p|].
  destruct p as [|c' p]; simpl in He.
  - apply (f_equal String.length) in He. simpl in He. rewrite !length_append in He. simpl in He. lia.
  - injection He as _ He. by apply (IH p).
Qed.

Lemma EndsWith_both s t1 t2 :
  EndsWith s t1 = true -> EndsWith s t2 = true -> (String.length t1 <= String.length t2)%nat -> EndsWith t2 t1 = true.
Proof.
  intros [p1 Hp1]%EndsWith_law [p2 Hp2]%EndsWith_law Hl. apply EndsWith_law.
  eapply shorter_suffix; [|exact Hl]. by rewrite <-Hp1.
Qed.

Lemma EndsWith_prefixed p s t : EndsWith s t = true -> EndsWith (p +:+ s) t = true.
Proof. intros [q ->]%EndsWith_law. apply EndsWith_law. exists (p +:+ q)%string. by rewrite append_assoc. Qed.

Lemma EndsWith_substr s t : EndsWith s t = true -> substr_from (String.length s - String.length t) s = t.
Proof.
  intros [p ->]%EndsWith_law. rewrite length_append.
  replace (String.length p + String.length t - String.length t)%nat with (String.length p) by lia. apply substr_from_append.
Qed.

(** One suffix excludes another one that does not end like it. *)
Lemma EndsWith_other s t1 t2 :
  EndsWith s t1 = true -> substr_from (String.length t2 - String.length t1) t2 <> t1 ->
  substr_from (String.length t1 - String.length t2) t1 <> t2 -> EndsWith s t2 = false.
Proof.
  intros H1 Hn Hn'. destruct (EndsWith s t2) eqn:H2; [|done]. exfalso.
  destruct (decide (String.length t1 <= String.length t2)%nat).
  - by apply Hn, EndsWith_substr, (EndsWith_both s).
  - apply Hn', EndsWith_substr, (EndsWith_both s); [done..|lia].
Qed.
End Suffixes.

Section Load.
Context {X V : Type} `{InternalFileSystem X V} `{!InternalHandlesLaws X}.
Context `{SU : StringUtil} `{SL : !StringUtilLaws}.
Context {F : Type} `{FS : LocalFileSystem F} `{FL : !LocalFsLaws F}.
Context {S : Type} `{SS : InMemoryDataCacheStorage S} `{SLW : !StorageLaws S} {R : Type}.
Context {W : Type} `{VS : VirtualFileSystem W (subsystem X)} `{VL : !VirtualFileSystemLaws W (subsystem X)}.
Variables FILE_FLAGS_READ FILE_FLAGS_PARALLEL_ACCESS : N.
Variables local_filesystem new_http_filesystem new_huggingface_filesystem new_s3_filesystem : X.
Variable nested : nat -> X.
Variable fake : X.
Variable load_httpfs : W -> Res unit * W.
Implicit Types (db : database X V F S R W) (w : world X V F S R) (x y : X) (xs : list X).

#[local] Abbreviation world_ok := (world_ok FILE_FLAGS_READ FILE_FLAGS_PARALLEL_ACCESS).
#[local] Abbreviation fs_ok := (fs_ok FILE_FLAGS_READ FILE_FLAGS_PARALLEL_ACCESS).

(** *** Registering a cache filesystem *)
Definition with_cache_filesystem x db : database X V F S R W :=
  let a := db_next_address db in
  let w := db_world db in
  MkDatabase (RegisterSubSystem (Wrapped a) (db_vfs db))
    (MkWorld (<[a := new_cache_fs x]> (w_fs w))
       (with_registry (w_instance w) (InstanceCacheFsRegistry.Register a (i_registry (w_instance w)))))
    (Datatypes.S a) (db_extensions db) (external_file_cache db) (db_options db) (db_functions db) (db_layouts db).

Lemma register_cache_filesystem_eq x db : register_cache_filesystem x db = (Ok tt, with_cache_filesystem x db).
Proof. done. Qed.

(** The addresses from the next one on are free. *)
Definition fresh_addresses db : Prop := forall a, (db_next_address db <= a)%nat -> w_fs (db_world db) !! a = None.

Lemma new_cache_fs_ok x : fs_ok (new_cache_fs x : cache_fs X V).
Proof. constructor; [done..|]. exists []. apply new_handles_ok. Qed.

Lemma elem_of_registered (a b : nat) (r : InstanceCacheFsRegistry.registry) :
  a ∈ InstanceCacheFsRegistry.GetAllCacheFs (InstanceCacheFsRegistry.Register b r) <->
  a = b \/ a ∈ InstanceCacheFsRegistry.GetAllCacheFs r.
Proof. unfold InstanceCacheFsRegistry.GetAllCacheFs, InstanceCacheFsRegistry.Register. rewrite !elem_of_elements. set_solver. Qed.

Lemma with_cache_filesystem_ok x db :
  world_ok (db_world db) -> fresh_addresses db ->
  world_ok (db_world (with_cache_filesystem x db)) /\ fresh_addresses (with_cache_filesystem x db).
Proof.
  intros [Hreg Hall Hi] Hf. split.
  - constructor; [| |exact Hi].
    + intros a [->|Ha]%elem_of_registered; cbn [with_cache_filesystem db_world w_fs]; [by rewrite lookup_insert_eq|].
      destruct (decide (a = db_next_address db)) as [->|Hn]; [by rewrite lookup_insert_eq|].
      rewrite lookup_insert_ne by done. by apply Hreg.
    + intros a fs. cbn [with_cache_filesystem db_world w_fs].
      destruct (decide (a = db_next_address db)) as [->|Hn].
      * rewrite lookup_insert_eq. intros [= <-]. apply new_cache_fs_ok.
      * rewrite lookup_insert_ne by done. apply Hall.
  - intros a Ha. cbn [with_cache_filesystem db_world w_fs db_next_address] in *. rewrite lookup_insert_ne by lia. apply Hf. lia.
Qed.

(** *** Wrapping by name *)
Lemma set_vfs_same db : set_vfs (db_vfs db) db = db.
Proof. by destruct db. Qed.

(** What [WrapCacheFileSystem] wraps: the filesystem of that name, or a new local one. *)
Definition wraps (name : string) db x (rest : list (subsystem X)) : Prop :=
  (exists s, subsystem_name (db_world db) s = name /\ x = as_internal nested fake s /\
     subsystems (db_vfs db) ≡ₚ s :: rest) \/
  (name = "LocalFileSystem"%string /\ x = local_filesystem /\ rest = subsystems (db_vfs db) /\
     name ∉ (subsystem_name (db_world db) <$> subsystems (db_vfs db))).

Lemma WrapCacheFileSystem_ok name db r db' :
  WrapCacheFileSystem local_filesystem nested fake name db = (r, db') ->
  match r with
  | Ok _ => exists x rest v, wraps name db x rest /\ subsystems v ≡ₚ rest /\ db' = with_cache_filesystem x (set_vfs v db)
  | Throw e => e = InvalidInputException /\ db' = db /\ name <> "LocalFileSystem"%string /\
      name ∉ (subsystem_name (db_world db) <$> subsystems (db_vfs db))
  end.
Proof.
  unfold WrapCacheFileSystem, mbind, Handler_bind, extract.
  pose proof (extract_law (subsystem_name (db_world db)) name (db_vfs db)) as He.
  destruct (ExtractSubSystem (subsystem_name (db_world db)) name (db_vfs db)) as [[s|] v].
  - destruct He as [Hn Hs]. rewrite register_cache_filesystem_eq. intros [= <- <-].
    exists (as_internal nested fake s), (subsystems v), v. split; [left; by exists s|done].
  - destruct He as [-> Hn]. rewrite set_vfs_same. destruct (String.eqb_spec name "LocalFileSystem") as [->|Hne].
    + rewrite register_cache_filesystem_eq. intros [= <- <-].
      exists local_filesystem, (subsystems (db_vfs db)), (db_vfs db). split; [by right|]. by rewrite set_vfs_same.
    + intros [= <- <-]. done.
Qed.
(** *** The filesystem of a kind, taken or created *)

(** [x] is the first of [xs] of the kind, [xs'] the others; or there is none and [x] is new. *)
Definition taken_kind (suffix : string) (new_filesystem x : X) (xs xs' : list X) : Prop :=
  (xs ≡ₚ x :: xs' /\ EndsWith (fs_name x) suffix = true) \/
  (x = new_filesystem /\ xs' = xs /\ forall y, y ∈ xs -> EndsWith (fs_name y) suffix = false).

Lemma taken_kind_name suffix new_filesystem x xs xs' :
  EndsWith (fs_name new_filesystem) suffix = true -> taken_kind suffix new_filesystem x xs xs' ->
  EndsWith (fs_name x) suffix = true.
Proof. intros Hn [[_ Hx]|[-> _]]; done. Qed.

(** [others] are the filesystems of other kinds that are registered already. *)
Lemma ExtractOrCreate_ok suffix new_filesystem db others xs :
  subsystems (db_vfs db) ≡ₚ others ++ (Foreign <$> xs) ->
  Forall (fun s => EndsWith (subsystem_name (db_world db) s) suffix = false) others ->
  exists x xs' v, ExtractOrCreate nested fake suffix new_filesystem db = (Ok x, set_vfs v db) /\
    subsystems v ≡ₚ others ++ (Foreign <$> xs') /\ taken_kind suffix new_filesystem x xs xs'.
Proof.
  intros Hs Ho. unfold ExtractOrCreate, mbind, Handler_bind, gets, extract. cbv beta iota.
  set (name := subsystem_name (db_world db)) in *.
  assert (forall n, n ∈ ListSubSystems name (db_vfs db) <-> exists s, s ∈ others ++ (Foreign <$> xs) /\ name s = n) as Hin.
  { intros n. rewrite (list_subsystems_law name (db_vfs db)), list_elem_of_fmap. setoid_rewrite Hs. split; intros (s & H1 & H2); exists s; by split. }
  destruct (List.find _ _) as [n|] eqn:Hfind.
  - apply List.find_some in Hfind as [Hn Hsuf]. apply list_elem_of_In, Hin in Hn as (s0 & Hs0 & <-).
    pose proof (extract_law name (name s0) (db_vfs db)) as He. cbv beta iota. fold name.
    destruct (ExtractSubSystem name (name s0) (db_vfs db)) as [[s|] v].
    + destruct He as [Hname Hp]. rewrite Hs in Hp.
      assert (s ∈ Foreign <$> xs) as Hsx.
      { assert (s ∈ others ++ (Foreign <$> xs)) as [Hi|Hi]%elem_of_app by (rewrite Hp; left); [|done].
        rewrite Forall_forall in Ho. specialize (Ho s Hi). simpl in Ho. rewrite Hname, Hsuf in Ho. done. }
      apply list_elem_of_fmap in Hsx as (x & -> & Hx). apply elem_of_Permutation in Hx as [xs' Hx].
      exists x, xs', v. split; [done|]. split.
      * rewrite Hx in Hp. rewrite fmap_cons, <-Permutation_middle in Hp. by apply Permutation_cons_inv in Hp.
      * left. split; [done|]. unfold name in Hname, Hsuf. rewrite <-Hname in Hsuf. done.
    + destruct He as [_ Hn]. exfalso. apply Hn. rewrite Hs. apply list_elem_of_fmap. by exists s0.
  - exists new_filesystem, xs, (db_vfs db). rewrite set_vfs_same. split; [done|]. split; [done|]. right. split; [done|]. split; [done|].
    intros y Hy. refine (List.find_none _ _ Hfind (fs_name y) _). apply list_elem_of_In, Hin.
    exists (Foreign y). split; [|done]. apply elem_of_app. right. apply list_elem_of_fmap. by exists y.
Qed.
(** *** Loading, step by step *)
Lemma handler_inv {St A B} (m : Handler St A) (f : A -> Handler St B) st r st' :
  (m ≫= f) st = (r, st') ->
  (exists e, m st = (Throw e, st') /\ r = Throw e) \/ exists a st1, m st = (Ok a, st1) /\ f a st1 = (r, st').
Proof. unfold mbind, Handler_bind. destruct (m st) as [[a|e] st1]; [intros Hf; right; eauto|]. intros [= <- <-]. left. eauto. Qed.

(** The state while the extension loads: the readers and the cache filesystems so far, the next
    address, the virtual filesystem, the external file cache, the extensions and the options,
    and otherwise an instance as it is constructed. *)
Record loading (m : InstanceCacheReaderManager.reader_manager S) (fss : gmap nat (cache_fs X V)) (n : nat) (v : W)
    (ext : bool) (exts opts : list string) db : Prop := {
  ld_readers : i_readers (w_instance (db_world db)) = m;
  ld_fs : w_fs (db_world db) = fss;
  ld_next : db_next_address db = n;
  ld_vfs : db_vfs db = v;
  ld_cache : external_file_cache db = ext;
  ld_extensions : db_extensions db = exts;
  ld_options : db_options db = opts;
  ld_config : i_config (w_instance (db_world db)) = default_config;
  ld_registry a : a ∈ all_cache_fs (db_world db) <-> is_Some (fss !! a)
}.

Definition no_readers : InstanceCacheReaderManager.reader_manager S :=
  InstanceCacheReaderManager.MkReaderManager false None None None.
Definition disk_selected : InstanceCacheReaderManager.reader_manager S :=
  InstanceCacheReaderManager.MkReaderManager false None (Some InstanceCacheReaderManager.new_disk_reader)
    (Some OnDiskReader).

(** The local filesystem throws [e] when it creates a directory. *)
Definition directory_refused (e : exn) : Prop := exists dir f, (fs_create_directory dir f).1 = Throw e.

Lemma create_directories_throws dirs f e : (create_directories dirs f).1 = Throw e -> directory_refused e.
Proof.
  revert f. induction dirs as [|d dirs IH]; intros f; simpl; [done|].
  destruct (fs_create_directory d f) as [[[]|e'] f'] eqn:E; [apply IH|]. intros [= ->]. exists d, f. by rewrite E.
Qed.

(** Cleaning up fails where a temporary file cannot be inspected or removed. *)
Lemma cleanup_task_error t path f e : (cleanup_task t path f).1 = Throw e -> local_error F e.
Proof.
  unfold cleanup_task. destruct (LocalFs.fs_open false path f) as [[h|]|x] eqn:Ho; simpl; [|done|intros [= <-]; by eapply open_error].
  destruct (fs_mtime path f) as [time|x] eqn:Ht; simpl; [|intros [= <-]; by eapply mtime_error].
  destruct (Z.geb _ _); [apply remove_error|done].
Qed.

Lemma cleanup_error t dirs f e : (CleanupDeadTempFiles t dirs f).1 = Throw e -> local_error F e.
Proof.
  unfold CleanupDeadTempFiles. destruct (Nat.eqb _ 0); [done|]. generalize (temp_files_under dirs f) as paths.
  intros paths. revert f. induction paths as [|path paths IH]; intros f; simpl; [done|].
  pose proof (cleanup_task_error t path f) as H1. destruct (cleanup_task t path f) as [[b|x] f1]; simpl in *.
  - specialize (IH f1). destruct (cleanup_tasks t paths f1) as [[n|x] f2]; simpl in *; [done|exact IH].
  - destruct (cleanup_tasks t paths f1) as [rest f2]. intros [= <-]. by apply H1.
Qed.

Section Steps.
Variables (m : InstanceCacheReaderManager.reader_manager S) (fss : gmap nat (cache_fs X V)) (n : nat) (v : W).
Variables (ext : bool) (exts opts : list string) (db : database X V F S R W).
Hypothesis Hl : loading m fss n v ext exts opts db.

Lemma loading_on_files {A} (op : F -> Res A * F) r db' :
  on_files op db = (r, db') ->
  loading m fss n v ext exts opts db' /\ forall e, r = Throw e -> exists f, (op f).1 = Throw e.
Proof.
  destruct Hl as [H1 H2 H3 H4 H5 H6 H7 H8 H9]. unfold on_files, in_instance_of, in_world, zoom.
  destruct (op (i_files (w_instance (db_world db)))) as [r0 f0] eqn:E. intros [= <- <-].
  split; [by constructor|]. intros e ->. eexists. by rewrite E.
Qed.

Lemma loading_set_vfs v' : loading m fss n v' ext exts opts (set_vfs v' db).
Proof. destruct Hl. by constructor. Qed.

Lemma loading_register x :
  loading m (<[n := new_cache_fs x]> fss) (Datatypes.S n) (RegisterSubSystem (Wrapped n) v) ext exts opts
    (with_cache_filesystem x db).
Proof.
  destruct Hl as [H1 H2 H3 H4 H5 H6 H7 H8 H9]. constructor; cbn [with_cache_filesystem db_world w_fs w_instance db_next_address
    db_vfs external_file_cache db_options db_extensions with_registry i_config i_readers]; try done.
  - by rewrite H2, H3.
  - by rewrite H3.
  - by rewrite H3, H4.
  - intros a. unfold all_cache_fs. cbn [w_instance with_registry i_registry]. rewrite elem_of_registered, H3.
    unfold all_cache_fs in H9. rewrite H9. destruct (decide (a = n)) as [->|Hn]; [rewrite lookup_insert_eq; split; eauto|].
    rewrite lookup_insert_ne by done. split; [by intros [?|?]|by right].
Qed.

Lemma loading_disable : loading m fss n v false exts opts (disable_external_file_cache db).2.
Proof. destruct Hl. by constructor. Qed.
Lemma loading_add_options names : loading m fss n v ext exts (opts ++ names) (add_options names db).2.
Proof. destruct Hl. constructor; simpl; try done. by f_equal. Qed.
Lemma loading_register_functions names : loading m fss n v ext exts opts (register_functions names db).2.
Proof. by destruct Hl. Qed.

End Steps.

(** The filesystem of one kind is taken or created, and wrapped. *)
Lemma loading_kind {B} m fss n v ext exts opts db suffix new_filesystem (k : Handler (database X V F S R W) B) others xs r db' :
  loading m fss n v ext exts opts db ->
  subsystems v ≡ₚ others ++ (Foreign <$> xs) ->
  Forall (fun s => EndsWith (subsystem_name (db_world db) s) suffix = false) others ->
  (x ← ExtractOrCreate nested fake suffix new_filesystem; _ ← register_cache_filesystem x; k) db = (r, db') ->
  exists x xs' v' db1, taken_kind suffix new_filesystem x xs xs' /\ k db1 = (r, db') /\
    subsystems v' ≡ₚ (Wrapped n :: others) ++ (Foreign <$> xs') /\
    loading m (<[n := new_cache_fs x]> fss) (Datatypes.S n) v' ext exts opts db1.
Proof.
  intros Hl Hv Ho. rewrite <-(ld_vfs _ _ _ _ _ _ _ _ Hl) in Hv.
  destruct (ExtractOrCreate_ok suffix new_filesystem db others xs Hv Ho) as (x & xs' & v' & E & Hv' & Ht).
  intros Hk. apply handler_inv in Hk as [(e & E' & _)|(x' & db1 & E' & Hk)]; rewrite E in E'; [done|].
  injection E' as <- <-. apply handler_inv in Hk as [(e & E' & _)|([] & db1 & E' & Hk)]; rewrite register_cache_filesystem_eq in E'; [done|].
  injection E' as <-. exists x, xs', (RegisterSubSystem (Wrapped n) v'), (with_cache_filesystem x (set_vfs v' db)).
  split; [done|]. split; [done|]. split; [by rewrite register_law, Hv'|].
  apply (loading_register m fss n v' ext exts opts), (loading_set_vfs m fss n v ext exts opts db Hl).
Qed.

(** The httpfs extension: loaded already, or loaded now. *)
Definition with_httpfs db : Res unit * W :=
  if IsHttpfsExtensionLoaded db then (Ok tt, db_vfs db) else load_httpfs (db_vfs db).

Definition httpfs_listed (exts : list string) : Prop := existsb (String.eqb HTTPFS_EXTENSION) exts = true.

Lemma loading_httpfs m fss n v ext exts opts db r db1 :
  loading m fss n v ext exts opts db -> EnsureHttpfsExtensionLoaded load_httpfs db = (r, db1) ->
  match r with
  | Ok _ => exists exts', httpfs_listed exts' /\ loading m fss n (with_httpfs db).2 ext exts' opts db1
  | Throw e => (with_httpfs db).1 = Throw e
  end.
Proof.
  intros Hl. unfold EnsureHttpfsExtensionLoaded, with_httpfs, gets, mbind, Handler_bind. cbv beta iota.
  destruct (IsHttpfsExtensionLoaded db) eqn:Hx.
  - intros [= <- <-]. exists exts. unfold httpfs_listed, IsHttpfsExtensionLoaded in *. destruct Hl. by subst.
  - destruct (load_httpfs (db_vfs db)) as [[[]|e] v1]; intros [= <- <-]; [|done].
    exists (HTTPFS_EXTENSION :: exts). split; [done|]. destruct Hl. constructor; simpl; try done. by f_equal.
Qed.

Lemma loading_select fss n v ext exts opts db r db1 :
  loading no_readers fss n v ext exts opts db -> in_instance_of (SetCacheType DEFAULT_CACHE_TYPE) db = (r, db1) ->
  r = Ok tt /\ loading disk_selected fss n v ext exts opts db1.
Proof.
  intros [H1 H2 H3 H4 H5 H6 H7 H8 H9]. unfold in_instance_of, in_world, zoom, SetCacheType, change_config, modify_state, mbind, Handler_bind.
  change (existsb (String.eqb DEFAULT_CACHE_TYPE) ALL_CACHE_TYPES) with true. cbv beta iota zeta.
  intros [= <- <-]. split; [done|]. constructor; try done.
  - simpl. by rewrite H1.
  - simpl. by rewrite H8.
Qed.

(** *** Wrapping a filesystem *)

(** C35: WrapCacheFileSystem replaces the filesystem of the given name, and only that one, by a new
    cache filesystem around it, which is registered with the instance and has empty caches; the
    name "LocalFileSystem" wraps a new local filesystem when none is registered; for any other
    name that is not registered it throws InvalidInputException and changes nothing. *)
Theorem wrapped_filesystem_is_cached name db r db' :
  world_ok (db_world db) -> fresh_addresses db ->
  WrapCacheFileSystem local_filesystem nested fake name db = (r, db') ->
  world_ok (db_world db') /\ fresh_addresses db' /\
  match r with
  | Ok _ => exists x rest, wraps name db x rest /\
      let a := db_next_address db in
      subsystems (db_vfs db') ≡ₚ Wrapped a :: rest /\
      w_fs (db_world db) !! a = None /\ w_fs (db_world db') = <[a := new_cache_fs x]> (w_fs (db_world db)) /\
      (forall b, b ∈ all_cache_fs (db_world db') <-> b = a \/ b ∈ all_cache_fs (db_world db)) /\
      subsystem_name (db_world db') (Wrapped a) = ("cache_httpfs_" +:+ fs_name x)%string
  | Throw e => e = InvalidInputException /\ db' = db /\ name <> "LocalFileSystem"%string /\
      name ∉ (subsystem_name (db_world db) <$> subsystems (db_vfs db))
  end.
Proof.
  intros Hw Hf Hr. apply WrapCacheFileSystem_ok in Hr. destruct r as [u|e].
  - destruct Hr as (x & rest & v & Hx & Hv & ->).
    destruct (with_cache_filesystem_ok x (set_vfs v db) Hw Hf) as [Hw' Hf']. split; [done|]. split; [done|].
    exists x, rest. split; [done|]. cbn [with_cache_filesystem set_vfs db_vfs db_world db_next_address w_fs subsystem_name].
    split; [by rewrite register_law, Hv|]. split; [by apply Hf|]. split; [done|].
    split; [intros b; apply elem_of_registered|]. by rewrite lookup_insert_eq.
  - destruct Hr as (-> & -> & Hn & Hnot). done.
Qed.

Lemma loading_fake m fss n v ext exts opts db r db1 :
  loading m fss n v ext exts opts db -> register_fake db = (r, db1) ->
  match r with
  | Ok _ => loading m fss n (RegisterSubSystem FakeFileSystem v) ext exts opts db1
  | Throw e => directory_refused e
  end.
Proof.
  intros Hl Hr. unfold register_fake in Hr. apply handler_inv in Hr as [(e & E & ->)|([] & d & E & [= <- <-])];
    destruct (loading_on_files _ _ _ _ _ _ _ _ Hl _ _ _ E) as [L Hth].
  - destruct (Hth _ eq_refl) as [g Hg]. by exists GetFakeOnDiskCacheDirectory, g.
  - rewrite (ld_vfs _ _ _ _ _ _ _ _ L). exact (loading_set_vfs _ _ _ _ _ _ _ _ L _).
Qed.

(** *** Loading *)
Variable now : Z.
Variable IsPowerOfTwo : Z -> bool.
Variables (page_size : Z) (al : Blocks.Allocator) (clock : nat -> Z).
Hypothesis Hhttp : EndsWith (fs_name new_http_filesystem) "HTTPFileSystem" = true.
Hypothesis Hhugging : EndsWith (fs_name new_huggingface_filesystem) "HuggingFaceFileSystem" = true.

Lemma fake_suffix m fss n v ext exts opts db t :
  loading m fss n v ext exts opts db -> substr_from (28 - String.length t) "cache_httpfs_fake_filesystem" <> t ->
  EndsWith (subsystem_name (db_world db) FakeFileSystem) t = false.
Proof. intros _ Ht. destruct (EndsWith _ t) eqn:E; [|done]. by apply EndsWith_substr in E. Qed.

Lemma wrapped_suffix m fss n v ext exts opts db a x t1 t2 :
  loading m fss n v ext exts opts db -> fss !! a = Some (new_cache_fs x) -> EndsWith (fs_name x) t1 = true ->
  substr_from (String.length t2 - String.length t1) t2 <> t1 ->
  substr_from (String.length t1 - String.length t2) t1 <> t2 ->
  EndsWith (subsystem_name (db_world db) (Wrapped a)) t2 = false.
Proof.
  intros Hl Ha Hx Hn Hn'. simpl. rewrite (ld_fs _ _ _ _ _ _ _ _ Hl), Ha.
  apply (EndsWith_other _ t1); [|done|done]. by apply EndsWith_prefixed.
Qed.

(** The three filesystems of httpfs are wrapped, one after the other. *)
Lemma loading_three {B} m n v ext exts opts db (k : Handler (database X V F S R W) B) xs r db' :
  loading m ∅ n v ext exts opts db -> subsystems v ≡ₚ FakeFileSystem :: (Foreign <$> xs) ->
  (http_fs ← ExtractOrCreateHttpfs new_http_filesystem nested fake; _ ← register_cache_filesystem http_fs;
   hf_fs ← ExtractOrCreateHuggingfs new_huggingface_filesystem nested fake; _ ← register_cache_filesystem hf_fs;
   s3_fs ← ExtractOrCreateS3fs new_s3_filesystem nested fake; _ ← register_cache_filesystem s3_fs; k) db = (r, db') ->
  exists x1 x2 x3 xs1 xs2 xs3 v' db1,
    taken_kind "HTTPFileSystem" new_http_filesystem x1 xs xs1 /\
    taken_kind "HuggingFaceFileSystem" new_huggingface_filesystem x2 xs1 xs2 /\
    taken_kind "S3FileSystem" new_s3_filesystem x3 xs2 xs3 /\ k db1 = (r, db') /\
    subsystems v' ≡ₚ Wrapped (2 + n)%nat :: Wrapped (1 + n)%nat :: Wrapped n :: FakeFileSystem :: (Foreign <$> xs3) /\
    loading m (<[(2 + n)%nat := new_cache_fs x3]> (<[(1 + n)%nat := new_cache_fs x2]> {[n := new_cache_fs x1]})) (3 + n)%nat v' ext exts opts db1.
Proof.
  intros Hl Hv Hk.
  eapply (loading_kind m ∅ n v _ _ _ _ _ _ _ [FakeFileSystem]) in Hk as (x1 & xs1 & v1 & db1 & Ht1 & Hk1 & Hv1 & Hl1); [|exact Hl|exact Hv|].
  2: { repeat constructor. by eapply fake_suffix. }
  pose proof (taken_kind_name _ _ _ _ _ Hhttp Ht1) as N1.
  eapply loading_kind in Hk1 as (x2 & xs2 & v2 & db2 & Ht2 & Hk2 & Hv2 & Hl2); [|exact Hl1|exact Hv1|].
  2: { repeat constructor; [|by eapply fake_suffix].
    eapply (wrapped_suffix _ _ _ _ _ _ _ _ _ x1); [exact Hl1|by rewrite lookup_insert_eq|exact N1|done|done]. }
  pose proof (taken_kind_name _ _ _ _ _ Hhugging Ht2) as N2.
  eapply loading_kind in Hk2 as (x3 & xs3 & v3 & db3 & Ht3 & Hk3 & Hv3 & Hl3); [|exact Hl2|exact Hv2|].
  2: { repeat constructor; [| |by eapply fake_suffix].
    - eapply (wrapped_suffix _ _ _ _ _ _ _ _ _ x2); [exact Hl2|by rewrite lookup_insert_eq|exact N2|done|done].
    - eapply (wrapped_suffix _ _ _ _ _ _ _ _ _ x1); [exact Hl2| |exact N1|done|done].
      rewrite lookup_insert_ne by lia. by rewrite lookup_insert_eq. }
  exists x1, x2, x3, xs1, xs2, xs3, v3, db3. split; [done|]. split; [done|]. split; [done|]. split; [done|]. split; [done|exact Hl3].
Qed.

(** What [db'] is after the extension is loaded into [db]: [xs] are the filesystems that were
    registered once httpfs is loaded. *)
Record ready db xs db' : Prop := {
  ready_world : world_ok (db_world db');
  ready_addresses : fresh_addresses db';
  ready_config : i_config (w_instance (db_world db')) = default_config;
  ready_reader : InstanceCacheReaderManager.GetCacheReader (i_readers (w_instance (db_world db'))) = Some OnDiskReader;
  ready_wrapped : exists x1 x2 x3 xs1 xs2 xs3, let n := db_next_address db in
    taken_kind "HTTPFileSystem" new_http_filesystem x1 xs xs1 /\
    taken_kind "HuggingFaceFileSystem" new_huggingface_filesystem x2 xs1 xs2 /\
    taken_kind "S3FileSystem" new_s3_filesystem x3 xs2 xs3 /\
    subsystems (db_vfs db') ≡ₚ
      Wrapped (2 + n)%nat :: Wrapped (1 + n)%nat :: Wrapped n :: FakeFileSystem :: (Foreign <$> xs3) /\
    w_fs (db_world db') = <[(2 + n)%nat := new_cache_fs x3]> (<[(1 + n)%nat := new_cache_fs x2]> {[n := new_cache_fs x1]}) /\
    forall a, a ∈ all_cache_fs (db_world db') <-> (n <= a < 3 + n)%nat;
  ready_no_double_caching : external_file_cache db' = false;
  ready_httpfs : IsHttpfsExtensionLoaded db' = true;
  ready_options : db_options db' = db_options db ++ option_names (F := F) (S := S) (R := R) now IsPowerOfTwo page_size al clock
}.

Lemma three_addresses {A} (a1 a2 a3 : A) n a :
  is_Some ((<[(2 + n)%nat := a3]> (<[(1 + n)%nat := a2]> {[n := a1]}) : gmap nat A) !! a) <-> (n <= a < 3 + n)%nat.
Proof.
  destruct (decide (a = 2 + n)%nat) as [->|H2]; [rewrite lookup_insert_eq; split; [lia|by eexists]|]. rewrite lookup_insert_ne by done.
  destruct (decide (a = 1 + n)%nat) as [->|H1]; [rewrite lookup_insert_eq; split; [lia|by eexists]|]. rewrite lookup_insert_ne by done.
  destruct (decide (a = n)) as [->|H3]; [rewrite lookup_singleton_eq; split; [lia|by eexists]|]. rewrite lookup_singleton_ne by done.
  split; [by intros [? [=]]|lia].
Qed.

Lemma disk_selected_ok : readers_ok disk_selected.
Proof.
  constructor; simpl.
  - done.
  - unfold disk_memory_of. simpl. done.
  - intros r [= <-]. apply index_ok_empty.
Qed.

Lemma loading_ready x1 x2 x3 xs1 xs2 xs3 v exts db xs db' :
  let n := db_next_address db in
  taken_kind "HTTPFileSystem" new_http_filesystem x1 xs xs1 ->
  taken_kind "HuggingFaceFileSystem" new_huggingface_filesystem x2 xs1 xs2 ->
  taken_kind "S3FileSystem" new_s3_filesystem x3 xs2 xs3 ->
  subsystems v ≡ₚ Wrapped (2 + n)%nat :: Wrapped (1 + n)%nat :: Wrapped n :: FakeFileSystem :: (Foreign <$> xs3) ->
  httpfs_listed exts ->
  loading disk_selected (<[(2 + n)%nat := new_cache_fs x3]> (<[(1 + n)%nat := new_cache_fs x2]> {[n := new_cache_fs x1]})) (3 + n)%nat v
    false exts (db_options db ++ option_names (F := F) (S := S) (R := R) now IsPowerOfTwo page_size al clock) db' ->
  ready db xs db'.
Proof.
  intros n H1 H2 H3 Hv Hx [L1 L2 L3 L4 L5 L6 L7 L8 L9]. constructor; try done.
  - constructor.
    + intros a Ha. rewrite L2. by apply L9.
    + intros a fs. rewrite L2. intros Ha. apply lookup_insert_Some in Ha as [[_ <-]|[_ Ha]]; [apply new_cache_fs_ok|].
      apply lookup_insert_Some in Ha as [[_ <-]|[_ Ha]]; [apply new_cache_fs_ok|].
      apply lookup_singleton_Some in Ha as [_ <-]. apply new_cache_fs_ok.
    + rewrite L1. apply disk_selected_ok.
  - intros a. rewrite L3, L2. intros Ha. apply eq_None_not_Some. rewrite three_addresses. lia.
  - by rewrite L1.
  - exists x1, x2, x3, xs1, xs2, xs3. split; [done|]. split; [done|]. split; [done|]. rewrite L4. split; [done|]. split; [done|].
    intros a. by rewrite L9, three_addresses.
  - unfold IsHttpfsExtensionLoaded. rewrite L6. exact Hx.
Qed.

Lemma with_httpfs_same db db1 : db_vfs db1 = db_vfs db -> db_extensions db1 = db_extensions db -> with_httpfs db1 = with_httpfs db.
Proof. unfold with_httpfs, IsHttpfsExtensionLoaded. by intros -> ->. Qed.

Ltac next_step H := apply handler_inv in H as [(?e & ?E & ->)|(?a & ?d & ?E & H)].

(** C34: Loading the extension into a database whose filesystems are not wrapped yet leaves it
    ready: every invariant of the instance holds, the settings are the default ones, the on-disk
    reader is selected, and for each of httpfs's three kinds the filesystem that was registered
    (or a new one) is out of the virtual filesystem and wrapped by a cache filesystem that is
    registered there and with the instance; all other filesystems stay, the external file
    cache is off, httpfs is loaded and the settings are declared.  It fails only where creating a
    directory, inspecting or removing a dead temporary file, or loading httpfs does. *)
Theorem loaded_database_is_ready db xs r db' :
  w_fs (db_world db) = ∅ -> subsystems (with_httpfs db).2 ≡ₚ Foreign <$> xs ->
  LoadInternal new_http_filesystem new_huggingface_filesystem new_s3_filesystem nested fake load_httpfs now IsPowerOfTwo
    page_size al clock db = (r, db') ->
  match r with
  | Ok _ => ready db xs db'
  | Throw e => directory_refused e \/ local_error F e \/ (with_httpfs db).1 = Throw e
  end.
Proof.
  intros Hfs Hsubs Hr. unfold LoadInternal in Hr.
  assert (loading no_readers ∅ (db_next_address db) (db_vfs db) (external_file_cache db) (db_extensions db) (db_options db)
    (SetInstanceState db).2) as L.
  { constructor; try done. intros a. split; [by intros ?%elem_of_nil|by intros [? [=]]]. }
  next_step Hr; [done|]. injection E as _ <-.
  next_step Hr; [done|]. injection E as <- <-.
  next_step Hr; destruct (loading_on_files _ _ _ _ _ _ _ _ L _ _ _ E) as [L1 Hth].
  { left. destruct (Hth _ eq_refl) as [g Hg]. by eapply create_directories_throws. }
  next_step Hr; destruct (loading_on_files _ _ _ _ _ _ _ _ L1 _ _ _ E0) as [L2 Hth2].
  { right. left. destruct (Hth2 _ eq_refl) as [g Hg]. by eapply cleanup_error. }
  next_step Hr; [done|]. injection E1 as _ <-. apply loading_disable in L2.
  assert (with_httpfs (disable_external_file_cache d0).2 = with_httpfs db) as Hw.
  { destruct L2. by apply with_httpfs_same. }
  next_step Hr; pose proof (loading_httpfs _ _ _ _ _ _ _ _ _ _ L2 E1) as L3; rewrite Hw in L3; [by right; right|].
  destruct L3 as (exts & Hx & L3).
  next_step Hr; apply (loading_fake _ _ _ _ _ _ _ _ _ _ L3) in E2; [by left|]. rename E2 into L4.
  assert (subsystems (RegisterSubSystem FakeFileSystem (with_httpfs db).2) ≡ₚ FakeFileSystem :: (Foreign <$> xs)) as Hv.
  { by rewrite register_law, Hsubs. }
  apply (loading_three _ _ _ _ _ _ _ _ _ _ _ L4 Hv) in Hr as (x1 & x2 & x3 & xs1 & xs2 & xs3 & v & db5 & T1 & T2 & T3 & Hr & Hv5 & L5).
  next_step Hr; destruct (loading_select _ _ _ _ _ _ _ _ _ L5 E2) as [[=] L6].
  next_step Hr; [done|]. injection E3 as _ <-. eapply loading_add_options in L6.
  next_step Hr; [done|]. injection E3 as _ <-. eapply loading_register_functions in L6.
  next_step Hr; destruct (loading_on_files _ _ _ _ _ _ _ _ L6 _ _ _ E3) as [L7 Hth4].
  { left. destruct (Hth4 _ eq_refl) as [g Hg]. by exists GetDefaultOnDiskCacheDirectory, g. }
  injection Hr as <- <-. eapply loading_register_functions in L7.
  exact (loading_ready x1 x2 x3 xs1 xs2 xs3 v exts db xs _ T1 T2 T3 Hv5 Hx L7).
Qed.
End Load.

(** ** The size of the on-disk cache *)
Section DiskSize.
Context {F : Type} `{FS : LocalFileSystem F} `{FL : !LocalFsLaws F}.
Implicit Types (f : F) (dirs names : list string).

Definition file_bytes f (path : string) : Z := Z.of_nat (length (default [] (contents <$> node f path))).
Definition directory_bytes f dir names : list Z := (fun name => file_bytes f (dir +:+ "/" +:+ name)) <$> names.
Definition cache_bytes f dirs : list Z := dirs ≫= fun dir => directory_bytes f dir (fs_list dir f).

Lemma cache_bytes_cons f dir dirs : cache_bytes f (dir :: dirs) = directory_bytes f dir (fs_list dir f) ++ cache_bytes f dirs.
Proof. done. Qed.

Lemma directory_bytes_nonneg f dir names : Forall (fun n => 0 <= n) (directory_bytes f dir names).
Proof. apply Forall_fmap, Forall_true. intros name. unfold compose, file_bytes. lia. Qed.

Lemma cache_bytes_nonneg f dirs : 0 <= sum_Z (cache_bytes f dirs).
Proof. apply sum_Z_nonneg, Forall_bind, Forall_true. intros dir. apply directory_bytes_nonneg. Qed.

(** What a loop over listed files gives that starts with [total]: every file could be opened
    and the sizes [l] are added to it; or one of the files could not be opened; or the sum
    does not fit. *)
Definition sized f (paths : list string) (total : Z) (l : list Z) (r : Res Z) : Prop :=
  match r with
  | Ok n => n = total + sum_Z l /\ n < 9223372036854775808 /\ Forall (fun p => exists h, open_existing p f = Ok h) paths
  | Throw e =>
      (exists p, p ∈ paths /\ open_existing p f = Throw e) \/ e = UndefinedBehaviour /\ 9223372036854775808 <= total + sum_Z l
  end.

Lemma open_existing_bytes f p h : open_existing p f = Ok h -> file_bytes f p = Z.of_nat (length h).
Proof.
  unfold open_existing, file_bytes. intros (r & Ho & Hr)%bind_Ok. apply open_law in Ho as ->.
  by destruct (contents <$> node f p); simplify_eq/=.
Qed.

Definition listed_in f dir : list string := (fun name => dir +:+ "/" +:+ name)%string <$> fs_list dir f.
Definition listed_files f dirs : list string := dirs ≫= listed_in f.

Lemma directory_size_ok f dir names total :
  0 <= total < 9223372036854775808 ->
  sized f ((fun name => dir +:+ "/" +:+ name)%string <$> names) total (directory_bytes f dir names)
    (directory_size f dir names total).
Proof.
  revert total. induction names as [|name names IH]; intros total Ht; [simpl; split; [lia|by split; [lia|]]|].
  unfold directory_bytes. rewrite !fmap_cons. set (p := (dir +:+ "/" +:+ name)%string). cbn [directory_size]. fold p.
  pose proof (sum_Z_nonneg _ (directory_bytes_nonneg f dir names)) as Hd. unfold directory_bytes in Hd.
  destruct (open_existing p f) as [h|e] eqn:Ho; cbn [mbind Res_bind]; [|left; exists p; split; [left|done]].
  pose proof (open_existing_bytes _ _ _ Ho) as Hp. unfold add_int64.
  destruct (Z.ltb_spec (total + Z.of_nat (length h)) 9223372036854775808); cbn [mbind Res_bind];
    [|right; split; [done|]; rewrite sum_Z_cons, Hp; lia].
  specialize (IH (total + Z.of_nat (length h)) ltac:(lia)). unfold sized, directory_bytes in *. rewrite sum_Z_cons, Hp.
  destruct (directory_size f dir names _) as [n|e].
  - destruct IH as (-> & Hn & Hall). split; [lia|]. split; [done|]. constructor; [by exists h|done].
  - destruct IH as [(q & Hq & He)|[-> Hn]]; [left; exists q; split; [by right|done]|right; split; [done|lia]].
Qed.

Lemma directories_size_ok f dirs total :
  0 <= total < 9223372036854775808 -> sized f (listed_files f dirs) total (cache_bytes f dirs) (directories_size f dirs total).
Proof.
  revert total. induction dirs as [|dir dirs IH]; intros total Ht; [simpl; split; [lia|by split; [lia|]]|].
  unfold sized. rewrite cache_bytes_cons, sum_Z_app. cbn [directories_size].
  pose proof (directory_size_ok f dir (fs_list dir f) total Ht) as H1. fold (listed_in f dir) in H1.
  pose proof (sum_Z_nonneg _ (directory_bytes_nonneg f dir (fs_list dir f))) as Hd. pose proof (cache_bytes_nonneg f dirs).
  change (listed_files f (dir :: dirs)) with (listed_in f dir ++ listed_files f dirs).
  destruct (directory_size f dir _ total) as [t|e]; cbn [mbind Res_bind] in *.
  - destruct H1 as (-> & Hn & Hall). specialize (IH _ (conj (Z.add_nonneg_nonneg _ _ (proj1 Ht) Hd) Hn)).
    unfold sized in IH. destruct (directories_size f dirs _) as [n|e].
    + destruct IH as (-> & Hn2 & Hall2). split; [lia|]. split; [done|]. by apply Forall_app.
    + destruct IH as [(q & Hq & He)|[-> Hn2]]; [left; exists q; split; [apply elem_of_app; by right|done]|right; split; [done|lia]].
  - destruct H1 as [(q & Hq & He)|[-> Hn]]; [left; exists q; split; [apply elem_of_app; by left|done]|right; split; [done|lia]].
Qed.

Context {X V : Type} `{InternalFileSystem X V} {S R W : Type}.
Implicit Types db : database X V F S R W.

(** C40: the size that GetOnDiskDataCacheSize returns is the sum of the lengths of all files
    that are listed in the cache directories, each of which it could open (a directory that
    is configured twice counts twice).  It throws what the opening of one of them throws (an
    unreadable entry, or one that is gone), and where the sum does not fit the 64-bit integer
    it is added up in, from 2^63 on, the behaviour is undefined.  Nothing changes. *)
Theorem on_disk_cache_size_is_exact db :
  let f := i_files (instance_of db) in
  let dirs := on_disk_cache_directories (i_config (instance_of db)) in
  let size := sum_Z (cache_bytes f dirs) in
  (GetOnDiskDataCacheSize db).2 = db /\
  match (GetOnDiskDataCacheSize db).1 with
  | Ok n => n = size /\ n < 2 ^ 63 /\ Forall (fun p => exists h, open_existing p f = Ok h) (listed_files f dirs)
  | Throw e => (exists p, p ∈ listed_files f dirs /\ open_existing p f = Throw e) \/ e = UndefinedBehaviour /\ 2 ^ 63 <= size
  end.
Proof. intros f dirs size. split; [done|]. by apply (directories_size_ok f dirs 0). Qed.

(** A directory that is listed twice is counted twice. *)
Lemma repeated_directory_counts_twice f dir : sum_Z (cache_bytes f [dir; dir]) = 2 * sum_Z (cache_bytes f [dir]).
Proof. rewrite !cache_bytes_cons, !sum_Z_app. simpl. lia. Qed.
End DiskSize.

(** ** Witnesses *)

(** A virtual filesystem that is the list of its filesystems. *)
Section ListVfs.
Context {Fs : Type}.
Implicit Types (fs : Fs) (l : list Fs).

Fixpoint extract_first (name : Fs -> string) (n : string) l : option Fs * list Fs :=
  match l with
  | [] => (None, [])
  | fs :: l => if String.eqb (name fs) n then (Some fs, l) else let '(r, l) := extract_first name n l in (r, fs :: l)
  end.

#[export] Instance list_vfs : VirtualFileSystem (list Fs) Fs := {
  ListSubSystems name l := name <$> l;
  ExtractSubSystem := extract_first;
  RegisterSubSystem fs l := l ++ [fs]
}.

Lemma extract_first_law name n l :
  match extract_first name n l with
  | (Some fs, l') => name fs = n /\ l ≡ₚ fs :: l'
  | (None, l') => l' = l /\ n ∉ (name <$> l)
  end.
Proof.
  induction l as [|fs l IH]; simpl; [split; [done|apply not_elem_of_nil]|].
  destruct (String.eqb_spec (name fs) n) as [Heq|Hne]; [done|]. destruct (extract_first name n l) as [[fs'|] l'].
  - destruct IH as [H1 ->]. split; [done|]. apply Permutation_swap.
  - destruct IH as [-> H2]. split; [done|]. rewrite not_elem_of_cons. split; [|done]. intros Heq. by apply Hne.
Qed.

#[export] Program Instance list_vfs_laws : VirtualFileSystemLaws (list Fs) Fs := { subsystems l := l }.
Next Obligation. done. Qed.
Next Obligation. intros name n l. exact (extract_first_law name n l). Qed.
Next Obligation. intros fs l. simpl. by rewrite Permutation_app_comm. Qed.
End ListVfs.

Definition start_database : database nat unit disk ExtensionBoundedDataCacheStorage.storage unit (list (subsystem nat)) :=
  MkDatabase [Foreign 1%nat; Foreign 9%nat] (MkWorld ∅ (new_instance sample_readers)) 0 [HTTPFS_EXTENSION] true [] [] ∅.

Definition loaded_database : Res unit * database nat unit disk ExtensionBoundedDataCacheStorage.storage unit (list (subsystem nat)) :=
  LoadInternal 1%nat 2%nat 3%nat (fun _ => 0%nat) 0%nat (fun v => (Ok tt, v)) 9 is_power_of_two 4096 sample_allocator
    (fun _ => 9) start_database.

Lemma loaded_database_is_ready_witness :
  loaded_database.1 = Ok tt /\ subsystems (db_vfs loaded_database.2) = [Foreign 9%nat; FakeFileSystem; Wrapped 0; Wrapped 1; Wrapped 2] /\
  InstanceCacheReaderManager.GetCacheReader (i_readers (w_instance (db_world loaded_database.2))) = Some OnDiskReader.
Proof.
  assert (loaded_database.1 = Ok tt) as H1 by (vm_compute; reflexivity).
  split; [exact H1|]. split; [vm_compute; reflexivity|].
  refine (ready_reader _ _ _ _ _ _ _ _ _ _ _ _ _
    (loaded_database_is_ready 1 256 1%nat 2%nat 3%nat (fun _ => 0%nat) 0%nat (fun v => (Ok tt, v)) 9 is_power_of_two 4096
       sample_allocator (fun _ => 9) eq_refl eq_refl start_database [1%nat; 9%nat] (Ok tt) loaded_database.2 eq_refl _ _)).
  - reflexivity.
  - rewrite <-H1. unfold loaded_database. by destruct (LoadInternal _ _ _ _ _ _ _ _ _ _ _ _).
Defined.

(** The filesystem that is neither httpfs's nor wrapped yet. *)
Definition wrapped_sample : Res unit * database nat unit disk ExtensionBoundedDataCacheStorage.storage unit (list (subsystem nat)) :=
  WrapCacheFileSystem 0%nat (fun _ => 0%nat) 0%nat "SampleFileSystem" start_database.

Lemma wrapped_filesystem_is_cached_witness :
  world_ok 1 256 (db_world wrapped_sample.2) /\ subsystems (db_vfs wrapped_sample.2) = [Foreign 1%nat; Wrapped 0].
Proof.
  destruct (wrapped_filesystem_is_cached 1 256 0%nat (fun _ => 0%nat) 0%nat "SampleFileSystem" start_database (Ok tt)
    wrapped_sample.2) as [Hw _].
  - constructor; [by intros a Ha%elem_of_nil|by intros a fs [=]|]. exact (instance_ok _ _ _ full_world_ok).
  - by intros a _.
  - vm_compute. reflexivity.
  - split; [exact Hw|]. vm_compute. reflexivity.
Defined.

(** A directory of two cache files, of three and of ten bytes. *)
Definition sized_disk : disk :=
  MkDisk {["/c/a" := MkFile [x00; x01; x02] 0 ∅; "/c/b" := MkFile sample_file 0 ∅]} None None.
Definition sized_database : database nat unit disk ExtensionBoundedDataCacheStorage.storage unit (list (subsystem nat)) :=
  MkDatabase [] (MkWorld ∅ (with_config (with_files (new_instance sample_readers) sized_disk)
    (default_config <| on_disk_cache_directories := ["/c"%string] |>))) 0 [] true [] [] ∅.

Lemma on_disk_cache_size_is_exact_witness :
  (GetOnDiskDataCacheSize sized_database).1 = Ok 13 /\
  Forall (fun p => exists h, open_existing p sized_disk = Ok h) (listed_files sized_disk ["/c"%string]).
Proof.
  pose proof (proj2 (on_disk_cache_size_is_exact sized_database)) as H. cbv zeta in H.
  assert ((GetOnDiskDataCacheSize sized_database).1 = Ok 13) as E by (vm_compute; reflexivity).
  rewrite E in H. split; [exact E|]. exact (proj2 (proj2 H)).
Defined.
